(* ===== verification/_CoqProject ===== *)
-Q . S2P
Prelude.v
PyStr.v
Sha256.v
Sha1.v
Yaml.v
Violation.v
PyPath.v
PyRe.v
PyNum.v
Sensitivity.v
Severity.v
Naming.v
NxGraph.v
ContentNode.v
ContentGraph.v
GraphLaws.v
Sample.v
GraphProps.v
GraphQueries.v
GraphSerial.v
MemoPaths.v
ExecutionOrder.v
Definitions.v
GraphBuilder.v
BuilderSample.v
BuilderLaws.v
BuilderProps.v
PlayLayout.v
BuilderTotal.v
Provenance.v
ProvenanceProps.v
Precedence.v
VariableHelpers.v
ViolationConvert.v
Noqa.v
ScanFindings.v
VenvInstall.v
VenvStore.v
VenvProps.v
VenvSteps.v
Scanner.v
VariableRules.v
Partition.v
ScanPipeline.v
ScanProps.v
Remediation.v
RemediationProps.v
Splice.v
Review.v
ReviewProps.v
OperationRegistry.v
OperationProps.v
OperatorQueue.v
ProjectLock.v
Deadline.v
Session.v
ProposalGroups.v
ProposalStore.v
ProposalProps.v
ProposalLive.v
Suppressions.v
Chunking.v
Upload.v
