(* ===== verification/Prelude.v ===== *)
(** * A verification development for APME

    APME scans Ansible content, routes the findings to automatic fixes, AI
    proposals or manual review, asks the user, and writes the approved fixes back to the
    files.  This library models its core: the Python under [src/apme_engine/graph] and
    [src/apme_engine/remediation]; the engine daemon from an upload to the delivered
    result ([src/apme_engine/daemon]); the operations of the gateway
    ([src/apme_gateway]); and the suppressions of the command line.

    ** Parts, and the files that model them

    Foundations:
    - [Prelude] (this file): Python dictionaries as association lists in insertion
      order, a stable sort, the two shapes of worklist loop that the graph queries
      have with the fuel that suffices for them, and generic list lemmas.
    - [PyStr], [PyPath], [PyNum], [PyRe], [Sha256], [Sha1], [Yaml]: the [str] methods the sources
      use on Latin-1 text, POSIX paths, [int], floats, regular expressions with
      a matching relation, the hashes, YAML values with [repr] and [str]; PyYAML and
      ruamel.yaml (the latter behind [FormattedYAML]) are the class [YamlLib].
    - [Violation]: the dictionaries every component exchanges, rule ids, ledger keys,
      FQCN targets ([rule_ids.py], [transforms/M001_fqcn.py]).
    - [Severity] ([graph/severity.py]), [Naming] ([galaxy_proxy/naming.py]),
      [Sensitivity] ([graph/sensitivity.py], [graph/audit_metadata.py]).
    - [NxGraph]: the networkx interface as a class with its documented laws, and a list
      implementation that satisfies them.

    The content graph ([graph/content_graph.py]):
    - [ContentNode], [ContentGraph]: nodes with their typed
      fields, bounded history of snapshots and violation ledger; the graph object, whose
      mutating methods are functions from graph to graph.
    - [GraphLaws]: what the operations do to one node as a relation ([node_step]) and to
      the graph ([graph_steps]); every method is shown to be such a sequence of steps.
      [GraphProps] states the properties of the graph on top of it.
    - [GraphQueries]: the traversals (play scope, positional ancestors, containment).
    - [GraphSerial]: [to_dict], [from_dict] and the execution edges.
    - [ExecutionOrder]: [execution_successors], reachability along it and the order of
      the producers of runtime variables.

    From parsed definitions to the graph ([apme_engine/engine]):
    - [Definitions] ([engine/models.py], [engine/keyutil.py], the end of [Parser.run]): the
      classes the loader fills, their keys, [children_to_key], the merging of artifacts.
    - [GraphBuilder] ([engine/graph_builder.py]): every method of the builder;
      [BuilderLaws]: its operations as sequences of small steps; [BuilderProps],
      [PlayLayout], [BuilderTotal]: the properties; [BuilderSample]: sample projects.

    Variables ([graph/variable_provenance.py], [graph/variable_helpers.py]):
    - [MemoPaths]: the memoised recursion over the paths above a node that both sources
      use, with the relations "on every path" and "on some path" it decides.
    - [Provenance]: every method of the resolver; [ProvenanceProps]: its traversals;
      [Precedence]: which definition of a name wins.
    - [VariableHelpers]: the [no_log] queries, enclosing plays, references in templates.
    - [VariableRules] ([graph/rules]): L033, L034, L039, L093 and L110 as rules of
      [Scanner].

    Scanning and remediation:
    - [Noqa], [Scanner] ([graph/scanner.py], [graph/rule_base.py]): inline suppressions;
      scans, incremental rescans, expansion of the dirty set.
    - [Partition] ([remediation/partition.py], [remediation/registry.py]): routing.
    - [Remediation], [RemediationProps] ([remediation/graph_engine.py]): the convergence
      loop with its phases; [Splice]: the patches made from the graph.

    The engine daemon:
    - [Upload] ([daemon/engine_upload.py], the upload branch of [FixSession],
      [_accumulate_chunks], [chunked_fs.yield_scan_chunks]): files on their way in.
    - [ScanFindings], [ScanPipeline], [ScanProps] ([daemon/engine_server.py]): the scan
      pipeline, from the loaded project over the collections to install and the fan-out to
      the validators to the list of findings.
    - [VenvInstall], [VenvStore], [VenvProps], [VenvSteps] ([venv_manager/session.py],
      [venv_manager/venv_collections.py]): the environments the validators run in, one per
      session and core version, their installation with its fallbacks, warm hits, the cap,
      and the reaper.
    - [Session], [Deadline] ([daemon/session.py], [daemon/deadline.py], the supervision in
      [daemon/engine_server.py]): sessions, budgets, deadlines and stalls.
    - [Review], [ReviewProps] ([daemon/engine_server.py]): the handlers of a fix session
      from the remediation run over the two review gates and the AI triage to the result.
    - [ViolationConvert] ([daemon/violation_convert.py]): violations on the wire.
    - [Chunking] ([daemon/chunked_reporting.py], [grpc_reporting/servicer.py]): completion
      events on their way to the gateway.

    The gateway and the command line:
    - [OperationRegistry], [OperationProps] ([apme_gateway/operation_registry.py],
      [operation_types.py], handlers of [api/operation_router.py]): the operations in
      flight, their subscribers and approval gates; [ProjectLock]: the per-project lock.
    - [OperatorQueue] ([scan/operator_queue.py], [scan/driver.py]): the answers of
      operators and the loop that forwards them to the engine.
    - [ProposalGroups], [ProposalStore] ([proposals/grouping.py], [proposals/flush.py],
      [proposals/draft.py], [_persist_grouped_proposals] of [grpc_reporting/servicer.py]):
      the review units made of the violations of a scan, and the tables they live in, from
      the stubs of a live session over drafts and gate commits to the flush into the
      analytics; [ProposalProps] and [ProposalLive] hold the properties.
    - [Suppressions] ([fingerprint.py], [cli/_suppressions.py], [cli/suppress_cmd.py]).

    [Sample] holds concrete instances on which the witnesses evaluate.

    The parts interact as the code does: the engine ([Remediation]) partitions a batch
    ([Partition]), applies transforms and AI fixes to the graph ([ContentGraph]),
    expands and rescans the dirty nodes ([Scanner]), registers and resolves findings in
    the ledgers; [Review] runs the engine, offers what it staged, lets the graph carry out
    the decisions and delivers what [Splice] makes of the approved snapshots.

    ** What the theorems show

    - Graph: every sequence of operations keeps the node invariant and the topology; no
      finding is lost and statuses follow the transition diagram; approvals come from
      the approval operations only; exact effect of registering, resolving, approving
      and rejecting.  What [to_dict] writes, [from_dict] reads back: in the full form with
      snapshots and ledgers, in the slim form without.
    - Builder: every vertex of a built graph carries its node and no edge dangles; a play is
      laid out in the order Ansible runs it; notification edges are exact; data-flow edges
      come from producers only, and a node gets one from the last producer before it; the
      build ends on what the loader produces.  [BuilderProps.BuilderDemo] shows what goes
      wrong before and in it: eleven tasks out of order, playbooks mixed up by a blank in
      their path, role dependencies that get no edge, roles that are not found.
    - Queries: each traversal returns exactly the closure it stands for, on cyclic
      graphs too; play scope and positional ancestors are converses; the execution edges
      enter every mainline child once.
    - Variables: the search along execution successors and the walks to include
      boundaries are exact on every graph; producers are ordered by execution; the
      precedence that [resolve_variables] implements, which is not the documented one
      ([VariableRules.RulesDemo]); all-path and some-path queries mean what they say; the
      rules report exactly the tasks they describe, and L110 stays silent about a printed
      secret only when [no_log] covers every way to the task.
    - Scanner: an incremental rescan is the restriction of a full scan; expansion is
      exact and idempotent; suppression comments do what they say.
    - Engine: bounded passes and AI batches, every change rescanned, no finding lost,
      nothing decided on the user's behalf in an interactive run, AI snapshots never
      approved; the ledger agrees with the rescans.
    - Routing: a lossless split, safe tiers, consistent totals.
    - Splicing: bottom-up splicing equals a one-pass reference and writes approved
      snapshots only.
    - Review gates: decisions are carried out exactly, the first proposal of a node
      deciding it (after the consolidation of the second gate there is only one per node);
      delivered texts were approved; the report is the ledger; findings
      kept from the AI stay declined.  [ReviewProps.ReviewDemo] shows a session that
      delivers a declined AI text, because a rescan of it counts as deterministic
      ([Splice.Demo]), and one in which a finding on a play is in no report.
    - Scans: the returned findings are exactly what the validators answered, less silenced
      and disabled ones; a scan without a required validator, a collection or an agreed
      catalog returns nothing; large requests travel whole and within the limits.  The
      enforced mark of a rule has no effect, and a prefixed rule id does not switch a rule on.
    - Environments: what an installation reports is true and it ends after a bounded
      number of commands; an acquired environment serves the request and is found warm
      afterwards; acquiring disturbs nothing else; in every store that builds, kills and other
      calls can reach the cap holds and directories are complete or without a record
      ([VenvSteps]; the condition is that nothing is deleted or reaped during a build);
      the reaper is exact, and would remove a build in progress.
    - Sessions: capacity, uniqueness and expiry in every reachable store; budgets between
      their bounds; a stalled run is stopped within its window.
    - Uploads: paths stay below the root, cap checks are exact, chunking is invisible,
      a sealed upload is final; streams are reassembled to the event that was sent (in the
      typed mode without the violations nested in its report), in frames of bounded size.
      A violation that was converted for the wire survives another round trip, up to empty
      metadata.
    - Gateway: one operation per project and one pending gate in every reachable
      registry; delivery to slow subscribers; refused replays and second
      approvals; creation and reaping; mutual exclusion and progress of the project lock;
      waits for answers refine a bag and return a pending answer; fallbacks never approve.
      [OperationProps.Demo] shows the reaper evicting an operation whose pull request is
      being submitted.
    - Proposals: grouping is a partition by node and lane; outcomes are laid over the
      units exactly; every decision is counted once, under any interleaving of the
      statements of concurrent flushes and commits; flushes and gate commits are exact
      and idempotent; reviews are written once; re-emitted stubs disturb no row and
      abandoned drafts count nothing.  [ProposalProps.StoreDemo] shows a rebuild after
      which two approvals are counted again.
    - Suppressions and secrets: fingerprints survive edits of comments and blank lines,
      suppression is exact, redaction leaves no secret among the values, keeps keys and is
      stable.

    ** Fuel and bounds

    Loops over the graph carry fuel: one step per vertex, or per edge endpoint for the
    traversal that may push a vertex repeatedly.  The exactness theorems would be false
    if the fuel ever ran out.  The search for the context of a producer may take
    exponentially many steps in the number of vertices and edges; [iter2] allows for them
    with a linear exponent; the memoised recursions get one unit per state, as a
    state on the current path is not entered again.  The recursion of
    the graph builder into blocks needs as much fuel as they are nested; [BuilderTotal] shows
    that the build returns with it.  The convergence loop is bounded by the configured number
    of passes and needs no other fuel.  The scanners of [Noqa] recurse on the length of
    the line, the star of a regular expression on the length of the rest of the text.
    Python integers are unbounded; protocol fields are checked against 32 bits where the
    conversion can fail; float results are rounded to 53 bits in [PyNum].

    ** What is not modelled

    Loading projects from files, the rules but for those of [VariableRules]
    and the transforms (the
    models hold for arbitrary ones; a transform or rule is a function, and transforms do
    not raise), the prompts and clients of AI providers, the validators themselves, the Galaxy proxy server, the REST endpoints of the gateway and
    its database but for the proposal tables, the formatter, the rest of the command line and the
    front end, logging and progress texts, the text of unified diffs, and characters
    outside Latin-1. *)

From stdpp Require Import base list gmap strings relations sorting.

(** ** Tactics *)

(** Case analysis on every [match] and [decide] of the goal, then closing. *)
Ltac split_matches :=
  repeat (case_match || case_decide || case_bool_decide); simplify_eq/=.

(** Derive the conjuncts of every hypothesis. *)
Ltac destr := destruct_and?; destruct_or?; simplify_eq/=.

Create HintDb pydb.

(** ** Python dictionaries

    A [dict] keeps its insertion order: assigning to a present key keeps its
    position, assigning to a fresh key appends. *)

Section Dict.
Context {K V : Type} `{EqDecision K}.
Implicit Types (d : list (K * V)) (k : K) (v : V).

(** [d.get(k)] *)
Fixpoint dget k d : option V :=
  match d with
  | [] => None
  | (k', v) :: d' => if decide (k = k') then Some v else dget k d'
  end.

(** [d[k] = v] *)
Fixpoint dset k v d : list (K * V) :=
  match d with
  | [] => [(k, v)]
  | (k', v') :: d' => if decide (k = k') then (k', v) :: d' else (k', v') :: dset k v d'
  end.

(** [d.pop(k, None)] *)
Definition dpop k d : list (K * V) := filter (λ p, p.1 ≠ k) d.

(** In-place mutation of the object stored under [k]. *)
Definition dalter (f : V → V) k d : list (K * V) :=
  (λ p : K * V, (p.1, if decide (p.1 = k) then f p.2 else p.2)) <$> d.

Lemma dget_dset k k' v d :
  dget k' (dset k v d) = if decide (k' = k) then Some v else dget k' d.
Proof.
  induction d as [|[k0 v0] d IH]; simpl; [by case_decide|].
  destruct (decide (k = k0)) as [->|Hk]; simpl; repeat case_decide; try congruence.
Qed.

Lemma dget_dset_eq k v d : dget k (dset k v d) = Some v.
Proof. rewrite dget_dset. by case_decide. Qed.

Lemma dget_dset_ne k k' v d : k' ≠ k → dget k' (dset k v d) = dget k' d.
Proof. intros. rewrite dget_dset. by case_decide. Qed.

Lemma dget_dalter f k k' d :
  dget k' (dalter f k d) = (if decide (k' = k) then f else id) <$> dget k' d.
Proof.
  induction d as [|[k0 v0] d IH]; simpl; [done|].
  repeat case_decide; simplify_eq/=; try congruence; auto.
Qed.

Lemma dget_dpop k k' d :
  dget k' (dpop k d) = if decide (k' = k) then None else dget k' d.
Proof.
  induction d as [|[k0 v0] d IH]; simpl; [by case_decide|].
  unfold dpop in *; rewrite filter_cons; simpl.
  repeat case_decide; simplify_eq/=; repeat case_decide; congruence.
Qed.

Lemma dget_None k d : dget k d = None ↔ k ∉ d.*1.
Proof.
  induction d as [|[k0 v0] d IH]; simpl; [set_solver|].
  case_decide; subst; [split; [done|set_solver]|].
  rewrite IH. set_solver.
Qed.

Lemma dget_Some_elem k v d : dget k d = Some v → (k, v) ∈ d.
Proof.
  induction d as [|[k0 v0] d IH]; simpl; [done|].
  case_decide; intros; simplify_eq; [by left|right; auto].
Qed.

Lemma dget_elem k v d : NoDup d.*1 → (k, v) ∈ d → dget k d = Some v.
Proof.
  induction d as [|[k0 v0] d IH]; simpl; [set_solver|].
  intros [Hn Hnd]%NoDup_cons [Heq|Hin]%elem_of_cons.
  - simplify_eq. by case_decide.
  - case_decide as Hd; [|auto]. subst. exfalso; apply Hn.
    apply list_elem_of_fmap. by exists (k0, v).
Qed.

Lemma dget_is_Some k d : is_Some (dget k d) ↔ k ∈ d.*1.
Proof.
  destruct (dget k d) as [v|] eqn:E.
  - split; [|by eexists]. intros _. apply list_elem_of_fmap.
    exists (k, v); split; [done|]. by apply dget_Some_elem.
  - split; [intros [? ?]; done|]. by apply dget_None in E.
Qed.

Lemma dkeys_dset_in k v d : k ∈ d.*1 → (dset k v d).*1 = d.*1.
Proof.
  induction d as [|[k0 v0] d IH]; simpl; [set_solver|].
  intros Hin. case_decide; simpl; [done|]. f_equal. apply IH. set_solver.
Qed.

Lemma dkeys_dset_notin k v d : k ∉ d.*1 → dset k v d = d ++ [(k, v)].
Proof.
  induction d as [|[k0 v0] d IH]; simpl; [done|].
  intros Hin. case_decide; simpl; [set_solver|]. f_equal. apply IH. set_solver.
Qed.

Lemma dkeys_dalter f k d : (dalter f k d).*1 = d.*1.
Proof. unfold dalter. rewrite <- list_fmap_compose. apply list_fmap_ext. by intros ? []. Qed.

Lemma dset_NoDup k v d : NoDup d.*1 → NoDup (dset k v d).*1.
Proof.
  intros H. destruct (decide (k ∈ d.*1)) as [Hin|Hin].
  - by rewrite dkeys_dset_in.
  - rewrite dkeys_dset_notin, fmap_app by done. simpl.
    apply NoDup_app. split_and!; [done|set_solver|apply NoDup_singleton].
Qed.

Lemma elem_of_dkeys_dset k v d k' : k' ∈ (dset k v d).*1 ↔ k' = k ∨ k' ∈ d.*1.
Proof.
  rewrite <- !dget_is_Some, dget_dset. case_decide; [|naive_solver].
  split; [by left|by eexists].
Qed.

Lemma dpop_NoDup k d : NoDup d.*1 → NoDup (dpop k d).*1.
Proof.
  induction d as [|[k0 v0] d IH]; simpl; [done|].
  intros [Hn Hnd]%NoDup_cons. unfold dpop in *. rewrite filter_cons; simpl.
  case_decide; simpl; [|auto]. apply NoDup_cons; split; [|auto].
  intros ([? v]&?&[? Hin]%list_elem_of_filter)%list_elem_of_fmap; simplify_eq/=.
  apply Hn, list_elem_of_fmap. by exists (k1, v).
Qed.

Lemma dset_same k v d : dget k d = Some v → dset k v d = d.
Proof.
  induction d as [|[k0 v0] d IH]; simpl; [done|]. case_decide; [by intros [= ->]|]. intros. by rewrite IH.
Qed.

Lemma elem_of_dset k v d k' v' :
  (k', v') ∈ dset k v d → (k' = k ∧ v' = v) ∨ (k', v') ∈ d.
Proof.
  induction d as [|[k0 v0] d IH]; simpl; [set_solver|].
  case_decide; subst; set_solver.
Qed.
End Dict.

#[export] Hint Resolve dset_NoDup dpop_NoDup : pydb.
#[export] Hint Rewrite @dget_dset_eq @dkeys_dalter : pydb.

(** ** Lists *)

Lemma elem_of_last {A} (l : list A) x : last l = Some x → x ∈ l.
Proof. intros (l' & ->)%last_Some. apply elem_of_app. right. by left. Qed.

Lemma elem_of_tail {A} (x : A) (l : list A) : x ∈ tail l → x ∈ l.
Proof. destruct l; [done|]. by right. Qed.

Lemma length_tail {A} (l : list A) : length (tail l) = length l - 1.
Proof. destruct l; simpl; lia. Qed.

#[export] Hint Resolve elem_of_last elem_of_tail : pydb.

(** Counting the values of a dict that satisfy a test. *)
Lemma length_filter_snd {A B} (p : B → bool) (P : B → Prop) `{∀ x, Decision (P x)}
    (l : list (A * B)) :
  (∀ x, p x = true ↔ P x) →
  length (filter (λ kr, p kr.2 = true) l) = length (filter P l.*2).
Proof.
  intros Hp. induction l as [|[a b] l IH]; [done|]. csimpl. rewrite !filter_cons. simpl.
  specialize (Hp b). repeat case_decide; simpl; tauto || congruence.
Qed.

Lemma length_filter_Exists {A} (P : A → Prop) `{∀ x, Decision (P x)} (l : list A) :
  0 < length (filter P l) ↔ Exists P l.
Proof.
  induction l as [|x l IH]; [rewrite Exists_nil; simpl; lia|].
  rewrite filter_cons, Exists_cons, <- IH. case_decide; simpl; split; intros; try tauto; try lia.
  all: by left.
Qed.

(** ** Sorting

    Python's [sorted] is stable; so is this insertion sort. *)

Section Sort.
Context {A : Type} (le : A → A → bool).

Fixpoint insert_by (x : A) (l : list A) : list A :=
  match l with
  | [] => [x]
  | y :: l' => if le x y then x :: l else y :: insert_by x l'
  end.

Definition sort_by (l : list A) : list A := foldr insert_by [] l.

Lemma insert_by_perm x l : insert_by x l ≡ₚ x :: l.
Proof.
  induction l as [|y l IH]; simpl; [done|]. case_match; [done|]. rewrite IH. constructor.
Qed.

Lemma sort_by_perm l : sort_by l ≡ₚ l.
Proof. induction l as [|x l IH]; simpl; [done|]. by rewrite insert_by_perm, IH. Qed.

Lemma elem_of_sort_by x l : x ∈ sort_by l ↔ x ∈ l.
Proof. by rewrite sort_by_perm. Qed.

Hypothesis le_total : ∀ x y, le x y = false → le y x = true.
Hypothesis le_trans : ∀ x y z, le x y = true → le y z = true → le x z = true.

Lemma insert_by_sorted x l :
  StronglySorted (λ a b, le a b = true) l →
  StronglySorted (λ a b, le a b = true) (insert_by x l).
Proof.
  induction 1 as [|y l Hs IH Hy]; simpl; [repeat constructor|]. destruct (le x y) eqn:E.
  - constructor; [by constructor|]. constructor; [done|]. eapply Forall_impl; [exact Hy|]. eauto.
  - constructor; [done|]. rewrite insert_by_perm. constructor; [by apply le_total|done].
Qed.

Lemma sort_by_sorted l : StronglySorted (λ a b, le a b = true) (sort_by l).
Proof. induction l as [|x l IH]; simpl; [constructor|]. by apply insert_by_sorted. Qed.
End Sort.

(** ** Grouping

    [groups.setdefault(f(x), []).append(x)] over a list. *)

Section GroupBy.
Context {K A : Type} `{EqDecision K} (f : A → K).

Definition group_into (d : list (K * list A)) (x : A) : list (K * list A) :=
  dset (f x) (default [] (dget (f x) d) ++ [x]) d.

Definition group_by (l : list A) : list (K * list A) := foldl group_into [] l.

Lemma group_by_snoc l x : group_by (l ++ [x]) = group_into (group_by l) x.
Proof. unfold group_by. by rewrite foldl_app. Qed.

Lemma group_by_NoDup l : NoDup (group_by l).*1.
Proof.
  induction l as [|x l IH] using rev_ind; [constructor|]. rewrite group_by_snoc. by apply dset_NoDup.
Qed.

(** A group holds the elements of its key, in order. *)
Lemma dget_group_by l k :
  dget k (group_by l) = match filter (λ x, f x = k) l with [] => None | xs => Some xs end.
Proof.
  induction l as [|x l IH] using rev_ind; [done|]. rewrite group_by_snoc. unfold group_into.
  rewrite dget_dset, filter_app. destruct (decide (k = f x)) as [->|Hne].
  - rewrite IH, filter_cons, decide_True by done. by destruct (filter _ l).
  - rewrite filter_cons, decide_False by done. rewrite filter_nil, app_nil_r. apply IH.
Qed.

Lemma elem_of_group_by l k xs :
  (k, xs) ∈ group_by l ↔ xs ≠ [] ∧ xs = filter (λ x, f x = k) l.
Proof.
  split.
  - intros Hin. apply dget_elem in Hin; [|apply group_by_NoDup]. rewrite dget_group_by in Hin.
    destruct (filter _ l) eqn:E; naive_solver.
  - intros [Hne ->]. apply dget_Some_elem. rewrite dget_group_by. by destruct (filter _ l).
Qed.

(** Every element is in one group. *)
Lemma group_by_perm l : mjoin (group_by l).*2 ≡ₚ l.
Proof.
  induction l as [|x l IH] using rev_ind; [done|]. rewrite group_by_snoc.
  transitivity (mjoin (group_by l).*2 ++ [x]); [|by rewrite IH].
  unfold group_into. generalize (group_by l). clear. intros d.
  induction d as [|[k xs] d IHd]; simpl; [done|].
  destruct (decide (f x = k)) as [<-|Hne]; simpl.
  - rewrite <- !app_assoc. f_equiv. apply Permutation_app_comm.
  - by rewrite IHd, <- app_assoc.
Qed.
End GroupBy.

Lemma filter_ext_in {A} (P Q : A → Prop) `{∀ x, Decision (P x), ∀ x, Decision (Q x)} (l : list A) :
  (∀ x, x ∈ l → P x ↔ Q x) → filter P l = filter Q l.
Proof.
  induction l as [|x l IH]; intros Hl; [done|]. rewrite !filter_cons, IH by set_solver.
  specialize (Hl x ltac:(set_solver)). repeat case_decide; tauto.
Qed.

Lemma filter_all {A} (P : A → Prop) `{∀ x, Decision (P x)} (l : list A) :
  Forall P l → filter P l = l.
Proof. induction 1; [done|]. rewrite filter_cons, decide_True by done. by f_equal. Qed.

Lemma filter_split {A} (P : A → Prop) `{∀ x, Decision (P x)} (l : list A) :
  l ≡ₚ filter P l ++ filter (λ x, ¬ P x) l.
Proof.
  induction l as [|x l IH]; [done|]. rewrite !filter_cons. destruct (decide (P x)).
  - rewrite decide_False by tauto. simpl. by rewrite <- IH.
  - rewrite decide_True by tauto. rewrite <- Permutation_middle. by rewrite <- IH.
Qed.

Lemma StronglySorted_filter {A} (R : relation A) (P : A → Prop) `{∀ x, Decision (P x)} l :
  StronglySorted R l → StronglySorted R (filter P l).
Proof.
  induction 1 as [|x l Hs IH Hx]; [constructor|]. rewrite filter_cons. case_decide; [|done].
  constructor; [done|]. rewrite Forall_forall in *. intros y [_ Hy]%list_elem_of_filter. auto.
Qed.

Lemma StronglySorted_omap {A B} (R : relation A) (S : relation B) (f : A → option B) l :
  (∀ a a' b b', f a = Some b → f a' = Some b' → R a a' → S b b') →
  StronglySorted R l → StronglySorted S (omap f l).
Proof.
  intros Hf. induction 1 as [|x l Hs IH Hx]; [constructor|]. simpl.
  destruct (f x) as [b|] eqn:E; [|done]. constructor; [done|]. apply Forall_forall.
  rewrite Forall_forall in Hx.
  intros b' (a' & Ha' & Hb')%list_elem_of_omap. apply (Hf x a' b b' E Hb'), Hx, Ha'.
Qed.

Lemma NoDup_omap {A B} (f : A → option B) l :
  (∀ a a' b, f a = Some b → f a' = Some b → a = a') → NoDup l → NoDup (omap f l).
Proof.
  intros Hf. induction 1 as [|x l Hx Hnd IH]; [constructor|]. simpl.
  destruct (f x) as [b|] eqn:E; [|done]. constructor; [|done].
  intros (a' & Ha' & Hb')%list_elem_of_omap. by rewrite (Hf x a' b) in Hx.
Qed.

Lemma string_leb_total x y : String.leb x y = false → String.leb y x = true.
Proof. destruct (String.leb_total x y); congruence. Qed.

Lemma string_leb_trans x y z :
  String.leb x y = true → String.leb y z = true → String.leb x z = true.
Proof.
  rewrite <- !Is_true_true. change (String.le x y → String.le y z → String.le x z). apply transitivity.
Qed.

(** ** Worklist traversals

    The graph queries are [while stack:] loops.  Two shapes occur: the visited
    set is tested when a vertex is popped ([walk_pop]) or when it is pushed
    ([walk_push]).  Both are written with fuel; the lemmas give a bound on the
    fuel under which the result is exactly the set of reachable vertices. *)

(** Weight of the vertices of [U] not yet seen, the measure of the traversals. *)
Section Unseen.
Context {A : Type} `{Countable A}.

Definition unseen_weight (f : A → nat) (U : list A) (seen : gset A) : nat :=
  sum_list (f <$> filter (λ x, x ∉ seen) U).

Lemma unseen_weight_mono f (U : list A) (seen seen' : gset A) :
  seen ⊆ seen' → unseen_weight f U seen' ≤ unseen_weight f U seen.
Proof.
  unfold unseen_weight. intros Hsub. induction U as [|u U IH]; [done|].
  rewrite !filter_cons. destruct (decide (u ∈ seen')) as [H1|H1].
  - rewrite (decide_False (P := u ∉ seen')) by auto. case_decide; csimpl; lia.
  - rewrite (decide_True (P := u ∉ seen')) by done.
    rewrite (decide_True (P := u ∉ seen)) by auto. csimpl. lia.
Qed.

Lemma unseen_weight_add f (U : list A) (seen : gset A) c :
  c ∈ U → c ∉ seen →
  unseen_weight f U ({[c]} ∪ seen) + f c ≤ unseen_weight f U seen.
Proof.
  unfold unseen_weight. intros HU Hc.
  induction U as [|u U IH]; [set_solver|].
  rewrite !filter_cons. destruct (decide (u = c)) as [->|Hne].
  - rewrite decide_False by set_solver. rewrite decide_True by done. csimpl.
    pose proof (unseen_weight_mono f U seen ({[c]} ∪ seen) ltac:(set_solver)) as Hm.
    unfold unseen_weight in Hm. lia.
  - specialize (IH ltac:(set_solver)).
    destruct (decide (u ∈ seen)).
    + rewrite !decide_False by set_solver. lia.
    + rewrite !decide_True by set_solver. csimpl. lia.
Qed.

Lemma unseen_weight_le f (U : list A) (seen : gset A) : unseen_weight f U seen ≤ sum_list (f <$> U).
Proof.
  unfold unseen_weight. induction U as [|u U IH]; [done|].
  rewrite filter_cons. case_decide; csimpl; lia.
Qed.

Lemma unseen_weight_ones (U : list A) (seen : gset A) :
  unseen_weight (λ _, 1) U seen ≤ length U.
Proof.
  etrans; [apply unseen_weight_le|]. clear. induction U; csimpl; lia.
Qed.
End Unseen.

Lemma sum_list_elem (n : nat) l : n ∈ l → n ≤ sum_list l.
Proof. induction 1; simpl; lia. Qed.

(** A [while] loop as a step that goes on or returns.  Nesting the iteration allows
    [2 ^ n] steps while only [n] is counted down, for loops whose number of steps is
    exponential in the worst case. *)
Fixpoint iter2 {S R} (n : nat) (step : S → S + R) (s : S) : S + R :=
  match n with
  | O => step s
  | Datatypes.S n' => match iter2 n' step s with inl s' => iter2 n' step s' | inr r => inr r end
  end.

Section Iter2.
Context {S R : Type} (step : S → S + R) (I : S → Prop) (m : S → nat).
Hypothesis step_inv : ∀ s s', I s → step s = inl s' → I s' ∧ m s' < m s.

Lemma iter2_step n s :
  I s →
  (∃ s' r, iter2 n step s = inr r ∧ I s' ∧ step s' = inr r) ∨
  (∃ s', iter2 n step s = inl s' ∧ I s' ∧ m s' + 2 ^ n ≤ m s).
Proof.
  revert s. induction n as [|n IH]; intros s Hs; simpl.
  - destruct (step s) as [s'|r] eqn:E; [|by left; eauto].
    right. exists s'. destruct (step_inv s s' Hs E). split_and!; [done..|lia].
  - destruct (IH s Hs) as [(s' & r & -> & Hr)|(s' & -> & Hs' & Hm)]; [by left; eauto|].
    destruct (IH s' Hs') as [(s2 & r & -> & Hr)|(s2 & -> & Hs2 & Hm2)]; [by left; eauto|].
    right. exists s2. split_and!; [done..|lia].
Qed.

Lemma iter2_returns n s :
  I s → m s < 2 ^ n → ∃ s' r, iter2 n step s = inr r ∧ I s' ∧ step s' = inr r.
Proof. intros Hs Hm. destruct (iter2_step n s Hs) as [?|(s' & _ & _ & ?)]; [done|lia]. Qed.
End Iter2.

Section Walk.
Context (succ : string → list string).
Implicit Types (st : list string) (seen : gset string) (U : list string).

(** [while stack: c = stack.pop(); if c in seen: continue; seen.add(c);
    for t in succ(c): stack.append(t)]; the head of the list is the top. *)
Fixpoint walk_pop (fuel : nat) st seen : option (gset string) :=
  match st with
  | [] => Some seen
  | c :: st' =>
    match fuel with
    | O => None
    | S fuel' =>
      if decide (c ∈ seen) then walk_pop fuel' st' seen
      else walk_pop fuel' (rev (succ c) ++ st') ({[c]} ∪ seen)
    end
  end.

(** [for t in ts: if t not in seen: seen.add(t); stack.append(t)] *)
Fixpoint push_new (ts : list string) st seen : list string * gset string :=
  match ts with
  | [] => (st, seen)
  | t :: ts' =>
    if decide (t ∈ seen) then push_new ts' st seen
    else push_new ts' (t :: st) ({[t]} ∪ seen)
  end.

(** [while stack: c = stack.pop(); push_new(succ(c))] *)
Fixpoint walk_push (fuel : nat) st seen : option (gset string) :=
  match st with
  | [] => Some seen
  | c :: st' =>
    match fuel with
    | O => None
    | S fuel' =>
      let '(st2, seen2) := push_new (succ c) st' seen in walk_push fuel' st2 seen2
    end
  end.

Definition edge_rel (a b : string) : Prop := b ∈ succ a.

(** The vertices from which [seen] was closed, and the frontier. *)
Definition pop_inv (root : string → Prop) st seen : Prop :=
  (∀ x, x ∈ seen → ∃ r, root r ∧ rtc edge_rel r x) ∧
  (∀ x, x ∈ st → ∃ r, root r ∧ rtc edge_rel r x) ∧
  (∀ x, root x → x ∈ seen ∨ x ∈ st) ∧
  (∀ x y, x ∈ seen → y ∈ succ x → y ∈ seen ∨ y ∈ st).

Lemma pop_inv_final root seen :
  pop_inv root [] seen → ∀ x, x ∈ seen ↔ ∃ r, root r ∧ rtc edge_rel r x.
Proof.
  intros (Hs & _ & Hr & Hc) x. split; [apply Hs|].
  intros (r & Hroot & Hrtc). assert (r ∈ seen) as Hin by (destruct (Hr r Hroot); set_solver).
  clear Hroot. induction Hrtc as [|a b c' Hab _ IH]; [done|].
  apply IH. destruct (Hc a b Hin Hab); set_solver.
Qed.

Lemma walk_pop_spec root U fuel st seen :
  (∀ x, succ x ≠ [] → x ∈ U) →
  pop_inv root st seen →
  length st + unseen_weight (λ x, length (succ x)) U seen ≤ fuel →
  ∃ s, walk_pop fuel st seen = Some s ∧
       ∀ x, x ∈ s ↔ ∃ r, root r ∧ rtc edge_rel r x.
Proof.
  intros HU. revert st seen.
  induction fuel as [|fuel IH]; intros [|c st] seen Hinv Hfuel; simpl in *; try lia.
  - exists seen. split; [done|by apply pop_inv_final].
  - exists seen. split; [done|by apply pop_inv_final].
  - destruct Hinv as (Hs & Hst & Hr & Hc).
    case_decide as Hin.
    + apply IH; [|lia]. repeat split; [done|set_solver| |].
      * intros x Hx. destruct (Hr x Hx); set_solver.
      * intros x y Hx Hy. destruct (Hc x y Hx Hy); set_solver.
    + destruct (Hst c) as (r & Hroot & Hrc); [set_solver|].
      assert (Hreach : ∀ y, y ∈ succ c → ∃ r, root r ∧ rtc edge_rel r y).
      { intros y Hy. exists r. split; [done|]. by apply rtc_r with c. }
      apply IH.
      * repeat split.
        -- intros x [->%elem_of_singleton|]%elem_of_union; eauto.
        -- intros x [Hx%list_elem_of_In|]%elem_of_app; [|set_solver].
           apply in_rev, list_elem_of_In in Hx. eauto.
        -- intros x Hx. destruct (Hr x Hx); set_solver.
        -- intros x y [->%elem_of_singleton|Hx]%elem_of_union Hy.
           ++ right. apply elem_of_app. left.
              apply list_elem_of_In. rewrite <- in_rev. by apply list_elem_of_In.
           ++ destruct (Hc x y Hx Hy); set_solver.
      * rewrite length_app, length_rev.
        destruct (decide (succ c = [])) as [E|E].
        -- rewrite E. simpl.
           pose proof (unseen_weight_mono (λ x, length (succ x)) U seen ({[c]} ∪ seen)
                         ltac:(set_solver)). lia.
        -- pose proof (unseen_weight_add (λ x, length (succ x)) U seen c (HU c E) Hin). lia.
Qed.

Lemma push_new_spec ts st seen st' seen' :
  push_new ts st seen = (st', seen') →
  (∀ x, x ∈ seen' ↔ x ∈ seen ∨ x ∈ ts) ∧
  (∀ x, x ∈ st' ↔ x ∈ st ∨ (x ∈ ts ∧ x ∉ seen)).
Proof.
  revert st seen. induction ts as [|t ts IH]; intros st seen; simpl.
  { intros; simplify_eq. set_solver. }
  case_decide as Hd; intros [H1 H2]%IH.
  - split; intros x; [rewrite H1|rewrite H2]; set_solver.
  - split; intros x; [rewrite H1; set_solver|rewrite H2].
    destruct (decide (x = t)); set_solver.
Qed.

Lemma push_new_weight U ts st seen st' seen' :
  (∀ t, t ∈ ts → t ∈ U) →
  push_new ts st seen = (st', seen') →
  length st' + unseen_weight (λ _, 1) U seen' ≤ length st + unseen_weight (λ _, 1) U seen.
Proof.
  revert st seen. induction ts as [|t ts IH]; intros st seen HU; simpl.
  { intros; simplify_eq. lia. }
  case_decide as Hd; intros Hp; (apply IH in Hp; [|set_solver]); simpl in *; [lia|].
  pose proof (unseen_weight_add (λ _, 1) U seen t (HU t ltac:(set_solver)) Hd) as Hadd.
  simpl in Hadd. lia.
Qed.

(** [seen] is the result: the vertices reachable in one or more steps. *)
Definition push_inv (root : string) st seen : Prop :=
  (∀ x, x ∈ seen → tc edge_rel root x) ∧
  (∀ x, x ∈ st → x = root ∨ x ∈ seen) ∧
  (root ∈ st ∨ ∀ y, y ∈ succ root → y ∈ seen) ∧
  (∀ x y, x ∈ seen → y ∈ succ x → y ∈ seen ∨ x ∈ st).

Lemma push_inv_final root seen :
  push_inv root [] seen → ∀ x, x ∈ seen ↔ tc edge_rel root x.
Proof.
  intros (Hs & _ & Hr & Hc) x. split; [apply Hs|].
  destruct Hr as [Hr|Hr]; [set_solver|].
  assert (Hclosed : ∀ a b, a ∈ seen → edge_rel a b → b ∈ seen).
  { intros a b Ha Hab. destruct (Hc a b Ha Hab); set_solver. }
  apply (tc_ind_r (λ x, x ∈ seen)); eauto.
Qed.

Lemma walk_push_spec root U fuel st seen :
  (∀ x y, y ∈ succ x → y ∈ U) →
  push_inv root st seen →
  length st + unseen_weight (λ _, 1) U seen ≤ fuel →
  ∃ s, walk_push fuel st seen = Some s ∧ ∀ x, x ∈ s ↔ tc edge_rel root x.
Proof.
  intros HU. revert st seen.
  induction fuel as [|fuel IH]; intros [|c st] seen Hinv Hfuel; simpl in *; try lia.
  - exists seen. split; [done|by apply push_inv_final].
  - exists seen. split; [done|by apply push_inv_final].
  - destruct (push_new (succ c) st seen) as [st2 seen2] eqn:Hp.
    destruct (push_new_spec _ _ _ _ _ Hp) as [Hseen Hst].
    pose proof (push_new_weight U _ _ _ _ _ (HU c) Hp) as Hw.
    destruct Hinv as (Hs & Hfr & Hr & Hc).
    apply IH; [|lia].
    assert (Hcr : c = root ∨ c ∈ seen) by (apply Hfr; set_solver).
    assert (Hnew : ∀ x, x ∈ succ c → tc edge_rel root x).
    { intros x Hx. destruct Hcr as [->|Hcs]; [by apply tc_once|].
      eapply tc_r; [by apply Hs|done]. }
    split_and!.
    + intros x [Hx|Hx]%Hseen; eauto.
    + intros x [Hx|[Hx _]]%Hst; [|right; apply Hseen; by right].
      destruct (Hfr x) as [?|?]; [set_solver|by left|right; apply Hseen; by left].
    + destruct Hr as [[->|Hr]%elem_of_cons|Hr].
      * right. intros y Hy. apply Hseen. by right.
      * left. apply Hst. by left.
      * right. intros y Hy. apply Hseen. left. by apply Hr.
    + intros x y [Hx|Hx]%Hseen Hy.
      * destruct (Hc x y Hx Hy) as [?|[->|?]%elem_of_cons].
        -- left. apply Hseen. by left.
        -- left. apply Hseen. by right.
        -- right. apply Hst. by left.
      * destruct (decide (x ∈ seen)) as [Hx'|Hx'].
        -- destruct (Hc x y Hx' Hy) as [?|[->|?]%elem_of_cons].
           ++ left. apply Hseen. by left.
           ++ left. apply Hseen. by right.
           ++ right. apply Hst. by left.
        -- right. apply Hst. by right.
Qed.

(** The two traversals as they are started by the queries. *)
Corollary walk_pop_reachable U root :
  (∀ x, succ x ≠ [] → x ∈ U) →
  ∃ s, walk_pop (S (sum_list ((λ x, length (succ x)) <$> U))) [root] ∅ = Some s ∧
       ∀ x, x ∈ s ↔ rtc edge_rel root x.
Proof.
  intros HU.
  destruct (walk_pop_spec (eq root) U
              (S (sum_list ((λ x, length (succ x)) <$> U))) [root] ∅) as (s & -> & Hs).
  - done.
  - repeat split; set_solver.
  - simpl. pose proof (unseen_weight_le (λ x, length (succ x)) U ∅). lia.
  - exists s. split; [done|]. intros x. rewrite Hs. naive_solver.
Qed.

Corollary walk_push_reachable U root :
  (∀ x y, y ∈ succ x → y ∈ U) →
  ∃ s, walk_push (S (length U)) [root] ∅ = Some s ∧ ∀ x, x ∈ s ↔ tc edge_rel root x.
Proof.
  intros HU. apply (walk_push_spec root U); [done| |].
  - repeat split; set_solver.
  - simpl. pose proof (unseen_weight_ones U ∅). lia.
Qed.
End Walk.
