(* ===== verification/PyStr.v ===== *)
(** * Python strings

    The [str] methods the sources use.  A character is a code point below 256
    ([ascii] is the Latin-1 block), on which the definitions agree with CPython:
    the line boundaries of [str.splitlines], the white space of [str.strip], the
    case mapping of [str.lower].  The lemmas are the ones the components share:
    splitting into lines and joining them back, and the shape of a line. *)

From stdpp Require Import base list gmap strings pretty.
From Stdlib Require Import Ascii String.
From S2P Require Import Prelude.

#[local] Open Scope string_scope.

#[global] Arguments String.append !_ _ : simpl nomatch.

(** ** Characters *)

Definition code (c : ascii) : N := N_of_ascii c.

(** Line boundaries of [str.splitlines]: LF VT FF CR FS GS RS NEL. *)
Definition is_break (c : ascii) : bool :=
  bool_decide (code c ∈ [10; 11; 12; 13; 28; 29; 30; 133]%N).

(** [str.isspace] on one character: TAB..CR, FS..US, space, NEL, NBSP. *)
Definition is_space (c : ascii) : bool :=
  bool_decide (code c ∈ [9; 10; 11; 12; 13; 28; 29; 30; 31; 32; 133; 160]%N).

Definition CR : ascii := ascii_of_N 13.
Definition LF : ascii := ascii_of_N 10.
Definition SP : ascii := ascii_of_N 32.

(** [str.lower] on one character: A-Z, and the Latin-1 capitals except the
    multiplication sign. *)
Definition lower_ascii (c : ascii) : ascii :=
  let n := code c in
  if (65 <=? n)%N && (n <=? 90)%N then ascii_of_N (n + 32)
  else if (192 <=? n)%N && (n <=? 222)%N && negb (n =? 215)%N then ascii_of_N (n + 32)
  else c.

(** ** Generic string functions *)

Fixpoint smap (f : ascii → ascii) (s : string) : string :=
  match s with "" => "" | String c s' => String (f c) (smap f s') end.

Fixpoint sforall (p : ascii → bool) (s : string) : bool :=
  match s with "" => true | String c s' => p c && sforall p s' end.

(** [s[n:]] *)
Fixpoint sdrop (n : nat) (s : string) : string :=
  match n, s with
  | O, _ => s
  | S n', "" => ""
  | S n', String _ s' => sdrop n' s'
  end.

(** ["".join(ls)] *)
Definition sconcat (ls : list string) : string := foldr String.append "" ls.

(** [sep.join(ls)] *)
Fixpoint sjoin (sep : string) (ls : list string) : string :=
  match ls with
  | [] => ""
  | [l] => l
  | l :: ls' => l +:+ sep +:+ sjoin sep ls'
  end.

(** [" " * n] *)
Fixpoint spaces (n : nat) : string :=
  match n with O => "" | S n' => String SP (spaces n') end.

Definition slower (s : string) : string := smap lower_ascii s.

Fixpoint lstrip (s : string) : string :=
  match s with
  | "" => ""
  | String c s' => if is_space c then lstrip s' else s
  end.

Fixpoint rstrip (s : string) : string :=
  match s with
  | "" => ""
  | String c s' =>
    match rstrip s' with
    | "" => if is_space c then "" else String c ""
    | r => String c r
    end
  end.

Definition strip (s : string) : string := rstrip (lstrip s).

Definition startswith (s p : string) : bool := String.prefix p s.

(** [s.removeprefix(p)] *)
Definition removeprefix (s p : string) : string :=
  if startswith s p then sdrop (String.length p) s else s.

(** The last character of [s] is [c]. *)
Fixpoint ends_with (c : ascii) (s : string) : bool :=
  match s with
  | "" => false
  | String d "" => bool_decide (c = d)
  | String _ s' => ends_with c s'
  end.

(** [s.split(c, 1)]: the text before and after the first [c]. *)
Fixpoint split1 (c : ascii) (s : string) : option (string * string) :=
  match s with
  | "" => None
  | String d s' =>
    if decide (d = c) then Some ("", s')
    else '(a, b) ← split1 c s'; Some (String d a, b)
  end.

(** [s.replace(c, d)] for one-character arguments. *)
Definition sreplace (c d : ascii) (s : string) : string :=
  smap (λ x, if decide (x = c) then d else x) s.

(** [s[:s.rfind(c)]] with the guard [rfind(c) > 0]: the text before the last
    [c], when that [c] is not the first character and exists. *)
Fixpoint before_last (c : ascii) (s : string) : option string :=
  match s with
  | "" => None
  | String d s' =>
    match before_last c s' with
    | Some p => Some (String d p)
    | None => if decide (d = c) then Some "" else None
    end
  end.

(** [s.rsplit(c, maxsplit=1)[-1]] *)
Fixpoint after_last (c : ascii) (s : string) : string :=
  match s with
  | "" => ""
  | String d s' =>
    match before_last c s' with
    | Some _ => after_last c s'
    | None => if decide (d = c) then s' else s
    end
  end.

(** [text.replace(before, after, 1)]; [None] when [before] does not occur. *)
Fixpoint replace_first (before after text : string) : option string :=
  if startswith text before then Some (after +:+ sdrop (String.length before) text)
  else
    match text with
    | "" => None
    | String c rest => String c <$> replace_first before after rest
    end.

(** [s.rsplit(sep, 1)[0]]; [None] when [sep] does not occur. *)
Fixpoint rsplit_head (sep s : string) : option string :=
  match s with
  | "" => None
  | String c s' =>
    match rsplit_head sep s' with
    | Some p => Some (String c p)
    | None => if startswith s sep then Some "" else None
    end
  end.

(** ** Lines *)

(** [s.splitlines(keepends=True)] *)
Fixpoint splitlines_keep (s : string) : list string :=
  match s with
  | "" => []
  | String c s' =>
    if is_break c then
      match s' with
      | String d s'' =>
        if decide (c = CR ∧ d = LF) then String c (String d "") :: splitlines_keep s''
        else String c "" :: splitlines_keep s'
      | "" => [String c ""]
      end
    else
      match splitlines_keep s' with
      | [] => [String c ""]
      | l :: ls => String c l :: ls
      end
  end.

(** The line without its terminator. *)
Fixpoint chomp (l : string) : string :=
  match l with
  | "" => ""
  | String c l' => if is_break c then "" else String c (chomp l')
  end.

(** [s.splitlines()] *)
Definition splitlines (s : string) : list string := chomp <$> splitlines_keep s.

(** ** Lemmas *)

(** A property of all characters, by enumeration. *)
Lemma ascii_all (p : ascii → bool) :
  forallb (λ n, p (ascii_of_nat n)) (seq 0 256) = true → ∀ c, p c = true.
Proof.
  intros H c. rewrite <- (ascii_nat_embedding c). apply forallb_forall with (x := nat_of_ascii c) in H.
  - done.
  - apply in_seq. pose proof (nat_ascii_bounded c). lia.
Qed.

Lemma sapp_nil_r s : s +:+ "" = s.
Proof. induction s; simpl; congruence. Qed.

Lemma sapp_assoc a b c : (a +:+ b) +:+ c = a +:+ (b +:+ c).
Proof. induction a; simpl; congruence. Qed.

Lemma sapp_inv_head a b c : a +:+ b = a +:+ c → b = c.
Proof. induction a; simpl; intros; simplify_eq; auto. Qed.

Lemma sconcat_app ls ls' : sconcat (ls ++ ls') = sconcat ls +:+ sconcat ls'.
Proof. induction ls as [|l ls IH]; simpl; [done|]. by rewrite IH, sapp_assoc. Qed.

Lemma sforall_app p a b : sforall p (a +:+ b) = sforall p a && sforall p b.
Proof. induction a as [|c a IH]; simpl; [done|]. rewrite IH. by destruct (p c). Qed.

Lemma sdrop_app a b : sdrop (String.length a) (a +:+ b) = b.
Proof. induction a; simpl; auto. Qed.

Lemma prefix_app p s : String.prefix p (p +:+ s) = true.
Proof. induction p as [|c p IH]; simpl; [by destruct s|]. destruct (ascii_dec c c); done. Qed.

Lemma startswith_app p s : startswith (p +:+ s) p = true.
Proof. apply prefix_app. Qed.

Lemma removeprefix_app p s : removeprefix (p +:+ s) p = s.
Proof. unfold removeprefix. rewrite startswith_app. apply sdrop_app. Qed.

Lemma smap_app f a b : smap f (a +:+ b) = smap f a +:+ smap f b.
Proof. induction a; simpl; congruence. Qed.

Lemma split1_Some c a b : sforall (λ d, bool_decide (d ≠ c)) a = true →
  split1 c (a +:+ String c b) = Some (a, b).
Proof.
  induction a as [|d a IH]; simpl; [by rewrite decide_True|].
  intros [Hd%bool_decide_eq_true Ha]%andb_prop. rewrite decide_False by done.
  by rewrite (IH Ha).
Qed.

(** [split1] loses nothing. *)
Lemma split1_inv c s a b : split1 c s = Some (a, b) →
  s = a +:+ String c b ∧ sforall (λ d, bool_decide (d ≠ c)) a = true.
Proof.
  revert a b. induction s as [|d s IH]; simpl; [done|]. intros a b.
  case_decide; [intros; by simplify_eq|].
  destruct (split1 c s) as [[a' b']|] eqn:E; simpl; intros; simplify_eq.
  destruct (IH a' b eq_refl) as [-> Ha]. simpl.
  split; [done|]. by rewrite bool_decide_true.
Qed.


Lemma string_ind2 (P : string → Prop) :
  P "" → (∀ c, P (String c "")) →
  (∀ c d s, P s → P (String d s) → P (String c (String d s))) → ∀ s, P s.
Proof.
  intros H0 H1 H2 s. cut (P s ∧ ∀ c, P (String c s)); [by intros []|].
  induction s as [|d s [IH1 IH2]]; auto.
Qed.

(** [splitlines(keepends=True)] loses no character. *)
Lemma sconcat_splitlines_keep s : sconcat (splitlines_keep s) = s.
Proof.
  induction s as [|c|c d s IH1 IH2] using string_ind2; [done|simpl; by case_match|].
  change (splitlines_keep (String c (String d s))) with
    (if is_break c then
       if decide (c = CR ∧ d = LF) then String c (String d "") :: splitlines_keep s
       else String c "" :: splitlines_keep (String d s)
     else match splitlines_keep (String d s) with
          | [] => [String c ""] | l :: ls => String c l :: ls end).
  destruct (is_break c); [case_decide|].
  - simpl. by rewrite IH1.
  - simpl. f_equal. exact IH2.
  - destruct (splitlines_keep (String d s)) as [|l ls]; [done|].
    simpl in *. by rewrite <- IH2.
Qed.

Definition no_break (s : string) : Prop := sforall (λ c, negb (is_break c)) s = true.

(** The terminator of a line. *)
Fixpoint eol (l : string) : string :=
  match l with
  | "" => ""
  | String c l' => if is_break c then l else eol l'
  end.

(** What may end a line: nothing (only the last one), one boundary, or CR LF. *)
Inductive terminator : string → Prop :=
| term_none : terminator ""
| term_one c : is_break c = true → terminator (String c "")
| term_crlf : terminator (String CR (String LF "")).

Definition is_line (l : string) : Prop := l ≠ "" ∧ terminator (eol l).

Definition starts (c : ascii) (s : string) : Prop :=
  match s with "" => False | String d _ => d = c end.

(** The lists of lines [splitlines(keepends=True)] produces. *)
Inductive lines_ok : list string → Prop :=
| lok_nil : lines_ok []
| lok_last l : is_line l → lines_ok [l]
| lok_cons l l' ls :
    is_line l → eol l ≠ "" → ¬ (eol l = String CR "" ∧ starts LF l') →
    lines_ok (l' :: ls) → lines_ok (l :: l' :: ls).

#[export] Hint Constructors terminator lines_ok : pydb.

Lemma chomp_eol l : chomp l +:+ eol l = l.
Proof. induction l as [|c l IH]; simpl; [done|]. case_match; simpl; congruence. Qed.

Lemma no_break_chomp l : no_break (chomp l).
Proof.
  unfold no_break. induction l as [|c l IH]; simpl; [done|].
  destruct (is_break c) eqn:E; simpl; [done|]. by rewrite E.
Qed.

Lemma eol_app_no_break b l : no_break b → eol (b +:+ l) = eol l.
Proof.
  unfold no_break. induction b as [|c b IH]; simpl; [done|].
  destruct (is_break c); simpl; [done|auto].
Qed.

Lemma chomp_app_no_break b l : no_break b → chomp (b +:+ l) = b +:+ chomp l.
Proof.
  unfold no_break. induction b as [|c b IH]; simpl; [done|].
  destruct (is_break c); simpl; [done|]. intros. by rewrite IH.
Qed.

Lemma splitlines_no_break b : no_break b → b ≠ "" → splitlines_keep b = [b].
Proof.
  unfold no_break. induction b as [|c b IH]; [done|]. simpl. intros H _.
  destruct (is_break c); simpl in *; [done|].
  destruct b as [|d b]; [done|]. by rewrite IH.
Qed.

Lemma splitlines_terminated b t rest :
  no_break b → terminator t → t ≠ "" → ¬ (t = String CR "" ∧ starts LF rest) →
  splitlines_keep (b +:+ t +:+ rest) = (b +:+ t) :: splitlines_keep rest.
Proof.
  intros Hb Ht Hne Hcr. unfold no_break in Hb. induction b as [|c b IH]; simpl in *.
  - destruct Ht as [|c Hc|]; [done| |reflexivity].
    simpl. rewrite Hc. destruct rest as [|d rest]; [done|].
    rewrite decide_False; [done|]. intros [-> ->]. by apply Hcr.
  - destruct (is_break c) eqn:E; simpl in *; [done|]. by rewrite IH.
Qed.

Lemma lines_ok_head l ls : lines_ok (l :: ls) → is_line l.
Proof. by inversion 1. Qed.

Lemma lines_ok_tail l ls : lines_ok (l :: ls) → lines_ok ls.
Proof. inversion 1; auto with pydb. Qed.

(** Joining the lines and splitting again gives the same lines. *)
Lemma splitlines_sconcat ls : lines_ok ls → splitlines_keep (sconcat ls) = ls.
Proof.
  induction 1 as [|l [Hl Ht]|l l' ls [Hl Ht] Hne Hcr Hok IH]; [done| |].
  - simpl. rewrite sapp_nil_r. destruct (decide (eol l = "")) as [E|E].
    + pose proof (chomp_eol l) as Hc. rewrite E, sapp_nil_r in Hc.
      apply splitlines_no_break; [rewrite <- Hc; apply no_break_chomp|done].
    + pose proof (splitlines_terminated (chomp l) (eol l) "" (no_break_chomp l) Ht E) as Hs.
      rewrite sapp_nil_r, chomp_eol in Hs. apply Hs. by intros [_ []].
  - change (sconcat (l :: l' :: ls)) with (l +:+ sconcat (l' :: ls)).
    rewrite <- (chomp_eol l) at 1. rewrite sapp_assoc.
    rewrite splitlines_terminated; [|apply no_break_chomp|done|done|].
    + rewrite IH. by rewrite chomp_eol.
    + intros [HE Hst]. apply Hcr. split; [done|].
      apply lines_ok_head in Hok as [Hl' _]. by destruct l'.
Qed.

Lemma starts_head l s : l ≠ "" → starts LF (l +:+ s) ↔ starts LF l.
Proof. by destruct l. Qed.

(** [splitlines(keepends=True)] produces such lists. *)
Lemma splitlines_keep_ok s : lines_ok (splitlines_keep s).
Proof.
  induction s as [|c|c d s IH1 IH2] using string_ind2; [constructor| |].
  { simpl. destruct (is_break c) eqn:E; constructor; (split; [done|]); simpl; rewrite E;
      auto with pydb. }
  pose proof (sconcat_splitlines_keep (String d s)) as Hd.
  pose proof (sconcat_splitlines_keep s) as Hs.
  change (splitlines_keep (String c (String d s))) with
    (if is_break c then
       if decide (c = CR ∧ d = LF) then String c (String d "") :: splitlines_keep s
       else String c "" :: splitlines_keep (String d s)
     else match splitlines_keep (String d s) with
          | [] => [String c ""] | l :: ls => String c l :: ls end).
  destruct (is_break c) eqn:Ec; [case_decide as Hcr|].
  - destruct Hcr as [-> ->]. destruct (splitlines_keep s) as [|l ls].
    + constructor. split; [done|]. apply term_crlf.
    + constructor; [split; [done|apply term_crlf]|done|by intros [? _]|done].
  - destruct (splitlines_keep (String d s)) as [|l ls]; [done|].
    assert (Hl : l ≠ "") by (by apply lines_ok_head in IH2 as [? _]).
    constructor; try done.
    + split; [done|]. simpl. rewrite Ec. auto with pydb.
    + simpl. by rewrite Ec.
    + simpl. rewrite Ec. intros [E1 E2]. apply Hcr. simplify_eq. split; [done|].
      destruct l as [|x l]; [done|]. simpl in *. by simplify_eq.
  - destruct (splitlines_keep (String d s)) as [|l ls]; [done|].
    inversion IH2 as [|? [H1 H2]|? l' ls' [H1 H2] H3 H4 H5]; subst.
    + constructor. split; [done|]. simpl. by rewrite Ec.
    + constructor; try (simpl; by rewrite Ec); [|done]. split; [done|]. simpl. by rewrite Ec.
Qed.

(** A prefix or a suffix with no line boundary does not change the terminator,
    so line-wise edits keep the list of lines well formed. *)
Lemma lines_ok_map (f : string → string) ls :
  (∀ l, l ∈ ls → f l ≠ "" ∧ eol (f l) = eol l ∧ (starts LF (f l) → starts LF l)) →
  lines_ok ls → lines_ok (f <$> ls).
Proof.
  intros Hf. induction 1 as [|l [H1 H2]|l l' ls [H1 H2] H3 H4 H5 IH]; csimpl; [constructor| |].
  - destruct (Hf l) as (? & He & ?); [set_solver|]. constructor. split; [done|]. by rewrite He.
  - destruct (Hf l) as (? & He & ?); [set_solver|].
    destruct (Hf l') as (? & He' & Hst); [set_solver|].
    constructor; [split; [done|by rewrite He]|by rewrite He| |].
    + rewrite He. intros [? ?]. auto.
    + apply IH. intros x Hx. apply Hf. set_solver.
Qed.

(** ** [strip] *)

Lemma rstrip_rstrip s : rstrip (rstrip s) = rstrip s.
Proof.
  induction s as [|c s IH]; [done|]. cbn [rstrip]. destruct (rstrip s) as [|d r] eqn:E.
  - destruct (is_space c) eqn:Ec; [done|]. cbn [rstrip]. by rewrite Ec.
  - change (rstrip (String c (String d r))) with
      (match rstrip (String d r) with "" => if is_space c then "" else String c "" | r => String c r end).
    by rewrite IH.
Qed.

Lemma lstrip_head s : lstrip s = "" ∨ ∃ c r, lstrip s = String c r ∧ is_space c = false.
Proof.
  induction s as [|c s IH]; [by left|]. cbn [lstrip]. destruct (is_space c) eqn:Ec; [done|]. right. eauto.
Qed.

Lemma strip_strip s : strip (strip s) = strip s.
Proof.
  unfold strip. destruct (lstrip_head s) as [->|(c & r & -> & Hc)]; [done|].
  assert (lstrip (rstrip (String c r)) = rstrip (String c r)) as ->; [|apply rstrip_rstrip].
  cbn [rstrip]. rewrite Hc. destruct (rstrip r); cbn [lstrip]; by rewrite Hc.
Qed.
