(* ===== verification/Sha256.v ===== *)
(** * SHA-256

    [hashlib.sha256(text.encode()).hexdigest()], used by the content graph to
    detect that a node's YAML changed.  Words are integers in [0, 2^32) and every
    addition is reduced modulo 2^32.  The definition is checked on the standard's
    test vectors. *)

From stdpp Require Import base list strings.
From Stdlib Require Import ZArith Ascii String.
From S2P Require Import Prelude PyStr.

#[local] Open Scope Z_scope.

Definition w32 (x : Z) : Z := Z.land x 0xFFFFFFFF.
Definition add32 (x y : Z) : Z := w32 (x + y).
Definition rotr (n x : Z) : Z := Z.lor (Z.shiftr x n) (w32 (Z.shiftl x (32 - n))).

Definition ch (x y z : Z) : Z := Z.lxor (Z.land x y) (Z.land (Z.lxor x 0xFFFFFFFF) z).
Definition maj (x y z : Z) : Z :=
  Z.lxor (Z.lxor (Z.land x y) (Z.land x z)) (Z.land y z).
Definition big_sigma0 (x : Z) : Z := Z.lxor (Z.lxor (rotr 2 x) (rotr 13 x)) (rotr 22 x).
Definition big_sigma1 (x : Z) : Z := Z.lxor (Z.lxor (rotr 6 x) (rotr 11 x)) (rotr 25 x).
Definition sigma0 (x : Z) : Z := Z.lxor (Z.lxor (rotr 7 x) (rotr 18 x)) (Z.shiftr x 3).
Definition sigma1 (x : Z) : Z := Z.lxor (Z.lxor (rotr 17 x) (rotr 19 x)) (Z.shiftr x 10).

(** The constants, by the standard's description: the first 32 bits of the
    fractional parts of the cube roots (round constants) and square roots (initial
    digest) of the first primes. *)

Definition is_prime (n : nat) : bool :=
  forallb (λ d, negb (n mod d =? 0)%nat) (seq 2 (n - 2)).

Definition primes : list Z := Z.of_nat <$> List.filter is_prime (seq 2 310).

(** Integer cube root below 2^[n], bit by bit. *)
Fixpoint icbrt (n : nat) (root target : Z) : Z :=
  match n with
  | O => root
  | S n' =>
    let r := root + Z.shiftl 1 (Z.of_nat n') in
    icbrt n' (if r * r * r <=? target then r else root) target
  end.

Definition round_constants : list Z :=
  Eval vm_compute in ((λ p, w32 (icbrt 36 0 (Z.shiftl p 96))) <$> take 64 primes).

Definition digest0 : list Z :=
  Eval vm_compute in ((λ p, w32 (Z.sqrt (Z.shiftl p 64))) <$> take 8 primes).

(** [str.encode()]: UTF-8 of code points below 256. *)
Fixpoint utf8 (s : string) : list Z :=
  match s with
  | EmptyString => []
  | String c s' =>
    let n := Z.of_N (code c) in
    if n <? 128 then n :: utf8 s'
    else Z.lor 0xC0 (Z.shiftr n 6) :: Z.lor 0x80 (Z.land n 0x3F) :: utf8 s'
  end.

Definition be_bytes (n : nat) (x : Z) : list Z :=
  (λ i, Z.land (Z.shiftr x (8 * Z.of_nat i)) 0xFF) <$> reverse (seq 0 n).

Definition pad (m : list Z) : list Z :=
  let n := Z.of_nat (List.length m) in
  m ++ [0x80] ++ replicate (Z.to_nat ((55 - n) mod 64)) 0 ++ be_bytes 8 (8 * n).

Fixpoint words (m : list Z) : list Z :=
  match m with
  | a :: b :: c :: d :: m' =>
    Z.lor (Z.lor (Z.shiftl a 24) (Z.shiftl b 16)) (Z.lor (Z.shiftl c 8) d) :: words m'
  | _ => []
  end.

(** The message schedule, newest word first. *)
Fixpoint schedule (n : nat) (ws : list Z) : list Z :=
  match n with
  | O => ws
  | S n' =>
    let at_ i := nth i ws 0 in
    let w := add32 (add32 (sigma1 (at_ 1%nat)) (at_ 6%nat)) (add32 (sigma0 (at_ 14%nat)) (at_ 15%nat)) in
    schedule n' (w :: ws)
  end.

Definition sha_round (st : list Z) (kw : Z * Z) : list Z :=
  match st with
  | [a; b; c; d; e; f; g; h] =>
    let t1 := add32 (add32 (add32 h (big_sigma1 e)) (add32 (ch e f g) kw.1)) kw.2 in
    let t2 := add32 (big_sigma0 a) (maj a b c) in
    [add32 t1 t2; a; b; c; add32 d t1; e; f; g]
  | _ => st
  end.

Definition compress (st block : list Z) : list Z :=
  let ws := reverse (schedule 48 (reverse block)) in
  zip_with add32 st (foldl sha_round st (zip round_constants ws)).

Fixpoint blocks (n : nat) (st ws : list Z) : list Z :=
  match n with
  | O => st
  | S n' => blocks n' (compress st (take 16 ws)) (drop 16 ws)
  end.

Definition sha256_words (m : list Z) : list Z :=
  let ws := words (pad m) in blocks (List.length ws / 16) digest0 ws.

Definition hex_digit (z : Z) : ascii :=
  ascii_of_N (Z.to_N (if z <? 10 then 48 + z else 87 + z)).

Fixpoint hex (n : nat) (z : Z) : string :=
  match n with
  | O => EmptyString
  | S n' => String (hex_digit (Z.land (Z.shiftr z (4 * Z.of_nat n')) 0xF)) (hex n' z)
  end.

(** [hashlib.sha256(text.encode()).hexdigest()] *)
Definition sha256_hex (text : string) : string :=
  sconcat (hex 8 <$> sha256_words (utf8 text)).

Example sha256_empty :
  sha256_hex "" = "e3b0c44298fc1c149afbf4c8996fb92427ae41e4649b934ca495991b7852b855"%string.
Proof. vm_compute. reflexivity. Qed.

Example sha256_abc :
  sha256_hex "abc" = "ba7816bf8f01cfea414140de5dae2223b00361a396177a9cb410ff61f20015ad"%string.
Proof. vm_compute. reflexivity. Qed.

Example sha256_two_blocks :
  sha256_hex "abcdbcdecdefdefgefghfghighijhijkijkljklmklmnlmnomnopnopq"
  = "248d6a61d20638b8e5c026930c3e6039a33ce45964ff2167f6ecedd419db06c1"%string.
Proof. vm_compute. reflexivity. Qed.
