(* ===== verification/Sha1.v ===== *)
(** * SHA-1

    [hashlib.sha1(text.encode()).hexdigest()], from which the gateway derives the ids of
    live proposals.  Padding and encoding are those of [Sha256]; the definition is
    checked on the standard's test vectors. *)

From stdpp Require Import base list strings.
From Stdlib Require Import ZArith Ascii String.
From S2P Require Import Prelude PyStr Sha256.

#[local] Open Scope Z_scope.

Definition rotl (n x : Z) : Z := Z.lor (w32 (Z.shiftl x n)) (Z.shiftr x (32 - n)).

Definition sha1_digest0 : list Z := [0x67452301; 0xEFCDAB89; 0x98BADCFE; 0x10325476; 0xC3D2E1F0].

(** The message schedule, newest word first. *)
Fixpoint sha1_schedule (n : nat) (ws : list Z) : list Z :=
  match n with
  | O => ws
  | S n' =>
    let at_ i := nth i ws 0 in
    let w := rotl 1 (Z.lxor (Z.lxor (at_ 2%nat) (at_ 7%nat)) (Z.lxor (at_ 13%nat) (at_ 15%nat))) in
    sha1_schedule n' (w :: ws)
  end.

(** Function and constant of round [t]. *)
Definition sha1_f (t : nat) (b c d : Z) : Z * Z :=
  if (t <? 20)%nat then (ch b c d, 0x5A827999)
  else if (t <? 40)%nat then (Z.lxor (Z.lxor b c) d, 0x6ED9EBA1)
  else if (t <? 60)%nat then (maj b c d, 0x8F1BBCDC)
  else (Z.lxor (Z.lxor b c) d, 0xCA62C1D6).

Definition sha1_round (st : list Z) (tw : nat * Z) : list Z :=
  match st with
  | [a; b; c; d; e] =>
    let '(f, k) := sha1_f tw.1 b c d in
    [add32 (add32 (add32 (rotl 5 a) f) (add32 e k)) tw.2; a; rotl 30 b; c; d]
  | _ => st
  end.

Definition sha1_compress (st block : list Z) : list Z :=
  let ws := reverse (sha1_schedule 64 (reverse block)) in
  zip_with add32 st (foldl sha1_round st (zip (seq 0 80) ws)).

Fixpoint sha1_blocks (n : nat) (st ws : list Z) : list Z :=
  match n with
  | O => st
  | S n' => sha1_blocks n' (sha1_compress st (take 16 ws)) (drop 16 ws)
  end.

Definition sha1_hex (text : string) : string :=
  let ws := words (pad (utf8 text)) in
  sconcat (hex 8 <$> sha1_blocks (List.length ws / 16) sha1_digest0 ws).

Example sha1_abc : sha1_hex "abc" = "a9993e364706816aba3e25717850c26c9cd0d89d"%string.
Proof. vm_compute. reflexivity. Qed.

Example sha1_two_blocks :
  sha1_hex "abcdbcdecdefdefgefghfghighijhijkijkljklmklmnlmnomnopnopq"
  = "84983e441c3bd26ebaae4aa1f95129e5e54670f1"%string.
Proof. vm_compute. reflexivity. Qed.
