(* ===== verification/Yaml.v ===== *)
(** * YAML values and the YAML libraries

    The values [YAMLValue] of [src/apme_engine/graph/types.py] and Python's [str]
    on them.  PyYAML and ruamel.yaml are not part of the repository: parsing and
    serialization are parameters, the operations of the class [YamlLib]. *)

From stdpp Require Import base list strings pretty.
From Stdlib Require Import Ascii String.
From S2P Require Import Prelude PyStr Sha256.

#[local] Open Scope string_scope.

(** A float is kept as its [repr]; the code only stores it, tests it for truth and
    prints it. *)
Inductive yval :=
| YNull
| YBool (b : bool)
| YInt (z : Z)
| YFloat (repr : string)
| YStr (s : string)
| YList (l : list yval)
| YDict (d : list (string * yval)).

Definition YAMLDict : Type := list (string * yval).

#[export] Instance yval_eq_dec : EqDecision yval.
Proof.
  refine (fix go x y {struct x} : Decision (x = y) :=
    match x, y with
    | YNull, YNull => left _
    | YBool a, YBool b => cast_if (decide (a = b))
    | YInt a, YInt b => cast_if (decide (a = b))
    | YFloat a, YFloat b => cast_if (decide (a = b))
    | YStr a, YStr b => cast_if (decide (a = b))
    | YList a, YList b => cast_if (@list_eq_dec yval go a b)
    | YDict a, YDict b => cast_if (@list_eq_dec _ (@prod_eq_dec string _ yval go) a b)
    | _, _ => right _
    end); clear go; abstract congruence.
Defined.

(** [bool(x)] *)
Definition ytruthy (x : yval) : bool :=
  match x with
  | YNull => false
  | YBool b => b
  | YInt z => negb (z =? 0)%Z
  | YFloat r => negb (String.eqb r "0.0" || String.eqb r "-0.0")
  | YStr s => negb (String.eqb s "")
  | YList l => match l with [] => false | _ => true end
  | YDict d => match d with [] => false | _ => true end
  end.

(** ** [repr] and [str] *)

Definition has_char (c : ascii) (s : string) : bool := negb (sforall (λ d, negb (Ascii.eqb d c)) s).

Definition DQ : ascii := ascii_of_N 34.

Definition quote_of (s : string) : ascii :=
  if has_char "'" s && negb (has_char DQ s) then DQ else "'"%char.

Definition repr_char (q c : ascii) : string :=
  let n := code c in
  if Ascii.eqb c q || Ascii.eqb c "\" then String "\" (String c "")
  else if (n =? 9)%N then "\t" else if (n =? 10)%N then "\n" else if (n =? 13)%N then "\r"
  else if ((n <? 32) || ((127 <=? n) && (n <=? 160)) || (n =? 173))%N%bool
  then "\x" +:+ hex 2 (Z.of_N n)
  else String c "".

Fixpoint repr_body (q : ascii) (s : string) : string :=
  match s with "" => "" | String c s' => repr_char q c +:+ repr_body q s' end.

Definition repr_str (s : string) : string :=
  let q := quote_of s in String q (repr_body q s +:+ String q "").

Fixpoint py_repr (x : yval) : string :=
  match x with
  | YNull => "None"
  | YBool b => if b then "True" else "False"
  | YInt z => pretty z
  | YFloat r => r
  | YStr s => repr_str s
  | YList l => "[" +:+ sjoin ", " (py_repr <$> l) +:+ "]"
  | YDict d => "{" +:+ sjoin ", " ((λ p, repr_str p.1 +:+ ": " +:+ py_repr p.2) <$> d) +:+ "}"
  end.

(** [str(x)] *)
Definition ystr (x : yval) : string := match x with YStr s => s | _ => py_repr x end.

(** [str(v.get(k) or "")] *)
Definition str_or (k : string) (v : YAMLDict) : string :=
  match dget k v with Some x => if ytruthy x then ystr x else "" | None => "" end.

Example repr_example :
  ystr (YList [YStr "it's"; YInt (-3); YDict [("k", YBool true)]])
  = "[" +:+ String DQ ("it's" +:+ String DQ ", -3, {'k': True}]").
Proof. reflexivity. Qed.

(** ** The libraries *)

(** What the round-trip loader returns, as far as the code looks at it. *)
Inductive rt_doc (M : Type) :=
| RTMap (m : M)
| RTSeq (l : list (rt_doc M))
| RTOther.
Arguments RTMap {M} _.
Arguments RTSeq {M} _.
Arguments RTOther {M}.

Class YamlLib := {
  (* yaml.safe_load; None is a YAMLError *)
  safe_load : string → option yval;
  (* ruamel's CommentedMap, and FormattedYAML(typ="rt").load / .dumps; None is an exception *)
  CommentedMap : Type;
  rt_load : string → option (rt_doc CommentedMap);
  rt_dumps : rt_doc CommentedMap → string;
}.
