(* ===== verification/Violation.v ===== *)
(** * Violations

    The violation dictionaries every component exchanges
    ([ViolationDict] of [src/apme_engine/graph/types.py]), the canonical rule id
    ([src/apme_engine/rule_ids.py]), the ledger key of
    [src/apme_engine/graph/content_graph.py], and the FQCN target helpers of
    [src/apme_engine/remediation/transforms/M001_fqcn.py].

    An enum member that inherits from [str] is stored as its value: equality,
    hashing and the accessors used here all see that string. *)

From stdpp Require Import base list gmap strings pretty.
From Stdlib Require Import Ascii String.
From S2P Require Import Prelude PyStr.

#[local] Open Scope string_scope.

(** [str | int | list[int] | bool | None] *)
Inductive vval :=
| VNone
| VBool (b : bool)
| VInt (z : Z)
| VInts (l : list Z)
| VStr (s : string).

#[export] Instance vval_eq_dec : EqDecision vval.
Proof. solve_decision. Defined.

Definition ViolationDict : Type := list (string * vval).

(** [bool(x)] *)
Definition truthy (x : vval) : bool :=
  match x with
  | VNone => false
  | VBool b => b
  | VInt z => negb (z =? 0)%Z
  | VInts l => negb (bool_decide (l = []))
  | VStr s => negb (bool_decide (s = ""))
  end.

(** [str(x)] *)
Definition py_str (x : vval) : string :=
  match x with
  | VNone => "None"
  | VBool b => if b then "True" else "False"
  | VInt z => pretty z
  | VInts l => "[" +:+ sjoin ", " (pretty <$> l) +:+ "]"
  | VStr s => s
  end.

(** [str(v.get(k, ""))] *)
Definition vget_str (k : string) (v : ViolationDict) : string :=
  match dget k v with Some x => py_str x | None => "" end.

(** [v.get(k) or ""] turned into a string. *)
Definition vget_or (k : string) (v : ViolationDict) : string :=
  match dget k v with Some x => if truthy x then py_str x else "" | None => "" end.

(** [rule_ids.normalize_rule_id] *)
Definition normalize_rule_id (rule_id : string) : string :=
  if startswith rule_id "native:" then sdrop (String.length "native:") rule_id else rule_id.

(** The identity of a finding: node id and normalized rule id. *)
Definition ViolationKey : Type := string * string.

Definition v_path (v : ViolationDict) : string := vget_str "path" v.

Definition bare_id (v : ViolationDict) : string := normalize_rule_id (vget_str "rule_id" v).

Definition violation_key (v : ViolationDict) : ViolationKey := (v_path v, bare_id v).

(** ** Remediation enums, by value *)

Module RemediationClass.
Definition AUTO_FIXABLE : string := "auto-fixable".
Definition AI_CANDIDATE : string := "ai-candidate".
Definition MANUAL_REVIEW : string := "manual-review".
Definition all : list string := [AUTO_FIXABLE; AI_CANDIDATE; MANUAL_REVIEW].
End RemediationClass.

Module Resolution.
Definition UNRESOLVED : string := "unresolved".
Definition AI_PROPOSED : string := "ai-proposed".
Definition AI_ABSTAINED : string := "ai-abstained".
Definition USER_REJECTED : string := "user-rejected".
Definition NEEDS_CROSS_FILE : string := "needs-cross-file".
Definition MANUAL : string := "manual".
Definition INFORMATIONAL : string := "informational".
End Resolution.

(** ** FQCN targets ([M001_fqcn.py]) *)

Definition ident_start (c : ascii) : bool :=
  ((65 <=? code c)%N && (code c <=? 90)%N) || ((97 <=? code c)%N && (code c <=? 122)%N)
    || Ascii.eqb c "_".

Definition ident_char (c : ascii) : bool :=
  ident_start c || ((48 <=? code c)%N && (code c <=? 57)%N).

(** Number of dot-separated identifiers the whole string consists of, [None]
    when it is not such a sequence; [fresh] expects the start of an identifier. *)
Fixpoint ident_parts (fresh : bool) (s : string) : option nat :=
  match s with
  | "" => if fresh then None else Some 1
  | String c s' =>
    if fresh then if ident_start c then ident_parts false s' else None
    else if Ascii.eqb c "." then n ← ident_parts true s'; Some (S n)
    else if ident_char c then ident_parts false s' else None
  end.

(** [_FQCN_RE.fullmatch(s) is not None]: three identifiers or more. *)
Definition fqcn_fullmatch (s : string) : bool :=
  match ident_parts true s with Some n => (3 <=? n)%nat | None => false end.

Definition endswith (s suffix : string) : bool :=
  let n := String.length s in let m := String.length suffix in
  (m <=? n)%nat && String.eqb (sdrop (n - m) s) suffix.

Definition is_valid_fqcn (candidate current_key : string) : bool :=
  negb (String.eqb candidate current_key)
  && negb (startswith candidate "taskfile")
  && negb (endswith candidate ".yml" || endswith candidate ".yaml" || endswith candidate ".json")
  && fqcn_fullmatch candidate.

(** The leading non-space run: the longest match of [\S+] (empty: no match). *)
Fixpoint nonspace (s : string) : string :=
  match s with
  | "" => ""
  | String c s' => if is_space c then "" else String c (nonspace s')
  end.

(** [\s*->\s*(\S+)] at the start of [s]. *)
Definition match_arrow (s : string) : option string :=
  let s := lstrip s in
  if startswith s "->" then
    match nonspace (lstrip (sdrop 2 s)) with "" => None | g => Some g end
  else None.

(** [\S+\s*->\s*(\S+)], the first [\S+] taking [k] characters at most: the
    regular expression engine tries the longest run first. *)
Fixpoint match_word_arrow (k : nat) (s : string) : option string :=
  match k with
  | O => None
  | S k' =>
    match match_arrow (sdrop k s) with
    | Some g => Some g
    | None => match_word_arrow k' s
    end
  end.

(** [(?:Use FQCN|FQCN for module):\s*\S+\s*->\s*(\S+)] at the start of [s]. *)
Definition match_fqcn_msg (s : string) : option string :=
  let tail rest := let w := lstrip rest in match_word_arrow (String.length (nonspace w)) w in
  if startswith s "Use FQCN:" then tail (sdrop 9 s)
  else if startswith s "FQCN for module:" then tail (sdrop 16 s)
  else None.

(** [_FQCN_FROM_MSG_RE.search(s)]: the leftmost match. *)
Fixpoint search_fqcn_msg (s : string) : option string :=
  match match_fqcn_msg s with
  | Some g => Some g
  | None => match s with "" => None | String _ s' => search_fqcn_msg s' end
  end.

Definition field_fqcn (f : string) (v : ViolationDict) (current_key : string) : option string :=
  match dget f v with
  | None | Some VNone => None
  | Some x => if is_valid_fqcn (py_str x) current_key then Some (py_str x) else None
  end.

Definition resolve_fqcn (v : ViolationDict) (current_key : string) : option string :=
  match field_fqcn "resolved_fqcn" v current_key with
  | Some f => Some f
  | None =>
    match field_fqcn "fqcn" v current_key with
    | Some f => Some f
    | None =>
      candidate ← search_fqcn_msg (vget_str "message" v);
      if is_valid_fqcn candidate current_key then Some candidate else None
    end
  end.

(** [str(v.get("original_module") or v.get("module") or "")] *)
Definition has_fqcn_target (v : ViolationDict) : bool :=
  let current_key :=
    match vget_or "original_module" v with "" => vget_or "module" v | k => k end in
  bool_decide (is_Some (resolve_fqcn v current_key)).

(** The key under which a resolver target is shared: file, node, module. *)
Definition target_key (v : ViolationDict) : string * string * string :=
  (vget_str "file" v, v_path v, vget_str "original_module" v).

(** The targets supplied by canonical-name and redirect findings. *)
Definition fqcn_supply (v : ViolationDict) : list (string * string * string * string) :=
  if bool_decide (bare_id v ∈ ["M001"; "M003"]) then
    let original := vget_str "original_module" v in
    match resolve_fqcn v original with
    | Some target =>
      if bool_decide (original ≠ "" ∧ v_path v ≠ "" ∧ target ≠ "") then [(target_key v, target)] else []
    | None => []
    end
  else [].

Definition fqcn_candidates (vs : list ViolationDict) (k : string * string * string) : list string :=
  remove_dups (filter (λ p, p.1 = k) (vs ≫= fqcn_supply)).*2.

(** What [enrich_fqcn_targets] does to one finding of the batch [vs]. *)
Definition enrich_one (vs : list ViolationDict) (v : ViolationDict) : ViolationDict :=
  if bool_decide (bare_id v ∈ ["L002"; "L026"]) && negb (has_fqcn_target v) then
    match fqcn_candidates vs (target_key v) with
    | [t] => dset "resolved_fqcn" (VStr t) v
    | _ => v
    end
  else v.

Definition enrich_fqcn_targets (vs : list ViolationDict) : list ViolationDict :=
  enrich_one vs <$> vs.

(** ** Lemmas *)

Lemma normalize_rule_id_unprefixed s :
  startswith s "native:" = false → normalize_rule_id s = s.
Proof. unfold normalize_rule_id. by intros ->. Qed.

Lemma normalize_rule_id_prefixed s : normalize_rule_id ("native:" +:+ s) = s.
Proof. unfold normalize_rule_id. rewrite startswith_app. apply sdrop_app. Qed.

Lemma vget_str_dset_ne k k' x v : k ≠ k' → vget_str k (dset k' x v) = vget_str k v.
Proof. intros. unfold vget_str. by rewrite dget_dset_ne. Qed.

(** Setting a field that is neither the path nor the rule id keeps the key. *)
Lemma violation_key_dset k x v :
  k ≠ "path" → k ≠ "rule_id" → violation_key (dset k x v) = violation_key v.
Proof.
  intros. unfold violation_key, v_path, bare_id. by rewrite !vget_str_dset_ne.
Qed.

Lemma enrich_one_key vs v : violation_key (enrich_one vs v) = violation_key v.
Proof.
  unfold enrich_one. case_match; [|done]. case_match; [done|]. case_match; [|done].
  by rewrite violation_key_dset.
Qed.

Lemma enrich_keys vs : violation_key <$> enrich_fqcn_targets vs = violation_key <$> vs.
Proof.
  unfold enrich_fqcn_targets. rewrite <- list_fmap_compose. apply list_fmap_ext.
  intros _ v _. apply enrich_one_key.
Qed.

#[export] Hint Rewrite enrich_one_key enrich_keys : pydb.

(** The message form is recognised, and engine keys are rejected. *)
Example search_fqcn_example :
  search_fqcn_msg "M001 Use FQCN: apt -> ansible.builtin.apt" = Some "ansible.builtin.apt" ∧
  search_fqcn_msg "Use FQCN: apt->ansible.builtin.apt ok" = Some "ansible.builtin.apt" ∧
  fqcn_fullmatch "ansible.builtin.apt" = true ∧ fqcn_fullmatch "ansible.builtin" = false.
Proof. by vm_compute. Qed.
