(* ===== verification/PyPath.v ===== *)
(** * POSIX paths

    [str.split(c)] and [sep.join], and [posixpath.normpath] of the Standard Library, with
    the walk down a directory tree that it computes. *)

From stdpp Require Import base list strings.
From Stdlib Require Import Ascii String.
From S2P Require Import Prelude PyStr.

#[local] Open Scope string_scope.
#[local] Notation length := List.length.

(** [s.split(c)] *)
Fixpoint split_on (c : ascii) (s : string) : list string :=
  match s with
  | "" => [""]
  | String d s' =>
    if decide (d = c) then "" :: split_on c s'
    else match split_on c s' with
         | [] => [String d ""]
         | p :: ps => String d p :: ps
         end
  end.

(** [s.lstrip(c)] *)
Fixpoint lstrip_char (c : ascii) (s : string) : string :=
  match s with
  | "" => ""
  | String d s' => if decide (d = c) then lstrip_char c s' else s
  end.

Definition free_of (c : ascii) (s : string) : Prop := sforall (λ d, bool_decide (d ≠ c)) s = true.

(** ** [posixpath] *)

Definition SEP : ascii := "/".

(** [posixpath.splitroot], without the drive, which is empty. *)
Definition splitroot (p : string) : string * string :=
  match p with
  | String "/" (String "/" (String "/" r)) => ("/", String "/" (String "/" r))
  | String "/" (String "/" r) => ("//", r)
  | String "/" r => ("/", r)
  | _ => ("", p)
  end.

(** One component; the stack of components is kept in reverse. *)
Definition norm_comp (root : string) (stack : list string) (comp : string) : list string :=
  if decide (comp = "" ∨ comp = ".") then stack
  else if decide (comp ≠ ".." ∨ (root = "" ∧ stack = []) ∨ head stack = Some "..") then comp :: stack
  else tail stack.

Definition normpath (path : string) : string :=
  if decide (path = "") then "."
  else
    let '(root, rest) := splitroot path in
    let q := root +:+ sjoin "/" (reverse (foldl (norm_comp root) [] (split_on SEP rest))) in
    if decide (q = "") then "." else q.

(** ** Splitting and joining *)

Lemma split_on_nonempty c s : split_on c s ≠ [].
Proof. destruct s as [|d s]; simpl; [done|]. case_decide; [done|]. by destruct (split_on c s). Qed.

Lemma split_on_cons_sep c s : split_on c (String c s) = "" :: split_on c s.
Proof. simpl. by rewrite decide_True. Qed.

Lemma split_on_free c s : free_of c s → split_on c s = [s].
Proof.
  unfold free_of. induction s as [|d s IH]; simpl; [done|]. rewrite andb_true_iff, bool_decide_eq_true.
  intros [Hd Hs]. by rewrite decide_False, IH.
Qed.

Lemma split_on_app c a s : free_of c a → split_on c (a +:+ String c s) = a :: split_on c s.
Proof.
  unfold free_of. induction a as [|d a IH]; simpl; [by rewrite decide_True|].
  rewrite andb_true_iff, bool_decide_eq_true. intros [Hd Ha]. by rewrite decide_False, IH.
Qed.

Lemma split_on_pieces c s : Forall (free_of c) (split_on c s).
Proof.
  unfold free_of. induction s as [|d s IH]; simpl; [by repeat constructor|].
  case_decide as Hd; [by constructor|]. destruct (split_on c s) as [|p ps].
  - constructor; [|constructor]. simpl. by rewrite bool_decide_eq_true_2.
  - apply Forall_cons in IH as [Hp Hps]. constructor; [|done]. simpl.
    by rewrite bool_decide_eq_true_2, Hp.
Qed.

Lemma join_split c s : sjoin (String c "") (split_on c s) = s.
Proof.
  induction s as [|d s IH]; [done|]. cbn [split_on].
  pose proof (split_on_nonempty c s) as Hne. case_decide as Hd.
  - subst. destruct (split_on c s) as [|p ps]; [done|]. cbn [sjoin]. by rewrite <- IH.
  - destruct (split_on c s) as [|p ps]; [done|]. rewrite <- IH. by destruct ps.
Qed.

Lemma split_join c ls : ls ≠ [] → Forall (free_of c) ls → split_on c (sjoin (String c "") ls) = ls.
Proof.
  intros Hne Hf. induction Hf as [|l ls Hl Hf IH]; [done|]. destruct ls as [|l2 ls].
  - by apply split_on_free.
  - change (sjoin (String c "") (l :: l2 :: ls)) with (l +:+ String c (sjoin (String c "") (l2 :: ls))).
    rewrite split_on_app by done. by rewrite IH.
Qed.

(** ** Walking down from a root

    A stack of names, innermost first; [None] is a step above the root. *)

Definition descend (dir : option (list string)) (comp : string) : option (list string) :=
  stk ← dir;
  if decide (comp = "" ∨ comp = ".") then Some stk
  else if decide (comp = "..") then match stk with [] => None | _ :: up => Some up end
  else Some (comp :: stk).

Definition resolve (path : string) : option (list string) := foldl descend (Some []) (split_on SEP path).

(** A name of a directory entry. *)
Definition entry_name (n : string) : Prop := n ≠ "" ∧ n ≠ "." ∧ n ≠ ".." ∧ free_of SEP n.

(** The stack of [normpath] against the walk. *)
Definition tracks (n : list string) (w : option (list string)) : Prop :=
  match w with
  | Some s => n = s ∧ Forall entry_name s
  | None => last n = Some ".."
  end.

Lemma tracks_step n w comp :
  free_of SEP comp → tracks n w → tracks (norm_comp "" n comp) (descend w comp).
Proof.
  intros Hc Ht. unfold norm_comp, descend. destruct w as [s|]; simpl in *.
  - destruct Ht as [-> Hs]. case_decide as Hd; [done|].
    destruct (decide (comp = "..")) as [->|Hne].
    + destruct s as [|x s]; simpl.
      * done.
      * apply Forall_cons in Hs as [(_ & _ & Hx & _) Hs]. rewrite decide_False by naive_solver. done.
    + rewrite decide_True by auto. split; [done|]. constructor; [|done].
      unfold entry_name. naive_solver.
  - case_decide; [done|]. case_decide as Hd.
    + destruct n; [done|]. done.
    + destruct n as [|x [|y n]]; [done| |done]. simpl in *. simplify_eq. naive_solver.
Qed.

Lemma tracks_foldl comps n w :
  Forall (free_of SEP) comps → tracks n w →
  tracks (foldl (norm_comp "") n comps) (foldl descend w comps).
Proof.
  intros Hf. revert n w. induction Hf as [|c comps Hc _ IH]; intros n w Ht; [done|].
  simpl. by apply IH, tracks_step.
Qed.

Lemma descend_entries comps s s' :
  Forall (free_of SEP) comps → Forall entry_name s → foldl descend (Some s) comps = Some s' →
  Forall entry_name s'.
Proof.
  intros Hc Hs He. pose proof (tracks_foldl comps s (Some s) Hc (conj eq_refl Hs)) as Ht.
  rewrite He in Ht. apply Ht.
Qed.

(** Names in order are walked to their own stack. *)
Lemma descend_names s0 names :
  Forall entry_name names → foldl descend (Some s0) names = Some (reverse names ++ s0)%list.
Proof.
  intros Hn. revert s0. induction Hn as [|x names (H1 & H2 & H3 & _) _ IH]; intros s0; [done|].
  simpl. rewrite decide_False by naive_solver. rewrite decide_False by done. rewrite IH.
  by rewrite reverse_cons, <- app_assoc.
Qed.

(** What [normpath] returns on a path without leading separators. *)
Lemma splitroot_rel p : (∀ r, p ≠ String SEP r) → splitroot p = ("", p).
Proof.
  intros Hp. destruct p as [|c p]; [done|]. destruct (decide (c = SEP)) as [->|Hc]; [by edestruct Hp|].
  unfold splitroot. destruct c as [[] [] [] [] [] [] [] []]; try done.
Qed.

Lemma normpath_rel p :
  (∀ r, p ≠ String SEP r) →
  normpath p = match resolve p with
               | Some [] => "."
               | Some (c :: cs) => sjoin "/" (reverse (c :: cs))
               | None => sjoin "/" (reverse (foldl (norm_comp "") [] (split_on SEP p)))
               end.
Proof.
  intros Hp. unfold normpath. destruct (decide (p = "")) as [->|Hne]; [done|].
  rewrite (splitroot_rel p Hp). cbv beta iota zeta. unfold resolve.
  pose proof (tracks_foldl _ [] (Some []) (split_on_pieces SEP p) (conj eq_refl (Forall_nil_2 _))) as Ht.
  destruct (foldl descend _ _) as [s|]; simpl in Ht; [destruct Ht as [-> Hs]|].
  - destruct s as [|c s]; [done|].
    change ("" +:+ ?x) with x. rewrite decide_False; [done|]. intros Hq.
    assert (split_on SEP (sjoin "/" (reverse (c :: s))) = reverse (c :: s)) as Hsp.
    { apply split_join; [by rewrite reverse_cons; destruct (reverse s)|].
      apply Forall_reverse. eapply Forall_impl; [exact Hs|]. by intros x (_ & _ & _ & ?). }
    rewrite Hq in Hsp. simpl in Hsp. apply Forall_reverse in Hs. rewrite <- Hsp in Hs.
    apply Forall_cons in Hs as [[? _] _]. done.
  - change ("" +:+ ?x) with x. rewrite decide_False; [done|]. intros Hq.
    destruct (foldl (norm_comp "") [] (split_on SEP p)) as [|x n] using rev_ind; [done|].
    rewrite last_snoc in Ht. simplify_eq. rewrite reverse_snoc in Hq.
    by destruct (reverse n).
Qed.

(** ** [posixpath.join], [dirname], [basename] *)

Fixpoint rstrip_char (c : ascii) (s : string) : string :=
  match s with
  | "" => ""
  | String d s' =>
    match rstrip_char c s' with
    | "" => if decide (d = c) then "" else String d ""
    | r => String d r
    end
  end.

Definition path_join (a b : string) : string :=
  if startswith b "/" then b
  else if decide (a = "") then b
  else if ends_with SEP a then a +:+ b else a +:+ "/" +:+ b.

(** The part up to and with the last separator, and the rest. *)
Fixpoint split_last (s : string) : string * string :=
  match s with
  | "" => ("", "")
  | String c s' =>
    let '(h, t) := split_last s' in
    match h with
    | "" => if decide (c = SEP) then (String c "", t) else ("", String c t)
    | _ => (String c h, t)
    end
  end.

Definition dirname (p : string) : string :=
  let h := (split_last p).1 in
  match rstrip_char SEP h with "" => h | r => r end.

Definition basename (p : string) : string := (split_last p).2.

Example path_examples :
  path_join "roles/web" "defaults/main.yml" = "roles/web/defaults/main.yml" ∧ path_join "a" "/b" = "/b" ∧
  path_join "" "b" = "b" ∧ dirname "a/b/c.yml" = "a/b" ∧ dirname "c.yml" = "" ∧ dirname "/c" = "/" ∧
  dirname "a//b" = "a" ∧ basename "a/b/c.yml" = "c.yml" ∧ basename "a/" = "".
Proof. by split_and!. Qed.
