(* ===== verification/PyRe.v ===== *)
(** * Regular expressions

    The fragment of Python's [re] that the sources use, on text positions: the character
    before the position, for assertions, and the text after it.  [matches] is the meaning of
    an expression; [ends] computes all ends of matches from a position, and [search] whether
    there is a match anywhere.  Which of several matches [re] prefers does not matter for a
    search. *)

From stdpp Require Import base list strings.
From Stdlib Require Import Ascii String.
From S2P Require Import Prelude PyStr.

#[local] Open Scope string_scope.
#[local] Notation length := List.length.

(** ** Characters *)

Definition in_range (lo hi : N) (c : ascii) : bool := (lo <=? code c)%N && (code c <=? hi)%N.

(** [\w] on the modelled characters *)
Definition is_word (c : ascii) : bool :=
  in_range 48 57 c || in_range 65 90 c || in_range 97 122 c || (code c =? 95)%N
  || bool_decide (code c ∈ [170; 178; 179; 181; 185; 186; 188; 189; 190]%N)
  || (in_range 192 255 c && negb (bool_decide (code c ∈ [215; 247]%N))).

(** ** Expressions *)

Inductive re :=
| Eps
| Chr (p : ascii → bool)
| Seq (r1 r2 : re)
| Alt (r1 r2 : re)
| Star (r : re)
| Bol                    (* ^ *)
| Eol                    (* $ *)
| WordB.                 (* \b *)

Fixpoint Rep (n : nat) (r : re) : re := match n with O => Eps | S n' => Seq r (Rep n' r) end.
Definition Plus (r : re) : re := Seq r (Star r).
Definition Opt (r : re) : re := Alt r Eps.
Definition Alts (rs : list re) : re :=
  match rs with [] => Chr (λ _, false) | r :: rs => foldl Alt r rs end.

(** A literal; [lit_i] under [(?i)]. *)
Fixpoint lit (s : string) : re :=
  match s with "" => Eps | String c s' => Seq (Chr (Ascii.eqb c)) (lit s') end.

Definition eq_i (c d : ascii) : bool := Ascii.eqb (lower_ascii c) (lower_ascii d).

Fixpoint lit_i (s : string) : re :=
  match s with "" => Eps | String c s' => Seq (Chr (eq_i c)) (lit_i s') end.

(** [[chars]] *)
Definition one_of (s : string) (c : ascii) : bool := negb (sforall (λ d, negb (Ascii.eqb d c)) s).

(** ** Positions *)

Definition pos : Type := option ascii * string.

Definition at_word_boundary (p : pos) : bool :=
  let before := match p.1 with Some c => is_word c | None => false end in
  let after := match p.2 with "" => false | String c _ => is_word c end in
  xorb before after.

Definition at_end (p : pos) : bool :=
  match p.2 with "" => true | String c "" => bool_decide (c = LF) | _ => false end.

Inductive matches : re → pos → pos → Prop :=
| m_eps p : matches Eps p p
| m_chr f prev c s : f c = true → matches (Chr f) (prev, String c s) (Some c, s)
| m_seq r1 r2 p q t : matches r1 p q → matches r2 q t → matches (Seq r1 r2) p t
| m_alt1 r1 r2 p q : matches r1 p q → matches (Alt r1 r2) p q
| m_alt2 r1 r2 p q : matches r2 p q → matches (Alt r1 r2) p q
| m_star0 r p : matches (Star r) p p
| m_star r p q t : matches r p q → matches (Star r) q t → matches (Star r) p t
| m_bol s : matches Bol (None, s) (None, s)
| m_eol p : at_end p = true → matches Eol p p
| m_word p : at_word_boundary p = true → matches WordB p p.

(** ** Search *)

(** Iterations that make progress. *)
Fixpoint star_ends (f : pos → list pos) (fuel : nat) (p : pos) : list pos :=
  match fuel with
  | O => [p]
  | S fuel' =>
    p :: (filter (λ q, (String.length q.2 < String.length p.2)%nat) (f p) ≫= star_ends f fuel')
  end.

Fixpoint ends (r : re) (p : pos) : list pos :=
  match r with
  | Eps => [p]
  | Chr f => match p.2 with
             | "" => []
             | String c s => if f c then [(Some c, s)] else []
             end
  | Seq r1 r2 => ends r1 p ≫= ends r2
  | Alt r1 r2 => (ends r1 p ++ ends r2 p)%list
  | Star r => star_ends (ends r) (String.length p.2) p
  | Bol => match p.1 with None => [p] | Some _ => [] end
  | Eol => if at_end p then [p] else []
  | WordB => if at_word_boundary p then [p] else []
  end.

Fixpoint positions (prev : option ascii) (s : string) : list pos :=
  (prev, s) :: match s with "" => [] | String c s' => positions (Some c) s' end.

(** [bool(r.search(s))] *)
Definition search (r : re) (s : string) : bool :=
  existsb (λ p, match ends r p with [] => false | _ => true end) (positions None s).

(** ** The search finds exactly the matches *)

(** A match consumes text or stays where it is. *)
Lemma matches_progress r p q : matches r p q → q = p ∨ (String.length q.2 < String.length p.2)%nat.
Proof.
  induction 1 as [|f prev c s Hf|r1 r2 p q t _ [->|H1] _ [->|H2]| | | |r p q t _ [->|H1] _ [->|H2]| | |];
    simpl; try (by left); try (by right); try done; right; simpl; lia.
Qed.

Lemma star_ends_sound f r fuel p q :
  (∀ p q, q ∈ f p → matches r p q) → q ∈ star_ends f fuel p → matches (Star r) p q.
Proof.
  intros Hf. revert p. induction fuel as [|fuel IH]; intros p; simpl.
  - intros ->%list_elem_of_singleton. constructor.
  - intros [->|(t & Hq & [_ Ht]%list_elem_of_filter)%list_elem_of_bind]%elem_of_cons; [constructor|].
    eapply m_star; [by apply Hf|by apply IH].
Qed.

Lemma star_ends_complete f r fuel p q :
  (∀ p q, matches r p q → q ∈ f p) → (String.length p.2 ≤ fuel)%nat →
  matches (Star r) p q → q ∈ star_ends f fuel p.
Proof.
  intros Hf Hl Hm. remember (Star r) as sr eqn:Er. revert fuel Hl.
  induction Hm as [| | | | |r' p|r' p q t Hpq _ Hqt IH| | |]; simplify_eq; intros fuel Hl.
  - destruct fuel; simpl; by left.
  - destruct (matches_progress _ _ _ Hpq) as [->|Hlt]; [by apply IH|].
    destruct fuel as [|fuel]; [lia|]. simpl. right. apply list_elem_of_bind.
    exists q. split; [apply IH; [done|lia]|]. apply list_elem_of_filter. split; [done|by apply Hf].
Qed.

Lemma ends_spec r p q : q ∈ ends r p ↔ matches r p q.
Proof.
  revert p q. induction r as [|f|r1 IH1 r2 IH2|r1 IH1 r2 IH2|r IH| | |]; intros p q; simpl.
  - rewrite list_elem_of_singleton. split; [intros ->; constructor|by inversion 1].
  - destruct p as [prev [|c s]]; simpl; [split; [by intros ?%elem_of_nil|by inversion 1]|].
    destruct (f c) eqn:E.
    + rewrite list_elem_of_singleton. split; [intros ->; by constructor|by inversion 1].
    + split; [by intros ?%elem_of_nil|]. inversion 1. congruence.
  - rewrite list_elem_of_bind. split.
    + intros (t & Hq%IH2 & Ht%IH1). by econstructor.
    + inversion 1 as [| |? ? ? t ? H1 H2| | | | | | |]; subst. exists t. by rewrite IH1, IH2.
  - rewrite elem_of_app, IH1, IH2. split; [intros [?|?]; by constructor|inversion 1; auto].
  - split.
    + apply star_ends_sound. intros. by apply IH.
    + apply star_ends_complete; [|done]. intros. by apply IH.
  - destruct p as [[c|] s]; simpl.
    + split; [by intros ?%elem_of_nil|by inversion 1].
    + rewrite list_elem_of_singleton. split; [intros ->; constructor|by inversion 1].
  - destruct (at_end p) eqn:E.
    + rewrite list_elem_of_singleton. split; [intros ->; by constructor|by inversion 1].
    + split; [by intros ?%elem_of_nil|]. inversion 1. congruence.
  - destruct (at_word_boundary p) eqn:E.
    + rewrite list_elem_of_singleton. split; [intros ->; by constructor|by inversion 1].
    + split; [by intros ?%elem_of_nil|]. inversion 1. congruence.
Qed.

(** Some position of the text starts a match. *)
Lemma search_spec r s :
  search r s = true ↔ ∃ p q, p ∈ positions None s ∧ matches r p q.
Proof.
  unfold search. rewrite existsb_exists. split.
  - intros (p & Hp%list_elem_of_In & He). destruct (ends r p) as [|q l] eqn:E; [done|].
    exists p, q. split; [done|]. apply ends_spec. rewrite E. by left.
  - intros (p & q & Hp & Hm%ends_spec). exists p. split; [by apply list_elem_of_In|].
    destruct (ends r p); [by apply elem_of_nil in Hm|done].
Qed.
