(* ===== verification/PyNum.v ===== *)
(** * Numbers of Python

    [int(s)] and [float(s)] on strings, and the two places where the sources mix integers
    with binary64 arithmetic: [int(x * 0.10)] and [math.ceil(a / b)].  A positive double is kept as
    [m * 2^-k]; rounding is to 53 bits, to nearest, ties to even, as IEEE 754 prescribes.
    Exponents stay far from the range where overflow or subnormal numbers occur. *)

From stdpp Require Import base list strings pretty.
From Stdlib Require Import Ascii String.
From S2P Require Import Prelude PyStr.

#[local] Open Scope string_scope.
#[local] Open Scope Z_scope.

(** ** [int(s)] *)

Definition digit_val (c : ascii) : option Z :=
  let n := Z.of_N (code c) in if (48 <=? n) && (n <=? 57) then Some (n - 48) else None.

(** Digits, with single underscores between them. *)
Fixpoint int_digits (acc : Z) (after_digit : bool) (s : string) : option Z :=
  match s with
  | "" => if after_digit then Some acc else None
  | String c s' =>
    match digit_val c with
    | Some d => int_digits (acc * 10 + d) true s'
    | None => if Ascii.eqb c "_" && after_digit then int_digits acc false s' else None
    end
  end.

(** [None] is the [ValueError]. *)
Definition py_int (s : string) : option Z :=
  match strip s with
  | String "-" s' => Z.opp <$> int_digits 0 false s'
  | String "+" s' => int_digits 0 false s'
  | s' => int_digits 0 false s'
  end.

Example py_int_examples :
  py_int " -1_000 " = Some (-1000) ∧ py_int "1__0" = None ∧ py_int "" = None ∧ py_int "0x10" = None.
Proof. split_and!; reflexivity. Qed.

(** *** [int(str(z)) = z] *)

Lemma digit_val_char d : (d < 10)%N → digit_val (pretty_N_char d) = Some (Z.of_N d).
Proof.
  intros Hd. assert (d ∈ [0; 1; 2; 3; 4; 5; 6; 7; 8; 9]%N) as Hin by (rewrite !elem_of_cons; lia).
  repeat (apply elem_of_cons in Hin as [->|Hin]; [reflexivity|]). by apply not_elem_of_nil in Hin.
Qed.

Lemma int_digits_go x s : (0 < x)%N → int_digits 0 false (pretty_N_go x s) = int_digits (Z.of_N x) true s.
Proof.
  revert s. induction (N.lt_wf_0 x) as [x _ IH]. intros s Hx. rewrite pretty_N_go_step by done.
  assert (x mod 10 < 10)%N as Hm by (apply N.mod_lt; lia).
  pose proof (N.div_mod x 10 ltac:(done)) as Hdm.
  destruct (decide (x / 10 = 0)%N) as [H0|H0].
  - rewrite H0, pretty_N_go_0. simpl. rewrite digit_val_char by done. f_equal. lia.
  - rewrite IH by (try apply N.div_lt; lia). simpl. rewrite digit_val_char by done. f_equal. lia.
Qed.

Lemma sforall_go p x s :
  (∀ d, (d < 10)%N → p (pretty_N_char d) = true) → sforall p s = true → sforall p (pretty_N_go x s) = true.
Proof.
  intros Hp. revert s. induction (N.lt_wf_0 x) as [x _ IH]. intros s Hs.
  destruct (decide (x = 0)%N) as [->|Hx]; [by rewrite pretty_N_go_0|].
  rewrite pretty_N_go_step by lia. apply IH; [apply N.div_lt; lia|]. simpl. rewrite Hs, Hp; [done|].
  apply N.mod_lt. lia.
Qed.

Lemma rstrip_no_space s : sforall (λ c, negb (is_space c)) s = true → rstrip s = s.
Proof.
  induction s as [|c s IH]; [done|]. simpl. intros [Hc Hs]%andb_true_iff.
  rewrite IH by done. destruct s; [|done]. by apply negb_true_iff in Hc as ->.
Qed.

Lemma strip_no_space s : sforall (λ c, negb (is_space c)) s = true → strip s = s.
Proof.
  intros Hs. unfold strip. assert (lstrip s = s) as ->; [|by apply rstrip_no_space].
  destruct s as [|c s]; [done|]. simpl in *. apply andb_true_iff in Hs as [Hc _].
  by apply negb_true_iff in Hc as ->.
Qed.

(** A property of the ten digits holds of every printed number. *)
Lemma digit_forall p d :
  forallb (λ k, p (pretty_N_char k)) [0; 1; 2; 3; 4; 5; 6; 7; 8; 9]%N = true →
  (d < 10)%N → p (pretty_N_char d) = true.
Proof.
  rewrite List.forallb_forall. intros Hp Hd. apply Hp. rewrite <- list_elem_of_In, !elem_of_cons. lia.
Qed.

Lemma pretty_N_forall p (x : N) :
  forallb (λ k, p (pretty_N_char k)) [0; 1; 2; 3; 4; 5; 6; 7; 8; 9]%N = true → sforall p (pretty x) = true.
Proof.
  intros Hp. unfold pretty, pretty_N. case_decide.
  - cbn [sforall]. rewrite andb_true_r. apply (digit_forall p 0 Hp). lia.
  - apply sforall_go; [|done]. intros d Hd. by apply digit_forall.
Qed.

Lemma int_digits_pretty_N x : int_digits 0 false (pretty x) = Some (Z.of_N x).
Proof.
  unfold pretty, pretty_N. case_decide as Hx; [by subst|]. by rewrite int_digits_go by lia.
Qed.

Lemma pretty_N_no_space (x : N) : sforall (λ c, negb (is_space c)) (pretty x) = true.
Proof. by apply pretty_N_forall. Qed.

Lemma pretty_N_head (x : N) : ∃ c s, pretty x = String c s ∧ is_Some (digit_val c).
Proof.
  pose proof (int_digits_pretty_N x) as H. destruct (pretty x) as [|c s]; [done|].
  exists c, s. split; [done|]. simpl in H. destruct (digit_val c); [done|].
  by rewrite andb_false_r in H.
Qed.

Lemma py_int_unsigned s :
  sforall (λ c, negb (is_space c)) s = true → (∃ c s', s = String c s' ∧ is_Some (digit_val c)) →
  py_int s = int_digits 0 false s.
Proof.
  intros Hs (c & s' & -> & [d Hd]). unfold py_int. rewrite strip_no_space by done.
  destruct c as [[] [] [] [] [] [] [] []]; by vm_compute in Hd || reflexivity.
Qed.

(** Printing an integer and parsing it back. *)
Lemma py_int_pretty (z : Z) : py_int (pretty z) = Some z.
Proof.
  destruct z as [|n|n].
  - reflexivity.
  - change (pretty (Z.pos n)) with (pretty (N.pos n)).
    rewrite py_int_unsigned by eauto using pretty_N_no_space, pretty_N_head.
    by rewrite int_digits_pretty_N.
  - change (pretty (Z.neg n)) with ("-" +:+ pretty (N.pos n)). unfold py_int.
    rewrite strip_no_space by (simpl; apply pretty_N_no_space). simpl.
    by rewrite int_digits_pretty_N.
Qed.

(** ** Binary64 *)

(** [n / d] to the nearest integer, ties to even. *)
Definition rnd (n d : Z) : Z :=
  let q := n / d in
  let r := n mod d in
  if 2 * r <? d then q else if d <? 2 * r then q + 1 else if Z.even q then q else q + 1.

(** [n / d * 2^k] as a fraction. *)
Definition scale_num (n k : Z) : Z := n * 2 ^ Z.max k 0.
Definition scale_den (d k : Z) : Z := d * 2 ^ Z.max (- k) 0.

(** The number of fractional bits that leaves 53 significant ones. *)
Definition frac_bits (n d : Z) : Z :=
  let k := 52 - (Z.log2 n - Z.log2 d) in
  if scale_num n k <? 2 ^ 52 * scale_den d k then k + 1 else k.

(** The double nearest to the non-negative [n / d], as [(m, k)] for [m * 2^-k]. *)
Definition fl (n d : Z) : Z * Z :=
  if n =? 0 then (0, 0)
  else let k := frac_bits n d in (rnd (scale_num n k) (scale_den d k), k).

(** [int(f)] and [math.ceil(f)] of a non-negative double. *)
Definition fl_int (f : Z * Z) : Z := scale_num f.1 (- f.2) / 2 ^ Z.max f.2 0.
Definition fl_ceil (f : Z * Z) : Z := - (- scale_num f.1 (- f.2) / 2 ^ Z.max f.2 0).

(** The double [0.10] is [3602879701896397 / 2^55]. *)
Definition TENTH : Z := 3602879701896397.

(** [int(x * 0.10)]; the conversion of [x] to a double is exact up to [2^53]. *)
Definition int_tenth (x : Z) : Z :=
  if x <? 0 then - fl_int (fl (- x * TENTH) (2 ^ 55)) else fl_int (fl (x * TENTH) (2 ^ 55)).

(** [math.ceil(a / b)] *)
Definition ceil_div (a b : Z) : Z := fl_ceil (fl a b).

Example float_examples : int_tenth 3290 = 329 ∧ ceil_div 9 4 = 3 ∧ int_tenth (-25) = -2.
Proof. split_and!; reflexivity. Qed.

(** Rounding stays between the integers around the exact value. *)
Lemma rnd_le n d m : 0 < d → n <= m * d → rnd n d <= m.
Proof.
  intros Hd Hn. unfold rnd. pose proof (Z.div_mod n d ltac:(lia)) as Hdm.
  pose proof (Z.mod_pos_bound n d Hd) as Hr.
  assert (n / d < m ∨ (n / d = m ∧ n mod d = 0)) as [Hq|[Hq H0]] by nia.
  - repeat case_match; lia.
  - rewrite H0, Hq. by rewrite (proj2 (Z.ltb_lt (2 * 0) d)) by lia.
Qed.

Lemma rnd_ge n d m : 0 < d → m * d <= n → m <= rnd n d.
Proof.
  intros Hd Hn. assert (m <= n / d) by (apply Z.div_le_lower_bound; lia).
  unfold rnd. repeat case_match; lia.
Qed.

(** ... and moves by at most one half. *)
Lemma rnd_half n d : 0 < d → - d <= 2 * (rnd n d * d - n) <= d.
Proof.
  intros Hd. unfold rnd. pose proof (Z.div_mod n d ltac:(lia)) as Hdm.
  pose proof (Z.mod_pos_bound n d Hd) as Hr.
  destruct (Z.ltb_spec (2 * (n mod d)) d), (Z.ltb_spec d (2 * (n mod d))), (Z.even (n / d)); nia.
Qed.

Lemma frac_bits_ge n d : 52 - (Z.log2 n - Z.log2 d) <= frac_bits n d.
Proof. unfold frac_bits. case_match; lia. Qed.

(** A tenth, in integers: the double product never rounds across an integer. *)
Lemma int_tenth_exact x : 0 <= x < 2 ^ 50 → int_tenth x = x / 10.
Proof.
  intros Hx. unfold int_tenth. rewrite (proj2 (Z.ltb_ge x 0)) by lia.
  destruct (decide (x = 0)) as [->|Hx0]; [reflexivity|].
  unfold fl. rewrite (proj2 (Z.eqb_neq _ 0)) by (unfold TENTH; lia).
  set (n := x * TENTH). set (k := frac_bits n (2 ^ 55)).
  assert (6 <= k) as Hk.
  { pose proof (frac_bits_ge n (2 ^ 55)) as Hb. fold k in Hb. rewrite (Z.log2_pow2 55) in Hb by lia.
    assert (Z.log2 n < 102); [|lia]. apply Z.log2_lt_pow2; unfold n, TENTH in *; lia. }
  unfold fl_int, scale_num, scale_den. cbn [fst snd].
  replace (Z.max k 0) with k by lia. replace (Z.max (- k) 0) with 0 by lia. rewrite Z.mul_1_r, Z.mul_1_r.
  set (p := 2 ^ k). assert (2 ^ 6 <= p) as Hp by (apply Z.pow_le_mono_r; lia).
  pose proof (Z.div_mod x 10 ltac:(lia)) as Hdm. pose proof (Z.mod_pos_bound x 10 ltac:(lia)) as Hm.
  set (q := x / 10) in *. symmetry. apply Z.div_unique with (r := rnd (n * p) (2 ^ 55) - p * q); [|lia].
  left. split.
  - assert (p * q <= rnd (n * p) (2 ^ 55)); [|lia].
    apply rnd_ge; [done|]. unfold n, TENTH. nia.
  - pose proof (rnd_half (n * p) (2 ^ 55) ltac:(done)) as Hh.
    assert (n * 11 <= (11 * q + 10) * 2 ^ 55) as Hn by (unfold n, TENTH; lia).
    nia.
Qed.

(** Ceiling division, in integers, for counts up to [2^53]. *)
Lemma ceil_div_exact a b : 0 <= a < 2 ^ 53 → 0 < b → ceil_div a b = - (- a / b).
Proof.
  intros Ha Hb. unfold ceil_div. destruct (decide (a = 0)) as [->|Ha0]; [by rewrite Z.div_0_l by lia|].
  unfold fl. rewrite (proj2 (Z.eqb_neq _ 0)) by lia.
  set (k := frac_bits a b). pose proof (frac_bits_ge a b) as Hk. fold k in Hk.
  assert (Z.log2 a < 53) as Hla by (apply Z.log2_lt_pow2; lia).
  pose proof (Z.log2_nonneg b) as Hlb.
  unfold fl_ceil, scale_num, scale_den. cbn [fst snd].
  replace (Z.max k 0) with k by lia. replace (Z.max (- k) 0) with 0 by lia. rewrite !Z.mul_1_r.
  set (p := 2 ^ k). assert (b < 2 * p) as Hbp.
  { pose proof (Z.log2_spec b Hb). assert (2 ^ Z.succ (Z.log2 b) <= 2 ^ Z.succ k) by (apply Z.pow_le_mono_r; lia).
    unfold p. rewrite <- Z.pow_succ_r by lia. lia. }
  f_equal. set (m := rnd (a * p) b).
  pose proof (Z.div_mod (- a) b ltac:(lia)) as Hdm. pose proof (Z.mod_pos_bound (- a) b Hb) as Hr.
  set (c := - a / b) in *.
  assert (m <= - c * p) by (apply rnd_le; [done|nia]).
  assert (- p < m + c * p).
  { pose proof (rnd_half (a * p) b Hb) as Hh. fold m in Hh. nia. }
  symmetry. apply Z.div_unique with (r := - m - p * c); [left; lia|lia].
Qed.

(** ** [float(s)]

    Doubles of either sign, with infinities, NaN and the subnormal range. *)

Inductive pyfloat :=
| FNan
| FInf (neg : bool)
| FFin (neg : bool) (m e : Z).   (* m * 2^e with m >= 0; zero keeps its sign *)

#[export] Instance pyfloat_eq_dec : EqDecision pyfloat.
Proof. solve_decision. Defined.

Definition FZERO : pyfloat := FFin false 0 0.
Definition FONE : pyfloat := FFin false (2 ^ 52) (-52).

(** The double nearest to [n / d], for [0 <= n] and [0 < d]. *)
Definition round_float (neg : bool) (n d : Z) : pyfloat :=
  if n =? 0 then FFin neg 0 0
  else
    let k := Z.min (frac_bits n d) 1074 in
    let m := rnd (scale_num n k) (scale_den d k) in
    let '(m, k) := if m =? 2 ^ 53 then (2 ^ 52, k - 1) else (m, k) in
    if m =? 0 then FFin neg 0 0 else if k <? -971 then FInf neg else FFin neg m (- k).

(** Underscores are dropped when they stand between digits, and refused elsewhere. *)
Definition is_digit (c : ascii) : bool := match digit_val c with Some _ => true | None => false end.

Fixpoint drop_underscores (after_digit : bool) (s : string) : option string :=
  match s with
  | "" => Some ""
  | String c s' =>
    if Ascii.eqb c "_" then
      match s' with
      | String d _ => if after_digit && is_digit d then drop_underscores false s' else None
      | "" => None
      end
    else String c <$> drop_underscores (is_digit c) s'
  end.

(** Leading digits: their value appended to [acc], their number, and the rest. *)
Fixpoint take_digits (acc n : Z) (s : string) : Z * Z * string :=
  match s with
  | "" => (acc, n, "")
  | String c s' =>
    match digit_val c with Some d => take_digits (acc * 10 + d) (n + 1) s' | None => (acc, n, s) end
  end.

Definition exponent (s : string) : option Z :=
  let '(neg, body) := match s with
                      | String "-" s' => (true, s')
                      | String "+" s' => (false, s')
                      | _ => (false, s)
                      end in
  match take_digits 0 0 body with
  | (x, n, "") => if n =? 0 then None else Some (if neg then - x else x)
  | _ => None
  end.

(** Digits and exponent of ten of a decimal literal without sign. *)
Definition decimal (s : string) : option (Z * Z) :=
  let '(i, ni, rest) := take_digits 0 0 s in
  let '(m, nf, rest) := match rest with String "." r => take_digits i 0 r | _ => (i, 0, rest) end in
  if ni + nf =? 0 then None
  else match rest with
       | "" => Some (m, - nf)
       | String c r => if Ascii.eqb c "e" || Ascii.eqb c "E" then (λ x, (m, x - nf)) <$> exponent r else None
       end.

Definition float_body (neg : bool) (s : string) : option pyfloat :=
  let l := slower s in
  if String.eqb l "inf" || String.eqb l "infinity" then Some (FInf neg)
  else if String.eqb l "nan" then Some FNan
  else
    s' ← drop_underscores false s;
    '(m, x) ← decimal s';
    Some (round_float neg (m * 10 ^ Z.max x 0) (10 ^ Z.max (- x) 0)).

(** [float(s)]; [None] is the [ValueError]. *)
Definition py_float (s : string) : option pyfloat :=
  match strip s with
  | String "-" s' => float_body true s'
  | String "+" s' => float_body false s'
  | s' => float_body false s'
  end.

(** [float(z)] of an integer; [None] is the [OverflowError]. *)
Definition float_of_int (z : Z) : option pyfloat :=
  match round_float (z <? 0) (Z.abs z) 1 with FInf _ => None | f => Some f end.

(** [math.isfinite(f)], [f.is_integer()] and [int(f)] *)
Definition is_finite (f : pyfloat) : bool := match f with FFin _ _ _ => true | _ => false end.

Definition integer_value (f : pyfloat) : option Z :=
  match f with
  | FFin neg m e =>
    let z := m * 2 ^ Z.max e 0 / 2 ^ Z.max (- e) 0 in
    if m * 2 ^ Z.max e 0 =? z * 2 ^ Z.max (- e) 0 then Some (if neg then - z else z) else None
  | _ => None
  end.

(** [f < 0.0] and [f > 1.0], for finite [f]. *)
Definition below_zero (f : pyfloat) : bool := match f with FFin neg m _ => neg && negb (m =? 0) | _ => false end.
Definition above_one (f : pyfloat) : bool :=
  match f with FFin neg m e => negb neg && (2 ^ Z.max (- e) 0 <? m * 2 ^ Z.max e 0) | _ => false end.

Example py_float_examples :
  py_float " 1_0.5e-1 " = py_float "1.05" ∧ py_float "0.1" = Some (FFin false (2 * TENTH) (-56)) ∧
  py_float "1e400" = Some (FInf false) ∧ py_float "5e-324" = Some (FFin false 1 (-1074)) ∧
  py_float "-Infinity" = Some (FInf true) ∧ py_float "1e" = None ∧ py_float "_1" = None ∧ py_float "." = None ∧
  (f ← py_float "1e23"; integer_value f) = Some 99999999999999991611392 ∧
  (f ← py_float "12.0"; integer_value f) = Some 12 ∧ (f ← py_float "12.5"; integer_value f) = None ∧
  float_of_int 1 = Some FONE ∧ float_of_int (10 ^ 400) = None ∧ above_one FONE = false ∧
  (above_one <$> py_float "1.0000000000000002") = Some true.
Proof. vm_compute. done. Qed.
