(* ===== verification/Sensitivity.v ===== *)
(** * Redaction

    The sensitivity tests and redaction of [src/apme_engine/graph/sensitivity.py] (the name
    and value tests, structures, user information and queries of URLs) and the audit
    metadata of [graph/audit_metadata.py] built on them.  JSON is the class [Json]. *)

From stdpp Require Import base list strings.
From Stdlib Require Import Ascii String.
From S2P Require Import Prelude PyStr Yaml PyPath PyRe.

#[local] Open Scope string_scope.
#[local] Notation length := List.length.

Definition REDACTED : string := "[REDACTED]".

(** ** Names and values *)

Definition SENSITIVE_WORDS : list string :=
  ["password"; "passwd"; "pwd"; "secret"; "secrets"; "token"; "api_key"; "apikey"; "credential";
   "credentials"; "cred"; "authorization"; "private_key"; "ssh_key"; "access_key"; "client_key"].

Definition QUOTES : string := "'" +:+ String (ascii_of_N 34) "".

(** [(?:^|[_.])pass$] *)
Definition PASS_SUFFIX_RE : re := Seq (Alt Bol (Chr (one_of "_."))) (Seq (lit "pass") Eol).

Definition WORD_BOUNDARY_RE : re :=
  Seq (Alt Bol (Chr (one_of ("_.[" +:+ QUOTES))))
    (Seq (Alts (lit <$> SENSITIVE_WORDS)) (Alt (Chr (one_of ("_.[]" +:+ QUOTES))) Eol)).

Definition spaces_re : re := Star (Chr is_space).
Definition not_space (c : ascii) : bool := negb (is_space c).
Definition alpha_i (c : ascii) : bool := in_range 97 122 (lower_ascii c).
Definition alnum (c : ascii) : bool := in_range 48 57 c || alpha_i c.

Definition SCALAR_SECRET_RE : re :=
  Alts
    [Seq (lit_i "password") (Seq spaces_re (Chr (one_of "=:")));
     Seq (lit_i "passwd") (Seq spaces_re (Chr (one_of "=:")));
     Seq (lit_i "api") (Seq (Opt (Chr (one_of "_-"))) (Seq (lit_i "key") (Seq spaces_re (Chr (one_of "=:")))));
     Seq (lit_i "bearer") (Seq (Plus (Chr is_space)) (Plus (Chr not_space)));
     Seq (lit_i "BEGIN") (Seq (Plus (Chr is_space))
       (Seq (Opt (Seq (Plus (Chr alpha_i)) (Plus (Chr is_space))))
         (Seq (lit_i "PRIVATE") (Seq (Plus (Chr is_space)) (lit_i "KEY")))));
     Seq (lit "://") (Seq (Plus (Chr (λ c, negb (Ascii.eqb c ":")))) (Seq (lit ":")
       (Seq (Plus (Chr (λ c, negb (Ascii.eqb c "@")))) (lit "@"))));
     lit_i "$ANSIBLE_VAULT;";
     Seq (lit_i "!vault") WordB].

Definition OPAQUE_TOKEN_RE : re :=
  Alts
    [Seq (lit_i "AKIA") (Rep 16 (Chr alnum));
     Seq (lit_i "sk") (Seq (Chr (one_of "_-")) (Seq (Alt (lit_i "live") (lit_i "test")) (Chr (one_of "_-"))));
     Seq (lit_i "ghp_") (Seq (Rep 20 (Chr alnum)) (Star (Chr alnum)));
     Seq (lit_i "xox") (Seq (Chr (λ c, one_of "baprs" (lower_ascii c))) (Seq (lit "-")
       (Plus (Chr (λ c, alnum c || Ascii.eqb c "-")))));
     Seq (lit_i "eyJ") (Seq (Plus (Chr (λ c, alnum c || one_of "_-" c))) (Seq (lit ".") (lit_i "eyJ")))].

Definition var_looks_sensitive (var_name : string) : bool :=
  let lower := slower var_name in search PASS_SUFFIX_RE lower || search WORD_BOUNDARY_RE lower.

(** On a string; other values are not sensitive. *)
Definition str_looks_sensitive (s : string) : bool := search SCALAR_SECRET_RE s || search OPAQUE_TOKEN_RE s.

Definition value_looks_sensitive (x : yval) : bool :=
  match x with YStr s => str_looks_sensitive s | _ => false end.

(** ** Structures *)

Definition MAX_DEPTH : nat := 32.

Fixpoint redact_sensitive_structure (all : bool) (depth : nat) (x : yval) : yval :=
  if (MAX_DEPTH <? depth)%nat then YStr REDACTED
  else
    match x with
    | YDict d =>
      YDict ((λ p, (p.1, if var_looks_sensitive p.1 then YStr REDACTED
                         else redact_sensitive_structure all (S depth) p.2)) <$> d)
    | YList l => YList (redact_sensitive_structure all (S depth) <$> l)
    | YStr s => if all || value_looks_sensitive x then YStr REDACTED else x
    | YNull => YNull
    | _ => if all then YStr REDACTED else x
    end.

(** ** URLs *)

(** The longest prefix of characters satisfying [p], and the rest. *)
Fixpoint sspan (p : ascii → bool) (s : string) : string * string :=
  match s with
  | "" => ("", "")
  | String c s' => if p c then let '(a, b) := sspan p s' in (String c a, b) else ("", s)
  end.

(** The text before and after the last [c]. *)
Fixpoint split_last (c : ascii) (s : string) : option (string * string) :=
  match s with
  | "" => None
  | String d s' =>
    match split_last c s' with
    | Some (a, b) => Some (String d a, b)
    | None => if decide (d = c) then Some ("", s') else None
    end
  end.

Definition not_in (cs : string) (c : ascii) : bool := negb (one_of cs c).

(** The match of [_URL_USERINFO_RE], whose groups are greedy: scheme, user information, and
    the text after the match. *)
Definition url_userinfo (url : string) : option (string * string * string) :=
  let '(scheme, r) := sspan (not_in ":/?#") url in
  if decide (scheme = "") then None
  else
    match r with
    | String ":" (String "/" (String "/" r')) =>
      let '(authority, tail) := sspan (not_in "/?#") r' in
      '(user, host) ← split_last "@" authority;
      Some (scheme, user, host +:+ tail)
    | _ => None
    end.

Definition redact_url_userinfo (url : string) : string :=
  match url_userinfo url with
  | None => url
  | Some (scheme, _, rest) => scheme +:+ "://" +:+ REDACTED +:+ "@" +:+ rest
  end.

Fixpoint sfind (c : ascii) (s : string) : option nat :=
  match s with
  | "" => None
  | String d s' => if decide (d = c) then Some 0 else S <$> sfind c s'
  end.

Fixpoint stake (n : nat) (s : string) : string :=
  match n, s with S n', String c s' => String c (stake n' s') | _, _ => "" end.

Definition redact_url_query (url : string) : string :=
  match sfind "?" url, sfind "#" url with
  | None, None => url
  | None, Some f => stake f url +:+ "#" +:+ REDACTED
  | Some q, None => stake q url +:+ "?" +:+ REDACTED
  | Some q, Some f =>
    if (f <? q)%nat then stake f url +:+ "#" +:+ REDACTED
    else stake q url +:+ "?" +:+ REDACTED +:+ "#" +:+ REDACTED
  end.

(** ** Audit metadata *)

Definition AUDIT_JSON_METADATA_KEYS : list string := ["variables_used"; "variable_set"; "inbound_src"].

Definition sanitize_scalar (key : string) (x : yval) : yval :=
  match x with
  | YStr s =>
    if decide (key = "inbound_src") then YStr (redact_url_userinfo s)
    else if str_looks_sensitive s then YStr REDACTED else x
  | _ => x
  end.

(** The name of an entry, redacted when sensitive. *)
Definition redact_name (e : YAMLDict) : YAMLDict :=
  match dget "name" e with
  | Some (YStr n) => if var_looks_sensitive n then dset "name" (YStr REDACTED) e else e
  | _ => e
  end.

Definition redact_value (e : YAMLDict) : YAMLDict :=
  match dget "value" e with
  | None | Some YNull => e
  | Some (YDict d) => dset "value" (redact_sensitive_structure true 0 (YDict d)) e
  | Some (YList l) => dset "value" (redact_sensitive_structure true 0 (YList l)) e
  | Some _ => dset "value" (YStr REDACTED) e
  end.

Definition on_dict (f : YAMLDict → YAMLDict) (x : yval) : yval :=
  match x with YDict e => YDict (f e) | _ => x end.

(** [_sanitize_audit_structure] *)
Definition sanitize_audit_structure (key : string) (x : yval) : yval :=
  if decide (key = "inbound_src") then
    match x with
    | YList l => YList (sanitize_scalar key <$> l)
    | _ => sanitize_scalar key x
    end
  else
    match x with
    | YList l =>
      if decide (key = "variables_used") then YList (on_dict redact_name <$> l)
      else if decide (key = "variable_set") then YList (on_dict (redact_value ∘ redact_name) <$> l)
      else redact_sensitive_structure false 0 x
    | YDict _ => redact_sensitive_structure false 0 x
    | _ => sanitize_scalar key x
    end.

Class Json := {
  json_dumps : yval → string;            (* json.dumps(x, default=str, sort_keys=True) *)
  json_loads : string → option yval;     (* None: JSONDecodeError *)
}.

Section Audit.
Context `{Json}.

Definition parse_audit_metadata_value (raw : string) : yval := default (YStr raw) (json_loads raw).

(** [serialize_audit_metadata_value]; a JSON value is always serializable. *)
Definition serialize_audit_metadata_value (x : yval) (key : string) : string :=
  json_dumps (if decide (key ∈ AUDIT_JSON_METADATA_KEYS) then sanitize_audit_structure key x else x).

Definition decode_audit_payload_entry (raw : yval) : yval :=
  match raw with YStr s => parse_audit_metadata_value s | _ => raw end.

(** [build_audit_metadata_blob] *)
Definition build_audit_metadata_blob (metadata : list (string * string)) : string :=
  let payload := omap (λ key, (λ raw, (key, sanitize_audit_structure key
                                  (decode_audit_payload_entry (YStr raw)))) <$> dget key metadata)
                   AUDIT_JSON_METADATA_KEYS in
  match payload with [] => "" | _ => json_dumps (YDict payload) end.
End Audit.

(** ** Facts *)

Lemma redacted_not_sensitive : str_looks_sensitive REDACTED = false ∧ var_looks_sensitive REDACTED = false.
Proof. split; vm_compute; reflexivity. Qed.

(** No sensitive string among the values, and only the placeholder under a sensitive name;
    the names themselves are not looked at. *)
Fixpoint clean (x : yval) : Prop :=
  match x with
  | YStr s => str_looks_sensitive s = false
  | YList l => foldr (λ x P, clean x ∧ P) True l
  | YDict d => foldr (λ p P, (clean p.2 ∧ (var_looks_sensitive p.1 = true → p.2 = YStr REDACTED)) ∧ P) True d
  | _ => True
  end.

(** The second value is the first one with parts replaced by the placeholder: lists keep
    their length, dictionaries their keys. *)
Inductive shape : yval → yval → Prop :=
| shape_redacted x : shape x (YStr REDACTED)
| shape_same x : shape x x
| shape_list l l' : Forall2 shape l l' → shape (YList l) (YList l')
| shape_dict d d' : Forall2 (λ p q, p.1 = q.1 ∧ shape p.2 q.2) d d' → shape (YDict d) (YDict d').

(** Nothing but placeholders and nulls. *)
Fixpoint blank (x : yval) : Prop :=
  match x with
  | YStr s => s = REDACTED
  | YNull => True
  | YList l => foldr (λ x P, blank x ∧ P) True l
  | YDict d => foldr (λ p P, blank p.2 ∧ P) True d
  | _ => False
  end.

Lemma yval_ind' (P : yval → Prop) :
  P YNull → (∀ b, P (YBool b)) → (∀ z, P (YInt z)) → (∀ r, P (YFloat r)) → (∀ s, P (YStr s)) →
  (∀ l, Forall P l → P (YList l)) → (∀ d, Forall (λ p, P p.2) d → P (YDict d)) → ∀ x, P x.
Proof.
  intros H1 H2 H3 H4 H5 H6 H7. fix IH 1. intros [| | | | |l|d]; [auto..| |].
  - apply H6. induction l; constructor; [apply IH|done].
  - apply H7. induction d as [|[k x] d IHd]; constructor; [apply IH|done].
Qed.

Lemma foldr_and_fmap {A B} (f : A → B) (P : B → Prop) l :
  foldr (λ x Q, P x ∧ Q) True (f <$> l) ↔ Forall (λ x, P (f x)) l.
Proof. induction l as [|x l IH]; csimpl; [by split; [constructor|]|]. by rewrite IH, Forall_cons. Qed.

Lemma redact_clean all depth x : clean (redact_sensitive_structure all depth x).
Proof.
  destruct redacted_not_sensitive as [Hr _]. revert depth.
  induction x as [|b|z|r|s|l IH|d IH] using yval_ind'; intros depth; cbn [redact_sensitive_structure];
    (destruct (MAX_DEPTH <? depth)%nat; [exact Hr|]); try (destruct all; [exact Hr|exact I]).
  - exact I.
  - cbn [value_looks_sensitive]. destruct (all || str_looks_sensitive s) eqn:E; [exact Hr|].
    by apply orb_false_iff in E as [_ ?].
  - cbn [clean]. rewrite foldr_and_fmap. eapply Forall_impl; [exact IH|]. intros x Hx. apply Hx.
  - cbn [clean]. rewrite foldr_and_fmap. eapply Forall_impl; [exact IH|]. intros [k x] Hx. simpl.
    destruct (var_looks_sensitive k); [split; [exact Hr|done]|]. split; [apply Hx|done].
Qed.

Lemma redact_shape all depth x : shape x (redact_sensitive_structure all depth x).
Proof.
  revert depth. induction x as [|b|z|r|s|l IH|d IH] using yval_ind'; intros depth; cbn [redact_sensitive_structure];
    (destruct (MAX_DEPTH <? depth)%nat; [constructor|]); try (destruct all; by constructor).
  - case_match; constructor.
  - apply shape_list, Forall2_fmap_r, Forall_Forall2_diag. eapply Forall_impl; [exact IH|]. intros x Hx. apply Hx.
  - apply shape_dict, Forall2_fmap_r, Forall_Forall2_diag. eapply Forall_impl; [exact IH|]. intros [k x] Hx. simpl.
    split; [done|]. case_match; [constructor|apply Hx].
Qed.

Lemma redact_blank depth x : blank (redact_sensitive_structure true depth x).
Proof.
  revert depth. induction x as [|b|z|r|s|l IH|d IH] using yval_ind'; intros depth;
    cbn [redact_sensitive_structure]; (destruct (MAX_DEPTH <? depth)%nat; [done|]); try done.
  - cbn [blank]. rewrite foldr_and_fmap. eapply Forall_impl; [exact IH|]. intros x Hx. apply Hx.
  - cbn [blank]. rewrite foldr_and_fmap. eapply Forall_impl; [exact IH|]. intros [k x] Hx. simpl.
    destruct (var_looks_sensitive k); [done|]. apply Hx.
Qed.

Lemma redact_placeholder all depth : redact_sensitive_structure all depth (YStr REDACTED) = YStr REDACTED.
Proof. cbn [redact_sensitive_structure]. destruct (MAX_DEPTH <? depth)%nat; [done|]. by destruct (all || _). Qed.

Lemma redact_idempotent all depth x :
  redact_sensitive_structure all depth (redact_sensitive_structure all depth x)
  = redact_sensitive_structure all depth x.
Proof.
  revert depth. induction x as [|b|z|r|s|l IH|d IH] using yval_ind'; intros depth;
    cbn [redact_sensitive_structure];
    (destruct (MAX_DEPTH <? depth)%nat eqn:Ed; [apply redact_placeholder|]).
  1-4: destruct all; try apply redact_placeholder; cbn [redact_sensitive_structure]; by rewrite Ed.
  - cbn [value_looks_sensitive]. destruct (all || str_looks_sensitive s) eqn:E; [apply redact_placeholder|].
    cbn [redact_sensitive_structure value_looks_sensitive]. by rewrite Ed, E.
  - cbn [redact_sensitive_structure]. rewrite Ed. f_equal. rewrite <- list_fmap_compose.
    apply list_fmap_ext. intros i x Hx%list_elem_of_lookup_2. rewrite Forall_forall in IH. by apply IH.
  - cbn [redact_sensitive_structure]. rewrite Ed. f_equal. rewrite <- list_fmap_compose.
    apply list_fmap_ext. intros i [k x] Hx%list_elem_of_lookup_2. rewrite Forall_forall in IH. simpl.
    destruct (var_looks_sensitive k) eqn:Ek; rewrite ?Ek; [done|]. f_equal. by apply (IH (k, x)).
Qed.

(** *** URLs *)

Definition stops (p : ascii → bool) (s : string) : Prop :=
  match s with "" => True | String c _ => p c = false end.

Lemma sspan_inv p s a b : sspan p s = (a, b) → s = a +:+ b ∧ sforall p a = true ∧ stops p b.
Proof.
  revert a. induction s as [|c s IH]; intros a; simpl; [by intros [= <- <-]|].
  destruct (p c) eqn:Ec.
  - destruct (sspan p s) as [a' b']. intros [= <- <-]. destruct (IH a' eq_refl) as (-> & Ha & Hb).
    simpl. by rewrite Ec.
  - intros [= <- <-]. done.
Qed.

Lemma sspan_app p a b : sforall p a = true → stops p b → sspan p (a +:+ b) = (a, b).
Proof.
  induction a as [|c a IH]; simpl.
  - intros _ Hb. destruct b as [|d b]; simpl in *; [done|]. by rewrite Hb.
  - intros [-> Ha]%andb_true_iff Hb. by rewrite IH.
Qed.

Lemma split_last_inv c s a b : split_last c s = Some (a, b) → s = a +:+ String c b ∧ split_last c b = None.
Proof.
  revert a. induction s as [|d s IH]; intros a; simpl; [done|].
  destruct (split_last c s) as [[a' b']|] eqn:E.
  - intros [= <- <-]. destruct (IH a' eq_refl) as [-> Hb]. done.
  - case_decide; [|done]. intros [= <- <-]. by subst.
Qed.

Lemma split_last_app c a b : split_last c b = None → split_last c (a +:+ String c b) = Some (a, b).
Proof. intros Hb. induction a as [|d a IH]; simpl; [by rewrite Hb, decide_True|]. by rewrite IH. Qed.

Lemma split_last_suffix c a b : split_last c (a +:+ b) = None → split_last c b = None.
Proof. induction a as [|d a IH]; simpl; [done|]. destruct (split_last c (a +:+ b)) as [[]|]; [done|]. auto. Qed.

(** The match of a redacted URL: the placeholder, and the same text after it. *)
Lemma url_userinfo_redacted scheme user rest url :
  url_userinfo url = Some (scheme, user, rest) →
  url_userinfo (scheme +:+ "://" +:+ REDACTED +:+ "@" +:+ rest) = Some (scheme, REDACTED, rest).
Proof.
  unfold url_userinfo. destruct (sspan (not_in ":/?#") url) as [sch r] eqn:E1.
  apply sspan_inv in E1 as (_ & Hs & _). case_decide as Hne; [done|].
  destruct r as [|c1 [|c2 [|c3 r]]]; try done; try (by repeat case_match).
  intros Hm. destruct (sspan (not_in "/?#") r) as [auth tail] eqn:E2.
  apply sspan_inv in E2 as (_ & Ha & Ht).
  assert (∃ u h, split_last "@" auth = Some (u, h) ∧ scheme = sch ∧ rest = h +:+ tail) as (u & h & Hsp & -> & ->).
  { repeat case_match; try done. destruct (split_last "@" auth) as [[u h]|]; [|done].
    simpl in Hm. simplify_eq. eauto. }
  apply split_last_inv in Hsp as [-> Hh]. rewrite sforall_app in Ha. apply andb_true_iff in Ha as [_ Ha].
  cbn [sforall] in Ha. apply andb_true_iff in Ha as [_ Ha].
  rewrite sspan_app; [|done|done]. rewrite decide_False by done.
  change ("://" +:+ ?x) with (String ":" (String "/" (String "/" x))). cbv beta iota.
  replace (REDACTED +:+ "@" +:+ h +:+ tail) with ((REDACTED +:+ String "@" h) +:+ tail)
    by (by rewrite sapp_assoc).
  rewrite sspan_app; [|by rewrite sforall_app; cbn [sforall]; rewrite Ha|done].
  rewrite split_last_app by done. done.
Qed.

Lemma redact_url_userinfo_idempotent url : redact_url_userinfo (redact_url_userinfo url) = redact_url_userinfo url.
Proof.
  unfold redact_url_userinfo at 2 3. destruct (url_userinfo url) as [[[scheme user] rest]|] eqn:E.
  - unfold redact_url_userinfo. by rewrite (url_userinfo_redacted _ _ _ _ E).
  - unfold redact_url_userinfo. by rewrite E.
Qed.

(** *** Audit metadata *)

Lemma redact_name_spec e :
  match dget "name" (redact_name e) with Some (YStr n) => var_looks_sensitive n = false | _ => True end.
Proof.
  unfold redact_name. destruct (dget "name" e) as [x|] eqn:E; [|by rewrite E].
  destruct x as [| | | |n| |]; try (by rewrite E). destruct (var_looks_sensitive n) eqn:Ev.
  - rewrite dget_dset_eq. apply redacted_not_sensitive.
  - by rewrite E.
Qed.

Lemma redact_name_id e :
  match dget "name" e with Some (YStr n) => var_looks_sensitive n = false | _ => True end → redact_name e = e.
Proof. unfold redact_name. destruct (dget "name" e) as [[]|]; try done. by intros ->. Qed.

Lemma dget_name_redact_value e : dget "name" (redact_value e) = dget "name" e.
Proof. unfold redact_value. repeat case_match; by rewrite ?dget_dset_ne. Qed.

Lemma redact_value_spec e : match dget "value" (redact_value e) with Some x => blank x | None => True end.
Proof.
  unfold redact_value. destruct (dget "value" e) as [x|] eqn:E; [|by rewrite E].
  destruct x; rewrite ?dget_dset_eq, ?E; try done; apply redact_blank.
Qed.

Lemma redact_value_idempotent e : redact_value (redact_value e) = redact_value e.
Proof.
  unfold redact_value at 2 3. destruct (dget "value" e) as [x|] eqn:E; [|unfold redact_value; by rewrite E].
  destruct x as [|b|z|r|s|l|d]; [unfold redact_value; by rewrite E|..];
    unfold redact_value; rewrite dget_dset_eq.
  1-4: apply dset_same, dget_dset_eq.
  - change (redact_sensitive_structure true 0 (YList l)) with
      (YList (redact_sensitive_structure true 1 <$> l)).
    apply dset_same. rewrite dget_dset_eq. f_equal. symmetry. exact (redact_idempotent true 0 (YList l)).
  - change (redact_sensitive_structure true 0 (YDict d)) with
      (YDict ((λ p, (p.1, if var_looks_sensitive p.1 then YStr REDACTED
                         else redact_sensitive_structure true 1 p.2)) <$> d)).
    apply dset_same. rewrite dget_dset_eq. f_equal. symmetry. exact (redact_idempotent true 0 (YDict d)).
Qed.

Lemma redact_entry_idempotent e :
  redact_value (redact_name (redact_value (redact_name e))) = redact_value (redact_name e).
Proof.
  rewrite (redact_name_id (redact_value _)); [apply redact_value_idempotent|].
  rewrite dget_name_redact_value. apply redact_name_spec.
Qed.

Lemma sanitize_scalar_idempotent key x : sanitize_scalar key (sanitize_scalar key x) = sanitize_scalar key x.
Proof.
  destruct x as [| | | |s| |]; try done. unfold sanitize_scalar at 2 3. case_decide as Hk.
  - unfold sanitize_scalar. rewrite decide_True by done. by rewrite redact_url_userinfo_idempotent.
  - destruct (str_looks_sensitive s) eqn:E; unfold sanitize_scalar; rewrite decide_False by done.
    + by rewrite (proj1 redacted_not_sensitive).
    + by rewrite E.
Qed.

Lemma fmap_idempotent {A} (f : A → A) (l : list A) : (∀ x, f (f x) = f x) → f <$> (f <$> l) = f <$> l.
Proof. intros Hf. rewrite <- list_fmap_compose. apply list_fmap_ext. intros. apply Hf. Qed.

Lemma on_dict_idempotent f x : (∀ e, f (f e) = f e) → on_dict f (on_dict f x) = on_dict f x.
Proof. intros Hf. destruct x; try done. simpl. by rewrite Hf. Qed.

Lemma redact_list_shape all depth l :
  (MAX_DEPTH <? depth)%nat = false →
  redact_sensitive_structure all depth (YList l) = YList (redact_sensitive_structure all (S depth) <$> l).
Proof. intros Hd. cbn [redact_sensitive_structure]. by rewrite Hd. Qed.

Lemma sanitize_audit_idempotent key x :
  sanitize_audit_structure key (sanitize_audit_structure key x) = sanitize_audit_structure key x.
Proof.
  unfold sanitize_audit_structure at 2 3. case_decide as Hk.
  + destruct x as [| | | | |l|]; unfold sanitize_audit_structure; rewrite decide_True by done;
      rewrite ?(fmap_idempotent (sanitize_scalar key)) by (intros; apply sanitize_scalar_idempotent);
      try done. unfold sanitize_scalar. rewrite !decide_True by done.
    by rewrite redact_url_userinfo_idempotent.
  + destruct x as [| | | |s|l|d].
    1-4: unfold sanitize_audit_structure; by rewrite decide_False.
    * unfold sanitize_scalar. rewrite decide_False by done.
      destruct (str_looks_sensitive s) eqn:E; unfold sanitize_audit_structure; rewrite decide_False by done;
        unfold sanitize_scalar; rewrite decide_False by done; [by rewrite (proj1 redacted_not_sensitive)|].
      by rewrite E.
    * repeat case_decide; unfold sanitize_audit_structure; try (rewrite decide_False by done).
      -- rewrite decide_True by done. rewrite fmap_idempotent; [done|]. intros. apply on_dict_idempotent.
         intros. apply redact_name_id, redact_name_spec.
      -- rewrite decide_False, decide_True by done. rewrite fmap_idempotent; [done|].
         intros. apply on_dict_idempotent. intros. apply redact_entry_idempotent.
      -- rewrite redact_list_shape by done. rewrite !decide_False by done.
         rewrite <- redact_list_shape by done. apply redact_idempotent.
    * change (redact_sensitive_structure false 0 (YDict d)) with
        (YDict ((λ p, (p.1, if var_looks_sensitive p.1 then YStr REDACTED
                            else redact_sensitive_structure false 1 p.2)) <$> d)).
      unfold sanitize_audit_structure. rewrite decide_False by done.
      exact (redact_idempotent false 0 (YDict d)).
Qed.

(** ** Theorems *)

(** C31: Redaction leaves no secret among the values: at every depth of the result no string
    value matches a credential pattern and a sensitive key carries only the placeholder;
    with all scalars redacted the values are placeholders and nulls only; redacting again
    changes nothing; and what is not replaced by the placeholder keeps its shape, lists
    their length and dictionaries their keys.  Keys are not values: they are kept as they
    are, whatever they contain. *)
Theorem redaction_complete all x :
  clean (redact_sensitive_structure all 0 x) ∧
  (all = true → blank (redact_sensitive_structure all 0 x)) ∧
  redact_sensitive_structure all 0 (redact_sensitive_structure all 0 x)
  = redact_sensitive_structure all 0 x ∧
  shape x (redact_sensitive_structure all 0 x).
Proof. split_and!; [apply redact_clean|intros ->; apply redact_blank|apply redact_idempotent|apply redact_shape]. Qed.

(** Audit metadata is sanitized once and for all: the second pass that the gateway
    makes changes nothing, a redacted URL has no user information left, and the entries
    of a variable set keep neither a sensitive name nor any value. *)
Theorem audit_sanitization_stable :
  (∀ key x, sanitize_audit_structure key (sanitize_audit_structure key x)
            = sanitize_audit_structure key x) ∧
  (∀ url scheme user rest, url_userinfo (redact_url_userinfo url) = Some (scheme, user, rest) →
     user = REDACTED) ∧
  (∀ l, ∃ l', sanitize_audit_structure "variable_set" (YList l) = YList l' ∧
     Forall (λ x, match x with
                  | YDict e =>
                    match dget "name" e with Some (YStr n) => var_looks_sensitive n = false | _ => True end ∧
                    match dget "value" e with Some v => blank v | None => True end
                  | _ => True
                  end) l').
Proof.
  split_and!; [apply sanitize_audit_idempotent|..].
  - intros url scheme user rest. unfold redact_url_userinfo.
    destruct (url_userinfo url) as [[[sc us] re]|] eqn:E; [|congruence].
    rewrite (url_userinfo_redacted _ _ _ _ E). by intros [= _ <- _].
  - intros l. eexists. split; [reflexivity|]. apply Forall_fmap, Forall_true. intros x. destruct x; try done.
    simpl. split; [rewrite dget_name_redact_value; apply redact_name_spec|apply redact_value_spec].
Qed.

(** ** Examples *)

Module SensitivityDemo.
Definition play_vars : yval :=
  YDict [("app_port", YInt 8080); ("db_password", YStr "hunter2");
         ("users", YList [YDict [("name", YStr "ops"); ("api_token", YStr "x")]])].

Example sensitive_names :
  var_looks_sensitive <$> ["db_password"; "api_token"; "app_port"; "bypass_cache"]
  = [true; true; false; false].
Proof. vm_compute. reflexivity. Qed.

(** A key that looks like a credential is kept. *)
Example keys_are_kept :
  str_looks_sensitive "password=hunter2" = true ∧
  redact_sensitive_structure false 0 (YDict [("password=hunter2", YInt 1)]) = YDict [("password=hunter2", YInt 1)].
Proof. vm_compute. split; reflexivity. Qed.

(** Redacting all scalars leaves only placeholders. *)
Lemma redaction_complete_witness :
  blank (redact_sensitive_structure true 0 play_vars) ∧
  redact_sensitive_structure false 0 play_vars
  = YDict [("app_port", YInt 8080); ("db_password", YStr REDACTED);
           ("users", YList [YDict [("name", YStr "ops"); ("api_token", YStr REDACTED)]])].
Proof.
  split; [|vm_compute; reflexivity].
  destruct (redaction_complete true play_vars) as (_ & Hb & _). apply Hb. reflexivity.
Defined.

(** The user information of a download URL. *)
Lemma audit_sanitization_stable_witness :
  redact_url_userinfo "https://bob:pw@host/a?b" = "https://" +:+ REDACTED +:+ "@host/a?b" ∧
  ∀ user, url_userinfo (redact_url_userinfo "https://bob:pw@host/a?b") = Some ("https", user, "host/a?b") →
    user = REDACTED.
Proof.
  split; [vm_compute; reflexivity|]. intros user Hu.
  destruct audit_sanitization_stable as (_ & Hs & _). exact (Hs _ _ _ _ Hu).
Defined.
End SensitivityDemo.
