(* ===== verification/Severity.v ===== *)
(** * Rule severities

    Models [src/apme_engine/graph/severity.py] (ADR-043): the severity levels, the
    static default of every rule, and the conversions to labels and to the
    protocol's integers. *)

From stdpp Require Import base list gmap strings.
From Stdlib Require Import String.
From S2P Require Import Prelude PyStr.

#[local] Open Scope string_scope.

Inductive Severity :=
| UNSPECIFIED | INFO | LOW | MEDIUM | HIGH | ERROR | CRITICAL.

#[export] Instance severity_eq_dec : EqDecision Severity.
Proof. solve_decision. Defined.

(** [int(sev)] *)
Definition sev_int (s : Severity) : Z :=
  match s with
  | UNSPECIFIED => 0 | INFO => 1 | LOW => 2 | MEDIUM => 3 | HIGH => 4 | ERROR => 5 | CRITICAL => 6
  end.

Definition SEVERITY_DEFAULTS : list (string * Severity) :=
  [ ("L050", LOW); ("L026", LOW); ("L027", LOW); ("L032", LOW); ("L033", LOW); ("L034", LOW);
    ("L035", LOW); ("L036", LOW); ("L041", LOW); ("L043", LOW); ("L044", LOW); ("L046", LOW);
    ("L048", LOW); ("L049", LOW); ("L051", LOW); ("L052", LOW); ("L053", LOW); ("L054", LOW);
    ("L055", LOW); ("L074", LOW); ("L075", LOW); ("L076", LOW); ("L077", LOW); ("L078", LOW);
    ("L079", LOW); ("L080", LOW); ("L081", LOW); ("L082", LOW); ("L083", LOW); ("L084", LOW);
    ("L085", LOW); ("L086", LOW); ("L087", LOW); ("L088", LOW); ("L089", LOW); ("L090", LOW);
    ("L091", LOW); ("L092", LOW); ("L093", LOW); ("L094", LOW); ("L097", LOW); ("L103", LOW);
    ("L104", LOW); ("L105", LOW); ("L111", LOW); ("L112", LOW); ("L113", LOW); ("L114", LOW);
    ("M019", LOW); ("M020", LOW); ("M027", LOW); ("M048", LOW); ("L040", INFO); ("L042", INFO);
    ("L056", INFO); ("L060", INFO); ("L073", LOW); ("L099", INFO); ("R117", INFO);
    ("R401", INFO); ("R402", INFO); ("R404", INFO); ("R501", INFO); ("L037", MEDIUM);
    ("L038", MEDIUM); ("L039", MEDIUM); ("L106", MEDIUM); ("L100", MEDIUM); ("L101", MEDIUM);
    ("L102", MEDIUM); ("M014", MEDIUM); ("M015", MEDIUM); ("M022", MEDIUM); ("M026", MEDIUM);
    ("M029", MEDIUM); ("M030", MEDIUM); ("M031", MEDIUM); ("M047", MEDIUM); ("R101", MEDIUM);
    ("R103", MEDIUM); ("R104", MEDIUM); ("R105", MEDIUM); ("R106", MEDIUM); ("R107", MEDIUM);
    ("R108", MEDIUM); ("R109", MEDIUM); ("R111", MEDIUM); ("R112", MEDIUM); ("R113", MEDIUM);
    ("R114", MEDIUM); ("R115", MEDIUM); ("L031", HIGH); ("L047", HIGH); ("L110", HIGH);
    ("L095", ERROR); ("L096", HIGH); ("L098", ERROR); ("M005", HIGH); ("M010", HIGH);
    ("L045", LOW); ("L003", LOW); ("L004", HIGH); ("L005", LOW); ("L006", LOW); ("L007", LOW);
    ("L008", LOW); ("L009", MEDIUM); ("L010", MEDIUM); ("L011", LOW); ("L012", LOW);
    ("L013", MEDIUM); ("L014", LOW); ("L015", LOW); ("L016", INFO); ("L017", LOW);
    ("L018", HIGH); ("L019", LOW); ("L020", HIGH); ("L021", LOW); ("L022", LOW); ("L023", INFO);
    ("L024", LOW); ("L025", LOW); ("L061", LOW); ("L062", LOW); ("L063", LOW); ("L064", LOW);
    ("L065", LOW); ("L066", LOW); ("L067", INFO); ("L068", INFO); ("L069", INFO);
    ("L070", INFO); ("L071", INFO); ("L072", INFO); ("M006", HIGH); ("M008", HIGH);
    ("M009", HIGH); ("M011", HIGH); ("M016", HIGH); ("M017", HIGH); ("M018", HIGH);
    ("M021", HIGH); ("M023", HIGH); ("M024", HIGH); ("M025", HIGH); ("M028", HIGH);
    ("R118", INFO); ("L057", ERROR); ("L058", ERROR); ("L059", ERROR); ("M001", HIGH);
    ("M002", HIGH); ("M003", HIGH); ("M004", ERROR); ("P001", ERROR); ("P002", ERROR);
    ("P003", ERROR); ("P004", ERROR); ("R901", ERROR); ("R902", ERROR); ("A001", MEDIUM);
    ("A002", HIGH) ].

Definition SEVERITY_LABELS (s : Severity) : string :=
  match s with
  | UNSPECIFIED => "unspecified" | INFO => "info" | LOW => "low" | MEDIUM => "medium"
  | HIGH => "high" | ERROR => "error" | CRITICAL => "critical"
  end.

Definition all_severities : list Severity :=
  [UNSPECIFIED; INFO; LOW; MEDIUM; HIGH; ERROR; CRITICAL].

Definition LABEL_TO_SEVERITY : list (string * Severity) :=
  (λ s, (SEVERITY_LABELS s, s)) <$> all_severities.

Definition get_severity (rule_id : string) : Severity :=
  if startswith rule_id "SEC:" then CRITICAL
  else default MEDIUM (dget rule_id SEVERITY_DEFAULTS).

Definition severity_from_label (label : string) : Severity :=
  default MEDIUM (dget (slower label) LABEL_TO_SEVERITY).

Definition severity_to_label (s : Severity) : string := SEVERITY_LABELS s.

Definition severity_from_proto (z : Z) : Severity :=
  if (z =? 0)%Z then UNSPECIFIED else if (z =? 1)%Z then INFO else if (z =? 2)%Z then LOW
  else if (z =? 3)%Z then MEDIUM else if (z =? 4)%Z then HIGH else if (z =? 5)%Z then ERROR
  else if (z =? 6)%Z then CRITICAL else MEDIUM.

Definition severity_to_proto (s : Severity) : Z := sev_int s.

(** ** Lemmas *)

(** The table lists every rule once, and never a secret rule. *)
Lemma severity_defaults_nodup : NoDup SEVERITY_DEFAULTS.*1.
Proof. apply (bool_decide_unpack _). vm_compute. exact I. Qed.

Lemma severity_defaults_no_sec :
  Forall (λ p, startswith p.1 "SEC:" = false) SEVERITY_DEFAULTS.
Proof. apply (bool_decide_unpack _). vm_compute. exact I. Qed.

(** ** Properties *)

(** Labels and protocol integers lose nothing: every severity is recovered from its
    label and from its integer, and any integer outside 0..6 is read as MEDIUM, never
    as UNSPECIFIED. *)
Theorem severity_roundtrips :
  (∀ s, severity_from_label (severity_to_label s) = s) ∧
  (∀ s, severity_from_proto (severity_to_proto s) = s) ∧
  (∀ z, (z < 0 ∨ 6 < z)%Z → severity_from_proto z = MEDIUM).
Proof.
  split_and!; [intros []; reflexivity|intros []; reflexivity|].
  intros z Hz. unfold severity_from_proto.
  by rewrite !(proj2 (Z.eqb_neq _ _)) by lia.
Qed.

Lemma severity_roundtrips_witness : severity_from_proto 7 = MEDIUM.
Proof. apply severity_roundtrips. lia. Defined.

(** The severity of a rule id is total and unambiguous: a secret rule is CRITICAL
    whatever follows the prefix, a listed rule gets exactly its table entry, and every
    other rule is MEDIUM. *)
Theorem get_severity_spec rid :
  (∀ s, get_severity ("SEC:" +:+ s) = CRITICAL) ∧
  (∀ sev, (rid, sev) ∈ SEVERITY_DEFAULTS → get_severity rid = sev) ∧
  (startswith rid "SEC:" = false → rid ∉ SEVERITY_DEFAULTS.*1 → get_severity rid = MEDIUM).
Proof.
  unfold get_severity. split_and!.
  - intros s. by rewrite startswith_app.
  - intros sev Hin. pose proof severity_defaults_no_sec as Hs.
    rewrite Forall_forall in Hs. specialize (Hs _ Hin). simpl in Hs. rewrite Hs.
    by rewrite (dget_elem _ _ _ severity_defaults_nodup Hin).
  - intros Hp Hn. rewrite Hp. by apply dget_None in Hn as ->.
Qed.

Lemma get_severity_spec_witness :
  get_severity "L021" = LOW ∧ get_severity "X999" = MEDIUM.
Proof.
  split.
  - apply (get_severity_spec "L021"). apply (bool_decide_unpack _). vm_compute. exact I.
  - apply (get_severity_spec "X999"); [reflexivity|].
    apply (bool_decide_unpack _). vm_compute. exact I.
Defined.
