(* ===== verification/Naming.v ===== *)
(** * Galaxy collection names and Python package names

    Models [src/galaxy_proxy/naming.py]: the mapping of a Galaxy FQCN such as
    [ansible.utils] to a PEP 503 package name and back, and the wheel and
    [.dist-info] names.  A [ValueError] is [None].  The theorems give the exact
    set of collections for which the mapping is reversible, and show that it is
    not injective on all legal Galaxy names. *)

From stdpp Require Import base list strings.
From Stdlib Require Import Ascii String.
From S2P Require Import Prelude PyStr.

#[local] Open Scope string_scope.

Definition PREFIX : string := "ansible-collection-".

(** The class [-_.] of [_PEP503_NORMALIZE]. *)
Definition is_sep (c : ascii) : bool :=
  Ascii.eqb c "-" || Ascii.eqb c "_" || Ascii.eqb c ".".

(** [re.sub("[-_.]+", "-", s)]; [run] tells that the previous character was a
    separator, so the run has already been replaced. *)
Fixpoint collapse (run : bool) (s : string) : string :=
  match s with
  | "" => ""
  | String c s' =>
    if is_sep c then if run then collapse true s' else String "-" (collapse true s')
    else String c (collapse false s')
  end.

Definition normalize_pep503 (name : string) : string := slower (collapse false name).

Definition fqcn_to_python (fqcn : string) : option string :=
  '(namespace, name) ← split1 "." fqcn;
  Some (normalize_pep503 (PREFIX +:+ namespace +:+ "-" +:+ name)).

Definition python_to_fqcn (package_name : string) : option (string * string) :=
  let normalized := normalize_pep503 package_name in
  if startswith normalized PREFIX then
    let stripped := removeprefix normalized PREFIX in
    '(p0, p1) ← split1 "-" stripped;
    Some (sreplace "-" "_" p0, sreplace "-" "_" p1)
  else None.

Definition is_collection_package (package_name : string) : bool :=
  startswith (normalize_pep503 package_name) PREFIX.

Definition wheel_filename (namespace name version : string) : string :=
  ("ansible_collection_" +:+ namespace +:+ "_" +:+ name) +:+ "-" +:+ version
    +:+ "-py3-none-any.whl".

Definition dist_info_dirname (namespace name version : string) : string :=
  ("ansible_collection_" +:+ namespace +:+ "_" +:+ name) +:+ "-" +:+ version
    +:+ ".dist-info".

(** ** Legal Galaxy names: non-empty, over [a-z0-9_]. *)

Definition galaxy_char (c : ascii) : bool :=
  ((97 <=? code c)%N && (code c <=? 122)%N) || ((48 <=? code c)%N && (code c <=? 57)%N)
    || Ascii.eqb c "_".

Definition galaxy_name (s : string) : bool :=
  negb (bool_decide (s = "")) && sforall galaxy_char s.

(** No separator directly after another one ([run]: the text before ends in one). *)
Fixpoint clean (run : bool) (s : string) : bool :=
  match s with
  | "" => true
  | String c s' => if is_sep c then negb run && clean true s' else clean false s'
  end.

Definition no_underscore (s : string) : bool := sforall (λ c, negb (is_sep c)) s.

(** ** Lemmas *)

Lemma galaxy_lower c : galaxy_char c = true → lower_ascii c = c.
Proof.
  intros H. apply Ascii.eqb_eq. revert H. apply Bool.implb_true_iff.
  apply (ascii_all (λ c, implb (galaxy_char c) (Ascii.eqb (lower_ascii c) c))).
  vm_compute. reflexivity.
Qed.

Lemma galaxy_sep c : galaxy_char c = true → is_sep c = Ascii.eqb c "_".
Proof.
  intros H. apply Bool.eqb_prop. revert H. apply Bool.implb_true_iff.
  apply (ascii_all (λ c, implb (galaxy_char c)
    (Bool.eqb (is_sep c) (Ascii.eqb c "_")))).
  vm_compute. reflexivity.
Qed.

Lemma lower_not_sep c : is_sep (lower_ascii c) = is_sep c.
Proof.
  apply Bool.eqb_prop. apply (ascii_all (λ c, Bool.eqb (is_sep (lower_ascii c)) (is_sep c))).
  vm_compute. reflexivity.
Qed.

Lemma lower_idemp c : lower_ascii (lower_ascii c) = lower_ascii c.
Proof.
  apply Ascii.eqb_eq.
  apply (ascii_all (λ c, Ascii.eqb (lower_ascii (lower_ascii c)) (lower_ascii c))).
  vm_compute. reflexivity.
Qed.

Lemma sep_dash : is_sep "-" = true.
Proof. reflexivity. Qed.

Lemma collapse_idemp r s : collapse r (slower (collapse r s)) = slower (collapse r s).
Proof.
  unfold slower. revert r. induction s as [|c s IH]; intros r; [done|]. simpl.
  destruct (is_sep c) eqn:E; [destruct r|]; simpl; [apply IH|by rewrite IH|].
  by rewrite lower_not_sep, E, IH.
Qed.

Lemma slower_idemp s : slower (slower s) = slower s.
Proof.
  unfold slower. induction s as [|c s IH]; simpl; [done|]. by rewrite lower_idemp, IH.
Qed.

Lemma normalize_idemp s : normalize_pep503 (normalize_pep503 s) = normalize_pep503 s.
Proof. unfold normalize_pep503. by rewrite collapse_idemp, slower_idemp. Qed.

(** Lower-case text over Galaxy characters and dashes is left alone by [lower]. *)
Lemma slower_collapse r s : sforall galaxy_char s = true →
  slower (collapse r s) = collapse r s.
Proof.
  unfold slower. revert r.
  induction s as [|c s IH]; intros r; [done|]. simpl. intros [Hc Hs]%andb_prop.
  destruct (is_sep c); [destruct r; simpl; rewrite ?IH; done|].
  simpl. by rewrite galaxy_lower, IH.
Qed.

Lemma collapse_clean_app r a b :
  no_underscore a = true → a ≠ "" → collapse r (a +:+ b) = a +:+ collapse false b.
Proof.
  unfold no_underscore. intros Ha Hne. revert r Hne.
  induction a as [|c a IH]; intros r; [done|]. simpl in *.
  intros _. apply andb_prop in Ha as [Hc Ha]. destruct (is_sep c); [done|].
  f_equal. destruct a as [|d a]; [done|]. by apply IH.
Qed.

Lemma length_collapse r s : (String.length (collapse r s) ≤ String.length s)%nat.
Proof.
  revert r. induction s as [|c s IH]; intros r; simpl; [done|].
  pose proof (IH true). pose proof (IH false). destruct (is_sep c), r; simpl; lia.
Qed.

Lemma collapse_length_clean r s :
  String.length (collapse r s) = String.length s → clean r s = true.
Proof.
  revert r. induction s as [|c s IH]; intros r; simpl; [done|].
  destruct (is_sep c); [destruct r|]; simpl; intros H.
  - pose proof (length_collapse true s). lia.
  - apply IH. lia.
  - apply IH. lia.
Qed.

Lemma collapse_clean r s : sforall galaxy_char s = true → clean r s = true →
  sreplace "-" "_" (collapse r s) = s.
Proof.
  unfold sreplace. revert r. induction s as [|c s IH]; intros r; simpl; [done|].
  intros [Hc Hs]%andb_prop. rewrite galaxy_sep by done.
  destruct (Ascii.eqb_spec c "_") as [->|Hu].
  - intros [Hr Hcl]%andb_prop. destruct r; [done|]. simpl. by rewrite IH.
  - intros Hcl. simpl. rewrite decide_False; [by rewrite IH|]. intros ->. done.
Qed.

Lemma length_smap f s : String.length (smap f s) = String.length s.
Proof. induction s; simpl; congruence. Qed.

(** [collapse] leaves no underscore. *)
Lemma collapse_no_underscore r s : sforall (λ c, bool_decide (c ≠ "_"%char)) (collapse r s) = true.
Proof.
  revert r. induction s as [|c s IH]; intros r; simpl; [done|].
  destruct (is_sep c) eqn:E; [destruct r; simpl; auto|]. simpl. rewrite IH, andb_true_r.
  apply bool_decide_eq_true. by intros ->.
Qed.

Lemma sreplace_no_underscore s :
  sforall (λ c, bool_decide (c ≠ "_"%char)) s = true →
  sforall (λ c, bool_decide (c ≠ "-"%char)) s = true →
  sreplace "-" "_" s = s.
Proof.
  unfold sreplace. induction s as [|c s IH]; simpl; [done|].
  intros [H1%bool_decide_eq_true ?]%andb_prop [H2%bool_decide_eq_true ?]%andb_prop.
  rewrite decide_False, IH; done.
Qed.

Lemma galaxy_no_dot s : sforall galaxy_char s = true →
  sforall (λ d, bool_decide (d ≠ "."%char)) s = true.
Proof.
  induction s as [|c s IH]; simpl; [done|]. intros [Hc Hs]%andb_prop. rewrite IH by done.
  rewrite andb_true_r. apply bool_decide_eq_true. intros ->. done.
Qed.

Lemma galaxy_no_underscore s :
  sforall galaxy_char s = true → sforall (λ c, bool_decide (c ≠ "_"%char)) s = true →
  no_underscore s = true.
Proof.
  unfold no_underscore. induction s as [|c s IH]; simpl; [done|].
  intros [Hc Hs]%andb_prop [Hu Hus]%andb_prop. rewrite IH by done.
  rewrite galaxy_sep by done. apply bool_decide_eq_true in Hu.
  by destruct (Ascii.eqb_spec c "_").
Qed.

Lemma no_underscore_no_dash s : no_underscore s = true →
  sforall (λ d, bool_decide (d ≠ "-"%char)) s = true.
Proof.
  unfold no_underscore. induction s as [|c s IH]; simpl; [done|].
  intros [Hc Hs]%andb_prop. rewrite IH by done. rewrite andb_true_r.
  apply bool_decide_eq_true. by intros ->.
Qed.

(** The package name of a legal FQCN. *)
Lemma fqcn_to_python_galaxy ns name :
  sforall galaxy_char ns = true → sforall galaxy_char name = true →
  fqcn_to_python (ns +:+ String "." name) =
    Some (PREFIX +:+ slower (collapse true (ns +:+ String "-" name))).
Proof.
  intros Hns Hname. unfold fqcn_to_python.
  rewrite split1_Some by (by apply galaxy_no_dot). reflexivity.
Qed.

Lemma python_to_fqcn_package s :
  python_to_fqcn (PREFIX +:+ slower (collapse true s)) =
    ('(p0, p1) ← split1 "-" (slower (collapse true s));
     Some (sreplace "-" "_" p0, sreplace "-" "_" p1)).
Proof.
  unfold python_to_fqcn.
  assert (Hn : normalize_pep503 (PREFIX +:+ slower (collapse true s))
               = PREFIX +:+ slower (collapse true s)).
  { change (PREFIX +:+ slower (collapse true s)) with (normalize_pep503 (PREFIX +:+ s)).
    apply normalize_idemp. }
  rewrite Hn. by rewrite startswith_app, removeprefix_app.
Qed.

Lemma slower_galaxy s : sforall galaxy_char s = true → slower s = s.
Proof.
  unfold slower. induction s as [|c s IH]; simpl; [done|]. intros [Hc Hs]%andb_prop.
  by rewrite galaxy_lower, IH.
Qed.

(** Once the namespace is clean, the round trip only depends on the name. *)
Lemma roundtrip_clean_namespace ns name :
  ns ≠ "" → sforall galaxy_char ns = true → sforall galaxy_char name = true →
  no_underscore ns = true →
  fqcn_to_python (ns +:+ String "." name) ≫= python_to_fqcn
    = Some (ns, sreplace "-" "_" (collapse true name)).
Proof.
  intros Hne Hns Hname Hu.
  rewrite fqcn_to_python_galaxy by done. unfold mbind, option_bind.
  rewrite python_to_fqcn_package, collapse_clean_app by done.
  change (collapse false (String "-" name)) with (String "-" (collapse true name)).
  unfold slower. rewrite smap_app. fold (slower ns).
  change (smap lower_ascii (String "-" (collapse true name)))
    with (String "-" (slower (collapse true name))).
  rewrite slower_galaxy, slower_collapse by done.
  rewrite split1_Some by (by apply no_underscore_no_dash). simpl. f_equal. f_equal.
  apply sreplace_no_underscore; [|by apply no_underscore_no_dash].
  pose proof (collapse_no_underscore false ns) as Hc.
  rewrite <- (sapp_nil_r ns) in Hc at 1. rewrite collapse_clean_app in Hc by done.
  by rewrite sapp_nil_r in Hc.
Qed.

(** A successful round trip has a namespace without underscores. *)
Lemma roundtrip_namespace ns name name' :
  sforall galaxy_char ns = true → sforall galaxy_char name = true →
  fqcn_to_python (ns +:+ String "." name) ≫= python_to_fqcn = Some (ns, name') →
  no_underscore ns = true.
Proof.
  intros Hns Hname. rewrite fqcn_to_python_galaxy by done. unfold mbind, option_bind.
  rewrite python_to_fqcn_package.
  destruct (split1 "-" _) as [[p0 p1]|] eqn:E; [|done]. simpl. intros; simplify_eq.
  apply split1_inv in E as [E1 E2].
  assert (Hp0 : sforall (λ c, bool_decide (c ≠ "_"%char)) p0 = true).
  { assert (Hall : sforall (λ c, bool_decide (c ≠ "_"%char))
      (slower (collapse true (sreplace "-" "_" p0 +:+ String "-" name))) = true).
    { rewrite <- collapse_idemp. apply collapse_no_underscore. }
    rewrite E1, sforall_app in Hall. by apply andb_prop in Hall as [? _]. }
  rewrite sreplace_no_underscore in Hns |- * by done. by apply galaxy_no_underscore.
Qed.

(** ** Properties *)

(** For a legal Galaxy namespace and collection name, converting the FQCN to a
    package name and back returns the same pair exactly when the namespace has no
    underscore and the name neither starts with an underscore nor has two in a row. *)
Theorem fqcn_roundtrip_iff ns name :
  galaxy_name ns = true → galaxy_name name = true →
  fqcn_to_python (ns +:+ "." +:+ name) ≫= python_to_fqcn = Some (ns, name) ↔
  no_underscore ns = true ∧ clean true name = true.
Proof.
  intros [Hne Hns]%andb_prop [_ Hname]%andb_prop.
  assert (ns ≠ "") as Hne' by (intros ->; done).
  change ("." +:+ name) with (String "." name). split.
  - intros H. pose proof (roundtrip_namespace _ _ _ Hns Hname H) as Hu. split; [done|].
    rewrite roundtrip_clean_namespace in H by done. simplify_eq.
    apply collapse_length_clean. rewrite <- H at 2. by unfold sreplace; rewrite length_smap.
  - intros [Hu Hcl]. rewrite roundtrip_clean_namespace by done.
    by rewrite collapse_clean.
Qed.

Lemma fqcn_roundtrip_iff_witness :
  fqcn_to_python ("infra" +:+ "." +:+ "aap_configuration") ≫= python_to_fqcn
    = Some ("infra", "aap_configuration").
Proof. apply (fqcn_roundtrip_iff "infra" "aap_configuration"); vm_compute; auto. Defined.

(** the mapping is not injective on legal FQCNs: the distinct collections
    [my_org.utils] and [my.org_utils] get the same package name, and reading it back
    yields the second one for both. *)
Theorem fqcn_to_python_collision :
  fqcn_to_python "my_org.utils" = fqcn_to_python "my.org_utils" ∧
  fqcn_to_python "my_org.utils" ≫= python_to_fqcn = Some ("my", "org_utils").
Proof. by vm_compute. Qed.

(** Normalization is idempotent, and every package name the converter produces is
    recognised as a collection package. *)
Theorem normalize_pep503_stable :
  (∀ s, normalize_pep503 (normalize_pep503 s) = normalize_pep503 s) ∧
  (∀ fqcn pkg, fqcn_to_python fqcn = Some pkg → is_collection_package pkg = true).
Proof.
  split; [apply normalize_idemp|]. intros fqcn pkg.
  unfold fqcn_to_python, is_collection_package. destruct (split1 "." fqcn) as [[ns name]|]; [|done].
  intros [= <-]. rewrite normalize_idemp.
  change (startswith (PREFIX +:+ slower (collapse true (ns +:+ "-" +:+ name))) PREFIX = true).
  apply startswith_app.
Qed.
