(* ===== verification/NxGraph.v ===== *)
(** * The graph library

    [ContentGraph] keeps its vertices and edges in a [networkx.MultiDiGraph].
    networkx is not part of the repository: it is a parameter of the model, the
    class [MultiDiGraph] of the operations the sources call, with their documented
    behaviour as the laws of [NxLaws].  The order in which edges are reported is
    left open; vertices are reported in insertion order.  [list_graph] is a small
    implementation that satisfies the laws and on which the definitions run. *)

From stdpp Require Import base list gmap strings sorting.
From S2P Require Import Prelude.

(** [G]: graphs with vertex payloads [N] (the ["node"] attribute, absent on a
    vertex that only an edge mentioned) and edge attributes [E]. *)
Class MultiDiGraph (N E G : Type) := {
  nx_empty : G;
  nx_add_node : string → N → G → G;                       (* add_node(k, node=n) *)
  nx_add_edge : string → string → E → G → G;              (* add_edge(u, v, **attrs) *)
  nx_nodes : G → list (string * option N);                (* nodes(data=True) *)
  nx_edges : G → list (string * string * E);              (* edges(data=True) *)
  nx_out_edges : G → string → list (string * string * E); (* out_edges(k, data=True) *)
  nx_in_edges : G → string → list (string * string * E);  (* in_edges(k, data=True) *)
  (* the payload is an object held by reference: the effect of mutating it *)
  nx_alter : (N → N) → string → G → G;
}.

Section Derived.
Context {N E G : Type} `{MultiDiGraph N E G}.

(** [k in g] *)
Definition nx_mem (k : string) (g : G) : Prop := k ∈ (nx_nodes g).*1.

#[global] Instance nx_mem_dec k g : Decision (nx_mem k g).
Proof. unfold nx_mem. apply _. Defined.

(** The payload of a vertex, [None] for a missing vertex or a bare one. *)
Definition nx_payload (g : G) (k : string) : option N := mjoin (dget k (nx_nodes g)).

(** Add the vertex without a payload unless it is present. *)
Definition ensure_vertex (k : string) (vs : list (string * option N)) : list (string * option N) :=
  if decide (k ∈ vs.*1) then vs else vs ++ [(k, None)].
End Derived.

Class NxLaws (N E G : Type) `{MultiDiGraph N E G} : Prop := {
  nx_nodes_empty : nx_nodes (nx_empty : G) = [];
  nx_edges_empty : nx_edges (nx_empty : G) = [];
  nx_nodes_nodup g : NoDup (nx_nodes g).*1;
  nx_nodes_add_node k n g : nx_nodes (nx_add_node k n g) = dset k (Some n) (nx_nodes g);
  nx_edges_add_node k n g : nx_edges (nx_add_node k n g) ≡ₚ nx_edges g;
  nx_nodes_add_edge u v e g :
    nx_nodes (nx_add_edge u v e g) = ensure_vertex v (ensure_vertex u (nx_nodes g));
  nx_edges_add_edge u v e g : nx_edges (nx_add_edge u v e g) ≡ₚ (u, v, e) :: nx_edges g;
  nx_edges_mem g u v e : (u, v, e) ∈ nx_edges g → nx_mem u g ∧ nx_mem v g;
  nx_out_edges_spec g k :
    nx_mem k g → nx_out_edges g k ≡ₚ filter (λ x, x.1.1 = k) (nx_edges g);
  nx_in_edges_spec g k :
    nx_mem k g → nx_in_edges g k ≡ₚ filter (λ x, x.1.2 = k) (nx_edges g);
  nx_in_edges_sub g k x : x ∈ nx_in_edges g k → x ∈ nx_edges g;
  nx_nodes_alter f k g : nx_nodes (nx_alter f k g) = dalter (fmap f) k (nx_nodes g);
  nx_edges_alter f k g : nx_edges (nx_alter f k g) = nx_edges g;
  nx_out_edges_alter f k g j : nx_out_edges (nx_alter f k g) j = nx_out_edges g j;
  nx_in_edges_alter f k g j : nx_in_edges (nx_alter f k g) j = nx_in_edges g j;
}.

#[export] Hint Rewrite @nx_nodes_empty @nx_edges_empty @nx_edges_alter @nx_out_edges_alter
  @nx_in_edges_alter : pydb.

Section Laws.
Context {N E G : Type} `{NxLaws N E G}.
Implicit Types (g : G) (n : N).

Lemma nx_payload_add_node g k n j :
  nx_payload (nx_add_node k n g) j = if decide (j = k) then Some n else nx_payload g j.
Proof. unfold nx_payload. rewrite nx_nodes_add_node, dget_dset. by case_decide. Qed.

Lemma nx_payload_alter f g k j :
  nx_payload (nx_alter f k g) j = (if decide (j = k) then f else id) <$> nx_payload g j.
Proof.
  unfold nx_payload. rewrite nx_nodes_alter, dget_dalter.
  by destruct (dget j (nx_nodes g)) as [[]|]; simpl; try case_decide.
Qed.

Lemma nx_payload_alter_eq f g k : nx_payload (nx_alter f k g) k = f <$> nx_payload g k.
Proof. rewrite nx_payload_alter. by rewrite decide_True. Qed.

Lemma nx_payload_alter_ne f g k j :
  j ≠ k → nx_payload (nx_alter f k g) j = nx_payload g j.
Proof. intros. rewrite nx_payload_alter, decide_False by done. by destruct (nx_payload g j). Qed.

Lemma nx_mem_alter f g k j : nx_mem j (nx_alter f k g) ↔ nx_mem j g.
Proof. unfold nx_mem. by rewrite nx_nodes_alter, dkeys_dalter. Qed.

Lemma nx_payload_mem g k n : nx_payload g k = Some n → nx_mem k g.
Proof.
  unfold nx_payload, nx_mem. intros Hk. apply dget_is_Some.
  destruct (dget k (nx_nodes g)) as [o|]; [by eexists|done].
Qed.

(** A vertex pair of [nodes(data=True)] is what [get_node] finds under its id. *)
Lemma nx_nodes_payload g k n : (k, Some n) ∈ nx_nodes g ↔ nx_payload g k = Some n.
Proof.
  unfold nx_payload. split.
  - intros Hin. by rewrite (dget_elem _ _ _ (nx_nodes_nodup g) Hin).
  - destruct (dget k (nx_nodes g)) as [o|] eqn:Ed; simpl; [|done].
    intros ->. by apply dget_Some_elem.
Qed.

Lemma elem_of_out_edges g k u v e :
  nx_mem k g → (u, v, e) ∈ nx_out_edges g k ↔ u = k ∧ (u, v, e) ∈ nx_edges g.
Proof. intros Hk. by rewrite (nx_out_edges_spec g k Hk), list_elem_of_filter. Qed.

Lemma elem_of_in_edges g k u v e :
  nx_mem k g → (u, v, e) ∈ nx_in_edges g k ↔ v = k ∧ (u, v, e) ∈ nx_edges g.
Proof. intros Hk. by rewrite (nx_in_edges_spec g k Hk), list_elem_of_filter. Qed.
End Laws.

(** ** A reference implementation *)

Module ListGraph.
Section Impl.
Context {N E : Type}.

Record list_graph := LG {
  lg_nodes : list (string * option N);
  lg_edges : list (string * string * E);
  lg_nodup : NoDup lg_nodes.*1;
  lg_closed : Forall (λ x, x.1.1 ∈ lg_nodes.*1 ∧ x.1.2 ∈ lg_nodes.*1) lg_edges;
}.

Lemma ensure_vertex_mem k j (vs : list (string * option N)) :
  j ∈ (ensure_vertex k vs).*1 ↔ j = k ∨ j ∈ vs.*1.
Proof.
  unfold ensure_vertex. case_decide; [set_solver|]. rewrite fmap_app. set_solver.
Qed.

Lemma ensure_vertex_nodup k (vs : list (string * option N)) :
  NoDup vs.*1 → NoDup (ensure_vertex k vs).*1.
Proof.
  unfold ensure_vertex. intros. case_decide; [done|].
  rewrite fmap_app. apply NoDup_app. split_and!; [done|set_solver|apply NoDup_singleton].
Qed.

Lemma closed_mono (es : list (string * string * E)) (vs vs' : list (string * option N)) :
  (∀ j, j ∈ vs.*1 → j ∈ vs'.*1) →
  Forall (λ x, x.1.1 ∈ vs.*1 ∧ x.1.2 ∈ vs.*1) es →
  Forall (λ x, x.1.1 ∈ vs'.*1 ∧ x.1.2 ∈ vs'.*1) es.
Proof. intros HPQ Hes. eapply Forall_impl; [exact Hes|]. naive_solver. Qed.

Lemma add_node_closed k (n : N) g :
  Forall (λ x, x.1.1 ∈ (dset k (Some n) (lg_nodes g)).*1 ∧ x.1.2 ∈ (dset k (Some n) (lg_nodes g)).*1)
    (lg_edges g).
Proof.
  eapply closed_mono; [|apply lg_closed].
  intros j Hj. apply elem_of_dkeys_dset. by right.
Qed.

Definition add_node k n g : list_graph :=
  LG (dset k (Some n) (lg_nodes g)) (lg_edges g) (dset_NoDup _ _ _ (lg_nodup g))
    (add_node_closed k n g).

Lemma add_edge_closed u v (e : E) g :
  let vs := ensure_vertex v (ensure_vertex u (lg_nodes g)) in
  Forall (λ x, x.1.1 ∈ vs.*1 ∧ x.1.2 ∈ vs.*1) (lg_edges g ++ [(u, v, e)]).
Proof.
  intros vs. apply Forall_app. split.
  - eapply closed_mono; [|apply lg_closed].
    intros j Hj. apply ensure_vertex_mem. right. apply ensure_vertex_mem. by right.
  - apply Forall_singleton. simpl. subst vs. rewrite !ensure_vertex_mem. naive_solver.
Qed.

Definition add_edge u v e g : list_graph :=
  LG (ensure_vertex v (ensure_vertex u (lg_nodes g))) (lg_edges g ++ [(u, v, e)])
    (ensure_vertex_nodup _ _ (ensure_vertex_nodup _ _ (lg_nodup g))) (add_edge_closed u v e g).

Lemma alter_nodup (f : N → N) k g : NoDup (dalter (fmap f) k (lg_nodes g)).*1.
Proof. rewrite dkeys_dalter. apply lg_nodup. Qed.

Lemma alter_closed (f : N → N) k g :
  Forall (λ x, x.1.1 ∈ (dalter (fmap f) k (lg_nodes g)).*1
             ∧ x.1.2 ∈ (dalter (fmap f) k (lg_nodes g)).*1) (lg_edges g).
Proof. rewrite dkeys_dalter. apply lg_closed. Qed.

Definition alter f k g : list_graph :=
  LG (dalter (fmap f) k (lg_nodes g)) (lg_edges g) (alter_nodup f k g) (alter_closed f k g).

#[global] Instance list_multidigraph : MultiDiGraph N E list_graph := {
  nx_empty := LG [] [] (NoDup_nil_2) (Forall_nil_2 _);
  nx_add_node := add_node;
  nx_add_edge := add_edge;
  nx_nodes := lg_nodes;
  nx_edges := lg_edges;
  nx_out_edges g k := filter (λ x, x.1.1 = k) (lg_edges g);
  nx_in_edges g k := filter (λ x, x.1.2 = k) (lg_edges g);
  nx_alter := alter;
}.

#[global] Instance list_graph_laws : NxLaws N E list_graph.
Proof.
  split; try done.
  - intros g. apply lg_nodup.
  - intros. simpl. by rewrite (comm app).
  - intros g u v e Hin. pose proof (lg_closed g) as Hc.
    rewrite Forall_forall in Hc. apply (Hc _ Hin).
  - intros g k x Hx. by apply list_elem_of_filter in Hx as [_ ?].
Qed.
End Impl.
Arguments list_graph : clear implicits.
End ListGraph.
