(* ===== verification/ContentNode.v ===== *)
(** * Content nodes

    Models the node layer of [src/apme_engine/graph/content_graph.py]: node and edge
    types, identities, progression snapshots ([NodeState]), ledger records
    ([ViolationRecord]), [ContentNode] with [record_state] and [update_from_yaml],
    the re-extraction of the typed fields from parsed YAML, and the indentation
    helpers.

    The fields of [ContentNode] are grouped: [nd_fields] holds the ones
    [_apply_parsed_fields] rewrites, [nd_meta] the ones nothing modelled here
    changes.  A Python [None] of a field typed [YAMLValue | None] is [YNull]. *)

From stdpp Require Import base list gmap strings pretty.
From Stdlib Require Import Ascii String.
From S2P Require Import Prelude PyStr Sha256 Yaml Violation.

#[local] Open Scope string_scope.

#[local] Notation length := List.length.

(** ** Types *)

Inductive NodeType :=
| PLAYBOOK | PLAY | ROLE | TASKFILE | TASK | HANDLER | BLOCK | MODULE | MODULE_UTILS
| FILTER_PLUGIN | ACTION_PLUGIN | LOOKUP_PLUGIN | VARS_FILE | COLLECTION | RULEBOOK | RULESET.

Inductive EdgeType :=
| IMPORT | INCLUDE | NOTIFY | LISTEN | DEPENDENCY | DATA_FLOW | RESCUE | ALWAYS | INVOKES
| PY_IMPORTS | VARS_INCLUDE | CONTAINS.

Inductive NodeScope := OWNED | REFERENCED.

#[export] Instance node_type_eq_dec : EqDecision NodeType.
Proof. solve_decision. Defined.
#[export] Instance edge_type_eq_dec : EqDecision EdgeType.
Proof. solve_decision. Defined.
#[export] Instance node_scope_eq_dec : EqDecision NodeScope.
Proof. solve_decision. Defined.

Record NodeIdentity := MkIdentity { id_path : string; id_type : NodeType }.

(** [NodeIdentity.parent_path] *)
Definition parent_path (i : NodeIdentity) : option string :=
  match before_last "/" (id_path i) with
  | None | Some "" => None
  | Some p => Some p
  end.

Record NodeState := MkState {
  ns_id : string;
  ns_pass : nat;
  ns_phase : string;
  ns_yaml : string;
  ns_hash : string;
  ns_time : string;
  ns_approved : bool;
  ns_source : string;
}.

(** The status values of a ledger record. *)
Inductive status :=
| Open | Fixed | PendingReview | Proposed | Declined | AiAbstained.

#[export] Instance status_eq_dec : EqDecision status.
Proof. solve_decision. Defined.

Record ViolationRecord := MkRecord {
  vr_key : ViolationKey;
  vr_violation : ViolationDict;
  vr_status : status;
  vr_fixed_by : option string;
  vr_fixed_in_pass : option nat;
  vr_discovered : nat;
  vr_ai_reason : option string;
  vr_ai_suggestion : option string;
}.

Definition vr_set_violation (v : ViolationDict) (r : ViolationRecord) : ViolationRecord :=
  MkRecord (vr_key r) v (vr_status r) (vr_fixed_by r) (vr_fixed_in_pass r) (vr_discovered r)
    (vr_ai_reason r) (vr_ai_suggestion r).

Definition vr_set_status (s : status) (by_ : option string) (pass : option nat)
    (r : ViolationRecord) : ViolationRecord :=
  MkRecord (vr_key r) (vr_violation r) s by_ pass (vr_discovered r)
    (vr_ai_reason r) (vr_ai_suggestion r).

Inductive when_expr := WhenNone | WhenStr (s : string) | WhenList (l : list string).

(** The fields extracted from the node's YAML. *)
Record NodeFields := MkFields {
  f_name : option string;
  f_module : string;
  f_module_options : YAMLDict;
  f_options : YAMLDict;
  f_variables : YAMLDict;
  f_become : option YAMLDict;
  f_when : when_expr;
  f_tags : list string;
  f_loop : yval;
  f_loop_control : option YAMLDict;
  f_register : option string;
  f_set_facts : YAMLDict;
  f_notify : list string;
  f_listen : list string;
  f_environment : option YAMLDict;
  f_no_log : option bool;
  f_ignore_errors : option bool;
  f_changed_when : yval;
  f_failed_when : yval;
  f_delegate_to : option string;
}.

Definition default_fields : NodeFields :=
  MkFields None "" [] [] [] None WhenNone [] YNull None None [] [] [] None None None YNull YNull None.

(** The fields set when the graph is built. *)
Record NodeMeta := MkMeta {
  m_file_path : string;
  m_line_start : Z;
  m_line_end : Z;
  m_scope : NodeScope;
  m_resolved_module_options : YAMLDict;
  m_role_fqcn : string;
  m_default_variables : YAMLDict;
  m_role_variables : YAMLDict;
  m_role_metadata : YAMLDict;
  m_collection_namespace : string;
  m_collection_name : string;
  m_collection_metadata : YAMLDict;
  m_collection_meta_runtime : YAMLDict;
  m_collection_files : list string;
  m_module_line_count : Z;
  m_functions_without_return_type : list string;
  m_collections_in_play : list string;
}.

Definition default_meta (file : string) (line_start line_end : Z) : NodeMeta :=
  MkMeta file line_start line_end OWNED [] "" [] [] [] "" "" [] [] [] 0 [] [].

Record ContentNode := MkNode {
  nd_identity : NodeIdentity;
  nd_meta : NodeMeta;
  nd_fields : NodeFields;
  nd_yaml : string;
  nd_indent : nat;
  nd_state : option NodeState;
  nd_progression : list NodeState;
  nd_ledger : list (ViolationKey * ViolationRecord);
}.

Definition node_id (n : ContentNode) : string := id_path (nd_identity n).
Definition node_type (n : ContentNode) : NodeType := id_type (nd_identity n).

Definition nd_set_content (f : NodeFields) (yaml : string) (n : ContentNode) : ContentNode :=
  MkNode (nd_identity n) (nd_meta n) f yaml (nd_indent n) (nd_state n) (nd_progression n)
    (nd_ledger n).

Definition nd_set_progression (st : option NodeState) (p : list NodeState) (n : ContentNode)
    : ContentNode :=
  MkNode (nd_identity n) (nd_meta n) (nd_fields n) (nd_yaml n) (nd_indent n) st p (nd_ledger n).

Definition nd_set_ledger (l : list (ViolationKey * ViolationRecord)) (n : ContentNode)
    : ContentNode :=
  MkNode (nd_identity n) (nd_meta n) (nd_fields n) (nd_yaml n) (nd_indent n) (nd_state n)
    (nd_progression n) l.

(** ** Indentation *)

(** Leading white space of a line, [len(line) - len(line.lstrip())]. *)
Definition leading (line : string) : nat :=
  (String.length line - String.length (lstrip line))%nat.

Fixpoint detect_indent_lines (ls : list string) : nat :=
  match ls with
  | [] => 0
  | l :: ls' => match lstrip l with "" => detect_indent_lines ls' | _ => leading l end
  end.

(** [_detect_indent] *)
Definition detect_indent (text : string) : nat := detect_indent_lines (splitlines text).

(** One line of [_reindent], from indentation [current] to [target]. *)
Definition reindent_line (current target : nat) (line : string) : string :=
  match strip line with
  | "" => line
  | _ =>
    if (current <? target)%nat then spaces (target - current) +:+ line
    else sdrop (Nat.min (current - target) (leading line)) line
  end.

(** [_reindent] *)
Definition reindent (text : string) (target : nat) : string :=
  let current := detect_indent text in
  if decide (target = current) then text
  else sconcat (reindent_line current target <$> splitlines_keep text).

(** ** Snapshots *)

Definition content_hash (text : string) : string := sha256_hex text.

Definition MAX_PROGRESSION : nat := 20.

(** [ContentNode.record_state]; [now] is [datetime.now(UTC).isoformat()]. *)
Definition record_state (now : string) (pass : nat) (phase source : string) (n : ContentNode)
    : ContentNode :=
  let seq := length (nd_progression n) in
  let ns := MkState (node_id n +:+ "@" +:+ pretty seq) pass phase (nd_yaml n)
              (content_hash (nd_yaml n)) now false source in
  let prog := if (MAX_PROGRESSION <=? seq)%nat then tail (nd_progression n)
              else nd_progression n in
  nd_set_progression (Some ns) (prog ++ [ns]) n.

(** ** Field extraction *)

(** [_as_str_list]; a missing key is [YNull]. *)
Definition as_str_list (v : yval) : list string :=
  match v with
  | YStr s => [s]
  | YList l => ystr <$> l
  | _ => []
  end.

Definition TASK_META_KEYS : list string :=
  ["name"; "when"; "changed_when"; "failed_when"; "register"; "notify"; "listen"; "become";
   "become_user"; "become_method"; "become_flags"; "delegate_to"; "run_once"; "connection";
   "ignore_errors"; "ignore_unreachable"; "no_log"; "tags"; "environment"; "vars"; "args"; "loop";
   "loop_control"; "with_items"; "with_dict"; "with_fileglob"; "with_subelements"; "with_sequence";
   "with_nested"; "with_first_found"; "block"; "rescue"; "always"; "any_errors_fatal";
   "max_fail_percentage"; "check_mode"; "diff"; "throttle"; "timeout"; "retries"; "delay"; "until";
   "debugger"; "module_defaults"; "collections"; "action"; "local_action"].

(** [parsed.get(k)], a missing key giving Python's [None]. *)
Definition yget (k : string) (d : YAMLDict) : yval := default YNull (dget k d).

Definition as_str (v : yval) : option string := match v with YStr s => Some s | _ => None end.
Definition as_dict (v : yval) : option YAMLDict := match v with YDict d => Some d | _ => None end.
Definition as_bool (v : yval) : option bool := match v with YBool b => Some b | _ => None end.

(** The first key that is not a task keyword. *)
Definition module_key (parsed : YAMLDict) : option string :=
  head (filter (λ k, k ∉ TASK_META_KEYS) parsed.*1).

Definition module_options_of (raw : yval) : YAMLDict :=
  match raw with
  | YDict d => d
  | YNull => []
  | v => [("_raw", v)]
  end.

Definition is_null (v : yval) : bool := match v with YNull => true | _ => false end.

Definition become_of (parsed : YAMLDict) : option YAMLDict :=
  let kvs := filter (λ p, is_null p.2 = false)
    [("become", yget "become" parsed); ("become_user", yget "become_user" parsed);
     ("become_method", yget "become_method" parsed); ("become_flags", yget "become_flags" parsed)] in
  match kvs with [] => None | _ => Some kvs end.

Definition loop_of (parsed : YAMLDict) : yval :=
  if ytruthy (yget "loop" parsed) then yget "loop" parsed
  else match head (filter (λ p, startswith p.1 "with_" = true) parsed) with
       | Some p => p.2
       | None => YNull
       end.

Definition when_of (v : yval) : when_expr :=
  match v with
  | YStr s => WhenStr s
  | YList l => WhenList (ystr <$> l)
  | _ => WhenNone
  end.

Definition SET_FACT_MODULES : list string :=
  ["ansible.builtin.set_fact"; "ansible.legacy.set_fact"; "set_fact"].

(** [_apply_parsed_fields] *)
Definition apply_parsed_fields (f : NodeFields) (parsed : YAMLDict) : NodeFields :=
  let mk := module_key parsed in
  let module := default (f_module f) mk in
  let module_options :=
    match mk with
    | Some k => module_options_of (yget k parsed)
    | None => f_module_options f
    end in
  MkFields
    (as_str (yget "name" parsed))
    module
    module_options
    (filter (λ p, p.1 ≠ "name" ∧ Some p.1 ≠ mk ∧ p.1 ∉ ["block"; "rescue"; "always"]) parsed)
    (default [] (as_dict (yget "vars" parsed)))
    (become_of parsed)
    (when_of (yget "when" parsed))
    (as_str_list (yget "tags" parsed))
    (loop_of parsed)
    (as_dict (yget "loop_control" parsed))
    (as_str (yget "register" parsed))
    (if bool_decide (mk ∈ Some <$> SET_FACT_MODULES)
     then filter (λ p, p.1 ≠ "cacheable") module_options else [])
    (as_str_list (yget "notify" parsed))
    (as_str_list (yget "listen" parsed))
    (as_dict (yget "environment" parsed))
    (as_bool (yget "no_log" parsed))
    (as_bool (yget "ignore_errors" parsed))
    (yget "changed_when" parsed)
    (yget "failed_when" parsed)
    (as_str (yget "delegate_to" parsed)).

Section Update.
Context `{YamlLib}.

(** [_parse_yaml_for_update] *)
Definition parse_yaml_for_update (yaml_text : string) : option YAMLDict :=
  match safe_load yaml_text with
  | Some (YList [YDict d]) => Some d
  | Some (YDict d) => Some d
  | _ => None
  end.

(** [ContentNode.update_from_yaml] *)
Definition update_from_yaml (yaml_text : string) (n : ContentNode) : ContentNode :=
  match parse_yaml_for_update yaml_text with
  | Some parsed => nd_set_content (apply_parsed_fields (nd_fields n) parsed) yaml_text n
  | None => nd_set_content (nd_fields n) yaml_text n
  end.

Lemma update_from_yaml_yaml t n : nd_yaml (update_from_yaml t n) = t.
Proof. unfold update_from_yaml. by case_match. Qed.

Lemma update_from_yaml_frame t n :
  nd_identity (update_from_yaml t n) = nd_identity n ∧
  nd_meta (update_from_yaml t n) = nd_meta n ∧
  nd_indent (update_from_yaml t n) = nd_indent n ∧
  nd_state (update_from_yaml t n) = nd_state n ∧
  nd_progression (update_from_yaml t n) = nd_progression n ∧
  nd_ledger (update_from_yaml t n) = nd_ledger n.
Proof. unfold update_from_yaml. by case_match. Qed.
End Update.

(** ** Lemmas: indentation *)

Lemma lstrip_app_spaces n s : lstrip (spaces n +:+ s) = lstrip s.
Proof. induction n as [|n IH]; simpl; auto. Qed.

Lemma length_lstrip s : (String.length (lstrip s) ≤ String.length s)%nat.
Proof. induction s as [|c s IH]; simpl; [done|]. case_match; simpl; lia. Qed.

Lemma length_spaces n : String.length (spaces n) = n.
Proof. induction n; simpl; congruence. Qed.

Lemma length_sapp a b : String.length (a +:+ b) = (String.length a + String.length b)%nat.
Proof. induction a; simpl; congruence. Qed.

Lemma leading_spaces n s : leading (spaces n +:+ s) = (n + leading s)%nat.
Proof.
  unfold leading. rewrite lstrip_app_spaces, length_sapp, length_spaces.
  pose proof (length_lstrip s). lia.
Qed.

(** Dropping part of the leading white space keeps the rest of the line. *)
Lemma lstrip_sdrop k s : (k ≤ leading s)%nat → lstrip (sdrop k s) = lstrip s.
Proof.
  revert k. induction s as [|c s IH]; intros [|k]; simpl; try done.
  unfold leading in *; simpl. destruct (is_space c) eqn:E.
  - intros Hk. pose proof (length_lstrip s). apply IH. lia.
  - simpl. lia.
Qed.

Lemma leading_sdrop k s : (k ≤ leading s)%nat → leading (sdrop k s) = (leading s - k)%nat.
Proof.
  intros Hk. unfold leading. rewrite lstrip_sdrop by done.
  assert (String.length (sdrop k s) = String.length s - k)%nat as ->; [|lia].
  clear Hk. revert k. induction s as [|c s IH]; intros [|k]; simpl; auto.
Qed.

Lemma rstrip_nil s : rstrip s = "" ↔ lstrip s = "".
Proof.
  induction s as [|c s IH]; simpl; [done|].
  destruct (is_space c) eqn:E; destruct (rstrip s) eqn:Er; naive_solver.
Qed.

Lemma strip_nil s : strip s = "" ↔ lstrip s = "".
Proof.
  unfold strip. split; [|by intros ->]. intros Hr%rstrip_nil.
  induction s as [|c s IH]; simpl in *; [done|].
  destruct (is_space c) eqn:E; [auto|]. simpl in Hr. by rewrite E in Hr.
Qed.

(** A line boundary is white space. *)
Lemma break_space c : is_break c = true → is_space c = true.
Proof.
  intros H. revert H. apply Bool.implb_true_iff.
  apply (ascii_all (λ c, implb (is_break c) (is_space c))). vm_compute. reflexivity.
Qed.

Lemma lstrip_app_nonblank a b : lstrip a ≠ "" → lstrip (a +:+ b) = lstrip a +:+ b.
Proof.
  induction a as [|c a IH]; simpl; [done|]. destruct (is_space c); auto.
Qed.

Lemma lstrip_app_blank a b : lstrip a = "" → lstrip (a +:+ b) = lstrip b.
Proof.
  induction a as [|c a IH]; simpl; [done|]. by destruct (is_space c).
Qed.

Lemma terminator_blank t : terminator t → lstrip t = "".
Proof.
  destruct 1 as [|c Hc|]; simpl; [done| |done]. by rewrite break_space.
Qed.

(** A line and the line without its terminator have the same content. *)
Lemma chomp_blank l : terminator (eol l) → lstrip (chomp l) = "" ↔ lstrip l = "".
Proof.
  intros Ht. pose proof (chomp_eol l) as Hl. split; intros Hb.
  - rewrite <- Hl, lstrip_app_blank by done. by apply terminator_blank.
  - destruct (decide (lstrip (chomp l) = "")) as [|Hn]; [done|].
    rewrite <- Hl, lstrip_app_nonblank in Hb by done. by destruct (lstrip (chomp l)).
Qed.

Lemma chomp_leading l : terminator (eol l) → lstrip l ≠ "" → leading (chomp l) = leading l.
Proof.
  intros Ht Hn. rewrite <- (chomp_blank l Ht) in Hn. unfold leading.
  rewrite <- (chomp_eol l) at 3 4. rewrite lstrip_app_nonblank by done.
  rewrite !length_sapp. lia.
Qed.

Lemma sdrop_line k l :
  terminator (eol l) → lstrip l ≠ "" → (k ≤ leading l)%nat →
  chomp (sdrop k l) = sdrop k (chomp l) ∧ eol (sdrop k l) = eol l ∧ sdrop k l ≠ "".
Proof.
  revert k. induction l as [|c l IH]; intros k Ht Hn Hk; [done|].
  destruct k as [|k]; [done|].
  destruct (is_break c) eqn:Eb.
  - exfalso. apply Hn. apply terminator_blank. simpl in Ht. by rewrite Eb in Ht.
  - simpl in Ht |- *. rewrite Eb in Ht |- *. unfold leading in Hk. simpl in Hk.
    simpl in Hn. destruct (is_space c) eqn:Es; simpl in Hk; [|lia].
    apply IH; [done|done|]. unfold leading. pose proof (length_lstrip l). lia.
Qed.

Lemma no_break_spaces n : no_break (spaces n).
Proof. unfold no_break. induction n as [|n IH]; simpl; [done|]. exact IH. Qed.

Lemma reindent_line_blank c t l : lstrip l = "" → reindent_line c t l = l.
Proof. intros Hb%strip_nil. unfold reindent_line. by rewrite Hb. Qed.

Lemma reindent_line_nonblank c t l : lstrip l ≠ "" →
  reindent_line c t l =
    if (c <? t)%nat then spaces (t - c) +:+ l else sdrop (Nat.min (c - t) (leading l)) l.
Proof.
  rewrite <- strip_nil. unfold reindent_line. by destruct (strip l).
Qed.

(** Re-indenting a line works on its content and leaves the terminator alone. *)
Lemma reindent_line_ok c t l : is_line l →
  reindent_line c t l ≠ "" ∧ eol (reindent_line c t l) = eol l ∧
  chomp (reindent_line c t l) = reindent_line c t (chomp l) ∧
  (starts LF (reindent_line c t l) → starts LF l).
Proof.
  intros [Hne Ht]. destruct (decide (lstrip l = "")) as [Hb|Hb].
  - rewrite !reindent_line_blank by (rewrite ?chomp_blank; done). done.
  - rewrite !reindent_line_nonblank by (rewrite ?chomp_blank; done).
    rewrite chomp_leading by done. destruct (c <? t)%nat eqn:E.
    + rewrite eol_app_no_break, chomp_app_no_break by apply no_break_spaces.
      split_and!; try done.
      * by destruct (spaces (t - c)), l.
      * apply Nat.ltb_lt in E. destruct (t - c)%nat eqn:E'; [lia|]. done.
    + destruct (sdrop_line (Nat.min (c - t) (leading l)) l Ht Hb ltac:(lia)) as (H1 & H2 & H3).
      split_and!; try done. intros Hst. exfalso.
      assert (Hlf : lstrip (sdrop (Nat.min (c - t) (leading l)) l) = "").
      { destruct (sdrop _ l) as [|x s] eqn:Es; [done|]. simpl in Hst. subst x.
        apply terminator_blank. simpl in H2. rewrite H2. done. }
      rewrite lstrip_sdrop in Hlf by lia. done.
Qed.

(** The lines of the re-indented text are the re-indented lines. *)
Lemma splitlines_reindent c t text :
  splitlines (sconcat (reindent_line c t <$> splitlines_keep text))
  = reindent_line c t <$> splitlines text.
Proof.
  pose proof (splitlines_keep_ok text) as Hok.
  assert (Hl : ∀ l, l ∈ splitlines_keep text → is_line l).
  { clear -Hok. induction Hok as [|l Hl|l l' ls Hl _ _ _ IH]; intros x Hx; set_solver. }
  unfold splitlines. rewrite splitlines_sconcat.
  - rewrite <- !list_fmap_compose. apply list_fmap_ext. intros _ l Hin%list_elem_of_lookup_2.
    apply reindent_line_ok. auto.
  - apply lines_ok_map; [|done]. intros l Hin.
    destruct (reindent_line_ok c t l (Hl l Hin)) as (? & ? & _ & ?). done.
Qed.

Lemma detect_reindent_lines c t ls :
  detect_indent_lines ls = c → Exists (λ l, lstrip l ≠ "") ls →
  detect_indent_lines (reindent_line c t <$> ls) = t.
Proof.
  intros Hc He. induction ls as [|l ls IH]; [by inversion He|]. csimpl.
  simpl in Hc. destruct (decide (lstrip l = "")) as [Hb|Hb].
  - rewrite reindent_line_blank, Hb by done. rewrite Hb in Hc. apply IH; [done|].
    by inversion He.
  - assert (leading l = c) as Hl by (by destruct (lstrip l)).
    rewrite reindent_line_nonblank by done. rewrite Hl.
    destruct (c <? t)%nat eqn:E.
    + apply Nat.ltb_lt in E. rewrite lstrip_app_spaces, leading_spaces, Hl.
      destruct (lstrip l); [done|lia].
    + apply Nat.ltb_ge in E. rewrite lstrip_sdrop, leading_sdrop, Hl by lia.
      destruct (lstrip l); [done|lia].
Qed.

Lemma lstrip_reindent_line c t l : lstrip (reindent_line c t l) = lstrip l.
Proof.
  destruct (decide (lstrip l = "")) as [Hb|Hb]; [by rewrite reindent_line_blank|].
  rewrite reindent_line_nonblank by done. case_match; [apply lstrip_app_spaces|].
  apply lstrip_sdrop. lia.
Qed.

(** The text has a line with content. *)
Definition has_content (text : string) : Prop := Exists (λ l, lstrip l ≠ "") (splitlines text).

#[export] Instance has_content_dec text : Decision (has_content text).
Proof. unfold has_content. apply _. Defined.

Lemma detect_reindent text t : has_content text → detect_indent (reindent text t) = t.
Proof.
  intros He. unfold reindent. case_decide as Hd; [done|]. unfold detect_indent at 1.
  rewrite splitlines_reindent. by apply detect_reindent_lines.
Qed.

Lemma reindent_blank text t : ¬ has_content text → reindent text t = text.
Proof.
  intros Hn. unfold reindent. case_decide; [done|].
  rewrite <- (sconcat_splitlines_keep text) at 3. f_equal.
  rewrite <- (list_fmap_id (splitlines_keep text)) at 2.
  apply list_fmap_ext. intros i l Hl. apply reindent_line_blank.
  destruct (decide (lstrip l = "")) as [|Hb]; [done|]. exfalso. apply Hn.
  unfold has_content, splitlines. apply Exists_exists. exists (chomp l).
  apply list_elem_of_lookup_2 in Hl. split; [by apply list_elem_of_fmap_2|].
  rewrite chomp_blank; [done|].
  clear -Hl. pose proof (splitlines_keep_ok text) as Hok.
  induction Hok as [|l0 [? ?]|l0 l' ls [? ?] _ _ _ IH]; set_solver.
Qed.

Lemma reindent_idemp text t : reindent (reindent text t) t = reindent text t.
Proof.
  destruct (decide (has_content text)) as [Hc|Hc].
  - unfold reindent at 1. rewrite detect_reindent by done. by rewrite decide_True.
  - by rewrite (reindent_blank text t Hc), reindent_blank.
Qed.

(** ** Properties *)

(** Re-indenting a fragment to a target column puts its first content line exactly
    at that column, changes nothing but leading white space (line count, line contents
    after stripping), and doing it again changes nothing. *)
Theorem reindent_correct text target :
  has_content text →
  detect_indent (reindent text target) = target ∧
  lstrip <$> splitlines (reindent text target) = lstrip <$> splitlines text ∧
  reindent (reindent text target) target = reindent text target.
Proof.
  intros Hc. split_and!; [by apply detect_reindent| |apply reindent_idemp].
  unfold reindent. case_decide; [done|]. rewrite splitlines_reindent.
  rewrite <- list_fmap_compose. apply list_fmap_ext. intros _ l _. apply lstrip_reindent_line.
Qed.

Definition sample_task : string :=
  "- name: x" +:+ String LF ("  apt:" +:+ String CR (String LF (String LF "    name: y"))).

Lemma reindent_correct_witness : detect_indent (reindent sample_task 4) = 4.
Proof.
  apply (reindent_correct sample_task 4). apply (bool_decide_unpack _). vm_compute. exact I.
Defined.
