(* ===== verification/ContentGraph.v ===== *)
(** * The content graph

    Models [ContentGraph] of [src/apme_engine/graph/content_graph.py]: node access and
    dirty tracking, the violation ledger, approval and rejection of progression
    entries, application of YAML and of transforms, and the edge operations.  The
    graph object is explicit state: an operation takes the graph and returns the
    updated one, with its result when it has one.  The vertices and edges live in a
    [MultiDiGraph], the YAML libraries are a [YamlLib]; both are parameters.

    The laws of these operations are in [GraphLaws]. *)

From stdpp Require Import base list gmap strings pretty relations.
From Stdlib Require Import Ascii String.
From S2P Require Import Prelude PyStr Sha256 Yaml Violation NxGraph ContentNode.

#[local] Open Scope string_scope.
#[local] Notation length := List.length.

Record EdgeAttrs := MkEdge {
  ea_type : EdgeType;
  ea_conditional : bool;
  ea_dynamic : bool;
  ea_position : Z;
  ea_when : string;
  ea_tags : list string;
}.

(** ** The ledger of one node *)

Definition ledger : Type := list (ViolationKey * ViolationRecord).

(** In-place update of every record, [for record in ledger.values()]. *)
Definition ledger_map (f : ViolationRecord → ViolationRecord) (l : ledger) : ledger :=
  prod_map id f <$> l.

(** The record kept for a violation that is already in the ledger. *)
Definition register_existing (v : ViolationDict) (r : ViolationRecord) : ViolationRecord :=
  match vr_status r with
  | AiAbstained => vr_set_violation v r
  | Declined => vr_set_violation v r
  | Fixed | PendingReview | Proposed => vr_set_violation v (vr_set_status Open None None r)
  | Open => vr_set_violation v r
  end.

Definition register_ledger (pass : nat) (v : ViolationDict) (l : ledger) : ledger :=
  let key := violation_key v in
  match dget key l with
  | None => dset key (MkRecord key v Open None None pass None None) l
  | Some r => dset key (register_existing v r) l
  end.

(** Which records [resolve_violations] moves, and how. *)
Definition resolvable (remaining : gset string) (r : ViolationRecord) : bool :=
  bool_decide (vr_status r = Open) && bool_decide ((vr_key r).2 ∉ remaining).

Definition resolve_record (remaining : gset string) (by_ : string) (pass : nat) (st : status)
    (r : ViolationRecord) : ViolationRecord :=
  if resolvable remaining r then vr_set_status st (Some by_) (Some pass) r else r.

Definition abstainable (rule_ids : gset string) (r : ViolationRecord) : bool :=
  bool_decide (vr_status r = Open) && bool_decide ((vr_key r).2 ∈ rule_ids).

Definition abstain_record (rule_ids : gset string) (reasons : list (string * (string * string)))
    (r : ViolationRecord) : ViolationRecord :=
  if abstainable rule_ids r then
    match dget (vr_key r).2 reasons with
    | Some (reason, suggestion) =>
      MkRecord (vr_key r) (vr_violation r) AiAbstained (vr_fixed_by r) (vr_fixed_in_pass r)
        (vr_discovered r) (Some reason) (Some suggestion)
    | None => vr_set_status AiAbstained (vr_fixed_by r) (vr_fixed_in_pass r) r
    end
  else r.

Definition transition_record (from to : status) (clear : bool) (r : ViolationRecord)
    : ViolationRecord :=
  if decide (vr_status r = from) then
    if clear then vr_set_status to None None r
    else vr_set_status to (vr_fixed_by r) (vr_fixed_in_pass r) r
  else r.

(** ** The progression of one node *)

(** [next((s for s in reversed(p) if s.approved), default)] *)
Definition last_approved (p : list NodeState) : option NodeState :=
  last (filter (λ s, ns_approved s = true) p).

Definition set_approved (s : NodeState) : NodeState :=
  MkState (ns_id s) (ns_pass s) (ns_phase s) (ns_yaml s) (ns_hash s) (ns_time s) true (ns_source s).

(** [approve_pending] skips approved entries and, with a filter, entries of another
    non-empty source. *)
Definition approvable (source_filter : option string) (s : NodeState) : bool :=
  negb (ns_approved s) &&
  match source_filter with
  | None => true
  | Some f => bool_decide (ns_source s = "") || bool_decide (ns_source s = f)
  end.

Definition approve_entry (source_filter : option string) (s : NodeState) : NodeState :=
  if approvable source_filter s then set_approved s else s.

Definition approve_node_entries (source_filter : option string) (n : ContentNode) : ContentNode :=
  let p := approve_entry source_filter <$> nd_progression n in
  match p with
  | [] => n
  | _ =>
    nd_set_progression
      (match last_approved p with Some s => Some s | None => last p end) p n
  end.

(** Index of the first unapproved entry. *)
Definition first_unapproved (p : list NodeState) : option nat :=
  fst <$> list_find (λ s, ns_approved s = false) p.

Section Graph.
Context `{YamlLib} {G : Type} `{NxLaws ContentNode EdgeAttrs G}.

Record ContentGraph := MkCG {
  cg_g : G;
  cg_dirty : gset string;
  cg_cache : option (gmap string (gset string));
}.
Implicit Types (g : ContentGraph) (n : ContentNode).

Definition empty_graph : ContentGraph := MkCG nx_empty ∅ None.

(** Mutation of the node object stored under [k]. *)
Definition upd (k : string) (f : ContentNode → ContentNode) g : ContentGraph :=
  MkCG (nx_alter f k (cg_g g)) (cg_dirty g) (cg_cache g).

(** ** Nodes *)

Definition add_node n g : ContentGraph :=
  MkCG (nx_add_node (node_id n) n (cg_g g)) (cg_dirty g) None.

Definition get_node g (k : string) : option ContentNode := nx_payload (cg_g g) k.

Definition nodes g : list ContentNode := omap snd (nx_nodes (cg_g g)).

Definition nodes_of_type (t : NodeType) g : list ContentNode :=
  filter (λ n, node_type n = t) (nodes g).

Definition node_count g : nat := length (nx_nodes (cg_g g)).

(** ** Dirty tracking *)

Definition dirty_nodes g : gset string := cg_dirty g.

Definition clear_dirty g : ContentGraph := MkCG (cg_g g) ∅ (cg_cache g).

Definition mark_dirty (k : string) g : ContentGraph :=
  MkCG (cg_g g) ({[k]} ∪ cg_dirty g) (cg_cache g).

Definition apply_yaml (k yaml_content : string) g : ContentGraph * bool :=
  match get_node g k with
  | None => (g, false)
  | Some n =>
    let text := if decide (detect_indent yaml_content = nd_indent n) then yaml_content
                else reindent yaml_content (nd_indent n) in
    if decide (text = nd_yaml n) then (g, false)
    else (mark_dirty k (upd k (update_from_yaml text) g), true)
  end.

(** ** Violation ledger *)

Definition register_one (pass : nat) g (v : ViolationDict) : ContentGraph :=
  match get_node g (v_path v) with
  | None => g
  | Some _ => upd (v_path v) (λ n, nd_set_ledger (register_ledger pass v (nd_ledger n)) n) g
  end.

Definition register_violations (vs : list ViolationDict) (pass : nat) g : ContentGraph :=
  foldl (register_one pass) g vs.

(** A loop over the records of one node that counts the ones it moves. *)
Definition map_records (p : ViolationRecord → bool) (f : ViolationRecord → ViolationRecord)
    (k : string) g : ContentGraph * nat :=
  match get_node g k with
  | None => (g, 0)
  | Some n =>
    (upd k (λ n, nd_set_ledger (ledger_map f (nd_ledger n)) n) g,
     length (filter (λ kr, p kr.2 = true) (nd_ledger n)))
  end.

Definition resolve_violations (k : string) (remaining : gset string) (by_ : string) (pass : nat)
    (st : status) g : ContentGraph * nat :=
  map_records (resolvable remaining) (resolve_record remaining by_ pass st) k g.

Definition abstain_violations (k : string) (rule_ids : gset string)
    (reasons : list (string * (string * string))) g : ContentGraph * nat :=
  map_records (abstainable rule_ids) (abstain_record rule_ids reasons) k g.

Definition transition_violations (k : string) (from to : status) (clear : bool) g
    : ContentGraph * nat :=
  map_records (λ r, bool_decide (vr_status r = from)) (transition_record from to clear) k g.

Definition approve_pending_review (k : string) g : ContentGraph * nat :=
  transition_violations k PendingReview Fixed false g.

Definition decline_pending_review (k : string) g : ContentGraph * nat :=
  transition_violations k PendingReview Declined true g.

Definition approve_proposed (k : string) g : ContentGraph * nat :=
  transition_violations k Proposed Fixed false g.

Definition decline_proposed (k : string) g : ContentGraph * nat :=
  transition_violations k Proposed Declined true g.

Definition decline_open_one (gc : ContentGraph * nat) (v : ViolationDict) : ContentGraph * nat :=
  let '(g, count) := gc in
  match get_node g (v_path v) with
  | None => (g, count)
  | Some n =>
    match dget (violation_key v) (nd_ledger n) with
    | Some r =>
      if decide (vr_status r = Open) then
        (upd (v_path v) (λ n, nd_set_ledger
            (dset (violation_key v) (vr_set_status Declined None None r) (nd_ledger n)) n) g,
         S count)
      else (g, count)
    | None => (g, count)
    end
  end.

Definition decline_open_violations (vs : list ViolationDict) g : ContentGraph * nat :=
  foldl decline_open_one (g, 0) vs.

(** The resolution stamped on a violation when it is queried. *)
Definition status_resolution (s : status) : option string :=
  match s with
  | AiAbstained => Some Resolution.AI_ABSTAINED
  | Proposed => Some Resolution.AI_PROPOSED
  | Declined => Some Resolution.USER_REJECTED
  | _ => None
  end.

Definition set_if_text (k : string) (o : option string) (v : ViolationDict) : ViolationDict :=
  match o with
  | Some "" | None => v
  | Some s => dset k (VStr s) v
  end.

Definition query_record (r : ViolationRecord) : ViolationDict :=
  let v :=
    match status_resolution (vr_status r) with
    | Some res =>
      if decide (vr_status r = Proposed ∧ vr_fixed_by r = Some "deterministic")
      then vr_violation r else dset "remediation_resolution" (VStr res) (vr_violation r)
    | None => vr_violation r
    end in
  set_if_text "ai_suggestion" (vr_ai_suggestion r) (set_if_text "ai_reason" (vr_ai_reason r) v).

(** The records a query selects, in report order. *)
Definition query_match (st : option status) (by_ : option string) (r : ViolationRecord) : bool :=
  match st with Some s => bool_decide (vr_status r = s) | None => true end &&
  match by_ with Some b => bool_decide (vr_fixed_by r = Some b) | None => true end.

Definition all_records g : list ViolationRecord := nodes g ≫= λ n, (nd_ledger n).*2.

Definition query_violations (st : option status) (by_ : option string) g : list ViolationDict :=
  query_record <$> filter (λ r, query_match st by_ r = true) (all_records g).

Definition collect_violations g : list ViolationDict := query_violations (Some Open) None g.

(** ** Approval *)

Definition approvals (source_filter : option string) (n : ContentNode) : nat :=
  length (filter (λ s, approvable source_filter s = true) (nd_progression n)).

(** [approve_pending()] over the whole graph. *)
Definition approve_pending_all (source_filter : option string) g : ContentGraph * nat :=
  (foldl (λ g k, upd k (approve_node_entries source_filter) g) g (nx_nodes (cg_g g)).*1,
   sum_list (approvals source_filter <$> nodes g)).

(** [approve_pending(node_id)]; an empty id stands for no id, as [None] does. *)
Definition approve_pending (k : option string) (source_filter : option string) g
    : ContentGraph * nat :=
  match k with
  | None | Some "" => approve_pending_all source_filter g
  | Some k =>
    match get_node g k with
    | None => (g, 0)
    | Some n => (upd k (approve_node_entries source_filter) g, approvals source_filter n)
    end
  end.

Definition approve_node (k : string) g : ContentGraph * bool :=
  let '(g1, approved) := approve_pending (Some k) None g in
  let '(g2, promoted) := approve_pending_review k g1 in
  (g2, (0 <? approved)%nat || (0 <? promoted)%nat).

(** Truncate the progression before its first unapproved entry, keeping the baseline. *)
Definition rollback (i : nat) n : ContentNode :=
  let p := match i with 0 => take 1 (nd_progression n) | _ => take i (nd_progression n) end in
  match last p with
  | Some s => update_from_yaml (ns_yaml s) (nd_set_progression (Some s) p n)
  | None => n
  end.

Definition reject_node (k : string) g : ContentGraph * bool :=
  match get_node g k with
  | None => (g, false)
  | Some n =>
    let '(g1, declined) := decline_pending_review k g in
    match first_unapproved (nd_progression n) with
    | None => (g1, (0 <? declined)%nat)
    | Some i => (upd k (rollback i) g1, true)
    end
  end.

(** ** Transforms *)

(** A node transform: the mutated mapping and whether it reports a change. *)
Definition transform : Type := CommentedMap → ViolationDict → CommentedMap * bool.

(** The task mapping of a document, with how it was wrapped. *)
Definition task_of (d : rt_doc CommentedMap)
    : option (CommentedMap * (CommentedMap → rt_doc CommentedMap)) :=
  match d with
  | RTSeq [RTMap m] => Some (m, λ m', RTSeq [RTMap m'])
  | RTMap m => Some (m, RTMap)
  | _ => None
  end.

Definition apply_transform (k : string) (fn : transform) (v : ViolationDict) g
    : ContentGraph * bool :=
  match get_node g k with
  | None => (g, false)
  | Some n =>
    if decide (nd_yaml n = "") then (g, false)
    else
      match rt_load (nd_yaml n) ≫= task_of with
      | None => (g, false)
      | Some (task, wrap) =>
        let '(task', applied) := fn task v in
        if applied : bool then
          let new_text := rt_dumps (wrap task') in
          let new_text :=
            if decide (nd_indent n ≠ 0 ∧ detect_indent new_text ≠ nd_indent n)
            then reindent new_text (nd_indent n) else new_text in
          (mark_dirty k (upd k (update_from_yaml new_text) g), true)
        else (g, false)
      end
  end.

(** ** Edges *)

Definition add_edge (src tgt : string) (e : EdgeAttrs) g : ContentGraph :=
  MkCG (nx_add_edge src tgt e (cg_g g)) (cg_dirty g) None.

Definition edge_matches (t : option EdgeType) (e : EdgeAttrs) : bool :=
  match t with None => true | Some t => bool_decide (ea_type e = t) end.

Definition edges_from g (k : string) (t : option EdgeType) : list (string * EdgeAttrs) :=
  if decide (nx_mem k (cg_g g)) then
    (λ x, (x.1.2, x.2)) <$> filter (λ x, edge_matches t x.2 = true) (nx_out_edges (cg_g g) k)
  else [].

Definition has_edge_from g (k : string) (t : EdgeType) : bool :=
  if decide (nx_mem k (cg_g g)) then
    existsb (λ x, bool_decide (ea_type x.2 = t)) (nx_out_edges (cg_g g) k)
  else false.

Definition edges_to g (k : string) (t : option EdgeType) : list (string * EdgeAttrs) :=
  if decide (nx_mem k (cg_g g)) then
    (λ x, (x.1.1, x.2)) <$> filter (λ x, edge_matches t x.2 = true) (nx_in_edges (cg_g g) k)
  else [].

Definition is_positional_edge g (src tgt : string) (t : EdgeType) : bool :=
  match t with
  | CONTAINS | INCLUDE | IMPORT => true
  | DEPENDENCY =>
    match get_node g src, get_node g tgt with
    | Some s, Some d =>
      bool_decide (node_type s ∈ [PLAY; ROLE]) && bool_decide (node_type d = ROLE)
    | _, _ => false
    end
  | _ => false
  end.

Definition edge_count g : nat := length (nx_edges (cg_g g)).
End Graph.

Arguments ContentGraph : clear implicits.
