(* ===== verification/GraphLaws.v ===== *)
(** * Laws of the ledger and of the progression

    What the operations of [ContentGraph] do to one node is a relation, [node_step],
    with one constructor per operation.  Properties are proved by cases on it and
    carried to whole runs: every operation of the graph relates the old and the new
    payload of each vertex by [rtc node_step] and leaves the topology alone
    ([graph_steps]).  The status values follow [status_step], the transition diagram
    of [ViolationRecord] together with the reopening of a regression and the decline
    of an open finding at AI triage. *)

From stdpp Require Import base list gmap strings pretty relations.
From S2P Require Import Prelude PyStr Yaml Violation NxGraph ContentNode ContentGraph.

#[local] Notation length := List.length.

(** ** Statuses *)

Inductive status_step : status → status → Prop :=
| open_fixed : status_step Open Fixed
| open_pending : status_step Open PendingReview
| open_proposed : status_step Open Proposed
| open_abstained : status_step Open AiAbstained
| open_declined : status_step Open Declined
| pending_fixed : status_step PendingReview Fixed
| pending_declined : status_step PendingReview Declined
| proposed_fixed : status_step Proposed Fixed
| proposed_declined : status_step Proposed Declined
| fixed_reopened : status_step Fixed Open
| pending_reopened : status_step PendingReview Open
| proposed_reopened : status_step Proposed Open.

#[export] Hint Constructors status_step : pydb.

(** The statuses a rescan never leaves. *)
Definition sticky (s : status) : Prop := s = Declined ∨ s = AiAbstained.

Lemma sticky_stuck s s' : sticky s → rtc status_step s s' → s' = s.
Proof.
  intros Hs Hr. induction Hr as [|a b c Hab _ IH]; [done|].
  destruct Hs as [->| ->]; inversion Hab.
Qed.

(** The statuses with an attribution. *)
Definition resolved_status (s : status) : Prop := s ∈ [Fixed; PendingReview; Proposed].

#[export] Instance resolved_status_dec s : Decision (resolved_status s).
Proof. unfold resolved_status. apply _. Defined.

(** ** Records *)

(** The key is immutable; exactly the resolved statuses carry who fixed the violation
    and in which pass. *)
Definition record_wf (k : ViolationKey) (r : ViolationRecord) : Prop :=
  vr_key r = k ∧
  (is_Some (vr_fixed_by r) ↔ resolved_status (vr_status r)) ∧
  (is_Some (vr_fixed_in_pass r) ↔ resolved_status (vr_status r)).

Definition ledger_wf (l : ledger) : Prop :=
  NoDup l.*1 ∧ ∀ k r, (k, r) ∈ l → record_wf k r.

(** A record update that keeps the key and moves the status along the diagram. *)
Definition record_ok (f : ViolationRecord → ViolationRecord) : Prop :=
  ∀ k r, record_wf k r → record_wf k (f r) ∧ rtc status_step (vr_status r) (vr_status (f r)).

Ltac record_tac :=
  intros k r (Hk & Hb & Hp); unfold record_wf, resolved_status in *; simpl in *;
  repeat (case_match || case_decide || case_bool_decide); simplify_eq/=;
  repeat match goal with
  | H : vr_status _ = _ |- _ => rewrite H in *
  end;
  split_and?; try done; eauto using rtc_once, rtc_refl with pydb;
  try (split; intros; destruct_or?; try done; set_solver).

Lemma register_existing_ok v : record_ok (register_existing v).
Proof. unfold register_existing. record_tac. Qed.

Lemma resolve_record_ok remaining by_ pass st :
  resolved_status st → record_ok (resolve_record remaining by_ pass st).
Proof.
  intros Hst k r (Hk & Hb & Hp). unfold resolve_record, resolvable.
  case_bool_decide as Ho; simpl; [|done]. case_bool_decide; simpl; [|done].
  unfold record_wf; simpl. split_and!; try done; try (split; [done|by eexists]).
  rewrite Ho. apply rtc_once. unfold resolved_status in Hst.
  repeat (apply elem_of_cons in Hst as [->|Hst]; [auto with pydb|]). set_solver.
Qed.

Lemma abstain_record_ok rule_ids reasons : record_ok (abstain_record rule_ids reasons).
Proof.
  intros k r (Hk & Hb & Hp). unfold abstain_record, abstainable.
  case_bool_decide as Ho; simpl; [|done]. case_bool_decide; simpl; [|done].
  rewrite Ho in *.
  assert (¬ is_Some (vr_fixed_by r)) by (rewrite Hb; vm_compute; set_solver).
  assert (¬ is_Some (vr_fixed_in_pass r)) by (rewrite Hp; vm_compute; set_solver).
  assert (¬ resolved_status AiAbstained) by (unfold resolved_status; set_solver).
  repeat case_match; unfold record_wf; simpl; split_and!; try done;
    eauto using rtc_once with pydb.
Qed.

(** The transitions the approval methods request: source, target, clear attribution. *)
Definition gate_transitions : list (status * status * bool) :=
  [(PendingReview, Fixed, false); (PendingReview, Declined, true);
   (Proposed, Fixed, false); (Proposed, Declined, true)].

Lemma transition_record_ok from to clear :
  (from, to, clear) ∈ gate_transitions → record_ok (transition_record from to clear).
Proof.
  intros Hin. unfold gate_transitions in Hin. unfold transition_record.
  repeat (apply elem_of_cons in Hin as [Hin|Hin]; [simplify_eq; record_tac|]).
  by apply elem_of_nil in Hin.
Qed.

Lemma decline_record_ok k r :
  record_wf k r → vr_status r = Open →
  record_wf k (vr_set_status Declined None None r) ∧
  rtc status_step (vr_status r) (vr_status (vr_set_status Declined None None r)).
Proof.
  intros (Hk & Hb & Hp) Ho. unfold record_wf, resolved_status. simpl. rewrite Ho.
  split_and!; eauto using rtc_once with pydb; split; intros; by try set_solver.
Qed.

Lemma set_violation_ok v : record_ok (vr_set_violation v).
Proof. record_tac. Qed.

#[export] Hint Resolve register_existing_ok resolve_record_ok abstain_record_ok
  transition_record_ok set_violation_ok : pydb.

(** ** Ledgers *)

(** Every entry of the old ledger is in the new one, its status moved along the
    diagram. *)
Definition ledger_le (l l' : ledger) : Prop :=
  ∀ k r, dget k l = Some r →
    ∃ r', dget k l' = Some r' ∧ rtc status_step (vr_status r) (vr_status r').

#[export] Instance ledger_le_preorder : PreOrder ledger_le.
Proof.
  split.
  - intros l k r Hr. exists r. auto using rtc_refl.
  - intros l1 l2 l3 H12 H23 k r Hr. destruct (H12 _ _ Hr) as (r2 & Hr2 & S12).
    destruct (H23 _ _ Hr2) as (r3 & Hr3 & S23). exists r3. split; [done|by etrans].
Qed.

Lemma ledger_map_keys f (l : ledger) : (ledger_map f l).*1 = l.*1.
Proof. unfold ledger_map. rewrite <- list_fmap_compose. by apply list_fmap_ext. Qed.

Lemma dget_ledger_map f (l : ledger) k : dget k (ledger_map f l) = f <$> dget k l.
Proof.
  induction l as [|[k0 r0] l IH]; simpl; [done|]. case_decide; [done|apply IH].
Qed.

Lemma ledger_wf_dget l k r : ledger_wf l → dget k l = Some r → record_wf k r.
Proof. intros [_ Hw] Hr%dget_Some_elem. auto. Qed.

Lemma ledger_map_ok f l :
  record_ok f → ledger_wf l → ledger_wf (ledger_map f l) ∧ ledger_le l (ledger_map f l).
Proof.
  intros Hf [Hnd Hw]. split; [split|].
  - by rewrite ledger_map_keys.
  - intros k r Hin. apply list_elem_of_fmap in Hin as ([k0 r0] & Heq & Hin).
    simpl in Heq. simplify_eq. by apply Hf, Hw.
  - intros k r Hr. rewrite dget_ledger_map, Hr. simpl. eexists. split; [done|].
    by apply (Hf k), (ledger_wf_dget l).
Qed.

Lemma dset_ledger_ok k r r' l :
  ledger_wf l → dget k l = Some r → record_wf k r' →
  rtc status_step (vr_status r) (vr_status r') →
  ledger_wf (dset k r' l) ∧ ledger_le l (dset k r' l).
Proof.
  intros [Hnd Hw] Hk Hw' Hst. split; [split; [by apply dset_NoDup|]|].
  - intros k0 r0 [[-> ->]|Hin]%elem_of_dset; auto.
  - intros k0 r0 Hr0. rewrite dget_dset. case_decide; simplify_eq; [eauto|].
    exists r0. auto using rtc_refl.
Qed.

Lemma register_ledger_ok pass v l :
  ledger_wf l → ledger_wf (register_ledger pass v l) ∧ ledger_le l (register_ledger pass v l).
Proof.
  intros Hl. unfold register_ledger. destruct (dget (violation_key v) l) as [r|] eqn:E.
  - pose proof (ledger_wf_dget _ _ _ Hl E) as Hr.
    destruct (register_existing_ok v _ _ Hr). eapply dset_ledger_ok; eauto.
  - destruct Hl as [Hnd Hw]. split; [split; [by apply dset_NoDup|]|].
    + intros k0 r0 [[-> ->]|Hin]%elem_of_dset; auto.
      unfold record_wf, resolved_status; simpl.
      split_and!; [done|split; intros; by try set_solver..].
    + intros k0 r0 Hr0. rewrite dget_dset_ne by congruence. exists r0. auto using rtc_refl.
Qed.

Lemma register_ledger_present pass v l :
  ∃ r, dget (violation_key v) (register_ledger pass v l) = Some r.
Proof. unfold register_ledger. case_match; rewrite dget_dset_eq; eauto. Qed.

(** ** Nodes *)

(** What an operation does to a node, by kind. *)
Inductive act :=
| ActRecord | ActContent | ActRegister | ActResolve (st : status) | ActAbstain | ActGate
| ActDeclineOpen | ActPayload | ActApprove (source_filter : option string) | ActReject.

Section NodeLaws.
Context `{YamlLib}.
Implicit Types (n : ContentNode).

Inductive node_step : act → ContentNode → ContentNode → Prop :=
| step_record now pass phase source n :
    node_step ActRecord n (record_state now pass phase source n)
| step_content t n : node_step ActContent n (update_from_yaml t n)
| step_register pass v n :
    node_step ActRegister n (nd_set_ledger (register_ledger pass v (nd_ledger n)) n)
| step_resolve remaining by_ pass st n :
    resolved_status st →
    node_step (ActResolve st) n
      (nd_set_ledger (ledger_map (resolve_record remaining by_ pass st) (nd_ledger n)) n)
| step_abstain rule_ids reasons n :
    node_step ActAbstain n
      (nd_set_ledger (ledger_map (abstain_record rule_ids reasons) (nd_ledger n)) n)
| step_gate from to clear n :
    (from, to, clear) ∈ gate_transitions →
    node_step ActGate n
      (nd_set_ledger (ledger_map (transition_record from to clear) (nd_ledger n)) n)
| step_decline_open k r n :
    dget k (nd_ledger n) = Some r → vr_status r = Open →
    node_step ActDeclineOpen n
      (nd_set_ledger (dset k (vr_set_status Declined None None r) (nd_ledger n)) n)
| step_payload k v r n :
    dget k (nd_ledger n) = Some r →
    node_step ActPayload n (nd_set_ledger (dset k (vr_set_violation v r) (nd_ledger n)) n)
| step_approve f n : node_step (ActApprove f) n (approve_node_entries f n)
| step_reject i n :
    first_unapproved (nd_progression n) = Some i → node_step ActReject n (rollback i n).

Definition node_steps (A : act → Prop) : relation ContentNode :=
  rtc (λ n n', ∃ a, A a ∧ node_step a n n').

(** The invariant of a node: the ledger, the bounded progression whose snapshots are
    hashed from their own text, and a current state that is one of them. *)
Record node_wf (n : ContentNode) : Prop := {
  wf_ledger : ledger_wf (nd_ledger n);
  wf_bound : length (nd_progression n) ≤ MAX_PROGRESSION;
  wf_hash : ∀ s, s ∈ nd_progression n → ns_hash s = content_hash (ns_yaml s);
  wf_state : nd_progression n = [] ∨ ∃ s, s ∈ nd_progression n ∧ nd_state n = Some s;
}.

Lemma nd_set_ledger_wf l n : ledger_wf l → node_wf n → node_wf (nd_set_ledger l n).
Proof. intros Hl []. by split. Qed.

Lemma record_state_progression now pass phase source n :
  ∃ ns, nd_progression (record_state now pass phase source n)
        = (if (MAX_PROGRESSION <=? length (nd_progression n))%nat
           then tail (nd_progression n) else nd_progression n) ++ [ns] ∧
        nd_state (record_state now pass phase source n) = Some ns ∧
        ns_yaml ns = nd_yaml n ∧ ns_hash ns = content_hash (nd_yaml n) ∧
        ns_approved ns = false ∧ ns_source ns = source.
Proof. eexists. unfold record_state. simpl. split_and!; reflexivity. Qed.

Lemma record_state_wf now pass phase source n :
  node_wf n → node_wf (record_state now pass phase source n).
Proof.
  intros [Hl Hb Hh Hs].
  destruct (record_state_progression now pass phase source n)
    as (ns & Hp & Hst & Hy & Hhash & _).
  split; [done| | |].
  - rewrite Hp, length_app. change (length [ns]) with 1. destruct (MAX_PROGRESSION <=? _)%nat eqn:E.
    + apply Nat.leb_le in E. rewrite length_tail. unfold MAX_PROGRESSION in *. lia.
    + apply Nat.leb_gt in E. lia.
  - intros s. rewrite Hp. intros [Hin|Hin]%elem_of_app.
    + apply Hh. case_match; [by apply elem_of_tail|done].
    + apply list_elem_of_singleton in Hin as ->. congruence.
  - right. exists ns. rewrite Hp, Hst. split; [|done]. apply elem_of_app. right. by left.
Qed.

Lemma update_from_yaml_wf t n : node_wf n → node_wf (update_from_yaml t n).
Proof.
  intros [Hl Hb Hh Hs]. destruct (update_from_yaml_frame t n) as (_ & _ & _ & E1 & E2 & E3).
  split; rewrite ?E1, ?E2, ?E3; done.
Qed.

Lemma approve_entry_frame f s :
  ns_yaml (approve_entry f s) = ns_yaml s ∧ ns_hash (approve_entry f s) = ns_hash s ∧
  ns_source (approve_entry f s) = ns_source s.
Proof. unfold approve_entry. by case_match. Qed.

Lemma last_approved_elem p s : last_approved p = Some s → s ∈ p ∧ ns_approved s = true.
Proof.
  unfold last_approved. intros Hl. apply elem_of_last in Hl.
  by apply list_elem_of_filter in Hl as [? ?].
Qed.

Lemma approve_node_entries_progression f n :
  nd_progression (approve_node_entries f n) = approve_entry f <$> nd_progression n.
Proof. unfold approve_node_entries. by destruct (nd_progression n) eqn:E; csimpl; rewrite ?E. Qed.

Lemma approve_node_entries_frame f n :
  nd_identity (approve_node_entries f n) = nd_identity n ∧
  nd_meta (approve_node_entries f n) = nd_meta n ∧
  nd_yaml (approve_node_entries f n) = nd_yaml n ∧
  nd_indent (approve_node_entries f n) = nd_indent n ∧
  nd_ledger (approve_node_entries f n) = nd_ledger n.
Proof. unfold approve_node_entries. by case_match. Qed.

Lemma approve_node_entries_wf f n : node_wf n → node_wf (approve_node_entries f n).
Proof.
  intros [Hl Hb Hh Hs].
  destruct (approve_node_entries_frame f n) as (_ & _ & _ & _ & El).
  split; rewrite ?El, ?approve_node_entries_progression; [done|by rewrite length_fmap| |].
  - intros s (s0 & -> & Hin)%list_elem_of_fmap.
    destruct (approve_entry_frame f s0) as (-> & -> & _). auto.
  - unfold approve_node_entries. destruct (nd_progression n) as [|s0 p] eqn:E; [by left|].
    right. csimpl. set (q := approve_entry f s0 :: _).
    destruct (last_approved q) as [s|] eqn:Ea.
    + exists s. split; [by apply last_approved_elem in Ea as [? _]|done].
    + destruct (last q) as [s|] eqn:Eq; [|by apply last_None in Eq].
      exists s. split; [by apply elem_of_last in Eq|done].
Qed.

Lemma first_unapproved_lt p i :
  first_unapproved p = Some i →
  ∃ s, p !! i = Some s ∧ ns_approved s = false ∧
       ∀ j s', p !! j = Some s' → (j < i)%nat → ns_approved s' = true.
Proof.
  unfold first_unapproved. intros ([j s] & (Hi & Ha & Hm)%list_find_Some & ->)%fmap_Some.
  exists s. split_and!; [done|done|]. intros j' s' Hj Hlt.
  specialize (Hm j' s' Hj Hlt). by destruct (ns_approved s').
Qed.

(** The entries a rollback keeps: the approved prefix, or the baseline alone. *)
Definition kept_entries (i : nat) (p : list NodeState) : list NodeState :=
  match i with 0 => take 1 p | _ => take i p end.

Lemma rollback_spec i n :
  first_unapproved (nd_progression n) = Some i →
  ∃ s, last (kept_entries i (nd_progression n)) = Some s ∧
       nd_progression (rollback i n) = kept_entries i (nd_progression n) ∧
       nd_state (rollback i n) = Some s ∧ nd_yaml (rollback i n) = ns_yaml s ∧
       nd_ledger (rollback i n) = nd_ledger n ∧ nd_identity (rollback i n) = nd_identity n ∧
       nd_meta (rollback i n) = nd_meta n ∧ nd_indent (rollback i n) = nd_indent n.
Proof.
  intros (s0 & Hi & _ & _)%first_unapproved_lt. apply lookup_lt_Some in Hi.
  assert (kept_entries i (nd_progression n) ≠ []) as Hne.
  { unfold kept_entries. destruct (nd_progression n); simpl in *; [lia|]. by destruct i. }
  apply last_is_Some in Hne as [s Hs]. exists s.
  unfold rollback. fold (kept_entries i (nd_progression n)). rewrite Hs.
  rewrite update_from_yaml_yaml.
  destruct (update_from_yaml_frame (ns_yaml s)
    (nd_set_progression (Some s) (kept_entries i (nd_progression n)) n))
    as (-> & -> & -> & -> & -> & ->). done.
Qed.

Lemma kept_entries_sub i p s : s ∈ kept_entries i p → s ∈ p.
Proof. unfold kept_entries. destruct i; apply subseteq_take. Qed.

Lemma rollback_wf i n :
  first_unapproved (nd_progression n) = Some i → node_wf n → node_wf (rollback i n).
Proof.
  intros Hi [Hl Hb Hh Hs].
  destruct (rollback_spec i n Hi) as (s & Hlast & Hp & Hst & _ & Hled & _).
  split; rewrite ?Hp, ?Hled; [done| | |].
  - unfold kept_entries. destruct i; rewrite length_take; lia.
  - intros s' ?%kept_entries_sub. auto.
  - right. exists s. split; [by apply elem_of_last|done].
Qed.

(** Every operation keeps the invariant. *)
Lemma node_step_wf a n n' : node_step a n n' → node_wf n → node_wf n'.
Proof.
  destruct 1; intros Hwf; pose proof (wf_ledger _ Hwf) as Hl;
    eauto using record_state_wf, update_from_yaml_wf, approve_node_entries_wf, rollback_wf;
    apply nd_set_ledger_wf; try done.
  - by apply register_ledger_ok.
  - by apply ledger_map_ok; auto with pydb.
  - by apply ledger_map_ok; auto with pydb.
  - by apply ledger_map_ok; auto with pydb.
  - pose proof (ledger_wf_dget _ _ _ Hl H0) as Hr.
    destruct (decline_record_ok _ _ Hr H1). by eapply dset_ledger_ok.
  - pose proof (ledger_wf_dget _ _ _ Hl H0) as Hr.
    destruct (set_violation_ok v _ _ Hr). by eapply dset_ledger_ok.
Qed.

(** No operation loses a finding, and statuses follow the diagram. *)
Lemma node_step_ledger a n n' :
  node_step a n n' → node_wf n → ledger_le (nd_ledger n) (nd_ledger n').
Proof.
  destruct 1; intros Hwf; pose proof (wf_ledger _ Hwf) as Hl; simpl; try reflexivity.
  - destruct (update_from_yaml_frame t n) as (_ & _ & _ & _ & _ & ->). reflexivity.
  - by apply register_ledger_ok.
  - by apply ledger_map_ok; auto with pydb.
  - by apply ledger_map_ok; auto with pydb.
  - by apply ledger_map_ok; auto with pydb.
  - pose proof (ledger_wf_dget _ _ _ Hl H0) as Hr.
    destruct (decline_record_ok _ _ Hr H1). by eapply dset_ledger_ok.
  - pose proof (ledger_wf_dget _ _ _ Hl H0) as Hr.
    destruct (set_violation_ok v _ _ Hr). by eapply dset_ledger_ok.
  - destruct (approve_node_entries_frame f n) as (_ & _ & _ & _ & ->). reflexivity.
  - destruct (rollback_spec i n H0) as (? & _ & _ & _ & _ & -> & _). reflexivity.
Qed.

(** Identity, location and indentation are constant. *)
Definition node_frame (n n' : ContentNode) : Prop :=
  nd_identity n' = nd_identity n ∧ nd_meta n' = nd_meta n ∧ nd_indent n' = nd_indent n.

Lemma node_step_frame a n n' : node_step a n n' → node_frame n n'.
Proof.
  unfold node_frame. destruct 1; simpl; try done.
  - by destruct (update_from_yaml_frame t n) as (-> & -> & -> & _).
  - by destruct (approve_node_entries_frame f n) as (-> & -> & _ & -> & _).
  - by destruct (rollback_spec i n H0) as (? & _ & _ & _ & _ & _ & -> & -> & ->).
Qed.

(** Approval only happens through the approval operations. *)
Definition approves_nothing (a : act) : Prop := match a with ActApprove _ => False | _ => True end.

Lemma node_step_no_approval a n n' :
  node_step a n n' → approves_nothing a →
  ∀ s, s ∈ nd_progression n' → ns_approved s = true → s ∈ nd_progression n.
Proof.
  destruct 1; intros Ha s Hs Happ; try done.
  - destruct (record_state_progression now pass phase source n) as (ns & Hp & _ & _ & _ & Hf & _).
    rewrite Hp in Hs. apply elem_of_app in Hs as [Hs|Hs].
    + case_match; [by apply elem_of_tail|done].
    + apply list_elem_of_singleton in Hs as ->. congruence.
  - by destruct (update_from_yaml_frame t n) as (_ & _ & _ & _ & <- & _).
  - destruct (rollback_spec i n H0) as (? & _ & Hp & _). rewrite Hp in Hs.
    by apply kept_entries_sub in Hs.
Qed.

(** An approval with a filter leaves the entries of the other sources alone. *)
Lemma approve_entry_other f s :
  ns_source s ≠ ""%string → ns_source s ≠ f → approve_entry (Some f) s = s.
Proof.
  intros H1 H2. unfold approve_entry, approvable. rewrite !bool_decide_false by done.
  by rewrite andb_false_r.
Qed.

Lemma node_steps_wf A n n' : node_steps A n n' → node_wf n → node_wf n'.
Proof. induction 1 as [|n1 n2 n3 (a & _ & Hs) _ IH]; eauto using node_step_wf. Qed.

Lemma node_steps_ledger A n n' :
  node_steps A n n' → node_wf n → ledger_le (nd_ledger n) (nd_ledger n').
Proof.
  induction 1 as [|n1 n2 n3 (a & _ & Hs) _ IH]; intros Hwf; [done|].
  etrans; [by eapply node_step_ledger|]. apply IH. by eapply node_step_wf.
Qed.

Lemma node_steps_frame A n n' : node_steps A n n' → node_frame n n'.
Proof.
  induction 1 as [|n1 n2 n3 (a & _ & Hs) _ (E1 & E2 & E3)]; [done|].
  apply node_step_frame in Hs as (E4 & E5 & E6). unfold node_frame. split_and!; congruence.
Qed.

Lemma node_steps_no_approval (A : act → Prop) n n' :
  (∀ a, A a → approves_nothing a) → node_steps A n n' →
  ∀ s, s ∈ nd_progression n' → ns_approved s = true → s ∈ nd_progression n.
Proof.
  intros HA. induction 1 as [|n1 n2 n3 (a & Ha & Hs) _ IH]; [done|]. intros s Hin Happ.
  eapply node_step_no_approval; eauto.
Qed.

Lemma node_steps_mono (A B : act → Prop) n n' :
  (∀ a, A a → B a) → node_steps A n n' → node_steps B n n'.
Proof. intros HAB. unfold node_steps. apply rtc_subrel. naive_solver. Qed.
End NodeLaws.

(** ** Graphs *)

Section GraphLaws.
Context `{YamlLib} {G : Type} `{NxLaws ContentNode EdgeAttrs G}.
Implicit Types (g : ContentGraph G) (n : ContentNode) (A B : act → Prop).

(** Same vertices and edges; every payload moved by node operations of the kinds [A]. *)
Record graph_steps A g g' : Prop := {
  gs_vertices : (nx_nodes (cg_g g')).*1 = (nx_nodes (cg_g g)).*1;
  gs_edges : nx_edges (cg_g g') = nx_edges (cg_g g);
  gs_out k : nx_out_edges (cg_g g') k = nx_out_edges (cg_g g) k;
  gs_in k : nx_in_edges (cg_g g') k = nx_in_edges (cg_g g) k;
  gs_nodes k : option_Forall2 (node_steps A) (get_node g k) (get_node g' k);
}.

#[export] Instance node_steps_preorder A : PreOrder (node_steps A).
Proof. unfold node_steps. apply _. Qed.

#[export] Instance graph_steps_preorder A : PreOrder (graph_steps A).
Proof.
  split.
  - intros g. split; reflexivity.
  - intros g1 g2 g3 [V1 E1 O1 I1 N1] [V2 E2 O2 I2 N2]. split; try congruence.
    intros k. specialize (N1 k). specialize (N2 k).
    destruct N1 as [n1 n2 H12|]; inversion N2; subst; constructor. by etrans.
Qed.

Lemma graph_steps_mono A B g g' :
  (∀ a, A a → B a) → graph_steps A g g' → graph_steps B g g'.
Proof.
  intros HAB [V E O I N]. split; try done. intros k. specialize (N k).
  destruct N; constructor. by eapply node_steps_mono.
Qed.

Lemma get_node_upd k f g j :
  get_node (upd k f g) j = (if decide (j = k) then f else id) <$> get_node g j.
Proof. unfold get_node, upd. simpl. apply nx_payload_alter. Qed.

Lemma get_node_upd_eq k f g : get_node (upd k f g) k = f <$> get_node g k.
Proof. rewrite get_node_upd. by rewrite decide_True. Qed.

Lemma get_node_upd_ne k f g j : j ≠ k → get_node (upd k f g) j = get_node g j.
Proof. intros. rewrite get_node_upd, decide_False by done. by destruct (get_node g j). Qed.

(** Mutating one payload. *)
Lemma upd_steps A k f g :
  (∀ n, get_node g k = Some n → node_steps A n (f n)) → graph_steps A g (upd k f g).
Proof.
  intros Hf. split; simpl; autorewrite with pydb; try done.
  - rewrite nx_nodes_alter. apply dkeys_dalter.
  - intros j. by rewrite nx_out_edges_alter.
  - intros j. by rewrite nx_in_edges_alter.
  - intros j. rewrite get_node_upd. destruct (get_node g j) as [n|] eqn:E; simpl; constructor.
    case_decide; subst; [by apply Hf|reflexivity].
Qed.

Lemma upd_step A a k f g :
  A a → (∀ n, get_node g k = Some n → node_step a n (f n)) → graph_steps A g (upd k f g).
Proof. intros Ha Hf. apply upd_steps. intros n Hn. apply rtc_once. eauto. Qed.

(** A loop whose body is such an operation. *)
Lemma foldl_steps {X} A (f : ContentGraph G → X → ContentGraph G) l g :
  (∀ g x, x ∈ l → graph_steps A g (f g x)) → graph_steps A g (foldl f g l).
Proof.
  revert g. induction l as [|x l IH]; intros g Hf; simpl; [reflexivity|].
  etrans; [apply Hf; by left|]. apply IH. intros. apply Hf. by right.
Qed.

Lemma foldl_steps_fst {X Y} A (f : ContentGraph G * Y → X → ContentGraph G * Y) l gy :
  (∀ gy x, x ∈ l → graph_steps A gy.1 (f gy x).1) → graph_steps A gy.1 (foldl f gy l).1.
Proof.
  revert gy. induction l as [|x l IH]; intros gy Hf; simpl; [reflexivity|].
  etrans; [apply Hf; by left|]. apply IH. intros. apply Hf. by right.
Qed.

Lemma mark_dirty_steps A k g g' : graph_steps A g g' → graph_steps A g (mark_dirty k g').
Proof. by intros [V E O I N]. Qed.

Lemma clear_dirty_steps A g g' : graph_steps A g g' → graph_steps A g (clear_dirty g').
Proof. by intros [V E O I N]. Qed.

(** [node.record_state(...)] on the node stored under [k]. *)
Definition record_node (k now : string) (pass : nat) (phase source : string) g : ContentGraph G :=
  upd k (record_state now pass phase source) g.

Lemma record_node_steps A k now pass phase source g :
  A ActRecord → graph_steps A g (record_node k now pass phase source g).
Proof. intros. apply (upd_step _ ActRecord); [done|]. intros. constructor. Qed.

Lemma apply_yaml_steps A k t g : A ActContent → graph_steps A g (apply_yaml k t g).1.
Proof.
  intros Ha. unfold apply_yaml. case_match; [|reflexivity]. case_decide; [reflexivity|]. simpl.
  apply mark_dirty_steps, (upd_step _ ActContent); [done|]. intros. constructor.
Qed.

Lemma apply_transform_steps A k fn v g :
  A ActContent → graph_steps A g (apply_transform k fn v g).1.
Proof.
  intros Ha. unfold apply_transform. case_match; [|reflexivity]. case_decide; [reflexivity|].
  case_match; [|reflexivity]. destruct p as [task wrap]. destruct (fn task v) as [task' []];
    [|reflexivity]. simpl.
  apply mark_dirty_steps, (upd_step _ ActContent); [done|]. intros. constructor.
Qed.

Lemma register_violations_steps A vs pass g :
  A ActRegister → graph_steps A g (register_violations vs pass g).
Proof.
  intros Ha. apply foldl_steps. intros g0 v _. unfold register_one.
  case_match; [|reflexivity]. apply (upd_step _ ActRegister); [done|]. intros. constructor.
Qed.

Lemma map_records_steps A a p f k g :
  A a → (∀ n, node_step a n (nd_set_ledger (ledger_map f (nd_ledger n)) n)) →
  graph_steps A g (map_records p f k g).1.
Proof.
  intros Ha Hf. unfold map_records. case_match; [|reflexivity]. simpl.
  apply (upd_step _ a); [done|]. intros. apply Hf.
Qed.

Lemma resolve_violations_steps A k remaining by_ pass st g :
  A (ActResolve st) → resolved_status st →
  graph_steps A g (resolve_violations k remaining by_ pass st g).1.
Proof. intros. apply (map_records_steps _ (ActResolve st)); [done|]. intros. by constructor. Qed.

Lemma abstain_violations_steps A k rule_ids reasons g :
  A ActAbstain → graph_steps A g (abstain_violations k rule_ids reasons g).1.
Proof. intros. apply (map_records_steps _ ActAbstain); [done|]. intros. constructor. Qed.

Lemma transition_violations_steps A k from to clear g :
  A ActGate → (from, to, clear) ∈ gate_transitions →
  graph_steps A g (transition_violations k from to clear g).1.
Proof. intros. apply (map_records_steps _ ActGate); [done|]. intros. by constructor. Qed.

Lemma decline_open_steps A vs g :
  A ActDeclineOpen → graph_steps A g (decline_open_violations vs g).1.
Proof.
  intros Ha. unfold decline_open_violations. change g with (fst (g, 0)) at 1.
  apply foldl_steps_fst. intros [g0 c] v _. simpl. case_match eqn:Hn; [|reflexivity].
  case_match; [|reflexivity]. case_decide; [|reflexivity]. simpl.
  apply (upd_step _ ActDeclineOpen); [done|]. intros n Hn'. simplify_eq. by constructor.
Qed.

Lemma approve_pending_steps A k f g :
  A (ActApprove f) → graph_steps A g (approve_pending k f g).1.
Proof.
  intros Ha. assert (graph_steps A g (approve_pending_all f g).1) as Hall.
  { apply foldl_steps. intros g0 j _. apply (upd_step _ (ActApprove f)); [done|].
    intros. constructor. }
  unfold approve_pending. destruct k as [[|c k]|]; [done| |done].
  case_match; [|reflexivity]. apply (upd_step _ (ActApprove f)); [done|]. intros. constructor.
Qed.

Lemma approve_node_steps A k g :
  A (ActApprove None) → A ActGate → graph_steps A g (approve_node k g).1.
Proof.
  intros. unfold approve_node. destruct (approve_pending (Some k) None g) as [g1 c1] eqn:E1.
  destruct (approve_pending_review k g1) as [g2 c2] eqn:E2. simpl.
  transitivity g1.
  - change g1 with (g1, c1).1. rewrite <- E1. by apply approve_pending_steps.
  - change g2 with (g2, c2).1. rewrite <- E2. apply transition_violations_steps; [done|].
    unfold gate_transitions. set_solver.
Qed.

(** Transitions of the ledger keep the progression, and the ones a gate asks for. *)
Lemma decline_pending_review_node k n g :
  get_node g k = Some n →
  get_node (decline_pending_review k g).1 k
  = Some (nd_set_ledger (ledger_map (transition_record PendingReview Declined true) (nd_ledger n)) n).
Proof.
  intros Hn. unfold decline_pending_review, transition_violations, map_records. rewrite Hn. simpl.
  by rewrite get_node_upd_eq, Hn.
Qed.

Lemma reject_node_steps A k g :
  A ActReject → A ActGate → graph_steps A g (reject_node k g).1.
Proof.
  intros Hr Hg. unfold reject_node. destruct (get_node g k) as [n|] eqn:Hn; [|reflexivity].
  pose proof (decline_pending_review_node k n g Hn) as Hn1.
  assert (graph_steps A g (decline_pending_review k g).1) as Hst.
  { apply transition_violations_steps; [done|]. unfold gate_transitions. set_solver. }
  destruct (decline_pending_review k g) as [g1 c]. simpl in *.
  destruct (first_unapproved (nd_progression n)) as [i|] eqn:Hi; [|done].
  etrans; [exact Hst|]. apply (upd_step _ ActReject); [done|].
  intros n' Hn'. rewrite Hn1 in Hn'. simplify_eq. by constructor.
Qed.

(** ** Sequences of operations *)

Inductive op :=
| OpRecord (k now : string) (pass : nat) (phase source : string)
| OpYaml (k text : string)
| OpTransform (k : string) (fn : transform) (v : ViolationDict)
| OpRegister (vs : list ViolationDict) (pass : nat)
| OpResolve (k : string) (remaining : gset string) (by_ : string) (pass : nat) (st : status)
| OpAbstain (k : string) (rule_ids : gset string) (reasons : list (string * (string * string)))
| OpApproveReview (k : string)
| OpDeclineReview (k : string)
| OpApproveProposed (k : string)
| OpDeclineProposed (k : string)
| OpDeclineOpen (vs : list ViolationDict)
| OpApprove (k : option string) (source_filter : option string)
| OpApproveNode (k : string)
| OpRejectNode (k : string)
| OpClearDirty.

Definition exec g (o : op) : ContentGraph G :=
  match o with
  | OpRecord k now pass phase source => record_node k now pass phase source g
  | OpYaml k text => (apply_yaml k text g).1
  | OpTransform k fn v => (apply_transform k fn v g).1
  | OpRegister vs pass => register_violations vs pass g
  | OpResolve k remaining by_ pass st => (resolve_violations k remaining by_ pass st g).1
  | OpAbstain k rule_ids reasons => (abstain_violations k rule_ids reasons g).1
  | OpApproveReview k => (approve_pending_review k g).1
  | OpDeclineReview k => (decline_pending_review k g).1
  | OpApproveProposed k => (approve_proposed k g).1
  | OpDeclineProposed k => (decline_proposed k g).1
  | OpDeclineOpen vs => (decline_open_violations vs g).1
  | OpApprove k f => (approve_pending k f g).1
  | OpApproveNode k => (approve_node k g).1
  | OpRejectNode k => (reject_node k g).1
  | OpClearDirty => clear_dirty g
  end.

(** The documented target statuses of [resolve_violations]. *)
Definition op_ok (o : op) : Prop :=
  match o with OpResolve _ _ _ _ st => resolved_status st | _ => True end.

#[export] Instance op_ok_dec o : Decision (op_ok o).
Proof. destruct o; simpl; apply _. Defined.

(** The operations that approve progression entries. *)
Definition op_approves (o : op) : Prop :=
  match o with OpApprove _ _ | OpApproveNode _ => True | _ => False end.

Lemma exec_steps A g o :
  op_ok o → (∀ a, (op_approves o ∨ approves_nothing a) → A a) → graph_steps A g (exec g o).
Proof.
  intros Hok HA. assert (∀ a, approves_nothing a → A a) as HN by auto.
  destruct o; simpl in *;
    first [apply record_node_steps | apply apply_yaml_steps | apply apply_transform_steps
      | apply register_violations_steps | apply resolve_violations_steps
      | apply abstain_violations_steps | apply decline_open_steps | apply approve_pending_steps
      | apply approve_node_steps | apply reject_node_steps | apply clear_dirty_steps
      | apply transition_violations_steps];
    first [done | by apply HN | by apply HA; left | reflexivity
      | unfold gate_transitions; set_solver].
Qed.

Definition graph_wf g : Prop := ∀ k n, get_node g k = Some n → node_wf n.

Lemma graph_steps_wf A g g' : graph_steps A g g' → graph_wf g → graph_wf g'.
Proof.
  intros [_ _ _ _ N] Hwf k n' Hn'. specialize (N k). rewrite Hn' in N. inversion N; subst.
  eapply node_steps_wf; [done|]. by eapply Hwf.
Qed.

(** A finding stays in the ledger of its node, its status moved along the diagram. *)
Lemma graph_steps_finding A g g' k n key r :
  graph_wf g → graph_steps A g g' → get_node g k = Some n → dget key (nd_ledger n) = Some r →
  ∃ n' r', get_node g' k = Some n' ∧ dget key (nd_ledger n') = Some r' ∧
           rtc status_step (vr_status r) (vr_status r').
Proof.
  intros Hwf [_ _ _ _ N] Hn Hr. specialize (N k). rewrite Hn in N. inversion N as [? n' HN|]; subst.
  destruct (node_steps_ledger _ _ _ HN (Hwf _ _ Hn) _ _ Hr) as (r' & ? & ?). eauto 10.
Qed.

Lemma graph_steps_no_approval A g g' k n' s :
  (∀ a, A a → approves_nothing a) → graph_steps A g g' → get_node g' k = Some n' →
  s ∈ nd_progression n' → ns_approved s = true →
  ∃ n, get_node g k = Some n ∧ s ∈ nd_progression n.
Proof.
  intros HA [_ _ _ _ N] Hn' Hs Happ. specialize (N k). rewrite Hn' in N.
  inversion N as [n ? HN|]; subst. exists n. split; [done|].
  by eapply node_steps_no_approval.
Qed.

Lemma foldl_exec_steps A ops g :
  Forall op_ok ops → (∀ a, (Exists op_approves ops ∨ approves_nothing a) → A a) →
  graph_steps A g (foldl exec g ops).
Proof.
  revert g. induction ops as [|o ops IH]; intros g Hok HA; simpl; [reflexivity|].
  apply Forall_cons in Hok as [Ho Hops]. etrans.
  - apply exec_steps; [done|]. intros a [Ha|Ha]; apply HA; [left; by left|by right].
  - apply IH; [done|]. intros a [Ha|Ha]; apply HA; [left; by right|by right].
Qed.
End GraphLaws.
