(* ===== verification/Sample.v ===== *)
(** * Sample instances

    Concrete instances of the parameters, on which the witnesses evaluate: a YAML
    library for one-entry documents, a graph with one play and two tasks, and the
    violations a scanner reports on it. *)

From stdpp Require Import base list gmap strings.
From Stdlib Require Import Ascii String.
From S2P Require Import Prelude PyStr Yaml Violation NxGraph ContentNode ContentGraph GraphLaws.

#[local] Open Scope string_scope.

(** A document [key: value] is a mapping with one entry; a document without a colon
    does not parse. *)
#[export] Instance sample_yaml : YamlLib := {
  safe_load s := p ← split1 ":" s; Some (YDict [(strip p.1, YStr (strip p.2))]);
  CommentedMap := (string * string)%type;
  rt_load s := RTMap <$> split1 ":" s;
  rt_dumps d :=
    match d with
    | RTMap (a, b) => a +:+ ":" +:+ b
    | RTSeq [RTMap (a, b)] => "- " +:+ a +:+ ":" +:+ b
    | _ => ""
    end;
}.

Definition SG : Type := ListGraph.list_graph ContentNode EdgeAttrs.
#[export] Instance sample_ops : MultiDiGraph ContentNode EdgeAttrs SG :=
  ListGraph.list_multidigraph.
#[export] Instance sample_laws : NxLaws ContentNode EdgeAttrs SG := ListGraph.list_graph_laws.

Definition sample_node (id : string) (t : NodeType) (line_start line_end : Z) (yaml : string)
    : ContentNode :=
  MkNode (MkIdentity id t) (default_meta "site.yml" line_start line_end) default_fields yaml 0
    None [] [].

Definition play_id : string := "site.yml/plays[0]".
Definition task_id : string := "site.yml/plays[0]/tasks[0]".
Definition task2_id : string := "site.yml/plays[0]/tasks[1]".

Definition contains_edge (position : Z) : EdgeAttrs :=
  MkEdge CONTAINS false false position "" [].

Definition sample_graph : ContentGraph SG :=
  add_edge play_id task2_id (contains_edge 1)
    (add_edge play_id task_id (contains_edge 0)
      (add_node (sample_node task2_id TASK 3 3 "shell: ls")
        (add_node (sample_node task_id TASK 2 2 "apt: vim")
          (add_node (sample_node play_id PLAY 1 3 "hosts: all") empty_graph)))).

(** Any small graph: its nodes in order, then its edges with their positions. *)
Definition build_graph (ns : list ContentNode) (es : list (string * string * EdgeType * Z)) : ContentGraph SG :=
  foldl (λ g e, let '(src, tgt, t, position) := e in
                add_edge src tgt (MkEdge t false false position "" []) g)
    (foldl (λ g n, add_node n g) empty_graph ns) es.

(** A node with a module, its options, variables and settings. *)
Definition with_fields (module : string) (options vars : YAMLDict) (register : option string)
    (no_log : option bool) (n : ContentNode) : ContentNode :=
  nd_set_content (MkFields None module options [] vars None WhenNone [] YNull None register [] [] []
                    None no_log None YNull YNull None) (nd_yaml n) n.

Definition sample_violation (path rule : string) : ViolationDict :=
  [("rule_id", VStr rule); ("severity", VStr "medium"); ("message", VStr "m"); ("path", VStr path);
   ("scope", VStr "task")].

Lemma sample_graph_wf : graph_wf sample_graph.
Proof.
  intros k n Hn. apply nx_nodes_payload in Hn. cbn in Hn.
  assert (nd_ledger n = [] ∧ nd_progression n = []) as [Hl Hp].
  { repeat (apply elem_of_cons in Hn as [Hn|Hn]; [by simplify_eq/=|]).
    by apply elem_of_nil in Hn. }
  split; rewrite ?Hl, ?Hp.
  - split; [apply NoDup_nil_2|]. intros ? ? Hin. by apply elem_of_nil in Hin.
  - simpl. unfold MAX_PROGRESSION. lia.
  - intros ? Hin. by apply elem_of_nil in Hin.
  - by left.
Qed.

(** A task after one deterministic fix: a baseline and a transformed snapshot. *)
Definition reviewed_ops : list op :=
  [OpRecord task_id "t0" 0 "scanned" ""; OpRegister [sample_violation task_id "L007"] 0;
   OpYaml task_id "apt: emacs"; OpRecord task_id "t1" 1 "transformed" "deterministic";
   OpResolve task_id ∅ "deterministic" 1 PendingReview].

Definition reviewed_graph : ContentGraph SG := foldl exec sample_graph reviewed_ops.

Lemma reviewed_graph_wf : graph_wf reviewed_graph.
Proof.
  unfold reviewed_graph.
  refine (graph_steps_wf (λ _, True) _ _ (foldl_exec_steps _ _ _ _ _) sample_graph_wf); [|done].
  repeat (apply Forall_cons; split; [try done; apply (bool_decide_unpack _); vm_compute; exact I|]).
  apply Forall_nil_2.
Qed.
