(* ===== verification/GraphProps.v ===== *)
(** * Properties of the content graph

    The theorems about [ContentGraph]: what every sequence of operations keeps
    (invariant, findings, approvals), and the exact effect of registering,
    resolving, approving and rejecting. *)

From stdpp Require Import base list gmap strings pretty relations.
From Stdlib Require Import Ascii String.
From S2P Require Import Prelude PyStr Yaml Violation NxGraph ContentNode ContentGraph GraphLaws Sample.

#[local] Open Scope string_scope.
#[local] Notation length := List.length.

Section Props.
Context `{YamlLib} {G : Type} `{NxLaws ContentNode EdgeAttrs G}.
Implicit Types (g : ContentGraph G) (n : ContentNode).

(** C8: whatever operations run and in whatever order, every node keeps its invariant
    (ledger keys unique, attribution present exactly on resolved records, at most
    twenty snapshots, each hashed from its own text, the current state one of them),
    and the vertices and edges of the graph stay as they were. *)
Theorem operations_keep_invariant ops g :
  Forall op_ok ops → graph_wf g →
  graph_wf (foldl exec g ops) ∧
  (nx_nodes (cg_g (foldl exec g ops))).*1 = (nx_nodes (cg_g g)).*1 ∧
  nx_edges (cg_g (foldl exec g ops)) = nx_edges (cg_g g).
Proof.
  intros Hok Hwf. pose proof (foldl_exec_steps (λ _, True) ops g Hok ltac:(done)) as Hs.
  split_and!; [by eapply graph_steps_wf|by eapply gs_vertices|by eapply gs_edges].
Qed.

(** C9: no sequence of operations loses a finding.  A ledger record stays in the
    ledger of its node, its status only moves along the transition diagram, and a
    record that was declined or on which the AI abstained never changes status. *)
Theorem findings_never_lost ops g k n key r :
  Forall op_ok ops → graph_wf g → get_node g k = Some n → dget key (nd_ledger n) = Some r →
  ∃ n' r', get_node (foldl exec g ops) k = Some n' ∧ dget key (nd_ledger n') = Some r' ∧
    rtc status_step (vr_status r) (vr_status r') ∧
    (sticky (vr_status r) → vr_status r' = vr_status r).
Proof.
  intros Hok Hwf Hn Hr.
  destruct (graph_steps_finding (λ _, True) g (foldl exec g ops) k n key r) as (n' & r' & ? & ? & Hst);
    [done|by apply foldl_exec_steps|done..|].
  exists n', r'. eauto using sticky_stuck.
Qed.

(** Only the approval operations approve.  After any sequence without one, every
    approved snapshot in the graph was already there before. *)
Theorem approval_needs_gate ops g k n' s :
  Forall op_ok ops → Forall (λ o, ¬ op_approves o) ops →
  get_node (foldl exec g ops) k = Some n' → s ∈ nd_progression n' → ns_approved s = true →
  ∃ n, get_node g k = Some n ∧ s ∈ nd_progression n.
Proof.
  intros Hok Hno. apply (graph_steps_no_approval approves_nothing); [done|].
  apply foldl_exec_steps; [done|]. intros a [Hex|Ha]; [|done]. exfalso.
  rewrite Forall_forall in Hno. apply Exists_exists in Hex as (o & Hin & Ho). by eapply Hno.
Qed.

(** ** Registration *)

Definition reopened (s : status) : status :=
  match s with Declined => Declined | AiAbstained => AiAbstained | _ => Open end.

Lemma register_existing_status v r :
  vr_status (register_existing v r) = reopened (vr_status r) ∧
  vr_violation (register_existing v r) = v.
Proof. unfold register_existing. by destruct (vr_status r) eqn:E; simpl; rewrite ?E. Qed.

Lemma reopened_idemp s : reopened (reopened s) = reopened s.
Proof. by destruct s. Qed.

(** The record a batch leaves under a key: created by the first violation with that
    key unless present, its payload the last one. *)
Definition registered (o : option ViolationRecord) (r' : ViolationRecord) (v : ViolationDict) : Prop :=
  vr_status r' = match o with Some r => reopened (vr_status r) | None => Open end ∧
  vr_violation r' = v.

Lemma dget_register_ledger pass v l key :
  dget key (register_ledger pass v l)
  = if decide (key = violation_key v) then
      Some (match dget key l with
            | None => MkRecord key v Open None None pass None None
            | Some r => register_existing v r
            end)
    else dget key l.
Proof.
  unfold register_ledger. destruct (dget (violation_key v) l) eqn:E; rewrite dget_dset;
    case_decide; simplify_eq; by rewrite ?E.
Qed.

Lemma register_one_node pass g v k :
  get_node (register_one pass g v) k
  = (if decide (k = v_path v)
     then (λ n, nd_set_ledger (register_ledger pass v (nd_ledger n)) n) else id) <$> get_node g k.
Proof.
  unfold register_one. destruct (get_node g (v_path v)) eqn:E; [apply get_node_upd|].
  case_decide; subst; [by rewrite E|by destruct (get_node g k)].
Qed.

Lemma register_violations_node vs pass g k n :
  get_node g k = Some n →
  ∃ l, get_node (register_violations vs pass g) k = Some (nd_set_ledger l n) ∧
    ∀ key : ViolationKey, key.1 = k →
      match last (filter (λ v, violation_key v = key) vs) with
      | Some v => ∃ r', dget key l = Some r' ∧ registered (dget key (nd_ledger n)) r' v
      | None => dget key l = dget key (nd_ledger n)
      end.
Proof.
  unfold register_violations. revert g n. induction vs as [|v vs IH]; intros g n Hn; simpl.
  { exists (nd_ledger n). rewrite Hn. split; [by destruct n|done]. }
  pose proof (register_one_node pass g v k) as Hg. rewrite Hn in Hg. simpl in Hg.
  destruct (IH _ _ Hg) as (l & Hl & Hkey). exists l. split.
  { rewrite Hl. by destruct (decide (k = v_path v)). }
  intros key Hk. specialize (Hkey key Hk).
  rewrite filter_cons. destruct (decide (violation_key v = key)) as [<-|Hne].
  - assert (k = v_path v) as -> by done. rewrite decide_True in Hkey by done. simpl in Hkey.
    rewrite dget_register_ledger, decide_True in Hkey by done.
    rewrite last_cons. destruct (last _) as [v'|].
    + destruct Hkey as (r' & Hr' & Hs & Hv). exists r'. split; [done|]. split; [|done].
      rewrite Hs. destruct (dget _ (nd_ledger n)) as [r|]; simpl; [|done].
      by rewrite (proj1 (register_existing_status v r)), reopened_idemp.
    + eexists. split; [exact Hkey|]. unfold registered.
      destruct (dget _ (nd_ledger n)) as [r|]; [apply register_existing_status|done].
  - assert (dget key (nd_ledger ((if decide (k = v_path v)
      then (λ n, nd_set_ledger (register_ledger pass v (nd_ledger n)) n) else id) n))
      = dget key (nd_ledger n)) as Heq.
    { case_decide; [|done]. simpl. by rewrite dget_register_ledger, decide_False by done. }
    by rewrite Heq in Hkey.
Qed.

(** Registering a scan batch leaves, for each violation of the batch whose node
    exists, one record under its key: a new or re-detected finding is open (a fixed,
    pending or proposed one is reopened), a declined or abstained one keeps its status,
    and the payload is the last violation of the batch with that key.  Keys the batch
    does not mention keep their record. *)
Theorem register_violations_spec vs pass g k n rule (key := (k, rule) : ViolationKey) :
  get_node g k = Some n →
  ∃ n', get_node (register_violations vs pass g) k = Some n' ∧
    nd_progression n' = nd_progression n ∧ nd_yaml n' = nd_yaml n ∧
    match last (filter (λ v, violation_key v = key) vs) with
    | None => dget key (nd_ledger n') = dget key (nd_ledger n)
    | Some v =>
      ∃ r', dget key (nd_ledger n') = Some r' ∧ vr_violation r' = v ∧
        vr_status r' = match dget key (nd_ledger n) with
                       | Some r => if decide (vr_status r = Declined ∨ vr_status r = AiAbstained)
                                   then vr_status r else Open
                       | None => Open
                       end
    end.
Proof.
  intros Hn. destruct (register_violations_node vs pass g k n Hn) as (l & Hl & Hkey).
  exists (nd_set_ledger l n). split_and!; [done..|]. specialize (Hkey key eq_refl). simpl.
  destruct (last _) as [v|]; [|done]. destruct Hkey as (r' & Hr & Hs & Hv).
  exists r'. split_and!; [done..|]. rewrite Hs.
  destruct (dget key (nd_ledger n)) as [r|] eqn:Eo; [|done]. case_decide; destruct (vr_status r); naive_solver.
Qed.

(** ** Resolution *)

(** Resolving a rescanned node moves exactly the open records whose rule was not
    reported again, stamps them with the attribution, reports how many it moved, and
    touches no other record or node. *)
Theorem resolve_violations_spec k remaining by_ pass st g n :
  get_node g k = Some n →
  ∃ g' n' count, resolve_violations k remaining by_ pass st g = (g', count) ∧
    get_node g' k = Some n' ∧
    (∀ key, dget key (nd_ledger n')
      = (λ r, if decide (vr_status r = Open ∧ (vr_key r).2 ∉ remaining)
              then vr_set_status st (Some by_) (Some pass) r else r) <$> dget key (nd_ledger n)) ∧
    count = length (filter (λ r, vr_status r = Open ∧ (vr_key r).2 ∉ remaining)
                      (nd_ledger n).*2) ∧
    ∀ j, j ≠ k → get_node g' j = get_node g j.
Proof.
  intros Hn. unfold resolve_violations, map_records. rewrite Hn. eexists _, _, _.
  split_and!; [done| | | |].
  - by rewrite get_node_upd_eq, Hn.
  - intros key. simpl. rewrite dget_ledger_map. destruct (dget key _) as [r|]; [|done]. simpl.
    f_equal. unfold resolve_record, resolvable.
    repeat case_bool_decide; case_decide; naive_solver.
  - apply length_filter_snd. intros r. unfold resolvable.
    by rewrite andb_true_iff, !bool_decide_eq_true.
  - intros j Hj. by apply get_node_upd_ne.
Qed.

(** ** Approval and rejection *)

Lemma transition_records_status k from to clear g n :
  get_node g k = Some n →
  ∃ n', get_node (transition_violations k from to clear g).1 k = Some n' ∧
    nd_progression n' = nd_progression n ∧ nd_state n' = nd_state n ∧ nd_yaml n' = nd_yaml n ∧
    ∀ key, vr_status <$> dget key (nd_ledger n')
      = (λ s, if decide (s = from) then to else s) <$> (vr_status <$> dget key (nd_ledger n)).
Proof.
  intros Hn. unfold transition_violations, map_records. rewrite Hn. simpl.
  rewrite get_node_upd_eq, Hn. eexists. split_and!; [done..|]. intros key. simpl.
  rewrite dget_ledger_map. destruct (dget key _) as [r|]; [|done]. simpl. f_equal.
  unfold transition_record. by repeat case_decide; destruct clear; simpl.
Qed.

Lemma transition_other k from to clear g j :
  j ≠ k → get_node (transition_violations k from to clear g).1 j = get_node g j.
Proof.
  intros Hj. unfold transition_violations, map_records. case_match; [|done]. simpl.
  by apply get_node_upd_ne.
Qed.

Lemma approve_all_entries (p : list NodeState) : approve_entry None <$> p = set_approved <$> p.
Proof.
  apply list_fmap_ext. intros _ s _. unfold approve_entry, approvable.
  destruct s as [? ? ? ? ? ? []]; done.
Qed.

Lemma last_approved_all (p : list NodeState) : last_approved (set_approved <$> p) = last (set_approved <$> p).
Proof.
  unfold last_approved. f_equal. induction p as [|s p IH]; [done|]. csimpl.
  rewrite filter_cons_True by done. by rewrite IH.
Qed.

(** Approving a node approves every snapshot it has without touching its text,
    makes the newest snapshot the current state, promotes every finding that awaits
    review to fixed (and only those), leaves the other nodes alone, and returns true
    exactly when something was pending. *)
Theorem approve_node_spec k g n :
  k ≠ "" → get_node g k = Some n →
  ∃ g' n' b, approve_node k g = (g', b) ∧ get_node g' k = Some n' ∧
    nd_progression n' = set_approved <$> nd_progression n ∧ nd_yaml n' = nd_yaml n ∧
    (nd_progression n ≠ [] → nd_state n' = set_approved <$> last (nd_progression n)) ∧
    (∀ key, vr_status <$> dget key (nd_ledger n')
      = (λ s, if decide (s = PendingReview) then Fixed else s)
          <$> (vr_status <$> dget key (nd_ledger n))) ∧
    (b = true ↔ Exists (λ s, ns_approved s = false) (nd_progression n)
                ∨ Exists (λ r, vr_status r = PendingReview) (nd_ledger n).*2) ∧
    ∀ j, j ≠ k → get_node g' j = get_node g j.
Proof.
  intros Hk Hn. unfold approve_node, approve_pending.
  destruct k as [|c k0]; [done|]. set (k := String c k0) in *. rewrite Hn.
  set (g1 := upd k (approve_node_entries None) g).
  assert (get_node g1 k = Some (approve_node_entries None n)) as Hn1
    by (unfold g1; by rewrite get_node_upd_eq, Hn).
  destruct (transition_records_status k PendingReview Fixed false g1 _ Hn1)
    as (n' & Hn' & Hp & Hst & Hy & Hled).
  destruct (approve_node_entries_frame None n) as (_ & _ & Ey & _ & El).
  unfold approve_pending_review. destruct (transition_violations k _ _ _ g1) as [g2 c2] eqn:E2.
  simpl in Hn'. eexists g2, n', _. split_and!; [done|done| | | | | |].
  - by rewrite Hp, approve_node_entries_progression, approve_all_entries.
  - congruence.
  - intros Hne. rewrite Hst. unfold approve_node_entries. rewrite approve_all_entries.
    rewrite last_approved_all, fmap_last.
    destruct (nd_progression n) as [|s p]; [done|]. csimpl.
    destruct (last (s :: p)) eqn:El'; [done|]. by apply last_None in El'.
  - intros key. by rewrite Hled, El.
  - assert (c2 = length (filter (λ kr : ViolationKey * ViolationRecord,
        bool_decide (vr_status kr.2 = PendingReview) = true) (nd_ledger n))) as ->.
    { unfold transition_violations, map_records in E2. rewrite Hn1, El in E2. by simplify_eq. }
    rewrite orb_true_iff, !Nat.ltb_lt. unfold approvals. f_equiv.
    + rewrite <- (length_filter_Exists (λ s, ns_approved s = false)). f_equiv. f_equal. apply list_filter_iff.
      intros s. unfold approvable. rewrite andb_true_r. by destruct (ns_approved s).
    + rewrite <- (length_filter_Exists (λ r, vr_status r = PendingReview)),
        <- (length_filter_snd (λ r, bool_decide (vr_status r = PendingReview))); [done|].
      intros r. by rewrite bool_decide_eq_true.
  - intros j Hj. change g2 with (g2, c2).1. rewrite <- E2, transition_other by done.
    by apply get_node_upd_ne.
Qed.

Lemma take_first_unapproved i p :
  first_unapproved p = Some (S i) → Forall (λ s, ns_approved s = true) (take (S i) p).
Proof.
  intros (s & _ & _ & Hlt)%first_unapproved_lt. apply Forall_lookup. intros j s' Hj.
  pose proof (lookup_lt_Some _ _ _ Hj) as Hlen. rewrite length_take in Hlen.
  rewrite lookup_take_lt in Hj by lia. apply (Hlt j s' Hj). lia.
Qed.

(** Rejecting a node keeps a prefix of its history, namely everything before its
    first unapproved snapshot (or the baseline alone when nothing was approved),
    restores text and state to the last snapshot kept, declines every finding that
    awaits review and no other, and leaves the other nodes alone.  A node whose
    snapshots are all approved keeps its text. *)
Theorem reject_node_spec k g n :
  get_node g k = Some n →
  ∃ g' n' b, reject_node k g = (g', b) ∧ get_node g' k = Some n' ∧
    (∀ key, vr_status <$> dget key (nd_ledger n')
      = (λ s, if decide (s = PendingReview) then Declined else s)
          <$> (vr_status <$> dget key (nd_ledger n))) ∧
    (∀ j, j ≠ k → get_node g' j = get_node g j) ∧
    (Forall (λ s, ns_approved s = true) (nd_progression n) →
       nd_progression n' = nd_progression n ∧ nd_yaml n' = nd_yaml n) ∧
    (∀ i s, first_unapproved (nd_progression n) = Some i → nd_progression n !! i = Some s →
       b = true ∧
       nd_progression n' = take (Nat.max 1 i) (nd_progression n) ∧
       (∃ s', last (nd_progression n') = Some s' ∧ nd_state n' = Some s' ∧ nd_yaml n' = ns_yaml s') ∧
       (i ≠ 0 → Forall (λ s, ns_approved s = true) (nd_progression n'))).
Proof.
  intros Hn. unfold reject_node. rewrite Hn.
  destruct (transition_records_status k PendingReview Declined true g n Hn)
    as (n1 & Hn1 & Hp1 & _ & Hy1 & Hled1).
  pose proof (transition_other k PendingReview Declined true g) as Hother.
  unfold decline_pending_review.
  destruct (transition_violations k PendingReview Declined true g) as [g1 c1] eqn:E1. simpl in *.
  destruct (first_unapproved (nd_progression n)) as [i|] eqn:Hi.
  - assert (first_unapproved (nd_progression n1) = Some i) as Hi1 by congruence.
    destruct (rollback_spec i n1 Hi1) as (s & Hlast & Hp & Hst & Hy & Hl & _).
    eexists _, (rollback i n1), true. split_and!; [done| | | | |].
    + by rewrite get_node_upd_eq, Hn1.
    + intros key. by rewrite Hl, Hled1.
    + intros j Hj. rewrite get_node_upd_ne by done. auto.
    + intros Hall. apply first_unapproved_lt in Hi as (s0 & Hs0 & Ha & _).
      rewrite Forall_forall in Hall. apply list_elem_of_lookup_2 in Hs0.
      specialize (Hall _ Hs0). congruence.
    + intros i' s' [= <-] Hs'. assert (kept_entries i (nd_progression n1)
        = take (Nat.max 1 i) (nd_progression n)) as Hk.
      { unfold kept_entries. rewrite Hp1. by destruct i. }
      split_and!; [done|congruence| |].
      * exists s. by rewrite Hp.
      * intros Hne. rewrite Hp, Hk. destruct i; [done|]. by apply take_first_unapproved.
  - eexists _, n1, _. split_and!; [done..| |done]. done.
Qed.

(** ** Content *)

(** Applying the same text twice is the same as applying it once: the second
    application reports no change and marks nothing dirty. *)
Theorem apply_yaml_idempotent k text g :
  apply_yaml k text (apply_yaml k text g).1 = ((apply_yaml k text g).1, false).
Proof.
  unfold apply_yaml at 2 3. destruct (get_node g k) as [n|] eqn:Hn; simpl.
  2: { unfold apply_yaml. by rewrite Hn. }
  set (t := if decide (detect_indent text = _) then _ else _). case_decide as Ht; simpl.
  { unfold apply_yaml. rewrite Hn. fold t. by rewrite decide_True. }
  unfold apply_yaml.
  assert (get_node (mark_dirty k (upd k (update_from_yaml t) g)) k = Some (update_from_yaml t n)) as ->.
  { change (get_node (upd k (update_from_yaml t) g) k = Some (update_from_yaml t n)).
    by rewrite get_node_upd_eq, Hn. }
  destruct (update_from_yaml_frame t n) as (_ & _ & -> & _). fold t.
  by rewrite update_from_yaml_yaml, decide_True.
Qed.

(** Once a node holds twenty snapshots, the snapshots that follow all carry the
    same id, although the id is documented as unique and monotonically increasing;
    the oldest snapshot, the baseline, is dropped each time. *)
Theorem record_state_ids_repeat n now1 now2 pass1 pass2 phase1 phase2 src1 src2 :
  length (nd_progression n) = MAX_PROGRESSION →
  let n1 := record_state now1 pass1 phase1 src1 n in
  let n2 := record_state now2 pass2 phase2 src2 n1 in
  ns_id <$> nd_state n1 = ns_id <$> nd_state n2 ∧
  nd_progression n1 = (tail (nd_progression n) ++ option_list (nd_state n1))%list.
Proof.
  intros Hlen n1 n2. assert (length (nd_progression n1) = MAX_PROGRESSION) as Hlen1.
  { subst n1. unfold record_state. cbn [nd_progression nd_set_progression].
    rewrite Hlen, Nat.leb_refl, length_app, length_tail, Hlen. done. }
  subst n2. unfold record_state at 1. cbn [nd_state nd_set_progression]. rewrite Hlen1.
  subst n1. unfold record_state. cbn [nd_state nd_set_progression nd_progression].
  by rewrite Hlen, Nat.leb_refl.
Qed.
End Props.

(** ** Witnesses *)

Lemma operations_keep_invariant_witness :
  graph_wf (foldl exec reviewed_graph [OpRejectNode task_id; OpApprove None None]).
Proof.
  apply (operations_keep_invariant (G := SG) [OpRejectNode task_id; OpApprove None None]
           reviewed_graph); [|exact reviewed_graph_wf].
  apply Forall_cons. split; [exact I|]. apply Forall_cons. split; [exact I|]. apply Forall_nil_2.
Defined.

(** The record of the sample finding, after the fix. *)
Definition reviewed_record : ViolationRecord :=
  MkRecord (task_id, "L007") (sample_violation task_id "L007") PendingReview (Some "deterministic")
    (Some 1) 0 None None.

Definition reviewed_task : ContentNode :=
  Eval vm_compute in default (sample_node "" TASK 0 0 "") (get_node reviewed_graph task_id).

Lemma findings_never_lost_witness :
  ∃ n' r', get_node (foldl exec reviewed_graph [OpRejectNode task_id]) task_id = Some n' ∧
    dget (task_id, "L007") (nd_ledger n') = Some r' ∧ rtc status_step PendingReview (vr_status r').
Proof.
  destruct (findings_never_lost (G := SG) [OpRejectNode task_id] reviewed_graph task_id reviewed_task
    (task_id, "L007") reviewed_record) as (n' & r' & Hn & Hr & Hs & _).
  - apply Forall_cons. split; [exact I|]. apply Forall_nil_2.
  - exact reviewed_graph_wf.
  - vm_compute. reflexivity.
  - vm_compute. reflexivity.
  - exists n', r'. split; [exact Hn|]. split; [exact Hr|exact Hs].
Defined.

Definition reviewed_snapshot : NodeState :=
  Eval vm_compute in default (MkState "" 0 "" "" "" "" false "")
    (head (nd_progression reviewed_task)).

Lemma approval_needs_gate_witness :
  ∃ n, get_node (foldl exec reviewed_graph [OpApprove None None]) task_id = Some n ∧
       set_approved reviewed_snapshot ∈ nd_progression n.
Proof.
  apply (approval_needs_gate (G := SG) [OpClearDirty; OpApproveReview task_id]
    (foldl exec reviewed_graph [OpApprove None None]) task_id
    (default reviewed_task (get_node (foldl exec (foldl exec reviewed_graph [OpApprove None None])
       [OpClearDirty; OpApproveReview task_id]) task_id))).
  - repeat (apply Forall_cons; split; [exact I|]). apply Forall_nil_2.
  - repeat (apply Forall_cons; split; [intros []|]). apply Forall_nil_2.
  - vm_compute. reflexivity.
  - vm_compute. constructor.
  - reflexivity.
Defined.

Lemma register_violations_spec_witness :
  ∃ n', get_node (register_violations [sample_violation task_id "L007"] 2 reviewed_graph) task_id
        = Some n' ∧ vr_status <$> dget (task_id, "L007") (nd_ledger n') = Some Open.
Proof.
  destruct (register_violations_spec (G := SG) [sample_violation task_id "L007"] 2 reviewed_graph task_id
    reviewed_task "L007") as (n' & Hn & _ & _ & Hm); [vm_compute; reflexivity|].
  exists n'. split; [exact Hn|]. vm_compute in Hm. destruct Hm as (r' & Hr & _ & Hs).
  transitivity (vr_status <$> Some r').
  - f_equal. exact Hr.
  - exact (f_equal Some Hs).
Defined.

Lemma resolve_violations_spec_witness :
  ∃ g' n' count, resolve_violations task_id ∅ "ai" 1 Proposed reviewed_graph = (g', count) ∧
    get_node g' task_id = Some n' ∧ count = 0.
Proof.
  destruct (resolve_violations_spec (G := SG) task_id ∅ "ai" 1 Proposed reviewed_graph reviewed_task)
    as (g' & n' & c & Hg & Hn & _ & Hc & _); [vm_compute; reflexivity|].
  exists g', n', c. split; [exact Hg|]. split; [exact Hn|]. rewrite Hc. vm_compute. reflexivity.
Defined.

Lemma approve_node_spec_witness :
  ∃ g' n' b, approve_node task_id reviewed_graph = (g', b) ∧ get_node g' task_id = Some n' ∧
    b = true.
Proof.
  destruct (approve_node_spec (G := SG) task_id reviewed_graph reviewed_task)
    as (g' & n' & b & Hg & Hn & _ & _ & _ & _ & Hb & _); [discriminate|vm_compute; reflexivity|].
  exists g', n', b. split; [exact Hg|]. split; [exact Hn|]. apply Hb. left.
  apply (bool_decide_unpack _). vm_compute. exact I.
Defined.

Lemma reject_node_spec_witness :
  ∃ g' n' b, reject_node task_id reviewed_graph = (g', b) ∧ get_node g' task_id = Some n' ∧
    nd_progression n' = [reviewed_snapshot].
Proof.
  destruct (reject_node_spec (G := SG) task_id reviewed_graph reviewed_task)
    as (g' & n' & b & Hg & Hn & _ & _ & _ & Hr); [vm_compute; reflexivity|].
  exists g', n', b. split; [exact Hg|]. split; [exact Hn|].
  destruct (Hr 0 reviewed_snapshot) as (_ & Hp & _); [vm_compute; reflexivity..|].
  rewrite Hp. vm_compute. reflexivity.
Defined.

Lemma apply_yaml_idempotent_witness :
  apply_yaml task_id "apt: nano" (apply_yaml task_id "apt: nano" sample_graph).1
  = ((apply_yaml task_id "apt: nano" sample_graph).1, false).
Proof. apply (apply_yaml_idempotent (G := SG)). Defined.

Lemma record_state_ids_repeat_witness :
  let n := Nat.iter 20 (record_state "t" 1 "scanned" "") (sample_node task_id TASK 1 1 "a: b") in
  ns_id <$> nd_state (record_state "t" 1 "scanned" "" n)
  = ns_id <$> nd_state (record_state "t" 1 "scanned" "" (record_state "t" 1 "scanned" "" n)).
Proof.
  apply (record_state_ids_repeat
    (Nat.iter 20 (record_state "t" 1 "scanned" "") (sample_node task_id TASK 1 1 "a: b"))).
  vm_compute. reflexivity.
Defined.
