(* ===== verification/GraphQueries.v ===== *)
(** * Structural queries

    The traversals of [ContentGraph] ([src/apme_engine/graph/content_graph.py]): the
    scope of a play, positional ancestors in their three forms, the [CONTAINS] chain,
    children and structural descendants.  The loops carry fuel, taken from the number
    of vertices and edges; the theorems show the results are exact, so the fuel is
    never what ends a loop. *)

From stdpp Require Import base list gmap strings relations.
From Stdlib Require Import Ascii String.
From S2P Require Import Prelude PyStr Yaml Violation NxGraph ContentNode ContentGraph GraphLaws Sample.

#[local] Notation length := List.length.

(** ** Loops over parents *)

Section Chains.
Context (parents : string → list string).

(** [while True: ... parent = parents[0]; if parent in visited: break; ...] *)
Fixpoint climb (fuel : nat) (visited : gset string) (current : string) : option (list string) :=
  match head (parents current) with
  | None => Some []
  | Some p =>
    if decide (p ∈ visited) then Some []
    else match fuel with
         | O => None
         | S fuel' => cons p <$> climb fuel' ({[p]} ∪ visited) p
         end
  end.

(** One vertex of a level: [seen], the ancestors found, the next level. *)
Definition visit (acc : gset string * list string * list string) (p : string)
    : gset string * list string * list string :=
  let '(seen, out, next) := acc in
  if decide (p ∈ seen) then acc
  else
    let seen' := {[p]} ∪ seen in
    (seen', (out ++ [p]), (next ++ filter (λ q, q ∉ seen') (parents p))).

Definition sorted_set (l : list string) : list string := sort_by String.leb (remove_dups l).

(** [while current_level: ...] *)
Fixpoint levels (fuel : nat) (seen : gset string) (level : list string) : option (list string) :=
  match level with
  | [] => Some []
  | _ =>
    match fuel with
    | O => None
    | S fuel' =>
      let '(seen', out, next) := foldl visit (seen, [], []) level in
      app out <$> levels fuel' seen' (sorted_set next)
    end
  end.

(** *** [climb] *)

Lemma climb_spec U fuel visited current :
  (∀ x y, y ∈ parents x → y ∈ U) →
  unseen_weight (λ _, 1) U visited ≤ fuel →
  ∃ l, climb fuel visited current = Some l ∧ NoDup l ∧ (∀ x, x ∈ l → x ∉ visited) ∧
    (∀ i x y, (current :: l) !! i = Some x → (current :: l) !! S i = Some y → head (parents x) = Some y) ∧
    (∀ x, last (current :: l) = Some x →
       head (parents x) = None ∨ ∃ p, head (parents x) = Some p ∧ (p ∈ visited ∨ p ∈ l)).
Proof.
  intros HU. revert visited current. induction fuel as [|fuel IH]; intros visited current Hw; simpl.
  - destruct (head (parents current)) as [p|] eqn:E.
    + destruct (decide (p ∈ visited)) as [Hin|Hnin].
      * exists []. split_and!; [done|constructor|set_solver|by intros [|]|].
        intros x [= <-]. right. eauto.
      * assert (p ∈ U) by (apply (HU current), head_Some_elem_of; done).
        pose proof (unseen_weight_add (λ _, 1) U visited p ltac:(done) Hnin). simpl in *. lia.
    + exists []. split_and!; [done|constructor|set_solver|by intros [|]|]. intros x [= <-]. by left.
  - destruct (head (parents current)) as [p|] eqn:E.
    2: { exists []. split_and!; [done|constructor|set_solver|by intros [|]|]. intros x [= <-]. by left. }
    destruct (decide (p ∈ visited)) as [Hin|Hnin].
    { exists []. split_and!; [done|constructor|set_solver|by intros [|]|].
      intros x [= <-]. right. eauto. }
    assert (p ∈ U) by (apply (HU current), head_Some_elem_of; done).
    pose proof (unseen_weight_add (λ _, 1) U visited p ltac:(done) Hnin).
    destruct (IH ({[p]} ∪ visited) p) as (l & -> & Hnd & Hv & Hlink & Hlast); [simpl in *; lia|].
    exists (p :: l). split_and!; [done| | | |].
    + constructor; [|done]. intros Hp. specialize (Hv p Hp). set_solver.
    + intros x [->|Hx]%elem_of_cons; [done|]. specialize (Hv x Hx). set_solver.
    + intros [|i] x y; simpl; [intros [= <-] [= <-]; done|]. apply Hlink.
    + intros x Hx. rewrite last_cons_cons in Hx. destruct (Hlast x Hx) as [?|(q & Hq & Hq')]; [by left|].
      right. exists q. split; [done|]. set_solver.
Qed.

(** *** [levels] *)

Lemma visit_spec seen out next level seen' out' next' :
  foldl visit (seen, out, next) level = (seen', out', next') →
  ∃ new, out' = (out ++ new) ∧ NoDup new ∧
    (∀ x, x ∈ new ↔ x ∈ level ∧ x ∉ seen) ∧
    (∀ x, x ∈ seen' ↔ x ∈ seen ∨ x ∈ level) ∧
    (∀ y, y ∈ next' → y ∈ next ∨ ∃ x, x ∈ new ∧ y ∈ parents x) ∧
    (∀ y, y ∈ next → y ∈ next') ∧
    (∀ x y, x ∈ new → y ∈ parents x → y ∈ seen' ∨ y ∈ next').
Proof.
  revert seen out next. induction level as [|p level IH]; intros seen out next; simpl.
  { intros [= <- <- <-]. exists []. rewrite app_nil_r.
    split_and!; [done|constructor|set_solver..]. }
  case_decide as Hp; intros Hf; apply IH in Hf as (new & -> & Hnd & H1 & H2 & H3 & H4 & H5).
  - exists new. split_and!; [done|done|set_solver..].
  - exists (p :: new). split_and!.
    + by rewrite <- app_assoc.
    + constructor; [|done]. rewrite H1. set_solver.
    + intros x. rewrite elem_of_cons, H1. destruct (decide (x = p)); set_solver.
    + intros x. rewrite H2. set_solver.
    + intros y Hy. apply H3 in Hy as [Hy|(x & Hx & Hy)]; [|right; exists x; set_solver].
      apply elem_of_app in Hy as [?|Hy]; [by left|]. apply list_elem_of_filter in Hy as [_ Hy].
      right. exists p. set_solver.
    + intros y Hy. apply H4, elem_of_app. by left.
    + intros x y [->|Hx]%elem_of_cons Hy; [|by eapply H5].
      destruct (decide (y ∈ {[p]} ∪ seen)) as [Hs|Hs]; [left; apply H2; set_solver|].
      right. apply H4, elem_of_app. right. by apply list_elem_of_filter.
Qed.

Lemma elem_of_sorted_set x l : x ∈ sorted_set l ↔ x ∈ l.
Proof. unfold sorted_set. by rewrite elem_of_sort_by, elem_of_remove_dups. Qed.

Lemma sorted_set_nil l : sorted_set l = [] ↔ l = [].
Proof.
  split; [|by intros ->]. intros H. destruct l as [|x l]; [done|].
  assert (x ∈ sorted_set (x :: l)) as Hx by (apply elem_of_sorted_set; by left).
  rewrite H in Hx. by apply elem_of_nil in Hx.
Qed.

Lemma levels_spec U fuel seen level :
  (∀ x, x ∈ level → x ∈ U) → (∀ x y, y ∈ parents x → y ∈ U) →
  unseen_weight (λ _, 1) U seen < fuel →
  (∀ x y, x ∈ seen → y ∈ parents x → y ∈ seen ∨ y ∈ level) →
  ∃ l, levels fuel seen level = Some l ∧ NoDup l ∧
    (∀ x, x ∈ l → x ∉ seen ∧ ∃ r, r ∈ level ∧ rtc (edge_rel parents) r x) ∧
    (∀ x, x ∈ level → x ∈ seen ∨ x ∈ l) ∧
    (∀ x y, x ∈ seen ∨ x ∈ l → y ∈ parents x → y ∈ seen ∨ y ∈ l).
Proof.
  intros Hlev HU. revert seen level Hlev.
  induction fuel as [|fuel IH]; intros seen level Hlev Hw Hcl; [lia|].
  destruct level as [|p0 level0].
  { exists []. simpl. split_and!; [done|constructor|set_solver..]. }
  cbn [levels]. set (level := p0 :: level0) in *.
  destruct (foldl visit (seen, [], []) level) as [[seen' out] next] eqn:Hf.
  apply visit_spec in Hf as (new & -> & Hnd & H1 & H2 & H3 & _ & H5). simpl.
  assert (Hstop : new = [] → next = []).
  { intros ->. destruct next as [|y next]; [done|].
    destruct (H3 y) as [Hy|(x & Hx & _)]; [by left|set_solver..]. }
  destruct (decide (new = [])) as [->|Hne].
  - rewrite (Hstop eq_refl). exists []. split; [by destruct fuel|]. split_and!; [constructor|set_solver| |].
    + intros x Hx. left. destruct (decide (x ∈ seen)); [done|]. exfalso. apply (not_elem_of_nil x), H1. done.
    + intros x y [Hx|Hx] Hy; [|set_solver]. destruct (Hcl x y Hx Hy) as [?|Hy']; [by left|].
      left. destruct (decide (y ∈ seen)); [done|]. exfalso. apply (not_elem_of_nil y), H1. done.
  - assert (unseen_weight (λ _, 1) U seen' < unseen_weight (λ _, 1) U seen) as Hdec.
    { destruct new as [|x new]; [done|]. destruct (H1 x) as [[Hx Hxs] _]; [by left|].
      pose proof (unseen_weight_add (λ _, 1) U seen x (Hlev x Hx) Hxs) as Ha.
      pose proof (unseen_weight_mono (λ _, 1) U ({[x]} ∪ seen) seen') as Hm. simpl in Ha.
      assert ({[x]} ∪ seen ⊆ seen') as Hsub by (intros z Hz; apply H2; set_solver).
      specialize (Hm Hsub). lia. }
    destruct (IH seen' (sorted_set next)) as (l & -> & Hndl & K1 & K2 & K3).
    + intros x Hx. rewrite elem_of_sorted_set in Hx. apply H3 in Hx as [Hx|(z & _ & Hz)]; [set_solver|eauto].
    + lia.
    + intros x y Hx Hy. rewrite elem_of_sorted_set. apply H2 in Hx as [Hx|Hx].
      * left. apply H2. destruct (Hcl x y Hx Hy); auto.
      * destruct (decide (x ∈ seen)) as [Hs|Hs].
        -- left. apply H2. destruct (Hcl x y Hs Hy); auto.
        -- apply (H5 x); [by apply H1|done].
    + exists (new ++ l). split; [done|]. split_and!.
      * apply NoDup_app. split_and!; [done| |done]. intros x Hx Hl. apply K1 in Hl as [Hl _].
        apply Hl, H2. apply H1 in Hx. naive_solver.
      * intros x [Hx|Hx]%elem_of_app.
        -- apply H1 in Hx as [Hx Hs]. split; [done|]. exists x. split; [done|reflexivity].
        -- apply K1 in Hx as (Hs & r & Hr & Hrx). split; [intros ?; apply Hs, H2; by left|].
           rewrite elem_of_sorted_set in Hr. apply H3 in Hr as [Hr|(z & Hz & Hr)]; [set_solver|].
           apply H1 in Hz as [Hz _]. exists z. split; [done|]. by eapply rtc_l.
      * intros x Hx. destruct (decide (x ∈ seen)); [by left|]. right. apply elem_of_app. left. by apply H1.
      * assert (Hs : ∀ z, z ∈ seen' ∨ z ∈ l → z ∈ seen ∨ z ∈ (new ++ l)).
        { intros z [Hz|Hz]; [|right; apply elem_of_app; by right].
          apply H2 in Hz as [?|Hz]; [by left|]. destruct (decide (z ∈ seen)); [by left|].
          right. apply elem_of_app. left. by apply H1. }
        intros x y Hx Hy. apply Hs, (K3 x y); [|done].
        destruct Hx as [Hx|[Hx|Hx]%elem_of_app]; [left; apply H2; by left| |by right].
        left. apply H2. right. by apply H1 in Hx as [? _].
Qed.

(** Started on the parents of a vertex, the levels are its proper ancestors. *)
Lemma levels_ancestors U root :
  (∀ x y, y ∈ parents x → y ∈ U) →
  ∃ l, levels (S (S (length U))) ∅ (sort_by String.leb (parents root)) = Some l ∧ NoDup l ∧
       ∀ x, x ∈ l ↔ tc (edge_rel parents) root x.
Proof.
  intros HU. destruct (levels_spec U (S (S (length U))) ∅ (sort_by String.leb (parents root)))
    as (l & Hl & Hnd & K1 & K2 & K3).
  - intros x Hx. rewrite elem_of_sort_by in Hx. eauto.
  - done.
  - pose proof (unseen_weight_ones U ∅). lia.
  - set_solver.
  - exists l. split_and!; [done|done|]. intros x. split.
    + intros (_ & r & Hr & Hrx)%K1. rewrite elem_of_sort_by in Hr. eapply tc_rtc_r; [by apply tc_once|done].
    + intros Ht. assert (∀ r, r ∈ parents root → r ∈ l) as Hroot.
      { intros r Hr. destruct (K2 r); [by rewrite elem_of_sort_by|set_solver|done]. }
      revert x Ht. apply (tc_ind_r (λ x, x ∈ l)); [done|].
      intros y z _ Hyz Hy. destruct (K3 y z); [by right|done|set_solver|done].
Qed.
End Chains.

(** ** The queries *)

Section Queries.
Context `{YamlLib} {G : Type} `{NxLaws ContentNode EdgeAttrs G}.
Implicit Types (g : ContentGraph G) (n : ContentNode).

Definition vertices g : list string := (nx_nodes (cg_g g)).*1.

(** Sources of the in-edges of [k] that pass a test, in the order they are reported. *)
Definition sources_where (p : string → EdgeType → bool) g (k : string) : list string :=
  (λ x, x.1.1) <$> filter (λ x, p x.1.1 (ea_type x.2) = true) (nx_in_edges (cg_g g) k).

Definition contains_parents g (k : string) : list string :=
  sources_where (λ _ t, bool_decide (t = CONTAINS)) g k.

Definition positional_parents g (k : string) : list string :=
  sources_where (λ src t, is_positional_edge g src k t) g k.

(** [ancestors] *)
Definition ancestors g (k : string) : list ContentNode :=
  omap (get_node g) (default [] (climb (contains_parents g) (length (vertices g)) ∅ k)).

Definition targets g (k : string) (t : EdgeType) : list string := (edges_from g k (Some t)).*1.

(** What [play_scoped_node_ids] pushes for a popped vertex. *)
Definition scope_successors g (k : string) : list string :=
  targets g k CONTAINS ++ targets g k INCLUDE ++ targets g k IMPORT ++
  match get_node g k with
  | Some n =>
    if bool_decide (node_type n ∈ [PLAY; ROLE]) then
      filter (λ t, node_type <$> get_node g t = Some ROLE)
        (targets g k DEPENDENCY)
    else []
  | None => []
  end.

Definition play_scoped_node_ids g (play_id : string) : gset string :=
  default ∅ (walk_pop (scope_successors g)
    (S (sum_list ((λ x, length (scope_successors g x)) <$> vertices g))) [play_id] ∅).

(** The sorted parents among which [positional_ancestors] takes the first. *)
Definition scoped_parents g (scope : option (gset string)) (k : string) : list string :=
  let parents := sort_by String.leb (positional_parents g k) in
  match scope with
  | Some s => filter (λ p, p ∈ s) parents
  | None => parents
  end.

Definition positional_ancestors g (k : string) (play_context_id : option string)
    (play_scope : option (gset string)) : list ContentNode :=
  let scope :=
    match play_scope, play_context_id with
    | None, Some p => Some (play_scoped_node_ids g p)
    | _, _ => play_scope
    end in
  omap (get_node g) (default [] (climb (scoped_parents g scope) (length (vertices g)) ∅ k)).

Definition parents_in g (scope : gset string) (k : string) : list string :=
  filter (λ p, p ∈ scope) (positional_parents g k).

Definition play_scoped_ancestor_ids g (k : string) (scope : gset string) : list string :=
  default [] (levels (parents_in g scope) (S (S (length (vertices g)))) ∅
                (sort_by String.leb (parents_in g scope k))).

Definition play_scoped_positional_ancestors g (k : string) (scope : gset string)
    : list ContentNode :=
  omap (get_node g) (play_scoped_ancestor_ids g k scope).

Definition positional_ancestor_ids g (k : string) : gset string :=
  default ∅ (walk_push (positional_parents g) (S (length (vertices g))) [k] ∅).

Definition children g (k : string) : list ContentNode :=
  sort_by (λ a b, (m_line_start (nd_meta a) <=? m_line_start (nd_meta b))%Z)
    (omap (get_node g) (targets g k CONTAINS)).

Definition structural_descendants g (k : string) : gset string :=
  if decide (nx_mem k (cg_g g)) then
    default ∅ (walk_push (λ x, targets g x CONTAINS) (S (length (vertices g))) [k] ∅)
  else ∅.

(** *** The relations the queries explore *)

(** A positional edge. *)
Definition pos_edge g (u v : string) : Prop :=
  ∃ e, (u, v, e) ∈ nx_edges (cg_g g) ∧ is_positional_edge g u v (ea_type e) = true.

Definition contains_edge_of g (u v : string) : Prop :=
  ∃ e, (u, v, e) ∈ nx_edges (cg_g g) ∧ ea_type e = CONTAINS.

Lemma edge_vertices g u v e :
  (u, v, e) ∈ nx_edges (cg_g g) → u ∈ vertices g ∧ v ∈ vertices g.
Proof. apply nx_edges_mem. Qed.

Lemma elem_of_targets g k t x :
  x ∈ targets g k t ↔ ∃ e, (k, x, e) ∈ nx_edges (cg_g g) ∧ ea_type e = t.
Proof.
  unfold targets, edges_from. case_decide as Hm.
  - rewrite <- list_fmap_compose, list_elem_of_fmap. split.
    + intros ([[u v] e] & -> & Hin). apply list_elem_of_filter in Hin as [Ht Hin]. simpl in *.
      apply elem_of_out_edges in Hin as [-> Hin]; [|done]. apply bool_decide_eq_true in Ht. eauto.
    + intros (e & Hin & Ht). exists (k, x, e). split; [done|]. apply list_elem_of_filter.
      split; [by apply bool_decide_eq_true|]. by apply elem_of_out_edges.
  - split; [set_solver|]. intros (e & Hin & _). apply nx_edges_mem in Hin as [? _]. done.
Qed.

Lemma elem_of_sources p g k x :
  nx_mem k (cg_g g) →
  x ∈ sources_where p g k ↔ ∃ e, (x, k, e) ∈ nx_edges (cg_g g) ∧ p x (ea_type e) = true.
Proof.
  intros Hm. unfold sources_where. rewrite list_elem_of_fmap. split.
  - intros ([[u v] e] & -> & Hin). apply list_elem_of_filter in Hin as [Hp Hin].
    apply elem_of_in_edges in Hin as [-> Hin]; [|done]. eauto.
  - intros (e & Hin & Hp). exists (x, k, e). split; [done|]. apply list_elem_of_filter.
    split; [done|]. by apply elem_of_in_edges.
Qed.

Lemma elem_of_positional_parents g k x :
  nx_mem k (cg_g g) → x ∈ positional_parents g k ↔ pos_edge g x k.
Proof. intros Hm. unfold positional_parents. by rewrite elem_of_sources. Qed.

(** The edges a play scope follows are exactly the positional ones. *)
Lemma elem_of_scope_successors g k x : x ∈ scope_successors g k ↔ pos_edge g k x.
Proof.
  unfold scope_successors, pos_edge. rewrite !elem_of_app, !elem_of_targets. split.
  - intros [(e & Hin & Ht)|[(e & Hin & Ht)|[(e & Hin & Ht)|Hd]]];
      [exists e; split; [done|]; by rewrite Ht..|].
    destruct (get_node g k) as [n|] eqn:Hn; [|set_solver].
    case_bool_decide as Hty; [|set_solver].
    apply list_elem_of_filter in Hd as [Hr (e & Hin & Ht)%elem_of_targets].
    exists e. split; [done|]. rewrite Ht. simpl. rewrite Hn.
    destruct (get_node g x) as [m|]; [|done]. simpl in Hr. simplify_eq.
    by rewrite !bool_decide_true.
  - intros (e & Hin & Hp). destruct (ea_type e) eqn:Ht; try done; eauto 10.
    do 3 right. simpl in Hp. destruct (get_node g k) as [n|]; [|done].
    destruct (get_node g x) as [m|] eqn:Hm; [|done]. apply andb_prop in Hp as [H1' H2'].
    rewrite H1'. apply list_elem_of_filter. rewrite Hm.
    split; [simpl; f_equal; by apply bool_decide_eq_true in H2'|]. apply elem_of_targets. eauto.
Qed.

Lemma scope_edge_rel g : ∀ u v, edge_rel (scope_successors g) u v ↔ pos_edge g u v.
Proof. intros. apply elem_of_scope_successors. Qed.

Lemma pos_edge_vertices g u v : pos_edge g u v → u ∈ vertices g ∧ v ∈ vertices g.
Proof. intros (e & Hin & _). by eapply edge_vertices. Qed.

Lemma play_scoped_reachable g p x : x ∈ play_scoped_node_ids g p ↔ rtc (pos_edge g) p x.
Proof.
  unfold play_scoped_node_ids.
  destruct (walk_pop_reachable (scope_successors g) (vertices g) p) as (s & -> & Hs).
  - intros y Hy. destruct (scope_successors g y) as [|z l] eqn:E; [done|].
    assert (z ∈ scope_successors g y) as Hz by (rewrite E; by left).
    apply elem_of_scope_successors, pos_edge_vertices in Hz. by destruct Hz.
  - simpl. rewrite Hs. split; apply rtc_subrel; intros; by apply scope_edge_rel.
Qed.

(** Parents of vertices that are not in the graph are not constrained; a walk that
    starts in the graph never meets one. *)
Lemma tc_parents (R : relation string) (parents : string → list string) (V : string → Prop) k x :
  V k → (∀ a b, V a → (b ∈ parents a ↔ R b a)) → (∀ a b, R a b → V a) →
  tc (edge_rel parents) k x ↔ tc R x k.
Proof.
  intros Hk Hp HV. split.
  - revert x. apply (tc_ind_r (λ x, tc R x k)).
    + intros y Hy. apply tc_once. by apply Hp.
    + intros y z _ Hz Hy. assert (V y) as Hv by (inversion Hy; subst; eauto).
      eapply tc_l; [|exact Hy]. by apply Hp.
  - induction 1 as [a b Hab|a b c Hab Hbc IH]; [apply tc_once; by apply Hp|].
    eapply tc_r; [by apply IH|]. assert (V b) by (inversion Hbc; subst; eauto). by apply Hp.
Qed.

Lemma sources_vertices p g k x : x ∈ sources_where p g k → x ∈ vertices g.
Proof.
  unfold sources_where. intros ([[u v] e] & -> & Hin)%list_elem_of_fmap.
  apply list_elem_of_filter in Hin as [_ Hin%nx_in_edges_sub]. by apply edge_vertices in Hin as [? _].
Qed.

(** Reading ancestors off the parents, when the walk starts in the graph. *)
Lemma tc_positional_parents g (V : string → Prop) (parents : string → list string) k x :
  k ∈ vertices g → V k →
  (∀ a b, b ∈ parents a ↔ b ∈ positional_parents g a ∧ V b) →
  tc (edge_rel parents) k x ↔ tc (λ a b, pos_edge g a b ∧ V a) x k.
Proof.
  intros Hk HVk Hp. apply (tc_parents _ _ (λ a, a ∈ vertices g)); [done| |].
  - intros a b Ha. by rewrite Hp, elem_of_positional_parents.
  - intros a b [Hab _]. by apply pos_edge_vertices in Hab as [? _].
Qed.

Lemma positional_ancestor_reachable g k x :
  nx_mem k (cg_g g) → x ∈ positional_ancestor_ids g k ↔ tc (pos_edge g) x k.
Proof.
  intros Hk. unfold positional_ancestor_ids.
  destruct (walk_push_reachable (positional_parents g) (vertices g) k) as (s & -> & Hs).
  { intros a b. apply sources_vertices. }
  simpl. rewrite Hs, (tc_positional_parents g (λ _, True)); [|done..|naive_solver].
  split; apply (tc_congruence id); naive_solver.
Qed.

(** *** Frame: node operations do not move the structure *)

Lemma graph_steps_positional A g g' u v t :
  graph_steps A g g' → is_positional_edge g' u v t = is_positional_edge g u v t.
Proof.
  intros Hs. assert (Hty : ∀ k, node_type <$> get_node g' k = node_type <$> get_node g k).
  { intros k. pose proof (gs_nodes _ _ _ Hs k) as N. destruct N as [n n' HN|]; [|done]. simpl.
    apply node_steps_frame in HN as (HN & _). unfold node_type. by rewrite HN. }
  pose proof (Hty u) as Hu. pose proof (Hty v) as Hv. unfold is_positional_edge.
  destruct t; try done.
  destruct (get_node g' u), (get_node g u); try done;
    destruct (get_node g' v), (get_node g v); try done.
  by injection Hu as ->; injection Hv as ->.
Qed.

Lemma graph_steps_positional_parents A g g' k :
  graph_steps A g g' → positional_parents g' k = positional_parents g k.
Proof.
  intros Hs. unfold positional_parents, sources_where. rewrite (gs_in _ _ _ Hs). f_equal.
  apply list_filter_iff. intros x. by rewrite (graph_steps_positional A g g').
Qed.

Lemma walk_push_ext (s1 s2 : string → list string) fuel st seen :
  (∀ x, s1 x = s2 x) → walk_push s1 fuel st seen = walk_push s2 fuel st seen.
Proof.
  intros He. revert st seen. induction fuel as [|fuel IH]; intros [|c st] seen; simpl; try done.
  rewrite He. case_match. apply IH.
Qed.

Lemma graph_steps_ancestors A g g' k :
  graph_steps A g g' → positional_ancestor_ids g' k = positional_ancestor_ids g k.
Proof.
  intros Hs. unfold positional_ancestor_ids, vertices. rewrite (gs_vertices _ _ _ Hs).
  f_equal. apply walk_push_ext. intros x. by eapply graph_steps_positional_parents.
Qed.

(** ** Properties *)

(** The scope of a play is exactly what its positional edges reach, and it is the
    converse of the ancestor query: a vertex is in the scope of a play when it is the
    play or has the play among its positional ancestors. *)
Theorem play_scope_exact g p x :
  nx_mem x (cg_g g) →
  (x ∈ play_scoped_node_ids g p ↔ rtc (pos_edge g) p x) ∧
  (x ∈ play_scoped_node_ids g p ↔ x = p ∨ p ∈ positional_ancestor_ids g x).
Proof.
  intros Hx. split; [apply play_scoped_reachable|].
  rewrite play_scoped_reachable, positional_ancestor_reachable by done. split.
  - intros [->|Ht]%rtc_tc; auto.
  - intros [->|Ht]; [reflexivity|by apply tc_rtc].
Qed.

(** The structural descendants of a vertex are exactly the vertices that one or
    more [CONTAINS] edges lead to, and there are none for an absent vertex. *)
Theorem structural_descendants_exact g k x :
  x ∈ structural_descendants g k ↔ tc (contains_edge_of g) k x.
Proof.
  unfold structural_descendants. case_decide as Hk.
  - destruct (walk_push_reachable (λ x, targets g x CONTAINS) (vertices g) k) as (s & -> & Hs).
    { intros a b (e & Hin & _)%elem_of_targets. by apply edge_vertices in Hin as [_ ?]. }
    simpl. rewrite Hs. split; apply (tc_congruence id); intros a b; apply elem_of_targets.
  - split; [set_solver|]. intros Ht. exfalso. apply Hk.
    inversion Ht as [? ? (e & Hin & _)|? ? ? (e & Hin & _)]; subst; by apply nx_edges_mem in Hin as [? _].
Qed.

(** Inside a play scope, the merged ancestor query lists every ancestor reachable
    through parents of the scope exactly once and nothing else. *)
Theorem play_scoped_ancestors_exact g k scope :
  nx_mem k (cg_g g) → k ∈ scope →
  NoDup (play_scoped_ancestor_ids g k scope) ∧
  ∀ x, x ∈ play_scoped_ancestor_ids g k scope ↔ tc (λ a b, pos_edge g a b ∧ a ∈ scope) x k.
Proof.
  intros Hk Hin. unfold play_scoped_ancestor_ids.
  destruct (levels_ancestors (parents_in g scope) (vertices g) k) as (l & -> & Hnd & Hl).
  { intros a b [_ Hb]%list_elem_of_filter. by eapply sources_vertices. }
  split; [done|]. intros x. simpl. rewrite Hl.
  apply (tc_positional_parents g (λ a, a ∈ scope)); [done..|].
  intros a b. unfold parents_in. rewrite list_elem_of_filter. tauto.
Qed.

(** The [CONTAINS] chain above a node ends (cycles included), visits no node
    twice, follows one containment edge at a time, and stops only where there is no
    parent or the parent was visited. *)
Theorem ancestors_chain g k :
  ∃ ids, ancestors g k = omap (get_node g) ids ∧ NoDup ids ∧
    (∀ i x y, (k :: ids) !! i = Some x → (k :: ids) !! S i = Some y → nx_mem x (cg_g g) →
       contains_edge_of g y x) ∧
    (∀ x, last (k :: ids) = Some x → nx_mem x (cg_g g) →
       (∀ y, contains_edge_of g y x → ∃ p, contains_edge_of g p x ∧ p ∈ ids)).
Proof.
  unfold ancestors.
  destruct (climb_spec (contains_parents g) (vertices g) (length (vertices g)) ∅ k)
    as (ids & -> & Hnd & _ & Hlink & Hlast).
  - intros a b. apply sources_vertices.
  - apply unseen_weight_ones.
  - assert (Hpar : ∀ x y, nx_mem x (cg_g g) → y ∈ contains_parents g x ↔ contains_edge_of g y x).
    { intros x y Hx. unfold contains_parents. rewrite elem_of_sources by done.
      unfold contains_edge_of. by setoid_rewrite bool_decide_eq_true. }
    exists ids. split_and!; [done|done| |].
    + intros i x y Hx Hy Hm. apply Hpar; [done|]. apply head_Some_elem_of. by eapply Hlink.
    + intros x Hx Hm y Hy. apply Hpar in Hy; [|done].
      destruct (Hlast x Hx) as [Hn|(p & Hp & Hv)].
      * destruct (contains_parents g x); [set_solver|done].
      * exists p. split; [|set_solver]. apply Hpar; [done|]. by apply head_Some_elem_of.
Qed.
End Queries.

(** ** Witnesses *)

Lemma play_scope_exact_witness : task_id ∈ play_scoped_node_ids sample_graph play_id.
Proof.
  apply (play_scope_exact (G := SG) sample_graph play_id task_id).
  - apply (bool_decide_unpack _). vm_compute. exact I.
  - right. vm_compute. reflexivity.
Defined.

Lemma structural_descendants_exact_witness :
  tc (contains_edge_of sample_graph) play_id task2_id.
Proof. apply (structural_descendants_exact (G := SG)). vm_compute. reflexivity. Defined.

Lemma play_scoped_ancestors_exact_witness :
  tc (λ a b, pos_edge sample_graph a b ∧ a ∈ ({[play_id; task_id]} : gset string)) play_id task_id.
Proof.
  apply (play_scoped_ancestors_exact (G := SG) sample_graph task_id {[play_id; task_id]}).
  - apply (bool_decide_unpack _). vm_compute. exact I.
  - apply (bool_decide_unpack _). vm_compute. exact I.
  - vm_compute. constructor.
Defined.

Lemma ancestors_chain_witness :
  ∃ ids, ancestors sample_graph task_id = omap (get_node sample_graph) ids ∧ NoDup ids.
Proof.
  destruct (ancestors_chain (G := SG) sample_graph task_id) as (ids & Hi & Hn & _).
  exists ids. split; [exact Hi|exact Hn].
Defined.
