(* ===== verification/GraphSerial.v ===== *)
(** * Serialization of the content graph

    [to_dict], [from_dict] and [execution_edges] of [ContentGraph], and the node
    serialization helpers, of [src/apme_engine/graph/content_graph.py].

    A serialized graph is a [YAMLDict].  Reading back, [Malformed] is the [ValueError] of
    [from_dict]; the code does not check the types of the plain fields, and a payload in
    which one of them has another type than the class declares is outside the model
    ([Untyped]). *)

From stdpp Require Import base list gmap strings pretty.
From Stdlib Require Import Ascii String.
From S2P Require Import Prelude PyStr Yaml PyNum Violation NxGraph ContentNode ContentGraph GraphLaws Sample GraphQueries.

#[local] Open Scope string_scope.
#[local] Notation length := List.length.

Inductive load_error := Malformed | Untyped.

Definition res (A : Type) : Type := load_error + A.

Definition rbind {A B} (x : res A) (f : A → res B) : res B :=
  match x with inl e => inl e | inr a => f a end.

Declare Scope res_scope.
Delimit Scope res_scope with res.
Notation "x <- e ; f" := (rbind e (λ x, f))
  (at level 100, e at next level, f at level 200, right associativity) : res_scope.

#[local] Open Scope res_scope.

Lemma rbind_inr {A B} (a : A) (f : A → res B) : rbind (inr a) f = f a.
Proof. done. Qed.

Fixpoint rmap {A B} (f : A → res B) (l : list A) : res (list B) :=
  match l with
  | [] => inr []
  | x :: l' => y <- f x; ys <- rmap f l'; inr (y :: ys)
  end.

Lemma rmap_roundtrip {A B} (to : A → B) (from : B → res A) l :
  (∀ x, x ∈ l → from (to x) = inr x) → rmap from (to <$> l) = inr l.
Proof.
  induction l as [|x l IH]; intros Hl; csimpl; [done|]. rewrite Hl by (by left). simpl.
  rewrite IH; [done|]. intros y Hy. apply Hl. by right.
Qed.

(** ** Enumerations by value *)

Definition node_type_value (t : NodeType) : string :=
  match t with
  | PLAYBOOK => "playbook" | PLAY => "play" | ROLE => "role" | TASKFILE => "taskfile"
  | TASK => "task" | HANDLER => "handler" | BLOCK => "block" | MODULE => "module"
  | MODULE_UTILS => "module_utils" | FILTER_PLUGIN => "filter_plugin"
  | ACTION_PLUGIN => "action_plugin" | LOOKUP_PLUGIN => "lookup_plugin" | VARS_FILE => "vars_file"
  | COLLECTION => "collection" | RULEBOOK => "rulebook" | RULESET => "ruleset"
  end.

Definition node_types : list NodeType :=
  [PLAYBOOK; PLAY; ROLE; TASKFILE; TASK; HANDLER; BLOCK; MODULE; MODULE_UTILS; FILTER_PLUGIN;
   ACTION_PLUGIN; LOOKUP_PLUGIN; VARS_FILE; COLLECTION; RULEBOOK; RULESET].

Definition edge_type_value (t : EdgeType) : string :=
  match t with
  | IMPORT => "import" | INCLUDE => "include" | NOTIFY => "notify" | LISTEN => "listen"
  | DEPENDENCY => "dependency" | DATA_FLOW => "data_flow" | RESCUE => "rescue" | ALWAYS => "always"
  | INVOKES => "invokes" | PY_IMPORTS => "py_imports" | VARS_INCLUDE => "vars_include"
  | CONTAINS => "contains"
  end.

Definition edge_types : list EdgeType :=
  [IMPORT; INCLUDE; NOTIFY; LISTEN; DEPENDENCY; DATA_FLOW; RESCUE; ALWAYS; INVOKES; PY_IMPORTS;
   VARS_INCLUDE; CONTAINS].

Definition scope_value (s : NodeScope) : string :=
  match s with OWNED => "owned" | REFERENCED => "referenced" end.

Definition status_value (s : status) : string :=
  match s with
  | Open => "open" | Fixed => "fixed" | PendingReview => "pending_review" | Proposed => "proposed"
  | Declined => "declined" | AiAbstained => "ai_abstained"
  end.

Definition statuses : list status := [Open; Fixed; PendingReview; Proposed; Declined; AiAbstained].

(** [EnumClass(x)] *)
Definition enum_of {A} (value : A → string) (members : list A) (x : yval) : option A :=
  match x with YStr s => find (λ a, String.eqb (value a) s) members | _ => None end.

(** ** Typed fields *)

Class Field (A : Type) := {
  fto : A → yval;
  ffrom : yval → res A;
  ffrom_fto a : ffrom (fto a) = inr a;
}.

#[export] Instance field_str : Field string := {|
  fto := YStr;
  ffrom x := match x with YStr s => inr s | _ => inl Untyped end;
  ffrom_fto a := eq_refl;
|}.

#[export] Instance field_yval : Field yval := {| fto x := x; ffrom := inr; ffrom_fto a := eq_refl |}.

#[export] Instance field_Z : Field Z := {|
  fto := YInt;
  ffrom x := match x with YInt z => inr z | _ => inl Untyped end;
  ffrom_fto a := eq_refl;
|}.

#[export] Instance field_nat : Field nat.
Proof.
  refine {|
  fto n := YInt (Z.of_nat n);
  ffrom x := match x with
             | YInt z => if (z <? 0)%Z then inl Untyped else inr (Z.to_nat z)
             | _ => inl Untyped
             end
  |}.
  intros n. simpl. destruct (Z.ltb_spec (Z.of_nat n) 0) as [?|?]; [lia|]. by rewrite Nat2Z.id.
Defined.

#[export] Instance field_bool : Field bool := {|
  fto := YBool;
  ffrom x := match x with YBool b => inr b | _ => inl Untyped end;
  ffrom_fto a := eq_refl;
|}.

#[export] Instance field_dict : Field YAMLDict := {|
  fto := YDict;
  ffrom x := match x with YDict d => inr d | _ => inl Untyped end;
  ffrom_fto a := eq_refl;
|}.

#[export] Instance field_strs : Field (list string).
Proof.
  refine {|
  fto l := YList (YStr <$> l);
  ffrom x := match x with YList l => rmap ffrom l | _ => inl Untyped end
  |}.
  intros l. simpl. by apply rmap_roundtrip.
Defined.

(** [T | None], for a [T] that is not serialized as [null]. *)
Class NotNull (A : Type) `{Field A} : Prop := fto_not_null a : fto a ≠ YNull.

#[export] Instance str_not_null : NotNull string. Proof. done. Qed.
#[export] Instance bool_not_null : NotNull bool. Proof. done. Qed.
#[export] Instance dict_not_null : NotNull YAMLDict. Proof. done. Qed.

#[export] Instance field_opt {A} `{NotNull A} : Field (option A).
Proof.
  refine {|
  fto o := match o with Some a => fto a | None => YNull end;
  ffrom x := match x with YNull => inr None | _ => a <- ffrom x; inr (Some a) end
  |}.
  intros [a|]; simpl; [|done]. pose proof (fto_not_null a).
  pose proof (ffrom_fto a) as Ha. destruct (fto a); try done; by rewrite Ha.
Defined.

#[export] Instance field_when : Field when_expr.
Proof.
  refine {|
  fto w := match w with WhenNone => YNull | WhenStr s => YStr s | WhenList l => fto l end;
  ffrom x := match x with
             | YNull => inr WhenNone
             | YStr s => inr (WhenStr s)
             | _ => l <- ffrom x; inr (WhenList l)
             end
  |}.
  intros [|s|l]; simpl; [done|done|]. rewrite rmap_roundtrip; [done|]. done.
Defined.

(** Values of a violation dictionary. *)
#[export] Instance field_vval : Field vval.
Proof.
  refine {|
  fto v := match v with
           | VNone => YNull | VBool b => YBool b | VInt z => YInt z
           | VInts l => YList (YInt <$> l) | VStr s => YStr s
           end;
  ffrom x := match x with
             | YNull => inr VNone | YBool b => inr (VBool b) | YInt z => inr (VInt z)
             | YStr s => inr (VStr s)
             | YList l => zs <- rmap ffrom l; inr (VInts zs)
             | _ => inl Untyped
             end
  |}.
  intros [| | |l|]; simpl; try done. rewrite rmap_roundtrip; [done|]. done.
Defined.

#[export] Instance field_violation : Field ViolationDict.
Proof.
  refine {|
  fto v := YDict (prod_map Datatypes.id fto <$> v);
  ffrom x := match x with
             | YDict d => rmap (λ p, v <- ffrom (A := vval) p.2; inr (p.1, v)) d
             | _ => inl Untyped
             end
  |}.
  intros v. cbv beta iota. apply rmap_roundtrip. intros [k x] _.
  unfold prod_map. cbn [fst snd]. by rewrite (ffrom_fto x).
Defined.

(** A field of a dictionary with the default of its class. *)
Definition get_field {A} `{Field A} (d : YAMLDict) (k : string) (dflt : A) : res A :=
  match dget k d with None => inr dflt | Some x => ffrom x end.

(** ** Python coercions *)

(** [str(d.get(k, dflt))] *)
Definition get_str (d : YAMLDict) (k dflt : string) : string :=
  match dget k d with None => dflt | Some x => ystr x end.

(** [int(x)] for a counter *)
Definition to_count (x : yval) : res nat :=
  match x with
  | YInt z => if (z <? 0)%Z then inl Untyped else inr (Z.to_nat z)
  | YBool b => inr (if b then 1 else 0)
  | YStr s => match py_int s with
              | None => inl Malformed
              | Some z => if (z <? 0)%Z then inl Untyped else inr (Z.to_nat z)
              end
  | YFloat _ => inl Untyped
  | _ => inl Malformed
  end.

Definition get_count (d : YAMLDict) (k : string) : res nat :=
  match dget k d with None => inr 0 | Some x => to_count x end.

(** ** Snapshots and ledger records *)

Definition node_state_to_dict (ns : NodeState) : YAMLDict :=
  [("id", YStr (ns_id ns)); ("pass_number", YInt (Z.of_nat (ns_pass ns))); ("phase", YStr (ns_phase ns));
   ("yaml_lines", YStr (ns_yaml ns)); ("content_hash", YStr (ns_hash ns));
   ("timestamp", YStr (ns_time ns)); ("approved", YBool (ns_approved ns)); ("source", YStr (ns_source ns))].

Definition node_state_from_dict (d : YAMLDict) : res NodeState :=
  pass <- get_count d "pass_number";
  inr (MkState (get_str d "id" "") pass (get_str d "phase" "") (get_str d "yaml_lines" "")
         (get_str d "content_hash" "") (get_str d "timestamp" "")
         (match dget "approved" d with Some x => ytruthy x | None => false end)
         (get_str d "source" "")).

Definition opt_entry (k : string) (o : option yval) : YAMLDict :=
  match o with Some x => [(k, x)] | None => [] end.

Definition violation_record_to_dict (r : ViolationRecord) : YAMLDict :=
  ([("key", YList [YStr (vr_key r).1; YStr (vr_key r).2]); ("violation", fto (vr_violation r));
    ("status", YStr (status_value (vr_status r)));
    ("discovered_in_pass", YInt (Z.of_nat (vr_discovered r)))]
   ++ opt_entry "fixed_by" (YStr <$> vr_fixed_by r)
   ++ opt_entry "fixed_in_pass" ((λ n, YInt (Z.of_nat n)) <$> vr_fixed_in_pass r)
   ++ opt_entry "ai_reason" (YStr <$> vr_ai_reason r)
   ++ opt_entry "ai_suggestion" (YStr <$> vr_ai_suggestion r))%list.

(** [dict(x) if isinstance(x, dict) else {}] *)
Definition read_violation (x : option yval) : res ViolationDict :=
  match x with Some (YDict v) => ffrom (A := ViolationDict) (YDict v) | _ => inr [] end.

(** [int(x) if x is not None else None] *)
Definition read_opt_count (x : option yval) : res (option nat) :=
  match x with
  | None | Some YNull => inr None
  | Some x => n <- to_count x; inr (Some n)
  end.

Definition violation_record_from_dict (d : YAMLDict) : res ViolationRecord :=
  let key :=
    match dget "key" d with
    | Some (YList (a :: b :: _)) => (ystr a, ystr b)
    | _ => ("", "")
    end in
  violation <- read_violation (dget "violation" d);
  status <- match enum_of status_value statuses (YStr (get_str d "status" "open")) with
            | Some s => inr s
            | None => inl Untyped
            end;
  fixed_in <- read_opt_count (dget "fixed_in_pass" d);
  discovered <- get_count d "discovered_in_pass";
  inr (MkRecord key violation status (ystr <$> dget "fixed_by" d) fixed_in discovered
         (ystr <$> dget "ai_reason" d) (ystr <$> dget "ai_suggestion" d)).

(** ** Nodes *)

Definition simple_fields (n : ContentNode) : YAMLDict :=
  let m := nd_meta n in
  let f := nd_fields n in
  [("file_path", fto (m_file_path m)); ("line_start", fto (m_line_start m));
   ("line_end", fto (m_line_end m)); ("name", fto (f_name f)); ("module", fto (f_module f));
   ("module_options", fto (f_module_options f));
   ("resolved_module_options", fto (m_resolved_module_options m)); ("options", fto (f_options f));
   ("variables", fto (f_variables f)); ("become", fto (f_become f)); ("when_expr", fto (f_when f));
   ("tags", fto (f_tags f)); ("loop", fto (f_loop f)); ("loop_control", fto (f_loop_control f));
   ("register", fto (f_register f)); ("set_facts", fto (f_set_facts f)); ("notify", fto (f_notify f));
   ("listen", fto (f_listen f)); ("environment", fto (f_environment f)); ("no_log", fto (f_no_log f));
   ("ignore_errors", fto (f_ignore_errors f)); ("changed_when", fto (f_changed_when f));
   ("failed_when", fto (f_failed_when f)); ("delegate_to", fto (f_delegate_to f));
   ("yaml_lines", fto (nd_yaml n)); ("indent_depth", fto (nd_indent n));
   ("role_fqcn", fto (m_role_fqcn m)); ("default_variables", fto (m_default_variables m));
   ("role_variables", fto (m_role_variables m)); ("role_metadata", fto (m_role_metadata m));
   ("collection_namespace", fto (m_collection_namespace m));
   ("collection_name", fto (m_collection_name m));
   ("collection_metadata", fto (m_collection_metadata m));
   ("collection_meta_runtime", fto (m_collection_meta_runtime m));
   ("collection_files", fto (m_collection_files m)); ("module_line_count", fto (m_module_line_count m));
   ("module_functions_without_return_type", fto (m_functions_without_return_type m));
   ("collections_in_play", fto (m_collections_in_play m))].

Definition node_to_dict (slim : bool) (n : ContentNode) : YAMLDict :=
  let t := YStr (node_type_value (node_type n)) in
  ([("identity", YDict [("path", YStr (id_path (nd_identity n))); ("node_type", t)]);
    ("node_type", t); ("scope", YStr (scope_value (m_scope (nd_meta n))))]
   ++ simple_fields n
   ++ (if slim then []
       else
         opt_entry "state" (YDict ∘ node_state_to_dict <$> nd_state n)
         ++ (match nd_progression n with
             | [] => []
             | p => [("progression", YList (YDict ∘ node_state_to_dict <$> p))]
             end)
         ++ (match nd_ledger n with
             | [] => []
             | l => [("violation_ledger", YList (YDict ∘ violation_record_to_dict <$> l.*2))]
             end)))%list.

(** Entries that are dictionaries. *)
Definition dicts_of (l : list yval) : list YAMLDict :=
  omap (λ x, match x with YDict d => Some d | _ => None end) l.

Fixpoint number_states (nid : string) (i : nat) (p : list NodeState) : list NodeState :=
  match p with
  | [] => []
  | s :: p' =>
    (if decide (ns_id s = "")
     then MkState (nid +:+ "@" +:+ pretty i) (ns_pass s) (ns_phase s) (ns_yaml s) (ns_hash s)
            (ns_time s) (ns_approved s) (ns_source s)
     else s) :: number_states nid (S i) p'
  end.

Definition read_identity (d : YAMLDict) : res NodeIdentity :=
  match dget "identity" d with
  | Some (YDict raw) =>
    match dget "path" raw, dget "node_type" raw with
    | Some (YStr p), Some t =>
      match enum_of node_type_value node_types t with
      | Some t => inr (MkIdentity p t)
      | None => inl Malformed
      end
    | Some _, Some _ => inl Untyped
    | _, _ => inl Malformed
    end
  | _ => inl Malformed
  end.

Definition read_scope (d : YAMLDict) : res NodeScope :=
  match enum_of scope_value [OWNED; REFERENCED] (default (YStr "owned") (dget "scope" d)) with
  | Some s => inr s
  | None => inl Malformed
  end.

Definition read_meta (d : YAMLDict) (scope : NodeScope) : res NodeMeta :=
  file <- get_field d "file_path" ""; ls <- get_field d "line_start" 0%Z;
  le <- get_field d "line_end" 0%Z; rmo <- get_field d "resolved_module_options" [];
  rf <- get_field d "role_fqcn" ""; dv <- get_field d "default_variables" [];
  rv <- get_field d "role_variables" []; rm <- get_field d "role_metadata" [];
  cn <- get_field d "collection_namespace" ""; cm <- get_field d "collection_name" "";
  cmd <- get_field d "collection_metadata" []; cmr <- get_field d "collection_meta_runtime" [];
  cf <- get_field d "collection_files" []; mlc <- get_field d "module_line_count" 0%Z;
  fw <- get_field d "module_functions_without_return_type" [];
  cp <- get_field d "collections_in_play" [];
  inr (MkMeta file ls le scope rmo rf dv rv rm cn cm cmd cmr cf mlc fw cp).

Definition read_fields (d : YAMLDict) : res NodeFields :=
  name <- get_field d "name" None; module <- get_field d "module" "";
  mo <- get_field d "module_options" []; op <- get_field d "options" [];
  va <- get_field d "variables" []; be <- get_field d "become" None;
  wh <- get_field d "when_expr" WhenNone; ta <- get_field d "tags" [];
  lo <- get_field d "loop" YNull; lc <- get_field d "loop_control" None;
  re <- get_field d "register" None; sf <- get_field d "set_facts" [];
  no <- get_field d "notify" []; li <- get_field d "listen" [];
  en <- get_field d "environment" None; nl <- get_field d "no_log" None;
  ie <- get_field d "ignore_errors" None; cw <- get_field d "changed_when" YNull;
  fw <- get_field d "failed_when" YNull; de <- get_field d "delegate_to" None;
  inr (MkFields name module mo op va be wh ta lo lc re sf no li en nl ie cw fw de).

Definition node_from_dict (d : YAMLDict) : res ContentNode :=
  identity <- read_identity d;
  scope <- read_scope d;
  meta <- read_meta d scope;
  fields <- read_fields d;
  yaml <- get_field d "yaml_lines" "";
  indent <- get_field d "indent_depth" 0;
  state <- match dget "state" d with
           | Some (YDict s) => s <- node_state_from_dict s; inr (Some s)
           | _ => inr None
           end;
  progression <- match dget "progression" d with
                 | Some (YList l) => rmap node_state_from_dict (dicts_of l)
                 | _ => inr []
                 end;
  ledger <- match dget "violation_ledger" d with
            | Some (YList l) => rmap violation_record_from_dict (dicts_of l)
            | _ => inr []
            end;
  let prog := number_states (id_path identity) 0 progression in
  inr (MkNode identity meta fields yaml indent
         (match prog with [] => state | _ => last prog end) prog
         (foldl (λ l r, dset (vr_key r) r l) [] ledger)).

(** ** Round trips of nodes *)

Lemma get_field_fto {A} `{Field A} d k (dflt a : A) :
  dget k d = Some (fto a) → get_field d k dflt = inr a.
Proof. unfold get_field. intros ->. apply ffrom_fto. Qed.

Lemma to_count_nat n : to_count (YInt (Z.of_nat n)) = inr n.
Proof. simpl. destruct (Z.ltb_spec (Z.of_nat n) 0) as [?|?]; [lia|]. by rewrite Nat2Z.id. Qed.

Lemma node_state_roundtrip ns : node_state_from_dict (node_state_to_dict ns) = inr ns.
Proof.
  unfold node_state_from_dict.
  change (get_count (node_state_to_dict ns) "pass_number") with (to_count (YInt (Z.of_nat (ns_pass ns)))).
  rewrite to_count_nat. by destruct ns.
Qed.

Lemma enum_of_value {A} (value : A → string) members a :
  find (λ b, String.eqb (value b) (value a)) members = Some a →
  enum_of value members (YStr (value a)) = Some a.
Proof. done. Qed.

Lemma status_roundtrip s : enum_of status_value statuses (YStr (status_value s)) = Some s.
Proof. by destruct s. Qed.

Lemma node_type_roundtrip t : enum_of node_type_value node_types (YStr (node_type_value t)) = Some t.
Proof. by destruct t. Qed.

Lemma edge_type_roundtrip t : enum_of edge_type_value edge_types (YStr (edge_type_value t)) = Some t.
Proof. by destruct t. Qed.

Lemma read_violation_fto v : read_violation (Some (fto v)) = inr v.
Proof. exact (ffrom_fto v). Qed.

Lemma read_opt_count_nat o : read_opt_count ((λ n, YInt (Z.of_nat n)) <$> o) = inr o.
Proof.
  destruct o as [n|]; [|done].
  change (rbind (to_count (YInt (Z.of_nat n))) (λ n, inr (Some n)) = inr (Some n)).
  by rewrite to_count_nat.
Qed.

Lemma violation_record_roundtrip r : violation_record_from_dict (violation_record_to_dict r) = inr r.
Proof.
  destruct r as [[k1 k2] v st fb fi di re su]. unfold violation_record_from_dict.
  change (dget "key" _) with (Some (YList [YStr k1; YStr k2])).
  change (dget "violation" _) with (Some (fto v)). rewrite read_violation_fto.
  change (get_str _ "status" "open") with (status_value st). rewrite status_roundtrip.
  change (get_count _ "discovered_in_pass") with (to_count (YInt (Z.of_nat di))). rewrite to_count_nat.
  replace (dget "fixed_in_pass" _) with ((λ n, YInt (Z.of_nat n)) <$> fi) by (by destruct fb, fi, re, su).
  rewrite read_opt_count_nat. by destruct fb, fi, re, su.
Qed.

(** What a node is read back as. *)
Definition restored (slim : bool) (n : ContentNode) : ContentNode :=
  if slim
  then MkNode (nd_identity n) (nd_meta n) (nd_fields n) (nd_yaml n) (nd_indent n) None [] []
  else nd_set_progression (match nd_progression n with [] => nd_state n | p => last p end)
         (nd_progression n) n.

(** Snapshots have ids, and the ledger is indexed by the keys of its records. *)
Record serializable (n : ContentNode) : Prop := {
  se_ids : Forall (λ s, ns_id s ≠ "") (nd_progression n);
  se_keys : Forall (λ p, p.1 = vr_key p.2) (nd_ledger n);
  se_nodup : NoDup (nd_ledger n).*1;
}.

#[export] Instance serializable_dec n : Decision (serializable n).
Proof.
  refine (cast_if (decide (Forall (λ s, ns_id s ≠ "") (nd_progression n) ∧
                           Forall (λ p, p.1 = vr_key p.2) (nd_ledger n) ∧ NoDup (nd_ledger n).*1))).
  - abstract (split; tauto).
  - abstract (intros [? ? ?]; tauto).
Defined.

Lemma number_states_id nid i p : Forall (λ s, ns_id s ≠ "") p → number_states nid i p = p.
Proof.
  intros Hp. revert i. induction Hp as [|s p Hs _ IH]; intros i; simpl; [done|].
  by rewrite decide_False, IH.
Qed.

Lemma reindex_ledger_app (l acc : list (ViolationKey * ViolationRecord)) :
  Forall (λ p, p.1 = vr_key p.2) l → NoDup (acc ++ l)%list.*1 →
  foldl (λ l r, dset (vr_key r) r l) acc l.*2 = (acc ++ l)%list.
Proof.
  intros Hk. revert acc. induction Hk as [|[k r] l Hk _ IH]; intros acc Hnd; csimpl; [by rewrite app_nil_r|].
  simpl in Hk. subst k. rewrite dkeys_dset_notin.
  - rewrite IH; by rewrite <- app_assoc.
  - rewrite fmap_app in Hnd. apply NoDup_app in Hnd as (_ & Hd & _).
    intros Hin. apply (Hd _ Hin). by left.
Qed.

Lemma reindex_ledger l :
  Forall (λ p, p.1 = vr_key p.2) l → NoDup l.*1 → foldl (λ l r, dset (vr_key r) r l) [] l.*2 = l.
Proof. intros. by apply (reindex_ledger_app l []). Qed.

Lemma dicts_of_fmap {A} (f : A → YAMLDict) l : dicts_of (YDict ∘ f <$> l) = f <$> l.
Proof. unfold dicts_of. induction l as [|x l IH]; csimpl; [done|]. by rewrite IH. Qed.

Lemma read_identity_roundtrip slim n : read_identity (node_to_dict slim n) = inr (nd_identity n).
Proof.
  unfold read_identity. change (dget "identity" _) with
    (Some (YDict [("path", YStr (id_path (nd_identity n)));
                  ("node_type", YStr (node_type_value (node_type n)))])).
  cbv beta iota. change (dget "path" _) with (Some (YStr (id_path (nd_identity n)))).
  change (dget "node_type" _) with (Some (YStr (node_type_value (node_type n)))).
  cbv beta iota. rewrite node_type_roundtrip. unfold node_type. by destruct (nd_identity n).
Qed.

Lemma read_scope_roundtrip slim n : read_scope (node_to_dict slim n) = inr (m_scope (nd_meta n)).
Proof.
  unfold read_scope. change (dget "scope" _) with (Some (YStr (scope_value (m_scope (nd_meta n))))).
  by destruct (m_scope (nd_meta n)).
Qed.

(** Step over the reading of field [k], whose value is [v]. *)
Ltac read_field k v :=
  match goal with |- context [@get_field ?A ?F ?d k ?dflt] =>
    let Hd := fresh in
    assert (dget k d = Some (@fto A F v)) as Hd by (vm_compute; reflexivity);
    rewrite (get_field_fto d k dflt v Hd), rbind_inr; clear Hd
  end.

Lemma read_meta_roundtrip slim n :
  read_meta (node_to_dict slim n) (m_scope (nd_meta n)) = inr (nd_meta n).
Proof.
  unfold read_meta.
  read_field "file_path" (m_file_path (nd_meta n)).
  read_field "line_start" (m_line_start (nd_meta n)).
  read_field "line_end" (m_line_end (nd_meta n)).
  read_field "resolved_module_options" (m_resolved_module_options (nd_meta n)).
  read_field "role_fqcn" (m_role_fqcn (nd_meta n)).
  read_field "default_variables" (m_default_variables (nd_meta n)).
  read_field "role_variables" (m_role_variables (nd_meta n)).
  read_field "role_metadata" (m_role_metadata (nd_meta n)).
  read_field "collection_namespace" (m_collection_namespace (nd_meta n)).
  read_field "collection_name" (m_collection_name (nd_meta n)).
  read_field "collection_metadata" (m_collection_metadata (nd_meta n)).
  read_field "collection_meta_runtime" (m_collection_meta_runtime (nd_meta n)).
  read_field "collection_files" (m_collection_files (nd_meta n)).
  read_field "module_line_count" (m_module_line_count (nd_meta n)).
  read_field "module_functions_without_return_type" (m_functions_without_return_type (nd_meta n)).
  read_field "collections_in_play" (m_collections_in_play (nd_meta n)).
  by destruct (nd_meta n).
Qed.

Lemma read_fields_roundtrip slim n : read_fields (node_to_dict slim n) = inr (nd_fields n).
Proof.
  unfold read_fields.
  read_field "name" (f_name (nd_fields n)).
  read_field "module" (f_module (nd_fields n)).
  read_field "module_options" (f_module_options (nd_fields n)).
  read_field "options" (f_options (nd_fields n)).
  read_field "variables" (f_variables (nd_fields n)).
  read_field "become" (f_become (nd_fields n)).
  read_field "when_expr" (f_when (nd_fields n)).
  read_field "tags" (f_tags (nd_fields n)).
  read_field "loop" (f_loop (nd_fields n)).
  read_field "loop_control" (f_loop_control (nd_fields n)).
  read_field "register" (f_register (nd_fields n)).
  read_field "set_facts" (f_set_facts (nd_fields n)).
  read_field "notify" (f_notify (nd_fields n)).
  read_field "listen" (f_listen (nd_fields n)).
  read_field "environment" (f_environment (nd_fields n)).
  read_field "no_log" (f_no_log (nd_fields n)).
  read_field "ignore_errors" (f_ignore_errors (nd_fields n)).
  read_field "changed_when" (f_changed_when (nd_fields n)).
  read_field "failed_when" (f_failed_when (nd_fields n)).
  read_field "delegate_to" (f_delegate_to (nd_fields n)).
  by destruct (nd_fields n).
Qed.

(** The entries that the slim form leaves out. *)
Definition history_entries (n : ContentNode) : YAMLDict :=
  (opt_entry "state" (YDict ∘ node_state_to_dict <$> nd_state n)
   ++ (match nd_progression n with
       | [] => []
       | p => [("progression", YList (YDict ∘ node_state_to_dict <$> p))]
       end)
   ++ (match nd_ledger n with
       | [] => []
       | l => [("violation_ledger", YList (YDict ∘ violation_record_to_dict <$> l.*2))]
       end))%list.

Lemma dget_app {V} k (a b : list (string * V)) :
  dget k (a ++ b)%list = match dget k a with Some x => Some x | None => dget k b end.
Proof. induction a as [|[k' v] a IH]; simpl; [done|]. by case_decide. Qed.

Lemma dget_history k n :
  dget k (node_to_dict true n) = None → dget k (node_to_dict false n) = dget k (history_entries n).
Proof.
  intros Hk. assert (node_to_dict false n = node_to_dict true n ++ history_entries n)%list as ->.
  { unfold node_to_dict. by rewrite app_nil_r, <- !app_assoc. }
  by rewrite dget_app, Hk.
Qed.

Lemma read_state n :
  match dget "state" (history_entries n) with
  | Some (YDict s) => s <- node_state_from_dict s; inr (Some s)
  | _ => inr None
  end = inr (nd_state n).
Proof.
  unfold history_entries. destruct (nd_state n) as [ns|].
  - cbn [fmap option_fmap option_map compose opt_entry app].
    change (dget "state" (("state", ?x) :: ?l)) with (Some x). cbv beta iota.
    by rewrite node_state_roundtrip.
  - by destruct (nd_progression n), (nd_ledger n).
Qed.

Lemma read_progression n :
  match dget "progression" (history_entries n) with
  | Some (YList l) => rmap node_state_from_dict (dicts_of l)
  | _ => inr []
  end = inr (nd_progression n).
Proof.
  unfold history_entries. rewrite !dget_app.
  replace (dget "progression" (opt_entry "state" _)) with (None (A := yval)) by (by destruct (nd_state n)).
  destruct (nd_progression n) as [|s p]; [by destruct (nd_ledger n)|].
  change (dget "progression" [("progression", ?x)]) with (Some x). cbv beta iota.
  rewrite dicts_of_fmap. apply rmap_roundtrip. intros. apply node_state_roundtrip.
Qed.

Lemma read_ledger n :
  match dget "violation_ledger" (history_entries n) with
  | Some (YList l) => rmap violation_record_from_dict (dicts_of l)
  | _ => inr []
  end = inr (nd_ledger n).*2.
Proof.
  unfold history_entries. rewrite !dget_app.
  replace (dget "violation_ledger" (opt_entry "state" _)) with (None (A := yval)) by (by destruct (nd_state n)).
  replace (dget "violation_ledger" (match nd_progression n with [] => [] | _ => _ end))
    with (None (A := yval)) by (by destruct (nd_progression n)).
  destruct (nd_ledger n) as [|r l]; [done|].
  change (dget "violation_ledger" [("violation_ledger", ?x)]) with (Some x). cbv beta iota.
  rewrite dicts_of_fmap. apply rmap_roundtrip. intros. apply violation_record_roundtrip.
Qed.

Lemma node_roundtrip slim n :
  serializable n → node_from_dict (node_to_dict slim n) = inr (restored slim n).
Proof.
  intros [Hids Hkeys Hnd]. unfold node_from_dict.
  rewrite read_identity_roundtrip. cbn [rbind]. rewrite read_scope_roundtrip. cbn [rbind].
  rewrite read_meta_roundtrip. cbn [rbind]. rewrite read_fields_roundtrip. cbn [rbind].
  read_field "yaml_lines" (nd_yaml n). read_field "indent_depth" (nd_indent n).
  destruct slim; [done|].
  rewrite (dget_history "state" n eq_refl), (dget_history "progression" n eq_refl),
    (dget_history "violation_ledger" n eq_refl).
  rewrite read_state. cbn [rbind]. rewrite read_progression. cbn [rbind]. rewrite read_ledger. cbn [rbind].
  rewrite number_states_id by done. rewrite reindex_ledger by done. unfold restored, nd_set_progression.
  by destruct (nd_progression n).
Qed.

(** ** Graphs *)

Section Graph.
Context {G : Type} `{NxLaws ContentNode EdgeAttrs G}.
Implicit Types (g : ContentGraph G) (n : ContentNode).

(** *** [execution_edges] *)

(** A positional child: its id, its position and its priority at that position. *)
Definition pos_child : Type := string * Z * Z.

Definition rescue_always_pairs g : list (string * string) :=
  (λ x, (x.1.1, x.1.2)) <$> filter (λ x, ea_type x.2 = RESCUE ∨ ea_type x.2 = ALWAYS) (nx_edges (cg_g g)).

Definition add_child (acc : list (string * list pos_child)) (src : string) (c : pos_child)
    : list (string * list pos_child) :=
  dset src (default [] (dget src acc) ++ [c])%list acc.

Definition child_of g (acc : list (string * list pos_child)) (x : string * string * EdgeAttrs)
    : list (string * list pos_child) :=
  let '(src, tgt, e) := x in
  let is_positional := is_positional_edge g src tgt (ea_type e) in
  let is_role_dependency := bool_decide (ea_type e = DEPENDENCY) && is_positional in
  if is_positional || is_role_dependency then
    if bool_decide (ea_type e = CONTAINS) && bool_decide ((src, tgt) ∈ rescue_always_pairs g) then acc
    else add_child acc src (tgt, ea_position e, if is_role_dependency then 0%Z else 1%Z)
  else acc.

Definition child_leb (a b : pos_child) : bool :=
  ((a.1.2 <? b.1.2) || ((a.1.2 =? b.1.2) && (a.2 <=? b.2)))%Z.

Definition children_by_parent g : list (string * list pos_child) :=
  prod_map Datatypes.id (sort_by child_leb) <$> foldl (child_of g) [] (nx_edges (cg_g g)).

(** The recursion of [last_exit]; [None] is fuel running out. *)
Fixpoint last_exit (cbp : list (string * list pos_child)) (fuel : nat) (visited : list string)
    (k : string) : option string :=
  match fuel with
  | O => None
  | S fuel' =>
    if decide (k ∈ visited) then Some k
    else match dget k cbp with
         | None => Some k
         | Some ch => match last ch with
                      | None => Some k
                      | Some c => last_exit cbp fuel' (k :: visited) c.1.1
                      end
         end
  end.

Definition last_exit_fuel (cbp : list (string * list pos_child)) : nat := S (S (length cbp)).

(** The chain through the children of one parent. *)
Fixpoint chain_edges (cbp : list (string * list pos_child)) (ch : list pos_child) : list (string * string) :=
  match ch with
  | c1 :: ((c2 :: _) as rest) =>
    (default c1.1.1 (last_exit cbp (last_exit_fuel cbp) [] c1.1.1), c2.1.1) :: chain_edges cbp rest
  | _ => []
  end.

Definition execution_edges g : list (string * string) :=
  let cbp := children_by_parent g in
  sort_by String.leb cbp.*1 ≫= λ parent,
    match default [] (dget parent cbp) with
    | [] => []
    | c :: ch => (parent, c.1.1) :: chain_edges cbp (c :: ch)
    end.

(** *** [to_dict] and [from_dict] *)

Definition edge_to_dict (x : string * string * EdgeAttrs) : YAMLDict :=
  let '(src, tgt, e) := x in
  [("source", YStr src); ("target", YStr tgt); ("edge_type", YStr (edge_type_value (ea_type e)));
   ("conditional", YBool (ea_conditional e)); ("dynamic", YBool (ea_dynamic e));
   ("position", YInt (ea_position e)); ("when_expr", YStr (ea_when e)); ("tags", fto (ea_tags e))].

(** The order of [(str(e["source"]), str(e["target"]))]. *)
Definition pair_leb (a b : string * string * EdgeAttrs) : bool :=
  if decide (a.1.1 = b.1.1) then String.leb a.1.2 b.1.2 else String.leb a.1.1 b.1.1.

Definition to_dict (slim : bool) g : YAMLDict :=
  [("version", YInt 1);
   ("nodes", YList (omap (λ nid, (λ n, YDict [("id", YStr nid); ("data", YDict (node_to_dict slim n))])
                             <$> get_node g nid)
                      (sort_by String.leb (nx_nodes (cg_g g)).*1)));
   ("edges", YList (YDict ∘ edge_to_dict <$> sort_by pair_leb (nx_edges (cg_g g))));
   ("execution_edges",
     YList ((λ p, YDict [("source", YStr p.1); ("target", YStr p.2)]) <$> execution_edges g))].

Definition edge_from_dict (d : YAMLDict) : res (string * string * EdgeAttrs) :=
  match dget "source" d, dget "target" d with
  | Some src, Some tgt =>
    type <- match enum_of edge_type_value edge_types (default YNull (dget "edge_type" d)) with
            | Some t => inr t
            | None => inl Untyped
            end;
    conditional <- get_field d "conditional" false;
    dynamic <- get_field d "dynamic" false;
    position <- get_field d "position" 0%Z;
    when <- get_field d "when_expr" "";
    tags <- get_field d "tags" [];
    inr (ystr src, ystr tgt, MkEdge type conditional dynamic position when tags)
  | _, _ => inl Malformed
  end.

Definition need_dict (x : yval) : res YAMLDict := match x with YDict d => inr d | _ => inl Malformed end.

Definition load_node (g : G) (x : yval) : res G :=
  d <- need_dict x;
  match dget "id" d, dget "data" d with
  | Some nid, Some data => d' <- need_dict data; n <- node_from_dict d'; inr (nx_add_node (ystr nid) n g)
  | _, _ => inl Malformed
  end.

Definition load_edge (g : G) (x : yval) : res G :=
  d <- need_dict x;
  e <- edge_from_dict d;
  inr (nx_add_edge e.1.1 e.1.2 e.2 g).

Fixpoint rfold {A S} (f : S → A → res S) (s : S) (l : list A) : res S :=
  match l with [] => inr s | x :: l' => s' <- f s x; rfold f s' l' end.

(** [version == 1] *)
Definition version_ok (x : yval) : bool :=
  match x with
  | YInt z => (z =? 1)%Z
  | YBool b => b
  | YFloat r => String.eqb r "1.0"
  | _ => false
  end.

Fixpoint chars (s : string) : list yval :=
  match s with "" => [] | String c s' => YStr (String c "") :: chars s' end.

(** [for x in d[k]] *)
Definition iterate (x : option yval) : res (list yval) :=
  match x with
  | Some (YList l) => inr l
  | Some (YDict d) => inr (YStr <$> d.*1)
  | Some (YStr s) => inr (chars s)
  | _ => inl Malformed
  end.

Definition from_dict (d : YAMLDict) : res (ContentGraph G) :=
  if negb (version_ok (default (YInt 0) (dget "version" d))) then inl Malformed
  else
    ns <- iterate (dget "nodes" d);
    g <- rfold load_node nx_empty ns;
    es <- iterate (dget "edges" d);
    g' <- rfold load_edge g es;
    inr (MkCG g' ∅ None).

(** *** Round trip *)

Lemma edge_roundtrip x : edge_from_dict (edge_to_dict x) = inr x.
Proof.
  destruct x as [[src tgt] [t c dy p w tags]]. unfold edge_from_dict.
  change (dget "source" _) with (Some (YStr src)). change (dget "target" _) with (Some (YStr tgt)).
  change (dget "edge_type" _) with (Some (YStr (edge_type_value t))).
  cbn [default Datatypes.id]. cbv beta iota.
  change (default YNull (Some (YStr (edge_type_value t)))) with (YStr (edge_type_value t)).
  rewrite edge_type_roundtrip. cbn [rbind].
  read_field "conditional" c. read_field "dynamic" dy. read_field "position" p.
  read_field "when_expr" w. read_field "tags" tags. done.
Qed.

Definition node_entry (slim : bool) (p : string * ContentNode) : yval :=
  YDict [("id", YStr p.1); ("data", YDict (node_to_dict slim p.2))].

Lemma load_node_entry slim (h : G) p :
  serializable p.2 → load_node h (node_entry slim p) = inr (nx_add_node p.1 (restored slim p.2) h).
Proof.
  intros Hs. unfold load_node, node_entry. cbn [need_dict rbind].
  change (dget "id" _) with (Some (YStr p.1)).
  change (dget "data" _) with (Some (YDict (node_to_dict slim p.2))). cbn [need_dict rbind].
  by rewrite node_roundtrip.
Qed.

Lemma load_nodes_entries slim (h : G) l :
  Forall (λ p, serializable p.2) l → NoDup ((nx_nodes h).*1 ++ l.*1)%list →
  ∃ h', rfold load_node h (node_entry slim <$> l) = inr h' ∧ nx_edges h' ≡ₚ nx_edges h ∧
    nx_nodes h' = (nx_nodes h ++ ((λ p, (p.1, Some (restored slim p.2))) <$> l))%list.
Proof.
  intros Hl. revert h. induction Hl as [|p l Hp _ IH]; intros h Hnd; csimpl.
  { exists h. by rewrite app_nil_r. }
  rewrite load_node_entry by done. cbn [rbind].
  assert (nx_nodes (nx_add_node p.1 (restored slim p.2) h)
          = (nx_nodes h ++ [(p.1, Some (restored slim p.2))])%list) as Hn.
  { rewrite nx_nodes_add_node. apply dkeys_dset_notin. apply NoDup_app in Hnd as (_ & Hd & _).
    intros Hin. apply (Hd _ Hin). csimpl. by left. }
  destruct (IH (nx_add_node p.1 (restored slim p.2) h)) as (h' & Hr & He & Hn').
  { rewrite Hn, fmap_app, <- app_assoc. done. }
  exists h'. split_and!; [done|by rewrite He, nx_edges_add_node|].
  by rewrite Hn', Hn, <- app_assoc.
Qed.

Lemma payload_ensure k j (vs : list (string * option ContentNode)) :
  mjoin (dget j (ensure_vertex k vs)) = mjoin (dget j vs).
Proof.
  unfold ensure_vertex. case_decide as Hk; [done|]. rewrite dget_app. simpl.
  destruct (dget j vs) as [o|] eqn:Ej; [done|]. by case_decide.
Qed.

Lemma load_edges_entries (h : G) es :
  ∃ h', rfold load_edge h (YDict ∘ edge_to_dict <$> es) = inr h' ∧
    nx_edges h' ≡ₚ (es ++ nx_edges h)%list ∧ (∀ k, nx_payload h' k = nx_payload h k) ∧
    (∀ k, nx_mem k h' ↔ nx_mem k h ∨ ∃ x, x ∈ es ∧ (k = x.1.1 ∨ k = x.1.2)).
Proof.
  revert h. induction es as [|[[u v] e] es IH]; intros h.
  { exists h. split_and!; try done. intros k. split; [by left|]. intros [?|(x & Hx & _)]; [done|].
    by apply elem_of_nil in Hx. }
  csimpl. unfold load_edge at 1. cbn [need_dict rbind compose].
  change (edge_from_dict [("source", YStr u); _; _; _; _; _; _; _])
    with (edge_from_dict (edge_to_dict (u, v, e))).
  rewrite edge_roundtrip. cbn [rbind fst snd].
  destruct (IH (nx_add_edge u v e h)) as (h' & Hr & He & Hp & Hm). exists h'. split_and!; [done| | |].
  - rewrite He, nx_edges_add_edge. by rewrite <- Permutation_middle.
  - intros k. rewrite Hp. unfold nx_payload. by rewrite nx_nodes_add_edge, !payload_ensure.
  - intros k. rewrite Hm. unfold nx_mem. rewrite nx_nodes_add_edge.
    rewrite !ListGraph.ensure_vertex_mem. split.
    + intros [[->|[->|?]]|(x & Hx & Hk)]; [| |by left|].
      * right. exists (u, v, e). split; [by left|by right].
      * right. exists (u, v, e). split; [by left|by left].
      * right. exists x. split; [by right|done].
    + intros [?|(x & [->|Hx]%elem_of_cons & Hk)]; [by left; right; right| |right; by exists x].
      left. simpl in Hk. naive_solver.
Qed.

(** The payloads in the order of [to_dict]. *)
Definition sorted_nodes g : list (string * ContentNode) :=
  omap (λ nid, (λ n, (nid, n)) <$> get_node g nid) (sort_by String.leb (nx_nodes (cg_g g)).*1).

Lemma elem_of_sorted_nodes g k n : (k, n) ∈ sorted_nodes g ↔ get_node g k = Some n.
Proof.
  unfold sorted_nodes. rewrite list_elem_of_omap. split.
  - intros (j & _ & Hj). by destruct (get_node g j) eqn:E; simplify_eq/=.
  - intros Hk. exists k. rewrite Hk. split; [|done]. apply elem_of_sort_by.
    by apply (nx_payload_mem _ _ n).
Qed.

Lemma sorted_nodes_keys g : NoDup (sorted_nodes g).*1.
Proof.
  unfold sorted_nodes. assert (NoDup (sort_by String.leb (nx_nodes (cg_g g)).*1)) as Hnd.
  { rewrite sort_by_perm. apply nx_nodes_nodup. }
  induction Hnd as [|k ks Hk _ IH]; csimpl; [constructor|].
  destruct (get_node g k) as [n|]; csimpl; [|done]. constructor; [|done].
  intros ([j m] & Hj & Hin)%list_elem_of_fmap. simpl in Hj. subst j.
  apply list_elem_of_omap in Hin as (j & Hj & He). destruct (get_node g j); simplify_eq/=. done.
Qed.

Lemma to_dict_nodes slim g :
  dget "nodes" (to_dict slim g) = Some (YList (node_entry slim <$> sorted_nodes g)).
Proof.
  change (dget "nodes" (to_dict slim g)) with (Some (YList (omap (λ nid,
    (λ n, YDict [("id", YStr nid); ("data", YDict (node_to_dict slim n))]) <$> get_node g nid)
    (sort_by String.leb (nx_nodes (cg_g g)).*1)))).
  do 2 f_equal. unfold sorted_nodes. generalize (sort_by String.leb (nx_nodes (cg_g g)).*1).
  intros ks. induction ks as [|k ks IH]; csimpl; [done|]. destruct (get_node g k); csimpl; by rewrite IH.
Qed.

Lemma dget_sorted g slim k :
  mjoin (dget k ((λ p, (p.1, Some (restored slim p.2))) <$> sorted_nodes g))
  = restored slim <$> get_node g k.
Proof.
  set (l := (λ p, (p.1, Some (restored slim p.2))) <$> sorted_nodes g).
  assert (l.*1 = (sorted_nodes g).*1) as Hk by (unfold l; by rewrite <- list_fmap_compose).
  destruct (get_node g k) as [n|] eqn:E; simpl.
  - rewrite (dget_elem k (Some (restored slim n))); [done|rewrite Hk; apply sorted_nodes_keys|].
    apply list_elem_of_fmap. exists (k, n). split; [done|]. by apply elem_of_sorted_nodes.
  - replace (dget k l) with (None (A := option ContentNode)); [done|]. symmetry. apply dget_None.
    rewrite Hk. intros ([j m] & Hj & Hin)%list_elem_of_fmap. simpl in Hj. subst j.
    apply elem_of_sorted_nodes in Hin. congruence.
Qed.

(** What is kept of a node. *)
Lemma restored_fields slim g g' :
  (∀ k, get_node g' k = restored slim <$> get_node g k) →
  ∀ k n n', get_node g k = Some n → get_node g' k = Some n' →
    nd_identity n' = nd_identity n ∧ nd_meta n' = nd_meta n ∧ nd_fields n' = nd_fields n ∧
    nd_yaml n' = nd_yaml n ∧ nd_indent n' = nd_indent n ∧
    if slim then nd_state n' = None ∧ nd_progression n' = [] ∧ nd_ledger n' = []
    else nd_progression n' = nd_progression n ∧ nd_ledger n' = nd_ledger n ∧
         (nd_progression n ≠ [] → nd_state n' = last (nd_progression n)).
Proof.
  intros Hg k n n' Hn Hn'. rewrite Hg, Hn in Hn'. injection Hn' as <-. unfold restored. destruct slim; [done|].
  split_and!; try done. simpl. by destruct (nd_progression n).
Qed.

(** C23: Serialization round trip, for a graph whose snapshots have ids and whose ledgers are
    indexed by the keys of their records: reading back what [to_dict] writes succeeds and
    gives, under the same ids, every node with its identity, content and attributes; the
    same edges with their attributes; exactly the vertices that carry a node or end an
    edge; and nothing dirty.  The full form also keeps the snapshots and the ledger, and
    the current state becomes the newest snapshot; the slim form, which the engine sends,
    drops state, snapshots and ledger. *)
Theorem graph_roundtrip slim g :
  (∀ k n, get_node g k = Some n → serializable n) →
  ∃ g', from_dict (to_dict slim g) = inr g' ∧
    (∀ k, get_node g' k = restored slim <$> get_node g k) ∧
    (∀ k n n', get_node g k = Some n → get_node g' k = Some n' →
       nd_identity n' = nd_identity n ∧ nd_meta n' = nd_meta n ∧ nd_fields n' = nd_fields n ∧
       nd_yaml n' = nd_yaml n ∧ nd_indent n' = nd_indent n ∧
       if slim then nd_state n' = None ∧ nd_progression n' = [] ∧ nd_ledger n' = []
       else nd_progression n' = nd_progression n ∧ nd_ledger n' = nd_ledger n ∧
            (nd_progression n ≠ [] → nd_state n' = last (nd_progression n))) ∧
    nx_edges (cg_g g') ≡ₚ nx_edges (cg_g g) ∧
    (∀ k, nx_mem k (cg_g g') ↔
       is_Some (get_node g k) ∨ ∃ x, x ∈ nx_edges (cg_g g) ∧ (k = x.1.1 ∨ k = x.1.2)) ∧
    dirty_nodes g' = ∅.
Proof.
  intros Hs.
  destruct (load_nodes_entries slim nx_empty (sorted_nodes g)) as (h1 & Hr1 & He1 & Hn1).
  { apply Forall_forall. intros [k n] Hin. apply (Hs k). by apply elem_of_sorted_nodes. }
  { rewrite nx_nodes_empty. apply sorted_nodes_keys. }
  destruct (load_edges_entries h1 (sort_by pair_leb (nx_edges (cg_g g)))) as (h2 & Hr2 & He2 & Hp2 & Hm2).
  rewrite nx_nodes_empty in Hn1. simpl in Hn1. rewrite nx_edges_empty in He1.
  assert (Hget : ∀ k, get_node (MkCG h2 ∅ None) k = restored slim <$> get_node g k).
  { intros k. unfold get_node. simpl. rewrite Hp2. unfold nx_payload. rewrite Hn1. apply dget_sorted. }
  exists (MkCG h2 ∅ None). split; [|split; [exact Hget|split; [by eapply restored_fields|split_and!]]].
  - unfold from_dict. change (dget "version" _) with (Some (YInt 1)). cbn [negb version_ok default].
    change (negb (version_ok (default (YInt 0) (Some (YInt 1))))) with false. cbv iota.
    rewrite to_dict_nodes. cbn [iterate rbind]. rewrite Hr1. cbn [rbind].
    change (dget "edges" _) with (Some (YList (YDict ∘ edge_to_dict <$> sort_by pair_leb (nx_edges (cg_g g))))).
    cbn [iterate rbind]. by rewrite Hr2.
  - simpl. rewrite He2, He1, app_nil_r. apply sort_by_perm.
  - intros k. simpl. rewrite Hm2. unfold nx_mem. rewrite Hn1, <- list_fmap_compose.
    split; (intros [Hk|(x & Hx & Hk)]; [left|right; exists x; split;
      [by first [rewrite elem_of_sort_by in Hx|rewrite elem_of_sort_by]|done]]).
    + apply list_elem_of_fmap in Hk as ([j n] & -> & Hin). apply elem_of_sorted_nodes in Hin. by eexists.
    + destruct Hk as [n Hk]. apply list_elem_of_fmap. exists (k, n). split; [done|].
      by apply elem_of_sorted_nodes.
  - done.
Qed.

(** *** Execution edges *)

Lemma last_exit_total cbp fuel visited k :
  (length (filter (λ x, x ∉ visited) cbp.*1) < fuel)%nat → is_Some (last_exit cbp fuel visited k).
Proof.
  revert visited k. induction fuel as [|fuel IH]; intros visited k Hf; [lia|]. simpl.
  case_decide as Hk; [done|]. destruct (dget k cbp) as [ch|] eqn:Ed; [|done].
  destruct (last ch) as [c|]; [|done]. apply IH.
  assert (length (filter (λ x, x ∉ k :: visited) cbp.*1) < length (filter (λ x, x ∉ visited) cbp.*1))%nat;
    [|lia].
  assert (k ∈ cbp.*1) as Hin by (apply dget_is_Some; by eexists). clear -Hin Hk.
  assert (∀ l : list string,
    length (filter (λ x, x ∉ k :: visited) l) ≤ length (filter (λ x, x ∉ visited) l))%nat as Hle.
  { induction l as [|x l IH]; [done|]. rewrite !filter_cons.
    destruct (decide (x ∉ k :: visited)), (decide (x ∉ visited)); simpl; try lia. set_solver. }
  induction (cbp.*1) as [|x l IH]; [set_solver|]. rewrite !filter_cons.
  destruct (decide (x = k)) as [->|Hne].
  - rewrite (decide_False (P := k ∉ k :: visited)) by set_solver. rewrite (decide_True (P := k ∉ visited)) by done.
    simpl. specialize (Hle l). lia.
  - assert (k ∈ l) as Hkl by set_solver. specialize (IH Hkl).
    destruct (decide (x ∉ k :: visited)), (decide (x ∉ visited)); simpl; try lia; set_solver.
Qed.

(** A positional edge that is not the containment half of a rescue or always branch. *)
Definition mainline g (x : string * string * EdgeAttrs) : bool :=
  is_positional_edge g x.1.1 x.1.2 (ea_type x.2) &&
  negb (bool_decide (ea_type x.2 = CONTAINS) && bool_decide ((x.1.1, x.1.2) ∈ rescue_always_pairs g)).

Lemma child_of_mainline g acc x :
  child_of g acc x =
    if mainline g x
    then add_child acc x.1.1 (x.1.2, ea_position x.2,
           if bool_decide (ea_type x.2 = DEPENDENCY) then 0%Z else 1%Z)
    else acc.
Proof.
  destruct x as [[u v] e]. unfold child_of, mainline. cbn [fst snd].
  destruct (is_positional_edge g u v (ea_type e)); simpl; rewrite ?andb_false_r, ?andb_true_r; [|done].
  by destruct (bool_decide (ea_type e = CONTAINS) && _).
Qed.

(** All children, parent by parent. *)
Definition all_children (cbp : list (string * list pos_child)) : list pos_child := cbp ≫= snd.

Lemma all_children_add acc src c : all_children (add_child acc src c) ≡ₚ c :: all_children acc.
Proof.
  unfold add_child, all_children. induction acc as [|[k l] acc IH]; simpl; [done|].
  destruct (decide (src = k)); simpl.
  - rewrite <- app_assoc. simpl. by rewrite <- Permutation_middle.
  - rewrite IH. by rewrite <- Permutation_middle.
Qed.

Lemma add_child_keys acc src c : NoDup acc.*1 → NoDup (add_child acc src c).*1.
Proof. apply dset_NoDup. Qed.

Lemma children_fold g es acc :
  NoDup acc.*1 →
  NoDup (foldl (child_of g) acc es).*1 ∧
  (λ c : pos_child, c.1.1) <$> all_children (foldl (child_of g) acc es)
  ≡ₚ ((λ c : pos_child, c.1.1) <$> all_children acc)
     ++ ((λ x, x.1.2) <$> filter (λ x, mainline g x = true) es).
Proof.
  revert acc. induction es as [|x es IH]; intros acc Hnd; simpl; [by rewrite app_nil_r|].
  rewrite child_of_mainline, filter_cons. destruct (mainline g x).
  - rewrite decide_True by done. destruct (IH _ (add_child_keys acc x.1.1
      (x.1.2, ea_position x.2, if bool_decide (ea_type x.2 = DEPENDENCY) then 0%Z else 1%Z) Hnd)) as [H1 H2].
    split; [done|]. rewrite H2, all_children_add. csimpl. by rewrite <- Permutation_middle.
  - rewrite decide_False by done. by apply IH.
Qed.

Lemma children_by_parent_spec g :
  NoDup (children_by_parent g).*1 ∧
  (λ c : pos_child, c.1.1) <$> all_children (children_by_parent g)
  ≡ₚ (λ x, x.1.2) <$> filter (λ x, mainline g x = true) (nx_edges (cg_g g)).
Proof.
  destruct (children_fold g (nx_edges (cg_g g)) []) as [H1 H2]; [constructor|].
  unfold children_by_parent. split.
  - rewrite <- list_fmap_compose. by rewrite (list_fmap_ext _ fst) by (by intros ? []).
  - rewrite <- H2. apply fmap_Permutation. unfold all_children. clear.
    induction (foldl (child_of g) [] _) as [|[k l] acc IH]; csimpl; [done|]. rewrite IH. by rewrite sort_by_perm.
Qed.

Lemma chain_edges_targets cbp c ch :
  (chain_edges cbp (c :: ch)).*2 = (λ c : pos_child, c.1.1) <$> ch.
Proof. revert c. induction ch as [|c2 ch IH]; intros c; [done|]. csimpl. by rewrite <- (IH c2). Qed.

Lemma parent_targets (cbp d : list (string * list pos_child)) ks :
  NoDup d.*1 → ks ≡ₚ d.*1 →
  snd <$> (ks ≫= λ parent, match default [] (dget parent d) with
                           | [] => []
                           | c :: ch => (parent, c.1.1) :: chain_edges cbp (c :: ch)
                           end)
  ≡ₚ (λ c : pos_child, c.1.1) <$> all_children d.
Proof.
  intros Hnd ->. unfold all_children.
  assert (∀ l, (∀ p, p ∈ l → dget p.1 d = Some p.2) →
    snd <$> (l.*1 ≫= λ parent, match default [] (dget parent d) with
                             | [] => []
                             | c :: ch => (parent, c.1.1) :: chain_edges cbp (c :: ch)
                             end) = (λ c : pos_child, c.1.1) <$> (l ≫= snd)) as Hl.
  { induction l as [|[k ch] l IH]; intros Hl; [done|]. rewrite fmap_cons, !bind_cons. cbn [fst snd].
    assert (dget k d = Some ch) as -> by (apply (Hl (k, ch)); by left).
    change (default [] (Some ch)) with ch.
    rewrite !fmap_app, IH by (intros; apply Hl; by right).
    f_equal. destruct ch as [|c ch]; [done|]. rewrite !fmap_cons.
    by rewrite (chain_edges_targets cbp c ch). }
  rewrite Hl; [done|]. intros [k ch] Hin. by apply dget_elem.
Qed.

(** The execution order enters every node as often as the structure places it: the
    targets of the execution edges are, with multiplicity, the targets of the positional
    edges outside rescue and always branches; and the search for the exit of a subtree
    terminates on every graph, cyclic ones included. *)
Theorem execution_edges_cover g :
  (execution_edges g).*2
    ≡ₚ (λ x, x.1.2) <$> filter (λ x, mainline g x = true) (nx_edges (cg_g g)) ∧
  (∀ k, is_Some (last_exit (children_by_parent g) (last_exit_fuel (children_by_parent g)) [] k)).
Proof.
  destruct (children_by_parent_spec g) as [Hnd Hc]. split.
  - rewrite <- Hc. unfold execution_edges. apply parent_targets; [done|apply sort_by_perm].
  - intros k. apply last_exit_total. unfold last_exit_fuel.
    rewrite <- (length_fmap fst (children_by_parent g)). pose proof (length_filter
      (λ x, x ∉ []) (children_by_parent g).*1). lia.
Qed.
End Graph.

(** A node in the invariant of the graph whose snapshots have ids is serializable. *)
Lemma node_wf_serializable n :
  node_wf n → Forall (λ s, ns_id s ≠ "") (nd_progression n) → serializable n.
Proof.
  intros [[Hnd Hl] _ _ _] Hids. split; [done| |done].
  apply Forall_forall. intros [k r] Hin. by destruct (Hl k r Hin) as [<- _].
Qed.

(** ** Examples *)

Module SerialDemo.
Definition all_serializable (g : ContentGraph SG) : Prop :=
  Forall (λ p : string * option ContentNode,
    match p.2 with Some n => serializable n | None => True end) (nx_nodes (cg_g g)).

#[export] Instance all_serializable_dec g : Decision (all_serializable g).
Proof.
  apply Forall_dec. intros [k [n|]]; simpl; [apply serializable_dec|apply True_dec].
Defined.

Lemma all_serializable_spec g : all_serializable g → ∀ k n, get_node g k = Some n → serializable n.
Proof.
  intros Ha k n Hk. apply nx_nodes_payload in Hk. unfold all_serializable in Ha.
  rewrite Forall_forall in Ha. exact (Ha _ Hk).
Qed.

(** The reviewed task travels with its two snapshots. *)
Lemma graph_roundtrip_witness :
  ∃ g', from_dict (G := SG) (to_dict false reviewed_graph) = inr g' ∧
    (length ∘ nd_progression <$> get_node g' task_id) = Some 2.
Proof.
  destruct (graph_roundtrip false reviewed_graph) as (g' & Hr & Hn & _).
  - apply all_serializable_spec. apply (bool_decide_unpack _). vm_compute. exact I.
  - exists g'. split; [exact Hr|]. rewrite Hn. vm_compute. reflexivity.
Defined.

(** Each positional edge of the reviewed graph is entered once. *)
Lemma execution_edges_cover_witness : (execution_edges reviewed_graph).*2 ≡ₚ [task_id; task2_id].
Proof.
  destruct (execution_edges_cover reviewed_graph) as [Hp _]. rewrite Hp. vm_compute. reflexivity.
Defined.

Example reviewed_execution_edges :
  execution_edges reviewed_graph = [(play_id, task_id); (task_id, task2_id)].
Proof. vm_compute. reflexivity. Qed.

(** A deterministic snapshot approved while the AI snapshot after it is still pending. *)
Definition mixed_graph : ContentGraph SG :=
  foldl exec reviewed_graph
    [OpYaml task_id "apt: nano"; OpRecord task_id "t2" 2 "ai" "ai";
     OpApprove (Some task_id) (Some "deterministic")].
End SerialDemo.

(** Reading a graph back can move a node's current state: after an approval that
    covers only the deterministic snapshots the state is the last approved snapshot, and
    [from_dict] makes it the pending one after it. *)
Theorem roundtrip_moves_state :
  match get_node SerialDemo.mixed_graph task_id with
  | Some n =>
    ((λ s, (ns_approved s, ns_source s)) <$> nd_state n) = Some (true, "deterministic") ∧
    ∃ n', node_from_dict (node_to_dict false n) = inr n' ∧
      ((λ s, (ns_approved s, ns_source s)) <$> nd_state n') = Some (false, "ai")
  | None => False
  end.
Proof.
  destruct (get_node SerialDemo.mixed_graph task_id) as [n|] eqn:Hn; vm_compute in Hn; [|done].
  injection Hn as <-. split; [reflexivity|]. eexists. split; vm_compute; reflexivity.
Qed.
