(* ===== verification/MemoPaths.v ===== *)
(** * Memoised evaluation over ancestor paths

    [VariableProvenanceResolver.variables_defined_on_all_paths]
    ([src/apme_engine/graph/variable_provenance.py]) and [_no_log_play_scoped_paths]
    ([src/apme_engine/graph/variable_helpers.py]) share one shape: a nested function
    that looks a state up in a cache, answers [False] for a state it is already
    evaluating, decides some states on the spot, and otherwise asks [all] or [any] of
    the parents.  [evaluate] is that function, over any type of states; the cache is
    threaded and the set of states in progress is passed down, since every call
    removes what it added.

    The cache makes the exactness non-trivial: an answer computed while a state above
    was in progress is kept and reused after that state is done.  With [all] the kept
    answers are right (a state that depends on itself has no finite justification);
    with [any] a kept [False] may be wrong for the state it is kept for, and the
    answer at the top is still right. *)

From stdpp Require Import base list gmap relations.
From S2P Require Import Prelude.

Section Memo.
Context {S : Type} `{Countable S}.
Context (require_all : bool) (local : S → option bool) (parents : S → list S).
Implicit Types (s t p : S) (P : gset S) (cache : gmap S bool).

(** [quant(evaluate(parent) for parent in parents)], stopping at the first answer
    that settles it. *)
Fixpoint quantify (ev : gmap S bool → S → option (bool * gmap S bool)) cache (ps : list S)
    : option (bool * gmap S bool) :=
  match ps with
  | [] => Some (require_all, cache)
  | p :: ps' =>
    match ev cache p with
    | None => None
    | Some (b, cache') => if eqb b require_all then quantify ev cache' ps' else Some (b, cache')
    end
  end.

Fixpoint evaluate (fuel : nat) P cache s : option (bool * gmap S bool) :=
  match fuel with
  | O => None
  | Datatypes.S fuel' =>
    match cache !! s with
    | Some b => Some (b, cache)
    | None =>
      if decide (s ∈ P) then Some (false, cache)
      else match local s with
           | Some b => Some (b, <[s := b]> cache)
           | None =>
             match parents s with
             | [] => Some (false, <[s := false]> cache)
             | ps =>
               match quantify (evaluate fuel' ({[s]} ∪ P)) cache ps with
               | None => None
               | Some (b, cache') => Some (b, <[s := b]> cache')
               end
             end
           end
    end
  end.

(** ** What the answers mean *)

(** A state depends on the parents it has to ask. *)
Definition asks s p : Prop := local s = None ∧ p ∈ parents s.

(** [all]: a finite derivation in which every path up meets a state decided [True]
    before it meets anything else. *)
Inductive on_all_paths : S → Prop :=
| all_local s : local s = Some true → on_all_paths s
| all_parents s : local s = None → parents s ≠ [] → (∀ p, p ∈ parents s → on_all_paths p) →
    on_all_paths s.

(** [any]: some path up of undecided states reaches a state decided [True]. *)
Definition on_some_path s : Prop := ∃ t, rtc asks s t ∧ local t = Some true.

(** A path up from [s]: states that ask, each followed by one of its parents. *)
Inductive path_up : S → list S → Prop :=
| path_stop s : path_up s [s]
| path_ask s p l : asks s p → path_up p l → path_up s (s :: l).

(** A path that cannot be extended. *)
Definition path_ends (l : list S) : Prop :=
  ∃ t, last l = Some t ∧ (is_Some (local t) ∨ parents t = []).

(** No state is its own ancestor in a derivation. *)
Lemma on_all_paths_acyclic s : on_all_paths s → ¬ tc asks s s.
Proof.
  intros Hs. assert (∀ t, tc asks s t → ¬ tc asks t t) as Hgen.
  2: { intros Ht. by eapply Hgen. }
  induction Hs as [s Hl|s Hl _ _ IH]; intros t Hst Htt.
  - inversion Hst as [? ? [Hn _]|? ? ? [Hn _]]; subst; congruence.
  - inversion Hst as [? ? [_ Hp]|? p ? [_ Hp] Hpt]; subst; [|by eapply IH].
    by eapply IH.
Qed.

(** Every path that ends meets a state decided [True]. *)
Lemma on_all_paths_path s l :
  on_all_paths s → path_up s l → path_ends l → ∃ t, t ∈ l ∧ local t = Some true.
Proof.
  intros Hs Hl. revert Hs. induction Hl as [s|s p l [Ha Hp] Hl IH]; intros Hs (t & Hlast & Hend).
  - simpl in Hlast. simplify_eq. inversion Hs as [? Hl|? Hn Hne _]; subst.
    + exists t. split; [by left|done].
    + destruct Hend as [[b Hb]|Hb]; congruence.
  - inversion Hs as [? ?|? _ _ Hall]; subst; [congruence|].
    destruct (IH (Hall p Hp)) as (t' & Ht' & Hl').
    + exists t. split; [|done]. destruct l; [by inversion Hl|done].
    + exists t'. split; [by right|done].
Qed.

End Memo.

Arguments on_all_paths {_} _ _ _.
Arguments on_some_path {_} _ _ _.
Arguments path_up {_} _ _ _ _.
Arguments path_ends {_} _ _ _.

(** ** Fuel *)

Section Todo.
Context {S : Type} `{Countable S}.
Implicit Types (U : list S) (P : gset S) (s : S).

Definition todo U P : nat := length (filter (λ x, x ∉ P) U).

Lemma todo_lt U P s : s ∈ U → s ∉ P → todo U ({[s]} ∪ P) < todo U P.
Proof.
  unfold todo. intros Hs Hn.
  assert (Hmono : ∀ l : list S,
    length (filter (λ x, x ∉ {[s]} ∪ P) l) ≤ length (filter (λ x, x ∉ P) l)).
  { intros l. induction l as [|x l IH]; [done|]. rewrite !filter_cons.
    repeat case_decide; simpl; try lia. set_solver. }
  induction U as [|x l IH]; [set_solver|]. rewrite !filter_cons.
  destruct (decide (x = s)) as [->|Hne].
  - rewrite decide_False by set_solver. rewrite decide_True by done. simpl. specialize (Hmono l). lia.
  - specialize (IH ltac:(set_solver)). destruct (decide (x ∈ P)).
    + rewrite !decide_False by set_solver. done.
    + rewrite !decide_True by set_solver. simpl. lia.
Qed.
End Todo.

(** ** Exactness *)

Section Exact.
Context {S : Type} `{Countable S}.
Context (local : S → option bool) (parents : S → list S).
Context (U : list S) (HU : ∀ s p, p ∈ parents s → p ∈ U).
Implicit Types (s t p : S) (P : gset S) (cache : gmap S bool).

(** *** [all] *)

Definition all_cache_ok cache : Prop :=
  ∀ x b, cache !! x = Some b → b = true ↔ on_all_paths local parents x.

Lemma all_cache_insert cache s b :
  all_cache_ok cache → (b = true ↔ on_all_paths local parents s) → all_cache_ok (<[s := b]> cache).
Proof. intros Hc Hb x b' [[<- <-]|[_ Hx]]%lookup_insert_Some; eauto. Qed.

Lemma quantify_all ev cache ps :
  all_cache_ok cache →
  (∀ p c, p ∈ ps → all_cache_ok c →
     ∃ b c', ev c p = Some (b, c') ∧ all_cache_ok c' ∧ (b = true ↔ on_all_paths local parents p)) →
  ∃ b c', quantify true ev cache ps = Some (b, c') ∧ all_cache_ok c' ∧
    (b = true ↔ ∀ p, p ∈ ps → on_all_paths local parents p).
Proof.
  revert cache. induction ps as [|p ps IH]; intros cache Hc Hev; simpl.
  { exists true, cache. split_and!; [done..|]. set_solver. }
  destruct (Hev p cache) as (b & c & -> & Hc' & Hb); [by left|done|]. destruct b; simpl.
  - destruct (IH c) as (b & c' & -> & Hc'' & Hb'); [done|set_solver|].
    exists b, c'. split_and!; [done..|]. rewrite Hb'. set_solver.
  - exists false, c. split_and!; [done..|]. split; [done|].
    intros Hall. apply Hb, Hall. by left.
Qed.

Lemma evaluate_all fuel P cache s :
  s ∈ U → todo U P < fuel → (∀ t, t ∈ P → tc (asks local parents) t s) → all_cache_ok cache →
  ∃ b cache', evaluate true local parents fuel P cache s = Some (b, cache') ∧
    all_cache_ok cache' ∧ (b = true ↔ on_all_paths local parents s).
Proof.
  revert P cache s. induction fuel as [|fuel IH]; intros P cache s Hs Hf HP Hc; [lia|]. cbn [evaluate].
  destruct (cache !! s) as [b|] eqn:Hcs; [exists b, cache; eauto|].
  case_decide as Hin.
  { exists false, cache. split_and!; [done..|]. split; [done|].
    intros Hall. exfalso. by apply (on_all_paths_acyclic _ _ _ Hall), HP. }
  destruct (local s) as [b|] eqn:Hl.
  { assert (b = true ↔ on_all_paths local parents s) as Hb.
    { split; [intros ->; by apply all_local|]. inversion 1; congruence. }
    eexists _, _. split_and!; [done|by apply all_cache_insert|done]. }
  assert (Hps : parents s ≠ [] →
    on_all_paths local parents s ↔ ∀ p, p ∈ parents s → on_all_paths local parents p).
  { intros Hne. split; [inversion 1; subst; [congruence|done]|by apply all_parents]. }
  destruct (parents s) as [|p ps] eqn:Hp; [|rewrite <- Hp in *].
  { eexists _, _. split; [done|].
    assert (false = true ↔ on_all_paths local parents s) by (split; [done|inversion 1; congruence]).
    split; [by apply all_cache_insert|done]. }
  destruct (quantify_all (evaluate true local parents fuel ({[s]} ∪ P)) cache (parents s))
    as (b & c & Hq & Hc' & Hb); [done| |].
  { intros q c Hq Hc'. apply IH; [by eapply HU| |  |done].
    - pose proof (todo_lt U P s Hs Hin). lia.
    - intros t [->%elem_of_singleton|Ht]%elem_of_union; [by apply tc_once|].
      eapply tc_r; [by apply HP|done]. }
  rewrite Hq. rewrite <- Hps in Hb by (rewrite Hp; done).
  eexists _, _. split_and!; [done|by apply all_cache_insert|done].
Qed.

(** *** [any] *)

(** While no state has been found, the cache holds [False]s whose parents are held
    too or in progress. *)
Definition any_cache_ok P cache : Prop :=
  ∀ x b, cache !! x = Some b → b = false ∧ local x ≠ Some true ∧
    (local x = None → ∀ p, p ∈ parents x → cache !! p = Some false ∨ p ∈ P).

Definition any_result P cache (Found : Prop) (settled : gmap S bool → Prop)
    (r : option (bool * gmap S bool)) : Prop :=
  ∃ b cache', r = Some (b, cache') ∧ (b = true → Found) ∧
    (b = false → any_cache_ok P cache' ∧ cache ⊆ cache' ∧ settled cache').

Lemma any_cache_insert P P' cache s :
  any_cache_ok P' cache → P' ⊆ {[s]} ∪ P → local s ≠ Some true →
  (local s = None → ∀ p, p ∈ parents s → cache !! p = Some false ∨ p ∈ P') →
  any_cache_ok P (<[s := false]> cache).
Proof.
  intros Hc HP Hl Hp.
  assert (Hstep : ∀ p, cache !! p = Some false ∨ p ∈ P' →
            <[s:=false]> cache !! p = Some false ∨ p ∈ P).
  { intros p. destruct (decide (p = s)) as [->|Hne]; [rewrite lookup_insert_eq; auto|].
    rewrite lookup_insert_ne by done. set_solver. }
  intros x b [[<- <-]|[Hne Hx]]%lookup_insert_Some; [by eauto 6|].
  destruct (Hc x b Hx) as (-> & ? & Hpx). eauto 6.
Qed.

Lemma any_cache_mono P P' cache : P ⊆ P' → any_cache_ok P cache → any_cache_ok P' cache.
Proof. intros HP Hc x b Hx. destruct (Hc x b Hx) as (? & ? & Hp). split_and!; [done..|]. set_solver. Qed.

Lemma quantify_any P ev cache ps :
  any_cache_ok P cache →
  (∀ p c, p ∈ ps → any_cache_ok P c →
     any_result P c (on_some_path local parents p) (λ c', c' !! p = Some false ∨ p ∈ P) (ev c p)) →
  any_result P cache (∃ p, p ∈ ps ∧ on_some_path local parents p)
    (λ c', ∀ p, p ∈ ps → c' !! p = Some false ∨ p ∈ P) (quantify false ev cache ps).
Proof.
  revert cache. induction ps as [|p ps IH]; intros cache Hc Hev; simpl.
  { exists false, cache. split_and!; [done..|]. intros _. split_and!; [done..|]. set_solver. }
  destruct (Hev p cache) as (b & c & -> & Ht & Hf); [by left|done|]. destruct b; simpl.
  { exists true, c. split_and!; [done| |done]. intros _. exists p. split; [by left|auto]. }
  destruct (Hf eq_refl) as (Hc' & Hsub & Hp).
  destruct (IH c Hc') as (b & c' & -> & Ht' & Hf'); [intros q c1 Hq; apply Hev; by right|].
  exists b, c'. split_and!; [done|intros Hb; destruct (Ht' Hb) as (q & Hq & Hm); exists q; set_solver|].
  intros Hb. destruct (Hf' Hb) as (Hc'' & Hsub' & Hall). split_and!; [done|by etrans|].
  intros q [->|Hq]%elem_of_cons; [|by apply Hall].
  destruct Hp as [Hp|Hp]; [left; by eapply lookup_weaken|by right].
Qed.

Lemma on_some_path_ask s p :
  asks local parents s p → on_some_path local parents p → on_some_path local parents s.
Proof. intros Ha (t & Ht & Hl). exists t. split; [by eapply rtc_l|done]. Qed.

Lemma evaluate_any fuel P cache s :
  s ∈ U → todo U P < fuel → any_cache_ok P cache →
  any_result P cache (on_some_path local parents s) (λ c', c' !! s = Some false ∨ s ∈ P)
    (evaluate false local parents fuel P cache s).
Proof.
  revert P cache s. induction fuel as [|fuel IH]; intros P cache s Hs Hf Hc; [lia|]. cbn [evaluate].
  destruct (cache !! s) as [b|] eqn:Hcs.
  { destruct (Hc s b Hcs) as (-> & _). exists false, cache. split_and!; [done..|]. intros _. split_and!; auto. }
  case_decide as Hin.
  { exists false, cache. split_and!; [done..|]. intros _. split_and!; auto. }
  assert (Hins : ∀ c, cache ⊆ c → cache ⊆ <[s := false]> c).
  { intros c Hsub. by apply insert_subseteq_r. }
  destruct (local s) as [[]|] eqn:Hl.
  - eexists _, _. split_and!; [done| |done]. intros _. exists s. split; [reflexivity|done].
  - eexists _, _. split_and!; [done..|]. intros _. split_and!; [|by apply Hins|left; apply lookup_insert_eq].
    eapply any_cache_insert; [done|set_solver|congruence|congruence].
  - destruct (parents s) as [|p ps] eqn:Hp; [|rewrite <- Hp in *].
    { eexists _, _. split_and!; [done..|]. intros _.
      split_and!; [|by apply Hins|left; apply lookup_insert_eq].
      eapply any_cache_insert; [done|set_solver|congruence|]. rewrite Hp. set_solver. }
    destruct (quantify_any ({[s]} ∪ P) (evaluate false local parents fuel ({[s]} ∪ P)) cache (parents s))
      as (b & c & Hq & Ht & Hfl).
    { eapply any_cache_mono; [|done]. set_solver. }
    { intros q c Hq Hc'. apply IH; [by eapply HU| |done]. pose proof (todo_lt U P s Hs Hin). lia. }
    rewrite Hq. exists b, (<[s:=b]> c). split_and!; [done| |].
    + intros Hb. destruct (Ht Hb) as (q & Hq' & Hm). eapply on_some_path_ask; [|done]. done.
    + intros ->. destruct (Hfl eq_refl) as (Hc' & Hsub & Hall).
      split_and!; [|by apply Hins|left; apply lookup_insert_eq].
      eapply any_cache_insert; [done|done|congruence|auto].
Qed.

(** *** At the top *)

Lemma todo_le P : todo U P ≤ length U.
Proof. unfold todo. apply length_filter. Qed.

Lemma all_cache_empty : all_cache_ok ∅.
Proof. by intros x b ?%lookup_empty_Some. Qed.

Lemma any_cache_final cache x :
  any_cache_ok ∅ cache → cache !! x = Some false → ¬ on_some_path local parents x.
Proof.
  intros Hc Hx (t & Hrtc & Ht). induction Hrtc as [x|x y z [Hn Hp] _ IH].
  - by destruct (Hc x false Hx) as (_ & ? & _).
  - destruct (Hc x false Hx) as (_ & _ & Hpx). destruct (Hpx Hn y Hp); [auto|set_solver].
Qed.

Definition run_quantified (require_all : bool) (ps : list S) : option (bool * gmap S bool) :=
  quantify require_all (evaluate require_all local parents (Datatypes.S (length U)) ∅) ∅ ps.

Lemma run_all ps :
  (∀ p, p ∈ ps → p ∈ U) →
  ∃ b c, run_quantified true ps = Some (b, c) ∧
    (b = true ↔ ∀ p, p ∈ ps → on_all_paths local parents p).
Proof.
  intros Hps. destruct (quantify_all (evaluate true local parents (Datatypes.S (length U)) ∅) ∅ ps)
    as (b & c & Hq & _ & Hb); [apply all_cache_empty| |by eauto].
  intros p c Hp Hc. apply evaluate_all; [by apply Hps| |set_solver|done].
  pose proof (todo_le ∅). lia.
Qed.

Lemma run_any ps :
  (∀ p, p ∈ ps → p ∈ U) →
  ∃ b c, run_quantified false ps = Some (b, c) ∧
    (b = true ↔ ∃ p, p ∈ ps ∧ on_some_path local parents p).
Proof.
  intros Hps. destruct (quantify_any ∅ (evaluate false local parents (Datatypes.S (length U)) ∅) ∅ ps)
    as (b & c & Hq & Ht & Hf).
  - by intros x b ?%lookup_empty_Some.
  - intros p c Hp Hc. apply evaluate_any; [by apply Hps| |done]. pose proof (todo_le ∅). lia.
  - exists b, c. split; [done|]. split; [done|]. intros (p & Hp & Hm).
    destruct b; [done|]. destruct (Hf eq_refl) as (Hc & _ & Hall).
    destruct (Hall p Hp) as [Hcp|]; [|set_solver]. by eapply any_cache_final in Hcp.
Qed.
End Exact.
