(* ===== verification/ExecutionOrder.v ===== *)
(** * Execution order

    [ContentGraph.execution_successors] ([src/apme_engine/graph/content_graph.py]) and
    the two ways [VariableProvenanceResolver]
    ([src/apme_engine/graph/variable_provenance.py]) reads it: [_execution_reaches], a
    search with an early return, and [_order_runtime_sources], which peels off the
    producers that no remaining one precedes.

    The successor sets are a map from vertices to sets; the search follows the
    elements of a set in the order [elements] gives, and its answer is shown not to
    depend on it. *)

From stdpp Require Import base list gmap strings relations fin_sets sorting.
From Stdlib Require Import Ascii String.
From S2P Require Import Prelude PyStr Yaml Violation NxGraph ContentNode ContentGraph GraphLaws Sample GraphQueries GraphSerial.

#[local] Notation length := List.length.

(** ** Searches from a vertex already seen *)

Section Search.
Context (succ : string → list string).
Implicit Types (st : list string) (seen : gset string).

Definition seen_inv (root : string) st seen : Prop :=
  root ∈ seen ∧ (∀ x, x ∈ seen → rtc (edge_rel succ) root x) ∧ (∀ x, x ∈ st → x ∈ seen) ∧
  (∀ x y, x ∈ seen → y ∈ succ x → y ∈ seen ∨ x ∈ st).

Lemma seen_inv_start root : seen_inv root [root] {[root]}.
Proof. split_and!; [set_solver| |set_solver..]. intros x ->%elem_of_singleton. reflexivity. Qed.

Lemma seen_inv_step root c st seen st2 seen2 :
  push_new (succ c) st seen = (st2, seen2) → seen_inv root (c :: st) seen → seen_inv root st2 seen2.
Proof.
  intros [Hseen Hst]%(push_new_spec succ) (Hr & Hs & Hsub & Hc).
  assert (Hcs : c ∈ seen) by (apply Hsub; by left). split_and!.
  - apply Hseen. by left.
  - intros x [Hx|Hx]%Hseen; [by apply Hs|]. eapply rtc_r; [by apply Hs|done].
  - intros x [Hx|[Hx _]]%Hst; apply Hseen; [left; apply Hsub; by right|by right].
  - intros x y Hx Hy. destruct (decide (x ∈ seen)) as [Hxs|Hxs].
    + destruct (Hc x y Hxs Hy) as [?|[->|?]%elem_of_cons].
      * left. apply Hseen. by left.
      * left. apply Hseen. by right.
      * right. apply Hst. by left.
    + right. apply Hst. right. split; [|done]. apply Hseen in Hx as [?|?]; done.
Qed.

Lemma seen_inv_final root seen : seen_inv root [] seen → ∀ x, x ∈ seen ↔ rtc (edge_rel succ) root x.
Proof.
  intros (Hr & Hs & _ & Hc) x. split; [apply Hs|]. intros Hx. revert x Hx.
  apply (rtc_ind_r (λ x, x ∈ seen)); [done|].
  intros a b _ Hab Ha. destruct (Hc a b Ha Hab); [done|set_solver].
Qed.

(** A traversal that starts with its root seen ends with what the root reaches. *)
Lemma walk_push_rooted root U :
  (∀ x y, y ∈ succ x → y ∈ U) →
  ∃ s, walk_push succ (S (length U)) [root] {[root]} = Some s ∧
       ∀ x, x ∈ s ↔ rtc (edge_rel succ) root x.
Proof.
  intros HU. assert (∀ fuel st seen, seen_inv root st seen →
    length st + unseen_weight (λ _, 1) U seen ≤ fuel →
    ∃ s, walk_push succ fuel st seen = Some s ∧ ∀ x, x ∈ s ↔ rtc (edge_rel succ) root x) as Hgen.
  { induction fuel as [|fuel IH]; intros [|c st] seen Hinv Hf; simpl in *; try lia;
      try (exists seen; split; [done|by apply seen_inv_final]).
    destruct (push_new (succ c) st seen) as [st2 seen2] eqn:Hp.
    pose proof (push_new_weight succ U _ _ _ _ _ (HU c) Hp). apply IH; [by eapply seen_inv_step|lia]. }
  apply Hgen; [apply seen_inv_start|]. simpl. pose proof (unseen_weight_ones U {[root]}). lia.
Qed.

(** The [while pending] loop of [_execution_reaches]; [None] is fuel running out.
    The inner [for] returns as soon as it meets the target. *)
Fixpoint scan_successors (target : string) (ts st : list string) seen
    : option (list string * gset string) :=
  match ts with
  | [] => Some (st, seen)
  | t :: ts' =>
    if decide (t = target) then None
    else if decide (t ∈ seen) then scan_successors target ts' st seen
    else scan_successors target ts' (t :: st) ({[t]} ∪ seen)
  end.

Fixpoint search (target : string) (fuel : nat) st seen : option bool :=
  match st with
  | [] => Some false
  | c :: st' =>
    match fuel with
    | O => None
    | S fuel' =>
      match scan_successors target (succ c) st' seen with
      | None => Some true
      | Some (st2, seen2) => search target fuel' st2 seen2
      end
    end
  end.

Lemma scan_successors_spec target ts st seen :
  scan_successors target ts st seen =
    if decide (target ∈ ts) then None else Some (push_new ts st seen).
Proof.
  revert st seen. induction ts as [|t ts IH]; intros st seen; simpl; [done|].
  destruct (decide (t = target)) as [->|Hne]; [by rewrite decide_True by (by left)|].
  rewrite !IH. destruct (decide (target ∈ ts)).
  - rewrite (decide_True (P := target ∈ t :: ts)) by (by right). by case_decide.
  - rewrite (decide_False (P := target ∈ t :: ts)) by set_solver. by case_decide.
Qed.

Lemma execution_search_spec root target U fuel st seen :
  (∀ x y, y ∈ succ x → y ∈ U) → root ≠ target → target ∉ seen →
  seen_inv root st seen → length st + unseen_weight (λ _, 1) U seen ≤ fuel →
  ∃ b, search target fuel st seen = Some b ∧ (b = true ↔ tc (edge_rel succ) root target).
Proof.
  intros HU Hne. revert st seen.
  induction fuel as [|fuel IH]; intros [|c st] seen Ht Hinv Hf; simpl in *; try lia.
  1,2: exists false; split; [done|]; split; [done|]; intros Hr; exfalso; apply Ht;
    apply (seen_inv_final root seen Hinv), tc_rtc, Hr.
  rewrite scan_successors_spec. case_decide as Hin.
  { exists true. split; [done|]. split; [|done]. intros _.
    destruct Hinv as (_ & Hs & Hsub & _). eapply tc_rtc_l; [apply Hs, Hsub; by left|by apply tc_once]. }
  destruct (push_new (succ c) st seen) as [st2 seen2] eqn:Hp.
  pose proof (push_new_weight succ U _ _ _ _ _ (HU c) Hp). apply IH; [|by eapply seen_inv_step|lia].
  apply (push_new_spec succ) in Hp as [-> _]. tauto.
Qed.

Lemma search_exact root target U :
  (∀ x y, y ∈ succ x → y ∈ U) → root ≠ target →
  ∃ b, search target (S (length U)) [root] {[root]} = Some b ∧
       (b = true ↔ tc (edge_rel succ) root target).
Proof.
  intros HU Hne. apply (execution_search_spec root target U); [done..|set_solver|apply seen_inv_start|].
  simpl. pose proof (unseen_weight_ones U {[root]}). lia.
Qed.
End Search.

(** ** [execution_successors] *)

Section Successors.
Context `{YamlLib} {G : Type} `{NxLaws ContentNode EdgeAttrs G}.
Implicit Types (g : ContentGraph G) (m : gmap string (gset string)).

Definition pos_children g (k : string) : list string :=
  targets g k CONTAINS ++ targets g k INCLUDE ++ targets g k IMPORT.

Definition positional_descendants g (roots : list string) : gset string :=
  default ∅ (walk_pop (pos_children g)
    (length roots + sum_list ((λ x, length (pos_children g x)) <$> vertices g)) (rev roots) ∅).

Definition positional_leaves g (ids : gset string) : gset string :=
  filter (λ k, Forall (λ c, c ∉ ids) (pos_children g k)) ids.

Definition succs m (k : string) : gset string := default ∅ (m !! k).

(** [successors.setdefault(s, set()).update(ts)] *)
Definition add_succs (ts : gset string) (s : string) m : gmap string (gset string) :=
  <[s := ts ∪ succs m s]> m.

(** The order of [(attrs.get("position", 0), id)]. *)
Definition branch_leb (a b : string * EdgeAttrs) : bool :=
  (ea_position a.2 <? ea_position b.2)%Z
  || ((ea_position a.2 =? ea_position b.2)%Z && String.leb a.1 b.1).

Definition branch_children g (k : string) (t : EdgeType) : list string :=
  (sort_by branch_leb (edges_from g k (Some t))).*1.

(** Children of the block that belong to neither branch. *)
Definition mainline_children g (k : string) : list string :=
  filter (λ c, c ∉ targets g k RESCUE ++ targets g k ALWAYS) (targets g k CONTAINS).

(** [xs or {parent_id}] *)
Definition or_parent (xs : gset string) (k : string) : gset string :=
  if decide (xs = ∅) then {[k]} else xs.

Definition enter_branch (sources : gset string) (first : string) m : gmap string (gset string) :=
  set_fold (λ s m, if decide (s = first) then m else add_succs {[first]} s m) m sources.

Definition chain_branch g (ch : list string) m : gmap string (gset string) :=
  foldl (λ m p, set_fold (add_succs {[p.2]}) m (positional_leaves g (positional_descendants g [p.1])))
    m (zip ch (tail ch)).

Definition add_branch g (sources : gset string) (ch : list string) m : gmap string (gset string) :=
  match ch with
  | [] => m
  | first :: _ => chain_branch g ch (enter_branch sources first m)
  end.

(** Tasks after the block that some task of the block already leads to. *)
Definition following_nodes (block_scope : gset string) m : gset string :=
  filter (λ t, t ∉ block_scope) (⋃ (succs m <$> elements block_scope)).

Definition leave_block g (k : string) (final_children : list string) m : gmap string (gset string) :=
  let following := following_nodes (positional_descendants g [k]) m in
  match last final_children with
  | Some final =>
    if decide (following = ∅) then m
    else set_fold (add_succs following) m (positional_leaves g (positional_descendants g [final]))
  | None => m
  end.

(** One block of the loop over the nodes. *)
Definition block_successors g m (k : string) : gmap string (gset string) :=
  let rescue_children := branch_children g k RESCUE in
  let always_children := branch_children g k ALWAYS in
  match rescue_children, always_children with
  | [], [] => m
  | _, _ =>
    let mainline_nodes := positional_descendants g (mainline_children g k) in
    let rescue_nodes := positional_descendants g rescue_children in
    let m1 := add_branch g (or_parent mainline_nodes k) rescue_children m in
    let m2 := add_branch g (or_parent (mainline_nodes ∪ rescue_nodes) k) always_children m1 in
    leave_block g k (match always_children with [] => rescue_children | _ => always_children end) m2
  end.

Definition execution_successors g : gmap string (gset string) :=
  foldl (block_successors g)
    (foldl (λ m e, add_succs {[e.2]} e.1 m) ∅ (execution_edges g))
    (node_id <$> nodes g).

(** *** Lookups *)

Lemma succs_add ts s m k t : t ∈ succs (add_succs ts s m) k ↔ t ∈ succs m k ∨ (k = s ∧ t ∈ ts).
Proof.
  unfold succs, add_succs. destruct (decide (k = s)) as [->|Hne].
  - rewrite lookup_insert_eq. unfold succs. set_solver.
  - rewrite lookup_insert_ne by done. set_solver.
Qed.

Lemma succs_fold (f : string → gset string) m (X : gset string) k t :
  t ∈ succs (set_fold (λ s, add_succs (f s) s) m X) k ↔ t ∈ succs m k ∨ (k ∈ X ∧ t ∈ f k).
Proof.
  rewrite <- (elem_of_elements X). unfold set_fold. simpl.
  induction (elements X) as [|s l IH]; simpl; [set_solver|]. rewrite succs_add, IH, elem_of_cons.
  destruct (decide (k = s)) as [->|]; naive_solver.
Qed.

Lemma succs_enter m sources first k t :
  t ∈ succs (enter_branch sources first m) k ↔
    t ∈ succs m k ∨ (t = first ∧ k ∈ sources ∧ k ≠ first).
Proof.
  unfold enter_branch. rewrite <- (elem_of_elements sources). unfold set_fold. simpl.
  induction (elements sources) as [|s l IH]; simpl; [set_solver|].
  case_decide as Hs; rewrite ?succs_add, IH, elem_of_cons; [|set_solver].
  subst. naive_solver.
Qed.

Lemma elem_of_zip_tail {A} (l : list A) (a b : A) :
  (a, b) ∈ zip l (tail l) ↔ ∃ i, l !! i = Some a ∧ l !! S i = Some b.
Proof.
  destruct l as [|x l]; simpl; [split; [set_solver|naive_solver]|]. revert x.
  induction l as [|y l IH]; intros x; simpl; [split; [set_solver|naive_solver]|].
  rewrite elem_of_cons, IH. split.
  - intros [[= -> ->]|(i & Hi & Hi')]; [by exists 0|by exists (S i)].
  - intros ([|i] & Hi & Hi'); [left; naive_solver|right; by exists i].
Qed.

Lemma succs_chain g ch m k t :
  t ∈ succs (chain_branch g ch m) k ↔
    t ∈ succs m k ∨ ∃ i p, ch !! i = Some p ∧ ch !! S i = Some t ∧
      k ∈ positional_leaves g (positional_descendants g [p]).
Proof.
  unfold chain_branch.
  assert (Hgen : ∀ ps : list (string * string), t ∈ succs (foldl (λ m p, set_fold (add_succs {[p.2]}) m
            (positional_leaves g (positional_descendants g [p.1]))) m ps) k ↔
    t ∈ succs m k ∨ ∃ p, (p, t) ∈ ps ∧ k ∈ positional_leaves g (positional_descendants g [p])).
  { intros ps. revert m. induction ps as [|[p q] ps IH]; intros m; simpl; [set_solver|].
    rewrite IH, (succs_fold (λ _, {[q]})). set_solver. }
  rewrite Hgen. setoid_rewrite elem_of_zip_tail. naive_solver.
Qed.

Lemma succs_leave g k final m x t :
  t ∈ succs (leave_block g k final m) x ↔ t ∈ succs m x ∨
    ∃ f, last final = Some f ∧ x ∈ positional_leaves g (positional_descendants g [f]) ∧
      t ∈ following_nodes (positional_descendants g [k]) m.
Proof.
  unfold leave_block. destruct (last final) as [f|]; [|naive_solver].
  case_decide as He; [rewrite He; set_solver|]. rewrite (succs_fold (λ _, _)). naive_solver.
Qed.

Lemma succs_branch g sources ch m x t :
  t ∈ succs (add_branch g sources ch m) x ↔ t ∈ succs m x ∨
    (head ch = Some t ∧ x ∈ sources ∧ x ≠ t) ∨
    (∃ i p, ch !! i = Some p ∧ ch !! S i = Some t ∧
      x ∈ positional_leaves g (positional_descendants g [p])).
Proof.
  unfold add_branch. destruct ch as [|c ch]; [naive_solver|].
  rewrite succs_chain, succs_enter. naive_solver.
Qed.

Definition grows m m' : Prop := ∀ x, succs m x ⊆ succs m' x.

#[global] Instance grows_preorder : PreOrder grows.
Proof. split; [by intros m x|]. intros m1 m2 m3 H12 H23 x t Ht. by apply H23, H12. Qed.

Lemma block_grows g m k : grows m (block_successors g m k).
Proof.
  intros x t Ht. unfold block_successors.
  destruct (branch_children g k RESCUE) eqn:Er, (branch_children g k ALWAYS) eqn:Ea; [done|..];
    apply succs_leave; left; apply succs_branch; left; apply succs_branch; by left.
Qed.

Lemma foldl_grows {A} (f : gmap string (gset string) → A → gmap string (gset string)) m l :
  (∀ m a, grows m (f m a)) → grows m (foldl f m l).
Proof. intros Hf. revert m. induction l as [|a l IH]; intros m; simpl; [reflexivity|]. etrans; [apply Hf|apply IH]. Qed.

(** The sources from which a branch is entered. *)
Definition branch_sources g (k : string) (t : EdgeType) : gset string :=
  let mainline_nodes := positional_descendants g (mainline_children g k) in
  match t with
  | ALWAYS => or_parent (mainline_nodes ∪ positional_descendants g (branch_children g k RESCUE)) k
  | _ => or_parent mainline_nodes k
  end.

Lemma block_branch g m k b :
  b = RESCUE ∨ b = ALWAYS →
  grows (add_branch g (branch_sources g k b) (branch_children g k b) m) (block_successors g m k).
Proof.
  intros Hb x t. unfold block_successors, branch_sources. rewrite succs_branch.
  destruct Hb as [-> | ->].
  - destruct (branch_children g k RESCUE) eqn:Er.
    { intros [Ht|[[]|(i & p & ? & _)]]; [|done..]. by apply (block_grows g m k) in Ht;
        unfold block_successors in Ht; rewrite Er in Ht. }
    intros Ht. apply succs_leave. left. apply succs_branch. left. by apply succs_branch.
  - destruct (branch_children g k ALWAYS) eqn:Ea.
    { intros [Ht|[[]|(i & p & ? & _)]]; [|done..]. by apply (block_grows g m k) in Ht;
        unfold block_successors in Ht; rewrite Ea in Ht. }
    intros Ht. destruct (branch_children g k RESCUE) eqn:Er; apply succs_leave; left;
      apply succs_branch; (destruct Ht as [Ht|Ht]; [left; apply succs_branch; by left|by right]).
Qed.

(** Some intermediate map meets each block. *)
Lemma execution_successors_block g k :
  k ∈ node_id <$> nodes g →
  ∃ m, grows (foldl (λ m e, add_succs {[e.2]} e.1 m) ∅ (execution_edges g)) m ∧
       grows (block_successors g m k) (execution_successors g).
Proof.
  intros (l1 & l2 & Hl)%list_elem_of_split. unfold execution_successors.
  rewrite Hl, foldl_app. simpl. exists (foldl (block_successors g) (foldl (λ m e, add_succs {[e.2]} e.1 m) ∅ (execution_edges g)) l1).
  split; apply foldl_grows; intros; apply block_grows.
Qed.

Lemma succs_edges (es : list (string * string)) m x t :
  t ∈ succs (foldl (λ m e, add_succs {[e.2]} e.1 m) m es) x ↔ t ∈ succs m x ∨ (x, t) ∈ es.
Proof.
  revert m. induction es as [|[a b] es IH]; intros m; simpl; [set_solver|].
  rewrite IH, succs_add. set_solver.
Qed.

(** The children of a branch are executed one after the other. *)
Definition consecutive (ch : list string) (p q : string) : Prop :=
  ∃ i, ch !! i = Some p ∧ ch !! S i = Some q.

(** Execution order through blocks.  Every edge of [execution_edges] stays a
    successor.  A [rescue] section is entered from every task below the main line of
    its block, and an [always] section also from every task below the [rescue]
    section (from the block itself when there is no such task); the last tasks below
    a child of a section lead to the next child; and the last tasks of the final
    section lead to every task outside the block that an execution edge of the block
    leads to. *)
Theorem execution_successors_blocks g k :
  k ∈ node_id <$> nodes g →
  (∀ x t, (x, t) ∈ execution_edges g → t ∈ succs (execution_successors g) x) ∧
  (∀ b first, b = RESCUE ∨ b = ALWAYS → head (branch_children g k b) = Some first →
     ∀ x, x ∈ branch_sources g k b → x ≠ first → first ∈ succs (execution_successors g) x) ∧
  (∀ b p q, b = RESCUE ∨ b = ALWAYS → consecutive (branch_children g k b) p q →
     ∀ x, x ∈ positional_leaves g (positional_descendants g [p]) →
       q ∈ succs (execution_successors g) x) ∧
  (∀ final y t,
     last (match branch_children g k ALWAYS with [] => branch_children g k RESCUE | l => l end)
       = Some final →
     (y, t) ∈ execution_edges g → y ∈ positional_descendants g [k] →
     t ∉ positional_descendants g [k] →
     ∀ x, x ∈ positional_leaves g (positional_descendants g [final]) →
       t ∈ succs (execution_successors g) x).
Proof.
  intros Hk. destruct (execution_successors_block g k Hk) as (m & Hm & Hgr).
  assert (Hed : ∀ x t, (x, t) ∈ execution_edges g → t ∈ succs m x).
  { intros x t Hx. apply Hm, succs_edges. by right. }
  split_and!.
  - intros x t Hx. by apply Hgr, block_grows, Hed.
  - intros b first Hb Hf x Hx Hne. apply Hgr, (block_branch g m k b Hb), succs_branch. auto.
  - intros b p q Hb (i & Hp & Hq) x Hx. apply Hgr, (block_branch g m k b Hb), succs_branch. eauto 10.
  - intros final y t Hlast Hy Hin Hout x Hx. apply Hgr. unfold block_successors.
    assert (Hf : ∀ m', grows m m' → t ∈ following_nodes (positional_descendants g [k]) m').
    { intros m' Hm'. apply elem_of_filter. split; [done|]. apply elem_of_union_list.
      exists (succs m' y). split; [|by apply Hm', Hed].
      apply list_elem_of_fmap. exists y. by rewrite elem_of_elements. }
    destruct (branch_children g k RESCUE) eqn:Er, (branch_children g k ALWAYS) eqn:Ea; [done|..];
      apply succs_leave; right; exists final; (split_and!; [done|done|]); apply Hf;
      intros z u Hz; apply succs_branch; left; apply succs_branch; by left.
Qed.
End Successors.

(** ** [_execution_reaches] *)

Section Reaches.
Context `{YamlLib} {G : Type} `{NxLaws ContentNode EdgeAttrs G}.
Implicit Types (g : ContentGraph G) (scope : option (gset string)).

Definition in_scope scope (k : string) : bool :=
  match scope with Some s => bool_decide (k ∈ s) | None => true end.

Definition scoped_successors g scope (k : string) : list string :=
  filter (λ t, in_scope scope t = true) (elements (succs (execution_successors g) k)).

(** The targets of the successor map, among which a search stays. *)
Definition successor_targets g : list string :=
  elements (⋃ (map_to_list (execution_successors g)).*2).

Definition execution_reaches g (source_id target_id : string) scope : bool :=
  if bool_decide (source_id = target_id)
     || negb (in_scope scope source_id && in_scope scope target_id) then false
  else default false (search (scoped_successors g scope) target_id (S (length (successor_targets g)))
                        [source_id] {[source_id]}).

(** One step of execution that stays in the scope. *)
Definition exec_step g scope (a b : string) : Prop :=
  b ∈ succs (execution_successors g) a ∧ in_scope scope b = true.

Lemma elem_of_scoped_successors g scope a b : b ∈ scoped_successors g scope a ↔ exec_step g scope a b.
Proof. unfold scoped_successors, exec_step. rewrite list_elem_of_filter, elem_of_elements. tauto. Qed.

Lemma exec_step_target g scope a b : exec_step g scope a b → b ∈ successor_targets g.
Proof.
  intros [Hb _]. unfold succs in Hb. destruct (execution_successors g !! a) as [s|] eqn:Ha; [|set_solver].
  unfold successor_targets. apply elem_of_elements, elem_of_union_list. exists s. split; [|done].
  apply list_elem_of_fmap. exists (a, s). split; [done|]. by apply elem_of_map_to_list.
Qed.

Lemma execution_reaches_spec g a b scope :
  execution_reaches g a b scope = true ↔
    a ≠ b ∧ in_scope scope a = true ∧ tc (exec_step g scope) a b.
Proof.
  unfold execution_reaches. case_bool_decide as Hab; cbn [orb negb andb]; [naive_solver|].
  assert (Hlast : tc (exec_step g scope) a b → in_scope scope b = true).
  { clear Hab. revert b. apply (tc_ind_r (λ b, in_scope scope b = true)); unfold exec_step; naive_solver. }
  destruct (in_scope scope a) eqn:Ha; cbn [orb negb andb]; [|naive_solver].
  destruct (in_scope scope b) eqn:Hb; cbn [orb negb andb]; [|naive_solver].
  destruct (search_exact (scoped_successors g scope) a b (successor_targets g)) as (r & -> & Hr); [|done|].
  { intros x y Hy%elem_of_scoped_successors. by eapply exec_step_target. }
  simpl. rewrite Hr. assert (tc (edge_rel (scoped_successors g scope)) a b ↔ tc (exec_step g scope) a b).
  { split; apply (tc_congruence id); intros x y; apply elem_of_scoped_successors. }
  tauto.
Qed.
End Reaches.

(** ** [_order_runtime_sources] *)

Section Ordering.
Context (before : string → string → bool).
Implicit Types (remaining : gset string) (l : list string).

Definition sorted l : list string := sort_by String.leb l.

(** The remaining producers that no other remaining one precedes. *)
Definition earliest remaining : list string :=
  sorted (filter (λ s, Forall (λ o, o = s ∨ before o s = false) (elements remaining))
            (elements remaining)).

Definition next_group remaining : list string :=
  match earliest remaining with [] => sorted (elements remaining) | l => l end.

(** [None] is fuel running out. *)
Fixpoint order_sources (fuel : nat) remaining : option (list string) :=
  if decide (remaining = ∅) then Some []
  else match fuel with
       | O => None
       | S fuel' =>
         app (next_group remaining) <$>
           order_sources fuel' (remaining ∖ list_to_set (next_group remaining))
       end.

Definition precedes_in l (a b : string) : Prop :=
  ∃ i j, l !! i = Some a ∧ l !! j = Some b ∧ i < j.

Lemma elem_of_earliest remaining x :
  x ∈ earliest remaining ↔
    x ∈ remaining ∧ ∀ y, y ∈ remaining → y ≠ x → before y x = false.
Proof.
  unfold earliest, sorted. rewrite elem_of_sort_by, list_elem_of_filter, elem_of_elements, Forall_forall.
  split; [|intros [Hx Hy]; split; [|done]].
  - intros [Hf Hx]. split; [done|]. intros y Hy Hne.
    destruct (Hf y) as [?|?]; [by apply elem_of_elements|congruence|done].
  - intros y Hyr. apply elem_of_elements in Hyr. destruct (decide (y = x)); auto.
Qed.

Lemma next_group_sub remaining x : x ∈ next_group remaining → x ∈ remaining.
Proof.
  unfold next_group. destruct (earliest remaining) as [|y l] eqn:E.
  - unfold sorted. by rewrite elem_of_sort_by, elem_of_elements.
  - rewrite <- E. by intros [? _]%elem_of_earliest.
Qed.

Lemma next_group_NoDup remaining : NoDup (next_group remaining).
Proof.
  unfold next_group. destruct (earliest remaining) as [|y l] eqn:E; [|rewrite <- E; unfold earliest];
    unfold sorted; rewrite sort_by_perm; [|apply NoDup_filter]; apply NoDup_elements.
Qed.

Lemma next_group_nonempty remaining : remaining ≠ ∅ → next_group remaining ≠ [].
Proof.
  intros Hne. unfold next_group. destruct (earliest remaining) eqn:E; [|done].
  unfold sorted. intros Hs. apply Hne.
  assert (elements remaining ≡ₚ []) as Hp by (rewrite <- Hs; symmetry; apply sort_by_perm).
  apply Permutation_nil_r, elements_empty_inv in Hp. by apply leibniz_equiv.
Qed.

(** Every nonempty set of producers has one that no other precedes. *)
Definition well_ordered (X : gset string) : Prop :=
  ∀ Y : gset string, Y ⊆ X → Y ≠ ∅ → ∃ x, x ∈ Y ∧ ∀ y, y ∈ Y → y ≠ x → before y x = false.

Lemma precedes_in_app_l l l' a b : precedes_in l' a b → precedes_in (l ++ l') a b.
Proof.
  intros (i & j & Hi & Hj & Hlt). exists (length l + i), (length l + j).
  rewrite !lookup_app_r by lia. split_and!; [by replace (length l + i - length l) with i by lia
    |by replace (length l + j - length l) with j by lia|lia].
Qed.

Lemma precedes_in_app l l' a b : a ∈ l → b ∈ l' → precedes_in (l ++ l') a b.
Proof.
  intros [i Hi]%list_elem_of_lookup [j Hj]%list_elem_of_lookup.
  exists i, (length l + j). pose proof (lookup_lt_Some _ _ _ Hi). split_and!; [by rewrite lookup_app_l| |lia].
  rewrite lookup_app_r by lia. by replace (length l + j - length l) with j by lia.
Qed.

Lemma order_sources_spec fuel remaining :
  size remaining ≤ fuel →
  ∃ l, order_sources fuel remaining = Some l ∧ l ≡ₚ elements remaining ∧
    (well_ordered remaining → ∀ a b, a ∈ remaining → b ∈ remaining → a ≠ b → before a b = true →
       precedes_in l a b).
Proof.
  revert remaining. induction fuel as [|fuel IH]; intros remaining Hf; simpl; case_decide as Hd.
  1,3: exists []; subst; split_and!; [done|by rewrite elements_empty|set_solver].
  { exfalso. apply Hd, leibniz_equiv, size_empty_inv. lia. }
  set (e := next_group remaining). set (rest := remaining ∖ list_to_set e).
  assert (Hsub : list_to_set e ⊆ remaining).
  { intros x Hx%elem_of_list_to_set. by apply next_group_sub. }
  destruct (IH rest) as (l & -> & Hp & Hord).
  { unfold rest. rewrite size_difference by done.
    destruct e as [|x e'] eqn:He; [by apply next_group_nonempty in Hd|].
    assert (size (list_to_set (x :: e') : gset string) ≠ 0); [|lia].
    intros Hz%size_empty_inv. simpl in Hz. set_solver. }
  exists (e ++ l). split_and!; [done| |].
  - rewrite Hp, <- (elements_list_to_set (C := gset string) e) at 1 by apply next_group_NoDup.
    unfold rest. rewrite <- elements_disj_union by set_solver. by rewrite <- union_difference_L.
  - intros Hwo a b Ha Hb Hne Hab.
    assert (Hbe : b ∉ e).
    { destruct (Hwo remaining) as (x & Hx & Hmin); [done..|].
      assert (x ∈ earliest remaining) as Hxe by (by apply elem_of_earliest).
      unfold e, next_group. destruct (earliest remaining) as [|z l'] eqn:E; [set_solver|].
      rewrite <- E. intros [_ Hb']%elem_of_earliest. specialize (Hb' a Ha Hne). congruence. }
    assert (Hbr : b ∈ rest) by (apply elem_of_difference; rewrite elem_of_list_to_set; done).
    destruct (decide (a ∈ e)) as [Hae|Hae].
    + apply precedes_in_app; [done|]. by rewrite Hp, elem_of_elements.
    + apply precedes_in_app_l, Hord; [|apply elem_of_difference; rewrite elem_of_list_to_set; done|done..].
      intros Y HY. apply Hwo. set_solver.
Qed.
End Ordering.

(** ** Producers in execution order *)

Section RuntimeOrder.
Context `{YamlLib} {G : Type} `{NxLaws ContentNode EdgeAttrs G}.
Implicit Types (g : ContentGraph G) (scope : option (gset string)) (ids : gset string).

Definition order_runtime_sources g ids scope : list string :=
  default [] (order_sources (λ a b, execution_reaches g a b scope) (size ids) ids).

(** No task of the scope can be executed after itself. *)
Definition exec_acyclic g scope : Prop := ∀ x, ¬ tc (exec_step g scope) x x.

Lemma reaches_trans g scope :
  exec_acyclic g scope → Transitive (λ a b, execution_reaches g a b scope = true).
Proof.
  intros Hac a b c Hab Hbc. apply execution_reaches_spec in Hab as (? & Ha & Hab).
  apply execution_reaches_spec in Hbc as (? & _ & Hbc). apply execution_reaches_spec.
  assert (Hc : tc (exec_step g scope) a c) by (by eapply tc_trans). split_and!; [|done..].
  intros ->. by eapply Hac.
Qed.

Lemma reaches_well_ordered g scope ids :
  exec_acyclic g scope → well_ordered (λ a b, execution_reaches g a b scope) ids.
Proof.
  intros Hac Y _ Hne. pose proof (reaches_trans g scope Hac) as Htr.
  assert (∀ a b, Decision (execution_reaches g a b scope = true)) as Hdec by apply _.
  destruct (minimal_exists_elem_of_L (λ a b, execution_reaches g a b scope = true) Y Hne)
    as (x & Hx & Hmin).
  exists x. split; [done|]. intros y Hy Hyx. destruct (execution_reaches g y x scope) eqn:E; [|done].
  exfalso. pose proof (Hmin y Hy E) as Exy. pose proof (Htr _ _ _ Exy E) as Hxx.
  by apply execution_reaches_spec in Hxx as (? & _).
Qed.

Lemma order_runtime_sources_perm g ids scope : order_runtime_sources g ids scope ≡ₚ elements ids.
Proof.
  unfold order_runtime_sources.
  by destruct (order_sources_spec (λ a b, execution_reaches g a b scope) (size ids) ids) as (l & -> & Hp & _).
Qed.

Lemma order_runtime_sources_before g ids scope a b :
  exec_acyclic g scope → a ∈ ids → b ∈ ids → execution_reaches g a b scope = true →
  precedes_in (order_runtime_sources g ids scope) a b.
Proof.
  intros Hac Ha Hb Hab. unfold order_runtime_sources.
  destruct (order_sources_spec (λ a b, execution_reaches g a b scope) (size ids) ids)
    as (l & -> & _ & Ho); [done|].
  apply Ho; [by apply reaches_well_ordered|done|done| |done]. by apply execution_reaches_spec in Hab as (? & _).
Qed.

(** C39: [_execution_reaches] is exact.  It answers [True] when the two tasks differ,
    the source is in the scope, and one or more execution steps that stay in the
    scope lead from the source to the target; and otherwise [False].  The search
    ends on cyclic orders too. *)
Theorem execution_reaches_exact g source_id target_id scope :
  execution_reaches g source_id target_id scope = true ↔
    source_id ≠ target_id ∧ in_scope scope source_id = true ∧
    tc (exec_step g scope) source_id target_id.
Proof. apply execution_reaches_spec. Qed.

(** [_order_runtime_sources] lists every producer once, whatever the graph; and
    where no task can run after itself, a producer that execution reaches from another
    one comes after it. *)
Theorem runtime_sources_ordered g ids scope :
  order_runtime_sources g ids scope ≡ₚ elements ids ∧
  (exec_acyclic g scope → ∀ a b, a ∈ ids → b ∈ ids → execution_reaches g a b scope = true →
     precedes_in (order_runtime_sources g ids scope) a b).
Proof.
  split; [apply order_runtime_sources_perm|]. intros. by apply order_runtime_sources_before.
Qed.
End RuntimeOrder.

(** An order of the tasks that every execution step follows rules out cycles. *)
Lemma acyclic_by_rank `{NxLaws ContentNode EdgeAttrs G} (g : ContentGraph G) scope (rank : string → nat) :
  Forall (λ p, Forall (λ b, rank p.1 < rank b) (elements p.2)) (map_to_list (execution_successors g)) →
  exec_acyclic g scope.
Proof.
  intros Hf. assert (Hstep : ∀ a b, exec_step g scope a b → rank a < rank b).
  { intros a b [Hb _]. unfold succs in Hb.
    destruct (execution_successors g !! a) as [s|] eqn:Ha; [|set_solver].
    rewrite Forall_forall in Hf. specialize (Hf (a, s) ltac:(by apply elem_of_map_to_list)).
    rewrite Forall_forall in Hf. apply Hf. by apply elem_of_elements. }
  assert (Htc : ∀ a b, tc (exec_step g scope) a b → rank a < rank b).
  { induction 1 as [a b Hab|a b c Hab _ IH]; [by apply Hstep|]. specialize (Hstep a b Hab). lia. }
  intros x Hx. specialize (Htc x x Hx). lia.
Qed.

(** ** A block with a rescue and an always section *)

Module BlockDemo.
#[local] Open Scope string_scope.

Definition block_graph : ContentGraph SG :=
  build_graph
    [sample_node "play" PLAY 1 9 ""; sample_node "block" BLOCK 2 8 "";
     sample_node "main" TASK 3 3 ""; sample_node "rescue" TASK 4 4 "";
     sample_node "always" TASK 5 5 ""; sample_node "after" TASK 9 9 ""]
    [("play", "block", CONTAINS, 0%Z); ("play", "after", CONTAINS, 1%Z);
     ("block", "main", CONTAINS, 0%Z); ("block", "rescue", CONTAINS, 1%Z);
     ("block", "rescue", RESCUE, 0%Z); ("block", "always", CONTAINS, 2%Z);
     ("block", "always", ALWAYS, 0%Z)].

Definition rank (k : string) : nat :=
  default 9 (fst <$> list_find (eq k) ["play"; "block"; "main"; "rescue"; "always"; "after"]).

(** The always section is entered from the main line and from the rescue section, and
    leads on to the task after the block. *)
Lemma execution_successors_blocks_witness :
  "always" ∈ succs (execution_successors block_graph) "main" ∧
  "always" ∈ succs (execution_successors block_graph) "rescue" ∧
  "after" ∈ succs (execution_successors block_graph) "always".
Proof.
  destruct (execution_successors_blocks (G := SG) block_graph "block") as (_ & Hin & _ & Hout).
  { apply (bool_decide_unpack _). vm_compute. exact I. }
  split_and!.
  - apply (Hin ALWAYS); [by right|vm_compute; reflexivity| |discriminate].
    apply (bool_decide_unpack _). vm_compute. exact I.
  - apply (Hin ALWAYS); [by right|vm_compute; reflexivity| |discriminate].
    apply (bool_decide_unpack _). vm_compute. exact I.
  - apply (Hout "always" "main"); [vm_compute; reflexivity| | | |];
      apply (bool_decide_unpack _); vm_compute; exact I.
Defined.

Lemma execution_reaches_exact_witness :
  tc (exec_step block_graph None) "rescue" "after" ∧ ¬ tc (exec_step block_graph None) "after" "main".
Proof.
  split.
  - apply (execution_reaches_exact (G := SG) block_graph "rescue" "after" None). vm_compute. reflexivity.
  - intros Ht. assert (Hr : execution_reaches block_graph "after" "main" None = true).
    { apply (execution_reaches_exact (G := SG) block_graph). done. }
    vm_compute in Hr. discriminate.
Defined.

Lemma runtime_sources_ordered_witness :
  precedes_in (order_runtime_sources block_graph {["after"; "main"; "always"]} None) "main" "after".
Proof.
  apply (runtime_sources_ordered (G := SG) block_graph {["after"; "main"; "always"]} None).
  - apply (acyclic_by_rank block_graph None rank). apply (bool_decide_unpack _). vm_compute. exact I.
  - apply (bool_decide_unpack _). vm_compute. exact I.
  - apply (bool_decide_unpack _). vm_compute. exact I.
  - vm_compute. reflexivity.
Defined.
End BlockDemo.
