(* ===== verification/Definitions.v ===== *)
(** * Parsed definitions and their keys

    What the parser hands to the graph builder: the classes of
    [src/apme_engine/engine/models.py] with the fields the builder reads, the keys of
    [src/apme_engine/engine/keyutil.py] under which definitions refer to each other,
    [children_to_key], which replaces the children of a definition by their sorted keys,
    and the part of [graph_builder.py] that merges the definitions of several artifacts.

    A child is an object or the key of one ([ref]).  The option lists [block], [rescue]
    and [always] of a task, the only ones that hold tasks, are fields of their own;
    [None] stands for an absent one and for a value that is not a list. *)

From stdpp Require Import base list gmap strings pretty sorting.
From Stdlib Require Import Ascii String.
From S2P Require Import Prelude PyStr Yaml PyPath ContentNode.

#[local] Open Scope string_scope.
#[local] Notation length := List.length.

(** ** The classes *)

Inductive ref (A : Type) := RObj (a : A) | RKey (k : string).
Arguments RObj {A} a.
Arguments RKey {A} k.

Record BecomeInfo := MkBecome {
  bi_enabled : bool;
  bi_become : string;
  bi_user : string;
  bi_method : string;
  bi_flags : string;
}.

Record Module := MkModule {
  mo_name : string;
  mo_fqcn : string;
  mo_key : string;
  mo_defined_in : string;
}.

Record TaskInfo := MkTaskInfo {
  tk_name : option string;
  tk_module : string;
  tk_key : string;
  tk_become : option BecomeInfo;
  tk_variables : YAMLDict;
  tk_set_facts : YAMLDict;
  tk_options : YAMLDict;
  tk_module_options : YAMLDict;
  tk_executable : string;
  tk_executable_type : string;
  tk_collections_in_play : list string;
  tk_yaml_lines : string;
  tk_line_num_in_file : list Z;
}.

Inductive Task := MkTask (info : TaskInfo) (block rescue always : option (list (ref Task))).

Definition tk_info (t : Task) : TaskInfo := let 'MkTask i _ _ _ := t in i.
Definition tk_block (t : Task) : option (list (ref Task)) := let 'MkTask _ b _ _ := t in b.
Definition tk_rescue (t : Task) : option (list (ref Task)) := let 'MkTask _ _ r _ := t in r.
Definition tk_always (t : Task) : option (list (ref Task)) := let 'MkTask _ _ _ a := t in a.

Record TaskFile := MkTaskFile {
  tf_defined_in : string;
  tf_key : string;
  tf_tasks : list (ref Task);
  tf_variables : YAMLDict;
}.

Record RoleInPlay := MkRoleInPlay { rip_name : string }.

Record Play := MkPlay {
  pl_name : string;
  pl_key : string;
  pl_import_playbook : string;
  pl_pre_tasks : list (ref Task);
  pl_tasks : list (ref Task);
  pl_post_tasks : list (ref Task);
  pl_handlers : list (ref Task);
  pl_roles : list (ref RoleInPlay);
  pl_options : YAMLDict;
  pl_become : option BecomeInfo;
  pl_variables : YAMLDict;
  pl_vars_files : list string;
}.

Record Playbook := MkPlaybook {
  pb_name : string;
  pb_defined_in : string;
  pb_key : string;
  pb_yaml_lines : string;
  pb_plays : list (ref Play);
  pb_variables : YAMLDict;
  pb_options : YAMLDict;
}.

(** A handler of a role is a handler file, a task, or a key. *)
Inductive handler := HTaskFile (tf : TaskFile) | HTask (t : Task) | HKey (k : string).

Record Role := MkRole {
  ro_name : string;
  ro_defined_in : string;
  ro_key : string;
  ro_fqcn : string;
  ro_metadata : yval;
  ro_playbooks : list (ref Playbook);
  ro_taskfiles : list (ref TaskFile);
  ro_handlers : list handler;
  ro_modules : list (ref Module);
  ro_dependency : yval;
  ro_default_variables : YAMLDict;
  ro_variables : YAMLDict;
}.

Record Collection := MkCollection {
  co_name : string;
  co_path : string;
  co_key : string;
  co_metadata : yval;
  co_meta_runtime : yval;
  co_files : yval;
  co_playbooks : list (ref Playbook);
  co_taskfiles : list (ref TaskFile);
  co_roles : list (ref Role);
  co_modules : list (ref Module);
}.

(** An [Object] of the definition lists; of the other classes only the key matters. *)
Inductive definition :=
| DCollection (c : Collection)
| DRole (r : Role)
| DTaskFile (tf : TaskFile)
| DModule (m : Module)
| DPlaybook (pb : Playbook)
| DPlay (p : Play)
| DTask (t : Task)
| DOther (key : string).

Definition def_key (d : definition) : string :=
  match d with
  | DCollection c => co_key c
  | DRole r => ro_key r
  | DTaskFile tf => tf_key tf
  | DModule m => mo_key m
  | DPlaybook pb => pb_key pb
  | DPlay p => pl_key p
  | DTask t => tk_key (tk_info t)
  | DOther k => k
  end.

(** ** Keys *)

Definition key_delimiter : string := ":".
Definition object_delimiter : string := "#".

Definition make_global_key_prefix (collection role : string) : string :=
  if negb (String.eqb collection "") then "collection" +:+ key_delimiter +:+ collection +:+ object_delimiter
  else if negb (String.eqb role "") then "role" +:+ key_delimiter +:+ role +:+ object_delimiter
  else "".

Definition detect_type (key : string) : string := hd "" (split_on " " key).

(** [key.split(" ")[-1]] *)
Definition key_payload (key : string) : string := after_last " " key.

(** The key of the child number [index] of an object, for the types [play] and [task]. *)
Definition indexed_key (type parent_key : string) (index : Z) : string :=
  type +:+ " " +:+ key_payload parent_key +:+ object_delimiter +:+ type +:+ key_delimiter
    +:+ "[" +:+ pretty index +:+ "]".

(** The global key of a play and of a task; the local key is made in the same way from
    the local key of the parent. *)
Definition set_play_key (parent_key : string) (index : Z) : string := indexed_key "play" parent_key index.
Definition set_task_key (parent_key : string) (index : Z) : string := indexed_key "task" parent_key index.

(** The global key of a definition with a name of its own. *)
Definition named_key (type prefix name : string) : string :=
  type +:+ " " +:+ prefix +:+ type +:+ key_delimiter +:+ name.

Definition set_role_key (collection fqcn : string) : string :=
  named_key "role" (make_global_key_prefix collection "") fqcn.
Definition set_module_key (collection role fqcn : string) : string :=
  named_key "module" (make_global_key_prefix collection role) fqcn.
Definition set_collection_key (name : string) : string := named_key "collection" "" name.
Definition set_repository_key (name : string) : string := named_key "repository" "" name.
Definition set_taskfile_key (collection role defined_in : string) : string :=
  named_key "taskfile" (make_global_key_prefix collection role) defined_in.
Definition set_playbook_key (collection role defined_in : string) : string :=
  named_key "playbook" (make_global_key_prefix collection role) defined_in.
Definition set_file_key (collection role defined_in : string) : string :=
  named_key "file" (make_global_key_prefix collection role) defined_in.

Definition make_imported_taskfile_key (caller_key path : string) : string :=
  let part := hd "" (split_on "#" (key_payload caller_key)) in
  let parent := if startswith part "collection" || startswith part "role" then part +:+ object_delimiter else "" in
  "taskfile " +:+ parent +:+ "taskfile" +:+ key_delimiter +:+ normpath path.

(** ** [children_to_key] *)

Definition ref_key {A} (key : A → string) (r : ref A) : string :=
  match r with RObj a => key a | RKey k => k end.

(** [sorted(t.key if isinstance(t, Task) else t for t in refs)] *)
Definition sorted_keys {A} (key : A → string) (refs : list (ref A)) : list (ref A) :=
  RKey <$> sort_by String.leb (ref_key key <$> refs).

Definition task_keys : list (ref Task) → list (ref Task) := sorted_keys (λ t, tk_key (tk_info t)).

Definition taskfile_to_key (tf : TaskFile) : TaskFile :=
  MkTaskFile (tf_defined_in tf) (tf_key tf) (task_keys (tf_tasks tf)) (tf_variables tf).

Definition play_to_key (p : Play) : Play :=
  MkPlay (pl_name p) (pl_key p) (pl_import_playbook p) (task_keys (pl_pre_tasks p)) (task_keys (pl_tasks p))
    (task_keys (pl_post_tasks p)) (task_keys (pl_handlers p)) (pl_roles p) (pl_options p) (pl_become p)
    (pl_variables p) (pl_vars_files p).

Definition playbook_to_key (pb : Playbook) : Playbook :=
  MkPlaybook (pb_name pb) (pb_defined_in pb) (pb_key pb) (pb_yaml_lines pb) (sorted_keys pl_key (pb_plays pb))
    (pb_variables pb) (pb_options pb).

Definition role_to_key (r : Role) : Role :=
  MkRole (ro_name r) (ro_defined_in r) (ro_key r) (ro_fqcn r) (ro_metadata r)
    (sorted_keys pb_key (ro_playbooks r)) (sorted_keys tf_key (ro_taskfiles r)) (ro_handlers r)
    (sorted_keys mo_key (ro_modules r)) (ro_dependency r) (ro_default_variables r) (ro_variables r).

Definition collection_to_key (c : Collection) : Collection :=
  MkCollection (co_name c) (co_path c) (co_key c) (co_metadata c) (co_meta_runtime c) (co_files c)
    (sorted_keys pb_key (co_playbooks c)) (sorted_keys tf_key (co_taskfiles c)) (sorted_keys ro_key (co_roles c))
    (sorted_keys mo_key (co_modules c)).

Definition objects {A} (refs : list (ref A)) : list A :=
  omap (λ r, match r with RObj a => Some a | RKey _ => None end) refs.

(** The tasks of task files and plays, in the order [Parser.run] lists them. *)
Definition listed_tasks (taskfiles : list TaskFile) (plays : list Play) : list Task :=
  ((taskfiles ≫= λ tf, objects (tf_tasks tf)) ++ (plays ≫= λ p, objects (pl_pre_tasks p))
    ++ (plays ≫= λ p, objects (pl_tasks p)) ++ (plays ≫= λ p, objects (pl_post_tasks p))
    ++ (plays ≫= λ p, objects (pl_handlers p)))%list.

(** The definitions [Parser.run] assembles from what the loaders returned: the collection
    and roles, and the task files, playbooks and modules loaded besides those of the roles.
    Plays and tasks are listed on their own, and every definition refers to its children by
    key. *)
Definition parsed_definitions (target_name : string) (collection : option Collection) (roles : list Role)
    (taskfiles : list TaskFile) (playbooks : list Playbook) (modules : list Module) : list (string * list definition) :=
  let taskfiles := ((roles ≫= λ r, if decide (ro_fqcn r = target_name) then [] else objects (ro_taskfiles r))
    ++ taskfiles)%list in
  let playbooks := ((roles ≫= λ r, objects (ro_playbooks r)) ++ playbooks)%list in
  let plays := playbooks ≫= λ pb, objects (pb_plays pb) in
  let tasks := listed_tasks taskfiles plays in
  let modules := ((roles ≫= λ r, objects (ro_modules r)) ++ modules)%list in
  [("collections", (λ c, DCollection (collection_to_key c)) <$> match collection with Some c => [c] | None => [] end);
   ("roles", (λ r, DRole (role_to_key r)) <$> roles);
   ("taskfiles", (λ tf, DTaskFile (taskfile_to_key tf)) <$> taskfiles); ("modules", DModule <$> modules);
   ("playbooks", (λ pb, DPlaybook (playbook_to_key pb)) <$> playbooks);
   ("plays", (λ p, DPlay (play_to_key p)) <$> plays); ("tasks", DTask <$> tasks)].

(** ** Merging the definitions of artifacts *)

(** A value of the definitions dictionary, as far as the loader looks at it: a list or an
    [ObjectList] (its elements, [None] for one that is no object), a dictionary, or
    anything else. *)
Inductive pyobj := PList (l : list (option definition)) | PDict (d : list (string * pyobj)) | POther.

Definition DEFINITION_TYPES : list string :=
  ["collections"; "roles"; "taskfiles"; "modules"; "playbooks"; "plays"; "tasks"].

Definition safe_object_list (v : pyobj) : list definition :=
  match v with PList l => omap id l | _ => [] end.

Definition load_single_definition (defs : list (string * pyobj)) (key : string) : list definition :=
  safe_object_list (default POther (dget key defs)).

Definition as_pydict (v : pyobj) : list (string * pyobj) := match v with PDict d => d | _ => [] end.

(** [definitions_per_artifact.get("definitions", {})] when it is a dictionary *)
Definition artifact_defs (v : pyobj) : list (string * pyobj) :=
  match v with PDict d => as_pydict (default POther (dget "definitions" d)) | _ => [] end.

Definition load_all_definitions (definitions : list (string * pyobj)) : list (string * list definition) :=
  let artifacts := match dget "mappings" definitions with
                   | Some _ => [("root", PDict definitions)]
                   | None => definitions
                   end in
  (λ type, (type, artifacts ≫= λ a, load_single_definition (artifact_defs a.2) type)) <$> DEFINITION_TYPES.

(** ** The order of children *)

Lemma sort_by_id {A} (le : A → A → bool) (l : list A) :
  StronglySorted (λ a b, le a b = true) l → sort_by le l = l.
Proof.
  induction 1 as [|x l _ IH Hx]; [done|]. change (insert_by le x (sort_by le l) = x :: l). rewrite IH.
  destruct l as [|y l]; [done|]. simpl. inversion Hx as [|? ? Hxy]; subst. by rewrite Hxy.
Qed.

Lemma compare_app p a b : String.compare (p +:+ a) (p +:+ b) = String.compare a b.
Proof. induction p as [|c p IH]; simpl; [done|]. unfold Ascii.compare. by rewrite N.compare_refl. Qed.

Lemma leb_app p a b : String.leb (p +:+ a) (p +:+ b) = String.leb a b.
Proof. unfold String.leb. by rewrite compare_app. Qed.

Lemma digit_keys_ordered (i j : nat) :
  (i ≤ j)%nat → (j < 10)%nat →
  String.leb (pretty (Z.of_nat i) +:+ "]") (pretty (Z.of_nat j) +:+ "]") = true.
Proof.
  intros Hij Hj.
  assert (Hall : forallb (λ j, forallb (λ i, implb (i <=? j)%nat
    (String.leb (pretty (Z.of_nat i) +:+ "]") (pretty (Z.of_nat j) +:+ "]"))) (seq 0 10)) (seq 0 10) = true)
    by (vm_compute; reflexivity).
  rewrite forallb_forall in Hall. specialize (Hall j ltac:(apply in_seq; lia)).
  rewrite forallb_forall in Hall. specialize (Hall i ltac:(apply in_seq; lia)).
  by rewrite (proj2 (Nat.leb_le i j) Hij) in Hall.
Qed.

(** Up to ten children keep their order.  When the tasks of a parent bear the keys of
    consecutive indices below ten, replacing them by their sorted keys keeps them in the
    order of the source. *)
Theorem children_order_kept parent a ts :
  (∀ j t, ts !! j = Some t → tk_key (tk_info t) = set_task_key parent (Z.of_nat (a + j))) →
  (a + length ts ≤ 10)%nat →
  task_keys (RObj <$> ts) = (λ t, RKey (tk_key (tk_info t))) <$> ts.
Proof.
  intros Hkeys Hlen. unfold task_keys, sorted_keys. rewrite <- list_fmap_compose.
  rewrite sort_by_id; [by rewrite <- list_fmap_compose|].
  assert (Hs : StronglySorted (λ t t', String.leb (tk_key (tk_info t)) (tk_key (tk_info t')) = true) ts).
  { revert a Hkeys Hlen. induction ts as [|t ts IH]; intros a Hkeys Hlen; constructor.
    - apply (IH (S a)); [|simpl in Hlen; lia]. intros j t' Hj. rewrite (Hkeys (S j) t' Hj). f_equal. lia.
    - apply Forall_lookup. intros j t' Hj. rewrite (Hkeys 0%nat t eq_refl), (Hkeys (S j) t' Hj).
      apply lookup_lt_Some in Hj. simpl in Hlen. unfold set_task_key, indexed_key. rewrite !leb_app.
      apply digit_keys_ordered; lia. }
  clear Hkeys Hlen. induction Hs as [|t ts Hs IH Ht]; simpl; constructor; [done|]. by apply Forall_fmap.
Qed.

Module OrderDemo.
Definition keyed (i : nat) : Task :=
  MkTask (MkTaskInfo None "ping" (set_task_key "play p#play:[0]" (Z.of_nat i)) None [] [] [] [] "" "" [] "" []) None None None.

Lemma children_order_kept_witness :
  task_keys (RObj <$> (keyed <$> seq 0 10)) = (λ i, RKey (set_task_key "play p#play:[0]" (Z.of_nat i))) <$> seq 0 10.
Proof.
  rewrite (children_order_kept "play p#play:[0]" 0).
  - vm_compute. reflexivity.
  - intros j t (i & -> & Hi)%list_lookup_fmap_Some. apply lookup_seq in Hi as [-> _]. reflexivity.
  - simpl. lia.
Defined.
End OrderDemo.
