(* ===== verification/GraphBuilder.v ===== *)
(** * The graph builder

    Models [GraphBuilder] of [src/apme_engine/engine/graph_builder.py], which makes the
    content graph of a scan from parsed definitions ([Definitions]).  The builder object is
    explicit state ([builder]): the graph, the ids it has visited, and the counts of
    references it could not resolve.

    A task of a block refers to its children as objects or by key, so the recursion of
    [_build_task] is not structural and carries fuel; [None] stands for the recursion error
    that Python raises when it does not end.  The file system, [ast] and
    [networkx.topological_sort] are parameters. *)

From stdpp Require Import base list gmap strings pretty.
From Stdlib Require Import Ascii String.
From S2P Require Import Prelude PyStr Yaml PyPath PyRe NxGraph ContentNode ContentGraph GraphQueries Definitions.

#[local] Open Scope string_scope.
#[local] Notation length := List.length.

(** ** Parameters *)

Class PySource := {
  isfile : string → bool;
  (* open(path, errors="replace").read(); None is an OSError *)
  read_text : string → option string;
  (* the functions ast.walk finds, with whether the return type is missing; None is a SyntaxError *)
  ast_functions : string → option (list (string * bool));
}.

(** [networkx.topological_sort]; [None] is [NetworkXUnfeasible]. *)
Class TopoSort (G : Type) := nx_topological_sort : G → option (list string).

(** ** Utility functions *)

Definition has_template (value : string) : bool :=
  match replace_first "{{" "" value with Some _ => true | None => false end.

Definition safe_dict (v : yval) : YAMLDict := match v with YDict d => d | _ => [] end.

(** [x or y] on strings *)
Definition or_else (x y : string) : string := if String.eqb x "" then y else x.

(** [str(d.get(k, "") or default)] *)
Definition get_or (k : string) (d : YAMLDict) (other : string) : string :=
  let v := yget k d in if ytruthy v then ystr v else other.

Section Python.
Context `{PySource}.

Definition analyze_python_file (path : string) : Z * list string :=
  if String.eqb path "" || negb (isfile path) then (0%Z, [])
  else
    match read_text path with
    | None => (0%Z, [])
    | Some source =>
      let line_count := Z.of_nat (length (splitlines source)) in
      match ast_functions source with
      | None => (line_count, [])
      | Some fs => (line_count, fst <$> filter (λ f, f.2 = true) fs)
      end
    end.
End Python.

Definition collection_entry (e : yval) : option string :=
  match e with
  | YDict d => as_str (yget "name" d)
  | YStr s => Some s
  | _ => None
  end.

Definition normalize_collection_files (files_raw : yval) : list string :=
  if negb (ytruthy files_raw) then []
  else
    match files_raw with
    | YDict d =>
      match yget "files" d with
      | YList entries => sort_by String.leb (omap collection_entry entries)
      | _ => sort_by String.leb (filter (λ k, k ≠ "format") d.*1)
      end
    | YList l => sort_by String.leb (ystr <$> l)
    | _ => []
    end.

(** The 1-based numbers of the lines that start a play. *)
Definition is_play_start (line : string) : bool := startswith line "- " || String.eqb line "-".

Definition play_starts (lines : list string) : list Z :=
  mjoin (imap (λ i l, if is_play_start l then [Z.of_nat i + 1]%Z else []) lines).

Definition find_play_lines (file_content : string) (play_index : nat) : Z * Z :=
  let lines := splitlines file_content in
  let starts := play_starts lines in
  match starts !! play_index with
  | None => (0, 0)%Z
  | Some start =>
    (start, match starts !! S play_index with Some next => (next - 1)%Z | None => Z.of_nat (length lines) end)
  end.

Definition extract_lines (line_num : list Z) : Z * Z :=
  match line_num with a :: b :: _ => (a, b) | _ => (0, 0)%Z end.

Definition extract_become (become : option BecomeInfo) : option YAMLDict :=
  (λ b, [("enabled", YBool (bi_enabled b)); ("become", YStr (bi_become b)); ("user", YStr (bi_user b));
         ("method", YStr (bi_method b)); ("flags", YStr (bi_flags b))]) <$> become.

Definition has_block_children (t : Task) : bool :=
  match tk_block t, tk_rescue t, tk_always t with None, None, None => false | _, _, _ => true end.

(** *** Variable references *)

(** The rest of a text after the first two closing braces that no line break precedes,
    with what stands before them. *)
Fixpoint until_close (s : string) : option (string * string) :=
  match s with
  | String a (String b s' as s1) =>
    if Ascii.eqb a "}" && Ascii.eqb b "}" then Some ("", s')
    else if Ascii.eqb a LF then None
    else prod_map (String a) id <$> until_close s1
  | _ => None
  end.

(** [_JINJA_VAR.findall], without the braces; one unit of fuel per character. *)
Fixpoint jinja_vars (fuel : nat) (s : string) : list string :=
  match fuel, s with
  | S fuel', String c s' =>
    if startswith s "{{" then
      match until_close (sdrop 2 s) with
      | Some (body, rest) => body :: jinja_vars fuel' rest
      | None => jinja_vars fuel' s'
      end
    else jinja_vars fuel' s'
  | _, _ => []
  end.

Definition lstrip_set (p : ascii → bool) : string → string :=
  fix go s := match s with String c s' => if p c then go s' else s | "" => "" end.

Definition rstrip_set (p : ascii → bool) : string → string :=
  fix go s :=
    match s with
    | "" => ""
    | String c s' => match go s' with "" => if p c then "" else String c "" | r => String c r end
    end.

(** [match.strip("{} ")]: the braces of the match itself go with the others. *)
Definition strip_braces (s : string) : string := rstrip_set (one_of "{} ") (lstrip_set (one_of "{} ") s).

(** [str.isidentifier] on Latin-1 text *)
Definition xid_start (c : ascii) : bool :=
  in_range 65 90 c || in_range 97 122 c || (code c =? 95)%N || (code c =? 170)%N || (code c =? 181)%N
  || (code c =? 186)%N || in_range 192 214 c || in_range 216 246 c || in_range 248 255 c.
Definition xid_continue (c : ascii) : bool := xid_start c || in_range 48 57 c || (code c =? 183)%N.
Definition isidentifier (s : string) : bool :=
  match s with "" => false | String c s' => xid_start c && sforall xid_continue s' end.

Definition reference_of (body : string) : string :=
  strip (hd "" (split_on "." (hd "" (split_on "|" (strip_braces body))))).

Definition when_texts (w : when_expr) : list string :=
  match w with
  | WhenNone => []
  | WhenStr s => if String.eqb s "" then [] else [s]
  | WhenList l => l
  end.

(** The set is represented by its elements in order of appearance. *)
Definition extract_variable_references (n : ContentNode) : list string :=
  let texts := (when_texts (f_when (nd_fields n)) ++ omap as_str (f_module_options (nd_fields n)).*2)%list in
  let text := sjoin " " texts in
  remove_dups (filter (λ r, isidentifier r = true) (reference_of <$> jinja_vars (String.length text) text)).

(** ** Nodes *)

(** [NodeMeta] of a node with a file, lines and a scope. *)
Definition plain_meta (file : string) (line_start line_end : Z) (scope : NodeScope)
    (collections_in_play : list string) : NodeMeta :=
  MkMeta file line_start line_end scope [] "" [] [] [] "" "" [] [] [] 0 [] collections_in_play.

Definition fresh_node (path : string) (t : NodeType) (meta : NodeMeta) (f : NodeFields) (yaml : string)
    : ContentNode :=
  MkNode (MkIdentity path t) meta f yaml (detect_indent yaml) None [] [].

(** The fields of a node that has a name and variables only. *)
Definition named_fields (name : option string) (options variables : YAMLDict) : NodeFields :=
  MkFields name "" [] options variables None WhenNone [] YNull None None [] [] [] None None None YNull YNull None.

(** A node of which only the path is known. *)
Definition stub_node (path : string) (t : NodeType) (variables : YAMLDict) (scope : NodeScope) : ContentNode :=
  fresh_node path t (plain_meta path 0 0 scope []) (named_fields (Some (basename path)) [] variables) "".

Definition collection_node (c : Collection) (path : string) (scope : NodeScope) : ContentNode :=
  let metadata := safe_dict (co_metadata c) in
  let source := match yget "collection_info" metadata with YDict ((_ :: _) as ci) => ci | _ => metadata end in
  fresh_node path COLLECTION
    (MkMeta path 0 0 scope [] "" [] [] [] (get_or "namespace" source "") (get_or "name" source (co_name c))
       metadata (safe_dict (co_meta_runtime c)) (normalize_collection_files (co_files c)) 0 [] [])
    (named_fields (if String.eqb (co_name c) "" then None else Some (co_name c)) [] []) "".

Definition module_node (mod_name defined_in path : string) (analysis : Z * list string) (scope : NodeScope)
    : ContentNode :=
  fresh_node path MODULE
    (MkMeta defined_in 0 0 scope [] "" [] [] [] "" "" [] [] [] analysis.1 analysis.2 [])
    (named_fields (if String.eqb mod_name "" then None else Some mod_name) [] []) "".

Definition playbook_node (pb : Playbook) (scope : NodeScope) : ContentNode :=
  let file := pb_defined_in pb in
  fresh_node file PLAYBOOK (plain_meta file 0 0 scope [])
    (named_fields (Some (or_else (pb_name pb) (basename file))) (pb_options pb) (pb_variables pb)) "".

Definition play_node (p : Play) (file path : string) (lines : Z * Z) (scope : NodeScope) : ContentNode :=
  let o := pl_options p in
  fresh_node path PLAY (plain_meta file lines.1 lines.2 scope [])
    (MkFields (Some (pl_name p)) "" [] o (pl_variables p) (extract_become (pl_become p))
       (when_of (yget "when" o)) (as_str_list (yget "tags" o)) YNull None None [] [] []
       (as_dict (yget "environment" o)) (as_bool (yget "no_log" o)) (as_bool (yget "ignore_errors" o))
       YNull YNull None) "".

Definition is_block (t : Task) : bool := String.eqb (tk_module (tk_info t)) "" && has_block_children t.

Definition task_node (t : Task) (file path : string) (scope : NodeScope) : ContentNode :=
  let i := tk_info t in
  let o := tk_options i in
  let '(line_start, line_end) := extract_lines (tk_line_num_in_file i) in
  fresh_node path (if is_block t then BLOCK else TASK)
    (plain_meta file line_start line_end scope (tk_collections_in_play i))
    (MkFields (tk_name i) (tk_module i) (tk_module_options i) o (tk_variables i) (extract_become (tk_become i))
       (when_of (yget "when" o)) (as_str_list (yget "tags" o)) (loop_of o) (as_dict (yget "loop_control" o))
       (as_str (yget "register" o)) (tk_set_facts i) (as_str_list (yget "notify" o)) []
       (as_dict (yget "environment" o)) (as_bool (yget "no_log" o)) (as_bool (yget "ignore_errors" o))
       (yget "changed_when" o) (yget "failed_when" o) (as_str (yget "delegate_to" o)))
    (tk_yaml_lines i).

(** The option lists of a block stay in the options of a handler; here they are not part of
    [tk_options]. *)
Definition handler_node (t : Task) (file path : string) (scope : NodeScope) : ContentNode :=
  let i := tk_info t in
  let o := tk_options i in
  let '(line_start, line_end) := extract_lines (tk_line_num_in_file i) in
  fresh_node path HANDLER (plain_meta file line_start line_end scope (tk_collections_in_play i))
    (MkFields (tk_name i) (tk_module i) (tk_module_options i) o [] None WhenNone [] YNull None None []
       (as_str_list (yget "notify" o)) (as_str_list (yget "listen" o)) None None None YNull YNull None)
    (tk_yaml_lines i).

Definition role_node (r : Role) (fqcn path : string) (scope : NodeScope) : ContentNode :=
  fresh_node path ROLE
    (MkMeta (ro_defined_in r) 0 0 scope [] fqcn (ro_default_variables r) (ro_variables r)
       (safe_dict (ro_metadata r)) "" "" [] [] [] 0 [] [])
    (named_fields (Some fqcn) [] []) "".

Definition taskfile_node (tf : TaskFile) (scope : NodeScope) : ContentNode :=
  let file := tf_defined_in tf in
  fresh_node file TASKFILE (plain_meta file 0 0 scope [])
    (named_fields (Some (basename file)) [] (tf_variables tf)) "".

Definition edge (t : EdgeType) (position : Z) : EdgeAttrs := MkEdge t false false position "" [].

(** ** The builder *)

Section Builder.
Context `{PySource} {G : Type} `{NxLaws ContentNode EdgeAttrs G}.

Record builder := MkBuilder {
  b_graph : ContentGraph G;
  b_visited : gset string;
  b_role_failures : list (string * Z);
  b_taskfile_failures : list (string * Z);
}.
Implicit Types (b : builder) (scope : NodeScope).

Definition new_builder : builder := MkBuilder empty_graph ∅ [] [].

Definition on_graph (f : ContentGraph G → ContentGraph G) b : builder :=
  MkBuilder (f (b_graph b)) (b_visited b) (b_role_failures b) (b_taskfile_failures b).

Definition mark_visited (k : string) b : builder :=
  MkBuilder (b_graph b) ({[k]} ∪ b_visited b) (b_role_failures b) (b_taskfile_failures b).

Definition put_node (n : ContentNode) b : builder := on_graph (add_node n) b.
Definition put_edge (src tgt : string) (e : EdgeAttrs) b : builder := on_graph (add_edge src tgt e) b.

Definition count_up (k : string) (d : list (string * Z)) : list (string * Z) :=
  dset k (default 0 (dget k d) + 1)%Z d.

Definition fail_role (k : string) b : builder :=
  MkBuilder (b_graph b) (b_visited b) (count_up k (b_role_failures b)) (b_taskfile_failures b).
Definition fail_taskfile (k : string) b : builder :=
  MkBuilder (b_graph b) (b_visited b) (b_role_failures b) (count_up k (b_taskfile_failures b)).

Definition in_graph (k : string) b : bool := bool_decide (nx_mem k (cg_g (b_graph b))).

(** *** Nodes made on demand *)

Definition ensure_vars_file (path : string) scope (variables : YAMLDict) b : builder :=
  if in_graph path b then b else put_node (stub_node path VARS_FILE variables scope) b.

Definition ensure_taskfile_node (path : string) scope b : builder :=
  if in_graph path b then b else put_node (stub_node path TASKFILE [] scope) b.

Definition resolve_taskfile_path (reference from_file : string) : string :=
  normpath (path_join (dirname from_file) reference).

Definition role_matches (name : string) (n : ContentNode) : bool :=
  let fqcn := m_role_fqcn (nd_meta n) in
  String.eqb fqcn name || bool_decide (f_name (nd_fields n) = Some name) || String.eqb (after_last "." fqcn) name.

Definition resolve_role_nid_by_name (name : string) b : option string :=
  if String.eqb name "" then None
  else node_id <$> head (filter (λ n, role_matches name n = true) (nodes_of_type ROLE (b_graph b))).

Definition resolve_role_nid (rip : RoleInPlay) b : option string := resolve_role_nid_by_name (rip_name rip) b.

(** *** Loops

    A loop over children that keeps the builder, stopping when the recursion of a child
    does not end. *)
Fixpoint each {A St : Type} (f : nat → A → St → option St) (i : nat) (l : list A) (s : St) : option St :=
  match l with
  | [] => Some s
  | x :: l' => s' ← f i x s; each f (S i) l' s'
  end.

(** *** Resolving keys *)

Section Keys.
Variable object_by_key : gmap string definition.

Definition resolve_task (r : ref Task) : option Task :=
  match r with
  | RObj t => Some t
  | RKey k => match object_by_key !! k with Some (DTask t) => Some t | _ => None end
  end.

Definition resolve_play (r : ref Play) : option Play :=
  match r with
  | RObj p => Some p
  | RKey k => match object_by_key !! k with Some (DPlay p) => Some p | _ => None end
  end.

Definition resolve_taskfile (r : ref TaskFile) : option TaskFile :=
  match r with
  | RObj tf => Some tf
  | RKey k => match object_by_key !! k with Some (DTaskFile tf) => Some tf | _ => None end
  end.

Definition resolve_module (r : ref Module) : option Module :=
  match r with
  | RObj m => Some m
  | RKey k => match object_by_key !! k with Some (DModule m) => Some m | _ => None end
  end.

(** The handler of a role: a handler file or a task. *)
Definition resolve_handler (h : handler) : option (TaskFile + Task) :=
  match h with
  | HTaskFile tf => Some (inl tf)
  | HTask t => Some (inr t)
  | HKey k =>
    match object_by_key !! k with Some (DTaskFile tf) => Some (inl tf) | Some (DTask t) => Some (inr t) | _ => None end
  end.

(** *** Tasks *)

Definition is_import (module long short : string) : bool := String.eqb module long || String.eqb module short.

Definition when_str (w : when_expr) : string :=
  match w with
  | WhenNone => ""
  | WhenStr s => s
  | WhenList [] => ""
  | WhenList l => py_repr (YList (YStr <$> l))
  end.

Definition is_conditional (w : when_expr) : bool := match w with WhenNone => false | _ => true end.

(** The edge to what a task imports or includes. *)
Definition wire_executable (t : Task) (nid file : string) scope b : builder :=
  let i := tk_info t in
  let executable := tk_executable i in
  let w := when_of (yget "when" (tk_options i)) in
  if String.eqb executable "" || String.eqb (tk_executable_type i) "" then b
  else
    let dynamic := has_template executable in
    if String.eqb (tk_executable_type i) "TaskFile" then
      let t := if is_import (tk_module i) "ansible.builtin.import_tasks" "import_tasks" then IMPORT else INCLUDE in
      let resolved := resolve_taskfile_path executable file in
      if String.eqb resolved "" then fail_taskfile executable b
      else
        put_edge nid resolved (MkEdge t (is_conditional w) dynamic 0 (when_str w) [])
          (ensure_taskfile_node resolved scope b)
    else if String.eqb (tk_executable_type i) "Role" then
      let t := if is_import (tk_module i) "ansible.builtin.import_role" "import_role" then IMPORT else INCLUDE in
      match resolve_role_nid_by_name executable b with
      | Some role_nid => put_edge nid role_nid (MkEdge t (is_conditional w) dynamic 0 "" []) b
      | None => fail_role executable b
      end
    else b.

Definition index_path (parent section : string) (i : nat) : string :=
  parent +:+ "/" +:+ section +:+ "[" +:+ pretty i +:+ "]".

(** One section of a block; [rec] builds a child task under a given path. *)
Definition wire_section (rec : Task → string → builder → option builder) (section : string)
    (extra : option EdgeType) (refs : option (list (ref Task))) (block_nid : string) b : option builder :=
  each (λ i r b,
    match resolve_task r with
    | None => Some b
    | Some child =>
      let path := index_path block_nid section i in
      b1 ← rec child path b;
      let b2 := put_edge block_nid path (edge CONTAINS (Z.of_nat i)) b1 in
      Some (match extra with Some t => put_edge block_nid path (edge t (Z.of_nat i)) b2 | None => b2 end)
    end) 0 (default [] refs) b.

Definition wire_block_children (rec : Task → string → builder → option builder) (t : Task) (block_nid : string) b
    : option builder :=
  b1 ← wire_section rec "rescue" (Some RESCUE) (tk_rescue t) block_nid b;
  b2 ← wire_section rec "always" (Some ALWAYS) (tk_always t) block_nid b1;
  wire_section rec "block" None (tk_block t) block_nid b2.

(** [_build_task]: the node is stored under [path], which is the id returned. *)
Fixpoint build_task (fuel : nat) (file : string) scope (t : Task) (path : string) b : option builder :=
  match fuel with
  | O => None
  | S fuel' =>
    let b1 := put_node (task_node t file path scope) b in
    b2 ← (if is_block t then wire_block_children (build_task fuel' file scope) t path b1 else Some b1);
    Some (wire_executable t path file scope b2)
  end.

Definition build_handler (t : Task) (parent file : string) (handler_index : nat) scope b : builder * string :=
  let path := index_path parent "handlers" handler_index in
  (put_node (handler_node t file path scope) b, path).

(** *** Task files *)

Definition build_taskfile (fuel : nat) (tf : TaskFile) scope (is_handler_file : bool) b : option (builder * string) :=
  let nid := tf_defined_in tf in
  if bool_decide (nid ∈ b_visited b) then Some (b, nid)
  else
    let b0 := put_node (taskfile_node tf scope) (mark_visited nid b) in
    b1 ← each (λ i r b,
      match resolve_task r with
      | None => Some b
      | Some t =>
        if is_handler_file then
          let '(b', h) := build_handler t nid nid i scope b in
          Some (put_edge nid h (edge CONTAINS (Z.of_nat i)) b')
        else
          let path := index_path nid "tasks" i in
          b' ← build_task fuel nid scope t path b;
          Some (put_edge nid path (edge CONTAINS (Z.of_nat i)) b')
      end) 0 (tf_tasks tf) b0;
    Some (b1, nid).

(** *** Plays and playbooks

    A play numbers its children by a position that is advanced with every edge. *)

Definition play_state : Type := builder * nat.

(** An edge of the play at the current position. *)
Definition place (nid tgt : string) (t : EdgeType) (bp : play_state) : play_state :=
  (put_edge nid tgt (edge t (Z.of_nat bp.2)) bp.1, S bp.2).

Definition add_vars_file (nid file : string) scope (bp : play_state) (vf : string) : play_state :=
  let path := normpath (path_join (dirname file) vf) in
  place nid path VARS_INCLUDE (ensure_vars_file path scope [] bp.1, bp.2).

(** [build_task_list] *)
Definition build_task_list (fuel : nat) (nid file : string) scope (refs : list (ref Task)) (bp : play_state)
    : option play_state :=
  each (λ _ r bp,
    match resolve_task r with
    | None => Some bp
    | Some t =>
      let path := index_path nid "tasks" bp.2 in
      b' ← build_task fuel file scope t path bp.1;
      Some (place nid path CONTAINS (b', bp.2))
    end) 0 refs bp.

Definition add_static_role (nid : string) (bp : play_state) (r : ref RoleInPlay) : play_state :=
  match r with
  | RObj rip =>
    match resolve_role_nid rip bp.1 with
    | Some role_nid => place nid role_nid DEPENDENCY bp
    | None => bp
    end
  | RKey _ => bp
  end.

Definition add_handler (nid file : string) scope (h_idx : nat) (r : ref Task) (bp : play_state) : option play_state :=
  match resolve_task r with
  | None => Some bp
  | Some t => let '(b', h) := build_handler t nid file h_idx scope bp.1 in Some (place nid h CONTAINS (b', bp.2))
  end.

(** [_extract_play_header] *)
Definition first_child_line (cs : list ContentNode) : Z :=
  foldl (λ first c,
    let l := m_line_start (nd_meta c) in
    if ((0 <? l) && ((first =? 0) || (l <? first)))%Z%bool then l else first) 0%Z cs.

Definition extract_play_header (file_content : string) (line_start line_end : Z) (g : ContentGraph G) (nid : string)
    : string :=
  if String.eqb file_content "" || (line_start <? 1)%Z then ""
  else
    let file_lines := splitlines_keep file_content in
    let first := first_child_line (children g nid) in
    let stop := if (line_start <? first)%Z then (first - 1)%Z
                else if (0 <? line_end)%Z then line_end else Z.of_nat (length file_lines) in
    let header := sconcat (drop (Z.to_nat (line_start - 1)) (take (Z.to_nat stop) file_lines)) in
    match strip header with "" => "" | _ => rstrip_char LF header +:+ String LF "" end.

(** The assignment of [yaml_lines] and [indent_depth] to a node. *)
Definition set_yaml (yaml : string) (n : ContentNode) : ContentNode :=
  MkNode (nd_identity n) (nd_meta n) (nd_fields n) yaml (detect_indent yaml) (nd_state n) (nd_progression n)
    (nd_ledger n).

Definition play_children (fuel : nat) (p : Play) (nid file : string) scope (bp : play_state) : option play_state :=
  let bp := foldl (add_vars_file nid file scope) bp (pl_vars_files p) in
  bp ← build_task_list fuel nid file scope (pl_pre_tasks p) bp;
  let bp := foldl (add_static_role nid) bp (pl_roles p) in
  bp ← build_task_list fuel nid file scope (pl_tasks p) bp;
  bp ← build_task_list fuel nid file scope (pl_post_tasks p) bp;
  each (add_handler nid file scope) 0 (pl_handlers p) bp.

(** [_build_play]; a play has no [line_num_in_file], so its lines come from the file. *)
Definition build_play (fuel : nat) (p : Play) (file : string) (play_index : nat) scope (file_content : string) b
    : option (builder * string) :=
  let nid := index_path file "plays" play_index in
  let lines := if String.eqb file_content "" then (0, 0)%Z else find_play_lines file_content play_index in
  bp ← play_children fuel p nid file scope (put_node (play_node p file nid lines scope) b, 0%nat);
  Some (if negb (String.eqb file_content "") && (0 <? lines.1)%Z then
          on_graph (λ g, upd nid (set_yaml (extract_play_header file_content lines.1 lines.2 g nid)) g) bp.1
        else bp.1, nid).

(** [_handle_import_playbook] *)
Definition handle_import_playbook (import_path parent_nid parent_file : string) (position : nat) scope b
    : builder * string :=
  let target := normpath (path_join (dirname parent_file) import_path) in
  let b1 := if in_graph target b then b else put_node (stub_node target PLAYBOOK [] scope) b in
  (put_edge parent_nid target (edge IMPORT (Z.of_nat position)) b1, target).

Definition add_play (fuel : nat) (pb : Playbook) scope (i : nat) (r : ref Play) b : option builder :=
  let nid := pb_defined_in pb in
  match resolve_play r with
  | None => Some b
  | Some p =>
    let '(b, imported) :=
      if String.eqb (pl_import_playbook p) "" then (b, "")
      else handle_import_playbook (pl_import_playbook p) nid nid i scope b in
    if negb (String.eqb imported "") then Some b
    else
      bp ← build_play fuel p nid i scope (pb_yaml_lines pb) b;
      Some (put_edge nid bp.2 (edge CONTAINS (Z.of_nat i)) bp.1)
  end.

Definition build_playbook (fuel : nat) (pb : Playbook) scope b : option (builder * string) :=
  let nid := pb_defined_in pb in
  if bool_decide (nid ∈ b_visited b) then Some (b, nid)
  else
    b1 ← each (add_play fuel pb scope) 0 (pb_plays pb) (put_node (playbook_node pb scope) (mark_visited nid b));
    Some (b1, nid).

(** *** Roles *)

Definition add_role_taskfile (fuel : nat) (nid : string) scope (r : ref TaskFile) (bp : play_state)
    : option play_state :=
  match resolve_taskfile r with
  | None => Some bp
  | Some tf =>
    bn ← build_taskfile fuel tf scope false bp.1;
    Some (if String.eqb bn.2 "" then (bn.1, bp.2) else place nid bn.2 CONTAINS (bn.1, bp.2))
  end.

Definition add_role_handler (fuel : nat) (nid defined_in : string) scope (h_idx : nat) (h : handler)
    (bp : play_state) : option play_state :=
  match resolve_handler h with
  | None => Some bp
  | Some (inl tf) =>
    bn ← build_taskfile fuel tf scope true bp.1;
    Some (if String.eqb bn.2 "" then (bn.1, bp.2) else place nid bn.2 CONTAINS (bn.1, bp.2))
  | Some (inr t) =>
    let '(b', hn) := build_handler t nid defined_in h_idx scope bp.1 in
    Some (place nid hn CONTAINS (b', bp.2))
  end.

(** A vars file of the role, when it defines anything. *)
Definition add_role_vars (nid file : string) scope (vars : YAMLDict) (bp : play_state) : play_state :=
  match vars with
  | [] => bp
  | _ =>
    let path := path_join nid file in
    place nid path VARS_INCLUDE (ensure_vars_file path scope vars bp.1, bp.2)
  end.

(** [for dep in x] on a YAML value that is a list or a dictionary *)
Definition iter_values (x : yval) : list yval :=
  match x with YList l => l | YDict d => YStr <$> d.*1 | _ => [] end.

Definition dependency_name (dep : yval) : option string :=
  match dep with
  | YDict d => as_str (if ytruthy (yget "role" d) then yget "role" d else yget "name" d)
  | _ => None
  end.

Definition add_dependency (nid : string) b (dep : yval) : builder :=
  match dependency_name dep with
  | None => b
  | Some name =>
    match resolve_role_nid_by_name name b with
    | Some dep_nid => put_edge nid dep_nid (edge DEPENDENCY 0) b
    | None => b
    end
  end.

Definition role_fqcn (r : Role) : string := or_else (ro_fqcn r) (ro_name r).
Definition role_path (r : Role) : string := or_else (ro_defined_in r) ("roles/" +:+ role_fqcn r).

Definition build_role (fuel : nat) (r : Role) scope b : option (builder * string) :=
  let nid := role_path r in
  if bool_decide (nid ∈ b_visited b) then Some (b, nid)
  else
    let b0 := put_node (role_node r (role_fqcn r) nid scope) (mark_visited nid b) in
    bp ← each (λ _, add_role_taskfile fuel nid scope) 0 (ro_taskfiles r) (b0, 0%nat);
    bp ← each (add_role_handler fuel nid (ro_defined_in r) scope) 0 (ro_handlers r) bp;
    let bp := add_role_vars nid "defaults/main.yml" scope (ro_default_variables r) bp in
    let bp := add_role_vars nid "vars/main.yml" scope (ro_variables r) bp in
    Some (foldl (add_dependency nid) bp.1 (iter_values (ro_dependency r)), nid).

(** *** Collections and modules *)

Definition module_name (m : Module) : string := or_else (mo_fqcn m) (mo_name m).
Definition module_path (m : Module) : string := or_else (mo_defined_in m) (module_name m).

Definition build_module (scan_root : string) (m : Module) scope b : builder * string :=
  let nid := module_path m in
  let file := mo_defined_in m in
  if bool_decide (nid ∈ b_visited b) then (b, nid)
  else
    let candidate := path_join scan_root file in
    let resolved :=
      if negb (String.eqb file "") && negb (startswith file "/") && negb (isfile file)
         && negb (String.eqb scan_root "") && isfile candidate
      then candidate else file in
    (put_node (module_node (module_name m) file nid (analyze_python_file resolved) scope) (mark_visited nid b), nid).

Definition add_module (scan_root nid : string) scope b (r : ref Module) : builder :=
  match resolve_module r with
  | None => b
  | Some m => let '(b', mn) := build_module scan_root m scope b in put_edge nid mn (edge CONTAINS 0) b'
  end.

Definition build_collection (scan_root : string) (c : Collection) scope b : builder * string :=
  let nid := or_else (co_path c) (co_name c) in
  if bool_decide (nid ∈ b_visited b) then (b, nid)
  else
    (foldl (add_module scan_root nid scope) (put_node (collection_node c nid scope) (mark_visited nid b))
       (co_modules c), nid).

(** *** All definitions *)

(** The definitions of one type; the builders skip objects of another class. *)
Definition loaded_of (loaded : list (string * list definition)) (type : string) : list definition :=
  default [] (dget type loaded).

Definition build_definition (fuel : nat) (scan_root : string) scope (d : definition) b : option builder :=
  match d with
  | DCollection c => Some (build_collection scan_root c scope b).1
  | DRole r => fst <$> build_role fuel r scope b
  | DPlaybook pb => fst <$> build_playbook fuel pb scope b
  | DTaskFile tf => fst <$> build_taskfile fuel tf scope false b
  | _ => Some b
  end.

Definition is_collection (d : definition) : bool := match d with DCollection _ => true | _ => false end.
Definition is_role (d : definition) : bool := match d with DRole _ => true | _ => false end.
Definition is_playbook (d : definition) : bool := match d with DPlaybook _ => true | _ => false end.
Definition is_taskfile (d : definition) : bool := match d with DTaskFile _ => true | _ => false end.

(** What [_build_from_loaded] builds, in order. *)
Definition to_build (loaded : list (string * list definition)) : list definition :=
  (filter (λ d, is_collection d = true) (loaded_of loaded "collections")
   ++ filter (λ d, is_role d = true) (loaded_of loaded "roles")
   ++ filter (λ d, is_playbook d = true) (loaded_of loaded "playbooks")
   ++ filter (λ d, is_taskfile d = true) (loaded_of loaded "taskfiles"))%list.

Definition build_from_loaded (fuel : nat) (scan_root : string) (loaded : list (string * list definition)) scope b
    : option builder :=
  each (λ _, build_definition fuel scan_root scope) 0 (to_build loaded) b.
End Keys.

(** *** The key lookup *)

Definition register_def (d : definition) (m : gmap string definition) : gmap string definition :=
  if String.eqb (def_key d) "" then m else <[def_key d := d]> m.

Definition register_defs (ds : list definition) (m : gmap string definition) : gmap string definition :=
  foldl (λ m d, register_def d m) m ds.

(** The handler files of a role with their tasks, which the definitions do not list. *)
Definition handler_defs (d : definition) : list definition :=
  match d with
  | DRole r =>
    ro_handlers r ≫= λ h,
      match h with
      | HTaskFile tf => if String.eqb (tf_key tf) "" then [] else DTaskFile tf :: (DTask <$> objects (tf_tasks tf))
      | _ => []
      end
  | _ => []
  end.

Definition object_table (root ext : list (string * list definition)) : gmap string definition :=
  register_defs
    ((DEFINITION_TYPES ≫= λ t, loaded_of root t ++ loaded_of ext t)
     ++ (loaded_of root "roles" ≫= handler_defs))%list ∅.

(** *** Notification *)

Definition handlers_by_name (g : ContentGraph G) (topic : string) : list string :=
  node_id <$> filter (λ n, node_type n = HANDLER ∧ topic ≠ "" ∧ f_name (nd_fields n) = Some topic) (nodes g).

(** A handler that lists a topic twice is listed twice. *)
Definition handlers_by_listen (g : ContentGraph G) (topic : string) : list string :=
  filter (λ n, node_type n = HANDLER) (nodes g) ≫= λ n,
    (λ _, node_id n) <$> filter (λ t, t = topic) (f_listen (nd_fields n)).

(** The edges of one node, in the order they are added. *)
Definition notify_edges (g : ContentGraph G) (n : ContentNode) : list (string * string * EdgeAttrs) :=
  if bool_decide (node_type n ∈ [TASK; HANDLER]) then
    f_notify (nd_fields n) ≫= λ name,
      (((λ h, (node_id n, h, edge NOTIFY 0)) <$> handlers_by_name g name)
       ++ ((λ h, (node_id n, h, edge LISTEN 0)) <$> handlers_by_listen g name))%list
  else [].

Definition add_edges (es : list (string * string * EdgeAttrs)) (g : ContentGraph G) : ContentGraph G :=
  foldl (λ g e, add_edge e.1.1 e.1.2 e.2 g) g es.

Definition wire_notify_listen (g : ContentGraph G) : ContentGraph G :=
  add_edges (nodes g ≫= notify_edges g) g.

(** *** Data flow *)

Section DataFlow.
Context `{TopoSort G}.

Definition topological_order (g : ContentGraph G) : list string :=
  default (vertices g) (nx_topological_sort (cg_g g)).

(** [registered] and [set_fact_producers] *)
Definition producers : Type := gmap string string * gmap string string.

Definition produce (nid : string) (n : ContentNode) (p : producers) : producers :=
  (match f_register (nd_fields n) with
   | Some r => if String.eqb r "" then p.1 else <[r := nid]> p.1
   | None => p.1
   end,
   foldl (λ m k, <[k := nid]> m) p.2 (f_set_facts (nd_fields n)).*1).

Definition producer_of (p : producers) (var : string) : option string :=
  match p.1 !! var with
  | Some k => if String.eqb k "" then p.2 !! var else Some k
  | None => p.2 !! var
  end.

Definition collect_producers (g : ContentGraph G) (p : producers) (nid : string) : producers :=
  match get_node g nid with Some n => produce nid n p | None => p end.

(** The edges from the producers to a node that refers to them. *)
Definition flow_edges (p : producers) (nid : string) (n : ContentNode) : list (string * string * EdgeAttrs) :=
  omap (λ var,
    match producer_of p var with
    | Some k => if String.eqb k "" || String.eqb k nid then None else Some (k, nid, edge DATA_FLOW 0)
    | None => None
    end) (extract_variable_references n).

(** One node of the second loop: edges from the producers so far, then its own names. *)
Definition flow_step (pg : producers * ContentGraph G) (nid : string) : producers * ContentGraph G :=
  match get_node pg.2 nid with
  | None => pg
  | Some n => (produce nid n pg.1, add_edges (flow_edges pg.1 nid n) pg.2)
  end.

Definition flow_again (p : producers) (g : ContentGraph G) (nid : string) : ContentGraph G :=
  match get_node g nid with None => g | Some n => add_edges (flow_edges p nid n) g end.

Definition wire_data_flow (g : ContentGraph G) : ContentGraph G :=
  let p := foldl (collect_producers g) (∅, ∅) (topological_order g) in
  let '(p, g) := foldl flow_step (p, g) (topological_order g) in
  foldl (flow_again p) g (topological_order g).

(** ** The whole build *)

Definition build (fuel : nat) (scan_root : string) (root_defs ext_defs : list (string * pyobj)) : option builder :=
  let root := load_all_definitions root_defs in
  let ext := load_all_definitions ext_defs in
  let objs := object_table root ext in
  b1 ← build_from_loaded objs fuel scan_root root OWNED new_builder;
  b2 ← build_from_loaded objs fuel scan_root ext REFERENCED b1;
  Some (on_graph wire_data_flow (on_graph wire_notify_listen b2)).
End DataFlow.
End Builder.

Arguments builder : clear implicits.
