(* ===== verification/BuilderSample.v ===== *)
(** * Sample projects for the graph builder

    Instances of the parameters of [GraphBuilder] (an empty file system, a topological
    sort) and a few projects as the parser hands them over, on which the witnesses and
    the concrete theorems about the builder run. *)

From stdpp Require Import base list gmap strings pretty.
From Stdlib Require Import Ascii String.
From S2P Require Import Prelude PyStr Yaml NxGraph ContentNode ContentGraph GraphQueries Sample Definitions GraphBuilder.

#[local] Open Scope string_scope.
#[local] Notation length := List.length.

#[export] Instance sample_source : PySource := {
  isfile _ := false;
  read_text _ := None;
  ast_functions _ := None;
}.

(** Repeatedly the first vertex that no remaining vertex has an edge to. *)
Fixpoint kahn {E : Type} (es : list (string * string * E)) (fuel : nat) (rest : list string) : option (list string) :=
  match fuel, rest with
  | _, [] => Some []
  | O, _ => None
  | S fuel', _ =>
    match list_find (λ v, Forall (λ x, x.1.2 = v → x.1.1 ∉ rest) es) rest with
    | Some (i, v) => cons v <$> kahn es fuel' (delete i rest)
    | None => None
    end
  end.

#[export] Instance sample_topo : TopoSort SG := λ g,
  kahn (nx_edges g) (length (nx_nodes g)) (nx_nodes g).*1.

Lemma kahn_perm {E : Type} (es : list (string * string * E)) fuel rest l : kahn es fuel rest = Some l → l ≡ₚ rest.
Proof.
  revert rest l. induction fuel as [|fuel IH]; intros rest l; destruct rest as [|v rest]; cbn [kahn];
    try (by intros [= <-]); try done.
  destruct (list_find _ (v :: rest)) as [[i w]|] eqn:E1; [|done].
  intros (l' & Hl & ->)%fmap_Some. apply list_find_Some in E1 as (Hw & _ & _).
  rewrite (delete_Permutation _ i w Hw). by rewrite (IH _ _ Hl).
Qed.

(** ** Tasks *)

Definition task_info (key : string) (name module : string) (options module_options : YAMLDict) : TaskInfo :=
  MkTaskInfo (Some name) module key None [] [] options module_options "" "" [] "" [].

Definition plain_task (key name : string) : Task := MkTask (task_info key name "ping" [] []) None None None.

(** A task that runs a role or a task file. *)
Definition calling_task (key name module executable type : string) : Task :=
  MkTask (MkTaskInfo (Some name) module key None [] [] [] [] executable type [] "" []) None None None.

Definition sample_play (key : string) (pre tasks handlers : list Task) : Play :=
  MkPlay "play" key "" (RObj <$> pre) (RObj <$> tasks) [] (RObj <$> handlers) [] [] None [] [].

Definition sample_playbook (file : string) (plays : list Play) : Playbook :=
  MkPlaybook "" file (set_playbook_key "" "" file) "" (RObj <$> plays) [] [].

Definition sample_role (name : string) (taskfiles : list TaskFile) (dependency : yval) : Role :=
  MkRole name ("roles/" +:+ name) (set_role_key "" name) name YNull [] (RObj <$> taskfiles) [] [] dependency [] [].

(** The definitions of a project, as the scan state keeps them. *)
Definition project (roles : list Role) (taskfiles : list TaskFile) (playbooks : list Playbook) : list (string * pyobj) :=
  [("definitions", PDict ((λ p, (p.1, PList (Some <$> p.2))) <$> parsed_definitions "" None roles taskfiles playbooks []));
   ("mappings", POther)].

(** A playbook with one play: a pre-task that registers [x], a block with a task that uses
    [x] and notifies the handler. *)
Definition site_key : string := set_playbook_key "" "" "site.yml".
Definition play_key : string := set_play_key site_key 0.

Definition setup_task : Task :=
  MkTask (task_info (set_task_key play_key 0) "setup" "command" [("register", YStr "x")] []) None None None.

Definition using_task : Task :=
  MkTask (task_info (set_task_key (set_task_key play_key 1) 0) "use" "debug"
    [("notify", YStr "restart")] [("msg", YStr "value {{ x | upper }}")]) None None None.

Definition block_task : Task :=
  MkTask (task_info (set_task_key play_key 1) "group" "" [] []) (Some [RObj using_task]) None None.

Definition restart_handler : Task := plain_task (set_task_key play_key 2) "restart".

Definition demo_play : Play := sample_play play_key [setup_task] [block_task] [restart_handler].
Definition demo_project : list (string * pyobj) := project [] [] [sample_playbook "site.yml" [demo_play]].

(** What the build of a project ends with. *)
Definition built_project (fuel : nat) (defs : list (string * pyobj)) : option (builder SG) := build fuel "" defs [].

Definition typed_edges (t : EdgeType) (b : builder SG) : list (string * string) :=
  (λ x, x.1) <$> filter (λ x, ea_type x.2 = t) (nx_edges (cg_g (b_graph b))).

Definition name_at (b : builder SG) (k : string) : option string := n ← get_node (b_graph b) k; f_name (nd_fields n).

Example demo_vertices :
  (λ b, vertices (b_graph b)) <$> built_project 3 demo_project =
  Some ["site.yml"; "site.yml/plays[0]"; "site.yml/plays[0]/tasks[0]"; "site.yml/plays[0]/tasks[1]";
        "site.yml/plays[0]/tasks[1]/block[0]"; "site.yml/plays[0]/handlers[0]"].
Proof. vm_compute. reflexivity. Qed.
