(* ===== verification/BuilderLaws.v ===== *)
(** * Laws of the graph builder

    What the operations of [GraphBuilder] do to the builder as a relation of small steps
    ([bstep]): a node is stored, two vertices of the graph are linked, a play gets its text,
    the bookkeeping advances.  Every operation is shown to be a sequence of such steps
    ([bsteps]), labelled with the vertices it may write to and start edges from; the
    properties follow by induction on the steps. *)

From stdpp Require Import base list gmap strings pretty relations.
From Stdlib Require Import Ascii String.
From S2P Require Import Prelude PyStr Yaml PyPath NxGraph ContentNode ContentGraph GraphLaws GraphQueries Definitions GraphBuilder.

#[local] Open Scope string_scope.
#[local] Notation length := List.length.

(** ** Paths below a vertex *)

(** [k] is [path] or an extension of it. *)
Definition below (path k : string) : Prop := ∃ r, k = path +:+ r.

Lemma below_refl k : below k k.
Proof. exists "". by rewrite sapp_nil_r. Qed.

Lemma below_trans a b c : below a b → below b c → below a c.
Proof. intros [r ->] [r' ->]. exists (r +:+ r'). by rewrite sapp_assoc. Qed.

Lemma index_path_below parent section i : below parent (index_path parent section i).
Proof. eexists. unfold index_path. reflexivity. Qed.

Lemma index_path_length parent section i : (String.length parent < String.length (index_path parent section i))%nat.
Proof.
  unfold index_path. rewrite (length_sapp parent). simpl. lia.
Qed.

Lemma below_length a b : below a b → (String.length a ≤ String.length b)%nat.
Proof. intros [r ->]. rewrite length_sapp. lia. Qed.

#[export] Hint Resolve below_refl index_path_below : pydb.

Section Laws.
Context `{PySource} {G : Type} `{NxLaws ContentNode EdgeAttrs G}.
Implicit Types (b : builder G) (g : ContentGraph G) (scope : NodeScope) (W : string → Prop) (N : ContentNode → Prop).

(** A node as the builder makes them: no snapshots, no findings. *)
Definition pristine (n : ContentNode) : Prop :=
  nd_ledger n = [] ∧ nd_progression n = [] ∧ nd_state n = None.

Lemma pristine_wf n : pristine n → node_wf n.
Proof.
  intros (Hl & Hp & _). split; rewrite ?Hl, ?Hp.
  - split; [constructor|by intros k r ?%elem_of_nil].
  - simpl. lia.
  - by intros s ?%elem_of_nil.
  - by left.
Qed.

(** Vertices that may be written ([W]), nodes that may be stored ([N]). *)
Inductive bstep W N : builder G → builder G → Prop :=
| step_node n b :
    pristine n → N n → W (node_id n) ∨ in_graph (node_id n) b = false → bstep W N b (put_node n b)
| step_edge u v e b : W u → in_graph u b = true → in_graph v b = true → bstep W N b (put_edge u v e b)
| step_text k y b : W k → bstep W N b (on_graph (λ g, upd k (set_yaml (y g)) g) b)
| step_visit n b :
    pristine n → N n → W (node_id n) → bstep W N b (put_node n (mark_visited (node_id n) b))
| step_fail_role k b : bstep W N b (fail_role k b)
| step_fail_taskfile k b : bstep W N b (fail_taskfile k b).

Definition bsteps W N : relation (builder G) := rtc (bstep W N).

Lemma bsteps_mono (W W' : string → Prop) (N N' : ContentNode → Prop) b b' :
  (∀ k, W k → W' k) → (∀ n, N n → N' n) → bsteps W N b b' → bsteps W' N' b b'.
Proof.
  intros HW HN. apply rtc_subrel. intros x y Hs. inversion Hs; subst; constructor; naive_solver.
Qed.

Lemma in_graph_iff k b : in_graph k b = true ↔ k ∈ vertices (b_graph b).
Proof. unfold in_graph, vertices, nx_mem. apply bool_decide_eq_true. Qed.

Lemma vertices_add_node n g : ∀ k, k ∈ vertices (add_node n g) ↔ k = node_id n ∨ k ∈ vertices g.
Proof. intros k. unfold vertices, add_node. simpl. rewrite nx_nodes_add_node. apply elem_of_dkeys_dset. Qed.

Lemma vertices_add_edge u v e g : ∀ k, k ∈ vertices (add_edge u v e g) ↔ k = u ∨ k = v ∨ k ∈ vertices g.
Proof.
  intros k. unfold vertices, add_edge. simpl. rewrite nx_nodes_add_edge.
  rewrite !ListGraph.ensure_vertex_mem. naive_solver.
Qed.

Lemma vertices_upd k f g : vertices (upd k f g) = vertices g.
Proof. unfold vertices, upd. simpl. by rewrite nx_nodes_alter, dkeys_dalter. Qed.

Lemma bstep_vertices W N b b' k : bstep W N b b' → in_graph k b = true → in_graph k b' = true.
Proof.
  rewrite !in_graph_iff. intros Hs. inversion Hs; subst; simpl; try done.
  - rewrite vertices_add_node. by right.
  - rewrite vertices_add_edge. naive_solver.
  - by rewrite vertices_upd.
  - rewrite vertices_add_node. by right.
Qed.

Lemma bsteps_vertices W N b b' k : bsteps W N b b' → in_graph k b = true → in_graph k b' = true.
Proof. induction 1; eauto using bstep_vertices. Qed.
(** ** Graphs under construction *)

(** Every vertex carries a pristine node stored under its own id. *)
Definition built g : Prop :=
  ∀ k, k ∈ vertices g → ∃ n, get_node g k = Some n ∧ node_id n = k ∧ pristine n.

Lemma add_edge_nodes u v e g :
  u ∈ vertices g → v ∈ vertices g → nx_nodes (cg_g (add_edge u v e g)) = nx_nodes (cg_g g).
Proof.
  intros Hu Hv. unfold add_edge. simpl. rewrite nx_nodes_add_edge. unfold ensure_vertex.
  rewrite (decide_True (P := u ∈ _)) by done. by rewrite decide_True.
Qed.

Lemma get_node_add_edge u v e g k :
  u ∈ vertices g → v ∈ vertices g → get_node (add_edge u v e g) k = get_node g k.
Proof. intros. unfold get_node, nx_payload. by rewrite add_edge_nodes. Qed.

Lemma get_node_add_node n g k : get_node (add_node n g) k = if decide (k = node_id n) then Some n else get_node g k.
Proof. apply nx_payload_add_node. Qed.

Lemma get_node_upd_at k f g j : get_node (upd k f g) j = (if decide (j = k) then f else id) <$> get_node g j.
Proof. apply nx_payload_alter. Qed.

Lemma set_yaml_pristine y n : pristine n → pristine (set_yaml y n).
Proof. done. Qed.

Lemma bstep_built W N b b' : bstep W N b b' → built (b_graph b) → built (b_graph b').
Proof.
  intros [n b0 Hp HN HW|u v e b0 HW Hu Hv|k y b0 HW|n b0 Hp HN HW|k b0|k b0] Hb; simpl; try done; intros j.
  - rewrite vertices_add_node, get_node_add_node. case_decide as Hk; [by exists n|]. intros [->|Hin]; [done|by apply Hb].
  - apply in_graph_iff in Hu, Hv. rewrite vertices_add_edge, get_node_add_edge by done.
    intros [->|[->|?]]; by apply Hb.
  - rewrite vertices_upd, get_node_upd_at. intros (n & Hn & Hid & Hp)%Hb. rewrite Hn. simpl.
    eexists. split; [reflexivity|]. case_decide; [|done]. by split; [|apply set_yaml_pristine].
  - rewrite vertices_add_node, get_node_add_node. case_decide as Hk; [by exists n|]. intros [->|Hin]; [done|by apply Hb].
Qed.

Lemma bsteps_built W N b b' : bsteps W N b b' → built (b_graph b) → built (b_graph b').
Proof. induction 1; eauto using bstep_built. Qed.

(** What was visited is in the graph. *)
Definition sound b : Prop := built (b_graph b) ∧ ∀ k, k ∈ b_visited b → in_graph k b = true.

Lemma bstep_sound W N b b' : bstep W N b b' → sound b → sound b'.
Proof.
  intros Hs [Hb Hv]. split; [by eapply bstep_built|]. intros k Hk.
  assert (Hc : k ∈ b_visited b ∨ in_graph k b' = true); [|destruct Hc; eauto using bstep_vertices].
  destruct Hs; auto. simpl in Hk. apply elem_of_union in Hk as [->%elem_of_singleton|?]; [|by left].
  right. apply in_graph_iff. simpl. rewrite vertices_add_node. by left.
Qed.

Lemma bsteps_sound W N b b' : bsteps W N b b' → sound b → sound b'.
Proof. induction 1; eauto using bstep_sound. Qed.

Lemma new_builder_sound : sound (new_builder (G := G)).
Proof.
  split.
  - intros k Hk. unfold vertices in Hk. simpl in Hk. rewrite nx_nodes_empty in Hk. by apply elem_of_nil in Hk.
  - intros k Hk. by apply elem_of_empty in Hk.
Qed.

Lemma built_nodes g n : built g → n ∈ nodes g → node_id n ∈ vertices g ∧ get_node g (node_id n) = Some n.
Proof.
  intros Hb ([k o] & Hin & Ho)%list_elem_of_omap. simpl in Ho. subst o.
  assert (Hk : k ∈ vertices g) by (apply list_elem_of_fmap; by exists (k, Some n)).
  destruct (Hb k Hk) as (n' & Hn' & <- & _). apply nx_nodes_payload in Hin.
  unfold get_node in *. assert (n' = n) as -> by congruence. done.
Qed.

Lemma built_get_node g k n : built g → get_node g k = Some n ↔ n ∈ nodes g ∧ node_id n = k.
Proof.
  intros Hb. split; [|intros [Hn <-]; by apply built_nodes].
  intros Hn. destruct (Hb k) as (n' & Hn' & Hid & _); [by apply nx_payload_mem in Hn|].
  assert (n' = n) as -> by congruence. split; [|done]. apply list_elem_of_omap. exists (k, Some n). split; [|done].
  by apply nx_nodes_payload.
Qed.

Lemma resolve_role_in_graph name b k :
  built (b_graph b) → resolve_role_nid_by_name name b = Some k → in_graph k b = true.
Proof.
  intros Hb. unfold resolve_role_nid_by_name. case_match; [done|].
  intros (n & Hn & ->)%fmap_Some. apply head_Some_elem_of in Hn.
  apply list_elem_of_filter in Hn as [_ Hn]. unfold nodes_of_type in Hn.
  apply list_elem_of_filter in Hn as [_ Hn]. apply in_graph_iff. by apply built_nodes.
Qed.

(** ** Every operation is a sequence of steps *)

Lemma each_ind {A St : Type} (I : St → Prop) (f : nat → A → St → option St) l i s s' :
  (∀ j x s s', x ∈ l → I s → f j x s = Some s' → I s') → I s → each f i l s = Some s' → I s'.
Proof.
  intros Hf. revert i s. induction l as [|x l IH]; intros i s Hs; simpl.
  - by intros [= <-].
  - intros (s1 & Hx & Hl)%bind_Some. apply (IH ltac:(set_solver) (S i) s1); [|done].
    eapply Hf; [by left|done..].
Qed.

Lemma foldl_ind {A St : Type} (I : St → Prop) (f : St → A → St) l s :
  (∀ x s, x ∈ l → I s → I (f s x)) → I s → I (foldl f s l).
Proof.
  intros Hf. revert s. induction l as [|x l IH]; intros s Hs; simpl; [done|].
  apply IH; [set_solver|]. apply Hf; [by left|done].
Qed.

(** The nodes written while a play or a task file is built. *)
Definition not_role (n : ContentNode) : Prop := node_type n ≠ ROLE.

Lemma bsteps_trans W N b1 b2 b3 : bsteps W N b1 b2 → bsteps W N b2 b3 → bsteps W N b1 b3.
Proof. unfold bsteps. intros. by etrans. Qed.

Lemma bsteps_below N path p b b' : below path p → bsteps (below p) N b b' → bsteps (below path) N b b'.
Proof. intros Hp. apply bsteps_mono; [|done]. intros k. by apply below_trans. Qed.

Lemma put_node_steps W N n b :
  pristine n → N n → W (node_id n) ∨ in_graph (node_id n) b = false →
  bsteps W N b (put_node n b) ∧ in_graph (node_id n) (put_node n b) = true.
Proof.
  intros. split; [by apply rtc_once, step_node|]. apply in_graph_iff. simpl. apply vertices_add_node. by left.
Qed.

Lemma put_edge_steps W N u v e b :
  W u → in_graph u b = true → in_graph v b = true → bsteps W N b (put_edge u v e b).
Proof. intros. by apply rtc_once, step_edge. Qed.

(** A node that is made unless its path is in the graph. *)
Lemma ensure_steps W N n b :
  pristine n → N n →
  let b' := if in_graph (node_id n) b then b else put_node n b in
  bsteps W N b b' ∧ in_graph (node_id n) b' = true.
Proof.
  intros Hp HN. destruct (in_graph (node_id n) b) eqn:E; simpl; [by split; [apply rtc_refl|]|].
  apply put_node_steps; auto.
Qed.

Lemma task_node_spec t file path scope :
  pristine (task_node t file path scope) ∧ not_role (task_node t file path scope) ∧
  node_id (task_node t file path scope) = path.
Proof. unfold task_node, not_role. destruct (extract_lines _). simpl. by destruct (is_block t). Qed.

Lemma handler_node_spec t file path scope :
  pristine (handler_node t file path scope) ∧ not_role (handler_node t file path scope) ∧
  node_id (handler_node t file path scope) = path.
Proof. unfold handler_node, not_role. by destruct (extract_lines _). Qed.

Lemma wire_executable_steps t nid file scope b :
  built (b_graph b) → in_graph nid b = true →
  bsteps (below nid) not_role b (wire_executable t nid file scope b).
Proof.
  intros Hb Hn. unfold wire_executable. case_match; [apply rtc_refl|]. case_match.
  - case_match; [apply rtc_once; constructor|].
    destruct (ensure_steps (below nid) not_role
      (stub_node (resolve_taskfile_path (tk_executable (tk_info t)) file) TASKFILE [] scope) b) as [H1' H2']; [done..|].
    eapply bsteps_trans; [exact H1'|]. apply put_edge_steps; [apply below_refl| |exact H2'].
    by eapply bsteps_vertices.
  - case_match; [|apply rtc_refl]. case_match eqn:E; [|apply rtc_once; constructor].
    apply put_edge_steps; [apply below_refl|done|]. by eapply resolve_role_in_graph.
Qed.

Section Keyed.
Variable objs : gmap string definition.

Lemma wire_section_steps rec section extra refs nid b b' :
  (∀ c p b b', built (b_graph b) → rec c p b = Some b' →
    bsteps (below p) not_role b b' ∧ in_graph p b' = true) →
  built (b_graph b) → in_graph nid b = true → wire_section objs rec section extra refs nid b = Some b' →
  bsteps (below nid) not_role b b'.
Proof.
  intros Hrec Hb Hn. unfold wire_section. apply (each_ind (bsteps (below nid) not_role b)); [|apply rtc_refl].
  intros j r b1 b2 _ Hs. case_match; [|by intros [= <-]].
  intros (b3 & H3 & E)%bind_Some. injection E as <-.
  destruct (Hrec _ _ _ _ (bsteps_built _ _ _ _ Hs Hb) H3) as [Hs3 Hp].
  apply (bsteps_below _ nid) in Hs3; [|apply index_path_below].
  assert (Hn3 : in_graph nid b3 = true) by eauto using bsteps_vertices.
  eapply bsteps_trans; [exact Hs|]. eapply bsteps_trans; [exact Hs3|].
  assert (He : bsteps (below nid) not_role b3
    (put_edge nid (index_path nid section j) (edge CONTAINS (Z.of_nat j)) b3)).
  { apply put_edge_steps; auto with pydb. }
  case_match; [|done]. eapply bsteps_trans; [exact He|].
  apply put_edge_steps; [apply below_refl|by eapply bsteps_vertices..].
Qed.

Lemma wire_block_steps rec t nid b b' :
  (∀ c p b b', built (b_graph b) → rec c p b = Some b' →
    bsteps (below p) not_role b b' ∧ in_graph p b' = true) →
  built (b_graph b) → in_graph nid b = true → wire_block_children objs rec t nid b = Some b' →
  bsteps (below nid) not_role b b'.
Proof.
  intros Hrec Hb Hn (b1 & H1' & (b2 & H2' & H3')%bind_Some)%bind_Some.
  pose proof (wire_section_steps _ _ _ _ _ _ _ Hrec Hb Hn H1') as S1.
  pose proof (bsteps_built _ _ _ _ S1 Hb) as Hb1. pose proof (bsteps_vertices _ _ _ _ _ S1 Hn) as Hn1.
  pose proof (wire_section_steps _ _ _ _ _ _ _ Hrec Hb1 Hn1 H2') as S2.
  eapply bsteps_trans; [exact S1|]. eapply bsteps_trans; [exact S2|].
  eapply wire_section_steps; [done|by eapply bsteps_built|by eapply bsteps_vertices|done].
Qed.

Lemma build_task_steps fuel file scope t path b b' :
  built (b_graph b) → build_task objs fuel file scope t path b = Some b' →
  bsteps (below path) not_role b b' ∧ in_graph path b' = true.
Proof.
  revert t path b b'. induction fuel as [|fuel IH]; intros t path b b' Hb; [done|].
  cbn [build_task]. intros (b2 & Hb2 & E)%bind_Some. injection E as <-.
  destruct (task_node_spec t file path scope) as (Hp & HN & Hid).
  destruct (put_node_steps (below path) not_role (task_node t file path scope) b) as [S1 V1]; [done..| |].
  { left. rewrite Hid. apply below_refl. }
  rewrite Hid in V1. pose proof (bsteps_built _ _ _ _ S1 Hb) as Hb1.
  assert (S2 : bsteps (below path) not_role (put_node (task_node t file path scope) b) b2).
  { destruct (is_block t); [|injection Hb2 as <-; apply rtc_refl].
    eapply wire_block_steps; [|done..]. intros c p x y Hx. by apply IH. }
  pose proof (bsteps_built _ _ _ _ S2 Hb1) as Hb2'. pose proof (bsteps_vertices _ _ _ _ _ S2 V1) as V2.
  pose proof (wire_executable_steps t path file scope b2 Hb2' V2) as S3.
  split; [|by eapply bsteps_vertices]. eapply bsteps_trans; [exact S1|]. by eapply bsteps_trans.
Qed.

Lemma build_handler_steps t parent file i scope b :
  bsteps (below parent) not_role b (build_handler t parent file i scope b).1 ∧
  in_graph (build_handler t parent file i scope b).2 (build_handler t parent file i scope b).1 = true.
Proof.
  unfold build_handler. simpl. set (path := index_path parent "handlers" i).
  destruct (handler_node_spec t file path scope) as (Hp & HN & Hid).
  destruct (put_node_steps (below parent) not_role (handler_node t file path scope) b) as [S1 V1]; [done..| |].
  { left. rewrite Hid. apply index_path_below. }
  by rewrite Hid in V1.
Qed.

Lemma place_steps W N nid tgt t (bp : play_state) :
  W nid → in_graph nid bp.1 = true → in_graph tgt bp.1 = true → bsteps W N bp.1 (place nid tgt t bp).1.
Proof. intros. by apply put_edge_steps. Qed.

(** A child is built below [nid] and then linked to it. *)
Lemma child_steps nid tgt e b b' :
  bsteps (below nid) not_role b b' → in_graph nid b = true → in_graph tgt b' = true →
  bsteps (below nid) not_role b (put_edge nid tgt e b').
Proof.
  intros Hs Hn Ht. eapply bsteps_trans; [exact Hs|]. apply put_edge_steps; [apply below_refl| |done].
  by eapply bsteps_vertices.
Qed.

Lemma visit_steps W N n b :
  pristine n → N n → W (node_id n) →
  bsteps W N b (put_node n (mark_visited (node_id n) b)) ∧
  in_graph (node_id n) (put_node n (mark_visited (node_id n) b)) = true.
Proof.
  intros. split; [by apply rtc_once, step_visit|]. apply in_graph_iff. simpl. apply vertices_add_node. by left.
Qed.

Lemma build_taskfile_steps fuel tf scope is_handler b b' nid :
  sound b → build_taskfile objs fuel tf scope is_handler b = Some (b', nid) →
  nid = tf_defined_in tf ∧ bsteps (below nid) not_role b b' ∧ in_graph nid b' = true.
Proof.
  intros Hb. unfold build_taskfile.
  case_bool_decide as Hv; [intros [= <- <-]; split_and!; [done|apply rtc_refl|by apply Hb]|].
  intros (b1 & H1' & E)%bind_Some. injection E as <- <-. set (nid := tf_defined_in tf) in *.
  destruct (visit_steps (below nid) not_role (taskfile_node tf scope) b) as [S1 V1]; [done..|apply below_refl|].
  change (node_id (taskfile_node tf scope)) with nid in S1, V1.
  set (b0 := put_node (taskfile_node tf scope) (mark_visited nid b)) in *.
  assert (Hb0 : built (b_graph b0)) by (eapply bsteps_built; [exact S1|apply Hb]).
  assert (S2 : bsteps (below nid) not_role b0 b1).
  { revert H1'. apply (each_ind (bsteps (below nid) not_role b0)); [|apply rtc_refl].
    intros j r x y _ Hs. assert (Hn : in_graph nid x = true) by eauto using bsteps_vertices.
    case_match; [|by intros [= <-]]. case_match.
    - intros [= <-]. eapply bsteps_trans; [exact Hs|].
      destruct (build_handler_steps t nid nid j scope x). by apply child_steps.
    - intros (z & Hz & E)%bind_Some. injection E as <-. eapply bsteps_trans; [exact Hs|].
      apply build_task_steps in Hz as [Hz ?]; [|by eapply bsteps_built].
      apply child_steps; [|done..]. eapply bsteps_below; [apply index_path_below|done]. }
  split_and!; [done| |by eapply bsteps_vertices]. by eapply bsteps_trans.
Qed.

(** *** Plays and playbooks *)

Lemma ensure_vars_file_steps W path scope vars b :
  bsteps W not_role b (ensure_vars_file path scope vars b) ∧ in_graph path (ensure_vars_file path scope vars b) = true.
Proof. by apply (ensure_steps W not_role (stub_node path VARS_FILE vars scope)). Qed.

Lemma build_task_list_steps fuel nid file scope refs bp bp' :
  built (b_graph bp.1) → in_graph nid bp.1 = true → build_task_list objs fuel nid file scope refs bp = Some bp' →
  bsteps (below nid) not_role bp.1 bp'.1.
Proof.
  intros Hb Hn. unfold build_task_list. apply (each_ind (λ x, bsteps (below nid) not_role bp.1 x.1)); [|apply rtc_refl].
  intros j r x y _ Hs. case_match; [|by intros [= <-]].
  intros (z & Hz & E)%bind_Some. injection E as <-. eapply bsteps_trans; [exact Hs|]. simpl.
  apply build_task_steps in Hz as [Hz ?]; [|by eapply bsteps_built].
  apply child_steps; [|by eapply bsteps_vertices|done]. eapply bsteps_below; [apply index_path_below|done].
Qed.

Lemma play_children_steps fuel p nid file scope bp bp' :
  built (b_graph bp.1) → in_graph nid bp.1 = true → play_children objs fuel p nid file scope bp = Some bp' →
  bsteps (below nid) not_role bp.1 bp'.1.
Proof.
  intros Hb Hn. unfold play_children. set (bp1 := foldl _ _ (pl_vars_files p)).
  assert (S1 : bsteps (below nid) not_role bp.1 bp1.1).
  { apply (foldl_ind (λ x, bsteps (below nid) not_role bp.1 x.1)); [|apply rtc_refl].
    intros vf x _ Hs. eapply bsteps_trans; [exact Hs|].
    destruct (ensure_vars_file_steps (below nid) (normpath (path_join (dirname file) vf)) scope [] x.1) as [Hv ?].
    apply child_steps; [done|by eapply bsteps_vertices|done]. }
  clearbody bp1. intros (bp2 & H2' & Hrest)%bind_Some.
  pose proof (bsteps_built _ _ _ _ S1 Hb) as Hb1. pose proof (bsteps_vertices _ _ _ _ _ S1 Hn) as Hn1.
  pose proof (bsteps_trans _ _ _ _ _ S1 (build_task_list_steps _ _ _ _ _ _ _ Hb1 Hn1 H2')) as S2. clear S1 Hb1 Hn1.
  revert Hrest. set (bp3 := foldl _ _ (pl_roles p)).
  assert (S3 : bsteps (below nid) not_role bp.1 bp3.1).
  { apply (foldl_ind (λ x, bsteps (below nid) not_role bp.1 x.1)); [|done].
    intros [rip|k] x _ Hs; simpl; [|done]. case_match eqn:E; [|done]. eapply bsteps_trans; [exact Hs|].
    apply place_steps; [apply below_refl|by eapply bsteps_vertices|].
    eapply resolve_role_in_graph; [|exact E]. by eapply bsteps_built. }
  clearbody bp3. intros (bp4 & H4' & Hrest)%bind_Some.
  pose proof (bsteps_built _ _ _ _ S3 Hb) as Hb3. pose proof (bsteps_vertices _ _ _ _ _ S3 Hn) as Hn3.
  pose proof (bsteps_trans _ _ _ _ _ S3 (build_task_list_steps _ _ _ _ _ _ _ Hb3 Hn3 H4')) as S4.
  apply bind_Some in Hrest as (bp5 & H5' & Hrest).
  pose proof (bsteps_built _ _ _ _ S4 Hb) as Hb4. pose proof (bsteps_vertices _ _ _ _ _ S4 Hn) as Hn4.
  pose proof (bsteps_trans _ _ _ _ _ S4 (build_task_list_steps _ _ _ _ _ _ _ Hb4 Hn4 H5')) as S5.
  revert Hrest. apply (each_ind (λ x, bsteps (below nid) not_role bp.1 x.1)); [|done].
  intros j r x y _ Hs. unfold add_handler. case_match; [|by intros [= <-]]. intros [= <-].
  eapply bsteps_trans; [exact Hs|]. destruct (build_handler_steps t nid file j scope x.1).
  apply child_steps; [done|by eapply bsteps_vertices|done].
Qed.

Lemma build_play_steps fuel p file i scope content b b' nid :
  built (b_graph b) → build_play objs fuel p file i scope content b = Some (b', nid) →
  nid = index_path file "plays" i ∧ bsteps (below nid) not_role b b' ∧ in_graph nid b' = true.
Proof.
  intros Hb. unfold build_play. set (k := index_path file "plays" i). intros (bp & Hp & E)%bind_Some.
  injection E as <- <-.
  match goal with H : play_children _ _ _ _ _ _ (put_node ?n _, _) = _ |- _ => set (n0 := n) in * end.
  destruct (put_node_steps (below k) not_role n0 b) as [S1 V1]; [done..|left; apply below_refl|].
  change (node_id n0) with k in V1. apply play_children_steps in Hp; [|by eapply bsteps_built|done].
  assert (S2 : bsteps (below k) not_role b bp.1) by by eapply bsteps_trans.
  assert (V2 : in_graph k bp.1 = true) by (eapply (bsteps_vertices _ _ _ _ _ Hp); exact V1).
  split; [done|]. case_match; [|done]. split.
  - eapply bsteps_trans; [exact S2|]. apply rtc_once.
    match goal with |- bstep _ _ _ (on_graph (λ g, upd k (set_yaml (extract_play_header ?c ?x ?y g k)) g) _) =>
      apply (step_text _ _ k (λ g, extract_play_header c x y g k)) end. apply below_refl.
  - eapply bsteps_vertices; [|exact V2].
    apply rtc_once, (step_text (below k) not_role k (λ g, extract_play_header content _ _ g k)), below_refl.
Qed.

(** Steps without a restriction on what they write. *)
Definition steps : relation (builder G) := bsteps (λ _, True) (λ _, True).

Lemma bsteps_steps W N b b' : bsteps W N b b' → steps b b'.
Proof. by apply bsteps_mono. Qed.

Lemma steps_trans b1 b2 b3 : steps b1 b2 → steps b2 b3 → steps b1 b3.
Proof. apply bsteps_trans. Qed.

Lemma add_play_steps fuel pb scope i r b b' :
  sound b → in_graph (pb_defined_in pb) b = true → add_play objs fuel pb scope i r b = Some b' → steps b b'.
Proof.
  intros Hb Hn. unfold add_play. case_match; [|intros [= <-]; apply rtc_refl].
  set (nid := pb_defined_in pb) in *.
  match goal with |- (let '(_, _) := ?e in _) = _ → _ => assert (S1 : steps b e.1); [|set (x := e) in *; clearbody x] end.
  { case_match; simpl; [apply rtc_refl|].
    destruct (ensure_steps (λ _, True) (λ _, True)
      (stub_node (normpath (path_join (dirname nid) (pl_import_playbook p))) PLAYBOOK [] scope) b) as [S1 V1]; [done..|].
    eapply steps_trans; [exact S1|]. apply put_edge_steps; [done|by eapply bsteps_vertices|exact V1]. }
  destruct x as [b1 imported]. case_match; [by intros [= <-]|].
  intros ([b2 pn] & H2' & E)%bind_Some. injection E as <-. simpl.
  apply build_play_steps in H2' as (_ & S2 & V2); [|by eapply bsteps_built; [|apply Hb]].
  eapply steps_trans; [exact S1|]. eapply steps_trans; [by eapply bsteps_steps|].
  apply put_edge_steps; [done| |exact V2]. eapply bsteps_vertices; [exact S2|]. by eapply bsteps_vertices.
Qed.

Lemma build_playbook_steps fuel pb scope b b' nid :
  sound b → build_playbook objs fuel pb scope b = Some (b', nid) → steps b b'.
Proof.
  intros Hb. unfold build_playbook. case_bool_decide; [intros [= <- <-]; apply rtc_refl|].
  intros (b1 & H1' & E)%bind_Some. injection E as <- <-.
  destruct (visit_steps (λ _, True) (λ _, True) (playbook_node pb scope) b) as [S1 V1]; [done..|].
  change (node_id (playbook_node pb scope)) with (pb_defined_in pb) in S1, V1.
  set (b0 := put_node (playbook_node pb scope) (mark_visited (pb_defined_in pb) b)) in *. clearbody b0.
  eapply steps_trans; [exact S1|]. revert H1'. apply (each_ind (steps b0)); [|apply rtc_refl].
  intros j r x y _ Hs Hx. eapply steps_trans; [exact Hs|].
  eapply add_play_steps; [| |exact Hx]; [|by eapply bsteps_vertices].
  eapply bsteps_sound; [exact Hs|]. by eapply bsteps_sound.
Qed.

Lemma link_taskfile_steps fuel tf nid scope is_handler (bp : play_state) bn :
  sound bp.1 → in_graph nid bp.1 = true → build_taskfile objs fuel tf scope is_handler bp.1 = Some bn →
  steps bp.1 (if String.eqb bn.2 "" then (bn.1, bp.2) else place nid bn.2 CONTAINS (bn.1, bp.2)).1.
Proof.
  intros Hb Hn Hbn. destruct bn as [b' tn]. apply build_taskfile_steps in Hbn as (_ & S1 & V1); [|done].
  simpl. case_match; simpl; [by eapply bsteps_steps|]. eapply steps_trans; [by eapply bsteps_steps|].
  apply put_edge_steps; [done|by eapply bsteps_vertices|done].
Qed.

Lemma add_role_vars_steps nid file scope vars (bp : play_state) :
  in_graph nid bp.1 = true → steps bp.1 (add_role_vars nid file scope vars bp).1.
Proof.
  intros Hn. unfold add_role_vars. case_match; [apply rtc_refl|].
  match goal with |- context [ensure_vars_file ?p ?sc ?v ?b] =>
    destruct (ensure_vars_file_steps (λ _, True) p sc v b) as [S1 V1] end.
  apply bsteps_steps in S1. eapply steps_trans; [exact S1|]. apply put_edge_steps; [done|by eapply bsteps_vertices|done].
Qed.

Lemma build_role_steps fuel r scope b b' nid :
  sound b → build_role objs fuel r scope b = Some (b', nid) → steps b b'.
Proof.
  intros Hb. unfold build_role. case_bool_decide; [intros [= <- <-]; apply rtc_refl|].
  destruct (visit_steps (λ _, True) (λ _, True) (role_node r (role_fqcn r) (role_path r) scope) b) as [S1 V1]; [done..|].
  change (node_id (role_node r (role_fqcn r) (role_path r) scope)) with (role_path r) in S1, V1.
  set (b0 := put_node _ _) in *. set (k := role_path r) in *. clearbody b0.
  pose proof (bsteps_sound _ _ _ _ S1 Hb) as Hb0.
  intros (bp1 & H1' & Hrest)%bind_Some.
  assert (S2 : steps b0 bp1.1).
  { revert H1'. apply (each_ind (λ x, steps b0 x.1)); [|apply rtc_refl].
    intros _ tr x y _ Hs. unfold add_role_taskfile. case_match; [|by intros [= <-]].
    intros (bn & Hbn & E)%bind_Some. injection E as <-. eapply steps_trans; [exact Hs|].
    eapply link_taskfile_steps; [by eapply bsteps_sound|by eapply bsteps_vertices|exact Hbn]. }
  apply bind_Some in Hrest as (bp2 & H2' & E). injection E as <- <-.
  assert (S3 : steps b0 bp2.1).
  { revert H2'. apply (each_ind (λ x, steps b0 x.1)); [|done].
    intros j h x y _ Hs. unfold add_role_handler. case_match; [|by intros [= <-]]. case_match.
    - intros (bn & Hbn & E)%bind_Some. injection E as <-. eapply steps_trans; [exact Hs|].
      eapply link_taskfile_steps; [by eapply bsteps_sound|by eapply bsteps_vertices|exact Hbn].
    - intros [= <-]. eapply steps_trans; [exact Hs|].
      destruct (build_handler_steps t k (ro_defined_in r) j scope x.1).
      eapply bsteps_steps, child_steps; [done|by eapply bsteps_vertices|done]. }
  eapply steps_trans; [exact S1|]. eapply steps_trans; [exact S3|].
  assert (V3 : in_graph k bp2.1 = true) by by eapply bsteps_vertices.
  set (bp3 := add_role_vars k "defaults/main.yml" _ _ _).
  assert (S4 : steps bp2.1 bp3.1) by by apply add_role_vars_steps.
  set (bp4 := add_role_vars k "vars/main.yml" _ _ _).
  assert (S5 : steps bp2.1 bp4.1).
  { eapply steps_trans; [exact S4|]. apply add_role_vars_steps. by eapply bsteps_vertices. }
  apply (foldl_ind (steps bp2.1)); [|done]. intros d x _ Hs. unfold add_dependency.
  case_match; [|done]. case_match eqn:E; [|done]. eapply steps_trans; [exact Hs|].
  apply put_edge_steps; [done|by eapply bsteps_vertices|]. eapply resolve_role_in_graph; [|exact E].
  eapply bsteps_built; [exact Hs|]. eapply bsteps_built; [exact S3|]. apply Hb0.
Qed.

Lemma build_module_steps scan_root m scope b :
  sound b → steps b (build_module scan_root m scope b).1 ∧
  in_graph (build_module scan_root m scope b).2 (build_module scan_root m scope b).1 = true.
Proof.
  intros Hb. unfold build_module. case_bool_decide; simpl; [split; [apply rtc_refl|by apply Hb]|].
  match goal with |- context [put_node ?n _] => by apply (visit_steps (λ _, True) (λ _, True) n b) end.
Qed.

Lemma build_collection_steps scan_root c scope b :
  sound b → steps b (build_collection objs scan_root c scope b).1.
Proof.
  intros Hb. unfold build_collection. case_bool_decide; simpl; [apply rtc_refl|].
  set (k := or_else (co_path c) (co_name c)).
  destruct (visit_steps (λ _, True) (λ _, True) (collection_node c k scope) b) as [S1 V1]; [done..|].
  change (node_id (collection_node c k scope)) with k in S1, V1. set (b0 := put_node _ _) in *. clearbody b0.
  pose proof (bsteps_sound _ _ _ _ S1 Hb) as Hb0.
  eapply steps_trans; [exact S1|]. apply (foldl_ind (steps b0)); [|apply rtc_refl].
  intros r x _ Hs. unfold add_module. case_match; [|done].
  destruct (build_module_steps scan_root m scope x) as [S2 V2]; [by eapply bsteps_sound|].
  destruct (build_module scan_root m scope x) as [y mn]. simpl in *.
  eapply steps_trans; [exact Hs|]. eapply steps_trans; [exact S2|].
  apply put_edge_steps; [done| |done]. eapply bsteps_vertices; [exact S2|]. by eapply bsteps_vertices.
Qed.

Lemma build_from_loaded_steps fuel scan_root loaded scope b b' :
  sound b → build_from_loaded objs fuel scan_root loaded scope b = Some b' → steps b b'.
Proof.
  intros Hb. apply (each_ind (steps b)); [|apply rtc_refl].
  intros _ d x y _ Hs Hd. eapply steps_trans; [exact Hs|]. pose proof (bsteps_sound _ _ _ _ Hs Hb) as Hx.
  destruct d; simpl in Hd; try (injection Hd as <-; apply rtc_refl).
  - injection Hd as <-. by apply build_collection_steps.
  - apply fmap_Some in Hd as ([z nid] & Hd & ->). by eapply build_role_steps.
  - apply fmap_Some in Hd as ([z nid] & Hd & ->). eapply bsteps_steps. by eapply build_taskfile_steps.
  - apply fmap_Some in Hd as ([z nid] & Hd & ->). by eapply build_playbook_steps.
Qed.
End Keyed.

(** *** Wiring *)

Lemma add_edges_steps (es : list (string * string * EdgeAttrs)) b :
  Forall (λ e, in_graph e.1.1 b = true ∧ in_graph e.1.2 b = true) es →
  steps b (on_graph (add_edges es) b).
Proof.
  unfold add_edges. revert b. induction es as [|e es IH]; intros b Hes.
  - assert (E : on_graph (λ g, g) b = b) by by destruct b. simpl. unfold on_graph in *. simpl in *.
    rewrite E. apply rtc_refl.
  - inversion Hes as [|? ? [Hu Hv] Hes']; subst.
    eapply steps_trans; [|apply (IH (put_edge e.1.1 e.1.2 e.2 b))]; [by apply put_edge_steps|].
    eapply Forall_impl; [exact Hes'|]. intros e' [? ?].
    split; (eapply bstep_vertices; [apply (step_edge (λ _, True) (λ _, True))|]); done.
Qed.
End Laws.
