(* ===== verification/BuilderProps.v ===== *)
(** * Properties of the graph builder

    The graphs that [GraphBuilder.build] returns are well formed, whatever the definitions;
    a play lays out its children in the order Ansible runs them; notification and data-flow
    edges are what the fields of the nodes say.  [BuilderDemo] holds the concrete projects
    on which the witnesses run. *)

From stdpp Require Import base list gmap strings pretty relations.
From Stdlib Require Import Ascii String.
From S2P Require Import Prelude PyStr Yaml PyPath NxGraph ContentNode ContentGraph GraphLaws GraphQueries Sample Definitions GraphBuilder BuilderSample BuilderLaws.

#[local] Open Scope string_scope.
#[local] Notation length := List.length.

Section Props.
Context `{PySource} {G : Type} `{NxLaws ContentNode EdgeAttrs G}.
Implicit Types (b : builder G) (g : ContentGraph G) (scope : NodeScope).

(** ** Adding edges between vertices *)

Definition linked g (es : list (string * string * EdgeAttrs)) : Prop :=
  Forall (λ e, e.1.1 ∈ vertices g ∧ e.1.2 ∈ vertices g) es.

Lemma add_edges_spec es g :
  linked g es →
  nx_nodes (cg_g (add_edges es g)) = nx_nodes (cg_g g) ∧
  nx_edges (cg_g (add_edges es g)) ≡ₚ (es ++ nx_edges (cg_g g))%list ∧
  cg_dirty (add_edges es g) = cg_dirty g.
Proof.
  unfold add_edges, linked. revert g. induction es as [|[[u v] e] es IH]; intros g Hes; [done|].
  inversion Hes as [|? ? [Hu Hv] Hes']; subst. simpl in *.
  destruct (IH (add_edge u v e g)) as (Hn & He & Hd).
  { eapply Forall_impl; [exact Hes'|]. intros e'. rewrite !vertices_add_edge. naive_solver. }
  split_and!; [by rewrite Hn, add_edge_nodes| |done].
  rewrite He. unfold add_edge. simpl. rewrite nx_edges_add_edge. by rewrite <- Permutation_middle.
Qed.

(** ** Notification *)

Lemma elem_of_handlers_by_name g topic k :
  built g → k ∈ handlers_by_name g topic ↔
    topic ≠ "" ∧ ∃ n, get_node g k = Some n ∧ node_type n = HANDLER ∧ f_name (nd_fields n) = Some topic.
Proof.
  intros Hb. unfold handlers_by_name. rewrite list_elem_of_fmap. setoid_rewrite list_elem_of_filter.
  setoid_rewrite (built_get_node g k _ Hb). naive_solver.
Qed.

Lemma elem_of_handlers_by_listen g topic k :
  built g → k ∈ handlers_by_listen g topic ↔
    ∃ n, get_node g k = Some n ∧ node_type n = HANDLER ∧ topic ∈ f_listen (nd_fields n).
Proof.
  intros Hb. unfold handlers_by_listen. rewrite list_elem_of_bind. setoid_rewrite list_elem_of_filter.
  setoid_rewrite (built_get_node g k _ Hb). split.
  - intros (n & Hk & Ht & Hn). apply list_elem_of_fmap in Hk as (t & -> & [-> Hl]%list_elem_of_filter). eauto.
  - intros (n & [Hn <-] & Ht & Hl). exists n. split_and!; [|done..].
    apply list_elem_of_fmap. exists topic. split; [done|]. by apply list_elem_of_filter.
Qed.

(** The node [u] asks for [topic]. *)
Definition notifies g (u topic : string) : Prop :=
  ∃ n, get_node g u = Some n ∧ node_type n ∈ [TASK; HANDLER] ∧ topic ∈ f_notify (nd_fields n).

Lemma elem_of_notify_edges g u v e :
  built g → (u, v, e) ∈ nodes g ≫= notify_edges g ↔ ∃ topic, notifies g u topic ∧
    ((e = edge NOTIFY 0 ∧ v ∈ handlers_by_name g topic) ∨ (e = edge LISTEN 0 ∧ v ∈ handlers_by_listen g topic)).
Proof.
  intros Hb. unfold notifies. rewrite list_elem_of_bind. setoid_rewrite (built_get_node g u _ Hb).
  unfold notify_edges. split.
  - intros (n & Hin & Hn). case_bool_decide as Ht; [|by apply elem_of_nil in Hin].
    apply list_elem_of_bind in Hin as (topic & Hin & Htopic). exists topic.
    apply elem_of_app in Hin as [(h & [= -> -> ->] & Hh)%list_elem_of_fmap|(h & [= -> -> ->] & Hh)%list_elem_of_fmap];
      naive_solver.
  - intros (topic & (n & [Hn <-] & Ht & Htopic) & Hcase). exists n. rewrite bool_decide_eq_true_2 by done.
    split; [|done]. apply list_elem_of_bind. exists topic. split; [|done]. apply elem_of_app.
    destruct Hcase as [[-> Hv]|[-> Hv]]; [left|right]; apply list_elem_of_fmap; eauto.
Qed.

Lemma notify_linked g : built g → linked g (nodes g ≫= notify_edges g).
Proof.
  intros Hb. apply Forall_forall. intros [[u v] e]. rewrite elem_of_notify_edges by done.
  intros (topic & (n & Hn & _) & Hv). simpl. split; [by apply nx_payload_mem in Hn|].
  destruct Hv as [[_ Hv]|[_ Hv]].
  - apply elem_of_handlers_by_name in Hv as (_ & m & Hm & _); [|done]. by apply nx_payload_mem in Hm.
  - apply elem_of_handlers_by_listen in Hv as (m & Hm & _); [|done]. by apply nx_payload_mem in Hm.
Qed.
(** ** Data flow *)

(** The node defines [var] at run time. *)
Definition produces (n : ContentNode) (var : string) : Prop :=
  (f_register (nd_fields n) = Some var ∧ var ≠ "") ∨ var ∈ (f_set_facts (nd_fields n)).*1.

(** An edge from a producer of a name to another node that refers to it. *)
Definition flow_edge g (x : string * string * EdgeAttrs) : Prop :=
  x.2 = edge DATA_FLOW 0 ∧ x.1.1 ≠ x.1.2 ∧
  ∃ nu nv var, get_node g x.1.1 = Some nu ∧ get_node g x.1.2 = Some nv ∧
    var ∈ extract_variable_references nv ∧ produces nu var.

Definition supported g (p : producers) : Prop :=
  ∀ var k, p.1 !! var = Some k ∨ p.2 !! var = Some k → ∃ n, get_node g k = Some n ∧ produces n var.

Lemma producer_of_supported g p var k :
  supported g p → producer_of p var = Some k → ∃ n, get_node g k = Some n ∧ produces n var.
Proof.
  intros Hp. unfold producer_of. destruct (p.1 !! var) as [k1|] eqn:E1; [case_match|]; intros; eapply Hp; naive_solver.
Qed.

Lemma foldl_insert_lookup (ks : list string) (nid : string) (m : gmap string string) var :
  foldl (λ m k, <[k := nid]> m) m ks !! var = if decide (var ∈ ks) then Some nid else m !! var.
Proof.
  revert m. induction ks as [|k ks IH]; intros m; cbn [foldl]; [by rewrite decide_False by apply not_elem_of_nil|].
  rewrite IH. destruct (decide (var ∈ ks)) as [Hin|Hin].
  - by rewrite decide_True by by right.
  - destruct (decide (var = k)) as [->|Hne]; [by rewrite lookup_insert_eq, decide_True by by left|].
    rewrite lookup_insert_ne by done. rewrite decide_False; [done|]. intros [?|?]%elem_of_cons; done.
Qed.

Lemma produce_supported g nid n p : get_node g nid = Some n → supported g p → supported g (produce nid n p).
Proof.
  intros Hn Hp var k. unfold produce. simpl. rewrite foldl_insert_lookup. intros [Hk|Hk].
  - destruct (f_register (nd_fields n)) as [r|] eqn:Er; [|eapply Hp; eauto].
    destruct (String.eqb_spec r "") as [->|Hne]; [eapply Hp; eauto|].
    destruct (decide (var = r)) as [->|?].
    + rewrite lookup_insert_eq in Hk. injection Hk as <-. exists n. split; [done|]. by left.
    + rewrite lookup_insert_ne in Hk by done. eapply Hp; eauto.
  - case_decide; [|eapply Hp; eauto]. injection Hk as <-. exists n. split; [done|]. by right.
Qed.

Lemma flow_edges_sound g p nid n :
  supported g p → get_node g nid = Some n → Forall (flow_edge g) (flow_edges p nid n).
Proof.
  intros Hp Hn. apply Forall_forall. intros x (var & Hvar & Hx)%list_elem_of_omap.
  destruct (producer_of p var) as [k|] eqn:Ek; [|done]. case_match eqn:Eb; [done|]. injection Hx as <-.
  apply orb_false_iff in Eb as [_ Hne%String.eqb_neq].
  destruct (producer_of_supported _ _ _ _ Hp Ek) as (nu & Hnu & Hpr). split_and!; [done..|].
  exists nu, n, var. done.
Qed.

(** The graph [g'] is [g] with more data-flow edges. *)
Record flows g g' : Prop := {
  flows_nodes : nx_nodes (cg_g g') = nx_nodes (cg_g g);
  flows_dirty : cg_dirty g' = cg_dirty g;
  flows_edges : ∃ es, nx_edges (cg_g g') ≡ₚ (es ++ nx_edges (cg_g g))%list ∧ Forall (flow_edge g) es;
}.

Lemma flows_refl g : flows g g.
Proof. split; [done..|]. by exists []. Qed.

Lemma flows_get_node g g' k : flows g g' → get_node g' k = get_node g k.
Proof. intros [Hn _ _]. unfold get_node, nx_payload. by rewrite Hn. Qed.

Lemma flows_vertices g g' : flows g g' → vertices g' = vertices g.
Proof. intros [Hn _ _]. unfold vertices. by rewrite Hn. Qed.

Lemma flow_edge_linked g es : Forall (flow_edge g) es → linked g es.
Proof.
  intros Hes. eapply Forall_impl; [exact Hes|]. intros x (_ & _ & nu & nv & var & Hu & Hv & _).
  split; [by apply nx_payload_mem in Hu|by apply nx_payload_mem in Hv].
Qed.

Lemma flows_add_edges g g' es : flows g g' → Forall (flow_edge g) es → flows g (add_edges es g').
Proof.
  intros Hf Hes. destruct (add_edges_spec es g') as (Hn & He & Hd).
  { apply flow_edge_linked in Hes. unfold linked in *. by rewrite (flows_vertices _ _ Hf). }
  destruct Hf as [Hn' Hd' (es' & He' & Hes')]. split; [congruence..|].
  exists (es ++ es')%list. split; [by rewrite He, He', (assoc app)|]. by apply Forall_app.
Qed.

Lemma flow_step_flows g pg nid :
  supported g pg.1 → flows g pg.2 → supported g (flow_step pg nid).1 ∧ flows g (flow_step pg nid).2.
Proof.
  intros Hp Hf. unfold flow_step. rewrite (flows_get_node g) by done. destruct (get_node g nid) as [n|] eqn:En; [|done].
  split; [by apply produce_supported|]. apply flows_add_edges; [done|]. by apply flow_edges_sound.
Qed.

Lemma flow_again_flows g p g' nid : supported g p → flows g g' → flows g (flow_again p g' nid).
Proof.
  intros Hp Hf. unfold flow_again. rewrite (flows_get_node g) by done. destruct (get_node g nid) as [n|] eqn:En; [|done].
  apply flows_add_edges; [done|]. by apply flow_edges_sound.
Qed.

Lemma flow_again_foldl g p l g' :
  supported g p → flows g g' → flows g (foldl (flow_again p) g' l) ∧
  ∀ x, x ∈ nx_edges (cg_g g') ∨ (∃ v n, v ∈ l ∧ get_node g v = Some n ∧ x ∈ flow_edges p v n) →
    x ∈ nx_edges (cg_g (foldl (flow_again p) g' l)).
Proof.
  intros Hp. revert g'. induction l as [|k l IH]; intros g' Hf; simpl.
  - split; [done|]. intros x [?|(v & n & ?%elem_of_nil & _)]; done.
  - destruct (IH (flow_again p g' k)) as [Hl He]; [by apply flow_again_flows|]. split; [done|].
    assert (Hstep : ∀ x, x ∈ nx_edges (cg_g g') ∨ (∃ n, get_node g k = Some n ∧ x ∈ flow_edges p k n) →
      x ∈ nx_edges (cg_g (flow_again p g' k))).
    { intros x Hx. unfold flow_again. rewrite (flows_get_node g) by done.
      destruct (get_node g k) as [n|] eqn:En; [|naive_solver].
      destruct (add_edges_spec (flow_edges p k n) g') as (_ & -> & _).
      { unfold linked. rewrite (flows_vertices _ _ Hf). apply flow_edge_linked. by apply flow_edges_sound. }
      apply elem_of_app. naive_solver. }
    intros x [Hx|(v & n & [->|Hv]%elem_of_cons & Hn & Hx)]; apply He; [left; apply Hstep; eauto..|].
    right. eauto.
Qed.
(** *** The three loops *)

Section Order.
Context `{TopoSort G}.

Lemma collect_supported g l p : supported g p → supported g (foldl (collect_producers g) p l).
Proof.
  apply foldl_ind. intros k q _ Hq. unfold collect_producers.
  destruct (get_node g k) as [n|] eqn:En; [|done]. by apply produce_supported.
Qed.

Lemma flow_step_foldl g l pg :
  supported g pg.1 → flows g pg.2 → supported g (foldl flow_step pg l).1 ∧ flows g (foldl flow_step pg l).2.
Proof.
  intros Hp Hf. apply (foldl_ind (λ pg, supported g pg.1 ∧ flows g pg.2)); [|done].
  intros k q _ [? ?]. by apply flow_step_flows.
Qed.

Lemma empty_supported g : supported g (∅, ∅).
Proof. intros var k [Hk|Hk]; simpl in Hk; by rewrite lookup_empty in Hk. Qed.

(** The second loop updates the producers the way the first one collects them. *)
Lemma flow_step_producers g l pg :
  supported g pg.1 → flows g pg.2 → (foldl flow_step pg l).1 = foldl (collect_producers g) pg.1 l.
Proof.
  revert pg. induction l as [|k l IH]; intros pg Hp Hf; [done|]. cbn [foldl].
  destruct (flow_step_flows g pg k Hp Hf) as [Hp' Hf']. rewrite IH by done. f_equal.
  unfold flow_step, collect_producers. rewrite (flows_get_node g) by done. by destruct (get_node g k).
Qed.

(** The last node of [l] with the property [P] is [u]. *)
Definition latest (P : string → Prop) (l : list string) (u : string) : Prop :=
  P u ∧ ∃ l1 l2, l = (l1 ++ u :: l2)%list ∧ ∀ k, k ∈ l2 → ¬ P k.

Definition registers g (var k : string) : Prop :=
  ∃ n, get_node g k = Some n ∧ f_register (nd_fields n) = Some var ∧ var ≠ "".

Definition sets_fact g (var k : string) : Prop :=
  ∃ n, get_node g k = Some n ∧ var ∈ (f_set_facts (nd_fields n)).*1.

Lemma collect_registered g p k var :
  (collect_producers g p k).1 !! var = p.1 !! var ∧ ¬ registers g var k ∨
  (collect_producers g p k).1 !! var = Some k ∧ registers g var k.
Proof.
  unfold collect_producers, registers. destruct (get_node g k) as [n|] eqn:En; [|left; naive_solver].
  unfold produce. cbn [fst]. destruct (f_register (nd_fields n)) as [r|] eqn:Er; [|left; naive_solver].
  destruct (String.eqb_spec r "") as [->|Hne]; [left; naive_solver|].
  destruct (decide (var = r)) as [->|Hr]; [right; rewrite lookup_insert_eq; eauto|].
  left. rewrite lookup_insert_ne by done. naive_solver.
Qed.

Lemma collect_facts g p k var :
  (collect_producers g p k).2 !! var = p.2 !! var ∧ ¬ sets_fact g var k ∨
  (collect_producers g p k).2 !! var = Some k ∧ sets_fact g var k.
Proof.
  unfold collect_producers, sets_fact. destruct (get_node g k) as [n|] eqn:En; [|left; naive_solver].
  unfold produce. cbn [snd]. rewrite foldl_insert_lookup. case_decide; [right; eauto|left; naive_solver].
Qed.

(** A fold whose steps record, under a projection, the nodes with the property [P]. *)
Lemma fold_records (f : producers → gmap string string) (P : string → Prop) g var :
  (∀ p k, f (collect_producers g p k) !! var = f p !! var ∧ ¬ P k ∨
          f (collect_producers g p k) !! var = Some k ∧ P k) →
  ∀ l p,
    ((∀ k, k ∈ l → ¬ P k) → f (foldl (collect_producers g) p l) !! var = f p !! var) ∧
    (∀ u, latest P l u → f (foldl (collect_producers g) p l) !! var = Some u).
Proof.
  intros Hstep l. assert (Hnone : ∀ l p, (∀ k, k ∈ l → ¬ P k) →
    f (foldl (collect_producers g) p l) !! var = f p !! var).
  { clear l. induction l as [|k l IH]; intros p Hl; [done|]. cbn [foldl]. rewrite IH by (intros; apply Hl; by right).
    destruct (Hstep p k) as [[? _]|[_ Hk]]; [done|]. exfalso. apply (Hl k); [left|done]. }
  intros p. split; [apply Hnone|]. intros u (Hu & l1 & l2 & -> & Hl2).
  rewrite foldl_app. cbn [foldl]. rewrite Hnone by done. destruct (Hstep (foldl (collect_producers g) p l1) u) as [[_ Hn]|[? _]]; done.
Qed.

Lemma collected_registered g var l p u :
  latest (registers g var) l u → (foldl (collect_producers g) p l).1 !! var = Some u.
Proof. apply (fold_records fst _ g var (λ p k, collect_registered g p k var)). Qed.

Lemma never_registered g var l p :
  (∀ k, ¬ registers g var k) → (foldl (collect_producers g) p l).1 !! var = p.1 !! var.
Proof. intros Hn. apply (fold_records fst _ g var (λ p k, collect_registered g p k var)); auto. Qed.

Lemma collected_fact g var l p u :
  latest (sets_fact g var) l u → (foldl (collect_producers g) p l).2 !! var = Some u.
Proof. apply (fold_records snd _ g var (λ p k, collect_facts g p k var)). Qed.

(** Edges are only added. *)
Lemma flow_step_edges g pg nid x :
  supported g pg.1 → flows g pg.2 →
  x ∈ nx_edges (cg_g pg.2) ∨ (∃ n, get_node g nid = Some n ∧ x ∈ flow_edges pg.1 nid n) →
  x ∈ nx_edges (cg_g (flow_step pg nid).2).
Proof.
  intros Hp Hf Hx. unfold flow_step. rewrite (flows_get_node g) by done.
  destruct (get_node g nid) as [n|] eqn:En; [|naive_solver]. cbn [snd].
  destruct (add_edges_spec (flow_edges pg.1 nid n) pg.2) as (_ & -> & _).
  { unfold linked. rewrite (flows_vertices _ _ Hf). apply flow_edge_linked. by apply flow_edges_sound. }
  apply elem_of_app. naive_solver.
Qed.

Lemma flow_steps_edges g l pg x :
  supported g pg.1 → flows g pg.2 → x ∈ nx_edges (cg_g pg.2) → x ∈ nx_edges (cg_g (foldl flow_step pg l).2).
Proof.
  intros Hp Hf Hx.
  apply (foldl_ind (λ pg, supported g pg.1 ∧ flows g pg.2 ∧ x ∈ nx_edges (cg_g pg.2)) flow_step l pg); [|done].
  intros k q _ (Hq & Hfq & Hxq). destruct (flow_step_flows g q k Hq Hfq). split_and!; [done..|].
  apply (flow_step_edges g); auto.
Qed.

(** At the node [v] the second loop knows the producers of the whole graph, overridden by
    those before [v]; the edges it makes there stay. *)
Lemma wire_data_flow_spec g :
  flows g (wire_data_flow g) ∧
  ∃ p0, p0 = foldl (collect_producers g) (∅, ∅) (topological_order g) ∧
    ∀ before v after n x, topological_order g = (before ++ v :: after)%list → get_node g v = Some n →
      x ∈ flow_edges (foldl (collect_producers g) p0 before) v n → x ∈ nx_edges (cg_g (wire_data_flow g)).
Proof.
  unfold wire_data_flow.
  pose proof (collect_supported g (topological_order g) _ (empty_supported g)) as Hp0.
  set (p0 := foldl (collect_producers g) (∅, ∅) (topological_order g)) in *. clearbody p0.
  pose proof (flow_step_foldl g (topological_order g) (p0, g) Hp0 (flows_refl g)) as [Hp1 Hf1].
  destruct (foldl flow_step (p0, g) (topological_order g)) as [p1 g1] eqn:E. simpl in Hp1, Hf1.
  destruct (flow_again_foldl g p1 (topological_order g1) g1 Hp1 Hf1) as [Hf2 He2]. split; [done|].
  exists p0. split; [done|]. intros before v after n x Ho Hn Hx. apply He2. left.
  change g1 with (p1, g1).2. rewrite <- E, Ho, foldl_app. cbn [foldl].
  pose proof (flow_step_foldl g before (p0, g) Hp0 (flows_refl g)) as [Hpb Hfb].
  destruct (flow_step_flows g _ v Hpb Hfb). apply (flow_steps_edges g); [done..|].
  apply (flow_step_edges g); [done..|]. right. exists n. split; [done|].
  by rewrite (flow_step_producers g before (p0, g) Hp0 (flows_refl g)).
Qed.

(** *** The whole build *)

Lemma bstep_dirty W N b b' : bstep W N b b' → cg_dirty (b_graph b') = cg_dirty (b_graph b).
Proof. by destruct 1. Qed.

Lemma steps_dirty b b' : steps b b' → cg_dirty (b_graph b') = cg_dirty (b_graph b).
Proof. induction 1 as [|x y z Hxy _ IH]; [done|]. rewrite IH. by eapply bstep_dirty. Qed.

Lemma built_same_nodes g g' : nx_nodes (cg_g g') = nx_nodes (cg_g g) → built g → built g'.
Proof. intros E Hb k. unfold vertices, get_node, nx_payload. rewrite E. apply Hb. Qed.

Lemma wire_built g : built g → built (wire_data_flow (wire_notify_listen g)).
Proof.
  intros Hb. eapply built_same_nodes; [|exact Hb].
  destruct (wire_data_flow_spec (wire_notify_listen g)) as [Hf _]. rewrite (flows_nodes _ _ Hf).
  by apply add_edges_spec, notify_linked.
Qed.

Lemma build_spec fuel scan_root root ext b :
  build fuel scan_root root ext = Some b → built (b_graph b) ∧ cg_dirty (b_graph b) = ∅.
Proof.
  intros (b1 & H1' & (b2 & H2' & E)%bind_Some)%bind_Some. injection E as <-.
  pose proof new_builder_sound as Hs0.
  pose proof (build_from_loaded_steps _ _ _ _ _ _ _ Hs0 H1') as S1. pose proof (bsteps_sound _ _ _ _ S1 Hs0) as Hs1.
  pose proof (build_from_loaded_steps _ _ _ _ _ _ _ Hs1 H2') as S2. pose proof (bsteps_sound _ _ _ _ S2 Hs1) as [Hb2 _].
  simpl. split; [by apply wire_built|].
  destruct (wire_data_flow_spec (wire_notify_listen (b_graph b2))) as [Hf _]. rewrite (flows_dirty _ _ Hf).
  destruct (add_edges_spec _ (b_graph b2) (notify_linked _ Hb2)) as (_ & _ & Hd). unfold wire_notify_listen. rewrite Hd.
  by rewrite (steps_dirty _ _ S2), (steps_dirty _ _ S1).
Qed.

(** ** Properties *)

(** C11: The graph that a build returns is complete and well formed, whatever the definitions
    are: every vertex carries the node of its id, so no edge leads to a reference that was
    never built; the nodes satisfy the invariant that the remediation engine relies on;
    nothing is dirty and no finding is recorded yet. *)
Theorem built_graph_wf fuel scan_root root ext b :
  build fuel scan_root root ext = Some b →
  (∀ k, k ∈ vertices (b_graph b) → ∃ n, get_node (b_graph b) k = Some n ∧ node_id n = k) ∧
  (∀ u v e, (u, v, e) ∈ nx_edges (cg_g (b_graph b)) →
     is_Some (get_node (b_graph b) u) ∧ is_Some (get_node (b_graph b) v)) ∧
  graph_wf (b_graph b) ∧ dirty_nodes (b_graph b) = ∅ ∧ query_violations None None (b_graph b) = [].
Proof.
  intros [Hb Hd]%build_spec. split_and!; [| | |done|].
  - intros k (n & ? & ? & _)%Hb. eauto.
  - intros u v e [Hu Hv]%nx_edges_mem. split.
    + destruct (Hb u Hu) as (n & ? & _). eauto.
    + destruct (Hb v Hv) as (n & ? & _). eauto.
  - intros k n Hn. destruct (Hb k) as (n' & Hn' & _ & Hp); [by apply nx_payload_mem in Hn|].
    assert (n' = n) as -> by congruence. by apply pristine_wf.
  - unfold query_violations, all_records.
    assert (Hr : nodes (b_graph b) ≫= (λ n, (nd_ledger n).*2) = []); [|by rewrite Hr].
    apply elem_of_nil_inv. intros r (n & Hr & Hn)%list_elem_of_bind.
    apply built_nodes in Hn as [Hk Hn]; [|done]. destruct (Hb _ Hk) as (n' & Hn' & _ & Hl & _).
    assert (n' = n) as -> by congruence. rewrite Hl in Hr. by apply elem_of_nil in Hr.
Qed.

(** Notification edges are exact.  On a graph under construction, a task or handler gets
    a [NOTIFY] edge to exactly the handlers that bear a name it notifies, and a [LISTEN]
    edge to exactly the handlers that listen to it; other edges and all nodes stay. *)
Theorem notify_listen_exact g u v e :
  built g →
  let g' := wire_notify_listen g in
  nx_nodes (cg_g g') = nx_nodes (cg_g g) ∧
  ((u, v, e) ∈ nx_edges (cg_g g') ↔
    (u, v, e) ∈ nx_edges (cg_g g) ∨
    ∃ topic n, notifies g u topic ∧ get_node g v = Some n ∧ node_type n = HANDLER ∧
      ((e = edge NOTIFY 0 ∧ topic ≠ "" ∧ f_name (nd_fields n) = Some topic) ∨
       (e = edge LISTEN 0 ∧ topic ∈ f_listen (nd_fields n)))).
Proof.
  intros Hb g'. destruct (add_edges_spec _ g (notify_linked g Hb)) as (Hn & He & _). split; [done|].
  unfold g', wire_notify_listen. rewrite He, elem_of_app, elem_of_notify_edges by done.
  setoid_rewrite elem_of_handlers_by_name; [|done]. setoid_rewrite elem_of_handlers_by_listen; [|done]. naive_solver.
Qed.

(** The documented behaviour of [topological_sort]: an order of all vertices. *)
Class TopoLaws : Prop := topo_perm : ∀ h l, nx_topological_sort h = Some l → l ≡ₚ (nx_nodes h).*1.

Lemma elem_of_topological_order `{TopoLaws} g k : k ∈ topological_order g ↔ k ∈ vertices g.
Proof.
  unfold topological_order. destruct (nx_topological_sort (cg_g g)) as [l|] eqn:E; simpl; [|done].
  by rewrite (topo_perm _ _ E).
Qed.

Lemma topological_order_nodup `{TopoLaws} g : NoDup (topological_order g).
Proof.
  unfold topological_order. destruct (nx_topological_sort (cg_g g)) as [l|] eqn:E; simpl; [|apply nx_nodes_nodup].
  rewrite (topo_perm _ _ E). apply nx_nodes_nodup.
Qed.

(** C14: Data-flow edges.  No node changes, and every edge that is added leads from a node that
    registers or sets a name to another node that refers to it.  A node [v] that refers to
    a name gets an edge from the last node before it in topological order that registers
    the name; and where no node of the graph registers the name, from the last node before
    it that sets it as a fact.  (Nothing is promised for producers after [v].) *)
Theorem data_flow_exact `{TopoLaws} g :
  "" ∉ vertices g →
  let g' := wire_data_flow g in
  nx_nodes (cg_g g') = nx_nodes (cg_g g) ∧
  (∃ es, nx_edges (cg_g g') ≡ₚ (es ++ nx_edges (cg_g g))%list ∧ Forall (flow_edge g) es) ∧
  ∀ before v after nv var u,
    topological_order g = (before ++ v :: after)%list →
    get_node g v = Some nv → var ∈ extract_variable_references nv →
    latest (registers g var) before u ∨
      (∀ k, ¬ registers g var k) ∧ latest (sets_fact g var) before u →
    (u, v, edge DATA_FLOW 0) ∈ nx_edges (cg_g g').
Proof.
  intros He g'. destruct (wire_data_flow_spec g) as (Hf & p0 & E0 & Hin).
  split_and!; [by apply Hf..|]. intros before v after nv var u Ho Hv Hvar Hu.
  apply (Hin before v after nv); [done..|]. apply list_elem_of_omap. exists var. split; [done|].
  assert (u ∈ before ∧ ∃ n, get_node g u = Some n) as [Hub [n Hn]].
  { destruct Hu as [((n & Hn & _) & l1 & l2 & -> & _)|(_ & (n & Hn & _) & l1 & l2 & -> & _)];
      (split; [set_solver|by exists n]). }
  assert (u ≠ "") as Hune by (intros ->; by apply nx_payload_mem in Hn).
  assert (u ≠ v) as Huv.
  { intros ->. pose proof (topological_order_nodup g) as Hnd. rewrite Ho in Hnd.
    apply NoDup_app in Hnd as (_ & Hd & _). apply (Hd v); [done|left]. }
  assert (producer_of (foldl (collect_producers g) p0 before) var = Some u) as ->.
  { unfold producer_of. destruct Hu as [Hu|[Hno Hu]].
    - rewrite (collected_registered _ _ _ _ _ Hu). by rewrite (proj2 (String.eqb_neq u "")).
    - rewrite never_registered, E0, never_registered by done. cbn [fst]. rewrite lookup_empty. by apply collected_fact. }
  by rewrite (proj2 (String.eqb_neq u "")), (proj2 (String.eqb_neq u v)).
Qed.
End Order.
End Props.

Module BuilderDemo.
#[export] Instance sample_topo_laws : TopoLaws (G := SG).
Proof. intros h l. apply kahn_perm. Qed.

Definition defined {A} (o : option A) : bool := match o with Some _ => true | None => false end.

Lemma defined_Some {A} (o : option A) : defined o = true → ∃ x, o = Some x.
Proof. destruct o as [x|]; [by exists x|done]. Qed.

Lemma demo_builds : ∃ b, built_project 3 demo_project = Some b.
Proof. apply defined_Some. vm_compute. reflexivity. Qed.

Lemma built_graph_wf_witness : ∃ b, built_project 3 demo_project = Some b ∧ graph_wf (b_graph b).
Proof.
  destruct demo_builds as [b Hb]. exists b. split; [exact Hb|].
  by destruct (built_graph_wf 3 "" demo_project [] b Hb) as (_ & _ & ? & _).
Defined.

(** Before the edges are wired. *)
Definition unwired_build : option (builder SG) :=
  build_from_loaded (object_table (load_all_definitions demo_project) (load_all_definitions [])) 3 ""
    (load_all_definitions demo_project) OWNED new_builder.

Definition unwired : builder SG := default new_builder unwired_build.

Lemma unwired_built : built (b_graph unwired).
Proof.
  assert (Hs : ∃ b, unwired_build = Some b) by (apply defined_Some; vm_compute; reflexivity).
  destruct Hs as [b Hb]. unfold unwired. rewrite Hb. cbn [default from_option id].
  eapply bsteps_sound; [|apply new_builder_sound].
  eapply build_from_loaded_steps; [apply new_builder_sound|exact Hb].
Qed.

Definition user : string := "site.yml/plays[0]/tasks[1]/block[0]".
Definition setup : string := "site.yml/plays[0]/tasks[0]".
Definition restart : string := "site.yml/plays[0]/handlers[0]".

Lemma notify_listen_exact_witness :
  (user, restart, edge NOTIFY 0) ∈ nx_edges (cg_g (wire_notify_listen (b_graph unwired))).
Proof.
  apply (notify_listen_exact (b_graph unwired) user restart (edge NOTIFY 0) unwired_built). right.
  exists "restart", (handler_node restart_handler "site.yml" restart OWNED). split_and!.
  - exists (task_node using_task "site.yml" user OWNED). split_and!; [vm_compute; reflexivity|set_solver|].
    vm_compute. left.
  - vm_compute. reflexivity.
  - reflexivity.
  - left. split_and!; [reflexivity|done|reflexivity].
Defined.

Lemma data_flow_exact_witness :
  (setup, user, edge DATA_FLOW 0) ∈ nx_edges (cg_g (wire_data_flow (b_graph unwired))).
Proof.
  destruct (data_flow_exact (b_graph unwired)) as (_ & _ & Hc).
  { apply (bool_decide_unpack _). vm_compute. exact I. }
  apply (Hc ["site.yml"; "site.yml/plays[0]"; setup; "site.yml/plays[0]/tasks[1]"] user [restart]
    (task_node using_task "site.yml" user OWNED) "x"); [vm_compute; reflexivity..|vm_compute; left|left].
  split.
  - exists (task_node setup_task "site.yml" setup OWNED). split; [vm_compute; reflexivity|]. split; [reflexivity|done].
  - exists ["site.yml"; "site.yml/plays[0]"], ["site.yml/plays[0]/tasks[1]"].
    split; [reflexivity|]. intros k ->%list_elem_of_singleton (n & Hn & Hr & _).
    vm_compute in Hn. injection Hn as <-. vm_compute in Hr. discriminate.
Defined.

(** ** Findings *)

(** The tasks of a play are referred to by keys that are sorted as strings, and
    the key of task 10 comes before the key of task 1. *)
Definition eleven : list Task :=
  (λ i, plain_task (set_task_key play_key (Z.of_nat i)) ("t" +:+ pretty i)) <$> seq 0 11.

(** From eleven tasks on the graph has them in the wrong order: the second task of the play
    is the eleventh of the file, and the others follow one place too late. *)
Theorem eleventh_task_runs_second :
  (λ b, name_at b <$> (index_path "site.yml/plays[0]" "tasks" <$> seq 0 11))
    <$> built_project 3 (project [] [] [sample_playbook "site.yml" [sample_play play_key [] eleven []]])
  = Some (Some <$> ["t0"; "t10"; "t1"; "t2"; "t3"; "t4"; "t5"; "t6"; "t7"; "t8"; "t9"]).
Proof. vm_compute. reflexivity. Qed.

(** A playbook with one play with one task. *)
Definition one_task (file task : string) : Playbook :=
  let k := set_play_key (set_playbook_key "" "" file) 0 in
  sample_playbook file [sample_play k [] [plain_task (set_task_key k 0) task] []].

(** Two playbooks whose paths agree after a blank share the keys of their plays, and both
    get the play of the second one. *)
Theorem blank_in_path_mixes_playbooks :
  (λ b, name_at b <$> ["my site.yml/plays[0]/tasks[0]"; "your site.yml/plays[0]/tasks[0]"])
    <$> built_project 2 (project [] [] [one_task "my site.yml" "mine"; one_task "your site.yml" "yours"])
  = Some [Some "yours"; Some "yours"].
Proof. vm_compute. reflexivity. Qed.

(** The dependencies of a role as [load_role] stores them. *)
Definition depends_on (role : string) : yval :=
  YDict [("roles", YList [YDict [("role", YStr role)]]); ("collections", YList [])].

(** A role that depends on another one gets no [DEPENDENCY] edge to it. *)
Theorem role_dependencies_ignored :
  typed_edges DEPENDENCY <$>
    built_project 2 (project [sample_role "base" [] YNull; sample_role "web" [] (depends_on "base")] [] [])
  = Some [].
Proof. vm_compute. reflexivity. Qed.

(** A role whose task includes the role [other]. *)
Definition calling_role (name other : string) : Role :=
  let file := "roles/" +:+ name +:+ "/tasks/main.yml" in
  let key := set_taskfile_key "" name file in
  sample_role name [MkTaskFile file key [RObj (calling_task (set_task_key key 0) "call" "include_role" other "Role")] []]
    YNull.

(** Whether an included role is found depends on the order of the roles: the role listed
    first cannot include the second one, which counts as unresolved. *)
Theorem later_role_unresolved :
  (λ b, (typed_edges INCLUDE b, b_role_failures b)) <$>
    built_project 2 (project [calling_role "a" "b"; sample_role "b" [] YNull] [] []) = Some ([], [("b", 1%Z)]) ∧
  (λ b, (typed_edges INCLUDE b, b_role_failures b)) <$>
    built_project 2 (project [sample_role "b" [] YNull; calling_role "a" "b"] [] [])
  = Some ([("roles/a/tasks/main.yml/tasks[0]", "roles/b")], []).
Proof. split; vm_compute; reflexivity. Qed.

(** A task that uses [y] before the task that registers it. *)
Definition early_use : Task :=
  MkTask (task_info (set_task_key play_key 0) "use" "debug" [] [("msg", YStr "{{ y }}")]) None None None.
Definition late_register : Task :=
  MkTask (task_info (set_task_key play_key 1) "make" "command" [("register", YStr "y")] []) None None None.

(** Data flows backwards and is counted twice: the task that registers the name later
    gets two edges to the earlier task that uses it. *)
Theorem data_flow_backwards :
  typed_edges DATA_FLOW <$>
    built_project 2 (project [] [] [sample_playbook "site.yml" [sample_play play_key [] [early_use; late_register] []]])
  = Some [("site.yml/plays[0]/tasks[1]", "site.yml/plays[0]/tasks[0]");
          ("site.yml/plays[0]/tasks[1]", "site.yml/plays[0]/tasks[0]")].
Proof. vm_compute. reflexivity. Qed.
End BuilderDemo.
