(* ===== verification/PlayLayout.v ===== *)
(** * The layout of a play

    [_build_play] numbers the children of a play by position: vars files, [pre_tasks],
    roles, [tasks], [post_tasks], handlers.  [play_items] is that sequence; the theorem of
    this file says that the edges of the built play are exactly these, each at its
    position, and that under the path of a position stands the task of that position. *)

From stdpp Require Import base list gmap strings pretty relations.
From Stdlib Require Import Ascii String.
From S2P Require Import Prelude PyStr Yaml PyPath PyNum NxGraph ContentNode ContentGraph GraphLaws GraphQueries Sample Definitions GraphBuilder BuilderSample BuilderLaws.

#[local] Open Scope string_scope.
#[local] Notation length := List.length.

(** ** Paths of children *)

Definition no_bracket (s : string) : Prop := sforall (λ d, bool_decide (d ≠ "]"%char)) s = true.

Lemma pretty_nat_no_bracket (i : nat) : no_bracket (pretty i).
Proof. by apply (pretty_N_forall _ (N.of_nat i)). Qed.

Lemma index_path_inj parent section i j :
  below (index_path parent section i) (index_path parent section j) → i = j.
Proof.
  intros [r E]. unfold index_path in E. rewrite !sapp_assoc in E. apply sapp_inv_head in E.
  do 3 apply sapp_inv_head in E.
  change ("]" +:+ r) with (String "]" r) in E.
  pose proof (split1_Some "]" (pretty i) r (pretty_nat_no_bracket i)) as Ei.
  pose proof (split1_Some "]" (pretty j) "" (pretty_nat_no_bracket j)) as Ej.
  apply (inj pretty). rewrite <- E, Ej in Ei. by injection Ei.
Qed.

Lemma tasks_not_handlers parent i j : ¬ below (index_path parent "tasks" i) (index_path parent "handlers" j).
Proof.
  intros [r E]. unfold index_path in E. rewrite !sapp_assoc in E. apply sapp_inv_head in E. by simplify_eq.
Qed.

Lemma index_path_not_below parent section i : ¬ below (index_path parent section i) parent.
Proof. intros Hb%below_length. pose proof (index_path_length parent section i). lia. Qed.

Section Layout.
Context `{PySource} {G : Type} `{NxLaws ContentNode EdgeAttrs G}.
Implicit Types (b : builder G) (g : ContentGraph G) (scope : NodeScope) (W : string → Prop) (N : ContentNode → Prop).

(** ** What restricted steps leave alone *)

Definition out_edges (k : string) g : list (string * string * EdgeAttrs) :=
  filter (λ x, x.1.1 = k) (nx_edges (cg_g g)).

Lemma out_edges_add_edge k u v e g :
  out_edges k (add_edge u v e g) ≡ₚ (if decide (u = k) then [(u, v, e)] else []) ++ out_edges k g.
Proof.
  unfold out_edges, add_edge. simpl. rewrite nx_edges_add_edge. rewrite filter_cons. simpl. by case_decide.
Qed.

Lemma bstep_keeps W N b b' k :
  bstep W N b b' → ¬ W k →
  out_edges k (b_graph b') ≡ₚ out_edges k (b_graph b) ∧
  (in_graph k b = true → get_node (b_graph b') k = get_node (b_graph b) k).
Proof.
  intros Hs Hk. destruct Hs as [n b Hp HN HW|u v e b HW Hu Hv|j y b HW|n b Hp HN HW|j b|j b]; try done; simpl.
  - split.
    + unfold out_edges, add_node. simpl. by rewrite nx_edges_add_node.
    + intros Hin. rewrite get_node_add_node. case_decide as E; [|done]. subst k. destruct HW; [done|congruence].
  - split.
    + rewrite out_edges_add_edge. by rewrite decide_False by by intros ->.
    + intros _. apply get_node_add_edge; by apply in_graph_iff.
  - split.
    + unfold out_edges, upd. simpl. by rewrite nx_edges_alter.
    + intros _. rewrite get_node_upd_at, decide_False by by intros ->. by destruct (get_node _ k).
  - split.
    + unfold out_edges, add_node. simpl. by rewrite nx_edges_add_node.
    + intros Hin. rewrite get_node_add_node. by rewrite decide_False by by intros ->.
Qed.

Lemma bsteps_keeps W N b b' k :
  bsteps W N b b' → ¬ W k →
  out_edges k (b_graph b') ≡ₚ out_edges k (b_graph b) ∧
  (in_graph k b = true → get_node (b_graph b') k = get_node (b_graph b) k).
Proof.
  intros Hs Hk. induction Hs as [b|b1 b2 b3 H12 _ [IHe IHn]]; [done|].
  destruct (bstep_keeps W N b1 b2 k H12 Hk) as [He Hn]. split; [by rewrite IHe|].
  intros Hin. rewrite IHn by by eapply bstep_vertices. by apply Hn.
Qed.

(** *** Roles *)

Definition role_nodes g : list ContentNode := nodes_of_type ROLE g.

(** No vertex that may be written holds a role. *)
Definition roles_safe W g : Prop := ∀ k n, W k → get_node g k = Some n → node_type n ≠ ROLE.

Lemma role_nodes_dset (k : string) (n : ContentNode) (l : list (string * option ContentNode)) :
  node_type n ≠ ROLE → (∀ m, mjoin (dget k l) = Some m → node_type m ≠ ROLE) →
  filter (λ n, node_type n = ROLE) (omap snd (dset k (Some n) l)) = filter (λ n, node_type n = ROLE) (omap snd l).
Proof.
  intros Hn. induction l as [|[j o] l IH]; cbn [dset dget]; intros Hk.
  - csimpl. by rewrite filter_cons, decide_False.
  - destruct (decide (k = j)) as [->|Hne]; destruct o as [m|]; csimpl; rewrite ?filter_cons.
    + rewrite !decide_False; [done|by apply Hk|done].
    + by rewrite decide_False.
    + by rewrite IH.
    + by apply IH.
Qed.

Lemma role_nodes_alter (k : string) (f : ContentNode → ContentNode) (l : list (string * option ContentNode)) :
  (∀ n, node_type (f n) = node_type n) → (∀ m, (k, Some m) ∈ l → node_type m ≠ ROLE) →
  filter (λ n, node_type n = ROLE) (omap snd (dalter (fmap f) k l)) = filter (λ n, node_type n = ROLE) (omap snd l).
Proof.
  intros Hf. unfold dalter. induction l as [|[j o] l IH]; csimpl; intros Hk; [done|].
  assert (IH' := IH ltac:(set_solver)). clear IH. destruct o as [m|]; [|by destruct (decide (j = k))].
  destruct (decide (j = k)) as [->|Hne]; csimpl; rewrite !filter_cons, IH'; [|done].
  rewrite !decide_False; [done|apply Hk; by left|]. rewrite Hf. apply Hk. by left.
Qed.

Lemma bstep_roles W b b' :
  bstep W not_role b b' → roles_safe W (b_graph b) →
  role_nodes (b_graph b') = role_nodes (b_graph b) ∧ roles_safe W (b_graph b').
Proof.
  assert (Hadd : ∀ n g, not_role n → W (node_id n) ∨ node_id n ∉ vertices g → roles_safe W g →
    role_nodes (add_node n g) = role_nodes g ∧ roles_safe W (add_node n g)).
  { intros n g HN HW Hr. split.
    - unfold role_nodes, nodes_of_type, nodes, add_node. simpl. rewrite nx_nodes_add_node.
      apply role_nodes_dset; [done|]. intros m Hm.
      destruct HW as [HW|HW]; [by eapply Hr|]. destruct HW. by apply (nx_payload_mem _ _ m).
    - intros k m Hk. rewrite get_node_add_node. case_decide; [by intros [= <-]|by apply Hr]. }
  intros [n b0 Hp HN HW|u v e b0 HW Hu Hv|k y b0 HW|n b0 Hp HN HW|k b0|k b0] Hr; simpl; try done.
  - apply Hadd; [done| |done]. destruct HW as [?|HW]; [by left|right].
    rewrite <- in_graph_iff. congruence.
  - apply in_graph_iff in Hu, Hv. split.
    + unfold role_nodes, nodes_of_type, nodes. by rewrite add_edge_nodes.
    + intros k m Hk. rewrite get_node_add_edge by done. by apply Hr.
  - split.
    + unfold role_nodes, nodes_of_type, nodes, upd. simpl. rewrite nx_nodes_alter.
      apply role_nodes_alter; [done|]. intros m Hm%nx_nodes_payload. by eapply Hr.
    + intros j m Hj. rewrite get_node_upd_at. intros (m' & Hm' & ->)%fmap_Some.
      case_decide; by eapply (Hr j m').
  - apply Hadd; [done|by left|done].
Qed.

Lemma bsteps_roles W b b' :
  bsteps W not_role b b' → roles_safe W (b_graph b) →
  role_nodes (b_graph b') = role_nodes (b_graph b) ∧ roles_safe W (b_graph b').
Proof.
  induction 1 as [b|b1 b2 b3 H12 _ IH]; [done|]. intros Hr. destruct (bstep_roles _ _ _ H12 Hr) as [E Hr2].
  destruct (IH Hr2) as [E' Hr3]. split; [congruence|done].
Qed.
(** ** The node of a task *)

Section Keyed.
Variable objs : gmap string definition.

Lemma get_node_put_edge u v e b k :
  in_graph u b = true → in_graph v b = true → get_node (b_graph (put_edge u v e b)) k = get_node (b_graph b) k.
Proof. intros ?%in_graph_iff ?%in_graph_iff. by apply get_node_add_edge. Qed.

Lemma wire_section_keeps fuel file scope section extra refs nid b b' :
  built (b_graph b) → in_graph nid b = true →
  wire_section objs (build_task objs fuel file scope) section extra refs nid b = Some b' →
  get_node (b_graph b') nid = get_node (b_graph b) nid.
Proof.
  intros Hb Hn. unfold wire_section.
  enough (Hg : ∀ i l x, each _ i l b = Some x →
    built (b_graph x) ∧ in_graph nid x = true ∧ get_node (b_graph x) nid = get_node (b_graph b) nid)
    by (intros Hx; by apply Hg in Hx as (_ & _ & ?)).
  intros i l x. apply (each_ind (λ x, built (b_graph x) ∧ in_graph nid x = true ∧
    get_node (b_graph x) nid = get_node (b_graph b) nid)); [|done].
  intros j r y z _ (Hby & Hny & Hgy). case_match; [|by intros [= <-]].
  intros (w & Hw & E)%bind_Some. injection E as <-.
  apply build_task_steps in Hw as [Sw Vw]; [|done].
  destruct (bsteps_keeps _ _ _ _ nid Sw (index_path_not_below _ _ _)) as [_ Hk].
  assert (Hnw : in_graph nid w = true) by by eapply bsteps_vertices.
  assert (Hs1 : ∀ e, steps w (put_edge nid (index_path nid section j) e w)) by (intros; by apply put_edge_steps).
  assert (Hbw : built (b_graph w)) by by eapply bsteps_built.
  destruct extra as [t'|].
  - assert (Hs2 : steps w (put_edge nid (index_path nid section j) (edge t' (Z.of_nat j))
      (put_edge nid (index_path nid section j) (edge CONTAINS (Z.of_nat j)) w))).
    { eapply steps_trans; [apply Hs1|]. apply put_edge_steps; [done|by eapply bsteps_vertices; [apply Hs1|]..]. }
    split_and!; [by eapply bsteps_built; [exact Hs2|]|by eapply bsteps_vertices; [exact Hs2|]|].
    rewrite !get_node_put_edge by (done || by eapply bsteps_vertices; [apply Hs1|]). by rewrite Hk.
  - split_and!; [by eapply bsteps_built; [apply Hs1|]|by eapply bsteps_vertices; [apply Hs1|]|].
    rewrite get_node_put_edge by done. by rewrite Hk.
Qed.

Lemma wire_block_keeps fuel file scope t nid b b' :
  built (b_graph b) → in_graph nid b = true →
  wire_block_children objs (build_task objs fuel file scope) t nid b = Some b' →
  get_node (b_graph b') nid = get_node (b_graph b) nid.
Proof.
  intros Hb Hn (b1 & H1' & (b2 & H2' & H3')%bind_Some)%bind_Some.
  assert (Hstep : ∀ section extra refs x y, built (b_graph x) → in_graph nid x = true →
    wire_section objs (build_task objs fuel file scope) section extra refs nid x = Some y →
    built (b_graph y) ∧ in_graph nid y = true).
  { intros section extra refs x y Hx Hnx Hy. apply wire_section_steps in Hy; [|intros; by eapply build_task_steps|done..].
    split; [by eapply bsteps_built|by eapply bsteps_vertices]. }
  destruct (Hstep _ _ _ _ _ Hb Hn H1') as [Hb1 Hn1]. destruct (Hstep _ _ _ _ _ Hb1 Hn1 H2') as [Hb2 Hn2].
  apply wire_section_keeps in H1', H2', H3'; [|done..]. congruence.
Qed.

Lemma wire_executable_keeps t nid file scope b :
  built (b_graph b) → in_graph nid b = true →
  get_node (b_graph (wire_executable t nid file scope b)) nid = get_node (b_graph b) nid.
Proof.
  intros Hb Hn. unfold wire_executable. case_match; [done|]. case_match.
  - case_match; [done|]. set (path := resolve_taskfile_path _ _).
    destruct (ensure_steps (λ _, False) not_role (stub_node path TASKFILE [] scope) b) as [S1 V1]; [done..|].
    rewrite get_node_put_edge; [|by eapply bsteps_vertices|exact V1].
    destruct (bsteps_keeps _ _ _ _ nid S1) as [_ Hk]; [by intros []|]. by apply Hk.
  - case_match; [|done]. case_match eqn:E; [|done]. apply get_node_put_edge; [done|].
    by eapply resolve_role_in_graph.
Qed.

Lemma build_task_node fuel file scope t path b b' :
  built (b_graph b) → build_task objs fuel file scope t path b = Some b' →
  get_node (b_graph b') path = Some (task_node t file path scope).
Proof.
  destruct fuel as [|fuel]; [done|]. intros Hb. cbn [build_task]. intros (b2 & Hb2 & E)%bind_Some. injection E as <-.
  destruct (task_node_spec t file path scope) as (Hp & HN & Hid).
  destruct (put_node_steps (below path) not_role (task_node t file path scope) b) as [S1 V1]; [done..| |].
  { left. rewrite Hid. apply below_refl. }
  rewrite Hid in V1. pose proof (bsteps_built _ _ _ _ S1 Hb) as Hb1.
  assert (H0' : get_node (b_graph (put_node (task_node t file path scope) b)) path = Some (task_node t file path scope)).
  { simpl. rewrite get_node_add_node, Hid. by rewrite decide_True. }
  destruct (is_block t); [|injection Hb2 as <-; by rewrite wire_executable_keeps].
  assert (Hs : bsteps (below path) not_role (put_node (task_node t file path scope) b) b2).
  { eapply wire_block_steps; [|done..]. intros. by eapply build_task_steps. }
  rewrite wire_executable_keeps; [|by eapply bsteps_built|by eapply bsteps_vertices].
  rewrite <- H0'. by eapply wire_block_keeps.
Qed.

(** ** The sequence of children *)

Inductive play_item := ItVars (path : string) | ItTask (t : Task) | ItRole (role : string) | ItHandler (i : nat) (t : Task).

(** Where the child at position [pos] stands, and the type of the edge to it. *)
Definition item_target (nid : string) (pos : nat) (it : play_item) : string :=
  match it with
  | ItVars path => path
  | ItTask _ => index_path nid "tasks" pos
  | ItRole role => role
  | ItHandler i _ => index_path nid "handlers" i
  end.

Definition item_type (it : play_item) : EdgeType :=
  match it with ItVars _ => VARS_INCLUDE | ItRole _ => DEPENDENCY | _ => CONTAINS end.

Definition item_edge (nid : string) (pos : nat) (it : play_item) : string * string * EdgeAttrs :=
  (nid, item_target nid pos it, edge (item_type it) (Z.of_nat pos)).

Definition item_node (file nid : string) scope (pos : nat) (it : play_item) : option ContentNode :=
  match it with
  | ItTask t => Some (task_node t file (item_target nid pos it) scope)
  | ItHandler _ t => Some (handler_node t file (item_target nid pos it) scope)
  | _ => None
  end.

Definition vars_items (file : string) (vfs : list string) : list play_item :=
  (λ vf, ItVars (normpath (path_join (dirname file) vf))) <$> vfs.

Definition task_items (refs : list (ref Task)) : list play_item := ItTask <$> omap (resolve_task objs) refs.

Definition role_items (b : builder G) (refs : list (ref RoleInPlay)) : list play_item :=
  ItRole <$> omap (λ r, match r with RObj rip => resolve_role_nid rip b | RKey _ => None end) refs.

Fixpoint handler_items (i : nat) (refs : list (ref Task)) : list play_item :=
  match refs with
  | [] => []
  | r :: refs' =>
    match resolve_task objs r with
    | Some t => ItHandler i t :: handler_items (S i) refs'
    | None => handler_items (S i) refs'
    end
  end.

(** What Ansible runs, in its order, when [b] holds the roles. *)
Definition play_items (p : Play) (file : string) b : list play_item :=
  (vars_items file (pl_vars_files p) ++ task_items (pl_pre_tasks p) ++ role_items b (pl_roles p)
   ++ task_items (pl_tasks p) ++ task_items (pl_post_tasks p) ++ handler_items 0 (pl_handlers p))%list.

(** The children laid out so far. *)
Record laid (file nid : string) scope b0 (items : list play_item) (bp : play_state) : Prop := {
  laid_position : bp.2 = length items;
  laid_edges : out_edges nid (b_graph bp.1) ≡ₚ imap (item_edge nid) items;
  laid_nodes : ∀ pos it n, items !! pos = Some it → item_node file nid scope pos it = Some n →
    get_node (b_graph bp.1) (item_target nid pos it) = Some n;
  laid_built : built (b_graph bp.1);
  laid_play : in_graph nid bp.1 = true;
  laid_roles : role_nodes (b_graph bp.1) = role_nodes (b_graph b0);
  laid_safe : roles_safe (below nid) (b_graph bp.1);
}.

(** One more child: it is built with writes in [W] only, which spares the others. *)
Lemma laid_place W file nid scope b0 items bp b' it :
  laid file nid scope b0 items bp →
  bsteps W not_role bp.1 b' → (∀ k, W k → below nid k) → ¬ W nid →
  (∀ pos it' n, items !! pos = Some it' → item_node file nid scope pos it' = Some n → ¬ W (item_target nid pos it')) →
  in_graph (item_target nid bp.2 it) b' = true →
  (∀ n, item_node file nid scope bp.2 it = Some n → get_node (b_graph b') (item_target nid bp.2 it) = Some n) →
  laid file nid scope b0 (items ++ [it])%list (place nid (item_target nid bp.2 it) (item_type it) (b', bp.2)).
Proof.
  intros [Hpos He Hn Hb Hp Hr Hs] HS HW Hnid Hold Hin Hnew.
  assert (Hb' : built (b_graph b')) by by eapply bsteps_built.
  assert (Hp' : in_graph nid b' = true) by by eapply bsteps_vertices.
  assert (HS' : bsteps (below nid) not_role bp.1 b') by (eapply bsteps_mono; [exact HW|done|exact HS]).
  destruct (bsteps_roles _ _ _ HS' Hs) as [Hr' Hs'].
  destruct (bsteps_keeps _ _ _ _ nid HS Hnid) as [He' _].
  assert (HSe : bsteps (below nid) not_role b' (put_edge nid (item_target nid bp.2 it)
    (edge (item_type it) (Z.of_nat bp.2)) b')) by (apply put_edge_steps; auto with pydb).
  destruct (bsteps_roles _ _ _ HSe Hs') as [Hre Hse].
  unfold place. cbn [fst snd]. split; cbn [fst snd].
  - rewrite length_app. simpl. lia.
  - simpl. rewrite out_edges_add_edge, decide_True by done. rewrite He', He, imap_app. simpl.
    rewrite Nat.add_0_r. unfold item_edge at 3. rewrite Hpos. by rewrite (comm app).
  - intros pos it' n. rewrite get_node_put_edge by done. intros [Hl|[Hge Hl]]%lookup_app_Some Hit.
    + destruct (bsteps_keeps _ _ _ _ (item_target nid pos it') HS) as [_ Hk]; [by eapply Hold|].
      rewrite Hk; [by apply Hn|]. apply in_graph_iff. eapply nx_payload_mem. by apply Hn.
    + destruct (pos - length items) as [|d] eqn:Ed; [|by destruct d]. simpl in Hl. injection Hl as <-.
      assert (pos = bp.2) as -> by lia. by apply Hnew.
  - by eapply bsteps_built.
  - by eapply bsteps_vertices.
  - congruence.
  - done.
Qed.

Lemma laid_vars file nid scope b0 vfs items bp :
  laid file nid scope b0 items bp →
  laid file nid scope b0 (items ++ vars_items file vfs)%list (foldl (add_vars_file nid file scope) bp vfs).
Proof.
  revert items bp. induction vfs as [|vf vfs IH]; intros items bp Hl; simpl; [by rewrite app_nil_r|].
  rewrite cons_middle, (assoc app). apply IH. unfold add_vars_file.
  destruct (ensure_vars_file_steps (λ _, False) (normpath (path_join (dirname file) vf)) scope [] bp.1) as [S1 V1].
  apply (laid_place (λ _, False) file nid scope b0 items bp _ (ItVars (normpath (path_join (dirname file) vf))));
    [done|exact S1|by intros k []|by intros []|by intros ????? []|exact V1|done].
Qed.

Lemma earlier_spared file nid scope items pos it n p :
  p = length items → items !! pos = Some it → item_node file nid scope pos it = Some n →
  ¬ below (index_path nid "tasks" p) (item_target nid pos it).
Proof.
  intros -> Hl. destruct it; simpl; try done; intros _ Hb.
  - apply index_path_inj in Hb. apply lookup_lt_Some in Hl. lia.
  - by apply tasks_not_handlers in Hb.
Qed.

Lemma laid_tasks fuel file nid scope b0 refs items bp bp' :
  laid file nid scope b0 items bp → build_task_list objs fuel nid file scope refs bp = Some bp' →
  laid file nid scope b0 (items ++ task_items refs)%list bp'.
Proof.
  unfold build_task_list. generalize 0%nat as j. revert items bp.
  induction refs as [|r refs IH]; intros items bp j Hl; cbn [each].
  - intros [= <-]. by rewrite app_nil_r.
  - intros (bp1 & H1' & Hrest)%bind_Some. unfold task_items. csimpl.
    destruct (resolve_task objs r) as [t|] eqn:Et; simpl; [|injection H1' as <-; by eapply IH].
    apply bind_Some in H1' as (b1 & Hb1 & E). injection E as <-. rewrite cons_middle, (assoc app).
    eapply IH; [|exact Hrest]. destruct (build_task_steps _ _ _ _ _ _ _ _ (laid_built _ _ _ _ _ _ Hl) Hb1) as [S1 V1].
    pose proof (build_task_node _ _ _ _ _ _ _ (laid_built _ _ _ _ _ _ Hl) Hb1) as Hnode.
    apply (laid_place (below (index_path nid "tasks" bp.2)) file nid scope b0 items bp b1 (ItTask t));
      [done|exact S1| |apply index_path_not_below| |exact V1|].
    + intros k. apply below_trans, index_path_below.
    + intros pos it' n. apply earlier_spared. apply Hl.
    + intros n [= <-]. exact Hnode.
Qed.

Lemma resolve_role_same (b1 b2 : builder G) name :
  role_nodes (b_graph b1) = role_nodes (b_graph b2) → resolve_role_nid_by_name name b1 = resolve_role_nid_by_name name b2.
Proof. unfold role_nodes, resolve_role_nid_by_name. by intros ->. Qed.

Lemma laid_static_roles file nid scope b0 refs items bp :
  laid file nid scope b0 items bp →
  laid file nid scope b0 (items ++ role_items b0 refs)%list (foldl (add_static_role nid) bp refs).
Proof.
  revert items bp. induction refs as [|r refs IH]; intros items bp Hl; [by rewrite app_nil_r|].
  unfold role_items. cbn [foldl]. csimpl. destruct r as [rip|k]; [|by apply IH]. cbn [add_static_role].
  unfold resolve_role_nid. rewrite (resolve_role_same bp.1 b0) by apply Hl.
  destruct (resolve_role_nid_by_name (rip_name rip) b0) as [role|] eqn:Er; [|by apply IH].
  csimpl. rewrite cons_middle, (assoc app). apply IH.
  assert (Hin : in_graph role bp.1 = true).
  { eapply resolve_role_in_graph; [apply Hl|]. rewrite (resolve_role_same _ b0); [exact Er|apply Hl]. }
  replace bp with (bp.1, bp.2) at 2 by by destruct bp.
  apply (laid_place (λ _, False) file nid scope b0 items bp bp.1 (ItRole role));
    [done|apply rtc_refl|by intros k []|by intros []|by intros ????? []|done|done].
Qed.

Lemma laid_handlers file nid scope b0 refs i items bp bp' :
  laid file nid scope b0 items bp → (∀ pos k t, items !! pos = Some (ItHandler k t) → (k < i)%nat) →
  each (add_handler objs nid file scope) i refs bp = Some bp' →
  laid file nid scope b0 (items ++ handler_items i refs)%list bp'.
Proof.
  revert i items bp. induction refs as [|r refs IH]; intros i items bp Hl Hlt; cbn [each handler_items].
  - intros [= <-]. by rewrite app_nil_r.
  - intros (bp1 & H1' & Hrest)%bind_Some. unfold add_handler in H1'.
    destruct (resolve_task objs r) as [t|] eqn:Et.
    2: { injection H1' as <-. eapply IH; [done| |exact Hrest]. intros pos k t' Hk. apply Hlt in Hk. lia. }
    injection H1' as <-. rewrite cons_middle, (assoc app). eapply IH; [| |exact Hrest].
    2: { intros pos k t'. intros [Hk|[_ Hk]]%lookup_app_Some; [apply Hlt in Hk; lia|].
         apply list_lookup_singleton_Some in Hk as [_ [= -> ->]]. lia. }
    destruct (handler_node_spec t file (index_path nid "handlers" i) scope) as (Hp & HN & Hid).
    destruct (put_node_steps (λ k, k = index_path nid "handlers" i) not_role
      (handler_node t file (index_path nid "handlers" i) scope) bp.1) as [S1 V1]; [done..|by left|].
    rewrite Hid in V1.
    apply (laid_place (λ k, k = index_path nid "handlers" i) file nid scope b0 items bp _ (ItHandler i t));
      [done|exact S1| | | |exact V1|].
    + intros k ->. apply index_path_below.
    + intros E. apply (index_path_not_below nid "handlers" i). rewrite <- E. apply below_refl.
    + intros pos it' n Hl'. destruct it' as [|t'| |k t']; simpl; try done; intros _ E.
      * apply (tasks_not_handlers nid pos i). rewrite E. apply below_refl.
      * apply Hlt in Hl'. assert (k = i); [|lia]. apply (index_path_inj nid "handlers"). rewrite E. apply below_refl.
    + intros n [= <-]. simpl. rewrite get_node_add_node, Hid. by rewrite decide_True.
Qed.

Lemma laid_play_children fuel p file nid scope b0 bp bp' :
  laid file nid scope b0 [] bp → play_children objs fuel p nid file scope bp = Some bp' →
  laid file nid scope b0 (play_items p file b0) bp'.
Proof.
  intros Hl. unfold play_children, play_items. apply (laid_vars _ _ _ _ (pl_vars_files p)) in Hl. simpl in Hl.
  intros (bp2 & H2' & Hrest)%bind_Some. apply (laid_tasks _ _ _ _ _ _ _ _ _ Hl) in H2'.
  apply (laid_static_roles _ _ _ _ (pl_roles p)) in H2'.
  apply bind_Some in Hrest as (bp4 & H4' & Hrest). apply (laid_tasks _ _ _ _ _ _ _ _ _ H2') in H4'.
  apply bind_Some in Hrest as (bp5 & H5' & Hrest). apply (laid_tasks _ _ _ _ _ _ _ _ _ H4') in H5'.
  eapply laid_handlers in Hrest; [|exact H5'|].
  - by rewrite <- !(assoc app) in Hrest.
  - intros pos k t Hk. exfalso. apply list_elem_of_lookup_2 in Hk. unfold vars_items, task_items, role_items in Hk.
    rewrite !elem_of_app, !list_elem_of_fmap in Hk. naive_solver.
Qed.

(** Adding a node under a fresh id. *)
Lemma laid_start file nid scope b n :
  built (b_graph b) → (∀ k, k ∈ vertices (b_graph b) → ¬ below nid k) →
  node_id n = nid → pristine n → not_role n → laid file nid scope b [] (put_node n b, 0%nat).
Proof.
  intros Hb Hfresh Hid Hp HN.
  assert (Hnid : nid ∉ vertices (b_graph b)) by (intros Hin; by apply (Hfresh nid Hin), below_refl).
  assert (Hs : roles_safe (below nid) (b_graph b)).
  { intros k m Hk Hm. exfalso. apply (Hfresh k); [by apply nx_payload_mem in Hm|done]. }
  destruct (put_node_steps (below nid) not_role n b) as [S1 V1]; [done..|left; rewrite Hid; apply below_refl|].
  destruct (bsteps_roles _ _ _ S1 Hs) as [Hr Hs']. rewrite Hid in V1.
  split; [done| |by intros ???? |by eapply bsteps_built|done|done|done].
  apply Permutation_nil_r, elem_of_nil_inv. intros [[u v] e] [Hu Hin]%list_elem_of_filter. simpl in *.
  unfold add_node in Hin. simpl in Hin. rewrite nx_edges_add_node in Hin. apply nx_edges_mem in Hin as [Hin _].
  by subst u.
Qed.

(** C12: A play is laid out in the order Ansible runs it.  When nothing of the play is in
    the graph yet, the edges that leave the built play are exactly its vars files,
    [pre_tasks], roles, [tasks], [post_tasks] and handlers, numbered in this order, and
    under the path of each task and handler stands the node made of it. *)
Theorem play_layout_exact fuel p file i scope content b b' nid :
  built (b_graph b) → (∀ k, k ∈ vertices (b_graph b) → ¬ below nid k) →
  build_play objs fuel p file i scope content b = Some (b', nid) →
  out_edges nid (b_graph b') ≡ₚ imap (item_edge nid) (play_items p file b) ∧
  ∀ pos it n, play_items p file b !! pos = Some it → item_node file nid scope pos it = Some n →
    get_node (b_graph b') (item_target nid pos it) = Some n.
Proof.
  intros Hb Hfresh. unfold build_play. intros (bp & Hp & E)%bind_Some. injection E as <- <-.
  set (k := index_path file "plays" i) in *.
  eapply laid_play_children in Hp; [|by apply laid_start].
  destruct Hp as [_ He Hn _ _ _ _]. case_match; [|by split]. split.
  - unfold out_edges, upd. simpl. rewrite nx_edges_alter. exact He.
  - intros pos it n Hl Hit. simpl. rewrite get_node_upd_at, decide_False; [by rewrite (Hn _ _ _ Hl Hit)|].
    intros E. destruct it; try done; simpl in E; eapply index_path_not_below; rewrite E; apply below_refl.
Qed.
End Keyed.
End Layout.

Module LayoutDemo.
Definition demo_nid : string := "site.yml/plays[0]".

Definition demo_layout : option (builder SG * string) := build_play ∅ 3 demo_play "site.yml" 0 OWNED "" new_builder.

Lemma play_layout_exact_witness :
  ∃ b', demo_layout = Some (b', demo_nid) ∧
    out_edges demo_nid (b_graph b') ≡ₚ
      [(demo_nid, demo_nid +:+ "/tasks[0]", edge CONTAINS 0); (demo_nid, demo_nid +:+ "/tasks[1]", edge CONTAINS 1);
       (demo_nid, demo_nid +:+ "/handlers[0]", edge CONTAINS 2)] ∧
    get_node (b_graph b') (demo_nid +:+ "/tasks[1]") = Some (task_node block_task "site.yml" (demo_nid +:+ "/tasks[1]") OWNED).
Proof.
  assert (Hd : snd <$> demo_layout = Some demo_nid) by (vm_compute; reflexivity).
  apply fmap_Some in Hd as ([b' nid] & Hd & E). cbn [snd] in E. subst nid. exists b'. split; [exact Hd|].
  destruct (play_layout_exact ∅ 3 demo_play "site.yml" 0 OWNED "" new_builder b' demo_nid) as [He Hn].
  - apply new_builder_sound.
  - intros k Hk. unfold vertices in Hk. simpl in Hk. by apply elem_of_nil in Hk.
  - exact Hd.
  - split; [exact He|]. apply (Hn 1%nat (ItTask block_task)); reflexivity.
Defined.
End LayoutDemo.
