(* ===== verification/BuilderTotal.v ===== *)
(** * Termination of the graph builder

    The loader stores the tasks of a block as objects, never as keys ([keyless]).  On such
    definitions the recursion of [_build_task] follows the nesting of the blocks, so the
    build returns, and any fuel beyond the depth of the nesting gives the same result. *)

From stdpp Require Import base list gmap strings pretty.
From Stdlib Require Import Ascii String.
From S2P Require Import Prelude PyStr Yaml PyPath NxGraph ContentNode ContentGraph GraphQueries Sample Definitions GraphBuilder BuilderSample.

#[local] Open Scope string_scope.
#[local] Notation length := List.length.

(** ** Nesting *)

Fixpoint task_depth (t : Task) : nat :=
  let ref_depth r := match r with RObj c => task_depth c | RKey _ => 0%nat end in
  let section_depth o := match o with Some l => foldr (λ r n, Nat.max (ref_depth r) n) 0%nat l | None => 0%nat end in
  match t with
  | MkTask _ b r a => S (Nat.max (section_depth b) (Nat.max (section_depth r) (section_depth a)))
  end.

Fixpoint keyless (t : Task) : bool :=
  let ref_ok r := match r with RObj c => keyless c | RKey _ => false end in
  let section_ok o := match o with Some l => forallb ref_ok l | None => true end in
  match t with MkTask _ b r a => section_ok b && section_ok r && section_ok a end.

(** The tasks directly in the sections of a task. *)
Definition section_refs (t : Task) : list (ref Task) :=
  (default [] (tk_block t) ++ default [] (tk_rescue t) ++ default [] (tk_always t))%list.

Lemma foldr_max_elem {A} (f : A → nat) l x : x ∈ l → (f x ≤ foldr (λ r n, Nat.max (f r) n) 0%nat l)%nat.
Proof. induction 1; simpl; lia. Qed.

Lemma keyless_child t r :
  keyless t = true → r ∈ section_refs t → ∃ c, r = RObj c ∧ keyless c = true ∧ (task_depth c < task_depth t)%nat.
Proof.
  destruct t as [i b re a]. unfold section_refs. simpl. intros [[Hb Hr]%andb_prop Ha]%andb_prop Hin.
  assert (Hone : ∀ o, match o with Some l => forallb (λ r, match r with RObj c => keyless c | RKey _ => false end) l
                      | None => true end = true → r ∈ default [] o →
    ∃ c, r = RObj c ∧ keyless c = true ∧
      (task_depth c ≤ match o with Some l => foldr (λ r n, Nat.max (match r with RObj c => task_depth c | RKey _ => 0%nat end) n) 0%nat l | None => 0%nat end)%nat).
  { intros [l|] Hl Hx; [|by apply elem_of_nil in Hx]. simpl in Hx. rewrite forallb_forall in Hl.
    pose proof (Hl r ltac:(by apply list_elem_of_In)) as Hc. destruct r as [c|k]; [|done]. exists c. split_and!; [done..|].
    apply (foldr_max_elem (λ r, match r with RObj c => task_depth c | RKey _ => 0%nat end)) in Hx. exact Hx. }
  rewrite !elem_of_app in Hin. destruct Hin as [Hx|[Hx|Hx]].
  - destruct (Hone b Hb Hx) as (c & ? & ? & ?). exists c. split_and!; [done..|lia].
  - destruct (Hone re Hr Hx) as (c & ? & ? & ?). exists c. split_and!; [done..|lia].
  - destruct (Hone a Ha Hx) as (c & ? & ? & ?). exists c. split_and!; [done..|lia].
Qed.

(** ** Settled computations: defined, and equal for two amounts of fuel *)

Definition settled {A} (o o' : option A) : Prop := o = o' ∧ is_Some o.

Lemma settled_Some {A} (x : A) : settled (Some x) (Some x).
Proof. split; [done|by eexists]. Qed.

Lemma settled_bind {A B} (o o' : option A) (f f' : A → option B) :
  settled o o' → (∀ x, settled (f x) (f' x)) → settled (o ≫= f) (o' ≫= f').
Proof. intros [<- [x ->]] Hf. apply Hf. Qed.

Lemma settled_fmap {A B} (o o' : option A) (f : A → B) : settled o o' → settled (f <$> o) (f <$> o').
Proof. intros [<- [x ->]]. apply settled_Some. Qed.

Lemma each_settled {A St} (f f' : nat → A → St → option St) i l s :
  (∀ j x s, x ∈ l → settled (f j x s) (f' j x s)) → settled (each f i l s) (each f' i l s).
Proof.
  revert i s. induction l as [|x l IH]; intros i s Hf; [apply settled_Some|]. cbn [each].
  apply settled_bind; [apply Hf; by left|]. intros s'. apply IH. intros j y s'' Hy. apply Hf. by right.
Qed.

#[export] Hint Resolve settled_Some : pydb.

Section Total.
Context `{PySource} {G : Type} `{NxLaws ContentNode EdgeAttrs G}.
Implicit Types (b : builder G) (scope : NodeScope).

(** ** Tasks of definitions *)

Definition taskfile_tasks (tf : TaskFile) : list Task := objects (tf_tasks tf).
Definition play_tasks (p : Play) : list Task :=
  (objects (pl_pre_tasks p) ++ objects (pl_tasks p) ++ objects (pl_post_tasks p) ++ objects (pl_handlers p))%list.
Definition playbook_tasks (pb : Playbook) : list Task := objects (pb_plays pb) ≫= play_tasks.
Definition role_tasks (r : Role) : list Task :=
  ((objects (ro_taskfiles r) ≫= taskfile_tasks)
   ++ (ro_handlers r ≫= λ h, match h with HTaskFile tf => taskfile_tasks tf | HTask t => [t] | HKey _ => [] end))%list.

Definition def_tasks (d : definition) : list Task :=
  match d with
  | DRole r => role_tasks r
  | DTaskFile tf => taskfile_tasks tf
  | DPlaybook pb => playbook_tasks pb
  | DPlay p => play_tasks p
  | DTask t => [t]
  | _ => []
  end.

(** Every task object that occurs in the definitions. *)
Definition loaded_tasks (loaded : list (string * list definition)) : list Task :=
  DEFINITION_TYPES ≫= λ t, loaded_of loaded t ≫= def_tasks.

Section Fuel.
Context (objs : gmap string definition) (m n : nat).

Definition small (t : Task) : Prop := keyless t = true ∧ (task_depth t ≤ m)%nat ∧ (task_depth t ≤ n)%nat.

Hypothesis table_small : ∀ k d, objs !! k = Some d → Forall small (def_tasks d).

Lemma wire_section_settled (rec rec' : Task → string → builder G → option (builder G)) section extra refs nid b :
  (∀ r c p b, r ∈ default [] refs → resolve_task objs r = Some c → settled (rec c p b) (rec' c p b)) →
  settled (wire_section objs rec section extra refs nid b) (wire_section objs rec' section extra refs nid b).
Proof.
  intros Hrec. apply each_settled. intros j r s Hr. destruct (resolve_task objs r) as [c|] eqn:Ec; auto with pydb.
  apply settled_bind; [by eapply Hrec|]. auto with pydb.
Qed.

Lemma build_task_settled file scope t path b m' n' :
  keyless t = true → (task_depth t ≤ m')%nat → (task_depth t ≤ n')%nat →
  settled (build_task objs m' file scope t path b) (build_task objs n' file scope t path b).
Proof.
  revert n' t path b. induction m' as [|m' IH]; intros n' t path b Hk Hm Hn; [destruct t; simpl in Hm; lia|].
  destruct n' as [|n']; [destruct t; simpl in Hn; lia|]. cbn [build_task].
  apply settled_bind; [|auto with pydb]. destruct (is_block t); auto with pydb.
  assert (Hrec : ∀ r c p b, r ∈ section_refs t → resolve_task objs r = Some c →
    settled (build_task objs m' file scope c p b) (build_task objs n' file scope c p b)).
  { intros r c p b0 Hr Hc. destruct (keyless_child t r Hk Hr) as (c' & -> & Hk' & Hd). simpl in Hc. injection Hc as ->.
    apply IH; [done|lia..]. }
  unfold wire_block_children, section_refs in *. setoid_rewrite elem_of_app in Hrec. setoid_rewrite elem_of_app in Hrec.
  apply settled_bind; [apply wire_section_settled; eauto|]. intros b1.
  apply settled_bind; [apply wire_section_settled; eauto|]. intros b2. apply wire_section_settled. eauto.
Qed.

Lemma small_settled file scope t path b :
  small t → settled (build_task objs m file scope t path b) (build_task objs n file scope t path b).
Proof. intros (? & ? & ?). by apply build_task_settled. Qed.

(** What a reference resolves to occurs in its list or in the table. *)
Lemma resolve_task_small refs r t :
  Forall small (objects refs) → r ∈ refs → resolve_task objs r = Some t → small t.
Proof.
  intros Hs Hr. destruct r as [t'|k]; simpl.
  - intros [= ->]. rewrite Forall_forall in Hs. apply Hs. apply list_elem_of_omap. by exists (RObj t).
  - destruct (objs !! k) as [[]|] eqn:E; try done. intros [= ->]. apply table_small in E. by inversion E.
Qed.

Lemma build_taskfile_settled tf scope is_handler b :
  Forall small (taskfile_tasks tf) →
  settled (build_taskfile objs m tf scope is_handler b) (build_taskfile objs n tf scope is_handler b).
Proof.
  intros Hs. unfold build_taskfile. case_bool_decide; auto with pydb. apply settled_bind; [|auto with pydb].
  apply each_settled. intros j r s Hr. destruct (resolve_task objs r) as [t|] eqn:Et; auto with pydb.
  destruct is_handler; [apply settled_Some|]. apply settled_bind; [|auto with pydb].
  apply small_settled. by eapply resolve_task_small.
Qed.

Lemma build_task_list_settled nid file scope refs bp :
  Forall small (objects refs) →
  settled (build_task_list objs m nid file scope refs bp) (build_task_list objs n nid file scope refs bp).
Proof.
  intros Hs. apply each_settled. intros j r s Hr. destruct (resolve_task objs r) as [t|] eqn:Et; auto with pydb.
  apply settled_bind; [|auto with pydb]. apply small_settled. by eapply resolve_task_small.
Qed.

Lemma build_play_settled p file i scope content b :
  Forall small (play_tasks p) →
  settled (build_play objs m p file i scope content b) (build_play objs n p file i scope content b).
Proof.
  unfold play_tasks. rewrite !Forall_app. intros (H1' & H2' & H3' & H4'). unfold build_play.
  apply settled_bind; [|auto with pydb]. unfold play_children.
  apply settled_bind; [by apply build_task_list_settled|]. intros bp1.
  apply settled_bind; [by apply build_task_list_settled|]. intros bp2.
  apply settled_bind; [by apply build_task_list_settled|]. intros bp3.
  apply each_settled. intros j r s _. unfold add_handler. case_match; apply settled_Some.
Qed.

Lemma objects_small {A} (f : A → list Task) (refs : list (ref A)) a :
  Forall small (objects refs ≫= f) → RObj a ∈ refs → Forall small (f a).
Proof.
  rewrite Forall_bind, Forall_forall. intros Hs Ha. apply Hs, list_elem_of_omap. by exists (RObj a).
Qed.

Lemma build_playbook_settled pb scope b :
  Forall small (playbook_tasks pb) → settled (build_playbook objs m pb scope b) (build_playbook objs n pb scope b).
Proof.
  intros Hs. unfold build_playbook. case_bool_decide; auto with pydb. apply settled_bind; [|auto with pydb].
  apply each_settled. intros j r s Hr. unfold add_play.
  destruct (resolve_play objs r) as [p|] eqn:Ep; auto with pydb.
  assert (Hp : Forall small (play_tasks p)).
  { destruct r as [p'|k]; simpl in Ep; [injection Ep as ->; by eapply objects_small|].
    destruct (objs !! k) as [[]|] eqn:E; try done. injection Ep as ->. by apply table_small in E. }
  destruct (if String.eqb (pl_import_playbook p) "" then _ else _) as [b1 imported].
  destruct (negb (String.eqb imported "")); auto with pydb.
  apply settled_bind; [by apply build_play_settled|auto with pydb].
Qed.

Lemma build_role_settled r scope b :
  Forall small (role_tasks r) → settled (build_role objs m r scope b) (build_role objs n r scope b).
Proof.
  unfold role_tasks. rewrite Forall_app. intros [Htf Hh]. unfold build_role. case_bool_decide; auto with pydb.
  assert (Hlink : ∀ tf is_handler (bp : play_state), Forall small (taskfile_tasks tf) →
    settled (bn ← build_taskfile objs m tf scope is_handler bp.1;
             Some (if String.eqb bn.2 "" then (bn.1, bp.2) else place (role_path r) bn.2 CONTAINS (bn.1, bp.2)))
            (bn ← build_taskfile objs n tf scope is_handler bp.1;
             Some (if String.eqb bn.2 "" then (bn.1, bp.2) else place (role_path r) bn.2 CONTAINS (bn.1, bp.2)))).
  { intros tf is_handler bp Hs. apply settled_bind; [by apply build_taskfile_settled|]. intros; apply settled_Some. }
  apply settled_bind; [|intros bp1; apply settled_bind; [|auto with pydb]].
  - apply each_settled. intros j tr s Hr. unfold add_role_taskfile.
    destruct (resolve_taskfile objs tr) as [tf|] eqn:Et; auto with pydb. apply Hlink.
    destruct tr as [tf'|k]; simpl in Et; [injection Et as ->; by eapply objects_small|].
    destruct (objs !! k) as [[]|] eqn:E; try done. injection Et as ->. by apply table_small in E.
  - apply each_settled. intros j h s Hin. unfold add_role_handler.
    destruct (resolve_handler objs h) as [[tf|t]|] eqn:Et; [|apply settled_Some..]. apply Hlink.
    destruct h as [tf'|t|k]; simpl in Et; try done.
    + injection Et as ->. rewrite Forall_bind, Forall_forall in Hh. by apply (Hh _ Hin).
    + destruct (objs !! k) as [[]|] eqn:E; try done. injection Et as ->. by apply table_small in E.
Qed.

Lemma build_from_loaded_settled scan_root loaded scope b :
  Forall small (loaded_tasks loaded) →
  settled (build_from_loaded objs m scan_root loaded scope b) (build_from_loaded objs n scan_root loaded scope b).
Proof.
  intros Hs. apply each_settled. intros j d s Hd.
  assert (Hdt : Forall small (def_tasks d)).
  { unfold loaded_tasks in Hs. rewrite Forall_bind, Forall_forall in Hs. unfold to_build in Hd.
    rewrite !elem_of_app, !list_elem_of_filter in Hd.
    assert (∃ ty, ty ∈ DEFINITION_TYPES ∧ d ∈ loaded_of loaded ty) as (ty & Hty & Hin).
    { destruct Hd as [[_ ?]|[[_ ?]|[[_ ?]|[_ ?]]]]; eexists; (split; [|done]); set_solver. }
    specialize (Hs ty Hty). simpl in Hs. rewrite Forall_bind, Forall_forall in Hs. by apply Hs. }
  destruct d; simpl; auto with pydb; apply settled_fmap.
  - by apply build_role_settled.
  - by apply build_taskfile_settled.
  - by apply build_playbook_settled.
Qed.
End Fuel.

(** ** The whole build *)

Lemma elem_of_loaded_tasks loaded ty d t :
  ty ∈ DEFINITION_TYPES → d ∈ loaded_of loaded ty → t ∈ def_tasks d → t ∈ loaded_tasks loaded.
Proof. intros Hty Hd Ht. apply list_elem_of_bind. exists ty. split; [|done]. apply list_elem_of_bind. by exists d. Qed.

(** A task of a registered definition occurs in the definitions. *)
Lemma object_table_tasks root ext k d t :
  object_table root ext !! k = Some d → t ∈ def_tasks d → t ∈ loaded_tasks root ∨ t ∈ loaded_tasks ext.
Proof.
  assert (Hreg : ∀ ds (m : gmap string definition), register_defs ds m !! k = Some d → d ∈ ds ∨ m !! k = Some d).
  { intros ds. induction ds as [|x ds IH]; intros m Hk; [by right|]. simpl in Hk.
    apply IH in Hk as [?|Hk]; [left; by right|]. unfold register_def in Hk. case_match; [by right|].
    destruct (decide (k = def_key x)) as [->|Hne].
    - rewrite lookup_insert_eq in Hk. injection Hk as ->. left. by left.
    - rewrite lookup_insert_ne in Hk by done. by right. }
  intros [Hd|Hd]%Hreg Ht; [|by rewrite lookup_empty in Hd].
  apply elem_of_app in Hd as [Hd|Hd].
  - apply list_elem_of_bind in Hd as (ty & [Hd|Hd]%elem_of_app & Hty); [left|right]; by eapply elem_of_loaded_tasks.
  - left. apply list_elem_of_bind in Hd as (x & Hd & Hx). apply (elem_of_loaded_tasks _ "roles" x); [set_solver|done|].
    destruct x; simpl in Hd |- *; try by apply elem_of_nil in Hd.
    apply list_elem_of_bind in Hd as (h & Hd & Hh). unfold role_tasks. apply elem_of_app. right.
    apply list_elem_of_bind. exists h. split; [|done]. destruct h as [tf|t'|k']; simpl in Hd; try by apply elem_of_nil in Hd.
    case_match; [by apply elem_of_nil in Hd|]. apply elem_of_cons in Hd as [->|Hd]; [done|].
    apply list_elem_of_fmap in Hd as (t' & -> & Ht'). simpl in Ht. apply list_elem_of_singleton in Ht as ->. done.
Qed.

Definition max_depth (ts : list Task) : nat := foldr (λ t n, Nat.max (task_depth t) n) 0%nat ts.

(** C13: The build terminates.  When the sections of all blocks hold their tasks as objects,
    as the loader leaves them, the build returns a graph, and the same one for every fuel
    from the depth of the deepest nesting on. *)
Theorem build_terminates `{TopoSort G} scan_root root_defs ext_defs :
  let tasks := (loaded_tasks (load_all_definitions root_defs) ++ loaded_tasks (load_all_definitions ext_defs))%list in
  Forall (λ t, keyless t = true) tasks →
  ∃ b : builder G, ∀ fuel, (max_depth tasks ≤ fuel)%nat → build fuel scan_root root_defs ext_defs = Some b.
Proof.
  intros tasks Hk. set (m := max_depth tasks).
  assert (Hsettled : ∀ fuel, (m ≤ fuel)%nat →
    settled (build m scan_root root_defs ext_defs : option (builder G)) (build fuel scan_root root_defs ext_defs)).
  { intros fuel Hf. rewrite Forall_forall in Hk.
    assert (Hsmall : ∀ t, t ∈ tasks → small m fuel t).
    { intros t Ht. pose proof (foldr_max_elem task_depth tasks t Ht) as Hd. unfold m, max_depth.
      split_and!; [by apply Hk|done|]. unfold m, max_depth in Hf. lia. }
    unfold build.
    assert (Htable : ∀ k d, object_table (load_all_definitions root_defs) (load_all_definitions ext_defs) !! k = Some d →
      Forall (small m fuel) (def_tasks d)).
    { intros k d Hd. apply Forall_forall. intros t Ht. apply Hsmall, elem_of_app. by eapply object_table_tasks. }
    apply settled_bind; [|intros b1; apply settled_bind; [|auto with pydb]];
      apply build_from_loaded_settled; try done; apply Forall_forall; intros t Ht; apply Hsmall, elem_of_app; auto. }
  destruct (Hsettled m ltac:(done)) as [_ [b Hb]]. exists b. intros fuel Hf.
  destruct (Hsettled fuel Hf) as [<- _]. done.
Qed.
End Total.

Module TotalDemo.
Lemma build_terminates_witness : ∃ b, built_project 2 demo_project = Some b ∧ built_project 9 demo_project = Some b.
Proof.
  destruct (build_terminates (G := SG) "" demo_project []) as [b Hb].
  - repeat constructor.
  - exists b. split; apply Hb; apply Nat.leb_le; vm_compute; reflexivity.
Defined.
End TotalDemo.
