(* ===== verification/Provenance.v ===== *)
(** * Variable provenance

    [src/apme_engine/graph/variable_provenance.py]: where the variables in scope of a
    task come from.  [resolve_variables] keeps the winning definition of each name,
    [resolve_all_definitions] every definition, [variables_defined_on_all_paths] the
    names no include path lacks, [resolve_property_origins] the scope that sets an
    inherited property.  A dict is the association list of its items in insertion
    order, a set a [gset].

    The resolver keeps two caches ([_execution_successors] and
    [_runtime_sources_cache]) of values computed from the graph alone; a model that
    does not change the graph needs neither.  [scope_node == node] compares nodes of
    one graph, whose identities are their keys, and is the equality of node ids. *)

From stdpp Require Import base list gmap strings relations.
From Stdlib Require Import Ascii String.
From S2P Require Import Prelude PyStr Yaml Violation NxGraph ContentNode ContentGraph GraphQueries MemoPaths ExecutionOrder.

#[local] Open Scope string_scope.
#[local] Notation length := List.length.

Inductive ProvenanceSource :=
| LOCAL | BLOCK_VARS | ROLE_DEFAULT | ROLE_VAR | PLAY_VARS | PLAYBOOK_VARS | RUNTIME
| INVENTORY_FILE | VARS_FILE_VARS | EXTERNAL.

#[export] Instance provenance_source_eq_dec : EqDecision ProvenanceSource.
Proof. solve_decision. Defined.

Record VariableProvenance := MkProvenance {
  vp_name : string;
  vp_value : yval;
  vp_source : ProvenanceSource;
  vp_node : string;
  vp_file : string;
  vp_line : Z;
}.

Record PropertyOrigin := MkOrigin {
  po_name : string;
  po_value : yval;
  po_node : string;
  po_file : string;
  po_line : Z;
}.

(** [_PROVENANCE_BY_NODE_TYPE.get(t, EXTERNAL)] *)
Definition provenance_by_node_type (t : NodeType) : ProvenanceSource :=
  match t with
  | TASK | HANDLER | TASKFILE => LOCAL
  | BLOCK => BLOCK_VARS
  | PLAY => PLAY_VARS
  | PLAYBOOK => PLAYBOOK_VARS
  | ROLE => ROLE_VAR
  | VARS_FILE => VARS_FILE_VARS
  | _ => EXTERNAL
  end.

(** The record a definition on node [n] produces. *)
Definition provenance (n : ContentNode) (src : ProvenanceSource) (name : string) (value : yval)
    : VariableProvenance :=
  MkProvenance name value src (node_id n) (m_file_path (nd_meta n)) (m_line_start (nd_meta n)).

Definition bindings : Type := list (string * VariableProvenance).
Definition all_bindings : Type := list (string * list VariableProvenance).

(** The modules that include or import tasks or roles. *)
Definition include_modules : list string :=
  ["include_role"; "include_tasks"; "import_role"; "import_tasks"].

(** [_is_include_task] *)
Definition is_include_task (n : option ContentNode) : bool :=
  match n with
  | Some n => bool_decide (after_last "." (f_module (nd_fields n)) ∈ include_modules)
  | None => false
  end.

(** *** Dict updates *)

(** [result[name] = ...] *)
Definition override (n : ContentNode) (src : ProvenanceSource) (r : bindings) (item : string * yval)
    : bindings :=
  dset item.1 (provenance n src item.1 item.2) r.

(** [if name not in result: result[name] = ...] *)
Definition keep_first (n : ContentNode) (src : ProvenanceSource) (r : bindings) (item : string * yval)
    : bindings :=
  match dget item.1 r with
  | Some _ => r
  | None => override n src r item
  end.

(** [result.setdefault(name, []).append(...)] *)
Definition append_definition (n : ContentNode) (src : ProvenanceSource) (r : all_bindings)
    (item : string * yval) : all_bindings :=
  dset item.1 (default [] (dget item.1 r) ++ [provenance n src item.1 item.2])%list r.

(** [result.setdefault(name, []).insert(0, ...)] *)
Definition prepend_definition (n : ContentNode) (src : ProvenanceSource) (r : all_bindings)
    (item : string * yval) : all_bindings :=
  dset item.1 (provenance n src item.1 item.2 :: default [] (dget item.1 r)) r.

(** The names a looped task binds: the loop variable, then the index variable. *)
Definition loop_names (n : ContentNode) : list string :=
  match f_loop (nd_fields n) with
  | YNull => []
  | _ =>
    let loop_ctrl := default [] (f_loop_control (nd_fields n)) in
    (match default (YStr "item") (dget "loop_var" loop_ctrl) with YStr s => [s] | _ => [] end)
    ++ (match dget "index_var" loop_ctrl with Some (YStr s) => [s] | _ => [] end)
  end%list.

(** [_collect_loop_vars] and [_collect_loop_vars_all] *)
Definition collect_loop_vars (n : ContentNode) (r : bindings) : bindings :=
  foldl (λ r name, override n LOCAL r (name, YNull)) r (loop_names n).
Definition collect_loop_vars_all (n : ContentNode) (r : all_bindings) : all_bindings :=
  foldl (λ r name, prepend_definition n LOCAL r (name, YNull)) r (loop_names n).

(** What a producer task binds: its [register], then its [set_facts]. *)
Definition runtime_items (n : ContentNode) : list (string * yval) :=
  (match f_register (nd_fields n) with
   | Some r => if bool_decide (r = "") then [] else [(r, YNull)]
   | None => []
   end ++ f_set_facts (nd_fields n))%list.

(** What [_nearest_include_boundaries] has found for a vertex, and its cache. *)
Notation boundary_cache := (gmap string (gset string * bool)).
Notation boundary_result := (gset string * bool * boundary_cache)%type.

Section Resolver.
Context `{YamlLib} {G : Type} `{NxLaws ContentNode EdgeAttrs G}.
Implicit Types (g : ContentGraph G) (n : ContentNode) (scope : gset string).

(** ** The positional graph *)

(** The parents over one type of edge. *)
Definition edge_parents g (k : string) (t : EdgeType) : list string := (edges_to g k (Some t)).*1.

(** [_positional_parent_ids] *)
Definition positional_parent_ids g (k : string) scope : list string :=
  let parents := filter (λ p, p ∈ scope)
    (edge_parents g k CONTAINS ++ edge_parents g k INCLUDE ++ edge_parents g k IMPORT)%list in
  let role_parents :=
    if bool_decide (node_type <$> get_node g k = Some ROLE) then
      filter (λ p, p ∈ scope ∧
          (node_type <$> get_node g p = Some PLAY ∨ node_type <$> get_node g p = Some ROLE))
        (edge_parents g k DEPENDENCY)
    else [] in
  sorted_set (parents ++ role_parents)%list.

(** [_positional_ancestor_ids] *)
Definition resolver_ancestor_ids g (k : string) scope : gset string :=
  default ∅ (walk_push (λ x, positional_parent_ids g x scope) (S (length (vertices g))) [k] ∅).

(** [_positional_descendant_ids] *)
Definition positional_descendant_ids g (root : string) scope : gset string :=
  default ∅ (walk_push (λ x, filter (λ c, c ∈ scope) (pos_children g x))
    (S (length (vertices g))) [root] {[root]}).

(** The include tasks of a set of vertices. *)
Definition include_boundaries g (ids : gset string) : gset string :=
  filter (λ k, is_include_task (get_node g k) = true) ids.

(** *** [_nearest_include_boundaries] *)

Section Nearest.
Context (parents : string → list string) (is_include : string → bool) (play : option string).

(** The loop over the parents; [walk] is the recursive call. *)
Fixpoint walk_parents (walk : boundary_cache → string → option boundary_result)
    (ps : list string) (acc : boundary_result) : option boundary_result :=
  match ps with
  | [] => Some acc
  | p :: ps' =>
    let '(boundaries, direct, cache) := acc in
    if is_include p then walk_parents walk ps' ({[p]} ∪ boundaries, direct, cache)
    else match walk cache p with
         | None => None
         | Some (b, d, cache') => walk_parents walk ps' (boundaries ∪ b, direct || d, cache')
         end
  end.

Fixpoint nearest_walk (fuel : nat) (in_progress : gset string) (cache : boundary_cache) (k : string)
    : option boundary_result :=
  match fuel with
  | O => None
  | S fuel' =>
    match cache !! k with
    | Some (b, d) => Some (b, d, cache)
    | None =>
      if decide (k ∈ in_progress) then Some (∅, false, cache)
      else if decide (Some k = play) then Some (∅, true, cache)
      else match parents k with
           | [] => Some (∅, bool_decide (play = None), cache)
           | ps =>
             match walk_parents (nearest_walk fuel' ({[k]} ∪ in_progress)) ps (∅, false, cache) with
             | None => None
             | Some (b, d, cache') => Some (b, d, <[k := (b, d)]> cache')
             end
           end
    end
  end.
End Nearest.

Definition nearest_include_boundaries g (k : string) (play_context_id : option string) scope
    : gset string * bool :=
  default (∅, false)
    (fst <$> nearest_walk (λ x, positional_parent_ids g x scope) (λ x, is_include_task (get_node g x))
               play_context_id (S (S (length (vertices g)))) ∅ ∅ k).

(** *** [_runtime_source_context_ids] *)

Definition lineage_state : Type := string * gset string.
Definition context_state : Type := list lineage_state * gset lineage_state * gset string.

(** One in-edge of the loop body. *)
Definition visit_parent g (play_context_id : option string) (play_scope : option (gset string))
    (lineage : gset string) (acc : list lineage_state * gset string) (e : string * EdgeAttrs)
    : list lineage_state * gset string :=
  let '(stack, context_ids) := acc in
  let '(parent_id, attrs) := e in
  if bool_decide (ea_type attrs ∈ [CONTAINS; INCLUDE; IMPORT]) && in_scope play_scope parent_id then
    if bool_decide (ea_type attrs ∈ [INCLUDE; IMPORT]) || is_include_task (get_node g parent_id) then
      (stack, {[parent_id]} ∪ lineage ∪ context_ids)
    else if decide (Some parent_id = play_context_id) then acc
    else ((parent_id, {[parent_id]} ∪ lineage) :: stack, context_ids)
  else acc.

Definition context_step g (play_context_id : option string) (play_scope : option (gset string))
    (s : context_state) : context_state + gset string :=
  let '(stack, seen, context_ids) := s in
  match stack with
  | [] => inr context_ids
  | st :: stack' =>
    if decide (st ∈ seen) then inl (stack', seen, context_ids)
    else
      let '(stack2, context2) :=
        foldl (visit_parent g play_context_id play_scope st.2) (stack', context_ids)
          (edges_to g st.1 None) in
      inl (stack2, {[st]} ∪ seen, context2)
  end.

(** The exponent of the bound on the number of iterations. *)
Definition context_fuel g : nat :=
  S (length (vertices g)) + S (sum_list ((λ k, length (edges_to g k None)) <$> vertices g)).

Definition runtime_source_context_ids g (source_id : string) (play_context_id : option string)
    (play_scope : option (gset string)) : gset string :=
  match iter2 (context_fuel g) (context_step g play_context_id play_scope)
          ([(source_id, {[source_id]})], ∅, ∅) with
  | inr ids => ids
  | inl _ => ∅
  end.

(** ** Runtime producers *)

(** [_runtime_source_ids_by_name] *)
Definition referenced_names g (k : string) : gset string :=
  ⋃ ((λ s, list_to_set (runtime_items s).*1) <$> omap (get_node g) (edge_parents g k DATA_FLOW)).

Definition candidate_sources g (k : string) (play_scope : option (gset string)) : gset string :=
  match play_scope with
  | None =>
    list_to_set (filter (λ s, is_Some (get_node g s)) (edge_parents g k DATA_FLOW))
  | Some scope =>
    filter (λ c, match get_node g c with
                 | None => false
                 | Some n =>
                   existsb (λ x, bool_decide (x ∈ referenced_names g k))
                     (option_list (f_register (nd_fields n)) ++ (f_set_facts (nd_fields n)).*1)
                 end = true)%list scope
  end.

Definition add_source (name source_id : string) (m : gmap string (gset string))
    : gmap string (gset string) :=
  <[name := {[source_id]} ∪ default ∅ (m !! name)]> m.

Definition runtime_source_ids_by_name g (k : string) (play_scope : option (gset string))
    : gmap string (gset string) :=
  set_fold (λ s m,
      match get_node g s with
      | None => m
      | Some n =>
        foldl (λ m name, add_source name s m) m
          (filter (λ x, x ∈ referenced_names g k) (runtime_items n).*1)
      end) ∅ (candidate_sources g k play_scope).

(** The producers of any name, as [_collect_runtime_vars] gathers them. *)
Definition runtime_source_ids g (k : string) (play_scope : option (gset string)) : gset string :=
  ⋃ ((map_to_list (runtime_source_ids_by_name g k play_scope)).*2).

(** The scope of one invocation of an include task. *)
Definition branch_scope g (boundary : string) scope : gset string :=
  positional_descendant_ids g boundary scope ∖ {[boundary]}.

(** [_runtime_source_applies_to_path] *)
Definition runtime_source_applies_to_path g (source_id k : string) (play_context_id : option string)
    (play_scope : option (gset string)) (positional_path : list string) : bool :=
  if negb (in_scope play_scope source_id) then false
  else if negb (bool_decide (head positional_path = Some k)) then false
  else
    let source_context := runtime_source_context_ids g source_id play_context_id play_scope in
    let path_boundaries :=
      filter (λ a, Some a ≠ play_context_id ∧ is_include_task (get_node g a) = true)
        (tail positional_path) in
    let target_id := default k (head path_boundaries) in
    if decide (source_context = ∅) then execution_reaches g source_id target_id play_scope
    else
      match filter (λ b, b ∈ include_boundaries g source_context) path_boundaries with
      | include_boundary :: _ =>
        execution_reaches g source_id k
          (Some (branch_scope g include_boundary (default (list_to_set positional_path) play_scope)))
      | [] => execution_reaches g source_id target_id play_scope
      end.

(** [_runtime_source_applies_to_any_path] *)
Definition runtime_source_applies_to_any_path g (source_id k play_context_id : string)
    (play_scope : gset string) : bool :=
  if negb (bool_decide (source_id ∈ play_scope)) then false
  else
    let source_context := runtime_source_context_ids g source_id (Some play_context_id) (Some play_scope) in
    let source_boundaries := include_boundaries g source_context in
    let consumer_boundaries := include_boundaries g (resolver_ancestor_ids g k play_scope) in
    if existsb (λ b, execution_reaches g source_id k (Some (branch_scope g b play_scope)))
         (elements (source_boundaries ∩ consumer_boundaries)) then true
    else
      let '(target_boundaries, has_direct_path) :=
        nearest_include_boundaries g k (Some play_context_id) play_scope in
      if has_direct_path && execution_reaches g source_id k (Some play_scope) then true
      else existsb (λ b, execution_reaches g source_id b (Some play_scope)) (elements target_boundaries).

(** [_positional_path_from_scope]; the loop visits a vertex at most once. *)
Fixpoint path_from_scope g (fuel : nat) (play_context_id : option string) scope (seen : gset string)
    (current : string) : list string :=
  if decide (Some current = play_context_id) then []
  else match positional_parent_ids g current scope with
       | [] => []
       | p :: _ =>
         if decide (p ∈ seen) then []
         else match fuel with
              | O => []
              | S fuel' => p :: path_from_scope g fuel' play_context_id scope ({[p]} ∪ seen) p
              end
       end.

Definition positional_path_from_scope g (k : string) (play_context_id : option string) scope
    : list string :=
  k :: path_from_scope g (S (length (vertices g))) play_context_id scope {[k]} k.

Definition applicable_sources (applies : string → bool) (ids : gset string) : gset string :=
  filter (λ s, applies s = true) ids.

(** The nodes of the ordered producers. *)
Definition ordered_producers g (applies : string → bool) (k : string) (play_scope : option (gset string))
    : list ContentNode :=
  omap (get_node g)
    (order_runtime_sources g (applicable_sources applies (runtime_source_ids g k play_scope)) play_scope).

(** The test of the two collectors when no include path is selected. *)
Definition applies_in_play g (k : string) (play_context_id : option string)
    (play_scope : option (gset string)) (source_id : string) : bool :=
  match play_context_id, play_scope with
  | Some play, Some scope => runtime_source_applies_to_any_path g source_id k play scope
  | _, _ => true
  end.

Definition applies_on_path g (k : string) (play_context_id : option string)
    (play_scope positional_scope : option (gset string)) (positional_path : option (list string))
    : string → bool :=
  match positional_scope with
  | Some scope =>
    let selected_path := default (positional_path_from_scope g k play_context_id scope) positional_path in
    λ s, runtime_source_applies_to_path g s k play_context_id play_scope selected_path
  | None => applies_in_play g k play_context_id play_scope
  end.

(** [_collect_runtime_vars] *)
Definition collect_runtime_vars g (k : string) (play_scope : option (gset string))
    (play_context_id : option string) (positional_scope : option (gset string))
    (positional_path : option (list string)) (r : bindings) : bindings :=
  foldl (λ r n, foldl (override n RUNTIME) r (runtime_items n)) r
    (ordered_producers g
       (applies_on_path g k play_context_id play_scope positional_scope positional_path) k play_scope).

(** [_collect_runtime_vars_all] *)
Definition collect_runtime_vars_all g (k : string) (play_context_id : option string)
    (play_scope : option (gset string)) (r : all_bindings) : all_bindings :=
  foldl (λ r n, foldl (append_definition n RUNTIME) r (runtime_items n)) r
    (ordered_producers g (applies_in_play g k play_context_id play_scope) k play_scope).

(** ** The scope chain *)

(** Append the nodes whose id is not seen, [seen] growing. *)
Fixpoint append_unseen (seen : gset string) (ns : list ContentNode) : list ContentNode :=
  match ns with
  | [] => []
  | n :: ns' =>
    if decide (node_id n ∈ seen) then append_unseen seen ns'
    else n :: append_unseen ({[node_id n]} ∪ seen) ns'
  end.

(** [_build_scope_chain] *)
Definition build_scope_chain g (k : string) (play_context_id : option string)
    (play_scope positional_scope : option (gset string)) : list ContentNode :=
  let self := option_list (get_node g k) in
  match positional_scope, play_context_id with
  | None, None => self ++ ancestors g k
  | Some scope, None => self ++ play_scoped_positional_ancestors g k scope
  | _, Some play =>
    let scope := default (default (play_scoped_node_ids g play) play_scope) positional_scope in
    let chain := self ++ play_scoped_positional_ancestors g k scope in
    chain ++ append_unseen (list_to_set (node_id <$> chain)) (ancestors g play)
  end%list.

(** The vars files of a scope, in the order of their edges. *)
Definition vars_files g n : list ContentNode := omap (get_node g) (targets g (node_id n) VARS_INCLUDE).

(** [_collect_vars_file_vars] and [_collect_vars_file_all] *)
Definition collect_vars_file_vars g (r : bindings) n : bindings :=
  foldl (λ r vf, foldl (keep_first vf VARS_FILE_VARS) r (f_variables (nd_fields vf))) r (vars_files g n).
Definition collect_vars_file_all g (r : all_bindings) n : all_bindings :=
  foldl (λ r vf, foldl (append_definition vf VARS_FILE_VARS) r (f_variables (nd_fields vf))) r
    (vars_files g n).

(** ** Resolution *)

(** One scope of [resolve_variables]; [self] is the node the variables are resolved for. *)
Definition resolve_scope g (self : ContentNode) (r : bindings) n : bindings :=
  let source := provenance_by_node_type (node_type n) in
  let r' :=
    if bool_decide (node_type n = ROLE) then
      foldl (override n ROLE_VAR)
        (foldl (keep_first n ROLE_DEFAULT) r (m_default_variables (nd_meta n)))
        (m_role_variables (nd_meta n))
    else if bool_decide (node_id n = node_id self) then
      foldl (override n source) r (f_variables (nd_fields n))
    else foldl (keep_first n source) r (f_variables (nd_fields n)) in
  collect_vars_file_vars g r' n.

(** The play scope the runtime definitions are restricted to. *)
Definition runtime_scope g (play_context_id : option string) (play_scope : option (gset string))
    : option (gset string) :=
  match play_scope, play_context_id with
  | None, Some play => Some (play_scoped_node_ids g play)
  | _, _ => play_scope
  end.

Definition resolve_variables g (k : string) (play_context_id : option string)
    (play_scope positional_scope : option (gset string)) (positional_path : option (list string))
    : bindings :=
  match get_node g k with
  | None => []
  | Some self =>
    let chain := build_scope_chain g k play_context_id play_scope positional_scope in
    collect_loop_vars self
      (collect_runtime_vars g k (runtime_scope g play_context_id play_scope) play_context_id
         positional_scope positional_path
         (foldl (resolve_scope g self) [] chain))
  end.

Definition all_scope g (r : all_bindings) n : all_bindings :=
  let source := provenance_by_node_type (node_type n) in
  let r' :=
    if bool_decide (node_type n = ROLE) then
      foldl (append_definition n ROLE_VAR)
        (foldl (append_definition n ROLE_DEFAULT) r (m_default_variables (nd_meta n)))
        (m_role_variables (nd_meta n))
    else foldl (append_definition n source) r (f_variables (nd_fields n)) in
  collect_vars_file_all g r' n.

Definition resolve_all_definitions g (k : string) (play_context_id : option string)
    (play_scope : option (gset string)) : all_bindings :=
  match get_node g k with
  | None => []
  | Some self =>
    let chain := build_scope_chain g k play_context_id play_scope None in
    collect_loop_vars_all self
      (collect_runtime_vars_all g k play_context_id (runtime_scope g play_context_id play_scope)
         (foldl (all_scope g) [] chain))
  end.

(** ** [variables_defined_on_all_paths] *)

(** [variable_name in (loop_var, index_var)] *)
Definition loop_defines n (name : string) : bool :=
  match f_loop (nd_fields n) with
  | YNull => false
  | _ =>
    let loop_control := default [] (f_loop_control (nd_fields n)) in
    match default (YStr "item") (dget "loop_var" loop_control) with
    | YStr s => bool_decide (s = name)
    | _ => false
    end
    || match dget "index_var" loop_control with
       | Some (YStr s) => bool_decide (s = name)
       | _ => false
       end
  end.

Definition defines_at g (k name : string) (include_runtime : bool) : bool :=
  match get_node g k with
  | None => false
  | Some n =>
    bool_decide (name ∈ (f_variables (nd_fields n)).*1)
    || (bool_decide (node_type n = ROLE)
        && (bool_decide (name ∈ (m_default_variables (nd_meta n)).*1)
            || bool_decide (name ∈ (m_role_variables (nd_meta n)).*1)))
    || existsb (λ vf, bool_decide (name ∈ (f_variables (nd_fields vf)).*1)) 
         (omap (get_node g) (targets g k VARS_INCLUDE))
    || (include_runtime && loop_defines n name)
  end.

(** The boundaries below which a runtime producer of the name has run, and whether it
    runs before the task on a path without includes. *)
Definition source_coverage g (k play_context_id : string) scope (source_id : string)
    : gset string * bool :=
  let source_context := runtime_source_context_ids g source_id (Some play_context_id) (Some scope) in
  let source_boundaries := include_boundaries g source_context in
  let consumer_include_boundaries := include_boundaries g (resolver_ancestor_ids g k scope) in
  let '(nearest_boundaries, has_direct_path) :=
    nearest_include_boundaries g k (Some play_context_id) scope in
  let reaches_within (ids : gset string) : gset string :=
    filter (λ b, execution_reaches g source_id k (Some (branch_scope g b scope)) = true) ids in
  let covered_boundary (b : string) : gset string :=
    let target_boundaries := include_boundaries g (resolver_ancestor_ids g b scope) in
    let shared_target_boundaries := source_boundaries ∩ target_boundaries in
    if decide (shared_target_boundaries = ∅) then
      if execution_reaches g source_id b (Some scope) then {[b]} else ∅
    else reaches_within shared_target_boundaries in
  (reaches_within (source_boundaries ∩ consumer_include_boundaries)
     ∪ ⋃ (covered_boundary <$> elements nearest_boundaries),
   has_direct_path && execution_reaches g source_id k (Some scope)).

Definition runtime_coverage g (k play_context_id : string) scope (name : string) : gset string * bool :=
  foldr (λ s acc, let c := source_coverage g k play_context_id scope s in (c.1 ∪ acc.1, c.2 || acc.2))
    (∅, false)
    (elements (default ∅ (runtime_source_ids_by_name g k (Some scope) !! name))).

(** A state of [defined_on_all_paths]: a vertex and whether an include was crossed. *)
Definition path_state : Type := string * bool.

(** What [defined_on_all_paths] decides on the spot. *)
Definition path_local g (k play_context_id name : string) (coverage : gset string) (direct_runtime : bool)
    (s : path_state) : option bool :=
  let '(current_id, saw) := s in
  if defines_at g current_id name (bool_decide (current_id = k)) then Some true
  else if decide (current_id ∈ coverage) then Some true
  else
    let saw_include := saw || is_include_task (get_node g current_id) in
    if decide (current_id = play_context_id) then
      Some ((direct_runtime && negb saw_include)
            || existsb (λ a, defines_at g (node_id a) name false) (ancestors g play_context_id))
    else None.

Definition path_parents g scope (s : path_state) : list path_state :=
  let '(current_id, saw) := s in
  (λ p, (p, saw || is_include_task (get_node g current_id))) <$> positional_parent_ids g current_id scope.

(** The states a walk from [k] can meet. *)
Definition path_states g (k : string) : list path_state :=
  list_prod (k :: vertices g) [true; false].

Definition defined_on_all_paths g (k play_context_id : string) scope (name : string) : bool :=
  let '(coverage, direct_runtime) := runtime_coverage g k play_context_id scope name in
  default false (fst <$> run_quantified (path_local g k play_context_id name coverage direct_runtime)
                           (path_parents g scope) (path_states g k) true [(k, false)]).

Definition variables_defined_on_all_paths g (k play_context_id : string)
    (play_scope : option (gset string)) : gset string :=
  let scope := default (play_scoped_node_ids g play_context_id) play_scope in
  let candidates : gset string :=
    list_to_set (resolve_variables g k (Some play_context_id) (Some scope) None None).*1 in
  filter (λ name, defined_on_all_paths g k play_context_id scope name = true) candidates.

(** ** [resolve_property_origins] *)

(** The inherited properties. *)
Definition inherited_properties : list string :=
  ["become"; "environment"; "no_log"; "ignore_errors"; "tags"].

(** [getattr(scope_node, prop_name, None)]; [None] is Python's [None]. *)
Definition property_value n (prop : string) : option yval :=
  let f := nd_fields n in
  if bool_decide (prop = "become") then YDict <$> f_become f
  else if bool_decide (prop = "environment") then YDict <$> f_environment f
  else if bool_decide (prop = "no_log") then YBool <$> f_no_log f
  else if bool_decide (prop = "ignore_errors") then YBool <$> f_ignore_errors f
  else if bool_decide (prop = "tags") then Some (YList (YStr <$> f_tags f))
  else None.

Fixpoint first_origin (prop : string) (chain : list ContentNode) : option PropertyOrigin :=
  match chain with
  | [] => None
  | n :: chain' =>
    match property_value n prop with
    | Some v => Some (MkOrigin prop v (node_id n) (m_file_path (nd_meta n)) (m_line_start (nd_meta n)))
    | None => first_origin prop chain'
    end
  end.

Definition resolve_property_origins g (k : string) (play_context_id : option string)
    (play_scope : option (gset string)) : list (string * PropertyOrigin) :=
  match get_node g k with
  | None => []
  | Some _ =>
    let chain := build_scope_chain g k play_context_id play_scope None in
    omap (λ p, pair p <$> first_origin p chain) inherited_properties
  end.
End Resolver.
