(* ===== verification/ProvenanceProps.v ===== *)
(** * Traversals of variable provenance

    Exactness of the traversals of [Provenance]: positional parents, ancestors and
    descendants, nearest include boundaries, and the contexts of producers. *)

From stdpp Require Import base list gmap strings relations.
From Stdlib Require Import Ascii String.
From S2P Require Import Prelude PyStr Yaml Violation NxGraph ContentNode ContentGraph GraphLaws Sample GraphQueries MemoPaths ExecutionOrder Provenance.

#[local] Open Scope string_scope.
#[local] Notation length := List.length.

(** ** Nearest include boundaries *)

Section NearestExact.
Context (parents : string → list string) (is_include : string → bool) (play : option string).
Context (U : list string) (HU : ∀ x y, y ∈ parents x → y ∈ U).
Implicit Types (k p x : string) (P : gset string) (cache : boundary_cache).

(** The walk goes from a vertex other than the play to its parents that are not
    include tasks. *)
Definition climbs k p : Prop := Some k ≠ play ∧ p ∈ parents k ∧ is_include p = false.

(** The include parents a vertex contributes, and whether it ends a path without one. *)
Definition includes_above k p : Prop := Some k ≠ play ∧ p ∈ parents k ∧ is_include p = true.
Definition ends_direct k : Prop := Some k = play ∨ (parents k = [] ∧ play = None).

(** Where the walk stops without caching. *)
Definition terminal k : Prop := Some k = play ∨ parents k = [].

Definition sound_answer k (b : gset string) (d : bool) : Prop :=
  (∀ x, x ∈ b → ∃ v, rtc climbs k v ∧ includes_above v x) ∧
  (d = true → ∃ v, rtc climbs k v ∧ ends_direct v).

Definition cache_sound cache : Prop := ∀ k b d, cache !! k = Some (b, d) → sound_answer k b d.

(** What is settled about [p] once the answer [d] includes its contribution. *)
Definition settled P cache (d : bool) p : Prop :=
  is_Some (cache !! p) ∨ p ∈ P ∨ (terminal p ∧ (ends_direct p → d = true)).

(** Every vertex cached since [cache] has contributed to the answer [(b, d)]. *)
Definition contributed P cache (b : gset string) (d : bool) cache' : Prop :=
  ∀ v, is_Some (cache' !! v) → cache !! v = None →
    ¬ terminal v ∧ (∀ x, includes_above v x → x ∈ b) ∧ (∀ p, climbs v p → settled P cache' d p).

Definition walk_ok P cache k (r : option boundary_result) : Prop :=
  ∃ b d cache', r = Some (b, d, cache') ∧ cache ⊆ cache' ∧ cache_sound cache' ∧
    sound_answer k b d ∧ contributed P cache b d cache' ∧ settled P cache' d k.

Lemma settled_mono P cache cache' d d' p :
  cache ⊆ cache' → (d = true → d' = true) → settled P cache d p → settled P cache' d' p.
Proof.
  intros Hsub Hd [[y Hy]|[?|[? He]]]; [|right; by left|right; right; auto].
  left. exists y. by eapply lookup_weaken.
Qed.

Lemma contributed_trans P c0 c1 c2 b0 d0 b1 d1 :
  c1 ⊆ c2 → contributed P c0 b0 d0 c1 → contributed P c1 b1 d1 c2 →
  contributed P c0 (b0 ∪ b1) (d0 || d1) c2.
Proof.
  intros Hsub H01 H12 v Hv Hn. destruct (c1 !! v) as [y|] eqn:E.
  - destruct (H01 v) as (Hp & Hi & Hs); [by eexists|done|]. split_and!; [done|set_solver|].
    intros p Hc. eapply settled_mono; [done| |by apply Hs]. by intros ->.
  - destruct (H12 v Hv E) as (Hp & Hi & Hs). split_and!; [done|set_solver|].
    intros p Hc. apply (settled_mono P c2 c2 d1); [done| |by apply Hs]. intros ->. apply orb_true_r.
Qed.

(** The loop over the parents of [k], from the answer [(b0, d0)] on. *)
Lemma walk_parents_ok P k walk ps b0 d0 c0 c1 :
  Some k ≠ play →
  (∀ p, p ∈ ps → p ∈ parents k) →
  (∀ p c, p ∈ ps → cache_sound c → walk_ok P c p (walk c p)) →
  cache_sound c1 → c0 ⊆ c1 → sound_answer k b0 d0 → contributed P c0 b0 d0 c1 →
  ∃ b d c, walk_parents is_include walk ps (b0, d0, c1) = Some (b, d, c) ∧
    c1 ⊆ c ∧ cache_sound c ∧ sound_answer k b d ∧ contributed P c0 b d c ∧ b0 ⊆ b ∧
    (∀ p, p ∈ ps → if is_include p then p ∈ b else settled P c d p) ∧ (d0 = true → d = true).
Proof.
  intros Hk. revert b0 d0 c1. induction ps as [|p ps IH]; intros b0 d0 c1 Hps Hw Hc Hsub Hs Hcon; simpl.
  { exists b0, d0, c1. split_and!; try done. set_solver. }
  assert (Hpk : p ∈ parents k) by (apply Hps; by left).
  destruct (is_include p) eqn:Hi.
  - destruct (IH ({[p]} ∪ b0) d0 c1) as (b & d & c & -> & H1 & H2 & H3 & H4 & H5 & H6 & H7);
      [set_solver|intros; apply Hw; [by right|done]|done..| | |].
    + destruct Hs as [Hs1 Hs2]. split; [|done]. intros x [->%elem_of_singleton|Hx]%elem_of_union; [|auto].
      exists k. by split.
    + intros v Hv Hn. destruct (Hcon v Hv Hn) as (? & ? & ?). split_and!; [done|set_solver|done].
    + exists b, d, c. split_and!; try done; [set_solver|].
      intros q [->|Hq]%elem_of_cons; [rewrite Hi; set_solver|by apply H6].
  - destruct (Hw p c1) as (b1 & d1 & c2 & -> & Hsub2 & Hc2 & [Hs1 Hs2] & Hcon2 & Hset); [by left|done|].
    assert (Hcl : climbs k p) by done.
    destruct (IH (b0 ∪ b1) (d0 || d1) c2) as (b & d & c & -> & H1 & H2 & H3 & H4 & H5 & H6 & H7);
      [set_solver|intros; apply Hw; [by right|done]|done|by etrans| | |].
    + destruct Hs as [Hs3 Hs4]. split.
      * intros x [Hx|Hx]%elem_of_union; [auto|]. destruct (Hs1 x Hx) as (v & Hv & Hx').
        exists v. split; [by eapply rtc_l|done].
      * intros [Hd|Hd]%orb_true_iff; [auto|]. destruct (Hs2 Hd) as (v & Hv & Hx').
        exists v. split; [by eapply rtc_l|done].
    + by eapply contributed_trans.
    + exists b, d, c. split_and!; try done; [by etrans|set_solver| |].
      * intros q [->|Hq]%elem_of_cons; [|by apply H6]. rewrite Hi.
        eapply settled_mono; [done| |done]. intros ->. apply H7, orb_true_r.
      * intros ->. by apply H7.
Qed.

Lemma nearest_walk_ok fuel P cache k :
  k ∈ U → todo U P < fuel → cache_sound cache →
  walk_ok P cache k (nearest_walk parents is_include play fuel P cache k).
Proof.
  revert P cache k. induction fuel as [|fuel IH]; intros P cache k Hk Hf Hc; [lia|]. cbn [nearest_walk].
  assert (Hnone : ∀ b d, contributed P cache b d cache).
  { intros b d v [y Hy] Hn. congruence. }
  destruct (cache !! k) as [[b d]|] eqn:Hck.
  { exists b, d, cache. split_and!; try done; try (by eapply Hc); by left. }
  case_decide as Hin.
  { exists ∅, false, cache. split_and!; try done; try (by split; [set_solver|]); by right; left. }
  case_decide as Hpl.
  { exists ∅, true, cache. split_and!; try done.
    - split; [set_solver|]. intros _. exists k. split; [reflexivity|by left].
    - right. right. split; [by left|done]. }
  destruct (parents k) as [|p0 ps0] eqn:Hps.
  { exists ∅, (bool_decide (play = None)), cache. split_and!; try done.
    - split; [set_solver|]. intros Hd%bool_decide_eq_true. exists k. split; [reflexivity|by right].
    - right. right. split; [by right|]. intros [?|[_ ?]]; [done|by apply bool_decide_eq_true]. }
  rewrite <- Hps.
  destruct (walk_parents_ok ({[k]} ∪ P) k (nearest_walk parents is_include play fuel ({[k]} ∪ P))
              (parents k) ∅ false cache cache) as (b & d & c & -> & H1 & H2 & H3 & H4 & _ & H6 & _).
  { done. }
  { done. }
  { intros p c Hp Hc'. apply IH; [by eapply HU| |done]. pose proof (todo_lt U P k Hk Hin). lia. }
  { done. }
  { done. }
  { split; [set_solver|done]. }
  { intros v [y Hy] Hn. congruence. }
  assert (Hset : ∀ q, settled ({[k]} ∪ P) c d q → settled P (<[k:=(b, d)]> c) d q).
  { intros q Hq. destruct (decide (q = k)) as [->|Hne]; [left; rewrite lookup_insert_eq; by eexists|].
    destruct Hq as [Hq|[Hq|Hq]]; [left; by rewrite lookup_insert_ne|right; left; set_solver|by right; right]. }
  exists b, d, (<[k:=(b, d)]> c). split_and!; try done.
  - by apply insert_subseteq_r.
  - intros x b' d' [[<- [= <- <-]]|[_ Hx]]%lookup_insert_Some; [done|by eapply H2].
  - intros v Hv Hn. destruct (decide (v = k)) as [->|Hne].
    + split_and!; [intros [?|Ht]; [done|congruence]| |].
      * intros x (_ & Hx & Hi). specialize (H6 x Hx). by rewrite Hi in H6.
      * intros q (_ & Hq & Hi). specialize (H6 q Hq). rewrite Hi in H6. by apply Hset.
    + rewrite lookup_insert_ne in Hv by done. destruct (H4 v Hv Hn) as (? & ? & Hs).
      split_and!; [done..|]. intros q Hq. by apply Hset, Hs.
  - left. rewrite lookup_insert_eq. by eexists.
Qed.

(** Started with nothing cached, the answer is exact. *)
Lemma nearest_walk_exact k :
  k ∈ U →
  ∃ b d c, nearest_walk parents is_include play (S (length U)) ∅ ∅ k = Some (b, d, c) ∧
    (∀ x, x ∈ b ↔ ∃ v, rtc climbs k v ∧ includes_above v x) ∧
    (d = true ↔ ∃ v, rtc climbs k v ∧ ends_direct v).
Proof.
  intros Hk. destruct (nearest_walk_ok (S (length U)) ∅ ∅ k) as (b & d & c & Hw & _ & _ & [Hb Hd] & Hcon & Hset).
  { done. }
  { pose proof (todo_le U (∅ : gset string)). lia. }
  { by intros x b d ?%lookup_empty_Some. }
  exists b, d, c. split; [done|].
  assert (Hall : ∀ v, rtc climbs k v → settled ∅ c d v).
  { apply (rtc_ind_r (λ v, settled ∅ c d v)); [done|].
    intros y z _ Hyz Hy. destruct Hy as [Hy|[Hy|[Hy _]]]; [|set_solver|].
    - destruct (Hcon y Hy) as (_ & _ & Hs); [apply lookup_empty|]. by apply Hs.
    - destruct Hyz as (Hne & Hp & _). destruct Hy as [?|Hy]; [done|]. rewrite Hy in Hp. by apply elem_of_nil in Hp. }
  split; [intros x; split; [apply Hb|]|split; [apply Hd|]]; intros (v & Hv & Hx);
    destruct (Hall v Hv) as [Hy|[Hy|[Hy He]]]; try by apply elem_of_empty in Hy.
  - destruct (Hcon v Hy) as (_ & Hi & _); [apply lookup_empty|]. by apply Hi.
  - destruct Hx as (Hne & Hp & _). destruct Hy as [?|Hy]; [done|]. rewrite Hy in Hp. by apply elem_of_nil in Hp.
  - exfalso. destruct (Hcon v Hy) as (Hne & _ & _); [apply lookup_empty|].
    apply Hne. destruct Hx as [?|[? _]]; [by left|by right].
  - by apply He.
Qed.
End NearestExact.

(** ** Subsets, for counting lineages *)

Fixpoint subsets (l : list string) : list (gset string) :=
  match l with
  | [] => [∅]
  | x :: l' => subsets l' ++ ((λ s, {[x]} ∪ s) <$> subsets l')
  end.

Lemma length_subsets l : length (subsets l) = 2 ^ length l.
Proof. induction l as [|x l IH]; simpl; [done|]. rewrite length_app, length_fmap, IH. lia. Qed.

Lemma elem_of_subsets l (X : gset string) : X ⊆ list_to_set l → X ∈ subsets l.
Proof.
  revert X. induction l as [|x l IH]; intros X HX; simpl in *.
  - apply list_elem_of_singleton. set_solver.
  - apply elem_of_app. destruct (decide (x ∈ X)) as [Hx|Hx].
    + right. apply list_elem_of_fmap. exists (X ∖ {[x]}). split; [|apply IH; set_solver].
      apply set_eq. intros y. destruct (decide (y = x)); set_solver.
    + left. apply IH. intros y Hy. specialize (HX y Hy). set_solver.
Qed.

(** ** The positional graph and the contexts of producers *)

Section GraphExact.
Context `{YamlLib} {G : Type} `{NxLaws ContentNode EdgeAttrs G}.
Implicit Types (g : ContentGraph G) (n : ContentNode) (scope : gset string).

Lemma elem_of_edges_to g k t x e :
  (x, e) ∈ edges_to g k t ↔ (x, k, e) ∈ nx_edges (cg_g g) ∧ edge_matches t e = true.
Proof.
  unfold edges_to. case_decide as Hm.
  - rewrite list_elem_of_fmap. split.
    + intros ([[u v] e'] & [= -> ->] & [Ht Hin]%list_elem_of_filter). simpl in *.
      apply elem_of_in_edges in Hin as [-> Hin]; done.
    + intros [Hin Ht]. exists (x, k, e). split; [done|]. apply list_elem_of_filter.
      split; [done|]. by apply elem_of_in_edges.
  - split; [set_solver|]. intros [Hin _]. by apply nx_edges_mem in Hin as [_ ?].
Qed.

Lemma elem_of_edge_parents g k t x :
  x ∈ edge_parents g k t ↔ ∃ e, (x, k, e) ∈ nx_edges (cg_g g) ∧ ea_type e = t.
Proof.
  unfold edge_parents. rewrite list_elem_of_fmap. split.
  - intros ([u e] & -> & [Hin Ht]%elem_of_edges_to). apply bool_decide_eq_true in Ht. eauto.
  - intros (e & Hin & Ht). exists (x, e). split; [done|]. apply elem_of_edges_to.
    split; [done|]. by apply bool_decide_eq_true.
Qed.

(** The parents are the in-scope ends of positional edges, sorted. *)
Lemma elem_of_positional_parent_ids g k scope p :
  p ∈ positional_parent_ids g k scope ↔ pos_edge g p k ∧ p ∈ scope.
Proof.
  unfold positional_parent_ids. rewrite elem_of_sorted_set, elem_of_app, list_elem_of_filter, !elem_of_app.
  rewrite !elem_of_edge_parents. unfold pos_edge. split.
  - intros [[Hs [(e & ? & Ht)|[(e & ? & Ht)|(e & ? & Ht)]]]|Hd];
      [split; [|done]; exists e; split; [done|]; by rewrite Ht..|].
    case_bool_decide as Hk; [|set_solver].
    apply list_elem_of_filter in Hd as [[Hs Hp] (e & Hin & Ht)%elem_of_edge_parents].
    split; [|done]. exists e. split; [done|]. rewrite Ht. simpl.
    destruct (get_node g p) as [np|], (get_node g k) as [nk|]; simpl in *;
      [|naive_solver..]. simplify_eq. rewrite !bool_decide_true; [done|set_solver..].
  - intros [(e & Hin & Hp) Hs]. destruct (ea_type e) eqn:Ht; try done; [left; split; eauto 10..| |left; split; eauto 10].
    right. simpl in Hp. destruct (get_node g p) as [np|] eqn:Hnp; [|done].
    destruct (get_node g k) as [nk|] eqn:Hnk; [|done]. apply andb_prop in Hp as [Hp1 Hp2].
    apply bool_decide_eq_true in Hp1, Hp2. rewrite bool_decide_true by (simpl; congruence).
    apply list_elem_of_filter. split; [|apply elem_of_edge_parents; eauto]. split; [done|].
    rewrite Hnp. simpl. repeat (apply elem_of_cons in Hp1 as [->|Hp1]; [auto|]). by apply elem_of_nil in Hp1.
Qed.

Lemma positional_parent_vertices g scope x y : y ∈ positional_parent_ids g x scope → y ∈ vertices g.
Proof. intros [Hp _]%elem_of_positional_parent_ids. by apply pos_edge_vertices in Hp as [? _]. Qed.

Lemma resolver_ancestor_exact g k scope x :
  x ∈ resolver_ancestor_ids g k scope ↔ tc (λ a b, pos_edge g b a ∧ b ∈ scope) k x.
Proof.
  unfold resolver_ancestor_ids.
  destruct (walk_push_reachable (λ x, positional_parent_ids g x scope) (vertices g) k) as (s & -> & Hs).
  { intros a b. apply positional_parent_vertices. }
  simpl. rewrite Hs.
  split; apply (tc_congruence Datatypes.id); intros a b; apply elem_of_positional_parent_ids.
Qed.

Lemma positional_descendant_exact g k scope x :
  x ∈ positional_descendant_ids g k scope ↔ rtc (λ a b, b ∈ pos_children g a ∧ b ∈ scope) k x.
Proof.
  unfold positional_descendant_ids.
  destruct (walk_push_rooted (λ x, filter (λ c, c ∈ scope) (pos_children g x)) k (vertices g)) as (s & -> & Hs).
  { intros a b [_ Hb]%list_elem_of_filter. unfold pos_children in Hb.
    rewrite !elem_of_app, !elem_of_targets in Hb.
    destruct Hb as [(e & Hin & _)|[(e & Hin & _)|(e & Hin & _)]]; by apply edge_vertices in Hin as [_ ?]. }
  simpl. rewrite Hs.
  split; apply rtc_congruence with (f := Datatypes.id); intros a b Hab;
    [apply list_elem_of_filter in Hab; tauto|apply list_elem_of_filter; tauto].
Qed.

(** One step of the walk to the nearest include tasks. *)
Definition plain_step g (play : option string) scope (k p : string) : Prop :=
  Some k ≠ play ∧ pos_edge g p k ∧ p ∈ scope ∧ is_include_task (get_node g p) = false.

Lemma nearest_boundaries_spec g k play scope b d :
  nearest_include_boundaries g k play scope = (b, d) →
  (∀ x, x ∈ b ↔ ∃ v, rtc (plain_step g play scope) k v ∧ Some v ≠ play ∧
      pos_edge g x v ∧ x ∈ scope ∧ is_include_task (get_node g x) = true) ∧
  (d = true ↔ ∃ v, rtc (plain_step g play scope) k v ∧
      (Some v = play ∨ ((∀ p, ¬ (pos_edge g p v ∧ p ∈ scope)) ∧ play = None))).
Proof.
  unfold nearest_include_boundaries.
  destruct (nearest_walk_exact (λ x, positional_parent_ids g x scope)
    (λ x, is_include_task (get_node g x)) play (k :: vertices g)) with (k := k)
    as (b' & d' & c & Hw & Hb & Hd).
  { intros x y Hy. right. by eapply positional_parent_vertices. }
  { by left. }
  simpl length in Hw. rewrite Hw. intros [= <- <-].
  assert (Hst : ∀ v, rtc (climbs (λ x, positional_parent_ids g x scope)
      (λ x, is_include_task (get_node g x)) play) k v ↔ rtc (plain_step g play scope) k v).
  { intros v. split; apply rtc_congruence with (f := Datatypes.id); intros a c';
      unfold climbs, plain_step, Datatypes.id; rewrite elem_of_positional_parent_ids; tauto. }
  split.
  - intros x. rewrite Hb. setoid_rewrite Hst. unfold includes_above.
    setoid_rewrite elem_of_positional_parent_ids. naive_solver.
  - rewrite Hd. setoid_rewrite Hst. unfold ends_direct.
    assert (Hnil : ∀ v, positional_parent_ids g v scope = [] ↔ ∀ p, ¬ (pos_edge g p v ∧ p ∈ scope)).
    { intros v. setoid_rewrite <- elem_of_positional_parent_ids. split; [by intros -> p ?%elem_of_nil|].
      destruct (positional_parent_ids g v scope) as [|p l]; [done|]. intros Hn. destruct (Hn p). by left. }
    by setoid_rewrite Hnil.
Qed.

(** *** Contexts of producers *)

Section Context_.
Context g (play : option string) (scope : option (gset string)) (src : string).

(** Climbing from a task to what contains it, below the play and outside include tasks. *)
Definition context_climb (k p : string) : Prop :=
  ∃ e, (p, k, e) ∈ nx_edges (cg_g g) ∧ ea_type e = CONTAINS ∧ in_scope scope p = true ∧
    is_include_task (get_node g p) = false ∧ Some p ≠ play.

(** The include that brings [k] in: an include edge, or an include task that contains it. *)
Definition included_by (k p : string) : Prop :=
  ∃ e, (p, k, e) ∈ nx_edges (cg_g g) ∧ in_scope scope p = true ∧
    (ea_type e = INCLUDE ∨ ea_type e = IMPORT ∨
     (ea_type e = CONTAINS ∧ is_include_task (get_node g p) = true)).

(** On the way from the producer to an include, that include counted. *)
Definition in_context (x : string) : Prop :=
  ∃ v p, rtc context_climb src v ∧ included_by v p ∧
    (x = p ∨ (rtc context_climb src x ∧ rtc context_climb x v)).

Lemma visit_parents_spec (k : string) (lin : gset string) es st ctx st' ctx' :
  (∀ p e, (p, e) ∈ es → (p, k, e) ∈ nx_edges (cg_g g)) →
  foldl (visit_parent g play scope lin) (st, ctx) es = (st', ctx') →
  (∃ new, st' = (new ++ st)%list ∧ (length new ≤ length es)%nat ∧
     ∀ s, s ∈ new → ∃ p, s = (p, {[p]} ∪ lin) ∧ context_climb k p) ∧
  (∀ x, x ∈ ctx' → x ∈ ctx ∨ ∃ p, included_by k p ∧ (x = p ∨ x ∈ lin)) ∧
  ctx ⊆ ctx' ∧
  (∀ p e, (p, e) ∈ es → in_scope scope p = true →
     (ea_type e = INCLUDE ∨ ea_type e = IMPORT ∨
      (ea_type e = CONTAINS ∧ is_include_task (get_node g p) = true) → {[p]} ∪ lin ⊆ ctx') ∧
     (ea_type e = CONTAINS → is_include_task (get_node g p) = false → Some p ≠ play →
        (p, {[p]} ∪ lin) ∈ st')).
Proof.
  intros Hes. revert st ctx. induction es as [|[p e] es IH]; intros st ctx Hf; simpl in Hf.
  { simplify_eq. split_and!; [exists []; split_and!; [done|simpl; lia|set_solver]|auto|done|set_solver]. }
  assert (Hin : (p, k, e) ∈ nx_edges (cg_g g)) by (apply Hes; by left).
  assert (Hes' : ∀ p e, (p, e) ∈ es → (p, k, e) ∈ nx_edges (cg_g g)) by (intros; apply Hes; by right).
  specialize (IH Hes').
  destruct (bool_decide (ea_type e ∈ [CONTAINS; INCLUDE; IMPORT]) && in_scope scope p) eqn:Hc.
  2: { apply IH in Hf as ((new & -> & Hl & Hn) & Hx & Hsub & Hall).
       split_and!; [exists new; split_and!; [done|simpl; lia|done]|done|done|].
       intros q e' [[= -> ->]|Hq]%elem_of_cons Hs; [|by apply Hall].
       rewrite Hs, andb_true_r in Hc. apply bool_decide_eq_false in Hc.
       split; [intros [Ht|[Ht|[Ht _]]]|intros Ht]; rewrite Ht in Hc; set_solver. }
  apply andb_prop in Hc as [Hc%bool_decide_eq_true Hs].
  destruct (bool_decide (ea_type e ∈ [INCLUDE; IMPORT]) || is_include_task (get_node g p)) eqn:Hi.
  - assert (Hinc : included_by k p).
    { exists e. split_and!; [done..|]. apply orb_true_iff in Hi as [Hi%bool_decide_eq_true|Hi]; set_solver. }
    apply IH in Hf as ((new & -> & Hl & Hn) & Hx & Hsub & Hall). split_and!.
    + exists new. split_and!; [done|simpl; lia|done].
    + intros x Hx'. destruct (Hx x Hx') as [Hx2|?]; [|by right]. set_solver.
    + set_solver.
    + intros q e' [[= -> ->]|Hq]%elem_of_cons Hs'; [|by apply Hall].
      split; [set_solver|]. intros Ht Hni. rewrite Ht, Hni in Hi. by vm_compute in Hi.
  - apply orb_false_iff in Hi as [Hi%bool_decide_eq_false Hni].
    assert (Ht : ea_type e = CONTAINS) by set_solver.
    case_decide as Hp.
    + apply IH in Hf as ((new & -> & Hl & Hn) & Hx & Hsub & Hall).
      split_and!; [exists new; split_and!; [done|simpl; lia|done]|done|done|].
      intros q e' [[= -> ->]|Hq]%elem_of_cons Hs'; [|by apply Hall].
      split; [|done]. rewrite Ht, Hni. intros [?|[?|[_ ?]]]; done.
    + assert (Hcl : context_climb k p) by (exists e; done).
      apply IH in Hf as ((new & -> & Hl & Hn) & Hx & Hsub & Hall). split_and!; [|done|done|].
      * exists (new ++ [(p, {[p]} ∪ lin)])%list. rewrite <- app_assoc, length_app.
        split_and!; [done|simpl; lia|]. intros s [?| ->%list_elem_of_singleton]%elem_of_app; eauto.
      * intros q e' [[= -> ->]|Hq]%elem_of_cons Hs'; [|by apply Hall].
        split; [rewrite Ht, Hni; intros [?|[?|[_ ?]]]; done|].
        intros _ _ _. apply elem_of_app. right. by left.
Qed.

Definition context_V : list string := src :: vertices g.

Definition context_inv (s : context_state) : Prop :=
  let '(st, seen, ctx) := s in
  let known x := x ∈ st ∨ x ∈ seen in
  (∀ c lin, known (c, lin) → c ∈ context_V ∧ lin ⊆ list_to_set context_V ∧ c ∈ lin ∧
     ∀ x, x ∈ lin → rtc context_climb src x ∧ rtc context_climb x c) ∧
  known (src, {[src]}) ∧
  (∀ c lin p, (c, lin) ∈ seen → context_climb c p → known (p, {[p]} ∪ lin)) ∧
  (∀ x, x ∈ ctx → in_context x) ∧
  (∀ c lin p, (c, lin) ∈ seen → included_by c p → {[p]} ∪ lin ⊆ ctx).

Definition context_weight (x : lineage_state) : nat := length (edges_to g x.1 None).
Definition context_U : list lineage_state := list_prod context_V (subsets context_V).
Definition context_measure (s : context_state) : nat :=
  let '(st, seen, _) := s in length st + unseen_weight context_weight context_U seen.

Lemma context_climb_vertex c p : context_climb c p → p ∈ context_V.
Proof. intros (e & Hin & _). right. by apply edge_vertices in Hin as [? _]. Qed.

Lemma context_step_inv s s' :
  context_inv s → context_step g play scope s = inl s' → context_inv s' ∧ (context_measure s' < context_measure s)%nat.
Proof.
  destruct s as [[st seen] ctx]. destruct st as [|[c lin] st]; simpl; [done|].
  intros (Hk & Hroot & Hcl & Hsound & Hcomp). case_decide as Hin.
  { intros [= <-]. split; [|simpl; lia].
    assert (Hkn : ∀ x, x ∈ (c, lin) :: st ∨ x ∈ seen → x ∈ st ∨ x ∈ seen).
    { intros x [[->|?]%elem_of_cons|?]; auto. }
    split_and!; [|by auto|by eauto|done|done].
    intros c' lin' [?|?]; apply Hk; [left; by right|by right]. }
  destruct (foldl _ (st, ctx) (edges_to g c None)) as [st2 ctx2] eqn:Hf. intros [= <-].
  destruct (visit_parents_spec c lin (edges_to g c None) st ctx st2 ctx2)
    as ((new & -> & Hl & Hn) & Hx & Hsub & Hall); [by intros p e [? _]%elem_of_edges_to|done|].
  destruct (Hk c lin) as (Hc & Hlin & Hcin & Hpath); [left; by left|].
  assert (Hrc : rtc context_climb src c) by (by destruct (Hpath c Hcin)).
  split.
  - split_and!.
    + intros c' lin' Hin'. assert ((c', lin') ∈ new ∨ ((c', lin') ∈ (c, lin) :: st ∨ (c', lin') ∈ seen)) as [Hnew|Hold].
      { destruct Hin' as [[?|?]%elem_of_app|[->%elem_of_singleton|?]%elem_of_union]; auto;
          right; left; [by right|by left]. }
      2: by apply Hk.
      apply Hn in Hnew as (p & [= -> ->] & Hp). pose proof (context_climb_vertex _ _ Hp) as Hpv.
      split_and!; [done| |set_solver|].
      * intros x [->%elem_of_singleton|Hx']%elem_of_union; [by apply elem_of_list_to_set|by apply Hlin].
      * intros x [->%elem_of_singleton|Hx']%elem_of_union; [split; [by eapply rtc_r|reflexivity]|].
        destruct (Hpath x Hx') as [? ?]. split; [done|by eapply rtc_r].
    + destruct Hroot as [[Hr|Hr]%elem_of_cons|Hr].
      * right. apply elem_of_union_l. by apply elem_of_singleton.
      * left. apply elem_of_app. by right.
      * right. by apply elem_of_union_r.
    + intros c' lin' p [[= -> ->]%elem_of_singleton|Hs]%elem_of_union Hp.
      * destruct Hp as (e & He & Ht & Hsc & Hni & Hpl). left.
        apply (Hall p e); [|done..]. by apply elem_of_edges_to.
      * destruct (Hcl c' lin' p Hs Hp) as [[Hr|Hr]%elem_of_cons|Hr].
        -- right. apply elem_of_union_l. by apply elem_of_singleton.
        -- left. apply elem_of_app. by right.
        -- right. by apply elem_of_union_r.
    + intros x [Hx'|(p & Hp & Hx')]%Hx; [by apply Hsound|]. exists c, p. split_and!; [done..|].
      destruct Hx' as [->|Hx']; [by left|right; by apply Hpath].
    + intros c' lin' p [[= -> ->]%elem_of_singleton|Hs]%elem_of_union Hp.
      * destruct Hp as (e & He & Hsc & Ht). apply (Hall p e); [|done..]. by apply elem_of_edges_to.
      * etrans; [by eapply Hcomp|done].
  - simpl. rewrite length_app.
    assert (Hu : (c, lin) ∈ context_U).
    { apply list_elem_of_In, in_prod; apply list_elem_of_In; [done|by apply elem_of_subsets]. }
    pose proof (unseen_weight_add context_weight context_U seen (c, lin) Hu Hin) as Hw.
    unfold context_weight in Hw at 2. simpl in Hw. lia.
Qed.

Lemma sum_list_app l l' : sum_list (l ++ l')%list = (sum_list l + sum_list l')%nat.
Proof. induction l as [|x l IH]; simpl; lia. Qed.

Lemma sum_list_prod {B} (f : string → nat) (l : list string) (l' : list B) :
  sum_list ((λ x, f x.1) <$> list_prod l l') = (length l' * sum_list (f <$> l))%nat.
Proof.
  induction l as [|x l IH]; csimpl; [lia|]. rewrite fmap_app, sum_list_app, IH.
  assert (sum_list ((λ y : string * B, f y.1) <$> map (λ y, (x, y)) l') = (length l' * f x)%nat) as ->; [|lia].
  clear. induction l'; csimpl; lia.
Qed.

Lemma context_measure_start :
  (context_measure ([(src, {[src]})], ∅, ∅) < 2 ^ context_fuel g)%nat.
Proof.
  unfold context_measure, context_fuel.
  set (E := sum_list ((λ k, length (edges_to g k None)) <$> vertices g)).
  assert (Hsrc : (length (edges_to g src None) ≤ E)%nat).
  { destruct (decide (src ∈ vertices g)) as [Hv|Hv].
    - by apply sum_list_elem, (list_elem_of_fmap_2 (λ k, length (edges_to g k None))).
    - unfold edges_to. rewrite decide_False by done. simpl. lia. }
  set (A := (2 ^ S (length (vertices g)))%nat).
  assert (Hw : (unseen_weight context_weight context_U ∅ ≤ A * (length (edges_to g src None) + E))%nat).
  { etrans; [apply unseen_weight_le|]. unfold context_U.
    etrans; [apply Nat.eq_le_incl, (sum_list_prod (λ k, length (edges_to g k None)))|].
    by rewrite length_subsets. }
  rewrite Nat.pow_add_r. simpl length. fold A.
  assert (1 ≤ A)%nat by (unfold A; pose proof (Nat.pow_nonzero 2 (S (length (vertices g)))); lia).
  assert (E < 2 ^ E)%nat by (apply Nat.pow_gt_lin_r; lia).
  change (2 ^ S E)%nat with (2 * 2 ^ E)%nat. nia.
Qed.

Lemma context_inv_start : context_inv ([(src, {[src]})], ∅, ∅).
Proof.
  split_and!; [|left; by left|set_solver..].
  intros c lin [[[= -> ->]|?%elem_of_nil]%elem_of_cons|?]; [|done|set_solver].
  split_and!; [by left|unfold context_V; simpl; set_solver|set_solver|].
  intros x ->%elem_of_singleton. by split.
Qed.

(** The loop ends, and what it gathers is the context of the producer. *)
Lemma runtime_source_context_spec x :
  x ∈ runtime_source_context_ids g src play scope ↔ in_context x.
Proof.
  unfold runtime_source_context_ids.
  destruct (iter2_returns (context_step g play scope) context_inv context_measure context_step_inv
              (context_fuel g) ([(src, {[src]})], ∅, ∅) context_inv_start context_measure_start)
    as ([[st seen] ctx] & r & -> & Hinv & Hr).
  destruct st as [|[c lin] st]; simpl in Hr; [|by repeat case_match]. simplify_eq.
  destruct Hinv as (_ & Hroot & Hcl & Hsound & Hcomp). split; [apply Hsound|].
  assert (Hkn : ∀ y : lineage_state, y ∈ [] ∨ y ∈ seen → y ∈ seen) by (intros y [?%elem_of_nil|?]; done).
  assert (Hup : ∀ a b, rtc context_climb a b → ∀ z lin, (a, lin) ∈ seen → z ∈ lin →
            ∃ lin', (b, lin') ∈ seen ∧ z ∈ lin').
  { intros a b Hab. induction Hab as [a|a b c Hab _ IH]; intros z lin Ha Hz; [eauto|].
    apply (IH z ({[b]} ∪ lin)); [by apply Hkn, (Hcl a)|set_solver]. }
  apply Hkn in Hroot. intros (v & p & Hv & Hp & Hx).
  destruct Hx as [->|[Hx Hxv]].
  - destruct (Hup src v Hv src {[src]}) as (lin & Hlin & _); [done|set_solver|].
    eapply Hcomp; [done..|]. set_solver.
  - assert (∃ lin, (x, lin) ∈ seen ∧ x ∈ lin) as (lin & Hlin & Hxl).
    { apply rtc_inv_r in Hx as [<-|(y & Hy & Hyx)]; [exists {[src]}; set_solver|].
      destruct (Hup src y Hy src {[src]}) as (lin & Hlin & _); [done|set_solver|].
      exists ({[x]} ∪ lin). split; [by apply Hkn, (Hcl y)|set_solver]. }
    destruct (Hup x v Hxv x lin Hlin Hxl) as (lin' & Hlin' & Hxl').
    eapply Hcomp; [done..|]. set_solver.
Qed.
End Context_.

(** ** Properties *)

(** [_nearest_include_boundaries] is exact, its cache and cyclic includes
    notwithstanding: the boundaries are the include tasks that some walk up from the
    task meets first, and the flag tells whether some walk reaches the play (or, with
    no play given, a vertex without parents) without meeting one. *)
Theorem nearest_boundaries_exact g k play scope :
  (∀ x, x ∈ (nearest_include_boundaries g k play scope).1 ↔
     ∃ v, rtc (plain_step g play scope) k v ∧ Some v ≠ play ∧
       pos_edge g x v ∧ x ∈ scope ∧ is_include_task (get_node g x) = true) ∧
  ((nearest_include_boundaries g k play scope).2 = true ↔
     ∃ v, rtc (plain_step g play scope) k v ∧
       (Some v = play ∨ ((∀ p, ¬ (pos_edge g p v ∧ p ∈ scope)) ∧ play = None))).
Proof.
  destruct (nearest_include_boundaries g k play scope) as [b d] eqn:E. by apply nearest_boundaries_spec.
Qed.

(** [_runtime_source_context_ids] returns on every graph, although its loop
    enumerates lineages, and gathers exactly the tasks on a way up from the producer
    to an include that brings it in, together with those includes. *)
Theorem producer_context_exact g source_id play (play_scope : option (gset string)) x :
  x ∈ runtime_source_context_ids g source_id play play_scope ↔
  ∃ v p, rtc (context_climb g play play_scope) source_id v ∧ included_by g play_scope v p ∧
    (x = p ∨ (rtc (context_climb g play play_scope) source_id x ∧ rtc (context_climb g play play_scope) x v)).
Proof. apply runtime_source_context_spec. Qed.
End GraphExact.

(** ** A task file included twice, one of the includes inside another file *)

Module ContextDemo.
Definition include_task (k : string) : ContentNode :=
  with_fields "ansible.builtin.include_tasks" [] [] None None (sample_node k TASK 2 2 "").

Definition nested_graph : ContentGraph SG :=
  build_graph [sample_node "play" PLAY 1 9 ""; include_task "inc1"; include_task "inc2";
         sample_node "outer" TASKFILE 1 9 ""; sample_node "shared" TASKFILE 1 9 ""; sample_node "task" TASK 1 1 ""]
    [("play", "inc1", CONTAINS, 0%Z); ("inc1", "outer", INCLUDE, 0%Z); ("outer", "inc2", CONTAINS, 0%Z);
     ("inc2", "shared", INCLUDE, 0%Z); ("shared", "task", CONTAINS, 0%Z)].

Definition play_nodes : gset string := {["play"; "inc1"; "outer"; "inc2"; "shared"; "task"]}.

(** The nearest include of the task is the inner one, and the play is not reached
    without it. *)
Lemma nearest_boundaries_exact_witness :
  (∃ v, rtc (plain_step nested_graph (Some "play") play_nodes) "task" v ∧ pos_edge nested_graph "inc2" v) ∧
  ¬ rtc (plain_step nested_graph (Some "play") play_nodes) "task" "play".
Proof.
  destruct (nearest_boundaries_exact (G := SG) nested_graph "task" (Some "play") play_nodes) as [Hb Hd]. split.
  - destruct (proj1 (Hb "inc2")) as (v & Hv & _ & Hp & _); [|by exists v].
    apply (bool_decide_unpack _). vm_compute. exact I.
  - intros Hr. assert (Ht : (nearest_include_boundaries nested_graph "task" (Some "play") play_nodes).2 = true).
    { apply Hd. exists "play". by split; [|left]. }
    vm_compute in Ht. discriminate.
Defined.

Lemma producer_context_exact_witness :
  ∃ v p, rtc (context_climb nested_graph (Some "play") None) "task" v ∧ included_by nested_graph None v p ∧
    ("inc2" = p ∨ (rtc (context_climb nested_graph (Some "play") None) "task" "inc2" ∧
                   rtc (context_climb nested_graph (Some "play") None) "inc2" v)).
Proof.
  apply (producer_context_exact (G := SG) nested_graph "task" (Some "play") None "inc2").
  apply (bool_decide_unpack _). vm_compute. exact I.
Defined.
End ContextDemo.
