(* ===== verification/Precedence.v ===== *)
(** * Precedence of variables

    What the resolvers of [Provenance] return: the definition [resolve_variables] lets
    win, its agreement with [resolve_all_definitions], what
    [variables_defined_on_all_paths] guarantees, and the scope
    [resolve_property_origins] attributes a property to. *)

From stdpp Require Import base list gmap strings relations.
From Stdlib Require Import Ascii String.
From S2P Require Import Prelude PyStr Yaml Violation NxGraph ContentNode ContentGraph GraphLaws Sample GraphQueries MemoPaths ExecutionOrder Provenance ProvenanceProps.

#[local] Open Scope string_scope.
#[local] Notation length := List.length.

(** The first definition found. *)
Definition orelse {A} (x y : option A) : option A := match x with Some _ => x | None => y end.
#[local] Infix "<|>" := orelse (at level 60, right associativity).

(** ** Precedence *)

Section Precedence.
Context `{YamlLib} {G : Type} `{NxLaws ContentNode EdgeAttrs G}.
Implicit Types (g : ContentGraph G) (n self : ContentNode) (name : string) (r : bindings).

(** The definition of a name by the variables of the scope itself, by the vars files
    linked to it, and by the [vars] of a role. *)
Definition own_def n name : option VariableProvenance :=
  if bool_decide (node_type n = ROLE) then
    provenance n ROLE_DEFAULT name <$> dget name (m_default_variables (nd_meta n))
  else provenance n (provenance_by_node_type (node_type n)) name <$> dget name (f_variables (nd_fields n)).

Definition vars_file_def g n name : option VariableProvenance :=
  head (omap (λ vf, provenance vf VARS_FILE_VARS name <$> dget name (f_variables (nd_fields vf)))
          (vars_files g n)).

Definition scope_def g n name : option VariableProvenance := own_def n name <|> vars_file_def g n name.

Definition role_def n name : option VariableProvenance :=
  if bool_decide (node_type n = ROLE) then
    provenance n ROLE_VAR name <$> dget name (m_role_variables (nd_meta n))
  else None.

(** A producer binds a fact with its value, and its [register] without one. *)
Definition runtime_def name n : option VariableProvenance :=
  provenance n RUNTIME name <$>
    (dget name (f_set_facts (nd_fields n))
     <|> (if bool_decide (f_register (nd_fields n) = Some name ∧ name ≠ "") then Some YNull else None)).

Definition loop_def self name : option VariableProvenance :=
  if bool_decide (name ∈ loop_names self) then Some (provenance self LOCAL name YNull) else None.

(** The mappings of a node have no repeated key, as Python dicts have none. *)
Definition dicts_ok n : Prop :=
  NoDup (f_variables (nd_fields n)).*1 ∧ NoDup (f_set_facts (nd_fields n)).*1 ∧
  NoDup (m_role_variables (nd_meta n)).*1.

Lemma dget_keep_first n src r items name :
  dget name (foldl (keep_first n src) r items) = dget name r <|> (provenance n src name <$> dget name items).
Proof.
  revert r. induction items as [|[x v] items IH]; intros r; simpl.
  { by destruct (dget name r). }
  rewrite IH. unfold keep_first, override. simpl. destruct (dget x r) as [y|] eqn:Hx.
  - destruct (decide (name = x)) as [->|Hne]; [|done]. by rewrite Hx.
  - rewrite dget_dset. destruct (decide (name = x)) as [->|Hne]; [by rewrite Hx|done].
Qed.

Lemma dget_override n src r items name :
  NoDup items.*1 →
  dget name (foldl (override n src) r items) = (provenance n src name <$> dget name items) <|> dget name r.
Proof.
  revert r. induction items as [|[x v] items IH]; intros r Hnd; simpl; [by destruct (dget name r)|].
  apply NoDup_cons in Hnd as [Hx Hnd]. rewrite IH by done. unfold override. simpl. rewrite dget_dset.
  destruct (decide (name = x)) as [->|Hne]; [|done].
  by rewrite (proj2 (dget_None x items) Hx).
Qed.

Lemma dget_vars_files g n r name :
  dget name (collect_vars_file_vars g r n) = dget name r <|> vars_file_def g n name.
Proof.
  unfold collect_vars_file_vars, vars_file_def. revert r.
  induction (vars_files g n) as [|vf l IH]; intros r; csimpl; [by destruct (dget name r)|].
  rewrite IH, dget_keep_first. destruct (dget name r); [done|].
  by destruct (dget name (f_variables (nd_fields vf))).
Qed.

Lemma dget_resolve_scope g self r n name :
  dicts_ok n → (node_id n = node_id self → dget name r = None) →
  dget name (resolve_scope g self r n) = role_def n name <|> (dget name r <|> scope_def g n name).
Proof.
  intros (Hv & _ & Hr) Hself. unfold resolve_scope, scope_def, role_def, own_def.
  rewrite dget_vars_files. case_bool_decide.
  - rewrite dget_override, dget_keep_first by done.
    destruct (dget name (m_role_variables _)), (dget name r), (dget name (m_default_variables _)); done.
  - case_bool_decide as Hid.
    + rewrite dget_override, Hself by done. by destruct (dget name (f_variables _)).
    + rewrite dget_keep_first. by destruct (dget name r), (dget name (f_variables _)).
Qed.

Lemma dget_chain g self r chain name :
  Forall dicts_ok chain → Forall (λ n, node_id n ≠ node_id self) chain →
  dget name (foldl (resolve_scope g self) r chain) =
    last (omap (λ n, role_def n name) chain) <|>
      (dget name r <|> head (omap (λ n, scope_def g n name) chain)).
Proof.
  revert r. induction chain as [|n chain IH]; intros r Hok Hne; csimpl; [by destruct (dget name r)|].
  apply Forall_cons in Hok as [Hn Hok]. apply Forall_cons in Hne as [Hid Hne].
  rewrite IH, dget_resolve_scope by done.
  destruct (role_def n name) as [x|].
  - rewrite last_cons. destruct (last (omap _ chain)); [done|]. by destruct (dget name r).
  - destruct (last (omap (λ n, role_def n name) chain)); [done|].
    by destruct (dget name r), (scope_def g n name).
Qed.

Lemma dget_producers r ns name :
  Forall dicts_ok ns →
  dget name (foldl (λ r n, foldl (override n RUNTIME) r (runtime_items n)) r ns) =
    last (omap (runtime_def name) ns) <|> dget name r.
Proof.
  revert r. induction ns as [|n ns IH]; intros r Hok; csimpl; [by destruct (dget name r)|].
  apply Forall_cons in Hok as [(_ & Hf & _) Hok]. rewrite IH by done.
  assert (dget name (foldl (override n RUNTIME) r (runtime_items n)) = runtime_def name n <|> dget name r) as ->.
  { unfold runtime_items, runtime_def. rewrite foldl_app, dget_override by done.
    destruct (dget name (f_set_facts (nd_fields n))) as [v|]; [done|]. simpl.
    destruct (f_register (nd_fields n)) as [x|]; simpl; [|done].
    case_bool_decide as Hx; simpl.
    - rewrite bool_decide_false; [done|]. naive_solver.
    - unfold override. simpl. rewrite dget_dset. destruct (decide (name = x)) as [->|Hne].
      + by rewrite bool_decide_true.
      + rewrite bool_decide_false; [done|]. naive_solver. }
  destruct (runtime_def name n) as [x|]; simpl; [rewrite last_cons|]; by destruct (last (omap _ ns)).
Qed.

Lemma dget_loop_vars self r name : dget name (collect_loop_vars self r) = loop_def self name <|> dget name r.
Proof.
  unfold collect_loop_vars, loop_def. revert r.
  induction (loop_names self) as [|x l IH]; intros r; simpl; [by destruct (dget name r)|].
  rewrite IH. unfold override. simpl. rewrite dget_dset. destruct (decide (name = x)) as [->|Hne].
  - rewrite (bool_decide_true (x ∈ x :: l)) by (by left). by case_bool_decide.
  - destruct (decide (name ∈ l)).
    + by rewrite !bool_decide_true by (by try right).
    + by rewrite !bool_decide_false by set_solver.
Qed.

Lemma ancestors_nodes g k n : n ∈ ancestors g k → ∃ j, get_node g j = Some n.
Proof. unfold ancestors. intros (j & _ & Hj)%list_elem_of_omap. eauto. Qed.

Lemma append_unseen_sub seen ns n : n ∈ append_unseen seen ns → n ∈ ns.
Proof.
  revert seen. induction ns as [|m ns IH]; intros seen; simpl; [done|]. case_decide.
  - intros ?%IH. by right.
  - intros [->|?%IH]%elem_of_cons; [by left|by right].
Qed.

Lemma chain_nodes g k pc ps pos n : n ∈ build_scope_chain g k pc ps pos → ∃ j, get_node g j = Some n.
Proof.
  assert (Hself : n ∈ option_list (get_node g k) → ∃ j, get_node g j = Some n).
  { destruct (get_node g k) as [m|] eqn:E; simpl; [|by intros ?%elem_of_nil].
    intros ->%list_elem_of_singleton. eauto. }
  assert (Hanc : ∀ s, n ∈ play_scoped_positional_ancestors g k s → ∃ j, get_node g j = Some n).
  { intros s (j & _ & Hj)%list_elem_of_omap. eauto. }
  unfold build_scope_chain. destruct pos as [s|], pc as [p|]; rewrite !elem_of_app;
    naive_solver eauto using ancestors_nodes, append_unseen_sub.
Qed.

(** *** Agreement *)

(** Both resolvers know the same names, and the winner is one of the definitions. *)
Definition agree (r : bindings) (ra : all_bindings) : Prop :=
  ∀ name, match dget name r, dget name ra with
          | Some w, Some l => w ∈ l
          | None, None => True
          | _, _ => False
          end.

Lemma agree_set (r : bindings) (ra : all_bindings) name (w : VariableProvenance) (l : list VariableProvenance) :
  agree r ra → w ∈ l → agree (dset name w r) (dset name l ra).
Proof.
  intros Ha Hw x. rewrite !dget_dset. destruct (decide (x = name)); [done|apply Ha].
Qed.

Lemma agree_override n src r ra item :
  agree r ra → agree (override n src r item) (append_definition n src ra item).
Proof. intros Ha. apply agree_set; [done|]. apply elem_of_app. right. by left. Qed.

Lemma agree_prepend n src r ra item :
  agree r ra → agree (override n src r item) (prepend_definition n src ra item).
Proof. intros Ha. apply agree_set; [done|]. by left. Qed.

Lemma agree_keep n src r ra item :
  agree r ra → agree (keep_first n src r item) (append_definition n src ra item).
Proof.
  intros Ha. unfold keep_first. destruct (dget item.1 r) as [w|] eqn:Hw; [|by apply agree_override].
  intros x. unfold append_definition. rewrite dget_dset. destruct (decide (x = item.1)) as [->|Hne]; [|apply Ha].
  pose proof (Ha item.1) as Hi. rewrite Hw in Hi |- *. destruct (dget item.1 ra); [|done].
  simpl. apply elem_of_app. by left.
Qed.

Lemma agree_foldl {A} (f : bindings → A → bindings) (fa : all_bindings → A → all_bindings) r ra l :
  (∀ r ra a, agree r ra → agree (f r a) (fa ra a)) → agree r ra → agree (foldl f r l) (foldl fa ra l).
Proof. intros Hf. revert r ra. induction l as [|a l IH]; intros r ra Ha; simpl; [done|]. by apply IH, Hf. Qed.

Lemma agree_scope g self r ra n : agree r ra → agree (resolve_scope g self r n) (all_scope g ra n).
Proof.
  intros Ha. unfold resolve_scope, all_scope, collect_vars_file_vars, collect_vars_file_all.
  apply agree_foldl.
  { intros r' ra' vf Ha'. apply agree_foldl; [|done]. intros. by apply agree_keep. }
  case_bool_decide; [|case_bool_decide]; repeat (apply agree_foldl; [intros|]);
    auto using agree_keep, agree_override.
Qed.

(** What [defined_on_all_paths] decides on the spot for a name, and where it goes on. *)
Definition decided g k play scope name : path_state → option bool :=
  let coverage := runtime_coverage g k play scope name in
  path_local g k play name coverage.1 coverage.2.

(** The name is resolved, and every include path up to the play defines it. *)
Definition available g k play (ps : option (gset string)) name : Prop :=
  let scope := default (play_scoped_node_ids g play) ps in
  name ∈ (resolve_variables g k (Some play) (Some scope) None None).*1 ∧
  on_all_paths (decided g k play scope name) (path_parents g scope) (k, false).

Lemma all_paths_spec g k play ps name :
  name ∈ variables_defined_on_all_paths g k play ps ↔ available g k play ps name.
Proof.
  unfold variables_defined_on_all_paths, available. rewrite elem_of_filter, elem_of_list_to_set.
  set (scope := default (play_scoped_node_ids g play) ps). unfold defined_on_all_paths, decided.
  destruct (runtime_coverage g k play scope name) as [cov dr]. simpl.
  destruct (run_all (path_local g k play name cov dr) (path_parents g scope) (path_states g k))
    with (ps := [(k, false)]) as (b & c & -> & Hb).
  - intros [x sx] [p sp] (q & [= -> ->] & Hq)%list_elem_of_fmap.
    apply list_elem_of_In, in_prod; apply list_elem_of_In; [|destruct (_ || _); set_solver].
    right. by eapply positional_parent_vertices.
  - intros p ->%list_elem_of_singleton.
    apply list_elem_of_In, in_prod; apply list_elem_of_In; [by left|set_solver].
  - simpl. rewrite Hb. split; [intros [Hp Hn]; split; [done|apply Hp; by left]|].
    intros [Hn Hp]. split; [|done]. by intros p ->%list_elem_of_singleton.
Qed.

(** ** Properties *)

(** The precedence [resolve_variables] implements.  A loop variable of the task
    wins; then the definition of the last producer in execution order; then the
    [vars] of the OUTERMOST role of the scope chain that sets the name; and only then
    the innermost scope that defines the name, counting a role by its defaults and
    each scope's own variables before its vars files.  So the [vars] of a role shadow
    the variables of its tasks and blocks, and the defaults of a role shadow the
    variables of the play that applies it. *)
Theorem resolve_variables_precedence g k self pc ps pos path name :
  get_node g k = Some self →
  (∀ j n, get_node g j = Some n → dicts_ok n) →
  Forall (λ n, node_id n ≠ node_id self) (tail (build_scope_chain g k pc ps pos)) →
  dget name (resolve_variables g k pc ps pos path) =
    loop_def self name
    <|> last (omap (runtime_def name)
          (ordered_producers g (applies_on_path g k pc (runtime_scope g pc ps) pos path) k
             (runtime_scope g pc ps)))
    <|> last (omap (λ n, role_def n name) (build_scope_chain g k pc ps pos))
    <|> head (omap (λ n, scope_def g n name) (build_scope_chain g k pc ps pos)).
Proof.
  intros Hk Hok Hself. unfold resolve_variables. rewrite Hk, dget_loop_vars.
  unfold collect_runtime_vars. rewrite dget_producers.
  2: { apply Forall_forall. intros n (j & _ & Hj)%list_elem_of_omap. eauto. }
  assert (Hc : ∃ rest, build_scope_chain g k pc ps pos = self :: rest).
  { unfold build_scope_chain. rewrite Hk. destruct pos, pc; simpl; eauto. }
  destruct Hc as [rest Hc]. rewrite Hc in *. simpl in Hself.
  assert (Hall : Forall dicts_ok (self :: rest)).
  { rewrite <- Hc. apply Forall_forall. intros n (j & Hj)%chain_nodes. eauto. }
  apply Forall_cons in Hall as [Hs Hrest]. cbn [foldl omap list_omap].
  rewrite dget_chain, dget_resolve_scope by done.
  do 2 f_equal. destruct (role_def self name) as [x|].
  - rewrite last_cons. by destruct (last (omap _ rest)).
  - destruct (last (omap (λ n, role_def n name) rest)); [done|]. by destruct (scope_def g self name).
Qed.

(** [resolve_variables] and [resolve_all_definitions] agree: a name is resolved
    exactly when some definition of it is listed, and the definition that wins is one
    of those listed. *)
Theorem definitions_agree g k pc ps :
  agree (resolve_variables g k pc ps None None) (resolve_all_definitions g k pc ps).
Proof.
  unfold resolve_variables, resolve_all_definitions. destruct (get_node g k) as [self|]; [|done].
  unfold collect_loop_vars, collect_loop_vars_all, collect_runtime_vars, collect_runtime_vars_all.
  apply agree_foldl; [intros; by apply agree_prepend|].
  apply agree_foldl; [intros; apply agree_foldl; [intros; by apply agree_override|done]|].
  apply agree_foldl; [intros; by apply agree_scope|]. done.
Qed.

(** [variables_defined_on_all_paths] is exact.  A name is returned when it is
    resolved at all and every include path up from the task meets, before anything
    else, a scope that defines it, an include below which a producer has run, or the
    play with a producer on the direct path or a definition above it; cyclic includes
    end in no such scope.  In particular every path that ends meets one. *)
Theorem all_paths_exact g k play ps name :
  let scope := default (play_scoped_node_ids g play) ps in
  (name ∈ variables_defined_on_all_paths g k play ps ↔ available g k play ps name) ∧
  (name ∈ variables_defined_on_all_paths g k play ps →
     ∀ l, path_up (decided g k play scope name) (path_parents g scope) (k, false) l →
       path_ends (decided g k play scope name) (path_parents g scope) l →
       ∃ s, s ∈ l ∧ decided g k play scope name s = Some true).
Proof.
  intros scope. split; [apply all_paths_spec|]. intros Hin l Hl He.
  apply all_paths_spec in Hin as [_ Hall]. by eapply on_all_paths_path.
Qed.

(** The tags of a task are always attributed to the task, also when it has none and a
    scope above has some. *)
Lemma tags_origin_is_self g k self pc ps :
  get_node g k = Some self →
  dget "tags" (resolve_property_origins g k pc ps) =
    Some (MkOrigin "tags" (YList (YStr <$> f_tags (nd_fields self))) (node_id self)
            (m_file_path (nd_meta self)) (m_line_start (nd_meta self))).
Proof.
  intros Hk. unfold resolve_property_origins. rewrite Hk.
  assert (∃ rest, build_scope_chain g k pc ps None = self :: rest) as [rest ->].
  { unfold build_scope_chain. rewrite Hk. destruct pc; simpl; eauto. }
  assert (Ht : first_origin "tags" (self :: rest) = Some (MkOrigin "tags" (YList (YStr <$> f_tags (nd_fields self)))
     (node_id self) (m_file_path (nd_meta self)) (m_line_start (nd_meta self)))) by done.
  unfold inherited_properties. cbn [omap list_omap].
  rewrite Ht.
  repeat match goal with |- context [first_origin ?p ?c] =>
    lazymatch p with "tags" => fail | _ => destruct (first_origin p c) end end; reflexivity.
Qed.
End Precedence.

(** ** Witnesses *)

Module PrecedenceDemo.

Definition role_node : ContentNode :=
  MkNode (MkIdentity "roles/web" ROLE)
    (MkMeta "roles/web" 0 0 OWNED [] "" [("port", YInt 80)] [("workers", YInt 4)] [] "" "" [] [] [] 0 [] [])
    default_fields "" 0 None [] [].

(** A play that sets [port] applies a role with a default for [port] and a [vars]
    entry for [workers], which a task of the role sets too. *)
Definition role_graph : ContentGraph SG :=
  build_graph [with_fields "" [] [("port", YInt 8080)] None None (sample_node "play" PLAY 1 9 ""); role_node;
         sample_node "tasks" TASKFILE 1 9 "";
         with_fields "shell" [] [("workers", YInt 1)] None None (sample_node "task" TASK 1 1 "")]
    [("play", "roles/web", DEPENDENCY, 0%Z); ("roles/web", "tasks", CONTAINS, 0%Z); ("tasks", "task", CONTAINS, 0%Z)].

(** A list of a graph's nodes decides what holds of every node. *)
Lemma nodes_forall {G} `{NxLaws ContentNode EdgeAttrs G} (g : ContentGraph G) (P : ContentNode → Prop) :
  Forall P (nodes g) → ∀ j n, get_node g j = Some n → P n.
Proof.
  rewrite Forall_forall. intros Hf j n Hj. apply Hf. unfold nodes.
  apply list_elem_of_omap. exists (j, Some n). split; [|done]. by apply nx_nodes_payload.
Qed.

#[local] Instance dicts_ok_dec n : Decision (dicts_ok n).
Proof. unfold dicts_ok. apply _. Defined.

(** The role's [vars] beat the task's own variable, and the role's default beats the
    variable of the play. *)
Lemma resolve_variables_precedence_witness :
  vp_source <$> dget "workers" (resolve_variables role_graph "task" (Some "play") None None None) = Some ROLE_VAR ∧
  vp_source <$> dget "port" (resolve_variables role_graph "task" (Some "play") None None None) = Some ROLE_DEFAULT.
Proof.
  split.
  - rewrite (resolve_variables_precedence (G := SG) role_graph "task"
      (with_fields "shell" [] [("workers", YInt 1)] None None (sample_node "task" TASK 1 1 "")) (Some "play") None None None).
    + vm_compute. reflexivity.
    + vm_compute. reflexivity.
    + apply nodes_forall. apply (bool_decide_unpack _). vm_compute. exact I.
    + apply (bool_decide_unpack _). vm_compute. exact I.
  - rewrite (resolve_variables_precedence (G := SG) role_graph "task"
      (with_fields "shell" [] [("workers", YInt 1)] None None (sample_node "task" TASK 1 1 "")) (Some "play") None None None).
    + vm_compute. reflexivity.
    + vm_compute. reflexivity.
    + apply nodes_forall. apply (bool_decide_unpack _). vm_compute. exact I.
    + apply (bool_decide_unpack _). vm_compute. exact I.
Defined.

Lemma definitions_agree_witness :
  agree (resolve_variables role_graph "task" (Some "play") None None None)
    (resolve_all_definitions role_graph "task" (Some "play") None).
Proof. apply (definitions_agree (G := SG)). Defined.

(** A task file included twice: [x] is set at both includes, [y] at one. *)
Definition shared_graph : ContentGraph SG :=
  build_graph [sample_node "play" PLAY 1 9 "";
         with_fields "ansible.builtin.include_tasks" [] [("x", YInt 1); ("y", YInt 1)] None None
           (sample_node "inc1" TASK 2 2 "");
         with_fields "include_tasks" [] [("x", YInt 2)] None None (sample_node "inc2" TASK 3 3 "");
         sample_node "shared" TASKFILE 1 9 ""; sample_node "task" TASK 1 1 ""]
    [("play", "inc1", CONTAINS, 0%Z); ("play", "inc2", CONTAINS, 0%Z); ("inc1", "shared", INCLUDE, 0%Z);
     ("inc2", "shared", INCLUDE, 0%Z); ("shared", "task", CONTAINS, 0%Z)].

Lemma all_paths_exact_witness :
  "x" ∈ variables_defined_on_all_paths shared_graph "task" "play" None ∧
  "y" ∉ variables_defined_on_all_paths shared_graph "task" "play" None ∧
  available shared_graph "task" "play" None "x".
Proof.
  split_and!.
  - apply (bool_decide_unpack _). vm_compute. exact I.
  - apply (bool_decide_unpack _). vm_compute. exact I.
  - apply (all_paths_exact (G := SG) shared_graph "task" "play" None "x").
    apply (bool_decide_unpack _). vm_compute. exact I.
Defined.
End PrecedenceDemo.
