(* ===== verification/VariableHelpers.v ===== *)
(** * Helpers of the variable rules

    [src/apme_engine/graph/variable_helpers.py]: the effective [no_log] of a task, its
    enclosing plays, the strings of a node by the time they are evaluated, and the
    variable names that Jinja text refers to.  The regular expressions of the module
    match texts with a single possible reading at each position, and are written as
    scanners. *)

From stdpp Require Import base list gmap strings relations.
From Stdlib Require Import Ascii String.
From S2P Require Import Prelude PyStr PyRe Yaml Violation Sensitivity NxGraph ContentNode ContentGraph GraphLaws Sample GraphQueries MemoPaths.

#[local] Open Scope string_scope.
#[local] Notation length := List.length.

(** ** [no_log] *)

Section NoLog.
Context `{YamlLib} {G : Type} `{NxLaws ContentNode EdgeAttrs G}.
Implicit Types (g : ContentGraph G) (n : ContentNode) (scope : gset string).

(** [_sorted_positional_parent_ids], restricted to the scope. *)
Definition scoped_parent_ids g scope (k : string) : list string :=
  filter (λ p, p ∈ scope) (sort_by String.leb (positional_parents g k)).

(** The explicit setting of a node decides; a missing node decides [False]. *)
Definition no_log_local g (k : string) : option bool :=
  match get_node g k with
  | None => Some false
  | Some n => f_no_log (nd_fields n)
  end.

(** [_no_log_play_scoped_paths] *)
Definition no_log_play_scoped_paths g (k : string) scope (require_all : bool) : bool :=
  match scoped_parent_ids g scope k with
  | [] => false
  | ps => default false (fst <$> run_quantified (no_log_local g) (scoped_parent_ids g scope) (vertices g)
                                   require_all ps)
  end.

(** The scope in which [no_log_true_in_scope] looks for settings. *)
Definition no_log_scope g (k : string) (play_context_id : option string)
    (play_scope : option (gset string)) : gset string :=
  match play_context_id with
  | Some play => default (play_scoped_node_ids g play) play_scope
  | None => positional_ancestor_ids g k
  end.

(** [no_log_true_in_scope] *)
Definition no_log_true_in_scope g (k : string) (play_context_id : option string)
    (play_scope : option (gset string)) (require_all_paths : bool) : bool :=
  match get_node g k with
  | None => false
  | Some n =>
    match f_no_log (nd_fields n) with
    | Some b => b
    | None =>
      no_log_play_scoped_paths g k (no_log_scope g k play_context_id play_scope) require_all_paths
    end
  end.

(** [enclosing_play_ids] *)
Definition enclosing_play_ids g (k : string) : list string :=
  sort_by String.leb
    (filter (λ a, node_type <$> get_node g a = Some PLAY) (elements (positional_ancestor_ids g k))).

Lemma elem_of_scoped_parent_ids g scope k p :
  p ∈ scoped_parent_ids g scope k ↔ p ∈ positional_parents g k ∧ p ∈ scope.
Proof. unfold scoped_parent_ids. rewrite list_elem_of_filter, elem_of_sort_by. tauto. Qed.

Lemma scoped_parent_vertices g scope k p : p ∈ scoped_parent_ids g scope k → p ∈ vertices g.
Proof. intros [Hp _]%elem_of_scoped_parent_ids. by eapply sources_vertices. Qed.

Lemma no_log_unset g k n pc ps all :
  get_node g k = Some n → f_no_log (nd_fields n) = None →
  no_log_true_in_scope g k pc ps all = no_log_play_scoped_paths g k (no_log_scope g k pc ps) all.
Proof. intros Hk Hn. unfold no_log_true_in_scope. by rewrite Hk, Hn. Qed.

Lemma paths_all g k scope :
  no_log_play_scoped_paths g k scope true = true ↔
    scoped_parent_ids g scope k ≠ [] ∧
    ∀ p, p ∈ scoped_parent_ids g scope k → on_all_paths (no_log_local g) (scoped_parent_ids g scope) p.
Proof.
  unfold no_log_play_scoped_paths. destruct (scoped_parent_ids g scope k) as [|p ps] eqn:E.
  { split; [done|by intros [? _]]. }
  destruct (run_all (no_log_local g) (scoped_parent_ids g scope) (vertices g)) with (ps := p :: ps)
    as (b & c & Hs & Hb).
  - intros s q. apply scoped_parent_vertices.
  - intros q. rewrite <- E. apply scoped_parent_vertices.
  - rewrite Hs. simpl. rewrite Hb. naive_solver.
Qed.

Lemma paths_any g k scope :
  no_log_play_scoped_paths g k scope false = true ↔
    ∃ p, p ∈ scoped_parent_ids g scope k ∧ on_some_path (no_log_local g) (scoped_parent_ids g scope) p.
Proof.
  unfold no_log_play_scoped_paths. destruct (scoped_parent_ids g scope k) as [|p ps] eqn:E.
  { split; [done|]. by intros (p & ?%elem_of_nil & _). }
  destruct (run_any (no_log_local g) (scoped_parent_ids g scope) (vertices g)) with (ps := p :: ps)
    as (b & c & Hs & Hb).
  - intros s q. apply scoped_parent_vertices.
  - intros q. rewrite <- E. apply scoped_parent_vertices.
  - by rewrite Hs.
Qed.

(** A way a task is executed: the task and the scopes around it, each the positional
    parent of the one before, up to a scope with an explicit setting or to the edge of
    the scope. *)
Definition execution_path g scope (k : string) (l : list string) : Prop :=
  ∃ p l', l = k :: l' ∧ p ∈ scoped_parent_ids g scope k ∧
    path_up (no_log_local g) (scoped_parent_ids g scope) p l' ∧
    path_ends (no_log_local g) (scoped_parent_ids g scope) l'.

(** The closest explicit setting on a path. *)
Definition effective_no_log g (l : list string) : option bool := head (omap (no_log_local g) l).

Lemma path_up_first g parents p l t :
  path_up (no_log_local g) parents p l → t ∈ l → is_Some (no_log_local g t) →
  effective_no_log g l = no_log_local g t.
Proof.
  unfold effective_no_log. induction 1 as [p|p q l [Hn Hq] Hl IH]; intros Ht Hs; csimpl.
  - apply list_elem_of_singleton in Ht as ->. destruct Hs as [b ->]. done.
  - rewrite Hn. apply elem_of_cons in Ht as [->|Ht]; [|by apply IH].
    destruct Hs. congruence.
Qed.

(** Every way the task is executed inside the scope is protected, and there is one. *)
Definition protected_in g k scope : Prop :=
  scoped_parent_ids g scope k ≠ [] ∧
  ∀ l, execution_path g scope k l → effective_no_log g l = Some true.

Lemma no_log_all_paths_spec g k n pc ps :
  get_node g k = Some n → f_no_log (nd_fields n) = None →
  no_log_true_in_scope g k pc ps true = true → protected_in g k (no_log_scope g k pc ps).
Proof.
  intros Hk Hn. rewrite (no_log_unset g k n) by done. rewrite paths_all. intros [Hne Hall].
  split; [done|]. intros l (p & l' & -> & Hp & Hup & Hend).
  destruct (on_all_paths_path _ _ p l' (Hall p Hp) Hup Hend) as (t & Ht & Hlt).
  assert (no_log_local g k = None) as Hlk by (unfold no_log_local; by rewrite Hk).
  unfold effective_no_log. csimpl. rewrite Hlk.
  rewrite <- Hlt. eapply path_up_first; [done..|]. by rewrite Hlt.
Qed.

(** Suppressing a finding because of [no_log] is safe: when
    [no_log_true_in_scope] claims protection on all paths for a task that does not set
    [no_log] itself, then on every way the task is executed inside the scope the
    closest explicit setting is [no_log: true], and there is such a way. *)
Theorem no_log_all_paths_safe g k n pc ps :
  get_node g k = Some n → f_no_log (nd_fields n) = None →
  no_log_true_in_scope g k pc ps true = true → protected_in g k (no_log_scope g k pc ps).
Proof. apply no_log_all_paths_spec. Qed.

(** Redaction does not miss a protected path: for a task that does not set
    [no_log] itself, the default query answers [True] exactly when some chain of
    enclosing scopes inside the scope, none of which sets [no_log], leads to one that
    sets it to [true]. *)
Theorem no_log_any_path_exact g k n pc ps :
  get_node g k = Some n → f_no_log (nd_fields n) = None →
  no_log_true_in_scope g k pc ps false = true ↔
    ∃ p t, p ∈ scoped_parent_ids g (no_log_scope g k pc ps) k ∧
      rtc (asks (no_log_local g) (scoped_parent_ids g (no_log_scope g k pc ps))) p t ∧
      no_log_local g t = Some true.
Proof.
  intros Hk Hn. rewrite (no_log_unset g k n), paths_any by done. unfold on_some_path. naive_solver.
Qed.
End NoLog.

(** ** Strings of a node *)

(** A value of a mapping in [_collect_dict_strings]: lists directly inside lists are
    not entered. *)
Fixpoint value_strings (x : yval) : list string :=
  match x with
  | YStr s => [s]
  | YDict d => flat_map (λ kv, value_strings kv.2) d
  | YList l => flat_map (λ i, match i with YList _ => [] | _ => value_strings i end) l
  | _ => []
  end.

Definition collect_dict_strings (d : YAMLDict) : list string := flat_map (λ kv, value_strings kv.2) d.

(** The two forms of [changed_when] and [failed_when]. *)
Definition condition_strings (x : yval) : list string :=
  match x with YStr s => [s] | YList l => ystr <$> l | _ => [] end.

(** [collect_timed_strings]: templates and expressions evaluated before the task, and
    expressions evaluated after it. *)
Definition collect_timed_strings (n : ContentNode) (include_loop include_task_variables : bool)
    : list string * list string * list string :=
  let f := nd_fields n in
  let pre_bare :=
    match f_when f with
    | WhenNone => []
    | WhenStr s => if bool_decide (s = "") then [] else [s]
    | WhenList l => l
    end in
  let post_bare := (condition_strings (f_changed_when f) ++ condition_strings (f_failed_when f))%list in
  let pre_templates :=
    (option_list (f_name f) ++ collect_dict_strings (f_module_options f)
     ++ collect_dict_strings (default [] (f_environment f))
     ++ (if include_loop then condition_strings (f_loop f) else [])
     ++ (if include_task_variables then collect_dict_strings (f_variables f) else []))%list in
  (pre_templates, pre_bare, post_bare).

(** ** Variable references *)

Definition JINJA_BUILTINS : list string :=
  ["and"; "or"; "not"; "in"; "is"; "if"; "else"; "elif"; "for"; "import"; "as"; "with"; "bool";
   "true"; "false"; "True"; "False"; "none"; "None"; "null"; "Null"; "int"; "float"; "string";
   "list"; "dict"; "length"; "lower"; "upper"; "default"; "defined"; "undefined"; "sameas";
   "mapping"; "iterable"; "sequence"; "number"; "match"; "search"; "regex"; "select"; "reject";
   "map"; "sort"; "join"; "first"; "last"; "min"; "max"; "abs"; "round"; "trim"; "replace";
   "split"; "unique"; "flatten"; "combine"; "mandatory"; "ternary"; "from_json"; "from_yaml";
   "to_json"; "to_yaml"; "to_nice_json"; "to_nice_yaml"; "to_datetime"; "to_uuid"; "b64encode";
   "b64decode"; "hash"; "type_debug"; "ipaddr"; "ipv4"; "ipv6"; "basename"; "dirname"; "realpath";
   "relpath"; "expanduser"; "expandvars"; "fileglob"; "splitext"; "win_basename"; "win_dirname";
   "win_splitdrive"; "regex_replace"; "regex_search"; "regex_findall"; "regex_escape";
   "password_hash"; "comment"; "subelements"; "product"; "zip"; "zip_longest"; "json_query";
   "items2dict"; "dict2items"; "groupby"; "selectattr"; "rejectattr"; "extract";
   "symmetric_difference"; "difference"; "intersect"; "union"; "community"; "succeeded"; "failed";
   "changed"; "skipped"; "success"; "failure"; "unreachable"; "human_readable"; "human_to_bytes";
   "shuffle"; "log"; "pow"; "root"; "urlsplit"; "urlencode"; "ansible_native"; "checksum";
   "strftime"; "wordcount"; "xmlattr"].

Definition ident_start (c : ascii) : bool :=
  in_range 65 90 c || in_range 97 122 c || (code c =? 95)%N.
Definition ident_char (c : ascii) : bool := ident_start c || in_range 48 57 c.

(** [[a-zA-Z_][a-zA-Z0-9_]*] at the start of a text: the longest one. *)
Definition ident_prefix (s : string) : option (string * string) :=
  match s with
  | String c _ => if ident_start c then Some (sspan ident_char s) else None
  | "" => None
  end.

Definition is_identifier (s : string) : bool :=
  match s with
  | String c _ => ident_start c && sforall ident_char s
  | "" => false
  end.

(** [_QUOTED_STRING_RE.sub("", text)]: a quote with no partner stays. *)
Fixpoint drop_quoted (inside : option ascii) (s : string) : string :=
  match s with
  | "" => ""
  | String c s' =>
    match inside with
    | Some q => if Ascii.eqb c q then drop_quoted None s' else drop_quoted (Some q) s'
    | None =>
      if (Ascii.eqb c "'" || Ascii.eqb c DQ) && has_char c s' then drop_quoted (Some c) s'
      else String c (drop_quoted None s')
    end
  end.

(** [_DOTTED_ATTR_RE]: the identifiers right after a dot. *)
Fixpoint dotted_attrs (s : string) : list string :=
  match s with
  | "" => []
  | String c s' =>
    ((if Ascii.eqb c "." then option_list (fst <$> ident_prefix s') else []) ++ dotted_attrs s')%list
  end.

(** [_PIPE_FILTER_RE]: the identifiers after a bar and white space. *)
Fixpoint pipe_filters (s : string) : list string :=
  match s with
  | "" => []
  | String c s' =>
    ((if Ascii.eqb c "|" then option_list (fst <$> ident_prefix (lstrip s')) else [])
     ++ pipe_filters s')%list
  end.

(** The maximal runs of word characters. *)
Fixpoint word_runs (s : string) : list string :=
  match s with
  | "" => [""]
  | String c s' =>
    match word_runs s' with
    | [] => []
    | r :: rs => if is_word c then String c r :: rs else "" :: r :: rs
    end
  end.

(** [_BARE_IDENT_RE.findall]: the runs that are identifiers. *)
Definition bare_idents (s : string) : list string := filter (λ r, is_identifier r = true) (word_runs s).

(** [extract_bare_refs] *)
Definition bare_refs (text : string) : list string :=
  let stripped := drop_quoted None text in
  filter (λ i, i ∉ JINJA_BUILTINS ∧ i ∉ dotted_attrs stripped ∧ i ∉ pipe_filters stripped)
    (bare_idents stripped).
Definition extract_bare_refs (texts : list string) : gset string := list_to_set (flat_map bare_refs texts).

(** [_JINJA_VAR_RE.findall]: the texts between two opening braces and the next two closing
    ones; [acc] is the body so far. *)
Fixpoint jinja_bodies (acc : option string) (s : string) : list string :=
  match s with
  | String a (String b s' as s1) =>
    match acc with
    | None => if Ascii.eqb a "{" && Ascii.eqb b "{" then jinja_bodies (Some "") s' else jinja_bodies None s1
    | Some body =>
      if Ascii.eqb a "}" && Ascii.eqb b "}" then body :: jinja_bodies None s'
      else jinja_bodies (Some (body +:+ String a "")) s1
    end
  | _ => []
  end.

(** [extract_jinja_refs] *)
Definition extract_jinja_refs (texts : list string) : gset string :=
  ⋃ ((λ m, extract_bare_refs [strip m]) <$> flat_map (jinja_bodies None) texts).

(** ** Examples *)

Definition reference_example : string :=
  "{{ foo.bar | default(fallback, 'quoted') }} and {{ x['k'] }}".

Lemma reference_example_refs :
  elements (extract_jinja_refs [reference_example]) ≡ₚ ["foo"; "fallback"; "x"].
Proof. vm_compute. apply (bool_decide_unpack _). vm_compute. exact I. Qed.

(** ** Witnesses *)

Module NoLogDemo.

(** A task file included twice: both includes set [no_log], or only the first. *)
Definition shared_task (second : option bool) : ContentGraph SG :=
  build_graph
    [sample_node "play" PLAY 1 9 "";
     with_fields "include_tasks" [] [] None (Some true) (sample_node "inc1" TASK 2 2 "");
     with_fields "include_tasks" [] [] None second (sample_node "inc2" TASK 3 3 "");
     sample_node "shared" TASKFILE 1 9 "";
     with_fields "debug" [("msg", YStr "{{ vault.db_password }}")] [] None None (sample_node "task" TASK 1 1 "")]
    [("play", "inc1", CONTAINS, 0%Z); ("play", "inc2", CONTAINS, 1%Z); ("inc1", "shared", INCLUDE, 0%Z);
     ("inc2", "shared", INCLUDE, 0%Z); ("shared", "task", CONTAINS, 0%Z)].

Definition debug_task : ContentNode :=
  with_fields "debug" [("msg", YStr "{{ vault.db_password }}")] [] None None (sample_node "task" TASK 1 1 "").

Lemma no_log_all_paths_safe_witness :
  protected_in (shared_task (Some true)) "task" (play_scoped_node_ids (shared_task (Some true)) "play") ∧
  no_log_true_in_scope (shared_task None) "task" (Some "play") None true = false.
Proof.
  split; [|vm_compute; reflexivity].
  apply (no_log_all_paths_safe (G := SG) (shared_task (Some true)) "task" debug_task (Some "play") None);
    vm_compute; reflexivity.
Defined.

Lemma no_log_any_path_exact_witness :
  ∃ p t, p ∈ scoped_parent_ids (shared_task None) (play_scoped_node_ids (shared_task None) "play") "task" ∧
    rtc (asks (no_log_local (shared_task None))
          (scoped_parent_ids (shared_task None) (play_scoped_node_ids (shared_task None) "play"))) p t ∧
    no_log_local (shared_task None) t = Some true.
Proof.
  apply (no_log_any_path_exact (G := SG) (shared_task None) "task" debug_task (Some "play") None);
    vm_compute; reflexivity.
Defined.
End NoLogDemo.
