(* ===== verification/ViolationConvert.v ===== *)
(** * Violations on the wire

    [src/apme_engine/daemon/violation_convert.py]: between the violation dictionaries of the
    validators and the protocol's [Violation] message, with the version table of
    [src/apme_engine/version_defaults.py] that it consults.

    A dictionary is a [YAMLDict]; an enum member that inherits from [str] is its value.  The
    numbers of the protocol's enums are those of [proto/apme/v1/common.proto].  [Malformed]
    is an exception; [int()] of a float is outside the model ([Untyped]).  The order of the
    keys of a protocol map is not observed. *)

From stdpp Require Import base list sets strings pretty.
From Stdlib Require Import Ascii String.
From S2P Require Import Prelude PyStr Yaml PyPath PyNum PyRe Sensitivity Severity Violation NxGraph ContentNode ContentGraph GraphSerial.

#[local] Open Scope string_scope.
#[local] Notation length := List.length.
#[local] Open Scope res_scope.

Definition METADATA_KEYS : list string :=
  [
   "resolved_fqcn"; "original_module"; "fqcn"; "with_key"; "redirect_chain"; "removal_msg";
   "builtin_alternative"; "collection_fqcn"; "collection_version"; "cve_id"; "dep_package";
   "dep_installed_version"; "dep_fix_versions"; "ai_reason"; "ai_suggestion";
   "ansible_core_version"; "variables_used"; "variable_set"; "inbound_src"].

Definition VERSION_DEFAULTS : list (string * string) :=
  [
   ("M001", ">=2.9"); ("M002", ">=2.9"); ("M003", ">=2.9"); ("M004", ">=2.9"); ("M048", ">=2.9");
   ("M010", ">=2.18"); ("M005", ">=2.19"); ("M006", ">=2.19"); ("M008", ">=2.19");
   ("M009", ">=2.19"); ("M011", ">=2.19"); ("M018", ">=2.21"); ("M023", ">=2.22");
   ("M031", ">=2.22"); ("M014", ">=2.24"); ("M015", ">=2.23"); ("M016", ">=2.23");
   ("M017", ">=2.23"); ("M019", ">=2.23"); ("M020", ">=2.23"); ("M021", ">=2.23");
   ("M022", ">=2.23"); ("M024", ">=2.24"); ("M025", ">=2.23"); ("M026", ">=2.23");
   ("M027", ">=2.23"); ("M028", ">=2.23"); ("M029", ">=2.23"); ("M030", ">=2.23");
   ("M047", ">=2.23")].

Definition get_version_spec_str (rule_id : string) : string := default "" (dget rule_id VERSION_DEFAULTS).

(** ** Enums: values and protocol numbers *)

Definition REMEDIATION_CLASS_TO_PROTO : list (string * Z) :=
  [("auto-fixable", 1%Z); ("ai-candidate", 2%Z); ("manual-review", 3%Z)].

Definition PROTO_TO_REMEDIATION_CLASS : list (Z * string) :=
  [(0%Z, "ai-candidate"); (1%Z, "auto-fixable"); (2%Z, "ai-candidate"); (3%Z, "manual-review")].

Definition RESOLUTION_TO_PROTO : list (string * Z) :=
  [("unresolved", 1%Z); ("transform-failed", 2%Z); ("oscillation", 3%Z); ("ai-proposed", 4%Z);
   ("ai-failed", 5%Z); ("ai-low-confidence", 6%Z); ("user-rejected", 7%Z); ("needs-cross-file", 8%Z);
   ("manual", 9%Z); ("informational", 10%Z); ("ai-abstained", 11%Z)].

Definition PROTO_TO_RESOLUTION : list (Z * string) :=
  (0%Z, "unresolved") :: ((λ p, (p.2, p.1)) <$> RESOLUTION_TO_PROTO).

Definition SCOPE_TO_PROTO : list (string * Z) :=
  [("task", 1%Z); ("block", 2%Z); ("play", 3%Z); ("playbook", 4%Z); ("role", 5%Z); ("inventory", 6%Z);
   ("collection", 7%Z)].

Definition PROTO_TO_SCOPE : list (Z * string) := (0%Z, "task") :: ((λ p, (p.2, p.1)) <$> SCOPE_TO_PROTO).

(** ** The message *)

Inductive line_field := NoLine | Line (n : Z) | LineRange (start end_ : Z).

Record ProtoViolation := MkPV {
  pv_rule_id : string; pv_severity : Z; pv_message : string; pv_file : string; pv_line : line_field;
  pv_path : string; pv_remediation_class : Z; pv_resolution : Z; pv_metadata : list (string * string);
  pv_scope : Z; pv_source : string; pv_affected : Z; pv_original_yaml : string; pv_fixed_yaml : string;
  pv_co_fixes : list string; pv_node_line_start : Z; pv_node_type : string;
}.

(** Assigning an [int32] field. *)
Definition int32 (z : Z) : res Z :=
  if ((-2147483648 <=? z) && (z <=? 2147483647))%Z then inr z else inl Malformed.

(** [int(x)] *)
Definition to_int (x : yval) : res Z :=
  match x with
  | YInt z => inr z
  | YBool b => inr (if b then 1%Z else 0%Z)
  | YStr s => match py_int s with Some z => inr z | None => inl Malformed end
  | YFloat _ => inl Untyped
  | _ => inl Malformed
  end.

(** [table.get(str(v.get(k) or dflt), n)] *)
Definition enum_to_proto (table : list (string * Z)) (k dflt : string) (n : Z) (v : YAMLDict) : Z :=
  default n (dget (match dget k v with Some x => if ytruthy x then ystr x else dflt | None => dflt end) table).

(** [_resolve_severity] *)
Definition resolve_severity (v : YAMLDict) : Z :=
  match dget "severity" v with
  | Some (YInt z) => severity_to_proto (severity_from_proto z)
  | Some (YBool b) => severity_to_proto (severity_from_proto (if b then 1%Z else 0%Z))
  | None | Some YNull => severity_to_proto (get_severity (str_or "rule_id" v))
  | Some x => severity_to_proto (severity_from_label (ystr x))
  end.

(** The text form of a line: errors are ignored. *)
Definition line_of_text (text : string) : line_field :=
  match split_on "-" (lstrip_char "L" text) with
  | a :: b :: _ =>
    match py_int a, py_int b with
    | Some s, Some e => match int32 s, int32 e with inr s, inr e => LineRange s e | _, _ => NoLine end
    | _, _ => NoLine
    end
  | [a] => match py_int a with
           | Some n => match int32 n with inr n => Line n | _ => NoLine end
           | None => NoLine
           end
  | [] => NoLine
  end.

Definition line_to_proto (x : option yval) : res line_field :=
  match x with
  | Some (YList (a :: b :: _)) =>
    s <- to_int a; e <- to_int b; s <- int32 s; e <- int32 e; inr (LineRange s e)
  | Some (YInt n) => n <- int32 n; inr (Line n)
  | Some (YBool b) => inr (Line (if b then 1%Z else 0%Z))
  | Some (YStr "") => inr NoLine
  | Some (YStr s) => inr (line_of_text s)
  | _ => inr NoLine
  end.

(** [affected_children], when it is a positive integer. *)
Definition affected_to_proto (x : option yval) : res Z :=
  match x with
  | Some (YInt n) => if (0 <? n)%Z then int32 n else inr 0%Z
  | Some (YBool true) => inr 1%Z
  | _ => inr 0%Z
  end.

Definition co_fixes_to_proto (x : option yval) : list string :=
  match x with Some (YList l) => ystr <$> l | _ => [] end.

Section Convert.
Context `{Json}.

(** One metadata entry. *)
Definition metadata_to_proto (v : YAMLDict) (key : string) : option (string * string) :=
  match dget key v with
  | None | Some YNull => None
  | Some x =>
    Some (key,
      if decide (key ∈ AUDIT_JSON_METADATA_KEYS) then
        serialize_audit_metadata_value
          (match x with YStr s => default x (json_loads s) | _ => x end) key
      else match x with YList l => sjoin "," (ystr <$> l) | _ => ystr x end)
  end.

(** The default version specifier, when there is none. *)
Definition with_version (rule_id : string) (m : list (string * string)) : list (string * string) :=
  if decide (default "" (dget "ansible_core_version" m) = "") then
    let spec := get_version_spec_str rule_id in
    if decide (spec = "") then m else dset "ansible_core_version" spec m
  else m.

Definition violation_dict_to_proto (v : YAMLDict) : res ProtoViolation :=
  nls <- match dget "node_line_start" v with
         | Some x => if ytruthy x then to_int x else inr 0%Z
         | None => inr 0%Z
         end;
  nls <- int32 nls;
  line <- line_to_proto (dget "line" v);
  affected <- affected_to_proto (dget "affected_children" v);
  let rule_id := str_or "rule_id" v in
  inr (MkPV rule_id (resolve_severity v) (str_or "message" v) (str_or "file" v) line (str_or "path" v)
         (enum_to_proto REMEDIATION_CLASS_TO_PROTO "remediation_class" "ai-candidate" 2 v)
         (enum_to_proto RESOLUTION_TO_PROTO "remediation_resolution" "unresolved" 1 v)
         (with_version rule_id (omap (metadata_to_proto v) METADATA_KEYS))
         (enum_to_proto SCOPE_TO_PROTO "scope" "task" 1 v)
         (str_or "source" v) affected (str_or "original_yaml" v) (str_or "fixed_yaml" v)
         (co_fixes_to_proto (dget "co_fixes" v)) nls (str_or "node_type" v)).

(** One metadata entry back. *)
Definition metadata_to_dict (p : string * string) : option (string * yval) :=
  let '(key, val) := p in
  if decide (key ∈ METADATA_KEYS ∧ val ≠ "") then
    Some (key,
      if decide (key = "redirect_chain") then YList (YStr <$> split_on "," val)
      else if decide (key ∈ AUDIT_JSON_METADATA_KEYS) then default (YStr val) (json_loads val)
      else YStr val)
  else None.

(** [a or b or c or ""] *)
Definition first_nonempty (l : list (option string)) : string :=
  default "" (mjoin (find (λ o, match o with Some s => negb (String.eqb s "") | None => false end) l)).

Definition violation_proto_to_dict (p : ProtoViolation) : YAMLDict :=
  let m := pv_metadata p in
  let module_fqcn := first_nonempty [dget "resolved_fqcn" m; dget "original_module" m; dget "fqcn" m] in
  ([("rule_id", YStr (pv_rule_id p));
    ("severity", YStr (severity_to_label (severity_from_proto (pv_severity p))));
    ("message", YStr (pv_message p)); ("file", YStr (pv_file p));
    ("line", match pv_line p with
             | NoLine => YNull
             | Line n => YInt n
             | LineRange s e => YList [YInt s; YInt e]
             end);
    ("path", YStr (pv_path p));
    ("remediation_class", YStr (default "ai-candidate" (dget (pv_remediation_class p) PROTO_TO_REMEDIATION_CLASS)));
    ("remediation_resolution", YStr (default "unresolved" (dget (pv_resolution p) PROTO_TO_RESOLUTION)));
    ("scope", YStr (default "task" (dget (pv_scope p) PROTO_TO_SCOPE)));
    ("source", YStr (pv_source p)); ("original_yaml", YStr (pv_original_yaml p));
    ("fixed_yaml", YStr (pv_fixed_yaml p)); ("node_line_start", YInt (pv_node_line_start p));
    ("node_type", YStr (pv_node_type p))]
   ++ (match pv_co_fixes p with [] => [] | l => [("co_fixes", YList (YStr <$> l))] end)
   ++ (if (0 <? pv_affected p)%Z then [("affected_children", YInt (pv_affected p))] else [])
   ++ (if decide (module_fqcn = "") then [] else [("module_fqcn", YStr module_fqcn)])
   ++ omap metadata_to_dict m)%list.

(** ** Round trip *)

Lemma str_or_str k v s : dget k v = Some (YStr s) → str_or k v = s.
Proof. unfold str_or. intros ->. simpl. destruct (String.eqb_spec s ""); by subst. Qed.

(** Entries of the dictionary outside the metadata. *)
Definition base_entries (p : ProtoViolation) : YAMLDict :=
  take 14 (violation_proto_to_dict p).

Definition extra_entries (p : ProtoViolation) : YAMLDict :=
  let m := pv_metadata p in
  let module_fqcn := first_nonempty [dget "resolved_fqcn" m; dget "original_module" m; dget "fqcn" m] in
  ((match pv_co_fixes p with [] => [] | l => [("co_fixes", YList (YStr <$> l))] end)
   ++ (if (0 <? pv_affected p)%Z then [("affected_children", YInt (pv_affected p))] else [])
   ++ (if decide (module_fqcn = "") then [] else [("module_fqcn", YStr module_fqcn)]))%list.

Lemma proto_to_dict_split p :
  violation_proto_to_dict p
  = (base_entries p ++ extra_entries p ++ omap metadata_to_dict (pv_metadata p))%list.
Proof. unfold extra_entries. rewrite <- !app_assoc. reflexivity. Qed.

Lemma metadata_to_dict_key p e : metadata_to_dict p = Some e → e.1 = p.1 ∧ p.1 ∈ METADATA_KEYS.
Proof. destruct p as [k v]. unfold metadata_to_dict. case_decide as Hk; [|done]. intros [= <-]. by destruct Hk. Qed.

Lemma dget_metadata_outside k m : k ∉ METADATA_KEYS → dget k (omap metadata_to_dict m) = None.
Proof.
  intros Hk. apply dget_None. intros ([k' x] & -> & Hin)%list_elem_of_fmap.
  apply list_elem_of_omap in Hin as (q & _ & [Hq Hin]%metadata_to_dict_key). simpl in *. congruence.
Qed.

(** The value under a metadata key. *)
Definition dict_value (key val : string) : yval :=
  if decide (key = "redirect_chain") then YList (YStr <$> split_on "," val)
  else if decide (key ∈ AUDIT_JSON_METADATA_KEYS) then default (YStr val) (json_loads val)
  else YStr val.

(** An entry that is there and not empty. *)
Definition filled (o : option string) : option string :=
  match o with Some s => if decide (s = "") then None else Some s | None => None end.

Lemma filled_nonempty o s : filled o = Some s → s ≠ "".
Proof. destruct o as [t|]; [|done]. cbn [filled]. case_decide; [done|]. by intros [= <-]. Qed.

Lemma dget_metadata k m :
  Forall (λ p, p.1 ∈ METADATA_KEYS) m → NoDup m.*1 →
  dget k (omap metadata_to_dict m) = dict_value k <$> filled (dget k m).
Proof.
  induction 1 as [|[k' v] m Hk' Hf IH]; [done|]. csimpl. intros [Hn Hnd]%NoDup_cons. unfold metadata_to_dict at 1.
  destruct (decide (v = "")) as [->|Hv].
  - rewrite decide_False by tauto. rewrite IH by done. case_decide as Hk; [|done]. subst k'.
    by rewrite (proj2 (dget_None k m)).
  - rewrite decide_True by done. csimpl. case_decide as Hk; [|by apply IH]. subst k'. cbn [filled fmap option_fmap option_map].
    by rewrite (decide_False (P := v = "")).
Qed.

Lemma metadata_not_base p k : k ∈ METADATA_KEYS → dget k (base_entries p) = None.
Proof.
  intros Hk. apply dget_None. intros Hin.
  assert (Forall (λ k, k ∉ ["rule_id"; "severity"; "message"; "file"; "line"; "path"; "remediation_class";
    "remediation_resolution"; "scope"; "source"; "original_yaml"; "fixed_yaml"; "node_line_start";
    "node_type"]) METADATA_KEYS) as Hd by (apply (bool_decide_unpack _); vm_compute; exact I).
  rewrite Forall_forall in Hd. apply (Hd k Hk). exact Hin.
Qed.

Lemma metadata_not_extra p k : k ∈ METADATA_KEYS → dget k (extra_entries p) = None.
Proof.
  intros Hk. apply dget_None. intros Hin.
  assert (Forall (λ k, k ∉ ["co_fixes"; "affected_children"; "module_fqcn"]) METADATA_KEYS) as Hd
    by (apply (bool_decide_unpack _); vm_compute; exact I).
  rewrite Forall_forall in Hd. apply (Hd k Hk). unfold extra_entries in Hin.
  rewrite !fmap_app, !elem_of_app in Hin.
  destruct Hin as [Hin|[Hin|Hin]]; revert Hin; repeat case_match; csimpl; set_solver.
Qed.

Lemma dget_proto_metadata p k :
  Forall (λ p, p.1 ∈ METADATA_KEYS) (pv_metadata p) → NoDup (pv_metadata p).*1 → k ∈ METADATA_KEYS →
  dget k (violation_proto_to_dict p) = dict_value k <$> filled (dget k (pv_metadata p)).
Proof.
  intros Hm Hnd Hk. rewrite proto_to_dict_split, !dget_app, metadata_not_base, metadata_not_extra by done.
  by apply dget_metadata.
Qed.

Lemma dget_proto_extra p k :
  k ∉ METADATA_KEYS → dget k (base_entries p) = None →
  dget k (violation_proto_to_dict p) = dget k (extra_entries p).
Proof.
  intros Hk Hb. rewrite proto_to_dict_split, !dget_app, Hb, dget_metadata_outside by done.
  by destruct (dget k (extra_entries p)).
Qed.

Definition is_int32 (z : Z) : Prop := (-2147483648 <= z <= 2147483647)%Z.

Lemma int32_ok z : is_int32 z → int32 z = inr z.
Proof.
  intros [? ?]. unfold int32. by rewrite (proj2 (Z.leb_le (-2147483648) z)), (proj2 (Z.leb_le z 2147483647)).
Qed.

Lemma int32_inr z n : int32 z = inr n → n = z ∧ is_int32 n.
Proof.
  unfold int32. case_match eqn:E; [|done]. intros [= <-]. apply andb_true_iff in E as [?%Z.leb_le ?%Z.leb_le]. done.
Qed.

Definition line_ok (l : line_field) : Prop :=
  match l with NoLine => True | Line n => is_int32 n | LineRange s e => is_int32 s ∧ is_int32 e end.

(** What holds of every message that is made from a dictionary. *)
Record wire_ok (p : ProtoViolation) : Prop := {
  wo_severity : (0 <= pv_severity p <= 6)%Z;
  wo_class : (1 <= pv_remediation_class p <= 3)%Z;
  wo_resolution : (1 <= pv_resolution p <= 11)%Z;
  wo_scope : (1 <= pv_scope p <= 7)%Z;
  wo_line : line_ok (pv_line p);
  wo_start : is_int32 (pv_node_line_start p);
  wo_affected : (0 <= pv_affected p <= 2147483647)%Z;
  wo_keys : Forall (λ p, p.1 ∈ METADATA_KEYS) (pv_metadata p);
  wo_nodup : NoDup (pv_metadata p).*1;
  wo_version : get_version_spec_str (pv_rule_id p) = "" ∨
               is_Some (filled (dget "ansible_core_version" (pv_metadata p)));
}.

(** *** Messages made from dictionaries *)

Lemma rbind_inr_inv {A B} (r : res A) (f : A → res B) y : rbind r f = inr y → ∃ x, r = inr x ∧ f x = inr y.
Proof. destruct r; [done|]. eauto. Qed.

Lemma line_of_text_ok t : line_ok (line_of_text t).
Proof.
  unfold line_of_text. repeat case_match; try done; simpl;
    repeat match goal with E : int32 _ = inr _ |- _ => apply int32_inr in E as [_ E] end; done.
Qed.

Lemma line_to_proto_ok x l : line_to_proto x = inr l → line_ok l.
Proof.
  destruct x as [[|bo|n|f|t|xs|d]|]; simpl; try (by intros [= <-]).
  - intros [= <-]. by destruct bo.
  - intros (n' & E & [= <-])%rbind_inr_inv. by apply int32_inr in E as [_ E].
  - destruct t; intros [= <-]; [done|apply line_of_text_ok].
  - destruct xs as [|a [|c xs]]; [by intros [= <-]..|].
    intros (s0 & _ & (e0 & _ & (s1 & Hs & (e1 & He & [= <-])%rbind_inr_inv)%rbind_inr_inv)%rbind_inr_inv)%rbind_inr_inv.
    apply int32_inr in Hs as [_ Hs], He as [_ He]. done.
Qed.

Lemma affected_to_proto_ok x n : affected_to_proto x = inr n → (0 <= n <= 2147483647)%Z.
Proof.
  destruct x as [[|[]|z| | | |]|]; simpl; try (intros [= <-]; lia).
  destruct (Z.ltb_spec 0 z); [|intros [= <-]; lia]. intros [-> [? ?]]%int32_inr. lia.
Qed.

Lemma enum_to_proto_in (table : list (string * Z)) k dflt n v (lo hi : Z) :
  Forall (λ z, lo <= z <= hi)%Z table.*2 → (lo <= n <= hi)%Z → (lo <= enum_to_proto table k dflt n v <= hi)%Z.
Proof.
  intros Hf Hn. unfold enum_to_proto. set (key := match dget k v with Some _ => _ | None => _ end). clearbody key.
  destruct (dget key table) as [z|] eqn:E; [|done]. rewrite Forall_forall in Hf. apply Hf.
  apply list_elem_of_fmap. exists (key, z). split; [done|]. by apply dget_Some_elem.
Qed.

Lemma severity_range s : (0 <= severity_to_proto s <= 6)%Z.
Proof. destruct s; vm_compute; split; discriminate. Qed.

Lemma resolve_severity_range v : (0 <= resolve_severity v <= 6)%Z.
Proof. unfold resolve_severity. repeat case_match; apply severity_range. Qed.

Lemma metadata_keys_made v ks :
  Forall (λ p, p.1 ∈ ks) (omap (metadata_to_proto v) ks) ∧
  (NoDup ks → NoDup (omap (metadata_to_proto v) ks).*1).
Proof.
  assert (Hk : ∀ k q, metadata_to_proto v k = Some q → q.1 = k)
    by (intros k q; unfold metadata_to_proto; repeat case_match; by intros [= <-]).
  assert (Hin : ∀ ks k, k ∈ (omap (metadata_to_proto v) ks).*1 → k ∈ ks).
  { clear ks. intros ks k ([k' x] & -> & (k0 & Hin & E)%list_elem_of_omap)%list_elem_of_fmap. by rewrite (Hk _ _ E). }
  split.
  - apply Forall_forall. intros q Hq. apply Hin, list_elem_of_fmap. by exists q.
  - induction 1 as [|k ks Hn Hnd IH]; csimpl; [constructor|].
    destruct (metadata_to_proto v k) as [q|] eqn:E; [|done]. csimpl. constructor; [|done].
    rewrite (Hk _ _ E). intros ?%Hin. done.
Qed.

Lemma with_version_ok rule_id m :
  Forall (λ p, p.1 ∈ METADATA_KEYS) m → NoDup m.*1 →
  Forall (λ p, p.1 ∈ METADATA_KEYS) (with_version rule_id m) ∧ NoDup (with_version rule_id m).*1 ∧
  (get_version_spec_str rule_id = "" ∨ is_Some (filled (dget "ansible_core_version" (with_version rule_id m)))).
Proof.
  intros Hk Hnd. unfold with_version. destruct (decide (default _ _ = _)) as [Hv|Hv].
  - case_decide as Hs; [by split_and!; [..|left]|]. split_and!; [|by apply dset_NoDup|right].
    + destruct (decide ("ansible_core_version" ∈ m.*1)) as [Hin|Hin].
      * apply (Forall_fmap fst (λ k, k ∈ METADATA_KEYS)). rewrite (dkeys_dset_in _ _ _ Hin).
        by apply (Forall_fmap fst (λ k, k ∈ METADATA_KEYS)).
      * rewrite (dkeys_dset_notin _ _ _ Hin). apply Forall_app. split; [done|]. constructor; [|constructor].
        apply (bool_decide_unpack _). vm_compute. exact I.
    + rewrite dget_dset_eq. cbn [filled]. by rewrite decide_False.
  - split_and!; [done..|right]. destruct (dget _ m); [|done]. cbn [filled default from_option id] in *. by rewrite decide_False.
Qed.

Lemma made_wire_ok v p : violation_dict_to_proto v = inr p → wire_ok p.
Proof.
  unfold violation_dict_to_proto.
  intros (z & _ & (n & Hn & (l & Hl & (a & Ha & E)%rbind_inr_inv)%rbind_inr_inv)%rbind_inr_inv)%rbind_inr_inv.
  cbv zeta in E. apply (inj inr) in E. subst p.
  destruct (metadata_keys_made v METADATA_KEYS) as [Hk Hnd].
  assert (NoDup METADATA_KEYS) as Hm by (apply (bool_decide_unpack _); vm_compute; exact I).
  destruct (with_version_ok (str_or "rule_id" v) _ Hk (Hnd Hm)) as (Hk' & Hnd' & Hv').
  split; cbn [pv_severity pv_remediation_class pv_resolution pv_scope pv_line pv_node_line_start pv_affected
    pv_metadata pv_rule_id]; try done.
  - apply resolve_severity_range.
  - apply enum_to_proto_in; [apply (bool_decide_unpack _); vm_compute; exact I|lia].
  - apply enum_to_proto_in; [apply (bool_decide_unpack _); vm_compute; exact I|lia].
  - apply enum_to_proto_in; [apply (bool_decide_unpack _); vm_compute; exact I|lia].
  - by eapply line_to_proto_ok.
  - by apply int32_inr in Hn as [_ Hn].
  - by eapply affected_to_proto_ok.
Qed.

(** *** And back *)

Lemma severity_wire z : (0 <= z <= 6)%Z →
  severity_to_proto (severity_from_label (severity_to_label (severity_from_proto z))) = z.
Proof.
  intros Hz. assert (z ∈ [0; 1; 2; 3; 4; 5; 6]%Z) as Hin.
  { assert (z = 0 ∨ z = 1 ∨ z = 2 ∨ z = 3 ∨ z = 4 ∨ z = 5 ∨ z = 6)%Z by lia. set_solver. }
  clear Hz. revert z Hin. rewrite <- Forall_forall. apply (bool_decide_unpack _). vm_compute. exact I.
Qed.

(** A number whose name leads back to it. *)
Lemma enum_wire (table : list (string * Z)) (back : list (Z * string)) k dflt dn n (lo hi : Z) z v :
  Forall (λ z, default n (dget (let s := default dn (dget z back) in if String.eqb s "" then dflt else s) table) = z)
    (seqZ lo (hi - lo + 1)) →
  (lo <= z <= hi)%Z → dget k v = Some (YStr (default dn (dget z back))) →
  enum_to_proto table k dflt n v = z.
Proof.
  intros Hf Hz Hk. unfold enum_to_proto. rewrite Hk. rewrite Forall_forall in Hf.
  specialize (Hf z). rewrite elem_of_seqZ in Hf. specialize (Hf ltac:(lia)). cbv zeta in Hf.
  cbn [ytruthy ystr]. by destruct (String.eqb_spec (default dn (dget z back)) "") as [E|E].
Qed.

Lemma metadata_to_proto_back p k :
  wire_ok p → k ∈ METADATA_KEYS → k ∉ AUDIT_JSON_METADATA_KEYS →
  metadata_to_proto (violation_proto_to_dict p) k = (λ v, (k, v)) <$> filled (dget k (pv_metadata p)).
Proof.
  intros Hw Hk Ha. unfold metadata_to_proto.
  rewrite dget_proto_metadata by (done || apply Hw). destruct (filled (dget k (pv_metadata p))) as [v|]; [|done].
  cbn [fmap option_fmap option_map]. unfold dict_value.
  destruct (decide (k = "redirect_chain")) as [->|Hr].
  - rewrite decide_False by done.
    rewrite <- list_fmap_compose. do 2 f_equal. rewrite list_fmap_id. apply (join_split "," v).
  - by rewrite !decide_False by done.
Qed.

Lemma dget_omap_made d k ks :
  dget k (omap (metadata_to_proto d) ks) = if decide (k ∈ ks) then snd <$> metadata_to_proto d k else None.
Proof.
  assert (Hk : ∀ k q, metadata_to_proto d k = Some q → q.1 = k)
    by (intros k' q; unfold metadata_to_proto; repeat case_match; by intros [= <-]).
  induction ks as [|k' ks IH]; [done|]. csimpl. destruct (metadata_to_proto d k') as [[j x]|] eqn:E.
  - pose proof (Hk _ _ E) as Hj. simpl in Hj. subst j. csimpl. rewrite IH. destruct (decide (k = k')) as [->|Hne].
    + by rewrite (decide_True (P := k' ∈ k' :: ks)), E by by left.
    + destruct (decide (k ∈ ks)); [by rewrite (decide_True (P := k ∈ k' :: ks)) by by right|].
      by rewrite (decide_False (P := k ∈ k' :: ks)) by by intros [?|?]%elem_of_cons.
  - rewrite IH. destruct (decide (k = k')) as [->|Hne].
    + rewrite E. repeat case_decide; done.
    + destruct (decide (k ∈ ks)); [by rewrite (decide_True (P := k ∈ k' :: ks)) by by right|].
      by rewrite (decide_False (P := k ∈ k' :: ks)) by by intros [?|?]%elem_of_cons.
Qed.

Lemma metadata_back p k :
  wire_ok p → k ∉ AUDIT_JSON_METADATA_KEYS →
  dget k (with_version (pv_rule_id p) (omap (metadata_to_proto (violation_proto_to_dict p)) METADATA_KEYS))
  = filled (dget k (pv_metadata p)).
Proof.
  intros Hw Ha.
  assert (∀ k, k ∉ AUDIT_JSON_METADATA_KEYS →
    dget k (omap (metadata_to_proto (violation_proto_to_dict p)) METADATA_KEYS) = filled (dget k (pv_metadata p))) as Hm.
  { clear k Ha. intros k Ha. rewrite dget_omap_made. case_decide as Hk.
    - rewrite metadata_to_proto_back by done. by destruct (filled _).
    - rewrite (proj2 (dget_None k (pv_metadata p))); [done|]. intros (q & -> & Hin)%list_elem_of_fmap.
      pose proof (wo_keys p Hw) as Hf. rewrite Forall_forall in Hf. by apply Hk, Hf. }
  unfold with_version. rewrite (Hm "ansible_core_version") by (apply (bool_decide_unpack _); vm_compute; exact I).
  case_decide as Hv; [|by apply Hm]. destruct (wo_version p Hw) as [->|[x Hx]]; [by apply Hm|].
  rewrite Hx in Hv. simpl in Hv. subst x. by apply filled_nonempty in Hx.
Qed.

(** The same message: all fields, and every metadata entry that is not empty and not one
    of the three audit entries in JSON. *)
Record same_message (p q : ProtoViolation) : Prop := {
  sm_fields :
    MkPV (pv_rule_id q) (pv_severity q) (pv_message q) (pv_file q) (pv_line q) (pv_path q)
      (pv_remediation_class q) (pv_resolution q) [] (pv_scope q) (pv_source q) (pv_affected q)
      (pv_original_yaml q) (pv_fixed_yaml q) (pv_co_fixes q) (pv_node_line_start q) (pv_node_type q)
    = MkPV (pv_rule_id p) (pv_severity p) (pv_message p) (pv_file p) (pv_line p) (pv_path p)
      (pv_remediation_class p) (pv_resolution p) [] (pv_scope p) (pv_source p) (pv_affected p)
      (pv_original_yaml p) (pv_fixed_yaml p) (pv_co_fixes p) (pv_node_line_start p) (pv_node_type p);
  sm_metadata : ∀ k, k ∉ AUDIT_JSON_METADATA_KEYS → dget k (pv_metadata q) = filled (dget k (pv_metadata p));
}.

Lemma extra_values p :
  (0 <= pv_affected p)%Z →
  co_fixes_to_proto (dget "co_fixes" (violation_proto_to_dict p)) = pv_co_fixes p ∧
  affected_to_proto (dget "affected_children" (violation_proto_to_dict p))
    = (if (0 <? pv_affected p)%Z then int32 (pv_affected p) else inr 0%Z).
Proof.
  intros Ha. rewrite !dget_proto_extra;
    [|apply (bool_decide_unpack _); vm_compute; exact I|done|apply (bool_decide_unpack _); vm_compute; exact I|done].
  unfold extra_entries. split.
  - destruct (pv_co_fixes p) as [|c l].
    + destruct (0 <? pv_affected p)%Z, (decide _); done.
    + rewrite dget_app. change (dget "co_fixes" [("co_fixes", ?x)]) with (Some x). unfold co_fixes_to_proto.
      rewrite <- list_fmap_compose. by rewrite list_fmap_id.
  - rewrite !dget_app. destruct (pv_co_fixes p), (0 <? pv_affected p)%Z eqn:E, (decide _); simpl;
      by rewrite ?E.
Qed.

(** C32: Violations survive the wire: whatever dictionary a message was made from, the message
    read into a dictionary and converted again succeeds and gives a message with the same
    severity, classes, scope, line or line range, co-fixes and texts, and with the same
    metadata, except that entries with an empty value are dropped; the three audit entries
    that hold JSON text ([variables_used], [variable_set], [inbound_src]) are left out. *)
Theorem violation_wire_roundtrip v p :
  violation_dict_to_proto v = inr p →
  ∃ q, violation_dict_to_proto (violation_proto_to_dict p) = inr q ∧ same_message p q.
Proof.
  intros Hw%made_wire_ok. destruct (extra_values p) as [Hco Haf]; [apply Hw|].
  unfold violation_dict_to_proto.
  change (dget "node_line_start" (violation_proto_to_dict p)) with (Some (YInt (pv_node_line_start p))).
  change (dget "line" (violation_proto_to_dict p)) with
    (Some match pv_line p with
          | NoLine => YNull | Line n => YInt n | LineRange s e => YList [YInt s; YInt e] end).
  rewrite Haf, Hco.
  assert (line_to_proto (Some match pv_line p with
            | NoLine => YNull | Line n => YInt n | LineRange s e => YList [YInt s; YInt e] end)
          = inr (pv_line p)) as ->.
  { pose proof (wo_line p Hw) as Hl. destruct (pv_line p) as [|n|s e]; simpl in *; [done|by rewrite int32_ok|].
    destruct Hl. by rewrite !int32_ok. }
  assert ((if ytruthy (YInt (pv_node_line_start p)) then to_int (YInt (pv_node_line_start p)) else inr 0%Z)
          = inr (pv_node_line_start p)) as ->.
  { cbn [ytruthy to_int]. by destruct (Z.eqb_spec (pv_node_line_start p) 0) as [->|?]. }
  rewrite rbind_inr, (int32_ok _ (wo_start p Hw)), !rbind_inr.
  assert ((if (0 <? pv_affected p)%Z then int32 (pv_affected p) else inr 0%Z) = inr (pv_affected p)) as ->.
  { pose proof (wo_affected p Hw). destruct (Z.ltb_spec 0 (pv_affected p)); [|f_equal; lia].
    apply int32_ok. unfold is_int32. lia. }
  rewrite rbind_inr. eexists. split; [reflexivity|]. split.
  - cbn [pv_rule_id pv_severity pv_message pv_file pv_line pv_path pv_remediation_class pv_resolution
      pv_scope pv_source pv_affected pv_original_yaml pv_fixed_yaml pv_co_fixes pv_node_line_start pv_node_type].
    rewrite (str_or_str "rule_id" _ (pv_rule_id p)), (str_or_str "message" _ (pv_message p)),
      (str_or_str "file" _ (pv_file p)), (str_or_str "path" _ (pv_path p)),
      (str_or_str "source" _ (pv_source p)), (str_or_str "original_yaml" _ (pv_original_yaml p)),
      (str_or_str "fixed_yaml" _ (pv_fixed_yaml p)), (str_or_str "node_type" _ (pv_node_type p)) by done.
    f_equal.
    + unfold resolve_severity. change (dget "severity" (violation_proto_to_dict p)) with
        (Some (YStr (severity_to_label (severity_from_proto (pv_severity p))))).
      cbn [ystr]. apply severity_wire, Hw.
    + eapply (enum_wire _ PROTO_TO_REMEDIATION_CLASS _ _ "ai-candidate" _ 1 3); [|apply Hw|reflexivity].
      apply (bool_decide_unpack _). vm_compute. exact I.
    + eapply (enum_wire _ PROTO_TO_RESOLUTION _ _ "unresolved" _ 1 11); [|apply Hw|reflexivity].
      apply (bool_decide_unpack _). vm_compute. exact I.
    + eapply (enum_wire _ PROTO_TO_SCOPE _ _ "task" _ 1 7); [|apply Hw|reflexivity].
      apply (bool_decide_unpack _). vm_compute. exact I.
  - cbn [pv_metadata]. rewrite (str_or_str "rule_id" _ (pv_rule_id p)) by done. intros k Hk. by apply metadata_back.
Qed.
End Convert.

(** ** Examples *)

Module ConvertDemo.
(** JSON texts for the values the example needs. *)
Definition demo_entries : yval := YList [YDict [("name", YStr "app_port"); ("value", YStr REDACTED)]].

#[export] Instance demo_json : Json := {|
  json_dumps x := match x with YList [YDict [(a, YStr n); (b, YStr v)]] => "[{" +:+ n +:+ "}]" | _ => "?" end;
  json_loads s := if decide (s = "[{app_port}]") then Some demo_entries else None;
|}.

(** A violation whose removal message is empty. *)
Definition reported : YAMLDict :=
  [("rule_id", YStr "M014"); ("severity", YStr "high"); ("message", YStr "use ansible_facts"); ("file", YStr "site.yml");
   ("line", YList [YInt 3; YInt 5]); ("path", YStr "site.yml/plays[0]/tasks[0]"); ("removal_msg", YStr "");
   ("redirect_chain", YList [YStr "a.b.c"; YStr "d.e.f"]); ("variable_set", demo_entries);
   ("resolved_fqcn", YStr "ansible.builtin.debug"); ("co_fixes", YList [YStr "L007"]); ("affected_children", YInt 2)].

Definition sent : res ProtoViolation := violation_dict_to_proto reported.

Lemma violation_wire_roundtrip_witness :
  ∃ p q, sent = inr p ∧ violation_dict_to_proto (violation_proto_to_dict p) = inr q ∧ pv_line q = LineRange 3 5 ∧
    dget "removal_msg" (pv_metadata p) = Some "" ∧ dget "removal_msg" (pv_metadata q) = None ∧
    dget "ansible_core_version" (pv_metadata q) = Some ">=2.24".
Proof.
  eexists. destruct (violation_wire_roundtrip reported _ eq_refl) as (q & Hq & [Hf Hm]). exists q.
  split; [vm_compute; reflexivity|]. split; [exact Hq|]. split; [by injection Hf|]. split; [vm_compute; reflexivity|].
  split; (rewrite Hm; [vm_compute; reflexivity|apply (bool_decide_unpack _); vm_compute; exact I]).
Defined.

(** Text lines of a validator. *)
Example lines_of_text :
  line_of_text <$> ["L12"; "L3-L9"; "L3-9"; "x"; "7"]
  = [Line 12; NoLine; LineRange 3 9; NoLine; Line 7].
Proof. vm_compute. reflexivity. Qed.
End ConvertDemo.
