(* ===== verification/Noqa.v ===== *)
(** * Inline suppressions

    [parse_noqa] and [filter_noqa_violations] of [src/apme_engine/graph/scanner.py].
    The two regular expressions are written as matching functions: the quoted-string
    one is deterministic, the comment one backtracks over the white space after the
    colon, which [noqa_group] spells out. *)

From stdpp Require Import base list gmap strings.
From Stdlib Require Import Ascii String.
From S2P Require Import Prelude PyStr Sha256 Yaml Violation NxGraph ContentNode ContentGraph Sample.

#[local] Open Scope string_scope.
#[local] Notation length := List.length.

(** [str.upper] on a Latin-1 character.  The capitals of the micro sign and of y with
    diaeresis are outside Latin-1; they are left as they are (the result is only
    compared with ASCII names). *)
Definition upper_char (c : ascii) : string :=
  let n := code c in
  if (97 <=? n)%N && (n <=? 122)%N then String (ascii_of_N (n - 32)) ""
  else if (n =? 223)%N then "SS"
  else if (224 <=? n)%N && (n <=? 254)%N && negb (n =? 247)%N then String (ascii_of_N (n - 32)) ""
  else String c "".

Fixpoint supper (s : string) : string :=
  match s with "" => "" | String c s' => upper_char c +:+ supper s' end.

(** ** Quoted strings *)

(** The text after the closing double quote; a backslash protects any character but a
    line feed. *)
Fixpoint dq_close (s : string) : option string :=
  match s with
  | "" => None
  | String c s' =>
    if Ascii.eqb c DQ then Some s'
    else if Ascii.eqb c "\" then
      match s' with
      | "" => None
      | String d s'' => if Ascii.eqb d LF then None else dq_close s''
      end
    else dq_close s'
  end.

Fixpoint sq_close (s : string) : option string :=
  match s with
  | "" => None
  | String c s' => if Ascii.eqb c "'" then Some s' else sq_close s'
  end.

(** A match of [_QUOTED_RE] at the start of [s]: what follows it. *)
Definition match_quoted (s : string) : option string :=
  match s with
  | "" => None
  | String c s' =>
    if Ascii.eqb c DQ then dq_close s' else if Ascii.eqb c "'" then sq_close s' else None
  end.

(** [_QUOTED_RE.sub("", line)] *)
Fixpoint strip_quoted_n (fuel : nat) (s : string) : string :=
  match fuel with
  | O => s
  | S fuel' =>
    match match_quoted s with
    | Some rest => strip_quoted_n fuel' rest
    | None => match s with "" => "" | String c s' => String c (strip_quoted_n fuel' s') end
    end
  end.

Definition strip_quoted (s : string) : string := strip_quoted_n (String.length s) s.

(** ** Comments *)

(** [[A-Za-z0-9_,\t ]] *)
Definition noqa_char (c : ascii) : bool :=
  ident_char c || Ascii.eqb c "," || (code c =? 9)%N || (code c =? 32)%N.

(** The longest run of such characters, and the rest. *)
Fixpoint noqa_run (s : string) : string * string :=
  match s with
  | "" => ("", "")
  | String c s' => if noqa_char c then let '(r, t) := noqa_run s' in (String c r, t) else ("", s)
  end.

(** [\s*([...]+)] with [k] characters of white space at most. *)
Fixpoint noqa_group (k : nat) (s : string) : option (string * string) :=
  match noqa_run (sdrop k s) with
  | (String c r, t) => Some (String c r, t)
  | ("", _) => match k with O => None | S k' => noqa_group k' s end
  end.

(** [\s*noqa:\s*([...]+)], what follows the hash sign. *)
Definition match_noqa_tail (s : string) : option (string * string) :=
  let s := lstrip s in
  if startswith s "noqa:" then
    let after := sdrop 5 s in noqa_group (leading after) after
  else None.

Definition match_hash (s : string) : option (string * string) :=
  match s with
  | String c s' => if Ascii.eqb c "#" then match_noqa_tail s' else None
  | "" => None
  end.

(** A match of [_NOQA_RE] at the start of [s]; [bol] when this is the line's start. *)
Definition match_noqa (bol : bool) (s : string) : option (string * string) :=
  match (if bol then match_hash s else None) with
  | Some m => Some m
  | None =>
    match s with
    | String c s' => if is_space c then match_hash s' else None
    | "" => None
    end
  end.

(** [_NOQA_RE.finditer(s)]: the captured groups. *)
Fixpoint noqa_groups (fuel : nat) (bol : bool) (s : string) : list string :=
  match fuel with
  | O => []
  | S fuel' =>
    match match_noqa bol s with
    | Some (grp, rest) => grp :: noqa_groups fuel' false rest
    | None => match s with "" => [] | String _ s' => noqa_groups fuel' false s' end
    end
  end.

(** [s.split(",")] *)
Fixpoint split_comma (s : string) : list string :=
  match s with
  | "" => [""]
  | String c s' =>
    if Ascii.eqb c "," then "" :: split_comma s'
    else match split_comma s' with
         | [] => [String c ""]
         | p :: ps => String c p :: ps
         end
  end.

(** [part.strip().split(None, 1)[0].upper()], empty for a blank part. *)
Definition noqa_token (part : string) : string := supper (nonspace (strip part)).

Definition line_noqa (line : string) : list string :=
  let s := strip_quoted line in
  noqa_groups (S (String.length s)) true s ≫= λ grp,
    filter (λ t, t ≠ "") (noqa_token <$> split_comma grp).

Definition parse_noqa (yaml_lines : string) : gset string :=
  list_to_set (splitlines yaml_lines ≫= line_noqa).

Example line_noqa_examples :
  line_noqa "x: y # noqa: l068 lola, R108" = ["L068"; "R108"] ∧
  line_noqa "msg: '# noqa: R108'" = [] ∧
  line_noqa "# noqa: R114 - why # noqa:L1" = ["R114"; "L1"].
Proof. by vm_compute. Qed.

(** ** Filtering *)

Section Filter.
Context {G : Type} `{NxLaws ContentNode EdgeAttrs G}.
Implicit Types (g : ContentGraph G) (v : ViolationDict).

(** One violation of the loop; the second component is the cache [noqa_by_path]. *)
Definition filter_noqa_one g (acc : list ViolationDict * gmap string (gset string)) v
    : list ViolationDict * gmap string (gset string) :=
  let '(kept, cache) := acc in
  let path := strip (vget_or "path" v) in
  let rule_id := supper (strip (vget_or "rule_id" v)) in
  if decide (path = "" ∨ rule_id = "") then ((kept ++ [v])%list, cache)
  else
    match get_node g path with
    | None => ((kept ++ [v])%list, cache)
    | Some n =>
      if decide (nd_yaml n = "") then ((kept ++ [v])%list, cache)
      else
        let '(suppressed, cache') :=
          match cache !! path with
          | Some s => (s, cache)
          | None => let s := parse_noqa (nd_yaml n) in (s, <[path := s]> cache)
          end in
        if decide (rule_id ∈ suppressed) then (kept, cache') else ((kept ++ [v])%list, cache')
    end.

Definition filter_noqa_violations (vs : list ViolationDict) (og : option (ContentGraph G))
    : list ViolationDict :=
  match og with
  | None => vs
  | Some g => (foldl (filter_noqa_one g) ([], ∅) vs).1
  end.

(** The violation is named by a comment on its node. *)
Definition suppressed_by g v : Prop :=
  ∃ n, get_node g (strip (vget_or "path" v)) = Some n ∧
       strip (vget_or "path" v) ≠ "" ∧ supper (strip (vget_or "rule_id" v)) ≠ "" ∧
       supper (strip (vget_or "rule_id" v)) ∈ parse_noqa (nd_yaml n).

#[export] Instance suppressed_by_dec g v : Decision (suppressed_by g v).
Proof.
  unfold suppressed_by. destruct (get_node g (strip (vget_or "path" v))) as [n|].
  - destruct (decide (strip (vget_or "path" v) ≠ "" ∧ supper (strip (vget_or "rule_id" v)) ≠ "" ∧
       supper (strip (vget_or "rule_id" v)) ∈ parse_noqa (nd_yaml n))) as [Hd|Hd].
    + left. by exists n.
    + right. intros (m & [= <-] & ?). by apply Hd.
  - right. by intros (m & ? & _).
Defined.

(** What is cached is what would be computed. *)
Definition cache_ok g (cache : gmap string (gset string)) : Prop :=
  ∀ p s, cache !! p = Some s → ∃ n, get_node g p = Some n ∧ s = parse_noqa (nd_yaml n).

Lemma filter_noqa_one_spec g kept cache v :
  cache_ok g cache →
  ∃ cache', filter_noqa_one g (kept, cache) v
    = ((kept ++ filter (λ v, ¬ suppressed_by g v) [v])%list, cache') ∧ cache_ok g cache'.
Proof.
  intros Hc. unfold filter_noqa_one.
  assert (Hkeep : ¬ suppressed_by g v → filter (λ v, ¬ suppressed_by g v) [v] = [v])
    by (intros; by rewrite filter_cons_True).
  assert (Hdrop : suppressed_by g v → filter (λ v, ¬ suppressed_by g v) [v] = [])
    by (intros; rewrite filter_cons_False; auto).
  case_decide as He.
  { exists cache. rewrite Hkeep; [done|]. intros (n & _ & ? & ? & _). tauto. }
  destruct (get_node g (strip (vget_or "path" v))) as [n|] eqn:Hn.
  2: { exists cache. rewrite Hkeep; [done|]. intros (m & Hm & _). congruence. }
  case_decide as Hy.
  { exists cache. rewrite Hkeep; [done|]. intros (m & Hm & _ & _ & Hin). simplify_eq.
    rewrite Hy in Hin. by apply elem_of_empty in Hin. }
  assert (∃ cache', match cache !! strip (vget_or "path" v) with
      | Some s => (s, cache)
      | None => (parse_noqa (nd_yaml n), <[strip (vget_or "path" v):=parse_noqa (nd_yaml n)]> cache)
      end = (parse_noqa (nd_yaml n), cache') ∧ cache_ok g cache') as (cache' & -> & Hc').
  { destruct (cache !! _) as [s|] eqn:El.
    - destruct (Hc _ _ El) as (m & Hm & ->). exists cache. simplify_eq. done.
    - eexists. split; [done|]. intros p s [[<- <-]|[? ?]]%lookup_insert_Some; eauto. }
  exists cache'. split; [|done]. case_decide as Hr.
  - rewrite Hdrop, app_nil_r; [done|]. exists n. split_and!; try done; tauto.
  - rewrite Hkeep; [done|]. intros (m & Hm & _ & _ & Hin). simplify_eq.
Qed.

Lemma filter_noqa_spec g vs :
  filter_noqa_violations vs (Some g) = filter (λ v, ¬ suppressed_by g v) vs.
Proof.
  unfold filter_noqa_violations.
  assert (∀ kept cache, cache_ok g cache →
    (foldl (filter_noqa_one g) (kept, cache) vs).1
    = (kept ++ filter (λ v, ¬ suppressed_by g v) vs)%list) as Hgen.
  { induction vs as [|v vs IH]; intros kept cache Hc; cbn [foldl].
    { by rewrite filter_nil, app_nil_r. }
    destruct (filter_noqa_one_spec g kept cache v Hc) as (cache' & -> & Hc').
    rewrite IH by done. rewrite <- app_assoc. f_equal.
    rewrite !filter_cons, filter_nil. by case_decide. }
  apply Hgen. intros p s. by rewrite lookup_empty.
Qed.

(** Filtering by inline comments, with its per-path cache, drops exactly the
    violations that a comment on their own node names, keeps the others in order (a
    violation without a path, a rule id, a known node or node text is kept), and a
    second pass changes nothing. *)
Theorem filter_noqa_exact g vs :
  filter_noqa_violations vs (Some g) = filter (λ v, ¬ suppressed_by g v) vs ∧
  filter_noqa_violations (filter_noqa_violations vs (Some g)) (Some g)
  = filter_noqa_violations vs (Some g).
Proof.
  rewrite !filter_noqa_spec. split; [done|].
  rewrite list_filter_filter. apply list_filter_iff. tauto.
Qed.
End Filter.

(** ** What a comment suppresses *)

(** A fragment of a line before a comment: no quotes, no hash sign, no line boundary. *)
Definition plain_char (c : ascii) : bool :=
  negb (is_break c) && negb (Ascii.eqb c DQ) && negb (Ascii.eqb c "'") && negb (Ascii.eqb c "#").

Lemma ident_plain c :
  ident_char c = true →
  is_break c = false ∧ is_space c = false ∧ Ascii.eqb c DQ = false ∧ Ascii.eqb c "'" = false ∧
  Ascii.eqb c "," = false.
Proof.
  intros Hc. assert (implb (ident_char c) (negb (is_break c) && negb (is_space c)
    && negb (Ascii.eqb c DQ) && negb (Ascii.eqb c "'") && negb (Ascii.eqb c ",")) = true) as H.
  { apply (ascii_all (λ c, implb (ident_char c) (negb (is_break c) && negb (is_space c)
      && negb (Ascii.eqb c DQ) && negb (Ascii.eqb c "'") && negb (Ascii.eqb c ",")))).
    vm_compute. reflexivity. }
  rewrite Hc in H. simpl in H. repeat (apply andb_prop in H as [H ?]).
  by repeat (rewrite negb_true_iff in *).
Qed.

Lemma splitlines_one_line s :
  sforall (λ c, negb (is_break c)) s = true → s ≠ "" → splitlines s = [s].
Proof.
  intros Hs Hne. unfold splitlines.
  assert (splitlines_keep s = [s] ∧ chomp s = s) as [-> Hc].
  { induction s as [|c s IH]; [done|]. simpl in *. apply andb_prop in Hs as [Hc Hs].
    apply negb_true_iff in Hc. rewrite Hc. destruct s as [|d s]; [done|].
    destruct (IH Hs ltac:(done)) as [-> ->]. done. }
  csimpl. by rewrite Hc.
Qed.

Lemma strip_quoted_plain fuel s :
  sforall (λ c, negb (Ascii.eqb c DQ) && negb (Ascii.eqb c "'")) s = true →
  strip_quoted_n fuel s = s.
Proof.
  revert s. induction fuel as [|fuel IH]; intros s Hs; [done|]. destruct s as [|c s]; [done|].
  simpl in *. apply andb_prop in Hs as [[H1 H2]%andb_prop Hs].
  rewrite negb_true_iff in H1, H2. rewrite H1, H2. f_equal. auto.
Qed.

Lemma noqa_run_ident id : sforall ident_char id = true → noqa_run id = (id, "").
Proof.
  induction id as [|c id IH]; simpl; [done|]. intros [Hc Hid]%andb_prop.
  unfold noqa_char. rewrite Hc. simpl. by rewrite IH.
Qed.

Lemma nonspace_ident id : sforall ident_char id = true → nonspace id = id.
Proof.
  induction id as [|c id IH]; simpl; [done|]. intros [Hc Hid]%andb_prop.
  destruct (ident_plain c Hc) as (_ & -> & _). by rewrite IH.
Qed.

Lemma strip_ident id : sforall ident_char id = true → strip id = id.
Proof.
  intros Hid. unfold strip. assert (lstrip id = id) as ->.
  { destruct id as [|c id]; [done|]. simpl in *. apply andb_prop in Hid as [Hc _].
    by destruct (ident_plain c Hc) as (_ & -> & _). }
  induction id as [|c id IH]; simpl in *; [done|]. apply andb_prop in Hid as [Hc Hid].
  rewrite IH by done. destruct (ident_plain c Hc) as (_ & -> & _). by destruct id.
Qed.

Lemma split_comma_ident id : sforall ident_char id = true → split_comma id = [id].
Proof.
  induction id as [|c id IH]; simpl; [done|]. intros [Hc Hid]%andb_prop.
  destruct (ident_plain c Hc) as (_ & _ & _ & _ & ->). by rewrite IH.
Qed.

Lemma supper_ne id : id ≠ "" → supper id ≠ "".
Proof.
  destruct id as [|c id]; [done|]. intros _. simpl. unfold upper_char. by repeat case_match.
Qed.

Definition comment (id : string) : string := " # noqa: " +:+ id.

Lemma match_comment bol id :
  id ≠ "" → sforall ident_char id = true → match_noqa bol (comment id) = Some (id, "").
Proof.
  intros Hne Hid. assert (match_hash (" # noqa: " +:+ id) = None) as E1 by done.
  assert (match_hash ("# noqa: " +:+ id) = Some (id, "")) as E2.
  { change (match_hash ("# noqa: " +:+ id)) with (match_noqa_tail (" noqa: " +:+ id)).
    unfold match_noqa_tail. cbv zeta.
    replace (lstrip (" noqa: " +:+ id)) with ("noqa:" +:+ (" " +:+ id)) by reflexivity.
    rewrite startswith_app.
    change 5 with (String.length "noqa:"). rewrite sdrop_app.
    assert (leading (" " +:+ id) = 1) as ->.
    { change (" " +:+ id) with (spaces 1 +:+ id). rewrite leading_spaces. unfold leading.
      destruct id as [|c id]; [done|]. simpl in *. apply andb_prop in Hid as [Hc _].
      destruct (ident_plain c Hc) as (_ & -> & _). simpl. lia. }
    simpl. rewrite noqa_run_ident by done. by destruct id. }
  unfold match_noqa, comment. rewrite E1. by destruct bol.
Qed.

Lemma match_plain bol c p id :
  sforall plain_char (String c p) = true → match_noqa bol (String c p +:+ comment id) = None.
Proof.
  simpl. unfold plain_char. intros [Hc Hp]%andb_prop.
  apply andb_prop in Hc as [_ Hc%negb_true_iff].
  unfold match_noqa. simpl. rewrite Hc. destruct bol; (destruct (is_space c); [|done]);
    (destruct p as [|d p]; [done|]); simpl in *; apply andb_prop in Hp as [Hd _];
    apply andb_prop in Hd as [_ Hd%negb_true_iff]; by rewrite Hd.
Qed.

Lemma noqa_groups_comment fuel bol p id :
  id ≠ "" → sforall ident_char id = true → sforall plain_char p = true →
  String.length (p +:+ comment id) < fuel →
  noqa_groups fuel bol (p +:+ comment id) = [id].
Proof.
  intros Hne Hid. revert bol p. induction fuel as [|fuel IH]; intros bol p Hp Hf; [lia|].
  cbn [noqa_groups]. destruct p as [|c p].
  - change ("" +:+ comment id) with (comment id) in *. rewrite match_comment by done.
    destruct fuel; [simpl in Hf; lia|]. by destruct fuel.
  - rewrite match_plain by done. simpl in *. apply andb_prop in Hp as [_ Hp].
    apply IH; [done|lia].
Qed.

Lemma sforall_impl (p q : ascii → bool) s :
  (∀ c, p c = true → q c = true) → sforall p s = true → sforall q s = true.
Proof.
  intros Hpq. induction s as [|c s IH]; simpl; [done|]. intros [Hc Hs]%andb_prop.
  rewrite (Hpq c Hc). auto.
Qed.

(** A comment at the end of a line suppresses exactly the rule it names, upper-cased,
    whatever (unquoted) text stands before it. *)
Theorem noqa_comment_suppresses p id :
  sforall plain_char p = true → sforall ident_char id = true → id ≠ "" →
  parse_noqa (p +:+ comment id) = {[supper id]}.
Proof.
  intros Hp Hid Hne. unfold parse_noqa.
  assert (Hplain : ∀ q : ascii → bool,
    (∀ c, plain_char c = true → q c = true) → (∀ c, ident_char c = true → q c = true) →
    sforall q " # noqa: " = true → sforall q (p +:+ comment id) = true).
  { intros q H1 H2 H3. unfold comment. rewrite !sforall_app, H3.
    by rewrite (sforall_impl _ _ _ H1 Hp), (sforall_impl _ _ _ H2 Hid). }
  rewrite splitlines_one_line.
  2: { apply Hplain; [|intros c Hc; by destruct (ident_plain c Hc) as (-> & _)|done].
       intros c Hc. by repeat (apply andb_prop in Hc as [Hc ?]). }
  2: { unfold comment. by destruct p. }
  csimpl. rewrite app_nil_r. unfold line_noqa, strip_quoted. rewrite strip_quoted_plain.
  2: { apply Hplain; [| |done].
       - intros c Hc. apply andb_prop in Hc as [[[_ H1]%andb_prop H2]%andb_prop _]. by rewrite H1, H2.
       - intros c Hc. by destruct (ident_plain c Hc) as (_ & _ & -> & -> & _). }
  rewrite noqa_groups_comment by (done || lia). csimpl.
  rewrite split_comma_ident by done. csimpl. rewrite app_nil_r. unfold noqa_token.
  rewrite strip_ident, nonspace_ident by done. rewrite filter_cons_True by by apply supper_ne.
  simpl. set_solver.
Qed.

(** ** Witnesses *)

Lemma noqa_comment_suppresses_witness :
  parse_noqa ("name: x" +:+ comment "l068") = {[supper "l068"]}.
Proof. apply noqa_comment_suppresses; [reflexivity|reflexivity|discriminate]. Defined.

Lemma filter_noqa_exact_witness :
  filter_noqa_violations [sample_violation task_id "L007"] (Some sample_graph)
  = filter (λ v, ¬ suppressed_by sample_graph v) [sample_violation task_id "L007"].
Proof.
  apply (filter_noqa_exact (G := SG) sample_graph [sample_violation task_id "L007"]).
Defined.
