(* ===== verification/ScanFindings.v ===== *)
(** * The engine's list of findings

    The pure passes of the scan pipeline of [src/apme_engine/daemon/engine_server.py]
    over the list of findings: [_sort_violations], [_deduplicate_violations],
    [_validate_rule_configs], [_apply_rule_configs] and [_attach_snippets].

    A dictionary of the list is changed in place by the last two; nothing else holds
    it (the list was made by the calls to the validators), so the changed dictionary is
    returned instead. *)

From stdpp Require Import base list gmap strings pretty sorting.
From Stdlib Require Import Ascii String.
From S2P Require Import Prelude PyStr PyPath PyNum Violation Severity ContentNode.

#[local] Open Scope string_scope.
#[local] Notation length := List.length.

(** ** Order *)

(** [line if isinstance(line, int | float) else 0], after the first element of a list
    has replaced the list; [True] and [False] are integers. *)
Definition sort_line (x : option vval) : Z :=
  match x with
  | Some (VInts (z :: _)) => z
  | Some (VInt z) => z
  | Some (VBool b) => if b then 1 else 0
  | _ => 0
  end.

(** [key] of [_sort_violations] *)
Definition sort_key (v : ViolationDict) : string * Z := (vget_or "file" v, sort_line (dget "line" v)).

(** [<=] on pairs *)
Definition key_le (a b : string * Z) : bool :=
  if decide (a.1 = b.1) then (a.2 <=? b.2)%Z else String.leb a.1 b.1.

Definition sort_violations (vs : list ViolationDict) : list ViolationDict :=
  sort_by (λ v w, key_le (sort_key v) (sort_key w)) vs.

(** ** Duplicates *)

(** The third component of the key as equality and hashing see it: [True] is [1] and a
    missing line is [None]. *)
Definition line_key (x : option vval) : vval :=
  match x with
  | None => VNone
  | Some (VBool b) => VInt (if b then 1 else 0)
  | Some y => y
  end.

Definition dedup_key (v : ViolationDict) : string * string * vval :=
  (vget_str "rule_id" v, vget_str "file" v, line_key (dget "line" v)).

(** The loop of [_deduplicate_violations]: [seen] and [out]. *)
Definition dedup_one (acc : list (string * string * vval) * list ViolationDict) (v : ViolationDict)
    : list (string * string * vval) * list ViolationDict :=
  let '(seen, out) := acc in
  if decide (dedup_key v ∈ seen) then (seen, out) else (dedup_key v :: seen, (out ++ [v])%list).

Definition deduplicate_violations (vs : list ViolationDict) : list ViolationDict :=
  (foldl dedup_one ([], []) vs).2.

(** ** Rule configurations *)

(** The fields of the message [RuleConfig]. *)
Record RuleConfig := MkRC {
  rc_rule_id : string;
  rc_severity : Z;
  rc_enabled : bool;
  rc_enforced : bool;
}.

Definition rc_norm (rc : RuleConfig) : string := normalize_rule_id (rc_rule_id rc).

Definition rc_flags (rc : RuleConfig) : Z * bool * bool := (rc_severity rc, rc_enabled rc, rc_enforced rc).

(** [config_map] of [_apply_rule_configs]: a later message for a rule replaces an earlier one. *)
Definition config_map (rcs : list RuleConfig) : gmap string RuleConfig :=
  foldl (λ m rc, <[rc_norm rc := rc]> m) ∅ rcs.

(** One finding of the loop; [None] when it is dropped. *)
Definition apply_rule_config (m : gmap string RuleConfig) (v : ViolationDict) : option ViolationDict :=
  match m !! bare_id v with
  | None => Some v
  | Some rc =>
    if rc_enabled rc then
      let v1 := if (rc_severity rc =? 0)%Z then v
                else dset "severity" (VStr (severity_to_label (severity_from_proto (rc_severity rc)))) v in
      Some (if rc_enforced rc then dset "_enforced" (VBool true) v1 else v1)
    else None
  end.

Definition apply_rule_configs (vs : list ViolationDict) (rcs : list RuleConfig) : list ViolationDict :=
  match rcs with [] => vs | _ => omap (apply_rule_config (config_map rcs)) vs end.

(** The loop of [_validate_rule_configs]; the dictionary [seen] only decides what is logged. *)
Record audit := MkAudit {
  au_config_ids : gset string;
  au_seen_flags : gmap string (Z * bool * bool);
  au_unknown : list string;
  au_divergent : list string;
}.

Definition audit_one (known : gset string) (a : audit) (rc : RuleConfig) : audit :=
  MkAudit
    ({[rc_norm rc]} ∪ au_config_ids a)
    (<[rc_norm rc := rc_flags rc]> (au_seen_flags a))
    (if decide (rc_norm rc ∈ known) then au_unknown a else (au_unknown a ++ [rc_rule_id rc])%list)
    (match au_seen_flags a !! rc_norm rc with
     | Some fl =>
       if decide (fl ≠ rc_flags rc ∧ rc_norm rc ∉ au_divergent a)
       then (au_divergent a ++ [rc_norm rc])%list else au_divergent a
     | None => au_divergent a
     end).

(** [sorted] of a set of strings *)
Definition sorted_ids (s : gset string) : list string := sort_by String.leb (elements s).

Definition norm_ids (ids : gset string) : gset string := set_map normalize_rule_id ids.

Definition EMPTY_CATALOG : string := "<engine-rule-catalog-empty>".

(** [_validate_rule_configs]: unknown, missing and divergent ids.  [ids] is the global
    [_known_rule_ids]. *)
Definition validate_rule_configs (ids : gset string) (rcs : list RuleConfig) (complete : bool)
    : list string * list string * list string :=
  if decide (ids = ∅) then ([], if complete then [EMPTY_CATALOG] else [], [])
  else
    match rcs with
    | [] => ([], if complete then sorted_ids (norm_ids ids) else [], [])
    | _ =>
      let a := foldl (audit_one (norm_ids ids)) (MkAudit ∅ ∅ [] []) rcs in
      (au_unknown a, if complete then sorted_ids (norm_ids ids ∖ au_config_ids a) else [], au_divergent a)
    end.

(** ** Snippets *)

(** An uploaded file: the text its bytes decode to when undecodable ones are replaced,
    and whether there were none (so that strict decoding gives the same text instead of
    raising). *)
Record SourceFile := MkSource { sf_path : string; sf_text : string; sf_utf8 : bool }.

Definition SNIPPET_CONTEXT_LINES : Z := 10.

(** [f"{n:>4}"] *)
Definition rjust4 (s : string) : string := spaces (4 - String.length s) +:+ s.

Definition numbered_line (lines : list string) (i : nat) : string :=
  rjust4 (pretty (i + 1)%nat) +:+ ": " +:+ default "" (lines !! i).

(** [snippet_sources]: only files that some finding names, the last one of a path. *)
Definition snippet_sources (vs : list ViolationDict) (files : list SourceFile) : gmap string (list string) :=
  foldl (λ m f, if decide (sf_path f ∈ vget_str "file" <$> vs)
                then <[sf_path f := splitlines (sf_text f)]> m else m) ∅ files.

(** [line_no]; [None] is one of the two [continue]s on the line. *)
Definition snippet_line (x : option vval) : option Z :=
  let line_no := match x with
    | Some (VInts l) => Some (default 0%Z (head l))
    | Some (VInt z) => Some z
    | Some (VBool b) => Some (if b then 1%Z else 0%Z)
    | _ => None
    end in
  n ← line_no; if (n <? 1)%Z then None else Some n.

Definition snippet (lines : list string) (line_no : Z) : string :=
  let start := Z.max 0 (line_no - 1 - SNIPPET_CONTEXT_LINES) in
  let stop := Z.min (Z.of_nat (length lines)) (line_no + SNIPPET_CONTEXT_LINES) in
  sjoin (String LF "") (numbered_line lines <$> seq (Z.to_nat start) (Z.to_nat (stop - start))).

Definition attach_snippet (m : gmap string (list string)) (v : ViolationDict) : ViolationDict :=
  match m !! vget_str "file" v with
  | None | Some [] => v
  | Some lines =>
    match snippet_line (dget "line" v) with
    | None => v
    | Some n => dset "snippet" (VStr (snippet lines n)) v
    end
  end.

Definition attach_snippets (vs : list ViolationDict) (files : list SourceFile) : list ViolationDict :=
  attach_snippet (snippet_sources vs files) <$> vs.

(** ** Laws of the order *)

Lemma key_le_total a b : key_le a b = false → key_le b a = true.
Proof.
  unfold key_le. repeat case_decide; try congruence.
  - rewrite Z.leb_gt, Z.leb_le. lia.
  - apply string_leb_total.
Qed.

Lemma key_le_trans a b c : key_le a b = true → key_le b c = true → key_le a c = true.
Proof.
  unfold key_le. destruct a as [a1 a2], b as [b1 b2], c as [c1 c2]; simpl.
  repeat case_decide; subst; try congruence.
  - rewrite !Z.leb_le. lia.
  - intros H1 H2. pose proof (String.leb_antisym _ _ H1 H2). congruence.
  - apply string_leb_trans.
Qed.

Lemma sort_violations_sorted vs :
  StronglySorted (λ v w, key_le (sort_key v) (sort_key w) = true) (sort_violations vs).
Proof.
  apply sort_by_sorted; intros; [by apply key_le_total|by eapply key_le_trans].
Qed.

Lemma elem_of_sort_violations v vs : v ∈ sort_violations vs ↔ v ∈ vs.
Proof. apply elem_of_sort_by. Qed.

(** ** Laws of the removal of duplicates *)

Lemma dedup_foldl vs seen out :
  (∀ k, k ∈ seen ↔ k ∈ dedup_key <$> out) → NoDup (dedup_key <$> out) →
  ∃ ext, (foldl dedup_one (seen, out) vs).2 = (out ++ ext)%list ∧ ext `sublist_of` vs ∧
    NoDup (dedup_key <$> (out ++ ext)%list) ∧ ∀ v, v ∈ vs → dedup_key v ∈ dedup_key <$> (out ++ ext)%list.
Proof.
  revert seen out. induction vs as [|v vs IH]; intros seen out Hs Hn; cbn [foldl].
  { exists []. rewrite app_nil_r. split_and!; [done|constructor|done|]. by intros ? ?%elem_of_nil. }
  cbn [dedup_one]. case_decide as Hd.
  - destruct (IH seen out Hs Hn) as (ext & -> & Hsub & Hnd & Hall). exists ext.
    split_and!; [done|by constructor|done|]. intros w [->|Hw]%elem_of_cons; [|by apply Hall].
    rewrite fmap_app. apply elem_of_app. left. by apply Hs.
  - destruct (IH (dedup_key v :: seen) (out ++ [v])%list) as (ext & -> & Hsub & Hnd & Hall).
    + intros k. rewrite fmap_app, elem_of_app, elem_of_cons, Hs. csimpl. rewrite list_elem_of_singleton. tauto.
    + rewrite fmap_app. apply NoDup_app. split_and!; [done| |apply NoDup_singleton].
      intros k Hk ->%list_elem_of_singleton. by apply Hd, Hs.
    + rewrite <- app_assoc in *. exists (v :: ext). split_and!; [done|by constructor|done|].
      intros w [->|Hw]%elem_of_cons; [|by apply Hall].
      rewrite !fmap_app, !elem_of_app. right. left.
Qed.

Lemma dedup_spec vs :
  deduplicate_violations vs `sublist_of` vs ∧ NoDup (dedup_key <$> deduplicate_violations vs) ∧
  ∀ v, v ∈ vs → dedup_key v ∈ dedup_key <$> deduplicate_violations vs.
Proof.
  destruct (dedup_foldl vs [] []) as (ext & He & ?); [|constructor|].
  - intros k. split; intros ?%elem_of_nil; done.
  - unfold deduplicate_violations. rewrite He. naive_solver.
Qed.

(** ** Laws of the rule configurations *)

(** The configuration that counts for a rule: the last message for it. *)
Lemma config_map_snoc rcs rc : config_map (rcs ++ [rc])%list = <[rc_norm rc := rc]> (config_map rcs).
Proof. unfold config_map. by rewrite foldl_app. Qed.

Lemma config_map_Some rcs k rc :
  config_map rcs !! k = Some rc ↔
  ∃ before after, rcs = (before ++ rc :: after)%list ∧ rc_norm rc = k ∧ Forall (λ r, rc_norm r ≠ k) after.
Proof.
  induction rcs as [|x rcs IH] using rev_ind.
  { split; [done|]. intros (b & a & E & _). by destruct b. }
  rewrite config_map_snoc, lookup_insert_Some, IH. split.
  - intros [[<- <-]|(Hne & b & a & -> & Hk & Ha)].
    + exists rcs, []. by split_and!; [|done|constructor].
    + exists b, (a ++ [x])%list. rewrite <- app_assoc. split_and!; [done..|].
      apply Forall_app. split; [done|]. by repeat constructor.
  - intros (b & a & E & Hk & Ha). destruct a as [|y a' _] using rev_ind.
    + apply app_inj_tail in E as [-> ->]. by left.
    + rewrite app_comm_cons, app_assoc in E. apply app_inj_tail in E as [-> ->].
      apply Forall_app in Ha as [Ha [Hy _]%Forall_cons]. right. eauto 10.
Qed.

(** Two messages of the list configure the rule [k] differently. *)
Definition divergent_in (rcs : list RuleConfig) (k : string) : Prop :=
  ∃ a b, a ∈ rcs ∧ b ∈ rcs ∧ rc_norm a = k ∧ rc_norm b = k ∧ rc_flags a ≠ rc_flags b.

Record audit_inv (known : gset string) (rcs : list RuleConfig) (a : audit) : Prop := {
  ai_ids : ∀ k, k ∈ au_config_ids a ↔ k ∈ rc_norm <$> rcs;
  ai_none : ∀ k, au_seen_flags a !! k = None ↔ k ∉ rc_norm <$> rcs;
  ai_flags : ∀ k fl, au_seen_flags a !! k = Some fl → ∃ rc, rc ∈ rcs ∧ rc_norm rc = k ∧ rc_flags rc = fl;
  ai_same : ∀ rc, rc ∈ rcs → rc_norm rc ∉ au_divergent a →
              au_seen_flags a !! rc_norm rc = Some (rc_flags rc);
  ai_unknown : au_unknown a = rc_rule_id <$> filter (λ rc, rc_norm rc ∉ known) rcs;
  ai_divergent : ∀ k, k ∈ au_divergent a → divergent_in rcs k;
  ai_NoDup : NoDup (au_divergent a);
}.

Lemma divergent_in_app rcs rcs' k : divergent_in rcs k → divergent_in (rcs ++ rcs')%list k.
Proof. intros (a & b & Ha & Hb & ?). exists a, b. rewrite !elem_of_app. tauto. Qed.

Lemma audit_one_divergent known rcs a rc :
  audit_inv known rcs a →
  (∀ k, k ∈ au_divergent (audit_one known a rc) → divergent_in (rcs ++ [rc])%list k) ∧
  NoDup (au_divergent (audit_one known a rc)) ∧
  (∀ k, k ∈ au_divergent a → k ∈ au_divergent (audit_one known a rc)) ∧
  (∀ fl, au_seen_flags a !! rc_norm rc = Some fl → rc_norm rc ∉ au_divergent (audit_one known a rc) →
         fl = rc_flags rc).
Proof.
  intros I. cbn [audit_one au_divergent].
  assert (Hold : ∀ k, k ∈ au_divergent a → divergent_in (rcs ++ [rc])%list k)
    by (intros k Hk; by apply divergent_in_app, (ai_divergent _ _ _ I)).
  pose proof (ai_NoDup _ _ _ I) as Hn.
  destruct (au_seen_flags a !! rc_norm rc) as [fl|] eqn:E; [|naive_solver].
  case_decide as Hd.
  - destruct Hd as [Hd1 Hd2]. setoid_rewrite elem_of_app. setoid_rewrite list_elem_of_singleton. split_and!.
    + intros k [Hk| ->]; [by apply Hold|].
      apply (ai_flags _ _ _ I) in E as (b & Hb & Hk & <-). exists b, rc.
      rewrite !elem_of_app, !list_elem_of_singleton. tauto.
    + apply NoDup_app. split_and!; [done| |apply NoDup_singleton].
      intros k Hk ->%list_elem_of_singleton. done.
    + tauto.
    + intros ? _ []. by right.
  - split_and!; [done..|]. intros ? [= <-] Hnot. destruct (decide (fl = rc_flags rc)); tauto.
Qed.

Lemma audit_one_inv known rcs a rc :
  audit_inv known rcs a → audit_inv known (rcs ++ [rc])%list (audit_one known a rc).
Proof.
  intros I. destruct (audit_one_divergent known rcs a rc I) as (Hd & Hn & Hmono & Hlast).
  split; [..|exact Hd|exact Hn].
  - intros k. cbn [audit_one au_config_ids]. rewrite elem_of_union, elem_of_singleton, (ai_ids _ _ _ I).
    rewrite fmap_app, elem_of_app. csimpl. rewrite list_elem_of_singleton. tauto.
  - intros k. cbn [audit_one au_seen_flags]. rewrite lookup_insert_None, (ai_none _ _ _ I).
    rewrite fmap_app, elem_of_app. csimpl. rewrite list_elem_of_singleton. naive_solver.
  - intros k fl. cbn [audit_one au_seen_flags]. rewrite lookup_insert_Some. intros [[<- <-]|[Hne Hk]].
    + exists rc. rewrite elem_of_app, list_elem_of_singleton. tauto.
    + apply (ai_flags _ _ _ I) in Hk as (b & ? & ?). exists b. rewrite elem_of_app. tauto.
  - intros b Hb Hnot. cbn [audit_one au_seen_flags]. apply elem_of_app in Hb as [Hb| ->%list_elem_of_singleton].
    + assert (au_seen_flags a !! rc_norm b = Some (rc_flags b)) as Hs
        by (apply (ai_same _ _ _ I); [done|]; intros Hk; by apply Hnot, Hmono).
      destruct (decide (rc_norm rc = rc_norm b)) as [E|E]; [|by rewrite lookup_insert_ne].
      rewrite E, lookup_insert_eq. f_equal. symmetry. apply Hlast; [by rewrite E|by rewrite E].
    + by rewrite lookup_insert_eq.
  - cbn [audit_one au_unknown]. rewrite (ai_unknown _ _ _ I), filter_app, fmap_app, filter_cons, filter_nil.
    repeat case_decide; try tauto; csimpl; by rewrite ?app_nil_r.
Qed.

Lemma audit_inv_foldl known rcs : audit_inv known rcs (foldl (audit_one known) (MkAudit ∅ ∅ [] []) rcs).
Proof.
  induction rcs as [|rc rcs IH] using rev_ind.
  - split; try done; try (intros ? ?%elem_of_nil; done); [| |constructor].
    + intros k. simpl. set_solver.
    + intros k. simpl. rewrite lookup_empty. set_solver.
  - rewrite foldl_app. by apply audit_one_inv.
Qed.

Lemma elem_of_divergent known rcs k :
  k ∈ au_divergent (foldl (audit_one known) (MkAudit ∅ ∅ [] []) rcs) ↔ divergent_in rcs k.
Proof.
  pose proof (audit_inv_foldl known rcs) as I. split; [apply (ai_divergent _ _ _ I)|].
  intros (a & b & Ha & Hb & <- & Hk & Hne).
  destruct (decide (rc_norm a ∈ au_divergent (foldl (audit_one known) (MkAudit ∅ ∅ [] []) rcs))) as [|Hn]; [done|].
  pose proof (ai_same _ _ _ I a Ha Hn). rewrite <- Hk in Hn. pose proof (ai_same _ _ _ I b Hb Hn). congruence.
Qed.

Lemma elem_of_sorted_ids k (s : gset string) : k ∈ sorted_ids s ↔ k ∈ s.
Proof. unfold sorted_ids. by rewrite elem_of_sort_by, elem_of_elements. Qed.

Lemma elem_of_norm_ids k ids : k ∈ norm_ids ids ↔ ∃ r, r ∈ ids ∧ normalize_rule_id r = k.
Proof. unfold norm_ids. rewrite elem_of_map. naive_solver. Qed.

(** What the audit reports, once the engine knows its own rules. *)
Lemma validate_rule_configs_spec ids rcs complete :
  ids ≠ ∅ →
  (validate_rule_configs ids rcs complete).1.1
    = rc_rule_id <$> filter (λ rc, rc_norm rc ∉ norm_ids ids) rcs ∧
  (∀ k, k ∈ (validate_rule_configs ids rcs complete).1.2 ↔
        complete = true ∧ k ∈ norm_ids ids ∧ k ∉ rc_norm <$> rcs) ∧
  (∀ k, k ∈ (validate_rule_configs ids rcs complete).2 ↔ divergent_in rcs k).
Proof.
  intros Hids. unfold validate_rule_configs. rewrite decide_False by done.
  destruct rcs as [|rc rcs]; cbn [fst snd].
  - split_and!; [done| |].
    + intros k. destruct complete; [rewrite elem_of_sorted_ids|]; set_solver.
    + intros k. split; [by intros ?%elem_of_nil|]. intros (a & b & ?%elem_of_nil & _). done.
  - pose proof (audit_inv_foldl (norm_ids ids) (rc :: rcs)) as I. split_and!.
    + apply (ai_unknown _ _ _ I).
    + intros k. destruct complete.
      * rewrite elem_of_sorted_ids, elem_of_difference, (ai_ids _ _ _ I). tauto.
      * split; [by intros ?%elem_of_nil|]. by intros (? & _).
    + intros k. apply elem_of_divergent.
Qed.

(** ** What the last passes keep *)

(** Entries other than the rule, the file and the line do not move a finding. *)
Lemma dset_keeps k x v : k ∉ ["rule_id"; "file"; "line"] →
  dedup_key (dset k x v) = dedup_key v ∧ sort_key (dset k x v) = sort_key v ∧ bare_id (dset k x v) = bare_id v.
Proof.
  intros Hk. unfold dedup_key, sort_key, bare_id, vget_str, vget_or.
  rewrite !dget_dset_ne; [done|..]; intros <-; apply Hk; set_solver.
Qed.

Lemma apply_rule_config_keeps m v w : apply_rule_config m v = Some w →
  dedup_key w = dedup_key v ∧ sort_key w = sort_key v ∧ bare_id w = bare_id v.
Proof.
  unfold apply_rule_config. destruct (m !! bare_id v) as [rc|]; [|by intros [= <-]].
  case_match; [|done]. intros [= <-].
  assert (Hsev : "severity" ∉ ["rule_id"; "file"; "line"]) by set_solver.
  assert (Henf : "_enforced" ∉ ["rule_id"; "file"; "line"]) by set_solver.
  destruct (rc_severity rc =? 0)%Z, (rc_enforced rc); try done; try by apply dset_keeps.
  destruct (dset_keeps "severity" (VStr (severity_to_label (severity_from_proto (rc_severity rc)))) v Hsev)
    as (<- & <- & <-). by apply dset_keeps.
Qed.

(** The rule [k] is switched off by the messages. *)
Definition disabled (rcs : list RuleConfig) (k : string) : Prop :=
  ∃ rc, config_map rcs !! k = Some rc ∧ rc_enabled rc = false.

Lemma apply_rule_config_None rcs v : apply_rule_config (config_map rcs) v = None ↔ disabled rcs (bare_id v).
Proof.
  unfold apply_rule_config, disabled. destruct (config_map rcs !! bare_id v) as [rc|] eqn:E.
  2: { split; [done|]. by intros (? & ? & _). }
  split.
  - destruct (rc_enabled rc) eqn:Ee; [done|]. by exists rc.
  - by intros (? & [= <-] & ->).
Qed.

Lemma apply_rule_configs_omap vs rcs : apply_rule_configs vs rcs = omap (apply_rule_config (config_map rcs)) vs.
Proof.
  destruct rcs; [|done]. simpl. induction vs as [|v vs IH]; [done|]. csimpl. unfold apply_rule_config at 1.
  unfold config_map at 1. simpl. rewrite lookup_empty. by f_equal.
Qed.

Lemma attach_snippet_keeps m v :
  dedup_key (attach_snippet m v) = dedup_key v ∧ sort_key (attach_snippet m v) = sort_key v ∧
  bare_id (attach_snippet m v) = bare_id v.
Proof.
  unfold attach_snippet. repeat case_match; try done. apply dset_keeps. set_solver.
Qed.

(** ** Snippets *)

Lemma no_break_no_LF s : no_break s → PyPath.free_of LF s.
Proof.
  unfold no_break, PyPath.free_of. induction s as [|c s IH]; [done|]. simpl.
  intros [Hc Hs]%andb_true_iff. rewrite IH by done. rewrite andb_true_r.
  apply bool_decide_eq_true. intros ->. by vm_compute in Hc.
Qed.

Lemma no_break_sapp a b : no_break a → no_break b → no_break (a +:+ b).
Proof. unfold no_break. intros Ha Hb. by rewrite sforall_app, Ha, Hb. Qed.

Lemma no_break_numbered lines i : Forall no_break lines → no_break (numbered_line lines i).
Proof.
  intros Hl. unfold numbered_line, rjust4.
  repeat apply no_break_sapp; [apply no_break_spaces|by apply (pretty_N_forall _ (N.of_nat (i + 1)))|done|].
  destruct (lines !! i) as [l|] eqn:E; [|done]. by eapply Forall_lookup_1.
Qed.

(** The rows of the snippet of a line that the file has: one row per line of the file
    that is at most ten lines away, in order, each with its number. *)
Lemma snippet_rows content n :
  let lines := splitlines content in
  (1 <= n <= Z.of_nat (length lines))%Z →
  ∃ start count,
    split_on LF (snippet lines n) = numbered_line lines <$> seq start count ∧
    ∀ i : nat, i ∈ seq start count ↔
      (n - 10 <= Z.of_nat i + 1 <= n + 10)%Z ∧ (i < length lines)%nat.
Proof.
  intros lines Hn. unfold snippet, SNIPPET_CONTEXT_LINES. eexists _, _. split.
  - apply split_join.
    + set (c := Z.to_nat _) at 2. assert (c ≠ 0)%nat by (subst c; lia). by destruct c.
    + apply Forall_fmap, Forall_true. intros i. apply no_break_no_LF, no_break_numbered.
      apply Forall_fmap, Forall_true. intros l. apply no_break_chomp.
  - intros i. rewrite elem_of_seq. lia.
Qed.
