(* ===== verification/VenvInstall.v ===== *)
(** * Building a virtual environment

    The pure helpers of [src/apme_engine/venv_manager/venv_collections.py], and the part of
    [src/apme_engine/venv_manager/session.py] that builds an environment: the base
    environment, the installation of collections through the Galaxy proxy, and its chain
    of fallbacks.

    The commands run in another process: what a command does to the directory of the
    environment and to the proxy (together of type [V]) and how it ends is the class
    [Shell]; so are the request that asks the proxy to prepare collections, and the
    settings read from the environment.  The model keeps the list of the commands that ended, with their exit
    codes; it is never read. *)

From stdpp Require Import base list gmap strings pretty.
From Stdlib Require Import Ascii String.
From S2P Require Import Prelude PyStr PyPath Sha256 Violation ScanFindings.

#[local] Open Scope string_scope.
#[local] Notation length := List.length.

(** ** Collection specs *)

(** [spec.split(":")[0].strip()], [_spec_bare_fqcn] *)
Definition spec_bare_fqcn (spec : string) : string :=
  strip (match split1 ":" spec with Some (a, _) => a | None => spec end).

(** [_spec_version_pin] *)
Definition spec_version_pin (spec : string) : option string :=
  match split1 ":" spec with
  | None => None
  | Some (_, v) => if decide (strip v = "") then None else Some (strip v)
  end.

Definition CONSTRAINT_CHARS : list string := ["<"; ">"; "!"; "="; "~"].

(** [_spec_to_pip]; [None] is the [ValueError] *)
Definition spec_to_pip (spec : string) : option string :=
  match split1 "." (spec_bare_fqcn spec) with
  | None => None
  | Some (namespace, collection) =>
    let pkg := "ansible-collection-" +:+ namespace +:+ "-" +:+ collection in
    Some (match spec_version_pin spec with
          | None => pkg
          | Some version =>
            if decide (version = "*") then pkg
            else pkg +:+ (if existsb (startswith version) CONSTRAINT_CHARS then version else "==" +:+ version)
          end)
  end.

(** [_requirements_hash] *)
Definition requirements_hash (specs : list string) : string :=
  String.substring 0 16 (sha256_hex (sjoin (String LF "") (sort_by String.leb specs))).

(** [_installed_satisfies_spec] *)
Definition installed_satisfies_spec (installed : gset string) (spec : string) : bool :=
  if decide (spec ∈ installed) then true
  else if decide (spec_bare_fqcn spec ∈ (set_map spec_bare_fqcn installed : gset string))
  then match spec_version_pin spec with None => true | Some _ => false end
  else false.

(** [_merge_installed_collections] *)
Definition merge_installed_collections (installed succeeded : gset string) : gset string :=
  filter (λ s, spec_bare_fqcn s ∉ (set_map spec_bare_fqcn succeeded : gset string)) installed ∪ succeeded.

(** ** What went wrong in a build *)

(** [p in s] *)
Fixpoint occurs (p s : string) : bool :=
  startswith s p || match s with "" => false | String _ s' => occurs p s' end.

Definition BUILD_MARKERS : list string :=
  ["Failed to build"; "build_wheel"; "build_sdist"; "pkg-config"; "error: command"].

(** [_is_build_failure] *)
Definition is_build_failure (output : string) : bool := existsb (λ m, occurs m output) BUILD_MARKERS.

Definition FAILED_BUILD : string := "Failed to build `".

(** A match of [_FAILED_BUILD_RE] at the start of [s]: the group and the length of the match. *)
Definition match_failed_build (s : string) : option (string * nat) :=
  if startswith s FAILED_BUILD then
    match split1 "`" (sdrop (String.length FAILED_BUILD) s) with
    | Some (name, _) =>
      if decide (name = "") then None
      else Some (name, String.length FAILED_BUILD + String.length name + 1)%nat
    | None => None
    end
  else None.

(** [_FAILED_BUILD_RE.findall(s)], after [skip] characters *)
Fixpoint failed_builds (skip : nat) (s : string) : list string :=
  match s with
  | "" => []
  | String _ s' =>
    match skip with
    | S skip' => failed_builds skip' s'
    | O =>
      match match_failed_build s with
      | Some (name, n) => name :: failed_builds (n - 1) s'
      | None => failed_builds 0 s'
      end
    end
  end.

(** [s.split(sep)[0]] *)
Fixpoint before_sub (sep s : string) : string :=
  if startswith s sep then ""
  else match s with "" => "" | String c s' => String c (before_sub sep s') end.

Definition package_name (entry : string) : string :=
  before_sub "!=" (before_sub "<=" (before_sub ">=" (before_sub "==" entry))).

(** [_extract_unbuildable_packages]: in order, each name once *)
Definition extract_unbuildable_packages (output : string) : list string :=
  foldl (λ result name, if decide (name ∈ result) then result else (result ++ [name])%list) []
    (package_name <$> failed_builds 0 output).

(** ** Commands *)

Inductive venv_error :=
| InvalidSpec (spec : string)                  (* ValueError of _spec_to_pip *)
| PipInstallTimeout (argv : list string)
| ProxyUnset
| NoPython                                     (* FileNotFoundError *)
| CommandFailed (argv : list string) (code : Z)   (* CalledProcessError *)
| InvalidSession (session_id : string)
| InvalidVersion (raw : string)
| SiblingCap (siblings : nat).

Inductive run_end := Exited (code : Z) (stdout stderr : string) | Stalled.

Inductive prep_end := Prepared | Conflict | PrepareFailed.

Class Shell (V : Type) := {
  empty_dir : V;                                          (* the directory before a build *)
  run_cmd : V → list string → option string → V * run_end;   (* argv, text of the excludes file *)
  venv_python : V → option string;                        (* the interpreter, if there is one *)
  post_prepare : V → list string → V * prep_end;          (* POST /admin/prepare-collections *)
  uv_available : bool;
  proxy_url : option string;                              (* APME_GALAXY_PROXY_URL *)
  uv_index_strategy : string;
  sys_executable : string;
}.

Record shell (V : Type) := MkShell { sh_dir : V; sh_log : list (list string * Z) }.
Arguments MkShell {V} _ _.
Arguments sh_dir {V} _.
Arguments sh_log {V} _.

(** A computation that runs commands and may raise. *)
Definition cmd (V A : Type) : Type := shell V → shell V * (venv_error + A).

Definition cret {V A} (x : A) : cmd V A := λ s, (s, inr x).
Definition craise {V A} (e : venv_error) : cmd V A := λ s, (s, inl e).
Definition cbind {V A B} (c : cmd V A) (f : A → cmd V B) : cmd V B :=
  λ s, match c s with (s', inl e) => (s', inl e) | (s', inr x) => f x s' end.

Declare Scope cmd_scope.
Delimit Scope cmd_scope with cmd.
Notation "x ⇐ c ;; d" := (cbind c (λ x, d%cmd)) (at level 100, c at next level, right associativity) : cmd_scope.
Open Scope cmd_scope.

(** A finished command: its code and output. *)
Record CompletedProcess := MkCP { cp_code : Z; cp_stdout : string; cp_stderr : string }.

(** [result.stderr or result.stdout] *)
Definition cp_output (r : CompletedProcess) : string :=
  if decide (cp_stderr r = "") then cp_stdout r else cp_stderr r.

Section Install.
Context {V : Type} `{Shell V}.

(** [_run_subprocess_timed] under [_PIP_INSTALL_TIMEOUT_S], with its [TimeoutExpired] turned
    into [PipInstallTimeout] *)
Definition run_timed (argv : list string) (excludes : option string) : cmd V CompletedProcess := λ s,
  match run_cmd (sh_dir s) argv excludes with
  | (d, Exited code out err) => (MkShell d (sh_log s ++ [(argv, code)])%list, inr (MkCP code out err))
  | (d, Stalled) => (MkShell d (sh_log s), inl (PipInstallTimeout argv))
  end.

Definition EXCLUDES_FILE : string := "excludes.txt".

(** The command line of [_run_pip_install]. *)
Definition pip_argv (pip_python : string) (pip_specs : list string) (simple_url : string) (use_uv : bool)
    (exclude_file : bool) (no_build : bool) : list string :=
  if use_uv then
    (["uv"; "pip"; "install"; "--python"; pip_python; "--extra-index-url"; simple_url; "--index-strategy";
      if decide (strip uv_index_strategy = "") then "unsafe-best-match" else strip uv_index_strategy]
     ++ (if exclude_file then ["--excludes"; EXCLUDES_FILE] else [])
     ++ (if no_build then ["--no-build"] else []) ++ pip_specs)%list
  else
    ([pip_python; "-m"; "pip"; "install"; "--extra-index-url"; simple_url]
     ++ (if no_build then ["--only-binary"; ":all:"] else []) ++ pip_specs)%list.

(** [_run_pip_install] *)
Definition run_pip_install (pip_python : string) (pip_specs : list string) (simple_url : string) (use_uv : bool)
    (excludes : option string) (no_build : bool) : cmd V CompletedProcess :=
  run_timed (pip_argv pip_python pip_specs simple_url use_uv (bool_decide (is_Some excludes)) no_build) excludes.

Definition MAX_EXCLUDE_RETRIES : nat := 5.

(** ["\n".join(sorted(all_excluded)) + "\n"] *)
Definition excludes_text (excluded : gset string) : string :=
  sjoin (String LF "") (sorted_ids excluded) +:+ String LF "".

(** The rounds of [_retry_without_native]: this one and at most [n] more. *)
Fixpoint retry_rounds (n : nat) (pip_python : string) (pip_specs : list string) (simple_url : string)
    (excluded : gset string) : cmd V CompletedProcess :=
  (result ⇐ run_pip_install pip_python pip_specs simple_url true (Some (excludes_text excluded)) false;;
   if (cp_code result =? 0)%Z then cret result
   else if is_build_failure (cp_output result) then
     let newly_found : gset string :=
       list_to_set (extract_unbuildable_packages (cp_output result)) ∖ excluded in
     if decide (newly_found = ∅) then cret result
     else match n with
          | O => cret result
          | S n' => retry_rounds n' pip_python pip_specs simple_url (excluded ∪ newly_found)
          end
   else cret result)%cmd.

(** [_retry_without_native] *)
Definition retry_without_native (pip_python : string) (pip_specs : list string) (simple_url : string)
    (use_uv : bool) (unbuildable : list string) : cmd V CompletedProcess :=
  if use_uv && negb (bool_decide (unbuildable = []))
  then retry_rounds (MAX_EXCLUDE_RETRIES - 1) pip_python pip_specs simple_url (list_to_set unbuildable)
  else run_pip_install pip_python pip_specs simple_url use_uv None true.

(** The first attempt and, after a conflict, one more; its outcome is only logged. *)
Definition prepare_collections (specs : list string) : cmd V unit := λ s,
  match post_prepare (sh_dir s) specs with
  | (d, Conflict) => (MkShell (post_prepare d specs).1 (sh_log s), inr tt)
  | (d, _) => (MkShell d (sh_log s), inr tt)
  end.

(** One install with its retry: the body shared by the bulk and the single installs. *)
Definition install_or_retry (pip_python : string) (pip_specs : list string) (simple_url : string)
    (use_uv : bool) : cmd V CompletedProcess :=
  (result ⇐ run_pip_install pip_python pip_specs simple_url use_uv None false;;
   if (cp_code result =? 0)%Z then cret result
   else if is_build_failure (cp_output result)
   then retry_without_native pip_python pip_specs simple_url use_uv
          (extract_unbuildable_packages (cp_output result))
   else cret result)%cmd.

(** The loop over single specs: those that failed. *)
Fixpoint install_each (pip_python simple_url : string) (use_uv : bool) (specs : list (string * string))
    : cmd V (list string) :=
  match specs with
  | [] => cret []
  | (spec, pip_spec) :: specs' =>
    (r ⇐ install_or_retry pip_python [pip_spec] simple_url use_uv;;
     failed ⇐ install_each pip_python simple_url use_uv specs';;
     cret (if (cp_code r =? 0)%Z then failed else spec :: failed))%cmd
  end.

(** [[_spec_to_pip(s) for s in collection_specs]], with each spec kept beside its result *)
Fixpoint pip_pairs (specs : list string) : venv_error + list (string * string) :=
  match specs with
  | [] => inr []
  | spec :: specs' =>
    match spec_to_pip spec with
    | None => inl (InvalidSpec spec)
    | Some p => match pip_pairs specs' with inl e => inl e | inr l => inr ((spec, p) :: l) end
    end
  end.

(** [_install_collections_via_proxy] *)
Definition install_collections_via_proxy (pip_python : string) (specs : list string) (proxy : string)
    (use_uv : bool) : cmd V (list string) :=
  let simple_url := rstrip_char "/" proxy +:+ "/simple/" in
  match pip_pairs specs with
  | inl e => craise e
  | inr pairs =>
    (_ ⇐ prepare_collections specs;;
     r ⇐ install_or_retry pip_python pairs.*2 simple_url use_uv;;
     if (cp_code r =? 0)%Z then cret [] else install_each pip_python simple_url use_uv pairs)%cmd
  end.

(** [get_venv_python] *)
Definition get_venv_python : cmd V string := λ s,
  match venv_python (sh_dir s) with Some p => (s, inr p) | None => (s, inl NoPython) end.

(** [install_collections_incremental] *)
Definition install_collections_incremental (specs : list string) : cmd V (list string) :=
  match specs with
  | [] => cret []
  | _ =>
    match proxy_url with
    | None => craise ProxyUnset
    | Some proxy => (p ⇐ get_venv_python;; install_collections_via_proxy p specs proxy uv_available)%cmd
    end
  end.

(** [_run_base_venv_cmd] *)
Definition run_base_venv_cmd (argv : list string) : cmd V unit :=
  (r ⇐ run_timed argv None;; if (cp_code r =? 0)%Z then cret tt else craise (CommandFailed argv (cp_code r)))%cmd.

(** [create_base_venv], without a chosen interpreter *)
Definition create_base_venv (venv_dir ansible_core_version : string) : cmd V unit :=
  (_ ⇐ run_base_venv_cmd (if uv_available then ["uv"; "venv"; venv_dir]
                          else [sys_executable; "-m"; "venv"; venv_dir]);;
   p ⇐ get_venv_python;;
   run_base_venv_cmd
     (if uv_available then ["uv"; "pip"; "install"; "--python"; p; "ansible-core==" +:+ ansible_core_version]
      else [p; "-m"; "pip"; "install"; "ansible-core==" +:+ ansible_core_version]))%cmd.
End Install.
