(* ===== verification/VenvStore.v ===== *)
(** * Session environments

    [VenvSessionManager] of [src/apme_engine/venv_manager/session.py] and the sibling cap of
    [src/apme_engine/venv_manager/venv_collections.py].

    The directory of sessions is a map from session id to session directory, a session
    directory one from core version to version directory.  A method that holds the
    session's lock is one step on this store; times are integers of any unit.  Reading
    and writing the JSON files is not modelled beyond what the code tells apart: a
    missing or unreadable [meta.json], one that holds some other object, and a session
    record.  Metrics and logging are left out. *)

From stdpp Require Import base list gmap strings pretty.
From Stdlib Require Import Ascii String.
From S2P Require Import Prelude PyStr PyPath PyNum Violation ScanFindings VenvInstall.

#[local] Open Scope string_scope.
#[local] Notation length := List.length.

(** ** Names *)

Definition session_char (c : ascii) : bool :=
  let n := N_of_ascii c in
  (((65 <=? n) && (n <=? 90)) || ((97 <=? n) && (n <=? 122)) || ((48 <=? n) && (n <=? 57))
   || (n =? 95) || (n =? 45))%N.

(** The text before the end or a final line feed, where [$] matches. *)
Fixpoint before_end (s : string) : string :=
  match s with
  | "" => ""
  | String c "" => if Ascii.eqb c LF then "" else s
  | String c s' => String c (before_end s')
  end.

(** [_SAFE_SESSION_RE.match] *)
Definition safe_session (s : string) : bool :=
  negb (bool_decide (before_end s = "")) && sforall session_char (before_end s).

(** [_sanitize_session_id] *)
Definition sanitize_session_id (s : string) : venv_error + string :=
  if negb (bool_decide (s = "")) && safe_session s then inr s else inl (InvalidSession s).

(** One or more digits. *)
Definition all_digits (s : string) : bool := negb (bool_decide (s = "")) && sforall is_digit s.

(** [_SAFE_VERSION_RE.match] *)
Definition safe_version (s : string) : bool :=
  match split_on "." (before_end s) with
  | [a; b] => all_digits a && all_digits b
  | [a; b; c] => all_digits a && all_digits b && all_digits c
  | _ => false
  end.

(** [_normalize_version] *)
Definition normalize_version (raw : string) : venv_error + string :=
  if safe_version (strip raw) then
    inr (match split_on "." (strip raw) with
         | [a; b] => a +:+ "." +:+ b +:+ ".0"
         | _ => strip raw
         end)
  else inl (InvalidVersion raw).

(** ** The store *)

Record VenvSession := MkVenvSession {
  ve_session_id : string;
  ve_venv_root : string;
  ve_ansible_version : string;
  ve_installed_collections : list string;
  ve_failed_collections : list string;
  ve_requirements_hash : string;
  ve_created_at : Z;
  ve_last_used_at : Z;
}.

Inductive meta_file := NoMeta | Unreadable | OtherObject | Meta (m : VenvSession).

(** [_read_version_meta] *)
Definition read_version_meta (f : meta_file) : option VenvSession :=
  match f with Meta m => Some m | _ => None end.

(** [_has_valid_meta] *)
Definition has_valid_meta (f : meta_file) : bool :=
  match f with Meta _ | OtherObject => true | _ => false end.

Record version_dir (V : Type) := MkVersion { vd_meta : meta_file; vd_venv : option V }.
Arguments MkVersion {V} _ _.
Arguments vd_meta {V} _.
Arguments vd_venv {V} _.

(** [session.json] (creation and last use; [None] if missing or unreadable) and the versions. *)
Record session_dir (V : Type) := MkSessionDir {
  sd_json : option (Z * Z);
  sd_versions : gmap string (version_dir V);
}.
Arguments MkSessionDir {V} _ _.
Arguments sd_json {V} _.
Arguments sd_versions {V} _.

Notation store V := (gmap string (session_dir V)).

Section Store.
Context {V : Type} `{Shell V}.
Context (root : string) (max_venvs : nat) (ttl : Z).

Definition empty_session : session_dir V := MkSessionDir None ∅.

Definition venv_path (session_id version : string) : string :=
  root +:+ "/" +:+ session_id +:+ "/" +:+ version +:+ "/venv".

(** [_touch_session] *)
Definition touch_session_json (now : Z) (sd : session_dir V) : session_dir V :=
  MkSessionDir (Some (match sd_json sd with Some (created, _) => created | None => now end, now)) (sd_versions sd).

Definition set_version (version : string) (vd : version_dir V) (sd : session_dir V) : session_dir V :=
  MkSessionDir (sd_json sd) (<[version := vd]> (sd_versions sd)).

Definition remove_version (version : string) (sd : session_dir V) : session_dir V :=
  MkSessionDir (sd_json sd) (delete version (sd_versions sd)).

Definition version_in (sd : session_dir V) (version : string) : version_dir V :=
  default (MkVersion NoMeta None) (sd_versions sd !! version).

(** The record and the environment of a version that can be reused. *)
Definition reusable (sd : session_dir V) (version : string) : option (VenvSession * V) :=
  match read_version_meta (vd_meta (version_in sd version)), vd_venv (version_in sd version) with
  | Some m, Some d => Some (m, d)
  | _, _ => None
  end.

(** [_complete_warm_hit] *)
Definition complete_warm_hit (now : Z) (desired_hash : string) (m : VenvSession) : VenvSession :=
  MkVenvSession (ve_session_id m) (ve_venv_root m) (ve_ansible_version m) (ve_installed_collections m) []
    desired_hash (ve_created_at m) now.

(** The requested specs that the record does not satisfy. *)
Definition missing_specs (installed requested : gset string) : gset string :=
  filter (λ s, installed_satisfies_spec installed s = false) requested.

(** [peek_warm] *)
Definition peek_warm (st : store V) (session_id ansible_version : string) (specs : list string) (now : Z)
    : store V * (venv_error + option VenvSession) :=
  match sanitize_session_id session_id, normalize_version ansible_version with
  | inl e, _ | _, inl e => (st, inl e)
  | inr sid, inr version =>
    match st !! sid with
    | None => (st, inr None)
    | Some sd =>
      match reusable sd version with
      | None => (st, inr None)
      | Some (m, d) =>
        if existsb (λ s, negb (installed_satisfies_spec (list_to_set (ve_installed_collections m)) s)) specs
        then (st, inr None)
        else
          let m' := complete_warm_hit now (requirements_hash specs) m in
          (<[sid := set_version version (MkVersion (Meta m') (Some d)) sd]> st, inr (Some m'))
      end
    end
  end.

(** *** Acquiring *)

(** [count_sibling_venvs] *)
Definition counts_as_sibling (pip_version : string) (p : string * version_dir V) : bool :=
  negb (startswith p.1 ".") && negb (bool_decide (p.1 = pip_version)) && safe_version p.1
  && has_valid_meta (vd_meta p.2).

Definition count_sibling_venvs (sd : session_dir V) (pip_version : string) : nat :=
  length (filter (λ p, counts_as_sibling pip_version p = true) (map_to_list (sd_versions sd))).

(** The record after an incremental install. *)
Definition reconciled (now : Z) (desired_hash : string) (requested : gset string) (failed : list string)
    (m : VenvSession) : VenvSession :=
  let succeeded := requested ∖ list_to_set failed in
  MkVenvSession (ve_session_id m) (ve_venv_root m) (ve_ansible_version m)
    (sorted_ids (merge_installed_collections (list_to_set (ve_installed_collections m)) succeeded))
    (sort_by String.leb failed)
    (if decide (failed = []) then desired_hash else ve_requirements_hash m)
    (ve_created_at m) now.

(** The branch of [acquire] for an existing environment. *)
Definition acquire_existing (sd : session_dir V) (version : string) (m : VenvSession) (d : V)
    (specs : list string) (now : Z) : session_dir V * (venv_error + VenvSession) :=
  let requested : gset string := list_to_set specs in
  let missing := missing_specs (list_to_set (ve_installed_collections m)) requested in
  if decide (missing = ∅) then
    let m' := complete_warm_hit now (requirements_hash specs) m in
    (set_version version (MkVersion (Meta m') (Some d)) sd, inr m')
  else
    match install_collections_incremental (sorted_ids missing) (MkShell d []) with
    | (s, inl e) => (set_version version (MkVersion (Meta m) (Some (sh_dir s))) sd, inl e)
    | (s, inr failed) =>
      let m' := reconciled now (requirements_hash specs) requested failed m in
      (set_version version (MkVersion (Meta m') (Some (sh_dir s))) sd, inr m')
    end.

(** The commands of a cold start. *)
Definition cold_build (sid version : string) (specs : list string) : cmd V (list string) :=
  (_ ⇐ create_base_venv (venv_path sid version) version;;
   match specs with [] => cret [] | _ => install_collections_incremental specs end)%cmd.

(** The record of a new environment. *)
Definition new_record (sid version : string) (specs failed : list string) (now : Z) : VenvSession :=
  MkVenvSession sid (venv_path sid version) version
    (sorted_ids (list_to_set specs ∖ list_to_set failed)) (sort_by String.leb failed)
    (if decide (failed = []) then requirements_hash specs else "") now now.

(** The branch for a new environment; a failed build removes the version directory. *)
Definition acquire_cold (sd : session_dir V) (sid version : string) (specs : list string) (now : Z)
    : session_dir V * (venv_error + VenvSession) :=
  let siblings := count_sibling_venvs sd version in
  if (max_venvs <=? siblings)%nat then (sd, inl (SiblingCap siblings))
  else
    match cold_build sid version specs (MkShell empty_dir []) with
    | (_, inl e) => (remove_version version sd, inl e)
    | (s, inr failed) =>
      let m := new_record sid version specs failed now in
      (set_version version (MkVersion (Meta m) (Some (sh_dir s))) sd, inr m)
    end.

(** [acquire]; [now] is the time of the first, [later] that of the last reading of the clock *)
Definition acquire (st : store V) (session_id ansible_version : string) (specs : list string) (now later : Z)
    : store V * (venv_error + VenvSession) :=
  match sanitize_session_id session_id, normalize_version ansible_version with
  | inl e, _ | _, inl e => (st, inl e)
  | inr sid, inr version =>
    let sd := touch_session_json now (default empty_session (st !! sid)) in
    let '(sd', r) := match reusable sd version with
      | Some (m, d) => acquire_existing sd version m d specs later
      | None => acquire_cold sd sid version specs later
      end in
    (<[sid := sd']> st, r)
  end.

(** *** The other methods *)

Definition visible (name : string) : bool := negb (startswith name ".").

Definition used_at (now : Z) (m : VenvSession) : VenvSession :=
  MkVenvSession (ve_session_id m) (ve_venv_root m) (ve_ansible_version m) (ve_installed_collections m)
    (ve_failed_collections m) (ve_requirements_hash m) (ve_created_at m) now.

Definition touch_version (now : Z) (name : string) (vd : version_dir V) : version_dir V :=
  match read_version_meta (vd_meta vd) with
  | Some m => if visible name then MkVersion (Meta (used_at now m)) (vd_venv vd) else vd
  | None => vd
  end.

(** [touch] *)
Definition touch_venvs (st : store V) (session_id : string) (now : Z) : store V * (venv_error + bool) :=
  match sanitize_session_id session_id with
  | inl e => (st, inl e)
  | inr sid =>
    match st !! sid with
    | None => (st, inr false)
    | Some sd =>
      (<[sid := touch_session_json now (MkSessionDir (sd_json sd) (map_imap (λ k vd, Some (touch_version now k vd)) (sd_versions sd)))]> st,
       inr true)
    end
  end.

(** [release] *)
Definition release (st : store V) (session_id : string) : venv_error + bool :=
  match sanitize_session_id session_id with
  | inl e => inl e
  | inr sid => inr (bool_decide (is_Some (st !! sid)))
  end.

(** The records of a session directory, in the order in which it is listed. *)
Definition session_records (sd : session_dir V) : list VenvSession :=
  omap (λ p, if visible p.1 then read_version_meta (vd_meta p.2) else None) (map_to_list (sd_versions sd)).

Definition newer (best : option VenvSession) (m : VenvSession) : option VenvSession :=
  match best with
  | Some b => if (ve_last_used_at b <? ve_last_used_at m)%Z then Some m else best
  | None => Some m
  end.

(** [get]; the version is optional, and an empty one counts as absent *)
Definition get (st : store V) (session_id : string) (ansible_version : option string) : venv_error + option VenvSession :=
  match sanitize_session_id session_id with
  | inl e => inl e
  | inr sid =>
    match st !! sid with
    | None => inr None
    | Some sd =>
      match ansible_version with
      | None | Some "" => inr (foldl newer None (session_records sd))
      | Some raw =>
        match normalize_version raw with
        | inl e => inl e
        | inr version => inr (read_version_meta (vd_meta (version_in sd version)))
        end
      end
    end
  end.

(** [list_sessions] *)
Definition list_sessions (st : store V) : list VenvSession :=
  sort_by (λ a b, (ve_last_used_at b <=? ve_last_used_at a)%Z) (map_to_list st ≫= λ p, session_records p.2).

(** [delete] *)
Definition delete_session (st : store V) (session_id : string) : store V * (venv_error + bool) :=
  match sanitize_session_id session_id with
  | inl e => (st, inl e)
  | inr sid => (delete sid st, inr (bool_decide (is_Some (st !! sid))))
  end.

(** [reap_expired]: what becomes of a version directory; [None] is its removal. *)
Definition expired_meta (now : Z) (m : VenvSession) : bool := (ttl <? now - ve_last_used_at m)%Z.

Definition reap_version (now : Z) (name : string) (vd : version_dir V) : option (version_dir V) :=
  if visible name then
    match read_version_meta (vd_meta vd) with
    | None => None
    | Some m => if expired_meta now m then None else Some vd
    end
  else Some vd.

(** [versions_remain] *)
Definition versions_remain (sd : session_dir V) (now : Z) : bool :=
  existsb (λ m, negb (expired_meta now m)) (session_records sd).

Definition reap_session (now : Z) (sid : string) (sd : session_dir V) : option (session_dir V) :=
  if versions_remain sd now then Some (MkSessionDir (sd_json sd) (map_imap (reap_version now) (sd_versions sd)))
  else None.

Definition reap_expired (st : store V) (now : Z) : store V * nat :=
  (map_imap (reap_session now) st,
   length (filter (λ m, expired_meta now m = true) (map_to_list st ≫= λ p, session_records p.2))).
End Store.
