(* ===== verification/VenvProps.v ===== *)
(** * Properties of the session environments

    What an installation runs and reports, what [acquire] promises, and what the reaper
    removes. *)

From stdpp Require Import base list gmap strings pretty.
From Stdlib Require Import Ascii String.
From S2P Require Import Prelude PyStr PyPath PyNum Violation ScanFindings VenvInstall VenvStore.

#[local] Open Scope string_scope.
#[local] Notation length := List.length.
#[local] Open Scope cmd_scope.

(** ** Installations *)

Section Install.
Context {V : Type} `{Shell V}.

(** The computation only adds commands to the log, and they and its result satisfy [P]. *)
Definition runs {A} (c : cmd V A) (P : list (list string * Z) → venv_error + A → Prop) : Prop :=
  ∀ s s' r, c s = (s', r) → ∃ calls, sh_log s' = (sh_log s ++ calls)%list ∧ P calls r.

Lemma runs_ret {A} (x : A) (P : list (list string * Z) → venv_error + A → Prop) : P [] (inr x) → runs (cret x) P.
Proof. intros HP s s' r [= <- <-]. exists []. by rewrite app_nil_r. Qed.

Lemma runs_raise {A} e (P : list (list string * Z) → venv_error + A → Prop) : P [] (inl e) → runs (craise e) P.
Proof. intros HP s s' r [= <- <-]. exists []. by rewrite app_nil_r. Qed.

Lemma runs_weaken {A} (c : cmd V A) (P Q : list (list string * Z) → venv_error + A → Prop) :
  runs c P → (∀ calls r, P calls r → Q calls r) → runs c Q.
Proof. intros Hc HPQ s s' r Hs. destruct (Hc s s' r Hs) as (calls & ? & ?). eauto. Qed.

Lemma runs_bind {A B} (c : cmd V A) (f : A → cmd V B) (P : list (list string * Z) → venv_error + A → Prop)
    (Q : list (list string * Z) → venv_error + B → Prop) :
  runs c P →
  (∀ e calls, P calls (inl e) → Q calls (inl e)) →
  (∀ x c1, P c1 (inr x) → runs (f x) (λ c2 r, Q (c1 ++ c2)%list r)) →
  runs (cbind c f) Q.
Proof.
  intros Hc He Hf s s' r Hs. unfold cbind in Hs. destruct (c s) as [s1 [e|x]] eqn:Ec.
  - injection Hs as <- <-. destruct (Hc _ _ _ Ec) as (calls & ? & ?). eauto.
  - destruct (Hc _ _ _ Ec) as (c1 & Hl1 & HP). destruct (Hf x c1 HP _ _ _ Hs) as (c2 & Hl2 & HQ).
    exists (c1 ++ c2)%list. split; [|done]. by rewrite Hl2, Hl1, app_assoc.
Qed.

(** At most [k] commands, and a result of 0 means that one of them installed [specs]. *)
Definition installs (specs : list string) (k : nat) (calls : list (list string * Z))
    (r : venv_error + CompletedProcess) : Prop :=
  (length calls ≤ k)%nat ∧
  ∀ cp, r = inr cp → cp_code cp = 0%Z → ∃ argv, (argv, 0%Z) ∈ calls ∧ specs ⊆ argv.

Lemma run_timed_runs argv excludes :
  runs (run_timed argv excludes)
    (λ calls r, match r with inr cp => calls = [(argv, cp_code cp)] | inl _ => calls = [] end).
Proof.
  intros s s' r. unfold run_timed. destruct (run_cmd _ _ _) as [d [code out err|]]; intros [= <- <-].
  - by exists [(argv, code)].
  - exists []. by rewrite app_nil_r.
Qed.

Lemma pip_argv_specs py specs url uv ex nb : specs ⊆ pip_argv py specs url uv ex nb.
Proof. unfold pip_argv. intros p Hp. case_match; rewrite !elem_of_app; tauto. Qed.

Lemma run_pip_installs py specs url uv ex nb : runs (run_pip_install py specs url uv ex nb) (installs specs 1).
Proof.
  eapply runs_weaken; [apply run_timed_runs|]. intros calls [e|cp].
  - intros ->. split; [simpl; lia|done].
  - intros ->. split; [simpl; lia|]. intros ? [= <-] Hz. eexists. rewrite Hz. split; [left|]. apply pip_argv_specs.
Qed.

Lemma installs_app specs k k' c1 c2 r :
  (length c1 ≤ k)%nat → installs specs k' c2 r → installs specs (k + k') (c1 ++ c2)%list r.
Proof.
  intros Hl [Hl' Hr]. split; [rewrite length_app; lia|]. intros cp E Hz.
  destruct (Hr cp E Hz) as (argv & Hin & Hs). exists argv. rewrite elem_of_app. tauto.
Qed.

Lemma installs_more specs k k' calls r : installs specs k calls r → (k ≤ k')%nat → installs specs k' calls r.
Proof. intros [Hl Hr] Hk. split; [lia|done]. Qed.

Lemma retry_rounds_installs n py specs url ex : runs (retry_rounds n py specs url ex) (installs specs (S n)).
Proof.
  revert ex. induction n as [|n IH]; intros ex; cbn [retry_rounds]; (eapply runs_bind; [apply run_pip_installs|
    intros e calls Hi; eapply installs_more; [by destruct Hi; split|lia]|]); intros cp c1 Hi.
  - assert (runs (cret cp) (λ c2 r, installs specs 1 (c1 ++ c2)%list r)) as Hret
      by (apply runs_ret; by rewrite app_nil_r).
    repeat case_match; done.
  - assert (runs (cret cp) (λ c2 r, installs specs (S (S n)) (c1 ++ c2)%list r)) as Hret
      by (apply runs_ret; rewrite app_nil_r; eapply installs_more; [done|lia]).
    repeat case_match; try done. eapply runs_weaken; [apply IH|]. intros c2 r Hr.
    apply (installs_app specs 1 (S n)); [by destruct Hi|done].
Qed.

Lemma install_or_retry_installs py specs url uv : runs (install_or_retry py specs url uv) (installs specs 6).
Proof.
  unfold install_or_retry. eapply runs_bind; [apply run_pip_installs| |].
  { intros e calls Hi. eapply installs_more; [by destruct Hi; split|lia]. }
  intros cp c1 Hi.
  assert (runs (cret cp) (λ c2 r, installs specs 6 (c1 ++ c2)%list r)) as Hret
    by (apply runs_ret; rewrite app_nil_r; eapply installs_more; [done|lia]).
  case_match; [done|]. case_match; [|done]. unfold retry_without_native. destruct Hi as [Hl _]. case_match.
  - eapply runs_weaken; [apply retry_rounds_installs|]. intros c2 r. by apply (installs_app specs 1 5).
  - eapply runs_weaken; [apply run_pip_installs|]. intros c2 r Hr.
    eapply installs_more; [by apply (installs_app specs 1 1)|lia].
Qed.

(** What a list of failed specs means: some of the requested ones, in order, and each of
    the others was named by a command that ended with 0. *)
Definition reported (pairs : list (string * string)) (calls : list (list string * Z))
    (r : venv_error + list string) : Prop :=
  ∀ failed, r = inr failed → failed `sublist_of` pairs.*1 ∧
    ∀ spec p, (spec, p) ∈ pairs → spec ∉ failed → ∃ argv, (argv, 0%Z) ∈ calls ∧ p ∈ argv.

Lemma install_each_runs py url uv pairs :
  runs (install_each py url uv pairs)
    (λ calls r, (length calls ≤ 6 * length pairs)%nat ∧ reported pairs calls r).
Proof.
  induction pairs as [|[spec p] pairs IH]; cbn [install_each].
  { apply runs_ret. split; [simpl; lia|]. intros ? [= <-]. split; [constructor|]. by intros ? ? ?%elem_of_nil. }
  eapply runs_bind; [apply install_or_retry_installs| |].
  { intros e calls [Hl _]. split; [simpl; lia|]. by intros ?. }
  intros cp c1 [Hl1 Hz]. eapply runs_bind; [apply IH| |].
  { intros e calls [Hl _]. split; [rewrite length_app; simpl; lia|]. by intros ?. }
  intros failed c2 [Hl2 Hrep]. destruct (Hrep failed eq_refl) as [Hsub Hok]. apply runs_ret. rewrite app_nil_r.
  split; [rewrite length_app; simpl; lia|]. intros ? [= <-]. destruct (Z.eqb_spec (cp_code cp) 0) as [E|E]; split.
  - by constructor.
  - intros s q [[= -> ->]|Hin]%elem_of_cons Hn.
    + destruct (Hz cp eq_refl E) as (argv & Ha & Hs). exists argv. rewrite elem_of_app. split; [by left|].
      apply Hs. left.
    + destruct (Hok s q Hin Hn) as (argv & ? & ?). exists argv. rewrite elem_of_app. tauto.
  - csimpl. by constructor.
  - intros s q [[= -> ->]|Hin]%elem_of_cons [Hne Hn]%not_elem_of_cons; [done|].
    destruct (Hok s q Hin Hn) as (argv & ? & ?). exists argv. rewrite elem_of_app. tauto.
Qed.

Lemma pip_pairs_inr specs pairs : pip_pairs specs = inr pairs →
  pairs.*1 = specs ∧ ∀ spec, spec ∈ specs → ∃ p, (spec, p) ∈ pairs ∧ spec_to_pip spec = Some p.
Proof.
  revert pairs. induction specs as [|s specs IH]; intros pairs; cbn [pip_pairs].
  { intros [= <-]. split; [done|]. by intros ? ?%elem_of_nil. }
  destruct (spec_to_pip s) as [p|] eqn:Ep; [|done]. destruct (pip_pairs specs) as [|l]; [done|]. intros [= <-].
  destruct (IH l eq_refl) as [E Hin]. csimpl. rewrite E. split; [done|].
  intros spec [->|Hs]%elem_of_cons; [exists p; split; [left|done]|].
  destruct (Hin spec Hs) as (q & ? & ?). exists q. split; [by right|done].
Qed.

Lemma prepare_runs specs : runs (prepare_collections specs) (λ calls r, calls = [] ∧ r = inr tt).
Proof.
  intros s s' r. unfold prepare_collections. destruct (post_prepare (sh_dir s) specs) as [d []]; intros [= <- <-];
    exists []; by rewrite app_nil_r.
Qed.

Lemma get_venv_python_runs : runs get_venv_python (λ calls _, calls = []).
Proof.
  intros s s' r. unfold get_venv_python. case_match; intros [= <- <-]; exists []; by rewrite app_nil_r.
Qed.

(** The promise of an installation of [specs]. *)
Definition installed_all (specs : list string) (calls : list (list string * Z)) (r : venv_error + list string) : Prop :=
  (length calls ≤ 6 * (length specs + 1))%nat ∧
  ∀ failed, r = inr failed → failed `sublist_of` specs ∧
    ∀ spec, spec ∈ specs → spec ∉ failed → ∃ p argv, spec_to_pip spec = Some p ∧ (argv, 0%Z) ∈ calls ∧ p ∈ argv.

Lemma install_via_proxy_runs py specs proxy uv :
  runs (install_collections_via_proxy py specs proxy uv) (installed_all specs).
Proof.
  unfold install_collections_via_proxy. destruct (pip_pairs specs) as [e|pairs] eqn:Ep.
  { apply runs_raise. split; [simpl; lia|done]. }
  destruct (pip_pairs_inr _ _ Ep) as [Es Hp].
  assert (length pairs = length specs) as Hlen by (by rewrite <- Es, length_fmap).
  eapply runs_bind; [apply prepare_runs|by intros ? ? [_ ?]|]. intros [] ? [-> _].
  eapply runs_bind; [apply install_or_retry_installs| |].
  { intros e calls [Hl _]. split; [simpl; lia|done]. }
  intros cp c1 [Hl1 Hz]. destruct (Z.eqb_spec (cp_code cp) 0) as [E|E].
  - apply runs_ret. rewrite app_nil_r. simpl. split; [lia|]. intros ? [= <-].
    split; [apply sublist_nil_l|]. intros spec Hs _. destruct (Hp spec Hs) as (p & Hin & Hpip).
    destruct (Hz cp eq_refl E) as (argv & Ha & Hsub). exists p, argv. split_and!; [done..|].
    apply Hsub. apply list_elem_of_fmap. by exists (spec, p).
  - eapply runs_weaken; [apply install_each_runs|]. intros c2 r [Hl2 Hrep]. simpl.
    split; [rewrite length_app; lia|]. intros failed ->. destruct (Hrep failed eq_refl) as [Hsub Hok].
    rewrite Es in Hsub. split; [done|]. intros spec Hs Hn. destruct (Hp spec Hs) as (p & Hin & Hpip).
    destruct (Hok spec p Hin Hn) as (argv & ? & ?). exists p, argv. rewrite elem_of_app. tauto.
Qed.

Lemma install_incremental_runs specs : runs (install_collections_incremental specs) (installed_all specs).
Proof.
  unfold install_collections_incremental. destruct specs as [|x specs].
  { apply runs_ret. split; [simpl; lia|]. intros ? [= <-]. split; [done|]. by intros ? ?%elem_of_nil. }
  destruct proxy_url as [proxy|]; [|apply runs_raise; split; [simpl; lia|done]].
  eapply runs_bind; [apply get_venv_python_runs| |].
  - intros e calls ->. split; [simpl; lia|done].
  - intros py c1 ->. apply install_via_proxy_runs.
Qed.

(** C38: An installation ends after at most six commands for the whole batch and six for each
    collection (a stalled command ends it at once), and what it reports is true: the
    failed specs are requested ones, and every other requested spec was named, as a
    package, by a command that ended with code 0. *)
Theorem install_reports_truthfully specs s s' r :
  install_collections_incremental specs s = (s', r) →
  ∃ calls, sh_log s' = (sh_log s ++ calls)%list ∧ (length calls ≤ 6 * (length specs + 1))%nat ∧
    ∀ failed, r = inr failed → failed `sublist_of` specs ∧
      ∀ spec, spec ∈ specs → spec ∉ failed →
        ∃ p argv, spec_to_pip spec = Some p ∧ (argv, 0%Z) ∈ calls ∧ p ∈ argv.
Proof. apply install_incremental_runs. Qed.
End Install.

(** ** Names *)

Lemma before_end_rstrip s : rstrip s = s → before_end s = s.
Proof.
  induction s as [|c s IH]; [done|]. cbn [rstrip before_end]. intros Hr. destruct s as [|d s].
  - cbn [rstrip] in Hr. destruct (Ascii.eqb_spec c LF) as [->|]; [by vm_compute in Hr|done].
  - f_equal. apply IH. destruct (rstrip (String d s)) as [|e r]; [by destruct (is_space c)|]. by injection Hr as -> ->.
Qed.

Lemma before_end_strip s : before_end (strip s) = strip s.
Proof. apply before_end_rstrip. unfold strip. apply rstrip_rstrip. Qed.

Lemma digits_free c s : is_digit c = false → sforall is_digit s = true → free_of c s.
Proof.
  intros Hc. unfold free_of. induction s as [|d s IH]; [done|]. simpl. intros [Hd Hs]%andb_true_iff.
  rewrite IH by done. rewrite andb_true_r. apply bool_decide_eq_true. intros ->. congruence.
Qed.

Lemma all_digits_inv s : all_digits s = true → s ≠ "" ∧ sforall is_digit s = true.
Proof. unfold all_digits. intros [Hn Hd]%andb_true_iff. apply negb_true_iff, bool_decide_eq_false in Hn. done. Qed.

(** A normalized version names three numbers, and is its own normal form. *)
Lemma normalize_version_parts raw v : normalize_version raw = inr v →
  ∃ a b c, all_digits a = true ∧ all_digits b = true ∧ all_digits c = true ∧ v = sjoin "." [a; b; c].
Proof.
  unfold normalize_version, safe_version. rewrite before_end_strip.
  pose proof (join_split "." (strip raw)) as Hj.
  destruct (split_on "." (strip raw)) as [|a [|b [|c [|? ?]]]]; try done.
  - destruct (all_digits a) eqn:Ha, (all_digits b) eqn:Hb; try done. intros [= <-]. by exists a, b, "0".
  - destruct (all_digits a) eqn:Ha, (all_digits b) eqn:Hb, (all_digits c) eqn:Hc; try done.
    intros [= <-]. exists a, b, c. by rewrite <- Hj.
Qed.

Lemma digits_no_break_end a : all_digits a = true → ∀ p, before_end (p +:+ a) = p +:+ a.
Proof.
  intros [Hn Hd]%all_digits_inv p. apply before_end_rstrip.
  assert (Hns : sforall (λ c, negb (is_space c)) a = true).
  { clear Hn. revert Hd. induction a as [|c a IH]; [done|]. simpl. intros [Hc Hd]%andb_true_iff.
    rewrite IH, andb_true_r by done. 
    assert (∀ d, implb (is_digit d) (negb (is_space d)) = true) as Himp by (apply ascii_all; by vm_compute).
    specialize (Himp c). by rewrite Hc in Himp. }
  apply rstrip_no_space in Hns. induction p as [|c p IH]; [done|]. cbn [String.append rstrip]. rewrite IH.
  destruct (p +:+ a) eqn:E; [|done]. destruct p; [by destruct a|done].
Qed.

Lemma normalize_version_safe raw v : normalize_version raw = inr v →
  safe_version v = true ∧ startswith v "." = false.
Proof.
  intros (a & b & c & Ha & Hb & Hc & ->)%normalize_version_parts.
  assert (Hfree : ∀ x, all_digits x = true → free_of "." x).
  { intros x [_ Hx]%all_digits_inv. by apply digits_free. }
  split.
  - unfold safe_version. replace (before_end _) with (sjoin "." [a; b; c]).
    2: { symmetry. cbn [sjoin]. rewrite <- !sapp_assoc. by apply digits_no_break_end. }
    rewrite (split_join "."); [by rewrite Ha, Hb, Hc|done|]. repeat constructor; by apply Hfree.
  - destruct (all_digits_inv a Ha) as [Hne Hd]. destruct a as [|x a]; [done|].
    unfold startswith. cbn [sjoin String.append String.prefix]. destruct (ascii_dec "." x) as [<-|]; [|done].
    by apply andb_true_iff in Hd as [Hd _].
Qed.

Lemma sanitize_inr s t : sanitize_session_id s = inr t → t = s.
Proof. unfold sanitize_session_id. destruct (negb _ && _); congruence. Qed.

(** ** Acquiring *)

Section Acquire.
Context {V : Type} `{Shell V}.
Context (root : string) (max_venvs : nat).
Implicit Types (st : store V) (sd : session_dir V) (m : VenvSession).

Notation acquire := (acquire (V := V) root max_venvs).

Lemma elem_of_sort_leb s (l : list string) : s ∈ sort_by String.leb l ↔ s ∈ l.
Proof. apply elem_of_sort_by. Qed.

Lemma list_to_set_sorted_ids (X : gset string) : list_to_set (sorted_ids X) = X.
Proof. apply set_eq. intros x. by rewrite elem_of_list_to_set, elem_of_sorted_ids. Qed.

Lemma satisfies_member (X : gset string) s : s ∈ X → installed_satisfies_spec X s = true.
Proof. intros Hs. unfold installed_satisfies_spec. by rewrite decide_True. Qed.

Lemma existsb_false {A} (f : A → bool) l : existsb f l = false ↔ ∀ x, x ∈ l → f x = false.
Proof.
  induction l as [|y l IH]; simpl.
  - split; [by intros _ ? ?%elem_of_nil|done].
  - rewrite orb_false_iff, IH. setoid_rewrite elem_of_cons. naive_solver.
Qed.

(** What a record promises of the specs it was acquired for. *)
Record serves (specs : list string) (m : VenvSession) : Prop := {
  sv_covered : ∀ s, s ∈ specs →
    installed_satisfies_spec (list_to_set (ve_installed_collections m)) s = true ∨ s ∈ ve_failed_collections m;
  sv_failed : ∀ s, s ∈ ve_failed_collections m → s ∈ specs;
  sv_hash : ve_failed_collections m = [] → ve_requirements_hash m = requirements_hash specs;
}.

Lemma sort_by_nil {A} (le : A → A → bool) l : sort_by le l = [] ↔ l = [].
Proof.
  split; [|by intros ->]. intros E. apply Permutation_nil_r. rewrite <- E. symmetry. apply sort_by_perm.
Qed.

Lemma warm_serves now specs m :
  missing_specs (list_to_set (ve_installed_collections m)) (list_to_set specs) = ∅ →
  serves specs (complete_warm_hit now (requirements_hash specs) m).
Proof.
  intros Hm. split; [|by intros ? ?%elem_of_nil|done]. intros s Hs. left. cbn [complete_warm_hit ve_installed_collections].
  destruct (installed_satisfies_spec _ s) eqn:E; [done|]. exfalso.
  assert (s ∈ missing_specs (list_to_set (ve_installed_collections m)) (list_to_set specs)) as Hin.
  { apply elem_of_filter. split; [done|]. by apply elem_of_list_to_set. }
  rewrite Hm in Hin. by apply elem_of_empty in Hin.
Qed.

Lemma reconciled_serves now specs failed m :
  (∀ s, s ∈ failed → s ∈ specs) →
  serves specs (reconciled now (requirements_hash specs) (list_to_set specs) failed m).
Proof.
  intros Hf. split; cbn [reconciled ve_installed_collections ve_failed_collections ve_requirements_hash].
  - intros s Hs. rewrite list_to_set_sorted_ids, elem_of_sort_leb.
    destruct (decide (s ∈ failed)) as [?|Hn]; [by right|]. left. apply satisfies_member.
    unfold merge_installed_collections. apply elem_of_union_r, elem_of_difference. rewrite !elem_of_list_to_set. done.
  - intros s. rewrite elem_of_sort_leb. apply Hf.
  - intros ->%sort_by_nil. by rewrite decide_True.
Qed.

Lemma acquire_existing_spec sd version m d specs now sd' r :
  acquire_existing sd version m d specs now = (sd', r) →
  sd_json sd' = sd_json sd ∧
  (∀ k, k ≠ version → sd_versions sd' !! k = sd_versions sd !! k) ∧
  ∃ m' d', sd_versions sd' !! version = Some (MkVersion (Meta m') (Some d')) ∧
    ve_session_id m' = ve_session_id m ∧ ve_ansible_version m' = ve_ansible_version m ∧
    ve_venv_root m' = ve_venv_root m ∧
    (∀ s, s ∈ ve_installed_collections m →
       ∃ s', s' ∈ ve_installed_collections m' ∧ spec_bare_fqcn s' = spec_bare_fqcn s) ∧
    ∀ m1, r = inr m1 → m1 = m' ∧ serves specs m' ∧ ve_last_used_at m' = now.
Proof.
  unfold acquire_existing. case_decide as Hm.
  - intros [= <- <-]. split_and!; [done|by intros; apply lookup_insert_ne|]. eexists _, d.
    split_and!; [by apply lookup_insert_eq|done..| |].
    + intros s Hs. by exists s.
    + intros ? [= <-]. split_and!; [done|by apply warm_serves|done].
  - destruct (install_collections_incremental _ _) as [s [e|failed]] eqn:Ei; intros [= <- <-].
    { split_and!; [done|by intros; apply lookup_insert_ne|]. eexists m, _.
      split_and!; [by apply lookup_insert_eq|done..| |done]. intros x Hx. by exists x. }
    split_and!; [done|by intros; apply lookup_insert_ne|]. eexists _, _.
    split_and!; [by apply lookup_insert_eq|done..| |].
    + intros x Hx. cbn [reconciled ve_installed_collections]. setoid_rewrite elem_of_sorted_ids.
      unfold merge_installed_collections. set (succ := list_to_set specs ∖ list_to_set failed : gset string).
      destruct (decide (spec_bare_fqcn x ∈ (set_map spec_bare_fqcn succ : gset string))) as [Hin|Hn].
      * apply elem_of_map in Hin as (y & -> & Hy). exists y. split; [by apply elem_of_union_r|done].
      * exists x. split; [|done]. apply elem_of_union_l, elem_of_filter. by rewrite elem_of_list_to_set.
    + intros ? [= <-]. split_and!; [done| |done]. apply reconciled_serves. intros x Hx.
      destruct (install_incremental_runs _ _ _ _ Ei) as (calls & _ & _ & Hrep).
      destruct (Hrep failed eq_refl) as [Hsub _].
      assert (x ∈ sorted_ids (missing_specs (list_to_set (ve_installed_collections m)) (list_to_set specs))) as Hin
        by (by eapply elem_of_sublist).
      apply elem_of_sorted_ids, elem_of_filter in Hin as [_ Hin]. by apply elem_of_list_to_set in Hin.
Qed.

Lemma cold_build_failed sid version specs s s' failed :
  cold_build root sid version specs s = (s', inr failed) → ∀ x, x ∈ failed → x ∈ specs.
Proof.
  unfold cold_build, cbind. destruct (create_base_venv _ _ s) as [s1 [e|[]]]; [done|].
  destruct specs as [|y specs]; [intros [= <- <-]; by intros ? ?%elem_of_nil|]. intros Hi x Hx.
  destruct (install_incremental_runs _ _ _ _ Hi) as (calls & _ & _ & Hrep).
  destruct (Hrep failed eq_refl) as [Hsub _]. by eapply elem_of_sublist.
Qed.

Lemma acquire_cold_spec sd sid version specs now sd' r :
  acquire_cold root max_venvs sd sid version specs now = (sd', r) →
  sd_json sd' = sd_json sd ∧
  (∀ k, k ≠ version → sd_versions sd' !! k = sd_versions sd !! k) ∧
  match r with
  | inl (SiblingCap n) => (max_venvs ≤ n)%nat ∧ n = count_sibling_venvs sd version ∧ sd' = sd
                          ∨ sd_versions sd' !! version = None
  | inl _ => sd_versions sd' !! version = None
  | inr m => (count_sibling_venvs sd version < max_venvs)%nat ∧
      (∃ d, sd_versions sd' !! version = Some (MkVersion (Meta m) (Some d))) ∧
      ve_session_id m = sid ∧ ve_ansible_version m = version ∧ ve_venv_root m = venv_path root sid version ∧
      serves specs m ∧ ve_last_used_at m = now
  end.
Proof.
  unfold acquire_cold. destruct (Nat.leb_spec max_venvs (count_sibling_venvs sd version)) as [Hc|Hc].
  { intros [= <- <-]. split_and!; [done..|]. left. done. }
  destruct (cold_build _ _ _ _ _) as [s [e|failed]] eqn:Eb; intros [= <- <-].
  - assert (sd_versions (remove_version version sd) !! version = None) as Hn by (by apply lookup_delete_eq).
    split_and!; [done|by intros; apply lookup_delete_ne|]. destruct e; try done. by right.
  - split_and!; [done|by intros; apply lookup_insert_ne|done|by eexists; apply lookup_insert_eq|done..| |done].
    pose proof (cold_build_failed _ _ _ _ _ _ Eb) as Hf.
    split; cbn [new_record ve_installed_collections ve_failed_collections ve_requirements_hash].
    + intros x Hx. rewrite list_to_set_sorted_ids, elem_of_sort_leb.
      destruct (decide (x ∈ failed)) as [?|Hn]; [by right|]. left. apply satisfies_member.
      apply elem_of_difference. by rewrite !elem_of_list_to_set.
    + intros x. rewrite elem_of_sort_leb. apply Hf.
    + intros ->%sort_by_nil. by rewrite decide_True.
Qed.

(** What a successful [acquire] leaves behind. *)
Lemma acquire_inr st session_id raw specs now later st' m :
  acquire st session_id raw specs now later = (st', inr m) →
  ∃ version sd d, sanitize_session_id session_id = inr session_id ∧ normalize_version raw = inr version ∧
    st' !! session_id = Some sd ∧ sd_versions sd !! version = Some (MkVersion (Meta m) (Some d)) ∧
    serves specs m ∧ ve_last_used_at m = later.
Proof.
  unfold VenvStore.acquire. destruct (sanitize_session_id session_id) as [e|sid] eqn:Es.
  { by destruct (normalize_version raw). }
  pose proof (sanitize_inr _ _ Es) as ->.
  destruct (normalize_version raw) as [e|version]; [done|].
  set (sd := touch_session_json now _). destruct (reusable sd version) as [[m0 d0]|] eqn:Er.
  - destruct (acquire_existing sd version m0 d0 specs later) as [sd' r] eqn:Ea. intros [= <- ->].
    destruct (acquire_existing_spec _ _ _ _ _ _ _ _ Ea) as (_ & _ & m' & d' & Hl & _ & _ & _ & _ & Hr).
    destruct (Hr m eq_refl) as (-> & Hs & Ht). exists version, sd', d'. by rewrite lookup_insert_eq.
  - destruct (acquire_cold root max_venvs sd session_id version specs later) as [sd' r] eqn:Ea. intros [= <- ->].
    destruct (acquire_cold_spec _ _ _ _ _ _ _ Ea) as (_ & _ & _ & (d & Hl) & _ & _ & _ & Hs & Ht).
    exists version, sd', d. by rewrite lookup_insert_eq.
Qed.

(** C19: An environment that [acquire] returns serves the request: it is on disk under the
    session and the normalized version; every requested collection is recorded as
    installed or listed as failed, and only requested ones are listed as failed; and if
    none failed, the record carries the hash of the request and the next peek for the
    same collections finds the environment warm, with the same collections. *)
Theorem acquire_serves_request st session_id raw specs now later st' m :
  acquire st session_id raw specs now later = (st', inr m) →
  (∃ version sd d, normalize_version raw = inr version ∧ st' !! session_id = Some sd ∧
     sd_versions sd !! version = Some (MkVersion (Meta m) (Some d))) ∧
  (∀ s, s ∈ specs →
     installed_satisfies_spec (list_to_set (ve_installed_collections m)) s = true ∨ s ∈ ve_failed_collections m) ∧
  (∀ s, s ∈ ve_failed_collections m → s ∈ specs) ∧
  (ve_failed_collections m = [] →
     ve_requirements_hash m = requirements_hash specs ∧
     ∀ t, ∃ st'' m', peek_warm st' session_id raw specs t = (st'', inr (Some m')) ∧
       ve_installed_collections m' = ve_installed_collections m ∧ ve_failed_collections m' = []).
Proof.
  intros (version & sd & d & Es & Ev & Hsd & Hl & [Hcov Hf Hh] & _)%acquire_inr.
  split_and!; [eauto 10|done|done|]. intros Hnone. split; [by apply Hh|]. intros t.
  unfold peek_warm. rewrite Es, Ev, Hsd. unfold reusable, version_in. rewrite Hl.
  cbn [from_option vd_meta vd_venv read_version_meta]. unfold id. cbn [vd_meta vd_venv read_version_meta].
  assert (existsb (λ s, negb (installed_satisfies_spec (list_to_set (ve_installed_collections m)) s)) specs = false) as ->.
  { apply existsb_false. intros s Hs. apply negb_false_iff. destruct (Hcov s Hs) as [?|Hin]; [done|].
    rewrite Hnone in Hin. by apply elem_of_nil in Hin. }
  eexists _, _. split_and!; [reflexivity|done..].
Qed.

(** C20: Acquiring disturbs nothing that another scan may be using: other sessions and the
    other versions of the session stay as they are; an environment that could be reused
    is still there, and no collection recorded in it is forgotten (a pin may have been
    replaced); and a build that fails leaves no directory of its version behind. *)
Theorem acquire_is_append_only st session_id raw specs now later st' r version :
  acquire st session_id raw specs now later = (st', r) → normalize_version raw = inr version →
  (∀ sid, sid ≠ session_id → st' !! sid = st !! sid) ∧
  (∀ sd k, st !! session_id = Some sd → k ≠ version →
     ∃ sd', st' !! session_id = Some sd' ∧ sd_versions sd' !! k = sd_versions sd !! k) ∧
  (∀ sd m d, st !! session_id = Some sd → sd_versions sd !! version = Some (MkVersion (Meta m) (Some d)) →
     ∃ sd' m' d', st' !! session_id = Some sd' ∧
       sd_versions sd' !! version = Some (MkVersion (Meta m') (Some d')) ∧
       ∀ s, s ∈ ve_installed_collections m →
         ∃ s', s' ∈ ve_installed_collections m' ∧ spec_bare_fqcn s' = spec_bare_fqcn s) ∧
  (∀ e sd', r = inl e → sanitize_session_id session_id = inr session_id → (∀ n, e ≠ SiblingCap n) →
     (∀ sd, st !! session_id = Some sd → reusable sd version = None) →
     st' !! session_id = Some sd' → sd_versions sd' !! version = None).
Proof.
  intros Ha Ev. unfold VenvStore.acquire in Ha. rewrite Ev in Ha.
  destruct (sanitize_session_id session_id) as [e|sid] eqn:Es.
  { injection Ha as <- <-. split_and!; [done|by eauto| |done]. intros sd m d Hsd Hl. exists sd, m, d.
    split_and!; [done..|]. intros s Hs. by exists s. }
  pose proof (sanitize_inr _ _ Es) as ->.
  set (sd0 := touch_session_json now _) in Ha.
  assert (Hv0 : ∀ sd, st !! session_id = Some sd → sd_versions sd0 = sd_versions sd).
  { intros sd Hsd. unfold sd0. by rewrite Hsd. }
  destruct (reusable sd0 version) as [[m0 d0]|] eqn:Er.
  - destruct (acquire_existing sd0 version m0 d0 specs later) as [sd' r'] eqn:Ea. injection Ha as <- ->.
    destruct (acquire_existing_spec _ _ _ _ _ _ _ _ Ea) as (_ & Hk & m' & d' & Hl & _ & _ & _ & Hkeep & _).
    split_and!; [by intros; apply lookup_insert_ne| | |].
    + intros sd k Hsd Hne. exists sd'. rewrite lookup_insert_eq, (Hk k Hne), (Hv0 sd Hsd). done.
    + intros sd m d Hsd Hm. exists sd', m', d'. rewrite lookup_insert_eq. split_and!; [done..|].
      unfold reusable, version_in in Er. rewrite (Hv0 sd Hsd), Hm in Er. by injection Er as <- <-.
    + intros e sd'' _ _ _ Hnone _. exfalso. destruct (st !! session_id) as [sd|] eqn:Hsd; [|done].
      specialize (Hnone sd eq_refl). unfold reusable, version_in in Er, Hnone. rewrite (Hv0 sd eq_refl) in Er. congruence.
  - destruct (acquire_cold root max_venvs sd0 session_id version specs later) as [sd' r'] eqn:Ea. injection Ha as <- ->.
    destruct (acquire_cold_spec _ _ _ _ _ _ _ Ea) as (_ & Hk & Hr). split_and!; [by intros; apply lookup_insert_ne| | |].
    + intros sd k Hsd Hne. exists sd'. rewrite lookup_insert_eq, (Hk k Hne), (Hv0 sd Hsd). done.
    + intros sd m d Hsd Hm. exfalso. unfold reusable, version_in in Er. by rewrite (Hv0 sd Hsd), Hm in Er.
    + intros e sd'' -> _ Hcap _. rewrite lookup_insert_eq. intros [= <-]. destruct e; try done. by destruct (Hcap siblings).
Qed.
End Acquire.

(** ** Reaping *)

Section Reap.
Context {V : Type} (ttl : Z).
Implicit Types (st : store V) (sd : session_dir V) (m : VenvSession).

(** A version directory with a record that was used recently enough. *)
Definition alive (now : Z) sd (name : string) (vd : version_dir V) : Prop :=
  sd_versions sd !! name = Some vd ∧ visible name = true ∧
  ∃ m, read_version_meta (vd_meta vd) = Some m ∧ expired_meta ttl now m = false.

Lemma versions_remain_true sd now : versions_remain ttl sd now = true ↔ ∃ name vd, alive now sd name vd.
Proof.
  unfold versions_remain, session_records, alive. split.
  - intros (m & Hm & He)%existsb_exists. apply list_elem_of_In, list_elem_of_omap in Hm as ([name vd] & Hin & Hr).
    apply elem_of_map_to_list in Hin. cbn [fst snd] in Hr. destruct (visible name) eqn:Hv; [|done].
    exists name, vd. split_and!; [done..|]. exists m. split; [done|]. by apply negb_true_iff.
  - intros (name & vd & Hin & Hv & m & Hm & He). apply existsb_exists. exists m. rewrite He. split; [|done].
    apply list_elem_of_In, list_elem_of_omap. exists (name, vd). split; [by apply elem_of_map_to_list|].
    cbn [fst snd]. by rewrite Hv.
Qed.

(** The reaper leaves exactly the environments whose record was used within the time to
    live, untouched, and the sessions that hold one; it removes a directory without a
    record in any case. *)
Theorem reap_exact st now :
  let st' := (reap_expired ttl st now).1 in
  (∀ sid name vd, visible name = true →
     (∃ sd', st' !! sid = Some sd' ∧ sd_versions sd' !! name = Some vd) ↔
     (∃ sd, st !! sid = Some sd ∧ alive now sd name vd)) ∧
  (∀ sid, is_Some (st' !! sid) ↔ ∃ sd name vd, st !! sid = Some sd ∧ alive now sd name vd).
Proof.
  intros st'. assert (Hst' : ∀ sid, st' !! sid = st !! sid ≫= reap_session ttl now sid)
    by (intros sid; unfold st'; cbn [reap_expired fst]; by rewrite map_lookup_imap).
  split.
  - intros sid name vd Hv. rewrite Hst'. destruct (st !! sid) as [sd|]; [|naive_solver]. simpl. unfold reap_session. split.
    + intros (sd' & Hr & Hl). exists sd. split; [done|]. case_match; [|done]. injection Hr as <-.
      cbn [sd_versions] in Hl. rewrite map_lookup_imap in Hl. destruct (sd_versions sd !! name) as [vd0|] eqn:E; [|done].
      simpl in Hl. unfold reap_version in Hl. rewrite Hv in Hl.
      destruct (read_version_meta (vd_meta vd0)) as [m|] eqn:Em; [|done].
      destruct (expired_meta ttl now m) eqn:Ee; [done|]. injection Hl as ->. split_and!; [done..|]. eauto.
    + intros (sd1 & [= <-] & Ha). rewrite (proj2 (versions_remain_true sd now)) by eauto. eexists. split; [done|].
      destruct Ha as (Hin & _ & m & Hm & He). cbn [sd_versions]. rewrite map_lookup_imap, Hin. simpl.
      unfold reap_version. by rewrite Hv, Hm, He.
  - intros sid. rewrite Hst'. destruct (st !! sid) as [sd|]; simpl.
    + unfold reap_session. destruct (versions_remain ttl sd now) eqn:Er.
      * apply versions_remain_true in Er as (name & vd & Ha). split; [eauto 10|by eexists].
      * split; [by intros [? ?]|]. intros (sd1 & name & vd & [= <-] & Ha).
        rewrite (proj2 (versions_remain_true sd now)) in Er by eauto. done.
    + split; [by intros [? ?]|]. naive_solver.
Qed.

(** While a build runs its version directory has no record yet; a reaper that comes by
    removes it, and the session with it if there is nothing else. *)
Theorem reap_removes_build_in_progress st sid sd name venv now sd' :
  st !! sid = Some sd → sd_versions sd !! name = Some (MkVersion NoMeta venv) → visible name = true →
  (reap_expired ttl st now).1 !! sid = Some sd' → sd_versions sd' !! name = None.
Proof.
  intros Hsd Hn Hv. cbn [reap_expired fst]. rewrite map_lookup_imap, Hsd. simpl. unfold reap_session.
  case_match; [|done]. intros [= <-]. cbn [sd_versions]. rewrite map_lookup_imap, Hn. simpl.
  unfold reap_version. by rewrite Hv.
Qed.
End Reap.

(** ** An environment *)

Module VenvDemo.

(** A directory is the list of the arguments installed into it; one package cannot be built,
    one does not exist. *)
#[export] Instance demo_shell : Shell (list string) := {
  empty_dir := [];
  run_cmd d argv excludes :=
    if decide ("ansible-collection-no-such" ∈ argv) then (d, Exited 1 "" "No solution found")
    else if decide ("ansible-collection-needs-native" ∈ argv ∧ excludes = None)
    then (d, Exited 1 "" "Failed to build `systemd-python==235`")
    else ((d ++ argv)%list, Exited 0 "" "");
  venv_python _ := Some "python";
  post_prepare d _ := (d, Prepared);
  uv_available := true;
  proxy_url := Some "http://proxy/";
  uv_index_strategy := "";
  sys_executable := "python3";
}.

Definition specs : list string := ["a.b:1.0"; "needs.native"; "no.such"].

Definition after_first := acquire "/sessions" 2 (∅ : store (list string)) "s1" "2.17" specs 10 20.
Definition first_record : VenvSession :=
  match after_first.2 with inr m => m | inl _ => MkVenvSession "" "" "" [] [] "" 0 0 end.

Example first_installs :
  ve_installed_collections first_record = ["a.b:1.0"; "needs.native"] ∧
  ve_failed_collections first_record = ["no.such"] ∧ ve_ansible_version first_record = "2.17.0" ∧
  ve_requirements_hash first_record = "".
Proof. by vm_compute. Qed.

(** A request without the pin and with a new collection forgets the pin. *)
Definition after_second := acquire "/sessions" 2 after_first.1 "s1" "2.17.0" ["a.b"; "c.d"] 30 40.

Example second_installs :
  match after_second.2 with
  | inr m => ve_installed_collections m = ["a.b"; "c.d"; "needs.native"] ∧ ve_failed_collections m = [] ∧
             ve_requirements_hash m = requirements_hash ["c.d"; "a.b"]
  | inl _ => False
  end.
Proof. by vm_compute. Qed.

(** The cap refuses a third version. *)
Example third_version_refused :
  let st2 := (acquire "/sessions" 2 after_first.1 "s1" "2.18" [] 50 60).1 in
  (acquire "/sessions" 2 st2 "s1" "2.19" [] 70 80).2 = inl (SiblingCap 2).
Proof. by vm_compute. Qed.

(** A name that ends in a line feed passes the check of session names. *)
Example newline_session_accepted :
  sanitize_session_id ("s1" +:+ String LF "") = inr ("s1" +:+ String LF "") ∧
  sanitize_session_id "../s1" = inl (InvalidSession "../s1").
Proof. by vm_compute. Qed.

Lemma install_reports_truthfully_witness :
  ∃ s' calls, install_collections_incremental specs (MkShell [] []) = (s', inr ["no.such"]) ∧
    sh_log s' = calls ∧ (length calls ≤ 24)%nat ∧ ∃ argv, (argv, 0%Z) ∈ calls ∧ "ansible-collection-a-b==1.0" ∈ argv.
Proof.
  destruct (install_reports_truthfully specs (MkShell [] [])
    (install_collections_incremental specs (MkShell [] [])).1 (inr ["no.such"])) as (calls & Hl & Hn & Hr).
  { vm_compute. reflexivity. }
  exists (install_collections_incremental specs (MkShell [] [])).1, calls.
  split; [vm_compute; reflexivity|]. split; [exact Hl|]. split; [exact Hn|].
  destruct (Hr ["no.such"] eq_refl) as [_ Hok]. destruct (Hok "a.b:1.0") as (p & argv & Hp & Ha & Hin).
  - left.
  - intros Hx. by apply list_elem_of_singleton in Hx.
  - vm_compute in Hp. injection Hp as <-. by exists argv.
Defined.

Lemma acquire_serves_request_witness :
  after_first.2 = inr first_record ∧
  (installed_satisfies_spec (list_to_set (ve_installed_collections first_record)) "needs.native" = true ∨
   "needs.native" ∈ ve_failed_collections first_record).
Proof.
  assert (after_first = (after_first.1, inr first_record)) as E by (vm_compute; reflexivity).
  destruct (acquire_serves_request "/sessions" 2 ∅ "s1" "2.17" specs 10 20 after_first.1 first_record E)
    as (_ & Hs & _). split; [vm_compute; reflexivity|]. apply Hs. right. left.
Defined.

Lemma acquire_is_append_only_witness :
  ∃ sd' m' d', after_second.1 !! "s1" = Some sd' ∧
    sd_versions sd' !! "2.17.0" = Some (MkVersion (Meta m') (Some d')) ∧
    ∃ s', s' ∈ ve_installed_collections m' ∧ spec_bare_fqcn s' = "a.b".
Proof.
  destruct (acquire_is_append_only "/sessions" 2 after_first.1 "s1" "2.17.0" ["a.b"; "c.d"] 30 40 after_second.1
    after_second.2 "2.17.0") as (_ & _ & Hkeep & _); [exact (surjective_pairing after_second)|reflexivity|].
  assert (∃ sd d, after_first.1 !! "s1" = Some sd ∧
    sd_versions sd !! "2.17.0" = Some (MkVersion (Meta first_record) (Some d))) as (sd & d & Hsd & Hl).
  { vm_compute. eexists _, _. split; reflexivity. }
  destruct (Hkeep sd first_record d Hsd Hl) as (sd' & m' & d' & H1 & H2 & H3). exists sd', m', d'.
  split; [exact H1|]. split; [exact H2|]. destruct (H3 "a.b:1.0") as (s' & Hs & Hb).
  - rewrite (proj1 first_installs). left.
  - exists s'. split; [exact Hs|exact Hb].
Defined.

Lemma reap_removes_build_in_progress_witness :
  let st : store (list string) := {["s1" := MkSessionDir None {["2.17.0" := MkVersion NoMeta None;
    "2.18.0" := MkVersion (Meta first_record) (Some [])]}]} in
  ∃ sd', (reap_expired 3600 st 30).1 !! "s1" = Some sd' ∧ sd_versions sd' !! "2.17.0" = None.
Proof.
  intros st. eexists. split; [vm_compute; reflexivity|].
  eapply (reap_removes_build_in_progress 3600 st "s1" _ "2.17.0" None 30); vm_compute; reflexivity.
Defined.
End VenvDemo.
