(* ===== verification/VenvSteps.v ===== *)
(** * Environments that are built while others use the store

    [VenvSessionManager.acquire] holds the lock of its session for as long as it builds.
    Here a build takes time: it begins, works on its directory, and finishes, fails or is
    killed with its process, while calls for other sessions and calls that take no lock
    come in between.  [acquire] as one step is a run of these steps.  The invariant is
    that of every store that can be reached. *)

From stdpp Require Import base list gmap strings pretty relations.
From Stdlib Require Import Ascii String.
From S2P Require Import Prelude PyStr PyPath PyNum Violation ScanFindings VenvInstall VenvStore VenvProps.

#[local] Open Scope string_scope.
#[local] Notation length := List.length.

(** A build that holds the lock of its session; [bd_reuse] is the record of the environment
    it extends, [None] for a new one. *)
Record venv_build := MkBuild { bd_version : string; bd_specs : list string; bd_reuse : option VenvSession }.

Record vstate (V : Type) := VState { vs_store : store V; vs_builds : gmap string venv_build }.
Arguments VState {V} _ _.
Arguments vs_store {V} _.
Arguments vs_builds {V} _.

Section Steps.
Context {V : Type} `{Shell V}.
Context (root : string) (max_venvs : nat) (ttl : Z).
Implicit Types (st : store V) (sd : session_dir V) (m : VenvSession) (b : gmap string venv_build).

(** A call of [acquire] that has taken the lock and touched the session. *)
Definition entered st b (sid raw : string) (now : Z) (version : string) sd : Prop :=
  sanitize_session_id sid = inr sid ∧ normalize_version raw = inr version ∧ b !! sid = None ∧
  sd = touch_session_json now (default empty_session (st !! sid)).

(** The directory of the version with other contents of the environment. *)
Definition with_venv (version : string) (dir : option V) sd : session_dir V :=
  set_version version (MkVersion (vd_meta (version_in sd version)) dir) sd.

Definition final_record (sid : string) (bd : venv_build) (failed : list string) (now : Z) : VenvSession :=
  match bd_reuse bd with
  | None => new_record root sid (bd_version bd) (bd_specs bd) failed now
  | Some m => reconciled now (requirements_hash (bd_specs bd)) (list_to_set (bd_specs bd)) failed m
  end.

Inductive vstep : vstate V → vstate V → Prop :=
| VPeek st b sid raw specs now :
    b !! sid = None → vstep (VState st b) (VState (peek_warm st sid raw specs now).1 b)
| VWarm st b sid raw now later version sd m d specs :
    entered st b sid raw now version sd → reusable sd version = Some (m, d) →
    missing_specs (list_to_set (ve_installed_collections m)) (list_to_set specs) = ∅ →
    vstep (VState st b)
      (VState (<[sid := set_version version
                 (MkVersion (Meta (complete_warm_hit later (requirements_hash specs) m)) (Some d)) sd]> st) b)
| VRefused st b sid raw now version sd :
    entered st b sid raw now version sd → reusable sd version = None →
    (max_venvs ≤ count_sibling_venvs sd version)%nat → vstep (VState st b) (VState (<[sid := sd]> st) b)
| VBegin st b sid raw now version sd specs :
    entered st b sid raw now version sd → reusable sd version = None →
    (count_sibling_venvs sd version < max_venvs)%nat →
    vstep (VState st b)
      (VState (<[sid := with_venv version None sd]> st) (<[sid := MkBuild version specs None]> b))
| VExtend st b sid raw now version sd m d specs :
    entered st b sid raw now version sd → reusable sd version = Some (m, d) →
    vstep (VState st b) (VState (<[sid := sd]> st) (<[sid := MkBuild version specs (Some m)]> b))
| VWork st b sid bd sd dir :
    b !! sid = Some bd → st !! sid = Some sd → (is_Some (bd_reuse bd) → is_Some dir) →
    vstep (VState st b) (VState (<[sid := with_venv (bd_version bd) dir sd]> st) b)
| VFinish st b sid bd sd d failed now :
    b !! sid = Some bd → st !! sid = Some sd → vd_venv (version_in sd (bd_version bd)) = Some d →
    vstep (VState st b)
      (VState (<[sid := set_version (bd_version bd) (MkVersion (Meta (final_record sid bd failed now)) (Some d)) sd]> st)
         (delete sid b))
| VFail st b sid bd sd :
    b !! sid = Some bd → st !! sid = Some sd →
    vstep (VState st b)
      (VState (match bd_reuse bd with None => <[sid := remove_version (bd_version bd) sd]> st | Some _ => st end)
         (delete sid b))
| VKilled st b sid : vstep (VState st b) (VState st (delete sid b))
| VTouch st b sid now : vstep (VState st b) (VState (touch_venvs st sid now).1 b)
| VDelete st b sid : b !! sid = None → vstep (VState st b) (VState (delete_session st sid).1 b)
| VReap st now : vstep (VState st ∅) (VState (reap_expired ttl st now).1 ∅).

(** ** [acquire] is a run *)

Lemma with_venv_twice version d1 d2 sd : with_venv version d2 (with_venv version d1 sd) = with_venv version d2 sd.
Proof.
  unfold with_venv, set_version, version_in. cbn [sd_versions sd_json]. by rewrite lookup_insert_eq, insert_insert_eq.
Qed.

Lemma set_over_with_venv version dir vd sd : set_version version vd (with_venv version dir sd) = set_version version vd sd.
Proof. unfold with_venv, set_version. cbn [sd_versions sd_json]. by rewrite insert_insert_eq. Qed.

Lemma remove_with_venv version dir sd : remove_version version (with_venv version dir sd) = remove_version version sd.
Proof. unfold with_venv, set_version, remove_version. cbn [sd_versions sd_json]. by rewrite delete_insert_eq. Qed.

Lemma version_in_with_venv version dir sd : vd_venv (version_in (with_venv version dir sd) version) = dir.
Proof. unfold with_venv, version_in. cbn [set_version sd_versions]. by rewrite lookup_insert_eq. Qed.

(** A build that works on its directory and then ends. *)
Lemma build_finishes st b sid bd sd d failed now :
  b !! sid = None → 
  rtc vstep (VState (<[sid := sd]> st) (<[sid := bd]> b))
    (VState (<[sid := set_version (bd_version bd) (MkVersion (Meta (final_record sid bd failed now)) (Some d)) sd]> st) b).
Proof.
  intros Hb. eapply rtc_l; [apply (VWork _ _ sid bd sd (Some d)); [apply lookup_insert_eq..|done]|].
  eapply rtc_l; [apply (VFinish _ _ sid bd (with_venv (bd_version bd) (Some d) sd) d failed now);
    [apply lookup_insert_eq..|apply version_in_with_venv]|].
  rewrite set_over_with_venv, !insert_insert_eq, delete_insert_id by done. done.
Qed.

Lemma acquire_cold_run st b sid raw now version sd specs later :
  entered st b sid raw now version sd → reusable sd version = None →
  rtc vstep (VState st b) (VState (<[sid := (acquire_cold root max_venvs sd sid version specs later).1]> st) b).
Proof.
  intros He Hr. pose proof He as (_ & _ & Hb & _). unfold acquire_cold.
  destruct (Nat.leb_spec max_venvs (count_sibling_venvs sd version)) as [Hc|Hc].
  { eapply rtc_l; [by eapply VRefused|done]. }
  eapply rtc_l; [by apply (VBegin st b sid raw now version sd specs)|].
  destruct (cold_build _ _ _ _ _) as [s [e|failed]]; cbn [fst].
  - eapply rtc_l; [by apply (VFail _ _ sid (MkBuild version specs None) (with_venv version None sd)); apply lookup_insert_eq|].
    cbn [bd_reuse bd_version]. rewrite remove_with_venv, insert_insert_eq, delete_insert_id by done. done.
  - pose proof (build_finishes st b sid (MkBuild version specs None) (with_venv version None sd) (sh_dir s) failed later Hb)
      as Hf. cbn [bd_version] in Hf. by rewrite set_over_with_venv in Hf.
Qed.

Lemma acquire_existing_run st b sid raw now version sd m d specs later :
  entered st b sid raw now version sd → reusable sd version = Some (m, d) →
  rtc vstep (VState st b) (VState (<[sid := (acquire_existing sd version m d specs later).1]> st) b).
Proof.
  intros He Hr. pose proof He as (_ & _ & Hb & _). unfold acquire_existing. case_decide as Hm.
  { eapply rtc_l; [by apply (VWarm st b sid raw now later version sd m d specs)|done]. }
  eapply rtc_l; [by apply (VExtend st b sid raw now version sd m d specs)|].
  destruct (install_collections_incremental _ _) as [s [e|failed]]; cbn [fst].
  - eapply rtc_l; [apply (VWork _ _ sid (MkBuild version specs (Some m)) sd (Some (sh_dir s))); [apply lookup_insert_eq..|by eexists]|].
    eapply rtc_l; [by apply (VFail _ _ sid (MkBuild version specs (Some m)) (with_venv version (Some (sh_dir s)) sd)); apply lookup_insert_eq|].
    cbn [bd_reuse]. rewrite insert_insert_eq, delete_insert_id by done. cbn [bd_version].
    unfold with_venv. unfold reusable in Hr.
    destruct (vd_meta (version_in sd version)) as [| | |m']; try done. cbn [read_version_meta] in Hr.
    destruct (vd_venv _); [|done]. injection Hr as -> _. done.
  - apply (build_finishes st b sid (MkBuild version specs (Some m)) sd (sh_dir s) failed later Hb).
Qed.

Lemma acquire_run st b sid raw specs now later :
  b !! sid = None → rtc vstep (VState st b) (VState (acquire root max_venvs st sid raw specs now later).1 b).
Proof.
  intros Hb. unfold acquire. destruct (sanitize_session_id sid) as [e|t] eqn:Es; [by destruct (normalize_version raw)|].
  pose proof (sanitize_inr _ _ Es) as ->. destruct (normalize_version raw) as [e|version] eqn:Ev; [done|].
  set (sd := touch_session_json now _). assert (entered st b sid raw now version sd) as He by done.
  destruct (reusable sd version) as [[m d]|] eqn:Er.
  - pose proof (acquire_existing_run _ _ _ _ _ _ _ _ _ specs later He Er) as Hrun.
    by destruct (acquire_existing _ _ _ _ _ _).
  - pose proof (acquire_cold_run _ _ _ _ _ _ _ specs later He Er) as Hrun. by destruct (acquire_cold _ _ _ _ _ _ _).
Qed.

(** ** The invariant *)

Definition names_place (sid name : string) m : Prop :=
  ve_session_id m = sid ∧ ve_ansible_version m = name ∧ ve_venv_root m = venv_path root sid name.

(** A version directory either has no record, or is complete: a record that names its
    place, and an environment. *)
Definition version_ok (sid name : string) (vd : version_dir V) : Prop :=
  safe_version name = true ∧ startswith name "." = false ∧
  (vd_meta vd = NoMeta ∨ ∃ m d, vd = MkVersion (Meta m) (Some d) ∧ names_place sid name m).

(** The versions with a record. *)
Definition recorded sd : gset string :=
  dom (filter (λ p, has_valid_meta (vd_meta p.2) = true) (sd_versions sd)).

Definition session_ok (sid : string) sd : Prop :=
  safe_session sid = true ∧ map_Forall (version_ok sid) (sd_versions sd) ∧ (size (recorded sd) ≤ max_venvs)%nat.

Definition store_ok st : Prop := map_Forall session_ok st.

(** What a build under way can rely on. *)
Definition build_ok st (sid : string) (bd : venv_build) : Prop :=
  ∃ sd vd, st !! sid = Some sd ∧ sd_versions sd !! bd_version bd = Some vd ∧
  match bd_reuse bd with
  | None => vd_meta vd = NoMeta ∧ (size (recorded sd) < max_venvs)%nat
  | Some m => names_place sid (bd_version bd) m ∧ has_valid_meta (vd_meta vd) = true
  end.

Definition vinv (x : vstate V) : Prop := store_ok (vs_store x) ∧ map_Forall (build_ok (vs_store x)) (vs_builds x).

Lemma elem_of_recorded sd name :
  name ∈ recorded sd ↔ ∃ vd, sd_versions sd !! name = Some vd ∧ has_valid_meta (vd_meta vd) = true.
Proof.
  unfold recorded. rewrite elem_of_dom. split.
  - intros [vd [? ?]%map_lookup_filter_Some]. eauto.
  - intros (vd & ? & ?). exists vd. by apply map_lookup_filter_Some.
Qed.

Lemma recorded_set_same sd version vd :
  (has_valid_meta (vd_meta vd) = true → version ∈ recorded sd) →
  (size (recorded (set_version version vd sd)) ≤ size (recorded sd))%nat.
Proof.
  intros Hv. apply subseteq_size. intros name. rewrite elem_of_recorded. cbn [set_version sd_versions].
  destruct (decide (name = version)) as [->|Hne].
  - rewrite lookup_insert_eq. naive_solver.
  - rewrite lookup_insert_ne by done. by rewrite elem_of_recorded.
Qed.

Lemma recorded_set sd version vd : (size (recorded (set_version version vd sd)) ≤ S (size (recorded sd)))%nat.
Proof.
  etrans; [apply (subseteq_size _ ({[version]} ∪ recorded sd))|].
  - intros name. rewrite elem_of_union, elem_of_singleton, !elem_of_recorded. cbn [set_version sd_versions].
    destruct (decide (name = version)) as [->|Hne]; [by left|]. rewrite lookup_insert_ne by done. by right.
  - rewrite size_union_alt, size_singleton. apply le_n_S, subseteq_size. set_solver.
Qed.

Lemma recorded_remove sd version : (size (recorded (remove_version version sd)) ≤ size (recorded sd))%nat.
Proof.
  apply subseteq_size. intros name. rewrite !elem_of_recorded. cbn [remove_version sd_versions].
  intros (vd & [_ ?]%lookup_delete_Some & ?). eauto.
Qed.

Lemma recorded_imap (f : string → version_dir V → option (version_dir V)) j sd :
  (∀ k vd vd', f k vd = Some vd' → has_valid_meta (vd_meta vd') = true → has_valid_meta (vd_meta vd) = true) →
  (size (recorded (MkSessionDir j (map_imap f (sd_versions sd)))) ≤ size (recorded sd))%nat.
Proof.
  intros Hf. apply subseteq_size. intros name. rewrite !elem_of_recorded. cbn [sd_versions].
  rewrite map_lookup_imap. intros (vd' & (vd & ? & ?)%bind_Some & ?). eauto.
Qed.

(** In a session as above, the versions that count towards the cap of a version without
    a record are those that have one. *)
Lemma count_siblings_recorded sid sd version :
  session_ok sid sd → version ∉ recorded sd → count_sibling_venvs sd version = size (recorded sd).
Proof.
  intros (_ & Hv & _) Hn. unfold count_sibling_venvs, recorded.
  rewrite size_dom, <- length_map_to_list, map_filter_alt, map_to_list_to_map.
  2: { apply NoDup_fmap_fst; [|apply NoDup_filter, NoDup_map_to_list]. intros k x y Hx Hy.
       apply list_elem_of_filter in Hx as [_ Hx], Hy as [_ Hy]. apply elem_of_map_to_list in Hx, Hy. congruence. }
  f_equal. apply filter_ext_in. intros [name vd] Hin%elem_of_map_to_list.
  destruct (Hv _ _ Hin) as (Hs & Hd & _). unfold counts_as_sibling. simpl. rewrite Hs, Hd. simpl.
  rewrite andb_true_r. split; [by intros [_ ?]%andb_true_iff|]. intros Hm. rewrite Hm.
  rewrite bool_decide_eq_false_2; [done|]. intros ->. apply Hn, elem_of_recorded. eauto.
Qed.

(** *** Preservation *)

Lemma vinv_at st b b' sid sd' :
  vinv (VState st b) → session_ok sid sd' → (∀ k, k ≠ sid → b' !! k = b !! k) →
  (∀ bd, b' !! sid = Some bd → build_ok (<[sid := sd']> st) sid bd) →
  vinv (VState (<[sid := sd']> st) b').
Proof.
  intros [Hst Hb] Hok Hk Hbd. split; cbn [vs_store vs_builds] in *; [by apply map_Forall_insert_2|].
  intros k bd Hl. destruct (decide (k = sid)) as [->|Hne]; [by apply Hbd|]. rewrite Hk in Hl by done.
  destruct (Hb _ _ Hl) as (sd & vd & ? & ?). exists sd, vd. by rewrite lookup_insert_ne.
Qed.

(** When no build of the session is under way. *)
Lemma vinv_idle st b sid sd' :
  vinv (VState st b) → session_ok sid sd' → b !! sid = None → vinv (VState (<[sid := sd']> st) b).
Proof. intros Hx Hok Hb. eapply vinv_at; [done..|]. intros bd Hl. congruence. Qed.

Lemma vinv_ends st b sid sd' :
  vinv (VState st b) → session_ok sid sd' → vinv (VState (<[sid := sd']> st) (delete sid b)).
Proof.
  intros Hx Hok. eapply vinv_at; [done..|by intros; apply lookup_delete_ne|]. intros bd Hl.
  by rewrite lookup_delete_eq in Hl.
Qed.

Lemma vinv_less st b b' : vinv (VState st b) → b' ⊆ b → vinv (VState st b').
Proof. intros [Hst Hb] Hsub. split; [done|]. intros k bd Hl. apply Hb. by eapply lookup_weaken. Qed.

Lemma sanitize_safe s t : sanitize_session_id s = inr t → safe_session s = true.
Proof. unfold sanitize_session_id. destruct (safe_session s); [done|]. by rewrite andb_false_r. Qed.

Lemma entered_ok st b sid raw now version sd :
  store_ok st → entered st b sid raw now version sd →
  session_ok sid sd ∧ safe_version version = true ∧ startswith version "." = false.
Proof.
  intros Hst (Es & Ev & _ & ->). split; [|by apply (normalize_version_safe raw)].
  destruct (st !! sid) as [sd0|] eqn:E; [by apply (Hst _ _ E)|]. simpl.
  split_and!; [by eapply sanitize_safe|apply map_Forall_empty|]. unfold recorded. cbn [sd_versions touch_session_json empty_session].
  rewrite map_filter_empty, dom_empty_L, size_empty. lia.
Qed.

Lemma reusable_Some sd version m d :
  reusable sd version = Some (m, d) → sd_versions sd !! version = Some (MkVersion (Meta m) (Some d)).
Proof.
  unfold reusable, version_in. destruct (sd_versions sd !! version) as [[f v]|]; [|done]. simpl.
  destruct f, v; simpl; try done. by intros [= -> ->].
Qed.

(** A version that cannot be reused has no record. *)
Lemma reusable_None sid sd version :
  session_ok sid sd → reusable sd version = None →
  vd_meta (version_in sd version) = NoMeta ∧ version ∉ recorded sd.
Proof.
  intros (_ & Hv & _). rewrite elem_of_recorded. unfold reusable, version_in.
  destruct (sd_versions sd !! version) as [vd|] eqn:E; [|naive_solver]. simpl.
  destruct (Hv _ _ E) as (_ & _ & [Hm|(m & d & -> & _)]); [|done]. intros _. split; [done|].
  intros (? & [= <-] & Hr). by rewrite Hm in Hr.
Qed.

Lemma reusable_place sid sd version m d :
  session_ok sid sd → reusable sd version = Some (m, d) →
  names_place sid version m ∧ version ∈ recorded sd ∧ safe_version version = true ∧ startswith version "." = false.
Proof.
  intros (_ & Hv & _) Hr%reusable_Some. destruct (Hv _ _ Hr) as (? & ? & [?|(m' & d' & [= <- <-] & ?)]); [done|].
  split_and!; [done| |done..]. apply elem_of_recorded. eauto.
Qed.

(** A version directory is replaced. *)
Lemma session_ok_set sid version vd sd :
  session_ok sid sd → version_ok sid version vd → (size (recorded (set_version version vd sd)) ≤ max_venvs)%nat →
  session_ok sid (set_version version vd sd).
Proof. intros (Hs & Hv & _) Hok Hc. split_and!; [done|by apply map_Forall_insert_2|done]. Qed.

Lemma session_ok_record sid version m d sd :
  session_ok sid sd → version ∈ recorded sd → names_place sid version m →
  session_ok sid (set_version version (MkVersion (Meta m) (Some d)) sd).
Proof.
  intros Hok Hin Hp. pose proof Hok as (_ & Hv & Hc). apply elem_of_recorded in Hin as (vd & Hl & Hm).
  destruct (Hv _ _ Hl) as (? & ? & _). apply session_ok_set; [done| |].
  - split_and!; [done..|]. right. by exists m, d.
  - etrans; [apply recorded_set_same|done]. intros _. apply elem_of_recorded. eauto.
Qed.

Lemma peek_vinv st b sid raw specs now :
  vinv (VState st b) → b !! sid = None → vinv (VState (peek_warm st sid raw specs now).1 b).
Proof.
  intros Hx Hb. unfold peek_warm. destruct (sanitize_session_id sid) as [|t] eqn:Es; [by destruct (normalize_version raw)|].
  pose proof (sanitize_inr _ _ Es) as ->. destruct (normalize_version raw) as [|version]; [done|].
  destruct (st !! sid) as [sd|] eqn:Hsd; [|done]. destruct (reusable sd version) as [[m d]|] eqn:Er; [|done].
  case_match; [done|]. apply vinv_idle; [done| |done]. destruct Hx as [Hst _]. pose proof (Hst _ _ Hsd) as Hok.
  destruct (reusable_place _ _ _ _ _ Hok Er) as (? & ? & _). by apply session_ok_record.
Qed.

Lemma begin_vinv st b sid raw now version sd specs :
  vinv (VState st b) → entered st b sid raw now version sd → reusable sd version = None →
  (count_sibling_venvs sd version < max_venvs)%nat →
  vinv (VState (<[sid := with_venv version None sd]> st) (<[sid := MkBuild version specs None]> b)).
Proof.
  intros Hx He Hr Hc. destruct (entered_ok _ _ _ _ _ _ _ (proj1 Hx) He) as (Hok & Hsafe & Hdot).
  destruct (reusable_None _ _ _ Hok Hr) as [Hm Hn]. rewrite (count_siblings_recorded _ _ _ Hok Hn) in Hc.
  unfold with_venv. rewrite Hm.
  assert (size (recorded (set_version version (MkVersion NoMeta None) sd)) ≤ size (recorded sd))%nat as Hle
    by by apply recorded_set_same.
  eapply vinv_at; [done| |by intros; apply lookup_insert_ne|].
  - apply session_ok_set; [done| |lia]. split_and!; [done..|by left].
  - intros bd. rewrite lookup_insert_eq. intros [= <-]. eexists _, _. split; [apply lookup_insert_eq|].
    split; [apply lookup_insert_eq|]. split; [done|]. lia.
Qed.

Lemma extend_vinv st b sid raw now version sd m d specs :
  vinv (VState st b) → entered st b sid raw now version sd → reusable sd version = Some (m, d) →
  vinv (VState (<[sid := sd]> st) (<[sid := MkBuild version specs (Some m)]> b)).
Proof.
  intros Hx He Hr. destruct (entered_ok _ _ _ _ _ _ _ (proj1 Hx) He) as (Hok & _).
  destruct (reusable_place _ _ _ _ _ Hok Hr) as (Hp & _). apply reusable_Some in Hr.
  eapply vinv_at; [done..|by intros; apply lookup_insert_ne|]. intros bd. rewrite lookup_insert_eq. intros [= <-].
  eexists _, _. split; [apply lookup_insert_eq|]. by split.
Qed.

Lemma build_session st b sid bd sd :
  vinv (VState st b) → b !! sid = Some bd → st !! sid = Some sd →
  session_ok sid sd ∧ ∃ vd, sd_versions sd !! bd_version bd = Some vd ∧ version_ok sid (bd_version bd) vd ∧
  match bd_reuse bd with
  | None => vd_meta vd = NoMeta ∧ (size (recorded sd) < max_venvs)%nat
  | Some m => names_place sid (bd_version bd) m ∧ has_valid_meta (vd_meta vd) = true
  end.
Proof.
  intros [Hst Hb] Hbd Hsd. split; [by apply Hst|]. destruct (Hb _ _ Hbd) as (sd' & vd & Hsd' & Hl & Hm).
  cbn [vs_store] in Hsd'. assert (sd' = sd) as -> by congruence. exists vd. split_and!; [done| |done].
  by apply (Hst _ _ Hsd).
Qed.

Lemma work_vinv st b sid bd sd dir :
  vinv (VState st b) → b !! sid = Some bd → st !! sid = Some sd → (is_Some (bd_reuse bd) → is_Some dir) →
  vinv (VState (<[sid := with_venv (bd_version bd) dir sd]> st) b).
Proof.
  intros Hx Hbd Hsd Hdir. destruct (build_session _ _ _ _ _ Hx Hbd Hsd) as (Hok & vd & Hl & (Hs & Hd & Hv) & Hm).
  unfold with_venv, version_in. rewrite Hl. cbn [default from_option id].
  assert (size (recorded (set_version (bd_version bd) (MkVersion (vd_meta vd) dir) sd)) ≤ size (recorded sd))%nat as Hle
    by (apply recorded_set_same; intros ?; apply elem_of_recorded; eauto).
  pose proof Hok as (_ & _ & Hcap). eapply vinv_at; [done| |done|].
  - apply session_ok_set; [done| |lia]. split_and!; [done..|]. destruct (bd_reuse bd) as [m|].
    + destruct Hdir as [d ->]; [by eexists|]. destruct Hv as [Hv|(m' & d' & -> & Hp)].
      * rewrite Hv in Hm. by destruct Hm.
      * right. by exists m', d.
    + left. by destruct Hm.
  - intros bd' Hbd'. assert (bd' = bd) as -> by congruence. eexists _, _.
    split; [apply lookup_insert_eq|]. split; [apply lookup_insert_eq|]. cbn [vd_meta].
    destruct (bd_reuse bd); [done|]. destruct Hm. split; [done|lia].
Qed.

Lemma finish_vinv st b sid bd sd d failed now :
  vinv (VState st b) → b !! sid = Some bd → st !! sid = Some sd →
  vinv (VState
    (<[sid := set_version (bd_version bd) (MkVersion (Meta (final_record sid bd failed now)) (Some d)) sd]> st)
    (delete sid b)).
Proof.
  intros Hx Hbd Hsd. destruct (build_session _ _ _ _ _ Hx Hbd Hsd) as (Hok & vd & Hl & (Hs & Hd & _) & Hm).
  apply vinv_ends; [done|]. unfold final_record. destruct (bd_reuse bd) as [m|].
  - destruct Hm as [Hp Hv]. apply session_ok_record; [done| |done]. apply elem_of_recorded. eauto.
  - destruct Hm as [_ Hc]. apply session_ok_set; [done| |].
    + split_and!; [done..|]. right. eexists _, d. by split.
    + etrans; [apply recorded_set|lia].
Qed.

Lemma fail_vinv st b sid bd sd :
  vinv (VState st b) → b !! sid = Some bd → st !! sid = Some sd →
  vinv (VState (match bd_reuse bd with None => <[sid := remove_version (bd_version bd) sd]> st | Some _ => st end)
    (delete sid b)).
Proof.
  intros Hx Hbd Hsd. destruct (bd_reuse bd); [by eapply vinv_less, delete_subseteq|]. apply vinv_ends; [done|].
  destruct Hx as [Hst _]. destruct (Hst _ _ Hsd) as (Hs & Hv & Hc). split_and!; [done|by apply map_Forall_delete|].
  etrans; [apply recorded_remove|done].
Qed.

Lemma touched_ok sid name now vd :
  version_ok sid name vd → version_ok sid name (touch_version now name vd) ∧
  has_valid_meta (vd_meta (touch_version now name vd)) = has_valid_meta (vd_meta vd) ∧
  (vd_meta vd = NoMeta → vd_meta (touch_version now name vd) = NoMeta).
Proof.
  intros (Hs & Hd & Hv). unfold touch_version, visible. rewrite Hd. destruct Hv as [Hv|(m & d & -> & Hp)].
  - rewrite Hv. cbn [read_version_meta]. rewrite Hv. split; [|done]. split; [done|]. split; [done|by left].
  - cbn [vd_meta read_version_meta negb]. split; [|done]. split; [done|]. split; [done|]. right. by eexists _, d.
Qed.

Lemma touch_vinv st b sid now : vinv (VState st b) → vinv (VState (touch_venvs st sid now).1 b).
Proof.
  intros Hx. unfold touch_venvs. destruct (sanitize_session_id sid) as [|t] eqn:Es; [done|].
  pose proof (sanitize_inr _ _ Es) as ->. destruct (st !! sid) as [sd|] eqn:Hsd; [|done]. cbn [fst].
  pose proof Hx as [Hst Hb]. destruct (Hst _ _ Hsd) as (Hs & Hv & Hc).
  set (sd' := touch_session_json _ _). assert (size (recorded sd') ≤ size (recorded sd))%nat as Hle.
  { apply recorded_imap. intros k vd vd' [= <-]. unfold touch_version. destruct (vd_meta vd) eqn:Em; cbn [read_version_meta]; try case_match; cbn [vd_meta]; by rewrite ?Em. }
  assert (Hl : ∀ k, sd_versions sd' !! k = touch_version now k <$> sd_versions sd !! k).
  { intros k. unfold sd'. cbn [touch_session_json sd_versions]. rewrite map_lookup_imap. by destruct (_ !! k). }
  eapply vinv_at; [done| |done|].
  - split_and!; [done| |lia]. intros k vd. rewrite Hl. intros (vd0 & E & ->)%fmap_Some.
    by apply touched_ok, Hv.
  - intros bd Hbd. destruct (Hb _ _ Hbd) as (sd0 & vd & Hsd0 & Hvd & Hm). cbn [vs_store] in Hsd0.
    assert (sd0 = sd) as -> by congruence. exists sd', (touch_version now (bd_version bd) vd).
    rewrite lookup_insert_eq, Hl, Hvd. split_and!; [done..|].
    destruct (touched_ok _ _ now _ (Hv _ _ Hvd)) as (_ & Hm1 & Hm2). rewrite Hm1.
    destruct (bd_reuse bd); [done|]. destruct Hm as [Hm Hlt]. split; [auto|lia].
Qed.

Lemma reap_vinv st now : vinv (VState st ∅) → vinv (VState (reap_expired ttl st now).1 ∅).
Proof.
  intros [Hst _]. split; [|by apply map_Forall_empty]. intros sid sd. cbn [vs_store reap_expired fst].
  rewrite map_lookup_imap. destruct (st !! sid) as [sd0|] eqn:E; [|done]. simpl. unfold reap_session.
  case_match; [|done]. intros [= <-]. destruct (Hst _ _ E) as (Hs & Hv & Hc).
  assert (Hsame : ∀ k (vd vd' : version_dir V), reap_version ttl now k vd = Some vd' → vd' = vd)
    by (intros k vd vd'; unfold reap_version; repeat case_match; congruence).
  split_and!; [done| |].
  - intros name vd. cbn [sd_versions]. rewrite map_lookup_imap. intros (vd0 & Hl & Hr)%bind_Some.
    rewrite (Hsame _ _ _ Hr). by apply Hv.
  - etrans; [apply recorded_imap|done]. intros k vd vd' ->%Hsame. done.
Qed.

Lemma delete_vinv st b sid : vinv (VState st b) → b !! sid = None → vinv (VState (delete_session st sid).1 b).
Proof.
  intros [Hst Hb] Hn. unfold delete_session. destruct (sanitize_session_id sid) as [|t] eqn:Es; [done|].
  pose proof (sanitize_inr _ _ Es) as ->. split; [by apply map_Forall_delete|].
  intros k bd Hl. destruct (Hb _ _ Hl) as (sd & vd & Hsd & ?). exists sd, vd. split; [|done].
  cbn [fst vs_store] in *. rewrite lookup_delete_ne; [done|]. intros <-. cbn [vs_builds] in Hl. congruence.
Qed.

Lemma vstep_vinv x y : vstep x y → vinv x → vinv y.
Proof.
  destruct 1 as [| st b sid raw now later version sd m d specs He Hr | st b sid raw now version sd He | | | | | | | | |];
    intros Hx.
  - by apply peek_vinv.
  - destruct (entered_ok _ _ _ _ _ _ _ (proj1 Hx) He) as (Hok & _). pose proof He as (_ & _ & Hb & _).
    destruct (reusable_place _ _ _ _ _ Hok Hr) as (? & ? & _). apply vinv_idle; [done| |done]. by apply session_ok_record.
  - destruct (entered_ok _ _ _ _ _ _ _ (proj1 Hx) He) as (Hok & _). destruct He as (_ & _ & Hb & _). by apply vinv_idle.
  - by eapply begin_vinv.
  - by eapply extend_vinv.
  - by apply work_vinv.
  - by apply finish_vinv.
  - by apply fail_vinv.
  - by eapply vinv_less, delete_subseteq.
  - by apply touch_vinv.
  - by apply delete_vinv.
  - by apply reap_vinv.
Qed.

Lemma reachable_vinv x : rtc vstep (VState ∅ ∅) x → vinv x.
Proof.
  intros Hr. assert (vinv (VState ∅ ∅)) as H0 by (split; apply map_Forall_empty).
  revert H0. induction Hr as [|x y z Hxy _ IH]; [done|]. intros Hx. by apply IH, (vstep_vinv x).
Qed.

(** C21: Whatever is built at the same time in other sessions, whatever the commands do, and
    whenever processes are killed: as long as a session is not deleted while one of its
    environments is being built, and nothing is reaped during a build, every session on
    disk has a safe name and at most the allowed number of versions with a record; and
    every version directory either has no record (a build under way, or what a killed one
    left) or has a record that names its session, its version and its place, and an
    environment.  A call of [acquire] on a session that nobody is building is a run of
    these steps. *)
Theorem venv_store_invariant x :
  rtc vstep (VState ∅ ∅) x →
  store_ok (vs_store x) ∧
  ∀ sid raw specs now later, vs_builds x !! sid = None →
    rtc vstep x (VState (acquire root max_venvs (vs_store x) sid raw specs now later).1 (vs_builds x)).
Proof.
  intros Hr. split; [by apply reachable_vinv|]. intros. destruct x as [st b]. by apply acquire_run.
Qed.
End Steps.

(** ** A killed build *)

Module VenvStepsDemo.
Import VenvDemo.

Definition st0 : store (list string) := ∅.
Definition sd0 : session_dir (list string) := touch_session_json 10 empty_session.
Definition st1 : store (list string) := <["s1" := with_venv "2.16.0" None sd0]> st0.

(** The build of 2.16 is killed.  Its directory has no record and does not count: with a cap
    of one environment, 2.17 can be acquired. *)
Definition killed : vstate (list string) := VState st1 ∅.
Definition st2 : store (list string) := (acquire "/sessions" 1 st1 "s1" "2.17" [] 20 30).1.

Lemma killed_reached : rtc (vstep "/sessions" 1 3600) (VState ∅ ∅) killed.
Proof.
  eapply rtc_l; [eapply (VBegin _ _ _ st0 ∅ "s1" "2.16" 10 "2.16.0" sd0 []); vm_compute; [repeat split|reflexivity|constructor]|].
  eapply rtc_l; [apply (VKilled _ _ _ _ _ "s1")|]. rewrite delete_insert_id by done. apply rtc_refl.
Qed.

Lemma venv_store_invariant_witness :
  store_ok "/sessions" 1 st2 ∧ ∃ sd, st2 !! "s1" = Some sd ∧ size (sd_versions sd) = 2%nat ∧ size (recorded sd) = 1%nat.
Proof.
  destruct (venv_store_invariant "/sessions" 1 3600 killed killed_reached) as [_ Hrun].
  destruct (venv_store_invariant "/sessions" 1 3600 (VState st2 ∅)) as [Hok _].
  - transitivity killed; [exact killed_reached|]. apply (Hrun "s1" "2.17" [] 20%Z 30%Z). apply lookup_empty.
  - split; [exact Hok|]. eexists. split; [vm_compute; reflexivity|]. split; vm_compute; reflexivity.
Defined.
End VenvStepsDemo.
