(* ===== verification/Scanner.v ===== *)
(** * The graph scanner

    [scan], [rescan_dirty], [_evaluate_node] and [expand_dirty_node_ids] of
    [src/apme_engine/graph/scanner.py].  A rule ([GraphRule] of
    [src/apme_engine/graph/rule_base.py]) is its metadata and a function that gives the
    outcome of [match] and [process] on a node; the rules keep mutable state on their
    instances, reset at the start of every scan, which is threaded explicitly. *)

From stdpp Require Import base list gmap strings relations sorting.
From Stdlib Require Import Ascii String Sorted.
From S2P Require Import Prelude PyStr Yaml Violation NxGraph ContentNode ContentGraph GraphLaws Sample GraphQueries Noqa.

#[local] Notation length := List.length.

(** [RuleMetadata]; the scope by value. *)
Record RuleMetadata := MkRule {
  rm_id : string;
  rm_description : string;
  rm_scope : string;
}.

Record GraphRuleResult := MkResult {
  rr_rule : option RuleMetadata;
  rr_verdict : bool;
  rr_detail : option YAMLDict;
  rr_node_id : string;
  rr_file : option (list yval);
  rr_error : option string;
}.

(** Running [match] and then [process]: an exception (its text), no match, a match
    without a result, a result. *)
Inductive outcome :=
| Raised (err : string)
| NoMatch
| NoResult
| Produced (r : GraphRuleResult).

Definition SCANNABLE_TYPES : list NodeType :=
  [TASK; HANDLER; BLOCK; PLAY; ROLE; TASKFILE; PLAYBOOK; COLLECTION; MODULE; RULEBOOK; RULESET].

(** [_AGGREGATE_SCOPE_NODE_TYPES] *)
Definition aggregate_types (scope : string) : list NodeType :=
  if decide (scope = "block"%string) then [BLOCK]
  else if decide (scope = "play"%string) then [PLAY]
  else if decide (scope = "playbook"%string) then [PLAYBOOK]
  else if decide (scope = "role"%string) then [ROLE]
  else if decide (scope = "collection"%string) then [COLLECTION]
  else [].

Section Scanner.
Context `{YamlLib} {G : Type} `{NxLaws ContentNode EdgeAttrs G} {RS : Type}.
Implicit Types (g : ContentGraph G) (n : ContentNode).

Record GraphRule := MkGraphRule {
  gr_meta : RuleMetadata;
  gr_enabled : bool;
  gr_reset : RS;                                           (* state after reset_scan_state *)
  gr_run : RS → ContentGraph G → string → RS * outcome;
}.
Implicit Types (r : GraphRule).

Definition set_rule r (x : GraphRuleResult) : GraphRuleResult :=
  MkResult (Some (gr_meta r)) (rr_verdict x) (rr_detail x) (rr_node_id x) (rr_file x) (rr_error x).

Definition rule_results r n (o : outcome) : list GraphRuleResult :=
  match o with
  | Raised err =>
    [MkResult (Some (gr_meta r)) false None (node_id n) None
       (Some ("Rule execution failed: " +:+ err)%string)]
  | NoMatch | NoResult => []
  | Produced x => [set_rule r x]
  end.

(** The loop of [_evaluate_node] over the rules and their states. *)
Fixpoint eval_rules g n (suppressed : gset string) (rs : list (GraphRule * RS))
    : list (GraphRule * RS) * list GraphRuleResult :=
  match rs with
  | [] => ([], [])
  | (r, s) :: rs' =>
    let '(s', out) :=
      if decide (supper (rm_id (gr_meta r)) ∈ suppressed) then (s, [])
      else let '(s', o) := gr_run r s g (node_id n) in (s', rule_results r n o) in
    let '(rs2, outs) := eval_rules g n suppressed rs' in
    ((r, s') :: rs2, out ++ outs)
  end.

Record GraphScanReport := MkReport {
  rp_results : list (string * ContentNode * list GraphRuleResult);
  rp_rules_evaluated : nat;
  rp_nodes_scanned : nat;
}.

Definition evaluate_node g (acc : list (GraphRule * RS) * GraphScanReport) n
    : list (GraphRule * RS) * GraphScanReport :=
  let '(rs, rp) := acc in
  let suppressed := if decide (nd_yaml n = ""%string) then ∅ else parse_noqa (nd_yaml n) in
  let '(rs', outs) := eval_rules g n suppressed rs in
  (rs', MkReport
          (rp_results rp ++ match outs with [] => [] | _ => [(node_id n, n, outs)] end)
          (rp_rules_evaluated rp) (S (rp_nodes_scanned rp))).

Definition scannable (owned_only : bool) n : bool :=
  bool_decide (node_type n ∈ SCANNABLE_TYPES) &&
  (negb owned_only || bool_decide (m_scope (nd_meta n) = OWNED)).

Definition run_scan g (rules : list GraphRule) (owned_only : bool) (ns : list ContentNode)
    : GraphScanReport :=
  let enabled := filter (λ r, gr_enabled r = true) rules in
  (foldl (evaluate_node g) ((λ r, (r, gr_reset r)) <$> enabled, MkReport [] (length enabled) 0)
     (filter (λ n, scannable owned_only n = true) ns)).2.

Definition node_le n m : bool := String.leb (node_id n) (node_id m).

(** [scan] *)
Definition scan g rules (owned_only : bool) : GraphScanReport :=
  run_scan g rules owned_only (sort_by node_le (nodes g)).

Definition aggregate_node_types (rules : list GraphRule) : list NodeType :=
  rules ≫= λ r, aggregate_types (rm_scope (gr_meta r)).

Definition typed_in g (types : list NodeType) (k : string) : bool :=
  match get_node g k with Some m => bool_decide (node_type m ∈ types) | None => false end.

(** One dirty node of [expand_dirty_node_ids]. *)
Definition expand_one g (types : list NodeType) (expanded : gset string) (k : string) : gset string :=
  match get_node g k with
  | None => expanded
  | Some n =>
    (if bool_decide (node_type n ∈ types) then {[k]} else ∅) ∪ expanded ∪
    filter (λ a, typed_in g types a = true) (positional_ancestor_ids g k)
  end.

(** [expand_dirty_node_ids] *)
Definition expand_dirty_node_ids g rules (dirty : gset string) : gset string :=
  if decide (dirty = ∅) then ∅
  else
    let types := aggregate_node_types rules in
    if decide (types = []) then dirty
    else foldl (expand_one g types) dirty (elements dirty).

(** [rescan_dirty] *)
Definition rescan_dirty g rules (dirty : gset string) (owned_only : bool) : GraphScanReport :=
  let enabled := filter (λ r, gr_enabled r = true) rules in
  let ids := sort_by String.leb (elements (expand_dirty_node_ids g enabled dirty)) in
  run_scan g rules owned_only (omap (get_node g) ids).

(** ** Expansion of the dirty set *)

Lemma foldl_expand g types l s x :
  x ∈ foldl (expand_one g types) s l ↔
  x ∈ s ∨ ∃ k, k ∈ l ∧ is_Some (get_node g k) ∧ typed_in g types x = true ∧
            (x = k ∨ x ∈ positional_ancestor_ids g k).
Proof.
  revert s. induction l as [|k l IH]; intros s; simpl; [set_solver|]. rewrite IH. clear IH.
  assert (x ∈ expand_one g types s k ↔ x ∈ s ∨ is_Some (get_node g k) ∧ typed_in g types x = true ∧
    (x = k ∨ x ∈ positional_ancestor_ids g k)) as ->.
  { unfold expand_one. destruct (get_node g k) as [n|] eqn:Hn.
    - rewrite !elem_of_union, elem_of_filter.
      assert (x ∈ (if bool_decide (node_type n ∈ types) then {[k]} else ∅ : gset string)
        ↔ x = k ∧ typed_in g types x = true) as ->.
      { case_bool_decide as Ht.
        - rewrite elem_of_singleton. split; [intros ->|naive_solver]. unfold typed_in. rewrite Hn.
          by rewrite bool_decide_true.
        - split; [set_solver|]. intros [-> Htt]. unfold typed_in in Htt. rewrite Hn in Htt.
          by apply bool_decide_eq_true in Htt. }
      assert (is_Some (Some n)) by by eexists. tauto.
    - split; [by left|]. intros [?|[[? ?] _]]; done. }
  set_solver.
Qed.

Lemma elem_of_expand g rules d x :
  x ∈ expand_dirty_node_ids g rules d ↔
  x ∈ d ∨ ∃ k, k ∈ d ∧ is_Some (get_node g k) ∧ typed_in g (aggregate_node_types rules) x = true ∧
            x ∈ positional_ancestor_ids g k.
Proof.
  unfold expand_dirty_node_ids. case_decide as Hd; [set_solver|]. case_decide as Ht.
  - split; [by left|]. intros [?|(k & _ & _ & Hx & _)]; [done|]. unfold typed_in in Hx.
    rewrite Ht in Hx. case_match; [|done]. apply bool_decide_eq_true in Hx. set_solver.
  - rewrite foldl_expand. setoid_rewrite elem_of_elements. naive_solver.
Qed.

Lemma typed_in_mono g types types' k :
  types ⊆ types' → typed_in g types k = true → typed_in g types' k = true.
Proof.
  unfold typed_in. intros Hsub. case_match; [|done].
  rewrite !bool_decide_eq_true. set_solver.
Qed.

Lemma aggregate_types_mono (rules rules' : list (GraphRule)) :
  rules ⊆ rules' → aggregate_node_types rules ⊆ aggregate_node_types rules'.
Proof.
  intros Hsub t. unfold aggregate_node_types. rewrite !list_elem_of_bind. naive_solver.
Qed.

Lemma is_Some_mem g k : is_Some (get_node g k) → nx_mem k (cg_g g).
Proof. intros [n Hn]. by eapply nx_payload_mem. Qed.

Lemma expand_idemp g rules enabled d :
  enabled ⊆ rules →
  expand_dirty_node_ids g enabled (expand_dirty_node_ids g rules d) = expand_dirty_node_ids g rules d.
Proof.
  intros Hsub. apply set_eq. intros x. rewrite elem_of_expand. split; [|by left].
  intros [?|(k & Hk & Hks & Ht & Ha)]; [done|]. rewrite elem_of_expand in Hk. rewrite elem_of_expand.
  apply (typed_in_mono _ _ (aggregate_node_types rules)) in Ht; [|by apply aggregate_types_mono].
  right. destruct Hk as [Hk|(k0 & Hk0 & Hs0 & _ & Hak)]; [by exists k|].
  exists k0. split_and!; [done..|].
  rewrite positional_ancestor_reachable in * by by apply is_Some_mem. by etrans.
Qed.

(** Node operations do not change what is expanded. *)
Lemma graph_steps_expand A g g' rules d :
  graph_steps A g g' → expand_dirty_node_ids g' rules d = expand_dirty_node_ids g rules d.
Proof.
  intros Hs. apply set_eq. intros x. rewrite !elem_of_expand.
  assert (Hsome : ∀ k, is_Some (get_node g' k) ↔ is_Some (get_node g k)).
  { intros k. pose proof (gs_nodes _ _ _ Hs k) as N. destruct N; split; intros []; eauto; done. }
  assert (typed_in g' (aggregate_node_types rules) x = typed_in g (aggregate_node_types rules) x) as ->.
  { unfold typed_in. pose proof (gs_nodes _ _ _ Hs x) as N. destruct N as [n n' HN|]; [|done].
    apply node_steps_frame in HN as (HN & _). unfold node_type. by rewrite HN. }
  setoid_rewrite Hsome. by setoid_rewrite (graph_steps_ancestors A g g' _ Hs).
Qed.

(** ** Incremental rescans *)

(** A rule without state of its own. *)
Definition stateless r : Prop :=
  ∃ f, ∀ s g k, gr_run r s g k = (s, f g k).

(** The vertex ids are the node ids. *)
Definition ids_consistent g : Prop := ∀ k n, get_node g k = Some n → node_id n = k.

(** What the rules say about one node. *)
Definition node_report g (enabled : list GraphRule) n : list GraphRuleResult :=
  (eval_rules g n (if decide (nd_yaml n = ""%string) then ∅ else parse_noqa (nd_yaml n))
     ((λ r, (r, gr_reset r)) <$> enabled)).2.

Lemma eval_rules_stateless g n sup rs :
  Forall (λ p, stateless p.1) rs → (eval_rules g n sup rs).1 = rs.
Proof.
  induction 1 as [|[r s] rs [f Hf] Hrs IH]; simpl in *; [done|].
  destruct (eval_rules g n sup rs) as [rs2 outs]. simpl in *. subst.
  case_decide; [done|]. by rewrite Hf.
Qed.

Lemma evaluate_nodes_stateless g enabled ns rp :
  Forall stateless enabled →
  rp_results (foldl (evaluate_node g) ((λ r, (r, gr_reset r)) <$> enabled, rp) ns).2
  = rp_results rp ++ (ns ≫= λ n, match node_report g enabled n with
                                 | [] => [] | outs => [(node_id n, n, outs)] end).
Proof.
  intros Hst. revert rp. induction ns as [|n ns IH]; intros rp; csimpl; [by rewrite app_nil_r|].
  unfold node_report at 1. set (sup := if decide _ then _ else _).
  pose proof (eval_rules_stateless g n sup ((λ r, (r, gr_reset r)) <$> enabled)) as Hrs.
  destruct (eval_rules g n sup _) as [rs outs]. simpl in Hrs. rewrite Hrs.
  2: { apply Forall_fmap. eapply Forall_impl; [exact Hst|]. done. }
  rewrite IH. simpl. rewrite <- app_assoc. by destruct outs.
Qed.

Lemma elem_of_nodes g n : n ∈ nodes g ↔ ∃ k, get_node g k = Some n.
Proof.
  unfold nodes. rewrite list_elem_of_omap. split.
  - intros ([k o] & Hin & Ho). simpl in Ho. subst. exists k. by apply nx_nodes_payload.
  - intros (k & Hk). exists (k, Some n). split; [|done]. by apply nx_nodes_payload.
Qed.

Lemma nodes_NoDup g : ids_consistent g → NoDup (nodes g).
Proof.
  intros Hid. unfold nodes. pose proof (nx_nodes_nodup (cg_g g)) as Hnd.
  assert (∀ k n, (k, Some n) ∈ nx_nodes (cg_g g) → node_id n = k) as Hk.
  { intros k n Hin%nx_nodes_payload. by apply Hid. }
  induction (nx_nodes (cg_g g)) as [|[k o] l IH]; [constructor|]. csimpl in *.
  apply NoDup_cons in Hnd as [Hni Hnd].
  assert (NoDup (omap snd l)) by (apply IH; [done|]; intros; apply Hk; by right).
  destruct o as [n|]; [|done]. constructor; [|done].
  intros ([k' o'] & Hin & Ho)%list_elem_of_omap. simpl in Ho. subst o'. apply Hni.
  rewrite <- (Hk k n) by (by left). rewrite (Hk k' n) by (by right).
  apply list_elem_of_fmap. by exists (k', Some n).
Qed.

(** The nodes of a set of ids in id order: sorting the ids or the nodes is the same. *)
Lemma sorted_nodes_restrict g (E : gset string) :
  ids_consistent g →
  omap (get_node g) (sort_by String.leb (elements E))
  = filter (λ n, node_id n ∈ E) (sort_by node_le (nodes g)).
Proof.
  intros Hid. apply (StronglySorted_unique_strong (λ a b, node_le a b = true)).
  - intros n m Hn Hm H1' H2'. apply list_elem_of_omap in Hn as (k & _ & Hk).
    apply list_elem_of_filter in Hm as [_ Hm]. rewrite elem_of_sort_by, elem_of_nodes in Hm.
    destruct Hm as (j & Hj). pose proof (String.leb_antisym _ _ H1' H2') as Heq.
    rewrite (Hid _ _ Hk), (Hid _ _ Hj) in Heq. congruence.
  - eapply StronglySorted_omap;
      [|apply sort_by_sorted; [apply string_leb_total|apply string_leb_trans]].
    intros a a' n n' Ha Ha' Hle. unfold node_le. by rewrite (Hid _ _ Ha), (Hid _ _ Ha').
  - apply StronglySorted_filter, sort_by_sorted; intros; unfold node_le in *;
      eauto using string_leb_total, string_leb_trans.
  - apply NoDup_Permutation.
    + apply NoDup_omap; [intros a a' n Ha Ha'; by rewrite <- (Hid _ _ Ha), (Hid _ _ Ha')|].
      rewrite sort_by_perm. apply NoDup_elements.
    + apply NoDup_filter. rewrite sort_by_perm. by apply nodes_NoDup.
    + intros n. rewrite list_elem_of_omap, list_elem_of_filter, elem_of_sort_by, elem_of_nodes.
      setoid_rewrite elem_of_sort_by. setoid_rewrite elem_of_elements. split.
      * intros (k & Hk & Hn). rewrite (Hid _ _ Hn). eauto.
      * intros (HE & k & Hn). exists k. by rewrite <- (Hid _ _ Hn) at 1.
Qed.

Lemma filter_bind_restrict {X} (E : gset string) (f : ContentNode → list (string * ContentNode * X)) ns :
  (∀ n x, x ∈ f n → x.1.1 = node_id n) →
  filter (λ n, node_id n ∈ E) ns ≫= f = filter (λ x, x.1.1 ∈ E) (ns ≫= f).
Proof.
  intros Hf. induction ns as [|n ns IH]; [done|]. csimpl. rewrite filter_app, filter_cons, <- IH.
  assert (∀ l, (∀ x, x ∈ l → x.1.1 = node_id n) →
    filter (λ x : string * ContentNode * X, x.1.1 ∈ E) l = if decide (node_id n ∈ E) then l else []) as Hl.
  { induction l as [|x l IHl]; intros Hx; [by case_decide|]. rewrite filter_cons, IHl.
    - rewrite (Hx x) by (by left). by case_decide.
    - intros; apply Hx; by right. }
  rewrite (Hl (f n)) by auto. by case_decide.
Qed.

(** ** Properties *)

(** Expanding the dirty set adds exactly the positional ancestors whose type some
    rule aggregates over; expanding again with the enabled rules adds nothing, so the
    rescan of an already expanded set evaluates that set. *)
Theorem expand_dirty_exact g rules d :
  (∀ x, x ∈ expand_dirty_node_ids g rules d ↔
     x ∈ d ∨ ∃ k, k ∈ d ∧ is_Some (get_node g k) ∧ tc (pos_edge g) x k ∧
               typed_in g (aggregate_node_types rules) x = true) ∧
  expand_dirty_node_ids g (filter (λ r, gr_enabled r = true) rules) (expand_dirty_node_ids g rules d)
  = expand_dirty_node_ids g rules d.
Proof.
  split.
  - intros x. rewrite elem_of_expand. f_equiv. split.
    + intros (k & ? & Hk & ? & Ha). apply positional_ancestor_reachable in Ha; [|by apply is_Some_mem].
      eauto 10.
    + intros (k & ? & Hk & Ha & ?). apply positional_ancestor_reachable in Ha; [|by apply is_Some_mem].
      eauto 10.
  - apply expand_idemp. intros r Hr. by apply list_elem_of_filter in Hr as [_ ?].
Qed.

(** With rules that keep no state, an incremental rescan reports for every node it
    covers exactly what a full scan reports, in the same order, and nothing else. *)
Theorem rescan_restricts_scan g rules d owned_only :
  Forall stateless rules → ids_consistent g →
  rp_results (rescan_dirty g rules d owned_only)
  = filter (λ x, x.1.1 ∈ expand_dirty_node_ids g (filter (λ r, gr_enabled r = true) rules) d)
      (rp_results (scan g rules owned_only)).
Proof.
  intros Hst Hid. unfold rescan_dirty, scan, run_scan.
  assert (Forall stateless (filter (λ r, gr_enabled r = true) rules)) as Hst'.
  { rewrite Forall_forall in *. intros r [_ Hr]%list_elem_of_filter. auto. }
  rewrite !evaluate_nodes_stateless by done. simpl. set (E := expand_dirty_node_ids _ _ d).
  rewrite sorted_nodes_restrict by done. rewrite <- filter_bind_restrict.
  - f_equal. rewrite !list_filter_filter. apply list_filter_iff. tauto.
  - intros n x Hx. case_match; [set_solver|]. by apply list_elem_of_singleton in Hx as ->.
Qed.
End Scanner.
Arguments GraphRule : clear implicits.

(** ** Witnesses *)

(** A rule on tasks and an aggregate rule on plays. *)
Definition sample_rule (id scope : string) : GraphRule SG unit :=
  MkGraphRule (MkRule id "d" scope) true tt
    (λ s g k, (s, Produced (MkResult None true None k None None))).

Lemma expand_dirty_exact_witness :
  play_id ∈ expand_dirty_node_ids sample_graph [sample_rule "L1" "play"] {[task_id]}.
Proof.
  apply (expand_dirty_exact (G := SG) sample_graph [sample_rule "L1" "play"] {[task_id]}).
  right. exists task_id. split; [apply elem_of_singleton; reflexivity|].
  split; [eexists; vm_compute; reflexivity|].
  split; [|vm_compute; reflexivity]. apply tc_once.
  exists (contains_edge 0). split; [vm_compute; constructor|reflexivity].
Defined.

Lemma rescan_restricts_scan_witness :
  rp_results (rescan_dirty sample_graph [sample_rule "L1" "play"] {[task_id]} true)
  = filter (λ x, x.1.1 ∈ expand_dirty_node_ids sample_graph
             (filter (λ r, gr_enabled r = true) [sample_rule "L1" "play"]) {[task_id]})
      (rp_results (scan sample_graph [sample_rule "L1" "play"] true)).
Proof.
  apply (rescan_restricts_scan (G := SG)).
  - apply Forall_cons. split; [|apply Forall_nil_2].
    exists (λ g k, Produced (MkResult None true None k None None)). reflexivity.
  - intros k n Hn. apply nx_nodes_payload in Hn. cbn in Hn.
    repeat (apply elem_of_cons in Hn as [Hn|Hn]; [by simplify_eq/=|]).
    by apply elem_of_nil in Hn.
Defined.
