(* ===== verification/VariableRules.v ===== *)
(** * Rules about variables

    Five native rules of [src/apme_engine/graph/rules/] that read the scope of a
    variable, as [GraphRule]s of the scanner: L033 (unconditional override), L034
    (ineffective override), L039 (possibly undefined variable), L093 (a fact named like
    a role variable) and L110 (a debug task that prints a secret).  The theorems carry
    the guarantees of [Precedence] and [VariableHelpers] to what the rules report, or
    do not report. *)

From stdpp Require Import base list gmap strings relations pretty.
From Stdlib Require Import Ascii String.
From S2P Require Import Prelude PyStr Yaml Violation Sensitivity NxGraph ContentNode ContentGraph GraphLaws Sample GraphQueries MemoPaths ExecutionOrder Provenance Precedence VariableHelpers Noqa Scanner.

#[local] Open Scope string_scope.
#[local] Notation length := List.length.

Definition TASK_TYPES : list NodeType := [TASK; HANDLER].

(** [GraphRuleResult(verdict=..., detail=..., node_id=..., file=(file_path, line_start))] *)
Definition result (n : ContentNode) (k : string) (verdict : bool) (detail : option YAMLDict)
    : GraphRuleResult :=
  MkResult None verdict detail k
    (Some [YStr (m_file_path (nd_meta n)); YInt (m_line_start (nd_meta n))]) None.

(** [match] and [process] of a rule as the scanner runs them; a rule without state. *)
Definition run_rule (matched : bool) (processed : option GraphRuleResult) : outcome :=
  if matched then match processed with Some r => Produced r | None => NoResult end else NoMatch.

Definition truthy_opt (s : option string) : bool :=
  match s with Some x => negb (bool_decide (x = "")) | None => false end.

Definition SET_FACT_FQCNS : list string :=
  ["set_fact"; "ansible.builtin.set_fact"; "ansible.legacy.set_fact"].

(** [_PRECEDENCE_ORDER] of L034 *)
Definition precedence_order (s : ProvenanceSource) : nat :=
  match s with
  | ROLE_DEFAULT => 1 | INVENTORY_FILE => 2 | VARS_FILE_VARS => 3 | PLAYBOOK_VARS => 4
  | PLAY_VARS => 5 | BLOCK_VARS => 6 | ROLE_VAR => 7 | LOCAL => 8 | RUNTIME => 9 | EXTERNAL => 0
  end.

(** [ProvenanceSource.value] *)
Definition source_value (s : ProvenanceSource) : string :=
  match s with
  | LOCAL => "local" | BLOCK_VARS => "block" | ROLE_DEFAULT => "role_default" | ROLE_VAR => "role_var"
  | PLAY_VARS => "play" | PLAYBOOK_VARS => "playbook" | RUNTIME => "runtime"
  | INVENTORY_FILE => "inventory_file" | VARS_FILE_VARS => "vars_file" | EXTERNAL => "external"
  end.

Definition MAGIC_VARS : list string :=
  ["inventory_hostname"; "inventory_hostname_short"; "inventory_dir"; "inventory_file"; "groups";
   "group_names"; "hostvars"; "ansible_host"; "ansible_port"; "ansible_user"; "ansible_connection";
   "ansible_ssh_host"; "ansible_ssh_port"; "ansible_ssh_user"; "ansible_ssh_pass";
   "ansible_ssh_private_key_file"; "ansible_become"; "ansible_become_user"; "ansible_become_pass";
   "ansible_become_method"; "play_hosts"; "ansible_play_hosts"; "ansible_play_hosts_all";
   "ansible_play_batch"; "ansible_play_name"; "ansible_play_role_names"; "playbook_dir";
   "role_path"; "role_name"; "role_names"; "ansible_facts"; "ansible_local"; "ansible_env";
   "ansible_os_family"; "ansible_distribution"; "ansible_distribution_version";
   "ansible_distribution_major_version"; "ansible_architecture"; "ansible_pkg_mgr";
   "ansible_service_mgr"; "ansible_hostname"; "ansible_fqdn"; "ansible_default_ipv4";
   "ansible_all_ipv4_addresses"; "ansible_interfaces"; "ansible_memtotal_mb";
   "ansible_processor_vcpus"; "ansible_python_interpreter"; "ansible_python"; "ansible_check_mode";
   "ansible_diff_mode"; "ansible_verbosity"; "ansible_version"; "ansible_run_tags";
   "ansible_skip_tags"; "ansible_config_file"; "item"; "ansible_loop"; "ansible_loop_var";
   "ansible_index_var"; "vars"; "omit"; "undefined"; "true"; "false"; "none"; "True"; "False";
   "None"; "lookup"; "query"; "q"; "now"; "range"; "undef"].

Definition DEBUG_MODULES : list string := ["debug"; "ansible.builtin.debug"; "ansible.legacy.debug"].

(** The references of a rule that are not magic. *)
Definition non_magic (refs : gset string) : gset string :=
  filter (λ r, r ∉ MAGIC_VARS ∧ startswith r "ansible_" = false) refs.

(** ** L110: names a Jinja text prints *)

(** [(?:\.ident)*] *)
Fixpoint dotted_tail (fuel : nat) (s : string) : string :=
  match fuel, s with
  | S fuel', String c s' =>
    if Ascii.eqb c "." then
      match ident_prefix s' with
      | Some (i, rest) => "." +:+ i +:+ dotted_tail fuel' rest
      | None => ""
      end
    else ""
  | _, _ => ""
  end.

Definition dotted_path (s : string) : option string :=
  '(i, rest) ← ident_prefix s; Some (i +:+ dotted_tail (String.length rest) rest).

(** [_JINJA_VAR_RE.finditer]: the paths that open a block. *)
Fixpoint opening_paths (s : string) : list string :=
  match s with
  | String a (String b s' as s1) =>
    ((if Ascii.eqb a "{" && Ascii.eqb b "{" then option_list (dotted_path (lstrip s')) else [])
     ++ opening_paths s1)%list
  | _ => []
  end.

Definition is_quote (c : ascii) : bool := Ascii.eqb c "'" || Ascii.eqb c DQ.

(** [_JINJA_ATTR_RE.finditer]: quoted identifiers after a bracket. *)
Fixpoint bracket_keys (s : string) : list string :=
  match s with
  | String a (String b s' as s1) =>
    ((if Ascii.eqb a "[" && is_quote b then
        match ident_prefix s' with
        | Some (i, String q _) => if is_quote q then [i] else []
        | _ => []
        end
      else []) ++ bracket_keys s1)%list
  | _ => []
  end.

(** [_extract_jinja_vars] *)
Definition extract_jinja_vars (text : string) : list string :=
  (opening_paths text ++ flat_map bracket_keys (jinja_bodies None text))%list.

(** One templated parameter of a debug task. *)
Definition printed_vars (mo : YAMLDict) (key : string) : list string :=
  let x := default (YStr "") (dget key mo) in
  if ytruthy x then filter (λ v, var_looks_sensitive v = true) (extract_jinja_vars (ystr x)) else [].

(** [_find_sensitive_vars_in_debug] *)
Definition find_sensitive_vars_in_debug (n : ContentNode) : list string :=
  let mo := f_module_options (nd_fields n) in
  sorted_set
    (printed_vars mo "msg"
     ++ match dget "var" mo with
        | Some (YStr v) => if negb (bool_decide (v = "")) && var_looks_sensitive v then [v] else []
        | _ => []
        end
     ++ printed_vars mo "_raw" ++ printed_vars mo "_raw_params")%list.

Section Rules.
Context `{YamlLib} {G : Type} `{NxLaws ContentNode EdgeAttrs G}.
Implicit Types (g : ContentGraph G) (n : ContentNode) (k : string).

(** ** L033: a variable is re-defined without conditions *)

Definition when_strings (w : when_expr) : list string :=
  match w with
  | WhenNone => []
  | WhenStr s => let s' := strip s in if bool_decide (s' = "") then [] else [s']
  | WhenList l => filter (λ s, s ≠ "") (strip <$> l)
  end.

Definition has_when n : bool :=
  match when_strings (f_when (nd_fields n)) with [] => false | _ => true end.
Definition has_tags n : bool := match f_tags (nd_fields n) with [] => false | _ => true end.

(** [_effective_when_tags] *)
Definition effective_when_tags g n : bool * bool * option string :=
  let ancs := ancestors g (node_id n) in
  (has_when n || existsb has_when ancs, has_tags n || existsb has_tags ancs,
   if has_when n then None else node_id <$> head (filter (λ a, has_when a = true) ancs)).

(** [_defined_var_names]; the keys of [set_facts] are distinct. *)
Definition defined_var_names n : list string :=
  let facts := (f_set_facts (nd_fields n)).*1 in
  match f_register (nd_fields n) with
  | Some r => if bool_decide (r = "" ∨ r ∈ facts) then facts else (facts ++ [r])%list
  | None => facts
  end.

Definition defines_var (v : string) n : bool :=
  if bool_decide (node_type n ∈ TASK_TYPES) then
    bool_decide (v ∈ (f_set_facts (nd_fields n)).*1) || bool_decide (f_register (nd_fields n) = Some v)
  else bool_decide (node_type n = PLAY) && bool_decide (v ∈ (f_variables (nd_fields n)).*1).

(** [_collect_definers_for_var] *)
Definition collect_definers_for_var g (v : string) : list string :=
  node_id <$> filter (λ n, defines_var v n = true) (nodes g).

Definition L033_match g k : bool :=
  match get_node g k with
  | Some n =>
    bool_decide (node_type n ∈ TASK_TYPES)
    && (match f_set_facts (nd_fields n) with [] => false | _ => true end
        || truthy_opt (f_register (nd_fields n)))
  | None => false
  end.

Definition override_entry g (v : string) : option yval :=
  let definers := collect_definers_for_var g v in
  if bool_decide (1 < length definers)%nat then
    Some (YDict [("name", YStr v); ("defined_by", YList (YStr <$> definers))])
  else None.

Definition L033_process g k : option GraphRuleResult :=
  n ← get_node g k;
  let '(when_, tags, inherited) := effective_when_tags g n in
  if when_ || tags then
    Some (result n k false
            (Some (("variables", YList []) ::
                   match inherited with Some a => [("inherited_when_from", YStr a)] | None => [] end)))
  else
    let entries := omap (override_entry g) (defined_var_names n) in
    Some (result n k (match entries with [] => false | _ => true end) (Some [("variables", YList entries)])).

(** ** L034: an override of low precedence *)

(** [_locally_defined_vars] *)
Definition locally_defined_vars n : list (string * ProvenanceSource) :=
  ((λ x, (x, LOCAL)) <$> (f_variables (nd_fields n)).*1)
  ++ (if truthy_opt (f_register (nd_fields n)) then [(default "" (f_register (nd_fields n)), RUNTIME)] else [])
  ++ ((λ x, (x, RUNTIME)) <$> filter (λ x, x ≠ "cacheable") (f_set_facts (nd_fields n)).*1)%list.

Definition L034_match g k : bool :=
  match get_node g k with
  | Some n =>
    bool_decide (node_type n ∈ TASK_TYPES)
    && (match f_variables (nd_fields n) with [] => false | _ => true end
        || truthy_opt (f_register (nd_fields n))
        || bool_decide (f_module (nd_fields n) ∈ SET_FACT_FQCNS)
        || match f_set_facts (nd_fields n) with [] => false | _ => true end)
  | None => false
  end.

(** The definitions visible in each enclosing play, or in the graph without a play. *)
Definition definitions_by_scope g k : list all_bindings :=
  match enclosing_play_ids g k with
  | [] => [resolve_all_definitions g k None None]
  | plays => (λ p, resolve_all_definitions g k (Some p) (Some (play_scoped_node_ids g p))) <$> plays
  end.

(** The first definition by another node that outranks the local one. *)
Definition shadowed_by k (local_source : ProvenanceSource) (defs : list VariableProvenance)
    : option VariableProvenance :=
  head (filter (λ p, vp_node p ≠ k ∧
          (precedence_order local_source < precedence_order (vp_source p))%nat) defs).

Definition shadow_key : Type := string * string * string * string.

Definition shadow_detail (key : shadow_key) : yval :=
  let '(name, local_source, source, node) := key in
  YDict [("name", YStr name); ("local_precedence", YStr local_source); ("shadowed_by", YStr source);
         ("shadowed_by_node", YStr node)].

(** The keys found, in order, with repetitions. *)
Definition shadow_keys g k n : list shadow_key :=
  locally_defined_vars n ≫= λ '(name, source),
    definitions_by_scope g k ≫= λ defs,
      option_list ((λ p, (name, source_value source, source_value (vp_source p), vp_node p)) <$>
        shadowed_by k source (default [] (dget name defs))).

(** Keep the first occurrence of each key. *)
Fixpoint dedup_keys (seen : list shadow_key) (ks : list shadow_key) : list shadow_key :=
  match ks with
  | [] => []
  | x :: ks' => if decide (x ∈ seen) then dedup_keys seen ks' else x :: dedup_keys (x :: seen) ks'
  end.

Definition L034_process g k : option GraphRuleResult :=
  n ← get_node g k;
  match locally_defined_vars n with
  | [] => Some (result n k false None)
  | _ =>
    let ineffective := shadow_detail <$> dedup_keys [] (shadow_keys g k n) in
    Some (result n k (match ineffective with [] => false | _ => true end)
            (Some [("variables", YList ineffective)]))
  end.

(** ** L039: a variable may be undefined *)

Definition L039_match g k : bool :=
  match get_node g k with Some n => bool_decide (node_type n ∈ TASK_TYPES) | None => false end.

Definition pre_refs n : gset string :=
  let '(pre_templates, pre_bare, _) := collect_timed_strings n false false in
  extract_jinja_refs pre_templates ∪ extract_bare_refs pre_bare.
Definition post_refs n : gset string :=
  let '(_, _, post_bare) := collect_timed_strings n false false in extract_bare_refs post_bare.

Definition own_register n : gset string :=
  if truthy_opt (f_register (nd_fields n)) then {[default "" (f_register (nd_fields n))]} else ∅.

(** The references missing where the names [defined] are available. *)
Definition missing n (defined : gset string) : gset string :=
  (non_magic (pre_refs n) ∖ defined) ∪ (non_magic (post_refs n) ∖ (defined ∪ own_register n)).

Definition undefined_refs g k n : gset string :=
  match enclosing_play_ids g k with
  | [] => missing n (list_to_set (resolve_variables g k None None None None).*1)
  | plays =>
    ⋃ ((λ p, missing n (variables_defined_on_all_paths g k p (Some (play_scoped_node_ids g p)))) <$> plays)
  end.

Definition L039_process g k : option GraphRuleResult :=
  n ← get_node g k;
  if bool_decide (non_magic (pre_refs n) = ∅ ∧ non_magic (post_refs n) = ∅) then Some (result n k false None)
  else
    match sorted (elements (undefined_refs g k n)) with
    | [] => Some (result n k false None)
    | undefined =>
      Some (result n k true
              (Some [("message", YStr ("Possibly undefined variable(s): " +:+ sjoin ", " undefined));
                     ("undefined_vars", YList (YStr <$> undefined))]))
    end.

(** ** L093: a fact named like a variable of the role *)

(** [_find_enclosing_role] *)
Definition find_enclosing_role g k : option string :=
  node_id <$> head (filter (λ a, node_type a = ROLE) (ancestors g k)).

Definition L093_match g k : bool :=
  match get_node g k with
  | Some n =>
    bool_decide (node_type n ∈ TASK_TYPES) && bool_decide (f_module (nd_fields n) ∈ SET_FACT_FQCNS)
    && match find_enclosing_role g k with Some _ => true | None => false end
  | None => false
  end.

Definition fact_keys n : gset string :=
  list_to_set ((f_set_facts (nd_fields n)).*1 ++ (f_module_options (nd_fields n)).*1) ∖ {["cacheable"]}.
Definition known_vars n : gset string :=
  list_to_set ((m_default_variables (nd_meta n)).*1 ++ (m_role_variables (nd_meta n)).*1).

Definition L093_process g k : option GraphRuleResult :=
  n ← get_node g k;
  match (role_id ← find_enclosing_role g k; r ← get_node g role_id; Some (role_id, r)) with
  | None => Some (result n k false None)
  | Some (role_id, role_node) =>
    if decide (known_vars role_node = ∅) then Some (result n k false None)
    else
      match sorted (elements (fact_keys n ∩ known_vars role_node)) with
      | [] => Some (result n k false None)
      | overridden =>
        Some (result n k true
                (Some [("overridden_vars", YList (YStr <$> overridden)); ("role", YStr role_id);
                       ("message", YStr "do not override role defaults/vars with set_fact; use a different name")]))
      end
  end.

(** ** L110: a debug task prints a secret *)

Definition L110_match g k : bool :=
  match get_node g k with
  | Some n =>
    let mo := f_module_options (nd_fields n) in
    bool_decide (node_type n ∈ TASK_TYPES) && bool_decide (f_module (nd_fields n) ∈ DEBUG_MODULES)
    && existsb (λ key, ytruthy (default YNull (dget key mo))) ["msg"; "var"; "_raw"; "_raw_params"]
  | None => false
  end.

Definition no_log_protected g k : bool :=
  forallb (λ p, no_log_true_in_scope g k (Some p) (Some (play_scoped_node_ids g p)) true)
    (enclosing_play_ids g k)
  && no_log_true_in_scope g k None None true.

Definition L110_process g k : option GraphRuleResult :=
  n ← get_node g k;
  match find_sensitive_vars_in_debug n with
  | [] => Some (result n k false None)
  | sensitive_vars =>
    if no_log_protected g k then Some (result n k false None)
    else
      let vars_jinja := sjoin ", " ((λ v, "{{ " +:+ v +:+ " }}") <$> sorted sensitive_vars) in
      Some (result n k true
              (Some [("message", YStr ("Debug task logs sensitive variable(s): " +:+ vars_jinja
                                       +:+ "; set no_log: true"));
                     ("sensitive_vars", YList (YStr <$> sorted sensitive_vars))]))
  end.

(** ** The rules as the scanner holds them *)

Definition native_rule (rule_id description : string) (matches : ContentGraph G → string → bool)
    (process : ContentGraph G → string → option GraphRuleResult) : GraphRule G unit :=
  MkGraphRule (MkRule rule_id description "task") true tt
    (λ s g k, (s, run_rule (matches g k) (process g k))).

Definition variable_rules : list (GraphRule G unit) :=
  [native_rule "L033" "A variable is re-defined without any conditions" L033_match L033_process;
   native_rule "L034" "A variable is not successfully re-defined because of low precedence"
     L034_match L034_process;
   native_rule "L039" "Variable use may be undefined" L039_match L039_process;
   native_rule "L093" "Do not override role defaults/vars with set_fact; use a different name"
     L093_match L093_process;
   native_rule "L110" "Debug tasks should not log sensitive variables without no_log: true"
     L110_match L110_process].

(** ** Lemmas *)

Lemma sorted_elements_nil (X : gset string) : sorted (elements X) = [] ↔ X = ∅.
Proof.
  split; [|intros ->; by rewrite elements_empty]. intros Hs.
  assert (elements X ≡ₚ []) as Hp by (rewrite <- Hs; symmetry; apply sort_by_perm).
  by apply Permutation_nil_r, elements_empty_inv, leibniz_equiv in Hp.
Qed.

Lemma missing_empty n (d : gset string) :
  missing n d = ∅ ↔
    (∀ x, x ∈ non_magic (pre_refs n) → x ∈ d) ∧
    (∀ x, x ∈ non_magic (post_refs n) → x ∈ d ∨ x ∈ own_register n).
Proof.
  unfold missing. generalize (non_magic (pre_refs n)) (non_magic (post_refs n)) (own_register n).
  intros A B R. rewrite empty_union_L. split.
  - intros [HA HB]. split; intros x Hx.
    + destruct (decide (x ∈ d)); [done|]. exfalso. apply (not_elem_of_empty (C := gset string) x).
      rewrite <- HA. set_solver.
    + destruct (decide (x ∈ d ∪ R)) as [Hd|Hd]; [set_solver|].
      exfalso. apply (not_elem_of_empty (C := gset string) x). rewrite <- HB. set_solver.
  - intros [HA HB]. split; apply set_eq; set_solver.
Qed.

Lemma shadowed_by_Some k src defs :
  is_Some (shadowed_by k src defs) ↔
    ∃ p, p ∈ defs ∧ vp_node p ≠ k ∧ (precedence_order src < precedence_order (vp_source p))%nat.
Proof.
  unfold shadowed_by. rewrite head_is_Some. split.
  - destruct (filter _ defs) as [|p l] eqn:E; [done|]. intros _.
    assert (p ∈ filter (λ p, vp_node p ≠ k ∧
          (precedence_order src < precedence_order (vp_source p))%nat) defs) as Hp by (rewrite E; by left).
    apply list_elem_of_filter in Hp. naive_solver.
  - intros (p & Hp & Hc) Hn. apply (not_elem_of_nil p). rewrite <- Hn. by apply list_elem_of_filter.
Qed.

Lemma dedup_keys_nil ks : dedup_keys [] ks = [] ↔ ks = [].
Proof. by destruct ks. Qed.

(** ** Properties *)

(** C37: L110 is silent only when nothing leaks.  When the rule does not report a task
    that prints a name it takes for a secret and that does not set [no_log] itself,
    then in every play the task is executed in, and in the graph as a whole, the
    closest [no_log] on every way to the task is [true]. *)
Theorem L110_silence_is_safe g k n r :
  get_node g k = Some n → f_no_log (nd_fields n) = None →
  find_sensitive_vars_in_debug n ≠ [] →
  L110_process g k = Some r → rr_verdict r = false →
  (∀ play, play ∈ enclosing_play_ids g k → protected_in g k (play_scoped_node_ids g play)) ∧
  protected_in g k (positional_ancestor_ids g k).
Proof.
  intros Hk Hn Hs. unfold L110_process. rewrite Hk. simpl.
  destruct (find_sensitive_vars_in_debug n) as [|v vs]; [done|].
  destruct (no_log_protected g k) eqn:Hp; intros [= <-]; [|done]. intros _.
  apply andb_prop in Hp as [Hall Hany]. split.
  - intros play Hplay. rewrite forallb_forall in Hall.
    apply (no_log_all_paths_spec g k n (Some play) (Some (play_scoped_node_ids g play))); [done..|].
    by apply Hall, list_elem_of_In.
  - by apply (no_log_all_paths_spec g k n None None).
Qed.

(** L039 is exact about plays.  For a task inside plays, the rule reports nothing
    exactly when in each of them every non-magic reference of the task evaluated before
    it is resolved and defined on every include path, and every one evaluated after it
    is so or is the task's own [register]. *)
Theorem L039_exact g k n r :
  get_node g k = Some n → enclosing_play_ids g k ≠ [] → L039_process g k = Some r →
  rr_verdict r = false ↔
  ∀ play, play ∈ enclosing_play_ids g k →
    let ps := Some (play_scoped_node_ids g play) in
    (∀ x, x ∈ non_magic (pre_refs n) → available g k play ps x) ∧
    (∀ x, x ∈ non_magic (post_refs n) → available g k play ps x ∨ x ∈ own_register n).
Proof.
  intros Hk Hpl. unfold L039_process. rewrite Hk. cbn [mbind option_bind].
  assert (Hu : undefined_refs g k n = ∅ ↔ ∀ play, play ∈ enclosing_play_ids g k →
      missing n (variables_defined_on_all_paths g k play (Some (play_scoped_node_ids g play))) = ∅).
  { unfold undefined_refs. destruct (enclosing_play_ids g k) as [|p ps]; [done|].
    rewrite empty_union_list_L, Forall_fmap, Forall_forall. done. }
  setoid_rewrite missing_empty in Hu. setoid_rewrite all_paths_spec in Hu. rewrite <- Hu.
  case_bool_decide as Hm.
  - intros [= <-]. split; [|done]. intros _. apply Hu. intros play _. destruct Hm as [-> ->]. set_solver.
  - rewrite <- sorted_elements_nil. destruct (sorted (elements (undefined_refs g k n))); by intros [= <-].
Qed.

(** L034 is exact: the rule reports a task exactly when a name the task defines has,
    in some enclosing play, a definition by another node of higher rank in the rule's
    precedence table. *)
Theorem L034_exact g k n r :
  get_node g k = Some n → L034_process g k = Some r →
  rr_verdict r = true ↔
  ∃ name src defs p, (name, src) ∈ locally_defined_vars n ∧ defs ∈ definitions_by_scope g k ∧
    p ∈ default [] (dget name defs) ∧ vp_node p ≠ k ∧
    (precedence_order src < precedence_order (vp_source p))%nat.
Proof.
  intros Hk. unfold L034_process. rewrite Hk. cbn [mbind option_bind].
  assert (Hkeys : shadow_keys g k n ≠ [] ↔ ∃ name src defs p, (name, src) ∈ locally_defined_vars n ∧
    defs ∈ definitions_by_scope g k ∧ p ∈ default [] (dget name defs) ∧ vp_node p ≠ k ∧
    (precedence_order src < precedence_order (vp_source p))%nat).
  { split.
    - destruct (shadow_keys g k n) as [|x l] eqn:E; [done|]. intros _.
      assert (x ∈ shadow_keys g k n) as Hx by (rewrite E; by left).
      apply list_elem_of_bind in Hx as ([name src] & Hx & Hl).
      apply list_elem_of_bind in Hx as (defs & Hx & Hd).
      destruct (shadowed_by k src (default [] (dget name defs))) as [p|] eqn:Hs;
        [|by apply elem_of_nil in Hx].
      destruct (proj1 (shadowed_by_Some k src _) (mk_is_Some _ _ Hs)) as (q & Hq & Hne & Hlt).
      by exists name, src, defs, q.
    - intros (name & src & defs & p & Hl & Hd & Hp & Hne & Hlt) Hnil.
      destruct (proj2 (shadowed_by_Some k src (default [] (dget name defs)))) as [q Hq]; [by exists p|].
      assert (Hin : (name, source_value src, source_value (vp_source q), vp_node q) ∈ shadow_keys g k n);
        [|rewrite Hnil in Hin; by apply elem_of_nil in Hin].
      apply list_elem_of_bind. exists (name, src). split; [|done].
      apply list_elem_of_bind. exists defs. split; [|done]. rewrite Hq. by left. }
  destruct (locally_defined_vars n) as [|x l] eqn:El.
  { intros [= <-]. split; [done|]. intros (? & ? & ? & ? & ?%elem_of_nil & _). done. }
  rewrite <- Hkeys, <- dedup_keys_nil. destruct (dedup_keys [] (shadow_keys g k n)); by intros [= <-].
Qed.
End Rules.

(** ** Witnesses *)

Module RulesDemo.

Lemma L110_silence_is_safe_witness :
  protected_in (NoLogDemo.shared_task (Some true)) "task"
    (play_scoped_node_ids (NoLogDemo.shared_task (Some true)) "play") ∧
  rr_verdict <$> L110_process (NoLogDemo.shared_task None) "task" = Some true.
Proof.
  split; [|vm_compute; reflexivity].
  refine (proj1 (L110_silence_is_safe (G := SG) (NoLogDemo.shared_task (Some true)) "task" NoLogDemo.debug_task
    (result NoLogDemo.debug_task "task" false None) _ _ _ _ _) "play" _).
  - vm_compute. reflexivity.
  - reflexivity.
  - vm_compute. discriminate.
  - vm_compute. reflexivity.
  - reflexivity.
  - assert (He : enclosing_play_ids (NoLogDemo.shared_task (Some true)) "task" = ["play"])
      by (vm_compute; reflexivity).
    rewrite He. by left.
Defined.

(** A task that uses [x] and registers [out], included where [x] is set. *)
Definition uses_x : ContentNode :=
  with_fields "shell" [("cmd", YStr "echo {{ x }}")] [("x", YInt 3)] (Some "out") None
    (sample_node "task" TASK 1 1 "").

Definition uses_graph : ContentGraph SG :=
  build_graph
    [sample_node "play" PLAY 1 9 ""; with_fields "shell" [] [] (Some "x") None (sample_node "first" TASK 2 2 "");
     uses_x]
    [("play", "first", CONTAINS, 0%Z); ("play", "task", CONTAINS, 1%Z); ("first", "task", DATA_FLOW, 0%Z)].

Lemma L039_exact_witness :
  available uses_graph "task" "play" (Some (play_scoped_node_ids uses_graph "play")) "x".
Proof.
  refine (proj1 (proj1 (L039_exact (G := SG) uses_graph "task" uses_x (result uses_x "task" false None) _ _ _)
    eq_refl "play" _) "x" _).
  - vm_compute. reflexivity.
  - vm_compute. discriminate.
  - vm_compute. reflexivity.
  - assert (He : enclosing_play_ids uses_graph "task" = ["play"]) by (vm_compute; reflexivity).
    rewrite He. by left.
  - assert (He : non_magic (pre_refs uses_x) = {["x"]}) by (vm_compute; reflexivity).
    rewrite He. by apply elem_of_singleton.
Defined.

(** The register of the first task outranks the variable of the second. *)
Definition shadow_result : GraphRuleResult :=
  result uses_x "task" true
    (Some [("variables", YList [shadow_detail ("x", "local", "runtime", "first")])]).

Lemma L034_exact_witness :
  ∃ name src defs p, (name, src) ∈ locally_defined_vars uses_x ∧
    defs ∈ definitions_by_scope uses_graph "task" ∧
    p ∈ default [] (dget name defs) ∧ vp_node p ≠ "task" ∧
    (precedence_order src < precedence_order (vp_source p))%nat.
Proof.
  apply (L034_exact (G := SG) uses_graph "task" uses_x shadow_result);
    vm_compute; reflexivity.
Defined.

(** The resolver and the rule about ineffective overrides contradict each other.
    In a role whose [vars] and one of whose tasks set the same name, L034 ranks the
    task above the role and reports nothing, while [resolve_variables] attributes the
    name to the role; and for a name set by the play and by a default of the role,
    [resolve_variables] attributes it to the default. *)
Theorem role_vars_shadow_task_vars :
  (∃ r, L034_process PrecedenceDemo.role_graph "task" = Some r ∧ rr_verdict r = false) ∧
  vp_source <$> dget "workers" (resolve_variables PrecedenceDemo.role_graph "task" (Some "play") None None None)
    = Some ROLE_VAR ∧
  vp_source <$> dget "port" (resolve_variables PrecedenceDemo.role_graph "task" (Some "play") None None None)
    = Some ROLE_DEFAULT ∧
  (precedence_order ROLE_VAR < precedence_order LOCAL)%nat ∧
  (precedence_order ROLE_DEFAULT < precedence_order PLAY_VARS)%nat.
Proof.
  split_and!; [|vm_compute; reflexivity|vm_compute; reflexivity|simpl; lia|simpl; lia].
  eexists. split; [vm_compute; reflexivity|reflexivity].
Qed.
End RulesDemo.
