(* ===== verification/Partition.v ===== *)
(** * Routing of findings

    [TransformRegistry] ([src/apme_engine/remediation/registry.py]) and the routing of
    findings to tiers ([src/apme_engine/remediation/partition.py]).  The partition
    writes a resolution into the dictionaries it routes, which the caller still holds:
    [partition_violations] returns the mutated batch together with the tiers, whose
    entries are those same dictionaries. *)

From stdpp Require Import base list gmap strings.
From Stdlib Require Import Ascii String.
From S2P Require Import Prelude PyStr Yaml Violation NxGraph ContentNode ContentGraph Sample.

#[local] Open Scope string_scope.
#[local] Notation length := List.length.

(** ** The registry *)

Section Registry.
Context `{YamlLib}.

Definition TransformRegistry : Type := list (string * transform).

(** [register]; [None] is the [ValueError] for a missing transform. *)
Definition register (rule_id : string) (node : option transform) (r : TransformRegistry)
    : option TransformRegistry :=
  match node with Some fn => Some (dset rule_id fn r) | None => None end.

Definition get_node_transform (r : TransformRegistry) (rule_id : string) : option transform :=
  dget rule_id r.

(** [__contains__] *)
Definition in_registry (r : TransformRegistry) (rule_id : string) : bool :=
  bool_decide (rule_id ∈ r.*1).

Definition registry_len (r : TransformRegistry) : nat := length r.

Definition rule_ids (r : TransformRegistry) : list string := sort_by String.leb r.*1.

Definition apply_node (r : TransformRegistry) (rule_id : string) (task : CommentedMap)
    (v : ViolationDict) : CommentedMap * bool :=
  match dget rule_id r with Some fn => fn task v | None => (task, false) end.
End Registry.

(** ** Routing *)

Definition AI_PROPOSABLE_SCOPES : list string := ["task"; "block"].
Definition CROSS_FILE_RULES : list string := ["R111"; "R112"; "L006"; "L080"].
Definition FQCN_RULES : list string :=
  ["L002"; "L005"; "L026"; "M001"; "M002"; "M003"; "M004"; "M048"].
Definition AI_REVIEWABLE_RULES : list string := ["R108"; "R103"; "R104"; "R101"; "R105"].
Definition DISABLED_BY_DEFAULT : list string := ["R402"; "R404"].

(** [_to_str_value(v.get(k), default)] *)
Definition to_str_value (k default : string) (v : ViolationDict) : string :=
  match dget k v with Some x => if truthy x then py_str x else default | None => default end.

Definition get_scope (v : ViolationDict) : string := to_str_value "scope" "task" v.

(** [v.get("ai_proposable", True)] *)
Definition ai_proposable (v : ViolationDict) : bool :=
  match dget "ai_proposable" v with Some x => truthy x | None => true end.

Definition is_info (v : ViolationDict) : bool :=
  bool_decide (slower (vget_or "severity" v) = "info").

Section Routing.
Context `{YamlLib}.
Implicit Types (v : ViolationDict) (r : TransformRegistry).

Definition is_finding_resolvable v r : bool :=
  if bool_decide (bare_id v ∈ CROSS_FILE_RULES) then false
  else if bool_decide (bare_id v ∈ FQCN_RULES) && negb (has_fqcn_target v) then false
  else in_registry r (bare_id v).

Definition is_ai_escalatable v : bool := bool_decide (bare_id v ∉ FQCN_RULES).

Inductive tier := Tier1 | Tier2 | Tier3.

#[export] Instance tier_eq_dec : EqDecision tier.
Proof. solve_decision. Defined.

(** The branch taken for one violation: its tier and the resolution written into it. *)
Definition route r v : tier * option string :=
  if is_info v then (Tier3, Some Resolution.INFORMATIONAL)
  else if bool_decide (bare_id v ∈ CROSS_FILE_RULES) then (Tier3, Some Resolution.NEEDS_CROSS_FILE)
  else if bool_decide (bare_id v ∈ FQCN_RULES) && negb (is_finding_resolvable v r)
       then (Tier3, Some Resolution.MANUAL)
  else if is_finding_resolvable v r then (Tier1, None)
  else if bool_decide (get_scope v ∉ AI_PROPOSABLE_SCOPES) then (Tier3, Some Resolution.MANUAL)
  else if ai_proposable v then (Tier2, None)
  else (Tier3, None).

Definition stamp r v : ViolationDict :=
  match (route r v).2 with
  | Some res => dset "remediation_resolution" (VStr res) v
  | None => v
  end.

Definition tiers : Type :=
  (list ViolationDict * list ViolationDict * list ViolationDict)%type.

Definition add_to_tier (t : tier) v (ts : tiers) : tiers :=
  let '(t1, t2, t3) := ts in
  match t with
  | Tier1 => ((t1 ++ [v])%list, t2, t3)
  | Tier2 => (t1, (t2 ++ [v])%list, t3)
  | Tier3 => (t1, t2, (t3 ++ [v])%list)
  end.

(** [partition_violations]: the mutated batch, and the tiers. *)
Definition partition_violations (vs : list ViolationDict) r : list ViolationDict * tiers :=
  (stamp r <$> vs,
   foldl (λ ts v, add_to_tier (route r v).1 (stamp r v) ts) ([], [], []) vs).

Definition classify_violation v : string :=
  if is_info v then RemediationClass.MANUAL_REVIEW
  else if bool_decide (bare_id v ∈ CROSS_FILE_RULES) then RemediationClass.MANUAL_REVIEW
  else if bool_decide (bare_id v ∈ FQCN_RULES) then RemediationClass.MANUAL_REVIEW
  else if bool_decide (get_scope v ∉ AI_PROPOSABLE_SCOPES) then RemediationClass.MANUAL_REVIEW
  else if ai_proposable v then RemediationClass.AI_CANDIDATE
  else RemediationClass.MANUAL_REVIEW.

Definition add_classification_to_violations (vs : list ViolationDict) : list ViolationDict :=
  (λ v, dset "remediation_class" (VStr (classify_violation v)) v) <$> vs.

Definition bump (k : string) (counts : list (string * nat)) : list (string * nat) :=
  dset k (S (default 0 (dget k counts))) counts.

Definition count_class (counts : list (string * nat)) v : list (string * nat) :=
  if decide (bare_id v ∈ DISABLED_BY_DEFAULT) then counts
  else
    let rc := to_str_value "remediation_class" RemediationClass.AI_CANDIDATE v in
    if decide (rc ∈ counts.*1) then bump rc counts
    else bump RemediationClass.AI_CANDIDATE counts.

Definition count_by_remediation_class (vs : list ViolationDict) : list (string * nat) :=
  foldl count_class ((λ c, (c, 0)) <$> RemediationClass.all) vs.

Definition is_ai_reviewable v : bool := bool_decide (bare_id v ∈ AI_REVIEWABLE_RULES).

Definition count_resolution (counts : list (string * nat)) v : list (string * nat) :=
  if decide (bare_id v ∈ DISABLED_BY_DEFAULT) then counts
  else bump (to_str_value "remediation_resolution" Resolution.UNRESOLVED v) counts.

Definition count_by_resolution (vs : list ViolationDict) : list (string * nat) :=
  foldl count_resolution [] vs.

(** ** Lemmas *)

Definition tier_of (ts : tiers) (t : tier) : list ViolationDict :=
  match t with Tier1 => ts.1.1 | Tier2 => ts.1.2 | Tier3 => ts.2 end.

Lemma partition_tier vs r t :
  tier_of (partition_violations vs r).2 t = stamp r <$> filter (λ v, (route r v).1 = t) vs.
Proof.
  unfold partition_violations. simpl.
  assert (∀ ts, tier_of (foldl (λ ts v, add_to_tier (route r v).1 (stamp r v) ts) ts vs) t
    = (tier_of ts t ++ (stamp r <$> filter (λ v, (route r v).1 = t) vs))%list) as Hgen.
  { induction vs as [|v vs IH]; intros ts; cbn [foldl]; [by rewrite filter_nil, app_nil_r|].
    rewrite IH, filter_cons. destruct ts as [[t1 t2] t3].
    destruct (route r v).1, t; simpl; rewrite <- ?app_assoc; done. }
  rewrite Hgen. by destruct t.
Qed.

Lemma vget_or_dset_ne k k' x v : k ≠ k' → vget_or k (dset k' x v) = vget_or k v.
Proof. intros. unfold vget_or. by rewrite dget_dset_ne. Qed.

(** A resolution stamp is invisible to everything the routing reads. *)
Lemma stamp_invisible x v (v' := dset "remediation_resolution" x v) :
  bare_id v' = bare_id v ∧ is_info v' = is_info v ∧ get_scope v' = get_scope v ∧
  ai_proposable v' = ai_proposable v ∧ has_fqcn_target v' = has_fqcn_target v.
Proof.
  subst v'. split_and!.
  - unfold bare_id. by rewrite vget_str_dset_ne.
  - unfold is_info. by rewrite vget_or_dset_ne.
  - unfold get_scope, to_str_value. by rewrite dget_dset_ne.
  - unfold ai_proposable. by rewrite dget_dset_ne.
  - unfold has_fqcn_target. rewrite !vget_or_dset_ne by done.
    unfold resolve_fqcn, field_fqcn. rewrite !dget_dset_ne, vget_str_dset_ne by done. done.
Qed.

Lemma route_stamp r v : route r (stamp r v) = route r v.
Proof.
  unfold stamp at 1. destruct (route r v).2 as [res|]; [|done].
  destruct (stamp_invisible (VStr res) v) as (E1 & E2 & E3 & E4 & E5).
  unfold route, is_finding_resolvable. by rewrite E1, E2, E3, E4, E5.
Qed.

Lemma stamp_idemp r v : stamp r (stamp r v) = stamp r v.
Proof.
  unfold stamp at 1. rewrite route_stamp. unfold stamp. destruct (route r v).2 as [res|]; [|done].
  clear. induction v as [|[k x] v IH]; cbn [dset]; [by rewrite decide_True|].
  case_decide as Hk; cbn [dset]; [by rewrite decide_True|]. by rewrite decide_False, IH.
Qed.

Lemma bare_id_stamp r v : bare_id (stamp r v) = bare_id v.
Proof. unfold stamp. case_match; [|done]. by destruct (stamp_invisible (VStr s) v) as (-> & _). Qed.

Lemma stamp_key r v : violation_key (stamp r v) = violation_key v.
Proof. unfold stamp. case_match; [|done]. by apply violation_key_dset. Qed.

Lemma partition_perm vs r :
  let ts := (partition_violations vs r).2 in
  (ts.1.1 ++ ts.1.2 ++ ts.2)%list ≡ₚ (partition_violations vs r).1.
Proof.
  intros ts. pose proof (partition_tier vs r) as Ht. fold ts in Ht.
  rewrite (Ht Tier1 : ts.1.1 = _), (Ht Tier2 : ts.1.2 = _), (Ht Tier3 : ts.2 = _). simpl.
  rewrite <- !fmap_app. apply fmap_Permutation. clear.
  induction vs as [|v vs IH]; [done|]. rewrite !filter_cons.
  destruct (route r v).1; simpl.
  - by constructor.
  - rewrite <- Permutation_middle. by constructor.
  - rewrite app_assoc, <- Permutation_middle, <- app_assoc. by constructor.
Qed.

(** What a tier-1 finding is. *)
Lemma route_tier1 r v :
  (route r v).1 = Tier1 ↔
  is_info v = false ∧ bare_id v ∉ CROSS_FILE_RULES ∧ bare_id v ∈ r.*1 ∧
  (bare_id v ∈ FQCN_RULES → has_fqcn_target v = true).
Proof.
  unfold route, is_finding_resolvable, in_registry. destruct (is_info v); [naive_solver|].
  destruct (has_fqcn_target v); repeat case_bool_decide; simpl; repeat case_match; naive_solver.
Qed.

Lemma route_tier2 r v :
  (route r v).1 = Tier2 →
  is_info v = false ∧ bare_id v ∉ CROSS_FILE_RULES ∧ bare_id v ∉ FQCN_RULES ∧ bare_id v ∉ r.*1 ∧
  get_scope v ∈ AI_PROPOSABLE_SCOPES ∧ ai_proposable v = true.
Proof.
  unfold route, is_finding_resolvable, in_registry. destruct (is_info v); [done|].
  destruct (has_fqcn_target v), (ai_proposable v) eqn:?; repeat case_bool_decide; simpl; try done.
  all: split_and!; try done; by destruct (decide (get_scope v ∈ AI_PROPOSABLE_SCOPES)).
Qed.

Lemma route_classify r v :
  ((route r v).1 = Tier2 → classify_violation v = RemediationClass.AI_CANDIDATE) ∧
  ((route r v).1 = Tier3 → classify_violation v = RemediationClass.MANUAL_REVIEW).
Proof.
  unfold route, is_finding_resolvable, classify_violation. destruct (is_info v); [done|].
  destruct (has_fqcn_target v), (ai_proposable v); repeat case_bool_decide; simpl;
    repeat case_match; done.
Qed.

(** ** Properties *)

(** The partition splits a batch without loss: the tiers together are the batch
    (each tier in batch order, every finding in exactly one tier), and partitioning
    the stamped batch again gives the same tiers. *)
Theorem partition_splits vs r :
  let '(vs', (t1, t2, t3)) := partition_violations vs r in
  (t1 ++ t2 ++ t3)%list ≡ₚ vs' ∧ violation_key <$> vs' = violation_key <$> vs ∧
  t1 = filter (λ v, (route r v).1 = Tier1) vs' ∧
  t2 = filter (λ v, (route r v).1 = Tier2) vs' ∧
  t3 = filter (λ v, (route r v).1 = Tier3) vs' ∧
  partition_violations vs' r = (vs', (t1, t2, t3)).
Proof.
  pose proof (partition_perm vs r) as Hperm. pose proof (partition_tier vs r) as Ht.
  assert (Hf : ∀ t, stamp r <$> filter (λ v, (route r v).1 = t) vs
                    = filter (λ v, (route r v).1 = t) (stamp r <$> vs)).
  { intros t. clear. induction vs as [|v vs IH]; [done|]. csimpl. rewrite !filter_cons, route_stamp.
    case_decide; csimpl; by rewrite IH. }
  assert (Hvs : stamp r <$> (stamp r <$> vs) = stamp r <$> vs).
  { rewrite <- list_fmap_compose. apply list_fmap_ext. intros _ v _. apply stamp_idemp. }
  pose proof (partition_tier (stamp r <$> vs) r) as Ht'.
  destruct (partition_violations vs r) as [vs' [[t1 t2] t3]] eqn:E. simpl in *.
  assert (vs' = stamp r <$> vs) as -> by (unfold partition_violations in E; by simplify_eq).
  split_and!; [done| | | | |].
  - rewrite <- list_fmap_compose. apply list_fmap_ext. intros _ v _. apply stamp_key.
  - by rewrite <- Hf, <- (Ht Tier1).
  - by rewrite <- Hf, <- (Ht Tier2).
  - by rewrite <- Hf, <- (Ht Tier3).
  - assert (∀ t, tier_of (partition_violations (stamp r <$> vs) r).2 t = tier_of (t1, t2, t3) t) as He.
    { intros t. rewrite Ht', Ht, <- Hf, <- list_fmap_compose.
      apply list_fmap_ext. intros _ v _. apply stamp_idemp. }
    destruct (partition_violations (stamp r <$> vs) r) as [vs2 [[u1 u2] u3]] eqn:E2.
    pose proof (He Tier1) as H1. pose proof (He Tier2) as H2. pose proof (He Tier3) as H3.
    simpl in *. subst. unfold partition_violations in E2. simplify_eq. by rewrite Hvs.
Qed.

(** C15: routing is safe.  A tier-1 finding has a registered transform under the id the
    engine looks it up with, and a resolver target if it is an FQCN finding; a
    cross-file or informational finding is never fixed automatically nor sent to the
    AI; an FQCN finding is never sent to the AI; and the tiers agree with the
    classification of what remains: tier 2 is AI candidate, tier 3 manual review. *)
Theorem partition_routing vs r :
  let '(_, (t1, t2, t3)) := partition_violations vs r in
  (∀ v, v ∈ t1 → is_Some (get_node_transform r (bare_id v)) ∧ is_info v = false ∧
     bare_id v ∉ CROSS_FILE_RULES ∧ (bare_id v ∈ FQCN_RULES → has_fqcn_target v = true)) ∧
  (∀ v, v ∈ t2 → is_info v = false ∧ bare_id v ∉ CROSS_FILE_RULES ∧ bare_id v ∉ FQCN_RULES ∧
     get_node_transform r (bare_id v) = None ∧ get_scope v ∈ AI_PROPOSABLE_SCOPES ∧
     classify_violation v = RemediationClass.AI_CANDIDATE) ∧
  (∀ v, v ∈ t3 → classify_violation v = RemediationClass.MANUAL_REVIEW).
Proof.
  pose proof (partition_tier vs r) as Ht.
  destruct (partition_violations vs r) as [vs' [[t1 t2] t3]]. simpl in Ht.
  assert (Hin : ∀ t v, v ∈ tier_of (t1, t2, t3) t → (route r v).1 = t).
  { intros t v Hv. rewrite Ht in Hv. apply list_elem_of_fmap in Hv as (w & -> & [Hw _]%list_elem_of_filter).
    by rewrite route_stamp. }
  split_and!; intros v Hv.
  - apply (Hin Tier1), route_tier1 in Hv as (? & ? & ? & ?). split_and!; try done.
    by apply dget_is_Some.
  - apply (Hin Tier2) in Hv as Hr. pose proof (proj1 (route_classify r v) Hr).
    apply route_tier2 in Hr as (? & ? & ? & ? & ? & ?). split_and!; try done. by apply dget_None.
  - apply (Hin Tier3) in Hv. by apply (route_classify r v).
Qed.

Lemma sum_bump k counts :
  NoDup counts.*1 → sum_list (bump k counts).*2 = S (sum_list counts.*2).
Proof.
  unfold bump. induction counts as [|[k0 c] counts IH]; intros Hnd; [done|].
  apply NoDup_cons in Hnd as [Hk0 Hnd]. csimpl. destruct (decide (k = k0)) as [->|Hne]; csimpl; [done|].
  rewrite IH by done. lia.
Qed.

Lemma bump_keys k counts : k ∈ counts.*1 → (bump k counts).*1 = counts.*1.
Proof. intros. by apply dkeys_dset_in. Qed.

(** A counting loop whose step adds one for a shown finding and keeps [I]. *)
Lemma count_loop (step : list (string * nat) → ViolationDict → list (string * nat))
    (I : list (string * nat) → Prop) vs counts :
  (∀ counts v, I counts → I (step counts v) ∧
     sum_list (step counts v).*2
     = ((if decide (bare_id v ∈ DISABLED_BY_DEFAULT) then 0 else 1) + sum_list counts.*2)%nat) →
  I counts →
  I (foldl step counts vs) ∧
  sum_list (foldl step counts vs).*2
  = (sum_list counts.*2 + length (filter (λ v, bare_id v ∉ DISABLED_BY_DEFAULT) vs))%nat.
Proof.
  intros Hstep. revert counts. induction vs as [|v vs IH]; intros counts HI; [split; [done|simpl; lia]|].
  destruct (Hstep counts v HI) as [HI' Hs]. destruct (IH _ HI') as [HI2 Hs2].
  split; [done|]. cbn [foldl]. rewrite Hs2, Hs, filter_cons.
  destruct (decide (bare_id v ∈ DISABLED_BY_DEFAULT)) as [Hd|Hd].
  - rewrite (decide_False (P := bare_id v ∉ DISABLED_BY_DEFAULT)) by tauto. lia.
  - rewrite (decide_True (P := bare_id v ∉ DISABLED_BY_DEFAULT)) by done. simpl. lia.
Qed.

Lemma classes_NoDup : NoDup RemediationClass.all.
Proof. apply (bool_decide_unpack _). by vm_compute. Qed.

Lemma count_class_step counts v :
  counts.*1 = RemediationClass.all →
  (count_class counts v).*1 = RemediationClass.all ∧
  sum_list (count_class counts v).*2
  = ((if decide (bare_id v ∈ DISABLED_BY_DEFAULT) then 0 else 1) + sum_list counts.*2)%nat.
Proof.
  intros Hk. assert (NoDup counts.*1) as Hnd by (rewrite Hk; apply classes_NoDup).
  unfold count_class. case_decide; [done|].
  assert (RemediationClass.AI_CANDIDATE ∈ counts.*1) as Hdef by (rewrite Hk; vm_compute; right; left).
  cbv zeta. destruct (decide (to_str_value _ _ v ∈ counts.*1)) as [Hin|Hin];
    split; by rewrite ?bump_keys, ?sum_bump.
Qed.

Lemma count_resolution_step counts v :
  NoDup counts.*1 →
  NoDup (count_resolution counts v).*1 ∧
  sum_list (count_resolution counts v).*2
  = ((if decide (bare_id v ∈ DISABLED_BY_DEFAULT) then 0 else 1) + sum_list counts.*2)%nat.
Proof.
  intros Hnd. unfold count_resolution. case_decide; [done|].
  split; [by apply dset_NoDup|by apply sum_bump].
Qed.

(** The totals shown to the user count every reported finding once, except the
    audit rules that are off by default; the per-class totals have exactly the three
    classes as keys, whatever the findings carry. *)
Theorem counts_total vs (shown := length (filter (λ v, bare_id v ∉ DISABLED_BY_DEFAULT) vs)) :
  sum_list (count_by_remediation_class vs).*2 = shown ∧
  (count_by_remediation_class vs).*1 = RemediationClass.all ∧
  sum_list (count_by_resolution vs).*2 = shown ∧ NoDup (count_by_resolution vs).*1.
Proof.
  destruct (count_loop count_class (λ c, c.*1 = RemediationClass.all) vs
    ((λ c, (c, 0)) <$> RemediationClass.all) count_class_step) as [K1 S1]; [done|].
  destruct (count_loop count_resolution (λ c, NoDup c.*1) vs [] count_resolution_step
    NoDup_nil_2) as [K2 S2].
  split_and!; [exact S1|exact K1|exact S2|exact K2].
Qed.
End Routing.
