(* ===== verification/ScanPipeline.v ===== *)
(** * The scan pipeline

    [_execute_scan_pipeline] of [src/apme_engine/daemon/engine_server.py] with the
    helpers it calls: the collections to install ([_discover_collection_specs],
    [merge_collection_specs], [_classify_collections]), the call of a validator
    ([_call_validator]), the fan-out, and the passes of [ScanFindings] and [Noqa] over
    what the validators return.

    Parameters: the YAML and JSON libraries, the generated client of the validators'
    service ([Rpc]), the project loader and the manager of virtual environments ([VenvManager];
    [ScanProps] puts the one of [VenvStore] in its place), which this module only calls.  Progress messages, logging, timings and metrics are
    left out.  The calls are made concurrently, but their results are read in the order
    of the validators once all have ended, so that the result does not depend on the
    interleaving. *)

From stdpp Require Import base list gmap strings pretty sorting.
From Stdlib Require Import Ascii String.
From S2P Require Import Prelude PyStr Yaml Violation PyPath Sensitivity NxGraph ContentNode ContentGraph Sample GraphSerial Noqa ScanFindings VenvInstall VenvStore Partition.

#[local] Open Scope string_scope.
#[local] Notation length := List.length.

(** ** Collections *)

Definition REQUIREMENTS_PATHS : list string := ["requirements.yml"; "collections/requirements.yml"].

(** [f.path.replace("\\", "/").lstrip("/")] *)
Definition upload_norm (path : string) : string := lstrip_char "/" (sreplace "\" "/" path).

(** [s.replace(" ", "")] *)
Fixpoint drop_char (c : ascii) (s : string) : string :=
  match s with
  | "" => ""
  | String d s' => if Ascii.eqb d c then drop_char c s' else String d (drop_char c s')
  end.

(** [d.setdefault(k, v)] *)
Definition dset_default (k v : string) (d : list (string * string)) : list (string * string) :=
  match dget k d with Some _ => d | None => (d ++ [(k, v)])%list end.

(** [str(version).strip().replace(" ", "") if version else ""] *)
Definition version_text (version : option yval) : string :=
  match version with
  | Some x => if ytruthy x then drop_char SP (strip (ystr x)) else ""
  | None => ""
  end.

(** One entry of the [collections] list of a requirements file. *)
Definition discover_entry (specs : list (string * string)) (entry : yval) : list (string * string) :=
  match entry with
  | YStr s => dset_default s s specs
  | YDict d =>
    match dget "name" d with
    | Some x =>
      if ytruthy x then
        let name := ystr x in
        let vt := version_text (dget "version" d) in
        dset_default name (if decide (vt = "" ∨ vt = "*") then name else name +:+ ":" +:+ vt) specs
      else specs
    | None => specs
    end
  | _ => specs
  end.

(** [s.split(":")[0]] *)
Definition bare_spec (spec : string) : string := default "" (head (split_on ":" spec)).

(** The loops of [merge_collection_specs]: [result] and [existing]. *)
Definition merge_discovered (acc : list string * list string) (spec : string) : list string * list string :=
  let '(result, existing) := acc in
  if decide (bare_spec spec ∈ existing) then acc else ((result ++ [spec])%list, bare_spec spec :: existing).

Definition merge_hierarchy (acc : list string * list string) (coll : yval) : list string * list string :=
  let '(result, existing) := acc in
  match coll with
  | YStr c => if decide (c ∈ existing) then acc else ((result ++ [c])%list, c :: existing)
  | _ => acc
  end.

Definition merge_collection_specs (request_specs discovered_specs : list string) (hierarchy : list yval) : list string :=
  (foldl merge_hierarchy (foldl merge_discovered (request_specs, bare_spec <$> request_specs) discovered_specs)
     hierarchy).1.

(** [_classify_collections] *)
Definition classify_collections (installed : list (string * string * string * string))
    (specified learned : list string) : list (string * string * string * string * string) :=
  (λ '(fqcn, version, lic, supplier),
     (fqcn, version,
      (if decide (fqcn ∈ specified) then "specified"
       else if decide (fqcn ∈ learned) then "learned" else "dependency"), lic, supplier)) <$> installed.

(** ** Validators *)

Definition VALIDATOR_ENV_VARS : list (string * string) :=
  [("native", "NATIVE_GRPC_ADDRESS"); ("opa", "OPA_GRPC_ADDRESS"); ("ansible", "ANSIBLE_GRPC_ADDRESS");
   ("gitleaks", "GITLEAKS_GRPC_ADDRESS"); ("collection_health", "COLLECTION_HEALTH_GRPC_ADDRESS");
   ("dep_audit", "DEP_AUDIT_GRPC_ADDRESS")].

Definition REQUIRED_VALIDATORS : list string := ["native"; "opa"; "ansible"].

(** [os.environ.get(env_var)], with an empty value counted as absent. *)
Definition env_addr (env : string → option string) (env_var : string) : option string :=
  match env env_var with Some "" => None | a => a end.

(** The loop that fills [validator_targets] and [missing_required]. *)
Definition pick_target (env : string → option string) (skip : list string)
    (acc : list (string * string) * list string) (p : string * string) : list (string * string) * list string :=
  let '(targets, missing) := acc in
  if decide (p.1 ∈ skip) then acc
  else
    match env_addr env p.2 with
    | Some addr => ((targets ++ [(p.1, addr)])%list, missing)
    | None => (targets, if decide (p.1 ∈ REQUIRED_VALIDATORS)
                        then (missing ++ [p.1 +:+ " (" +:+ p.2 +:+ ")"])%list else missing)
    end.

Definition pick_targets (env : string → option string) (skip : list string)
    : list (string * string) * list string :=
  foldl (pick_target env skip) ([], []) VALIDATOR_ENV_VARS.

(** [graph_rule_opt_in_from_rule_configs] of [graph/scanner.py] *)
Definition graph_rule_opt_in_from_rule_configs (rcs : list RuleConfig) : list string :=
  sort_by String.leb
    (rc_rule_id <$> filter (λ rc, rc_enabled rc = true ∧ rc_rule_id rc ∈ DISABLED_BY_DEFAULT) rcs).

Record ValidateRequest := MkRequest {
  rq_request_id : string;
  rq_project_root : string;
  rq_files : list SourceFile;
  rq_hierarchy_payload : string;
  rq_ansible_core_version : string;
  rq_collection_specs : list string;
  rq_session_id : string;
  rq_venv_path : string;
  rq_content_graph_data : string;
  rq_graph_rule_opt_in : list string;
}.

(** The request of the Ansible validator also carries the project's configuration and
    plugins; a context file replaces an uploaded one of the same path. *)
Definition with_context_files (ctx : list SourceFile) (rq : ValidateRequest) : ValidateRequest :=
  let by_path := foldl (λ d f, dset (sf_path f) f d) [] (rq_files rq ++ ctx)%list in
  MkRequest (rq_request_id rq) (rq_project_root rq) by_path.*2 (rq_hierarchy_payload rq)
    (rq_ansible_core_version rq) (rq_collection_specs rq) (rq_session_id rq) (rq_venv_path rq)
    (rq_content_graph_data rq) (rq_graph_rule_opt_in rq).

Definition request_for (name : string) (ctx : list SourceFile) (rq : ValidateRequest) : ValidateRequest :=
  if decide (name = "ansible" ∧ ctx ≠ []) then with_context_files ctx rq else rq.

(** *** Calls *)

Definition GRPC_MAX_MSG : Z := 50 * 1024 * 1024.
Definition GRPC_STREAM_CHUNK_BYTES : Z := 8 * 1024 * 1024.
Definition MAX_STREAMED_VALIDATE_REQUEST_BYTES : Z := 512 * 1024 * 1024.

(** [for offset in range(0, len(b), n): yield b[offset : offset + n]] *)
Definition byte_chunks (n : nat) (b : list N) : list (list N) :=
  (λ i, take n (drop (i * n) b)) <$> seq 0 ((length b + n - 1) / n).

(** What a call of the service ends with: a response, a [grpc.RpcError], or another
    exception.  Diagnostics and log entries are passed on unread. *)
Inductive rpc_end (D L : Type) :=
| Response (violations : list ViolationDict) (diagnostics : option D) (logs : list L)
| RpcError (text : string)
| RpcRaised (text : string).
Arguments Response {D L} _ _ _.
Arguments RpcError {D L} _.
Arguments RpcRaised {D L} _.

Record ValidatorResult (D L : Type) := MkVR {
  vr_violations : list ViolationDict;
  vr_diagnostics : option D;
  vr_logs : list L;
  vr_error : option string;
}.
Arguments MkVR {D L} _ _ _ _.
Arguments vr_violations {D L} _.
Arguments vr_diagnostics {D L} _.
Arguments vr_logs {D L} _.
Arguments vr_error {D L} _.

(** The generated client: the wire form of a request and the two methods of the
    service at an address.  The violations of a response are the dictionaries
    [violation_proto_to_dict] makes of its messages. *)
Class Rpc (D L : Type) := {
  serialize : ValidateRequest → list N;
  rpc_validate : string → ValidateRequest → rpc_end D L;
  rpc_validate_stream : string → list (list N) → rpc_end D L;
}.

Section Call.
Context {D L : Type} `{Rpc D L}.

Definition call_result (e : rpc_end D L) : string + ValidatorResult D L :=
  match e with
  | Response vs diag logs => inr (MkVR vs diag logs None)
  | RpcError e => inr (MkVR [] None [] (Some e))
  | RpcRaised e => inl e
  end.

(** [_call_validator]; [inl] is an exception. *)
Definition call_validator (address : string) (rq : ValidateRequest) (stream_large_request : bool)
    : string + ValidatorResult D L :=
  let request_size := Z.of_nat (length (serialize rq)) in
  if stream_large_request && (GRPC_MAX_MSG <? request_size)%Z then
    if (MAX_STREAMED_VALIDATE_REQUEST_BYTES <? request_size)%Z then
      inr (MkVR [] None []
        (Some ("Ansible validation context exceeds the streamed request limit ("
               +:+ pretty MAX_STREAMED_VALIDATE_REQUEST_BYTES +:+ " bytes)")))
    else call_result (rpc_validate_stream address (byte_chunks (Z.to_nat GRPC_STREAM_CHUNK_BYTES) (serialize rq)))
  else call_result (rpc_validate address rq).
End Call.

(** ** The pipeline *)

(** The exceptions that end a scan. *)
Inductive scan_error :=
| AcquireError (text : string)
| CollectionDependencyError (failed_collections : list string)
| RequiredValidatorDependencyError (text : string)
| RuleCatalogMismatch (text : string).

(** What the pipeline asks of the manager of virtual environments: a warm environment
    for (session, core version, collections), or one built now; [inl] is an exception. *)
Class VenvManager := {
  vm_peek_warm : string → string → list string → string + option VenvSession;
  vm_acquire : string → string → list string → string + VenvSession;
}.

Record ScanRequest := MkScan {
  sr_scan_id : string;
  sr_files : list SourceFile;
  sr_ansible_context_files : list SourceFile;
  sr_ansible_core_version : string;
  sr_collection_specs : list string;
  sr_session_id : string;
  sr_rule_configs : list RuleConfig;
  sr_rule_configs_complete : bool;
  sr_skip_validators : list string;
}.

Definition DEFAULT_VERSION : string := "2.20".

(** The lists that the fan-out fills. *)
Record fan_out (D L : Type) := MkFan {
  fo_violations : list ViolationDict;
  fo_diagnostics : list D;
  fo_logs : list (list L);
}.
Arguments MkFan {D L} _ _ _.
Arguments fo_violations {D L} _.
Arguments fo_diagnostics {D L} _.
Arguments fo_logs {D L} _.

Section Collect.
Context {D L : Type}.

Definition take_result (acc : fan_out D L) (r : ValidatorResult D L) : fan_out D L :=
  MkFan (fo_violations acc ++ vr_violations r)%list
    (fo_diagnostics acc ++ option_list (vr_diagnostics r))%list
    (match vr_logs r with [] => fo_logs acc | logs => (fo_logs acc ++ [logs])%list end).

(** The text of a failed call, when [result.error] is truthy. *)
Definition failed_call (r : ValidatorResult D L) : option string :=
  match vr_error r with Some "" => None | e => e end.

(** The loop over the gathered results. *)
Fixpoint collect_results (rs : list (string * (string + ValidatorResult D L))) (acc : fan_out D L)
    : scan_error + fan_out D L :=
  match rs with
  | [] => inr acc
  | (name, inl e) :: rs' =>
    if decide (name ∈ REQUIRED_VALIDATORS)
    then inl (RequiredValidatorDependencyError ("Required validator " +:+ name +:+ " failed: " +:+ e))
    else collect_results rs' acc
  | (name, inr r) :: rs' =>
    match failed_call r with
    | Some e =>
      if decide (name ∈ REQUIRED_VALIDATORS)
      then inl (RequiredValidatorDependencyError ("Required validator " +:+ name +:+ " RPC failed: " +:+ e))
      else collect_results rs' (take_result acc r)
    | None => collect_results rs' (take_result acc r)
    end
  end.
End Collect.

(** [f"{ids}"] for a list of strings *)
Definition list_text (ids : list string) : string := py_repr (YList (YStr <$> ids)).

(** The list [errors] of the audit (the dash of the last text is written in UTF-8). *)
Definition audit_errors (unknown missing divergent : list string) : list string :=
  ((if decide (unknown = []) then [] else ["unknown rule IDs: " +:+ list_text unknown])
   ++ (if decide (missing = []) then []
       else ["missing rule IDs (known to this engine but absent from config): " +:+ list_text missing])
   ++ (if decide (divergent = []) then []
       else ["divergent rule configs for " +:+ list_text divergent
             +:+ ": same rule with conflicting enabled/severity/enforced flags — refusing to guess"]))%list.

(** The block [if rule_configs or rule_configs_complete]. *)
Definition audited (ids : gset string) (rcs : list RuleConfig) (complete : bool) (vs : list ViolationDict)
    : scan_error + list ViolationDict :=
  if decide (rcs = [] ∧ complete = false) then inr vs
  else
    let '(unknown, missing, divergent) := validate_rule_configs ids rcs complete in
    match (if complete then audit_errors unknown missing divergent else []) with
    | [] => inr (apply_rule_configs vs rcs)
    | errors => inl (RuleCatalogMismatch ("Rule catalog mismatch (bidirectional audit): " +:+ sjoin "; " errors
        +:+ ". The Gateway catalog is out of sync with this engine."))
    end.

Section Discover.
Context `{YamlLib}.

(** One file of the loop of [_discover_collection_specs]. *)
Definition discover_file (acc : list (string * string) * list string) (f : SourceFile)
    : list (string * string) * list string :=
  let '(specs, found) := acc in
  let norm := upload_norm (sf_path f) in
  if decide (norm ∈ REQUIREMENTS_PATHS) then
    ((match (if sf_utf8 f then safe_load (sf_text f) else None) with
      | Some (YDict data) =>
        match dget "collections" data with
        | Some (YList collections) => foldl discover_entry specs collections
        | _ => specs
        end
      | _ => specs
      end), (found ++ [norm])%list)
  else acc.

Definition discover_collection_specs (files : list SourceFile) : list string * list string :=
  let '(specs, found) := foldl discover_file ([], []) files in (specs.*2, found).
End Discover.

Section Pipeline.
Context `{YamlLib} {D L : Type} `{Rpc D L} {VM : VenvManager} {G : Type} `{NxLaws ContentNode EdgeAttrs G}.
(** [json.dumps(x, default=str)], the environment, the ids of the rules this engine
    registered, and [uuid.uuid4().hex[:12]] *)
Context (dumps : yval → string) (env : string → option string) (known_rule_ids : gset string) (fresh_id : string).

Record scan_result := MkScanResult {
  sn_violations : list ViolationDict;
  sn_diagnostics : list D;
  sn_session_id : string;
  sn_logs : list (list L);
  sn_venv_session : option VenvSession;
  sn_requirements_found : list string;
  sn_specified_fqcns : list string;
  sn_learned_fqcns : list string;
}.

(** [hierarchy_payload.get("collection_set", [])], when it is a list *)
Definition hierarchy_collections (payload : YAMLDict) : list yval :=
  match dget "collection_set" payload with Some (YList l) => l | _ => [] end.

Definition strings_of (l : list yval) : list string :=
  omap (λ x, match x with YStr s => Some s | _ => None end) l.

Definition scan_sid (rq : ScanRequest) : string :=
  if decide (sr_session_id rq = "") then fresh_id else sr_session_id rq.

Definition scan_core (rq : ScanRequest) : string :=
  if decide (sr_ansible_core_version rq = "") then DEFAULT_VERSION else sr_ansible_core_version rq.

(** The specs handed to the environment manager and to the validators. *)
Definition scan_specs (rq : ScanRequest) (payload : YAMLDict) : list string :=
  merge_collection_specs (sr_collection_specs rq) (discover_collection_specs (sr_files rq)).1
    (hierarchy_collections payload).

(** Step 3: a warm environment, or a build; a failed collection ends the scan. *)
Definition scan_venv (rq : ScanRequest) (payload : YAMLDict) : scan_error + VenvSession :=
  let specs := scan_specs rq payload in
  let ready (s : VenvSession) : scan_error + VenvSession :=
    match ve_failed_collections s with [] => inr s | failed => inl (CollectionDependencyError failed) end in
  match vm_peek_warm (scan_sid rq) (scan_core rq) specs with
  | inl e => inl (AcquireError e)
  | inr (Some s) => ready s
  | inr None =>
    match vm_acquire (scan_sid rq) (scan_core rq) specs with
    | inl e => inl (AcquireError e)
    | inr s => ready s
    end
  end.

Definition validate_request (rq : ScanRequest) (payload : YAMLDict) (graph : option (ContentGraph G))
    (venv : VenvSession) : ValidateRequest :=
  MkRequest (sr_scan_id rq) "" (sr_files rq) (dumps (YDict payload)) (scan_core rq) (scan_specs rq payload)
    (scan_sid rq) (ve_venv_root venv)
    (match graph with Some g => dumps (YDict (to_dict true g)) | None => "" end)
    (graph_rule_opt_in_from_rule_configs (sr_rule_configs rq)).

(** The gathered results of the calls, in the order of the validators. *)
Definition validator_calls (rq : ScanRequest) (vr : ValidateRequest) (targets : list (string * string))
    : list (string * (string + ValidatorResult D L)) :=
  (λ p, (p.1, call_validator p.2 (request_for p.1 (sr_ansible_context_files rq) vr)
                (bool_decide (p.1 = "ansible")))) <$> targets.

(** Step 4: which validators, their calls, and what they found. *)
Definition scan_fan_out (rq : ScanRequest) (vr : ValidateRequest) : scan_error + fan_out D L :=
  let '(targets, missing) := pick_targets env (sr_skip_validators rq) in
  match missing with
  | [] => collect_results (validator_calls rq vr targets) (MkFan [] [] [])
  | _ => inl (RequiredValidatorDependencyError ("Required validator(s) not configured: " +:+ sjoin ", " missing
           +:+ ". Set the corresponding *_GRPC_ADDRESS variables."))
  end.

(** The passes over the findings, up to the rule configurations. *)
Definition reduce_findings (graph : option (ContentGraph G)) (vs : list ViolationDict) : list ViolationDict :=
  deduplicate_violations (sort_violations (filter_noqa_violations vs graph)).

(** [_execute_scan_pipeline], from the loaded project on.  An empty payload ends the
    scan with nothing found. *)
Definition execute_scan_pipeline (rq : ScanRequest) (payload : YAMLDict) (graph : option (ContentGraph G))
    : scan_error + scan_result :=
  match payload with
  | [] => inr (MkScanResult [] [] (scan_sid rq) [] None [] [] [])
  | _ =>
    let '(discovered, requirements_found) := discover_collection_specs (sr_files rq) in
    match scan_venv rq payload with
    | inl e => inl e
    | inr venv =>
      match scan_fan_out rq (validate_request rq payload graph venv) with
      | inl e => inl e
      | inr fo =>
        match audited known_rule_ids (sr_rule_configs rq) (sr_rule_configs_complete rq)
                (reduce_findings graph (fo_violations fo)) with
        | inl e => inl e
        | inr vs =>
          inr (MkScanResult (attach_snippets vs (sr_files rq)) (fo_diagnostics fo) (scan_sid rq) (fo_logs fo)
                 (Some venv) requirements_found (bare_spec <$> discovered)
                 (strings_of (hierarchy_collections payload)))
        end
      end
    end
  end.
End Pipeline.
