(* ===== verification/ScanProps.v ===== *)
(** * What a scan reports

    Theorems on [ScanPipeline]: which findings a scan returns, when it refuses to
    return any, which collections it asks for and how a large request travels. *)

From stdpp Require Import base list gmap strings pretty sorting.
From Stdlib Require Import Ascii String.
From S2P Require Import Prelude PyStr Yaml Violation PyPath Sensitivity NxGraph ContentNode ContentGraph Sample GraphSerial Noqa ScanFindings VenvInstall VenvStore VenvProps Partition ScanPipeline.

#[local] Open Scope string_scope.
#[local] Notation length := List.length.
#[local] Notation concat := List.concat.

(** ** The fan-out *)

Section Collect.
Context {D L : Type}.

Lemma collect_inr (rs : list (string * (string + ValidatorResult D L))) acc fo :
  collect_results rs acc = inr fo →
  (∀ v, v ∈ fo_violations fo ↔
        v ∈ fo_violations acc ∨ ∃ name r, (name, inr r) ∈ rs ∧ v ∈ vr_violations r) ∧
  (∀ name o, (name, o) ∈ rs → name ∈ REQUIRED_VALIDATORS → ∃ r, o = inr r ∧ failed_call r = None).
Proof.
  revert acc. induction rs as [|[name [e|r]] rs IH]; intros acc Hc.
  - injection Hc as <-. split; [|by intros ? ? ?%elem_of_nil].
    intros v. split; [tauto|]. intros [?|(? & ? & ?%elem_of_nil & _)]; done.
  - cbn [collect_results] in Hc. case_decide as Hreq; [done|]. destruct (IH _ Hc) as [H1 H2]. split.
    + intros v. rewrite H1. setoid_rewrite elem_of_cons. naive_solver.
    + intros n o [[= -> ->]|Hin]%elem_of_cons; [done|by apply H2].
  - cbn [collect_results] in Hc.
    assert (collect_results rs (take_result acc r) = inr fo ∧
            (name ∈ REQUIRED_VALIDATORS → failed_call r = None)) as [Hc' Hf].
    { destruct (failed_call r); [|done]. by case_decide. }
    destruct (IH _ Hc') as [H1 H2]. split.
    + intros v. rewrite H1. cbn [take_result fo_violations]. rewrite elem_of_app.
      setoid_rewrite elem_of_cons. split; [naive_solver|].
      intros [?|(n & r' & [[= -> ->]|?] & ?)]; naive_solver.
    + intros n o [[= -> ->]|Hin]%elem_of_cons; [|by apply H2]. intros Hreq. eauto.
Qed.
End Collect.

(** Which validators are called, and which are missed. *)
Lemma pick_targets_foldl env skip ps acc :
  (∀ n a, (n, a) ∈ (foldl (pick_target env skip) acc ps).1 ↔
     (n, a) ∈ acc.1 ∨ ∃ var, (n, var) ∈ ps ∧ n ∉ skip ∧ env_addr env var = Some a) ∧
  ((foldl (pick_target env skip) acc ps).2 = [] ↔
     acc.2 = [] ∧ ∀ n var, (n, var) ∈ ps → n ∉ skip → n ∈ REQUIRED_VALIDATORS → env_addr env var ≠ None).
Proof.
  revert acc. induction ps as [|[n0 var0] ps IH]; intros [ts ms].
  { cbn [foldl]. split; [|split; [intros ->|by intros [? _]]].
    - intros n a. split; [tauto|]. intros [?|(? & ?%elem_of_nil & _)]; done.
    - split; [done|]. by intros ? ? ?%elem_of_nil. }
  cbn [foldl]. specialize (IH (pick_target env skip (ts, ms) (n0, var0))) as [IH1 IH2].
  setoid_rewrite IH1. rewrite IH2. unfold pick_target. cbn [fst snd].
  assert (Hcons : ∀ n var, (n, var) ∈ (n0, var0) :: ps ↔ (n, var) = (n0, var0) ∨ (n, var) ∈ ps)
    by (intros; apply elem_of_cons).
  setoid_rewrite Hcons.
  assert (Htail : ∀ ms' : list string,
    (ms' = [] → ms = [] ∧ (n0 ∉ skip → n0 ∈ REQUIRED_VALIDATORS → env_addr env var0 ≠ None)) →
    (ms = [] → (n0 ∉ skip → n0 ∈ REQUIRED_VALIDATORS → env_addr env var0 ≠ None) → ms' = []) →
    (ms' = [] ∧ (∀ n var, (n, var) ∈ ps → n ∉ skip → n ∈ REQUIRED_VALIDATORS → env_addr env var ≠ None)) ↔
    (ms = [] ∧ (∀ n var, (n, var) = (n0, var0) ∨ (n, var) ∈ ps → n ∉ skip → n ∈ REQUIRED_VALIDATORS →
                 env_addr env var ≠ None))).
  { intros ms' Hto Hfrom. split.
    - intros [E Hall]. destruct (Hto E) as [? H0]. split; [done|].
      intros n var [[= -> ->]|Hin]; [done|by apply Hall].
    - intros [E Hall]. split; [apply Hfrom; eauto|eauto]. }
  destruct (decide (n0 ∈ skip)) as [Hs|Hs]; cbn [fst snd].
  { split; [intros n a; naive_solver|]. apply Htail; tauto. }
  destruct (env_addr env var0) as [addr|] eqn:Ea; cbn [fst snd].
  - split; [|by apply Htail]. intros n a. rewrite elem_of_app, list_elem_of_singleton. naive_solver.
  - split; [intros n a; naive_solver|]. apply Htail.
    + case_decide; [by intros [? ?]%app_nil|tauto].
    + intros -> Hno. case_decide as Hr; [|done]. by destruct (Hno Hs Hr).
Qed.

(** ** The rule catalog *)

(** The catalog of the Gateway and that of the engine agree: the engine knows its
    rules, each has a message and each message a rule, and no two messages contradict
    each other. *)
Definition catalog_in_sync (ids : gset string) (rcs : list RuleConfig) : Prop :=
  ids ≠ ∅ ∧ (∀ k, (∃ r, r ∈ ids ∧ normalize_rule_id r = k) ↔ ∃ rc, rc ∈ rcs ∧ rc_norm rc = k) ∧
  ∀ a b, a ∈ rcs → b ∈ rcs → rc_norm a = rc_norm b → rc_flags a = rc_flags b.

Lemma audit_errors_nil u m d : audit_errors u m d = [] ↔ u = [] ∧ m = [] ∧ d = [].
Proof. unfold audit_errors. repeat case_decide; simpl; naive_solver. Qed.

Lemma list_nil_elem {A} (l : list A) : l = [] ↔ ∀ x, x ∉ l.
Proof.
  split; [intros -> x; apply not_elem_of_nil|]. destruct l as [|y l]; [done|].
  intros Hl. destruct (Hl y). left.
Qed.

Lemma filter_nil_iff {A} (P : A → Prop) `{∀ x, Decision (P x)} (l : list A) :
  filter P l = [] ↔ ∀ x, x ∈ l → ¬ P x.
Proof. rewrite list_nil_elem. setoid_rewrite list_elem_of_filter. naive_solver. Qed.

Lemma catalog_in_sync_audit ids rcs :
  catalog_in_sync ids rcs ↔
  audit_errors (validate_rule_configs ids rcs true).1.1 (validate_rule_configs ids rcs true).1.2
    (validate_rule_configs ids rcs true).2 = [].
Proof.
  rewrite audit_errors_nil. unfold catalog_in_sync. destruct (decide (ids = ∅)) as [->|Hids].
  { unfold validate_rule_configs. rewrite decide_True by done. naive_solver. }
  destruct (validate_rule_configs_spec ids rcs true Hids) as (-> & Hm & Hd).
  assert (Hmap : ∀ l : list RuleConfig, rc_rule_id <$> l = [] ↔ l = []) by (by intros []).
  rewrite Hmap, filter_nil_iff, !list_nil_elem. setoid_rewrite Hm. setoid_rewrite Hd.
  setoid_rewrite elem_of_norm_ids. setoid_rewrite list_elem_of_fmap. unfold divergent_in. split.
  - intros (_ & Hset & Hsame). split_and!.
    + intros rc Hrc Hno. apply Hno. apply Hset. eauto.
    + intros k (_ & (r & Hr) & Hno). destruct (Hset k) as [(rc & ? & ?) _]; [eauto|]. apply Hno. eauto.
    + intros k (a & b & Ha & Hb & <- & E & Hne). by apply Hne, Hsame.
  - intros (Hu & Hmiss & Hdiv). split_and!; [done| |].
    + intros k. split.
      * intros Hk. destruct (decide (k ∈ rc_norm <$> rcs)) as [(rc & -> & ?)%list_elem_of_fmap|Hn]; [eauto|].
        destruct (Hmiss k). split_and!; [done..|]. intros (rc & -> & Hrc). apply Hn. by apply list_elem_of_fmap_2.
      * intros (rc & Hrc & <-). destruct (decide (rc_norm rc ∈ norm_ids ids)) as [?%elem_of_norm_ids|Hn]; [done|].
        destruct (Hu rc Hrc). by rewrite <- elem_of_norm_ids.
    + intros a b Ha Hb E. destruct (decide (rc_flags a = rc_flags b)); [done|].
      destruct (Hdiv (rc_norm a)). by exists a, b.
Qed.

Lemma audited_inr ids rcs complete vs :
  (complete = true → catalog_in_sync ids rcs) ↔
  audited ids rcs complete vs = inr (apply_rule_configs vs rcs).
Proof.
  unfold audited. destruct complete.
  - rewrite decide_False by (by intros [_ ?]).
    pose proof (catalog_in_sync_audit ids rcs) as Hs.
    destruct (validate_rule_configs ids rcs true) as [[u m] d]; cbn [fst snd] in Hs.
    destruct (audit_errors u m d); [tauto|]. split; [|done]. intros Hc. by apply Hs in Hc.
  - split; [|done]. intros _. case_decide as Hd; [by destruct Hd as [-> _]|].
    by destruct (validate_rule_configs ids rcs false) as [[u m] d].
Qed.

(** ** The findings of a scan *)

(** What the rule configurations and the snippets may change of a finding. *)
Definition annotations : list string := ["severity"; "_enforced"; "snippet"].

Lemma apply_rule_config_same m v w k :
  k ∉ annotations → apply_rule_config m v = Some w → dget k w = dget k v.
Proof.
  intros Hk. unfold apply_rule_config, annotations in *. repeat case_match; try done; intros [= <-]; try done.
  all: rewrite ?dget_dset_ne by (intros ->; apply Hk; set_solver); done.
Qed.

Lemma attach_snippet_same m v k : k ∉ annotations → dget k (attach_snippet m v) = dget k v.
Proof.
  intros Hk. unfold attach_snippet, annotations in *. repeat case_match; try done.
  rewrite dget_dset_ne; [done|]. intros ->. apply Hk. set_solver.
Qed.

Lemma StronglySorted_sublist {A} (R : relation A) l k : l `sublist_of` k → StronglySorted R k → StronglySorted R l.
Proof.
  induction 1 as [|x l k Hs IH|x l k Hs IH]; intros Hk; [constructor| |].
  - apply StronglySorted_inv in Hk as [Hk Hx]. constructor; [by apply IH|].
    rewrite Forall_forall in Hx |- *. intros y Hy. apply Hx. by eapply elem_of_sublist.
  - apply IH. by apply StronglySorted_inv in Hk as [Hk _].
Qed.

Section Findings.
Context {G : Type} `{NxLaws ContentNode EdgeAttrs G}.
Implicit Types graph : option (ContentGraph G).

(** A comment in the project silences the finding. *)
Definition silenced graph (v : ViolationDict) : Prop := ∃ g, graph = Some g ∧ suppressed_by g v.

Lemma elem_of_filter_noqa graph v vs : v ∈ filter_noqa_violations vs graph ↔ v ∈ vs ∧ ¬ silenced graph v.
Proof.
  unfold silenced. destruct graph as [g|].
  - rewrite filter_noqa_spec, list_elem_of_filter. naive_solver.
  - simpl. naive_solver.
Qed.

Lemma reduce_findings_spec graph vs :
  (∀ v, v ∈ reduce_findings graph vs → v ∈ vs ∧ ¬ silenced graph v) ∧
  (∀ v, v ∈ vs → ¬ silenced graph v → dedup_key v ∈ dedup_key <$> reduce_findings graph vs) ∧
  NoDup (dedup_key <$> reduce_findings graph vs) ∧
  StronglySorted (λ v w, key_le (sort_key v) (sort_key w) = true) (reduce_findings graph vs).
Proof.
  unfold reduce_findings. set (kept := filter_noqa_violations vs graph).
  destruct (dedup_spec (sort_violations kept)) as (Hsub & Hn & Hall). split_and!; [| |done|].
  - intros v Hv. apply elem_of_filter_noqa, elem_of_sort_violations. by eapply elem_of_sublist.
  - intros v Hv Hs. apply Hall, elem_of_sort_violations, elem_of_filter_noqa. done.
  - eapply StronglySorted_sublist; [exact Hsub|]. apply sort_violations_sorted.
Qed.

(** The last two passes over a list with distinct keys. *)
Lemma finish_spec rcs files vs :
  let out := attach_snippets (apply_rule_configs vs rcs) files in
  (∀ w, w ∈ out → ∃ v, v ∈ vs ∧ ¬ disabled rcs (bare_id v) ∧ ∀ k, k ∉ annotations → dget k w = dget k v) ∧
  (∀ k, k ∈ dedup_key <$> out ↔ ∃ v, v ∈ vs ∧ dedup_key v = k ∧ ¬ disabled rcs (bare_id v)) ∧
  (NoDup (dedup_key <$> vs) → NoDup (dedup_key <$> out)) ∧
  (StronglySorted (λ v w, key_le (sort_key v) (sort_key w) = true) vs →
   StronglySorted (λ v w, key_le (sort_key v) (sort_key w) = true) out).
Proof.
  intros out. set (m := snippet_sources (apply_rule_configs vs rcs) files).
  set (f := λ v, attach_snippet m <$> apply_rule_config (config_map rcs) v).
  assert (Eout : out = omap f vs).
  { unfold out, attach_snippets. fold m. rewrite apply_rule_configs_omap. unfold f. clear f. clearbody m. clear.
    induction vs as [|v vs IH]; [done|]. csimpl. destruct (apply_rule_config _ v); csimpl; by rewrite IH. }
  assert (Hf : ∀ v w, f v = Some w → dedup_key w = dedup_key v ∧ sort_key w = sort_key v).
  { unfold f. intros v w (w' & Hw & ->)%fmap_Some. destruct (attach_snippet_keeps m w') as (-> & -> & _).
    by destruct (apply_rule_config_keeps _ _ _ Hw) as (-> & -> & _). }
  assert (Hnone : ∀ v, f v = None ↔ disabled rcs (bare_id v)).
  { intros v. unfold f. rewrite fmap_None. apply apply_rule_config_None. }
  clearbody out. subst out. split_and!.
  - intros w (v & Hv & Hw)%list_elem_of_omap. exists v. split_and!; [done| |].
    + intros Hd%Hnone. congruence.
    + intros k Hk. unfold f in Hw. apply fmap_Some in Hw as (w' & Hw & ->).
      rewrite attach_snippet_same by done. by eapply apply_rule_config_same.
  - intros k. rewrite list_elem_of_fmap. setoid_rewrite list_elem_of_omap. split.
    + intros (w & -> & v & Hv & Hw). exists v. destruct (Hf _ _ Hw) as [-> _].
      split_and!; [done..|]. intros Hd%Hnone. congruence.
    + intros (v & Hv & <- & Hd). destruct (f v) as [w|] eqn:Ew; [|by destruct Hd; apply Hnone].
      exists w. destruct (Hf _ _ Ew) as [-> _]. eauto.
  - intros Hn. assert (dedup_key <$> omap f vs `sublist_of` dedup_key <$> vs) as Hsub.
    { clearbody f. clear -Hf. induction vs as [|v vs IH]; [done|]. csimpl. destruct (f v) as [w|] eqn:E; csimpl.
      - destruct (Hf _ _ E) as [-> _]. by constructor.
      - by constructor. }
    by eapply sublist_NoDup.
  - apply StronglySorted_omap. intros a b a' b' Ha Hb. destruct (Hf _ _ Ha) as [_ ->], (Hf _ _ Hb) as [_ ->]. done.
Qed.
End Findings.

Section Scan.
Context `{YamlLib} {D L : Type} `{Rpc D L} {VM : VenvManager} {G : Type} `{NxLaws ContentNode EdgeAttrs G}.
Context (dumps : yval → string) (env : string → option string) (known_rule_ids : gset string) (fresh_id : string).
Implicit Types (rq : ScanRequest) (payload : YAMLDict) (graph : option (ContentGraph G)).

Notation execute := (execute_scan_pipeline (D := D) (L := L) dumps env known_rule_ids fresh_id).

(** The request sent to the validators once the environment is ready. *)
Notation sent rq payload graph venv := (validate_request dumps fresh_id rq payload graph venv).

(** Some validator answered with the finding. *)
Definition found_by_validator rq (vr : ValidateRequest) (v : ViolationDict) : Prop :=
  ∃ name addr r, (name, addr) ∈ (pick_targets env (sr_skip_validators rq)).1 ∧
    call_validator (D := D) (L := L) addr (request_for name (sr_ansible_context_files rq) vr)
      (bool_decide (name = "ansible")) = inr r ∧ v ∈ vr_violations r.

Lemma execute_inr rq payload graph res :
  payload ≠ [] → execute rq payload graph = inr res →
  ∃ venv fo, scan_venv fresh_id rq payload = inr venv ∧ ve_failed_collections venv = [] ∧
    scan_fan_out env rq (sent rq payload graph venv) = inr fo ∧
    (sr_rule_configs_complete rq = true → catalog_in_sync known_rule_ids (sr_rule_configs rq)) ∧
    sn_venv_session res = Some venv ∧
    sn_violations res = attach_snippets
      (apply_rule_configs (reduce_findings graph (fo_violations fo)) (sr_rule_configs rq)) (sr_files rq).
Proof.
  intros Hp He. unfold execute_scan_pipeline in He. destruct payload as [|e payload]; [done|].
  set (pl := e :: payload) in *. destruct (discover_collection_specs _) as [discovered found].
  destruct (scan_venv fresh_id rq pl) as [|venv] eqn:Ev; [done|].
  destruct (scan_fan_out env rq _) as [|fo] eqn:Ef; [done|]. exists venv, fo.
  destruct (audited _ _ _ _) as [|vs] eqn:Ea; [done|]. injection He as <-.
  assert (vs = apply_rule_configs (reduce_findings graph (fo_violations fo)) (sr_rule_configs rq)) as ->.
  { revert Ea. unfold audited. case_decide as Hd; [destruct Hd as [-> _]; by intros [= <-]|].
    destruct (validate_rule_configs _ _ _) as [[u m] d]. case_match; [by intros [= <-]|done]. }
  split_and!; [done| |done| |done..].
  - revert Ev. unfold scan_venv. repeat case_match; try done; by intros [= <-].
  - by eapply audited_inr.
Qed.

Lemma fan_out_inr rq vr fo :
  scan_fan_out (D := D) (L := L) env rq vr = inr fo →
  (∀ v, v ∈ fo_violations fo ↔ found_by_validator rq vr v) ∧
  (∀ name var, (name, var) ∈ VALIDATOR_ENV_VARS → name ∈ REQUIRED_VALIDATORS → name ∉ sr_skip_validators rq →
   ∃ addr r, env_addr env var = Some addr ∧
     call_validator addr (request_for name (sr_ansible_context_files rq) vr) (bool_decide (name = "ansible"))
     = inr r ∧ failed_call r = None ∧ ∀ v, v ∈ vr_violations r → v ∈ fo_violations fo).
Proof.
  unfold scan_fan_out, found_by_validator. intros Hf.
  destruct (pick_targets_foldl env (sr_skip_validators rq) VALIDATOR_ENV_VARS ([], [])) as [Ht Hm].
  fold (pick_targets env (sr_skip_validators rq)) in Ht, Hm.
  destruct (pick_targets env (sr_skip_validators rq)) as [targets missing]; cbn [fst snd] in *.
  destruct missing as [|]; [|done]. destruct (proj1 Hm eq_refl) as [_ Hall].
  destruct (collect_inr _ _ _ Hf) as [Hv Hreq]. unfold validator_calls in Hv, Hreq.
  assert (Hv' : ∀ v, v ∈ fo_violations fo ↔ ∃ name addr r, (name, addr) ∈ targets ∧
    call_validator (D := D) (L := L) addr (request_for name (sr_ansible_context_files rq) vr)
      (bool_decide (name = "ansible")) = inr r ∧ v ∈ vr_violations r).
  { intros v. rewrite Hv. cbn [fo_violations]. split.
    - intros [?%elem_of_nil|(name & r & ([n a] & [= -> Hr] & Hin)%list_elem_of_fmap & Hr')]; [done|].
      exists n, a, r. by rewrite Hr.
    - intros (name & addr & r & Hin & Hc & Hr). right. exists name, r. split; [|done].
      apply list_elem_of_fmap. exists (name, addr). cbn [fst snd]. by rewrite Hc. }
  split; [done|]. intros name var Hin Hr Hs.
  destruct (env_addr env var) as [addr|] eqn:Ea; [|by destruct (Hall name var)].
  assert ((name, addr) ∈ targets) as Htg by (apply Ht; right; eauto).
  destruct (Hreq name (call_validator addr (request_for name (sr_ansible_context_files rq) vr)
    (bool_decide (name = "ansible")))) as (r & Hc & Hfail); [|done|].
  { apply list_elem_of_fmap. by exists (name, addr). }
  exists addr, r. split_and!; [done..|]. intros v Hvr. apply Hv'. eauto 10.
Qed.

(** C16: The findings of a scan that returns are exactly what the validators found, less
    what a comment in the project silences and what the rule configurations switch off:
    each returned finding is, but for its severity, its enforced mark and its snippet,
    one that a called validator answered with, that is not silenced and whose rule is
    not disabled; each such finding is returned or stands behind one with the same
    rule, file and line; no two returned findings share rule, file and line; and they
    are ordered by file and line. *)
Theorem scan_findings_exact rq payload graph res :
  payload ≠ [] → execute rq payload graph = inr res →
  ∃ venv, scan_venv fresh_id rq payload = inr venv ∧
    let reportable v := found_by_validator rq (sent rq payload graph venv) v ∧ ¬ silenced graph v ∧
      ¬ disabled (sr_rule_configs rq) (bare_id v) in
    (∀ w, w ∈ sn_violations res → ∃ v, reportable v ∧ ∀ k, k ∉ annotations → dget k w = dget k v) ∧
    (∀ v, reportable v → dedup_key v ∈ dedup_key <$> sn_violations res) ∧
    NoDup (dedup_key <$> sn_violations res) ∧
    StronglySorted (λ v w, key_le (sort_key v) (sort_key w) = true) (sn_violations res).
Proof.
  intros Hp He. destruct (execute_inr _ _ _ _ Hp He) as (venv & fo & Hv & _ & Hf & _ & _ & Hres).
  destruct (fan_out_inr _ _ _ Hf) as [Hfo _]. exists venv. split; [done|]. cbn zeta.
  destruct (reduce_findings_spec graph (fo_violations fo)) as (Hr1 & Hr2 & Hr3 & Hr4).
  destruct (finish_spec (sr_rule_configs rq) (sr_files rq) (reduce_findings graph (fo_violations fo)))
    as (Hf1 & Hf2 & Hf3 & Hf4). rewrite <- Hres in *. split_and!; [| |by apply Hf3|by apply Hf4].
  - intros w Hw. destruct (Hf1 w Hw) as (v & Hin & Hd & Hsame). exists v.
    destruct (Hr1 v Hin) as [Hvf Hs]. split_and!; [by apply Hfo|done..].
  - intros v (Hfound & Hs & Hd). apply Hf2. apply Hfo in Hfound.
    destruct (proj1 (list_elem_of_fmap _ _ _) (Hr2 v Hfound Hs)) as (v' & Hk & Hin). exists v'.
    split_and!; [done..|]. assert (bare_id v' = bare_id v) as ->; [|done].
    unfold bare_id. by injection Hk as <- _ _.
Qed.

(** C17: A scan that returns left nothing required out: every collection it asked for was
    installed; every required validator that the request does not skip had an address,
    was called there and answered without an error; and when the rule configurations
    claim to be the whole catalog, they and the engine's rules agree exactly. *)
Theorem scan_fails_closed rq payload graph res :
  payload ≠ [] → execute rq payload graph = inr res →
  ∃ venv, scan_venv fresh_id rq payload = inr venv ∧ ve_failed_collections venv = [] ∧
    (∀ name var, (name, var) ∈ VALIDATOR_ENV_VARS → name ∈ REQUIRED_VALIDATORS → name ∉ sr_skip_validators rq →
      ∃ addr r, env_addr env var = Some addr ∧ addr ≠ "" ∧
        call_validator (D := D) (L := L) addr
          (request_for name (sr_ansible_context_files rq) (sent rq payload graph venv))
          (bool_decide (name = "ansible")) = inr r ∧ failed_call r = None) ∧
    (sr_rule_configs_complete rq = true → catalog_in_sync known_rule_ids (sr_rule_configs rq)).
Proof.
  intros Hp He. destruct (execute_inr _ _ _ _ Hp He) as (venv & fo & Hv & Hfail & Hf & Hsync & _).
  destruct (fan_out_inr _ _ _ Hf) as [_ Hreq]. exists venv. split_and!; [done..| |done].
  intros name var Hin Hr Hs. destruct (Hreq name var Hin Hr Hs) as (addr & r & Ha & Hc & Hnf & _).
  exists addr, r. split_and!; [done| |done..]. intros ->. revert Ha. unfold env_addr. repeat case_match; done.
Qed.
End Scan.

(** ** The pipeline over the store of environments *)

Section Composed.
Context `{YamlLib} {D L : Type} `{Rpc D L} {G : Type} `{NxLaws ContentNode EdgeAttrs G} {V : Type} `{Shell V}.
Context (dumps : yval → string) (env : string → option string) (known_rule_ids : gset string) (fresh_id : string).
Context (root : string) (max_venvs : nat) (error_text : venv_error → string).
Context (st : store V) (t0 t1 t2 : Z).

(** The manager of [VenvStore] on a store: a look at the clock for the peek, two for the
    acquisition that follows a miss (which leaves the store as it is). *)
Definition store_manager : VenvManager := {|
  vm_peek_warm sid core specs :=
    match (peek_warm st sid core specs t0).2 with inl e => inl (error_text e) | inr r => inr r end;
  vm_acquire sid core specs :=
    match (acquire root max_venvs st sid core specs t1 t2).2 with inl e => inl (error_text e) | inr m => inr m end;
|}.

Lemma peek_serves sid core specs st' m :
  peek_warm st sid core specs t0 = (st', inr (Some m)) →
  ∀ s, s ∈ specs → installed_satisfies_spec (list_to_set (ve_installed_collections m)) s = true.
Proof.
  unfold peek_warm. destruct (sanitize_session_id sid) as [|t]; [by destruct (normalize_version core)|].
  destruct (normalize_version core) as [|version]; [done|]. destruct (st !! t) as [sd|]; [|done].
  destruct (reusable sd version) as [[m0 d]|]; [|done].
  destruct (existsb _ specs) eqn:Ee; [done|]. intros [= <- <-] s Hs.
  cbn [complete_warm_hit ve_installed_collections].
  apply negb_false_iff. by apply (proj1 (existsb_false _ specs) Ee).
Qed.

(** C18: Composed with the manager of environments: a scan that returns ran its validators in
    an environment whose record satisfies every collection the scan asked for, whether it
    was found warm, completed, or built for the scan. *)
Theorem scan_runs_with_collections rq payload (graph : option (ContentGraph G)) res :
  payload ≠ [] →
  execute_scan_pipeline (D := D) (L := L) (VM := store_manager) dumps env known_rule_ids fresh_id
    rq payload graph = inr res →
  ∃ venv, sn_venv_session res = Some venv ∧
    ∀ s, s ∈ scan_specs rq payload →
      installed_satisfies_spec (list_to_set (ve_installed_collections venv)) s = true.
Proof.
  intros Hp He.
  destruct (execute_inr (VM := store_manager) _ _ _ _ _ _ _ _ Hp He) as (venv & fo & Hv & Hf & _ & _ & Hs & _).
  exists venv. split; [exact Hs|]. intros s Hin. unfold scan_venv in Hv. cbn [store_manager vm_peek_warm vm_acquire] in Hv.
  destruct (peek_warm st (scan_sid fresh_id rq) (scan_core rq) (scan_specs rq payload) t0) as [st1 [e|[m|]]] eqn:Ep;
    cbn [snd] in Hv; [done| |].
  - assert (m = venv) as -> by (destruct (ve_failed_collections m); [by injection Hv|done]).
    by eapply peek_serves.
  - destruct (acquire root max_venvs st (scan_sid fresh_id rq) (scan_core rq) (scan_specs rq payload) t1 t2)
      as [st2 [e|m]] eqn:Ea; cbn [snd] in Hv; [done|].
    assert (m = venv) as -> by (destruct (ve_failed_collections m); [by injection Hv|done]).
    destruct (acquire_inr _ _ _ _ _ _ _ _ _ _ Ea) as (v & sd & d & _ & _ & _ & _ & [Hc _ _] & _).
    destruct (Hc s Hin) as [?|Hx]; [done|]. rewrite Hf in Hx. by apply elem_of_nil in Hx.
Qed.
End Composed.

(** C40: When the rule configurations claim to be the whole catalog, the audit lets the
    findings through exactly if the two catalogs agree, and ends the scan otherwise,
    whatever was found; when they do not claim it, nothing is refused. *)
Theorem catalog_audit_exact ids rcs vs :
  (catalog_in_sync ids rcs ∧ audited ids rcs true vs = inr (apply_rule_configs vs rcs)
   ∨ ¬ catalog_in_sync ids rcs ∧ ∃ text, audited ids rcs true vs = inl (RuleCatalogMismatch text)) ∧
  audited ids rcs false vs = inr (apply_rule_configs vs rcs).
Proof.
  split; [|by apply audited_inr]. destruct (audited ids rcs true vs) as [e|vs'] eqn:Ea.
  - right. split.
    + intros Hs. assert (audited ids rcs true vs = inr (apply_rule_configs vs rcs)) by (by apply audited_inr). congruence.
    + revert Ea. unfold audited. rewrite decide_False by (by intros [_ ?]).
      destruct (validate_rule_configs _ _ _) as [[u m] d]. case_match; [done|]. intros [= <-]. eauto.
  - left. assert (vs' = apply_rule_configs vs rcs) as ->.
    { revert Ea. unfold audited. rewrite decide_False by (by intros [_ ?]).
      destruct (validate_rule_configs _ _ _) as [[u m] d]. case_match; [by intros [= <-]|done]. }
    split; [|done]. by eapply audited_inr.
Qed.

(** ** Large requests *)

Lemma concat_byte_chunks n (b : list N) k m :
  concat ((λ i, take n (drop (i * n) b)) <$> seq k m) = take (m * n) (drop (k * n) b).
Proof.
  revert k. induction m as [|m IH]; intros k; [done|]. cbn [seq]. csimpl. cbn [List.concat]. rewrite IH.
  replace (drop (S k * n) b) with (drop n (drop (k * n) b)) by (rewrite drop_drop; f_equal; lia).
  set (r := drop (k * n) b). replace (S m * n)%nat with (n + m * n)%nat by lia.
  apply take_take_drop.
Qed.

Lemma byte_chunks_spec n (b : list N) : (0 < n)%nat →
  concat (byte_chunks n b) = b ∧ Forall (λ c, 0 < length c ≤ n)%nat (byte_chunks n b) ∧
  (length (byte_chunks n b) * n < length b + n)%nat.
Proof.
  intros Hn. unfold byte_chunks. set (m := ((length b + n - 1) / n)%nat).
  pose proof (Nat.div_mod_eq (length b + n - 1) n) as Hdm. fold m in Hdm.
  pose proof (Nat.mod_upper_bound (length b + n - 1) n ltac:(lia)) as Hmod. split_and!.
  - rewrite concat_byte_chunks. change (drop (0 * n) b) with b. apply take_ge. nia.
  - apply Forall_fmap, Forall_forall. intros i [_ Hi]%elem_of_seq. simpl. rewrite length_take, length_drop. nia.
  - rewrite length_fmap, length_seq. nia.
Qed.

(** C22: A request to the validator that may stream travels whole and within the limits of
    the transport: as one message when it fits, otherwise, up to 512 MiB, as at most 64
    non-empty chunks of at most 8 MiB whose concatenation is its wire form; beyond that
    nothing is sent and the result carries an error. *)
Theorem request_delivery_bounds {D L} `{Rpc D L} addr rq :
  let size := Z.of_nat (length (serialize rq)) in
  (size <= GRPC_MAX_MSG)%Z ∧ call_validator addr rq true = call_result (rpc_validate addr rq) ∨
  (GRPC_MAX_MSG < size <= MAX_STREAMED_VALIDATE_REQUEST_BYTES)%Z ∧
    (∃ chunks, call_validator addr rq true = call_result (rpc_validate_stream addr chunks) ∧
      concat chunks = serialize rq ∧ (Z.of_nat (length chunks) <= 64)%Z ∧
      Forall (λ c, 0 < Z.of_nat (length c) <= GRPC_STREAM_CHUNK_BYTES)%Z chunks) ∨
  (MAX_STREAMED_VALIDATE_REQUEST_BYTES < size)%Z ∧
    ∃ r, call_validator addr rq true = inr r ∧ vr_violations r = [] ∧ is_Some (failed_call r).
Proof.
  intros size. unfold call_validator. fold size. cbn [andb].
  destruct (Z.ltb_spec GRPC_MAX_MSG size) as [H1|H1]; [right|by left].
  destruct (Z.ltb_spec MAX_STREAMED_VALIDATE_REQUEST_BYTES size) as [H2|H2]; [right|left].
  { split; [done|]. eexists. split_and!; [done..|]. by eexists. }
  split; [done|]. exists (byte_chunks (Z.to_nat GRPC_STREAM_CHUNK_BYTES) (serialize rq)). split; [reflexivity|].
  assert (Z.of_nat (Z.to_nat GRPC_STREAM_CHUNK_BYTES) = GRPC_STREAM_CHUNK_BYTES) as Hn by (by apply Z2Nat.id).
  remember (Z.to_nat GRPC_STREAM_CHUNK_BYTES) as n eqn:En. clear En.
  assert (GRPC_STREAM_CHUNK_BYTES = 8388608)%Z as E by reflexivity. rewrite E in Hn |- *. clear E.
  assert (size <= 536870912)%Z as H3 by exact H2. subst size. clear H1 H2.
  destruct (byte_chunks_spec n (serialize rq)) as (Hc & Hf & Hl); [lia|]. split_and!; [exact Hc|nia|].
  eapply Forall_impl; [exact Hf|]. intros c Hlen. simpl in Hlen. lia.
Qed.

(** ** Collections to install *)

Lemma merge_discovered_foldl specs result existing :
  ∃ ext, foldl merge_discovered (result, existing) specs
    = ((result ++ ext)%list, (reverse (bare_spec <$> ext) ++ existing)%list) ∧
    ext `sublist_of` specs ∧ NoDup (bare_spec <$> ext) ∧
    (∀ s, s ∈ ext → bare_spec s ∉ existing) ∧
    (∀ s, s ∈ specs → bare_spec s ∈ existing ∨ bare_spec s ∈ bare_spec <$> ext) ∧
    (∀ before s after, specs = (before ++ s :: after)%list → bare_spec s ∉ existing →
       bare_spec s ∉ bare_spec <$> before → s ∈ ext).
Proof.
  revert result existing. induction specs as [|x specs IH]; intros result existing; cbn [foldl].
  { exists []. rewrite app_nil_r. split_and!; try done; try (by intros ? ?%elem_of_nil); [constructor..|].
    intros [|? ?] ? ? ?; done. }
  cbn [merge_discovered]. case_decide as Hx.
  - destruct (IH result existing) as (ext & -> & Hs & Hn & He & Hc & Hp). exists ext.
    split_and!; [done|by constructor|done|done| |].
    + intros s [->|Hin]%elem_of_cons; [by left|by apply Hc].
    + intros [|y before] s after E Hns Hnb; injection E as -> ->; [done|].
      apply (Hp before s after eq_refl Hns). csimpl in Hnb. by apply not_elem_of_cons in Hnb as [_ ?].
  - destruct (IH (result ++ [x])%list (bare_spec x :: existing)) as (ext & -> & Hs & Hn & He & Hc & Hp).
    exists (x :: ext). rewrite <- app_assoc. csimpl. rewrite reverse_cons, <- app_assoc.
    split_and!; [done|by constructor| | | |].
    + constructor; [|done]. intros (s & E & Hin)%list_elem_of_fmap. apply (He s Hin). rewrite <- E. left.
    + intros s [->|Hin]%elem_of_cons; [done|]. intros Hs'. apply (He s Hin). by right.
    + intros s [->|Hin]%elem_of_cons; [right; left|]. destruct (Hc s Hin) as [[E|?]%elem_of_cons|?].
      * rewrite E. right. left.
      * by left.
      * right. by right.
    + intros [|y before] s after E Hns Hnb; injection E as -> ->; [left|]. right.
      csimpl in Hnb. apply not_elem_of_cons in Hnb as [Hy Hb]. apply (Hp before s after eq_refl); [|done].
      intros [?|?]%elem_of_cons; done.
Qed.

Lemma merge_hierarchy_foldl colls result existing :
  ∃ ext, foldl merge_hierarchy (result, existing) colls = ((result ++ ext)%list, (reverse ext ++ existing)%list) ∧
    ext `sublist_of` strings_of colls ∧ NoDup ext ∧ (∀ c, c ∈ ext → c ∉ existing) ∧
    (∀ c, c ∈ strings_of colls → c ∈ existing ∨ c ∈ ext).
Proof.
  revert result existing. induction colls as [|x colls IH]; intros result existing; cbn [foldl].
  { exists []. rewrite app_nil_r. split_and!; try done; try (by intros ? ?%elem_of_nil); constructor. }
  assert (Hskip : (merge_hierarchy (result, existing) x = (result, existing)) →
    (∀ c, c ∈ strings_of (x :: colls) → c ∈ existing ∨ c ∈ strings_of colls) →
    strings_of colls `sublist_of` strings_of (x :: colls) → ∃ ext,
    foldl merge_hierarchy (merge_hierarchy (result, existing) x) colls
      = ((result ++ ext)%list, (reverse ext ++ existing)%list) ∧
    ext `sublist_of` strings_of (x :: colls) ∧ NoDup ext ∧ (∀ c, c ∈ ext → c ∉ existing) ∧
    (∀ c, c ∈ strings_of (x :: colls) → c ∈ existing ∨ c ∈ ext)).
  { intros -> Hin Hsub. destruct (IH result existing) as (ext & -> & Hs & Hn & He & Hc). exists ext.
    split_and!; [done|by etrans|done|done|]. intros c [?|?]%Hin; [by left|by apply Hc]. }
  destruct x as [| | | |c| |]; try (apply Hskip; [done|by right|done]).
  cbn [merge_hierarchy] in *. case_decide as Hx.
  - apply Hskip; [done| |by constructor]. csimpl. intros c' [->|?]%elem_of_cons; [by left|by right].
  - destruct (IH (result ++ [c])%list (c :: existing)) as (ext & -> & Hs & Hn & He & Hc).
    exists (c :: ext). rewrite <- app_assoc, reverse_cons, <- app_assoc. split_and!; [done|by constructor| | |].
    + constructor; [|done]. intros Hin. apply (He c Hin). left.
    + intros c' [->|Hin]%elem_of_cons; [done|]. intros Hs'. apply (He c' Hin). by right.
    + csimpl. intros c' [->|Hin]%elem_of_cons; [right; left|].
      destruct (Hc c' Hin) as [[->|?]%elem_of_cons|?]; [right; left|by left|right; by right].
Qed.

(** The collections to install: the specs of the request come first and unchanged;
    then, for each name that no request spec has, the first spec of the requirements
    files with that name; then each collection that the project's content names and
    nothing before did.  No name is added twice, and every name of the three sources is
    covered. *)
Theorem merge_specs_exact request discovered hierarchy :
  ∃ ext1 ext2, merge_collection_specs request discovered hierarchy = (request ++ ext1 ++ ext2)%list ∧
    ext1 `sublist_of` discovered ∧ ext2 `sublist_of` strings_of hierarchy ∧
    NoDup ((bare_spec <$> ext1) ++ ext2)%list ∧
    (∀ n, n ∈ ((bare_spec <$> ext1) ++ ext2)%list → n ∉ bare_spec <$> request) ∧
    (∀ before s after, discovered = (before ++ s :: after)%list → bare_spec s ∉ bare_spec <$> request →
       bare_spec s ∉ bare_spec <$> before → s ∈ ext1) ∧
    (∀ s, s ∈ discovered → bare_spec s ∈ bare_spec <$> (request ++ ext1)%list) ∧
    (∀ c, c ∈ strings_of hierarchy → c ∈ bare_spec <$> (request ++ ext1)%list ∨ c ∈ ext2).
Proof.
  unfold merge_collection_specs.
  destruct (merge_discovered_foldl discovered request (bare_spec <$> request)) as (ext1 & -> & Hs & Hn & He & Hc & Hp).
  destruct (merge_hierarchy_foldl hierarchy (request ++ ext1)%list
    (reverse (bare_spec <$> ext1) ++ (bare_spec <$> request))%list) as (ext2 & -> & Hs2 & Hn2 & He2 & Hc2).
  setoid_rewrite elem_of_app in He2. setoid_rewrite elem_of_app in Hc2.
  setoid_rewrite elem_of_reverse in He2. setoid_rewrite elem_of_reverse in Hc2.
  exists ext1, ext2. cbn [fst]. rewrite <- app_assoc, fmap_app. split_and!; [done..| | |done| |].
  - apply NoDup_app. split_and!; [done| |done]. intros n Hn1 Hin. apply (He2 n Hin). by left.
  - intros n [(s & -> & Hin)%list_elem_of_fmap|Hin]%elem_of_app; [by apply He|].
    intros Hr. apply (He2 n Hin). by right.
  - intros s Hin. rewrite elem_of_app. apply Hc in Hin. tauto.
  - intros c Hin. rewrite elem_of_app. apply Hc2 in Hin. tauto.
Qed.

(** ** What the enforced mark does *)

Definition set_enforced (b : bool) (rc : RuleConfig) : RuleConfig :=
  MkRC (rc_rule_id rc) (rc_severity rc) (rc_enabled rc) b.

Lemma config_map_set_enforced b rcs k :
  config_map (set_enforced b <$> rcs) !! k = set_enforced b <$> config_map rcs !! k.
Proof.
  induction rcs as [|rc rcs IH] using rev_ind; [done|]. rewrite fmap_app. csimpl.
  rewrite !config_map_snoc. change (rc_norm (set_enforced b rc)) with (rc_norm rc).
  destruct (decide (rc_norm rc = k)) as [->|Hne]; [by rewrite !lookup_insert_eq|]. by rewrite !lookup_insert_ne.
Qed.

(** Marking every rule as enforced, or none, changes nothing in which findings are
    reported: the same ones stay, silenced ones stay silenced. *)
Theorem enforced_changes_nothing {G : Type} `{NxLaws ContentNode EdgeAttrs G}
    (graph : option (ContentGraph G)) vs rcs b :
  dedup_key <$> apply_rule_configs (reduce_findings graph vs) (set_enforced b <$> rcs)
  = dedup_key <$> apply_rule_configs (reduce_findings graph vs) rcs.
Proof.
  rewrite !apply_rule_configs_omap. generalize (reduce_findings graph vs). intros l.
  induction l as [|v l IH]; [done|]. csimpl.
  destruct (apply_rule_config (config_map rcs) v) as [w|] eqn:E.
  - destruct (apply_rule_config (config_map (set_enforced b <$> rcs)) v) as [w'|] eqn:E'.
    + csimpl. rewrite IH. f_equal. apply apply_rule_config_keeps in E as (-> & _).
      by apply apply_rule_config_keeps in E' as (-> & _).
    + apply apply_rule_config_None in E' as (rc & Hm & He). rewrite config_map_set_enforced in Hm.
      apply fmap_Some in Hm as (rc' & Hm & ->).
      assert (apply_rule_config (config_map rcs) v = None) by (apply apply_rule_config_None; by exists rc').
      congruence.
  - assert (apply_rule_config (config_map (set_enforced b <$> rcs)) v = None) as ->; [|done].
    apply apply_rule_config_None in E as (rc & Hm & He). apply apply_rule_config_None.
    exists (set_enforced b rc). by rewrite config_map_set_enforced, Hm.
Qed.

(** ** A scan *)

Module ScanDemo.

Definition finding (rule path : string) (line : Z) : ViolationDict :=
  [("rule_id", VStr rule); ("severity", VStr "medium"); ("file", VStr "site.yml"); ("line", VInt line);
   ("path", VStr path)].

(** The second task carries a comment that silences one rule. *)
Definition graph : ContentGraph SG :=
  build_graph [sample_node task_id TASK 2 2 "apt: vim"; sample_node task2_id TASK 3 3 "shell: ls # noqa: L026"] [].

(** Three required validators, each at its own address. *)
#[export] Instance demo_rpc : Rpc unit unit := {
  serialize _ := [];
  rpc_validate addr _ :=
    if decide (addr = "native:1")
    then Response [finding "L026" task2_id 3; finding "L007" task_id 2; finding "native:L042" task2_id 3] None []
    else if decide (addr = "opa:1") then Response [finding "R108" task_id 1; finding "R108" task_id 1] None []
    else Response [finding "M001" task_id 2] None [];
  rpc_validate_stream _ _ := RpcError "unused";
}.

#[export] Instance demo_venv : VenvManager := {
  vm_peek_warm _ _ specs :=
    inr (Some (MkVenvSession "s1" "/venv" "2.20.0" [] (filter (λ s, s = "no.such") specs) "" 0 0));
  vm_acquire _ _ _ := inl "unused";
}.

Definition env (var : string) : option string :=
  dget var [("NATIVE_GRPC_ADDRESS", "native:1"); ("OPA_GRPC_ADDRESS", "opa:1"); ("ANSIBLE_GRPC_ADDRESS", "ansible:1")].

Definition payload : YAMLDict := [("collection_set", YList [YStr "community.general"])].

Definition request (specs : list string) (rcs : list RuleConfig) (complete : bool) : ScanRequest :=
  MkScan "req" [MkSource "site.yml" ("- hosts: all" +:+ String LF "  tasks:") true] [] "" specs "s1" rcs complete [].

Definition known : gset string := {["L026"; "L007"; "L042"; "R108"; "M001"]}.

Definition configs : list RuleConfig :=
  [MkRC "L026" 0 true true; MkRC "L007" 0 false false; MkRC "native:L042" 4 true false; MkRC "R108" 0 true false;
   MkRC "M001" 0 true false].

Definition run (specs : list string) (rcs : list RuleConfig) (complete : bool) :=
  execute_scan_pipeline (D := unit) (L := unit) (λ _, "") env known "fresh" (request specs rcs complete) payload
    (Some graph).

(** The rule and line of each finding of a run. *)
Definition rows (r : scan_error + scan_result (D := unit) (L := unit)) : option (list (string * string)) :=
  match r with inl _ => None | inr s => Some ((λ v, (vget_str "rule_id" v, vget_str "severity" v)) <$> sn_violations s) end.

Example demo_rows :
  rows (run [] configs true) = Some [("R108", "medium"); ("M001", "medium"); ("native:L042", "high")] ∧
  rows (run ["no.such"] configs true) = None ∧
  rows (run [] (tail configs) true) = None ∧
  rows (run [] (tail configs) false) = Some [("R108", "medium"); ("M001", "medium"); ("native:L042", "high")].
Proof. by vm_compute. Qed.

Definition result : scan_result (D := unit) (L := unit) :=
  match run [] configs true with inr s => s | inl _ => MkScanResult [] [] "" [] None [] [] [] end.

Lemma run_ok : run [] configs true = inr result.
Proof. by vm_compute. Qed.

Lemma scan_findings_exact_witness :
  length (sn_violations result) = 3 ∧ NoDup (dedup_key <$> sn_violations result) ∧
  ∃ venv, scan_venv "fresh" (request [] configs true) payload = inr venv ∧
    ∀ w, w ∈ sn_violations result → ∃ v,
      found_by_validator (D := unit) (L := unit) env (request [] configs true)
        (validate_request (λ _, "") "fresh" (request [] configs true) payload (Some graph) venv) v ∧
      dget "line" w = dget "line" v.
Proof.
  destruct (scan_findings_exact (D := unit) (L := unit) (λ _, "") env known "fresh" (request [] configs true) payload
    (Some graph) result) as (venv & Hv & Hfrom & _ & Hn & _); [done|exact run_ok|].
  split; [vm_compute; reflexivity|]. split; [exact Hn|]. exists venv. split; [exact Hv|].
  intros w Hw. destruct (Hfrom w Hw) as (v & (Hfound & _) & Hsame). exists v. split; [exact Hfound|].
  apply Hsame. unfold annotations. set_solver.
Defined.

Lemma scan_fails_closed_witness : catalog_in_sync known configs ∧ env_addr env "OPA_GRPC_ADDRESS" = Some "opa:1".
Proof.
  destruct (scan_fails_closed (D := unit) (L := unit) (λ _, "") env known "fresh" (request [] configs true) payload
    (Some graph) result) as (venv & _ & _ & _ & Hs); [done|exact run_ok|].
  split; [apply Hs; reflexivity|reflexivity].
Defined.

(** The same scan with environments from the store, which is empty at first. *)
#[local] Existing Instance VenvDemo.demo_shell.

Definition manager : VenvManager :=
  store_manager "/sessions" 8 (λ _, "error") (∅ : store (list string)) 1 2 3.

Definition stored_run (specs : list string) : scan_error + scan_result (D := unit) (L := unit) :=
  execute_scan_pipeline (D := unit) (L := unit) (VM := manager) (λ _, "") env known "fresh"
    (request specs configs true) payload (Some graph).

Definition stored_result : scan_result (D := unit) (L := unit) :=
  match stored_run ["a.b:1.0"] with inr s => s | inl _ => MkScanResult [] [] "" [] None [] [] [] end.

Lemma stored_run_ok : stored_run ["a.b:1.0"] = inr stored_result.
Proof. by vm_compute. Qed.

Example stored_run_fails : stored_run ["no.such"] = inl (CollectionDependencyError ["no.such"]).
Proof. by vm_compute. Qed.

Lemma scan_runs_with_collections_witness :
  ∃ venv, sn_venv_session stored_result = Some venv ∧
    installed_satisfies_spec (list_to_set (ve_installed_collections venv)) "a.b:1.0" = true.
Proof.
  destruct (scan_runs_with_collections (D := unit) (L := unit) (λ _, "") env known "fresh" "/sessions" 8
    (λ _, "error") (∅ : store (list string)) 1 2 3 (request ["a.b:1.0"] configs true) payload (Some graph)
    stored_result) as (venv & Hv & Hall); [done|exact stored_run_ok|].
  exists venv. split; [exact Hv|]. apply Hall. vm_compute. left.
Defined.
End ScanDemo.

(** The rules that are off unless asked for are asked for by their bare id only: a
    configuration that names one with its prefix passes the audit, is applied to the
    findings, and does not switch the rule on. *)
Theorem prefixed_opt_in_ignored r :
  r ∈ DISABLED_BY_DEFAULT →
  let rc := MkRC ("native:" +:+ r) 0 true false in
  catalog_in_sync {[r]} [rc] ∧ graph_rule_opt_in_from_rule_configs [rc] = [] ∧
  graph_rule_opt_in_from_rule_configs [MkRC r 0 true false] = [r].
Proof.
  intros Hr rc. unfold DISABLED_BY_DEFAULT in Hr. rewrite !elem_of_cons, elem_of_nil in Hr. split_and!.
  - apply catalog_in_sync_audit. destruct Hr as [->|[->|[]]]; by vm_compute.
  - destruct Hr as [->|[->|[]]]; by vm_compute.
  - destruct Hr as [->|[->|[]]]; by vm_compute.
Qed.
