(* ===== verification/Remediation.v ===== *)
(** * The remediation engine

    [GraphRemediationEngine] of [src/apme_engine/remediation/graph_engine.py]: the
    convergence loop [remediate] with its helpers, and the proposals it collects.

    What the engine calls out to is a record of oracles, [env]: the rescan (the
    [rescan_fn] callback, or the built-in scanner), the AI provider, and the clock.  The
    rescan and the provider are indexed by the number of the call within the run, so
    any sequence of answers of a stateful validator or model is an instance.  The
    proposals of one batch are fetched concurrently and read the graph only; they are
    applied in the order of the batch, as the code does.  Progress callbacks do not
    influence the run and are left out; transforms do not raise.

    The violations of the first pass are the very dictionaries the ledger holds, so the
    resolutions that the partition writes show up in the ledger ([stamp_ledger]); from
    the first [collect_violations] on they are copies. *)

From stdpp Require Import base list gmap strings relations.
From Stdlib Require Import Ascii String.
From S2P Require Import Prelude PyStr Yaml Violation NxGraph ContentNode ContentGraph GraphLaws Sample GraphQueries Noqa Scanner Partition.

#[local] Open Scope string_scope.
#[local] Notation length := List.length.

(** ** Data *)

Record AISkipped := MkSkipped {
  sk_rule_id : string;
  sk_line : Z;
  sk_reason : string;
  sk_suggestion : string;
}.

(** The confidence is kept as its [repr]. *)
Record AINodeFix := MkFix {
  fx_snippet : string;
  fx_rule_ids : list string;
  fx_explanation : string;
  fx_confidence : string;
  fx_skipped : list AISkipped;
}.

(** What the provider does on one node: a fix, no fix, an infrastructure failure
    ([AIProviderError]), any other exception. *)
Inductive ai_outcome :=
| AIFix (f : AINodeFix)
| AINone
| AIUnavailable
| AIRaised.

Record AINodeProposal := MkAIProposal {
  ap_node_id : string;
  ap_file : string;
  ap_before : string;
  ap_after : string;
  ap_rule_ids : list string;
  ap_explanation : string;
  ap_confidence : string;
  ap_line_start : Z;
  ap_line_end : Z;
  ap_node_type : NodeType;
}.

Record Tier1NodeProposal := MkT1Proposal {
  tp_node_id : string;
  tp_file : string;
  tp_before : string;
  tp_after : string;
  tp_rule_ids : list string;
  tp_summaries : list string;
  tp_line_start : Z;
  tp_line_end : Z;
  tp_node_type : NodeType;
}.

(** Violations grouped by node id, in order of first appearance; those without a path
    are dropped. *)
Definition group_add (d : list (string * list ViolationDict)) (v : ViolationDict)
    : list (string * list ViolationDict) :=
  if decide (v_path v = "") then d
  else dset (v_path v) (default [] (dget (v_path v) d) ++ [v])%list d.

Definition group_by_node (vs : list ViolationDict) : list (string * list ViolationDict) :=
  foldl group_add [] vs.

(** [_build_ai_feedback] *)
Definition feedback_line (v : ViolationDict) : string :=
  "- [" +:+ vget_str "rule_id" v +:+ "]: " +:+ vget_str "message" v.

Definition build_ai_feedback (tier2 : list ViolationDict) : list (string * string) :=
  (λ kv, (kv.1, sjoin (String LF "")
    ("Your previous fix introduced or did not resolve these violations:"
     :: (feedback_line <$> kv.2)))) <$> group_by_node tier2.

Section Engine.
Context `{YamlLib} {G : Type} `{NxLaws ContentNode EdgeAttrs G} {RS : Type}.
Implicit Types (g : ContentGraph G) (vs : list ViolationDict) (pass : nat).

Record env := MkEnv {
  ev_rescan : nat → ContentGraph G → gset string → list ViolationDict;
  ev_provider : option (nat → ContentGraph G → string → list ViolationDict → string → ai_outcome);
  ev_clock : ContentGraph G → string → string;
}.

(** The arguments of the constructor and of [remediate]. *)
Record config := MkConfig {
  cf_registry : TransformRegistry;
  cf_rules : list (GraphRule G RS);
  cf_max_passes : nat;
  cf_max_ai_attempts : nat;
  cf_interactive : bool;
  cf_skip_ai : bool;
  cf_skip_tier1 : bool;
}.

Context (cf : config) (ev : env).

(** [node.record_state(pass, phase, source=source)] at the current time. *)
Definition snapshot pass (phase source : string) g (k : string) : ContentGraph G :=
  record_node k (ev_clock ev g k) pass phase source g.

(** ** Helpers *)

(** [_record_violations]; the enriched violations are the ones registered. *)
Definition record_violations g vs pass (phase : string) (dirty : option (gset string))
    : ContentGraph G * list ViolationDict :=
  let vs := enrich_fqcn_targets vs in
  let ids := (group_by_node vs).*1 in
  let g1 := foldl (snapshot pass phase "") g ids in
  let g2 := match dirty with
            | Some d => foldl (snapshot pass phase "") g1 (elements (d ∖ list_to_set ids))
            | None => g1
            end in
  (register_violations vs pass g2, vs).

(** The rule ids still reported on a node. *)
Definition remaining_on vs (k : string) : gset string :=
  list_to_set (bare_id <$> default [] (dget k (group_by_node vs))).

(** [_resolve_dirty_violations] *)
Definition resolve_dirty_violations g vs (dirty : gset string) (by_ : string) pass (st : status)
    : ContentGraph G :=
  foldl (λ g k, (resolve_violations k (remaining_on vs k) by_ pass st g).1) g (elements dirty).

(** [_rescan_and_record]; [call] numbers the rescans of the run. *)
Definition rescan_and_record (call : nat) g pass (by_ : string) (st : status) : ContentGraph G :=
  let dirty := expand_dirty_node_ids g (cf_rules cf) (dirty_nodes g) in
  let '(g1, vs) := record_violations g (ev_rescan ev call g dirty) pass "scanned" (Some dirty) in
  clear_dirty (resolve_dirty_violations g1 vs dirty by_ pass st).

(** [_apply_tier1] *)
Definition apply_tier1_one (acc : ContentGraph G * nat) (v : ViolationDict) : ContentGraph G * nat :=
  let '(g, applied) := acc in
  match get_node_transform (cf_registry cf) (bare_id v) with
  | None => (g, applied)
  | Some fn =>
    let '(g', ok) := apply_transform (v_path v) fn v g in
    (g', if ok : bool then S applied else applied)
  end.

Definition apply_tier1 g (tier1 : list ViolationDict) pass : ContentGraph G * nat :=
  let '(g1, applied) := foldl apply_tier1_one (g, 0) tier1 in
  (foldl (snapshot pass "transformed" "deterministic") g1 (elements (dirty_nodes g1)), applied).

(** *** AI transforms *)

(** The result of [_propose_one_tracked] for a node. *)
Inductive proposal :=
| PNone
| PFix (f : AINodeFix) (before : string)
| PFailed
| PAbort.

Definition propose_one (provider : ContentGraph G → string → list ViolationDict → string → ai_outcome)
    g (feedback : list (string * string)) (kv : string * list ViolationDict) : proposal :=
  match get_node g kv.1 with
  | None => PNone
  | Some n =>
    if decide (nd_yaml n = "") then PNone
    else
      match provider g kv.1 kv.2 (default "" (dget kv.1 feedback)) with
      | AINone => PNone
      | AIUnavailable => PAbort
      | AIRaised => PFailed
      | AIFix f =>
        if decide (fx_snippet f = "") then PNone
        else if decide (strip (fx_snippet f) = strip (nd_yaml n)) then PNone
        else PFix f (nd_yaml n)
      end
  end.

(** The dict [skipped_reasons]. *)
Definition skipped_reasons (f : AINodeFix) : list (string * (string * string)) :=
  foldl (λ d s, dset (normalize_rule_id (sk_rule_id s)) (sk_reason s, sk_suggestion s) d) []
    (fx_skipped f).

Record ai_state := MkAI {
  as_graph : ContentGraph G;
  as_proposals : list AINodeProposal;
  as_proposed : gset string;
  as_failed : gset string;
}.

Definition apply_proposal pass (s : ai_state) (kp : string * proposal) : ai_state :=
  let '(k, p) := kp in
  match p with
  | PFailed => MkAI (as_graph s) (as_proposals s) (as_proposed s) ({[k]} ∪ as_failed s)
  | PNone | PAbort => s
  | PFix f before =>
    match get_node (as_graph s) k with
    | None => s
    | Some _ =>
      let '(g1, applied) := apply_yaml k (fx_snippet f) (as_graph s) in
      if applied : bool then
        let g2 := snapshot pass "transformed" "ai" g1 k in
        match get_node g2 k with
        | None => s
        | Some n =>
          let prop := MkAIProposal k (m_file_path (nd_meta n)) before (nd_yaml n) (fx_rule_ids f)
            (fx_explanation f) (fx_confidence f) (m_line_start (nd_meta n))
            (m_line_end (nd_meta n)) (node_type n) in
          let g3 :=
            match fx_skipped f with
            | [] => g2
            | _ => (abstain_violations k (list_to_set (skipped_reasons f).*1) (skipped_reasons f) g2).1
            end in
          MkAI g3 (as_proposals s ++ [prop])%list ({[k]} ∪ as_proposed s) (as_failed s)
        end
      else s
    end
  end.

(** The abstentions recorded at the end of a batch. *)
Definition abstain_rest (proposed failed : gset string) g (kv : string * list ViolationDict)
    : ContentGraph G :=
  if decide (kv.1 ∈ proposed ∨ kv.1 ∈ failed) then g
  else (abstain_violations kv.1 (list_to_set (bare_id <$> kv.2)) [] g).1.

(** [_apply_ai_transforms]: the graph, the proposals, and whether the provider failed. *)
Definition apply_ai_transforms
    (provider : ContentGraph G → string → list ViolationDict → string → ai_outcome)
    g (tier2 : list ViolationDict) pass (feedback : list (string * string))
    : ContentGraph G * list AINodeProposal * bool :=
  let by_node := group_by_node tier2 in
  let results := (λ kv, (kv.1, propose_one provider g feedback kv)) <$> by_node in
  if existsb (λ kp, match kp.2 with PAbort => true | _ => false end) results then (g, [], true)
  else
    let s := foldl (apply_proposal pass) (MkAI g [] ∅ ∅) results in
    (foldl (abstain_rest (as_proposed s) (as_failed s)) (as_graph s) by_node, as_proposals s, false).

(** ** The loop *)

Record loop_state := MkLoop {
  ls_graph : ContentGraph G;
  ls_violations : list ViolationDict;
  ls_aliased : bool;                      (* the violations are the ledger's own dicts *)
  ls_prev : option nat;                   (* prev_count; None is infinity *)
  ls_passes : nat;
  ls_proposals : list AINodeProposal;
  ls_oscillation : bool;
  ls_attempts : nat;
  ls_failed : bool;                       (* ai_provider_failed *)
  ls_ai_error : bool;                     (* self._ai_error is not None *)
  ls_feedback : list (string * string);
  ls_calls : nat;                         (* rescans so far *)
}.

Definition run_ai : bool :=
  match ev_provider ev with Some _ => negb (cf_skip_ai cf) | None => false end.

Definition resolve_status : status := if cf_interactive cf then PendingReview else Fixed.

(** The stamps of a partition, written into the ledger's dictionaries. *)
Definition stamp_one g (v : ViolationDict) : ContentGraph G :=
  match get_node g (v_path v) with
  | None => g
  | Some n =>
    match dget (violation_key v) (nd_ledger n) with
    | None => g
    | Some r =>
      upd (v_path v) (λ n, nd_set_ledger (dset (violation_key v) (vr_set_violation v r) (nd_ledger n)) n) g
    end
  end.

Definition stamp_ledger vs g : ContentGraph G := foldl stamp_one g vs.

(** [partition_violations(violations, registry)] in the loop. *)
Definition loop_partition (s : loop_state) : loop_state * tiers :=
  let '(vs, ts) := partition_violations (ls_violations s) (cf_registry cf) in
  let g := if ls_aliased s then stamp_ledger vs (ls_graph s) else ls_graph s in
  (MkLoop g vs (ls_aliased s) (ls_prev s) (ls_passes s) (ls_proposals s) (ls_oscillation s)
     (ls_attempts s) (ls_failed s) (ls_ai_error s) (ls_feedback s) (ls_calls s), ts).

Definition with_graph g (s : loop_state) : loop_state :=
  MkLoop g (ls_violations s) (ls_aliased s) (ls_prev s) (ls_passes s) (ls_proposals s)
    (ls_oscillation s) (ls_attempts s) (ls_failed s) (ls_ai_error s) (ls_feedback s) (ls_calls s).

(** A rescan followed by [violations = graph.collect_violations()]. *)
Definition rescan_collect pass (by_ : string) (st : status) (s : loop_state) : loop_state :=
  let g := rescan_and_record (ls_calls s) (ls_graph s) pass by_ st in
  MkLoop g (collect_violations g) false (ls_prev s) (ls_passes s) (ls_proposals s)
    (ls_oscillation s) (ls_attempts s) (ls_failed s) (ls_ai_error s) (ls_feedback s)
    (S (ls_calls s)).

Definition set_prev (n : nat) (s : loop_state) : loop_state :=
  MkLoop (ls_graph s) (ls_violations s) (ls_aliased s) (Some n) (ls_passes s) (ls_proposals s)
    (ls_oscillation s) (ls_attempts s) (ls_failed s) (ls_ai_error s) (ls_feedback s) (ls_calls s).

Definition set_oscillation (s : loop_state) : loop_state :=
  MkLoop (ls_graph s) (ls_violations s) (ls_aliased s) (ls_prev s) (ls_passes s) (ls_proposals s)
    true (ls_attempts s) (ls_failed s) (ls_ai_error s) (ls_feedback s) (ls_calls s).

Definition set_feedback (fb : list (string * string)) (s : loop_state) : loop_state :=
  MkLoop (ls_graph s) (ls_violations s) (ls_aliased s) (ls_prev s) (ls_passes s) (ls_proposals s)
    (ls_oscillation s) (ls_attempts s) (ls_failed s) (ls_ai_error s) fb (ls_calls s).

Definition set_pass pass (s : loop_state) : loop_state :=
  MkLoop (ls_graph s) (ls_violations s) (ls_aliased s) (ls_prev s) pass (ls_proposals s)
    (ls_oscillation s) (ls_attempts s) (ls_failed s) (ls_ai_error s) (ls_feedback s) (ls_calls s).

(** How a pass goes on: [break], [continue], or the next phase. *)
Inductive flow (X : Type) :=
| Break (s : loop_state)
| Continue (s : loop_state)
| Go (s : loop_state) (x : X).
Arguments Break {X} s.
Arguments Continue {X} s.
Arguments Go {X} s x.

(** Phase A: the deterministic transforms.  Goes on with tier 1, tier 2 and
    [tier1_stalled]. *)
Definition phase_a pass (s : loop_state)
    : flow (list ViolationDict * list ViolationDict * bool) :=
  let '(s, (tier1, tier2, _)) := loop_partition s in
  match tier1 with
  | [] => Go s ([], tier2, false)
  | _ =>
    if cf_skip_tier1 cf then
      match tier2 with [] => Break s | _ => Go s (tier1, tier2, true) end
    else
      let '(g, applied) := apply_tier1 (ls_graph s) tier1 pass in
      let s := with_graph g s in
      if decide (applied = 0) then
        let escalated := filter (λ v, is_ai_escalatable v = true) tier1 in
        let tier2 := (tier2 ++ escalated)%list in
        match tier2 with [] => Break s | _ => Go s (tier1, tier2, true) end
      else
        let '(s, (new1, new2, _)) :=
          loop_partition (rescan_collect pass "deterministic" resolve_status s) in
        let fixable := length new1 in
        if match ls_prev s with Some p => (p <=? fixable)%nat | None => false end
        then Break (set_oscillation s)
        else
          let s := set_prev fixable s in
          if decide (0 < fixable)%nat then Continue s else Go s (new1, new2, false)
  end.

(** Post-AI cleanup (phase C): the remaining tier-2 findings. *)
Definition phase_c pass (s : loop_state) : loop_state * list ViolationDict :=
  let '(s, (new1, new2, _)) := loop_partition s in
  match new1 with
  | [] => (s, new2)
  | _ =>
    let '(g, _) := apply_tier1 (ls_graph s) new1 pass in
    let '(s, (_, new2, _)) :=
      loop_partition (rescan_collect pass "deterministic" resolve_status (with_graph g s)) in
    (s, new2)
  end.

(** Phase B: the AI transforms. *)
Definition phase_b provider pass (tier2 : list ViolationDict) (s : loop_state) : flow unit :=
  let '(g, props, err) := apply_ai_transforms (provider (ls_attempts s)) (ls_graph s) tier2 pass (ls_feedback s) in
  let ai_error := err || ls_ai_error s in
  let s := MkLoop g (ls_violations s) (ls_aliased s) (ls_prev s) (ls_passes s)
             (ls_proposals s ++ props)%list (ls_oscillation s) (S (ls_attempts s)) ai_error
             ai_error (ls_feedback s) (ls_calls s) in
  if decide (dirty_nodes g = ∅) then Go s tt
  else
    let '(s, new2) := phase_c pass (rescan_collect pass "ai" Proposed s) in
    match new2 with
    | [] => Go s tt
    | _ => Continue (set_feedback (build_ai_feedback new2) s)
    end.

(** The condition on which phase B runs, with the provider. *)
Definition phase_b_provider (tier1 tier2 : list ViolationDict) (stalled : bool) (s : loop_state) :=
  if run_ai && negb (ls_failed s) && (ls_attempts s <? cf_max_ai_attempts cf)%nat
     && (bool_decide (tier1 = []) || stalled) && negb (bool_decide (tier2 = []))
  then ev_provider ev else None.

(** The tests at the end of a pass. *)
Definition pass_end (tier1 tier2 : list ViolationDict) (stalled : bool) (s : loop_state) : flow unit :=
  let done1 := bool_decide (tier1 = []) in
  if done1 && negb stalled && bool_decide (tier2 = []) then Break s
  else
    let exhausted := negb run_ai || ls_failed s || (cf_max_ai_attempts cf <=? ls_attempts s)%nat in
    if (done1 || stalled) && exhausted then Break s else Continue s.

(** One iteration of the loop. *)
Definition one_pass pass (s : loop_state) : flow unit :=
  match phase_a pass (set_pass pass s) with
  | Break s => Break s
  | Continue s => Continue s
  | Go s (tier1, tier2, stalled) =>
    match phase_b_provider tier1 tier2 stalled s with
    | None => pass_end tier1 tier2 stalled s
    | Some provider =>
      match phase_b provider pass tier2 s with
      | Break s => Break s
      | Continue s => Continue s
      | Go s _ => pass_end tier1 tier2 stalled s
      end
    end
  end.

(** [for pass_num in range(1, max_passes + 1)] *)
Fixpoint passes_from (n pass : nat) (s : loop_state) : loop_state :=
  match n with
  | O => s
  | S n' =>
    match one_pass pass s with
    | Break s => s
    | Continue s | Go s _ => passes_from n' (S pass) s
    end
  end.

(** ** The report *)

Definition count_modified_nodes g : nat :=
  length (filter (λ n, (2 <= length (nd_progression n))%nat ∧
    ns_hash <$> head (nd_progression n) ≠ ns_hash <$> last (nd_progression n)) (nodes g)).

(** [str(d.get(k, "") or "")] *)
Definition summary (r : ViolationRecord) : list string * list string :=
  let rid := vget_or "rule_id" (vr_violation r) in
  let msg := strip (vget_or "message" (vr_violation r)) in
  let sev := strip (vget_or "severity" (vr_violation r)) in
  (if decide (rid = "") then [] else [rid],
   if decide (msg = "") then []
   else if decide (rid = "") then [msg]
   else if decide (sev = "") then ["[" +:+ rid +:+ "]: " +:+ msg]
   else ["[" +:+ rid +:+ "|" +:+ sev +:+ "]: " +:+ msg]).

(** First occurrences, in order ([seen] / [rule_ids.append]). *)
Definition add_new (l : list string) (x : string) : list string :=
  if decide (x ∈ l) then l else (l ++ [x])%list.

(** The proposal of one node, if it has one. *)
Definition tier1_proposal n : option Tier1NodeProposal :=
  match nd_progression n, last (nd_progression n) with
  | first :: _ :: _, Some after =>
    if existsb (λ s, negb (ns_approved s) && bool_decide (ns_source s = "deterministic"))
         (nd_progression n) then
      let baseline := default first (last_approved (nd_progression n)) in
      if decide (ns_hash baseline = ns_hash after) then None
      else
        let records := filter (λ r, vr_status r = PendingReview ∧ vr_fixed_by r = Some "deterministic")
                         (nd_ledger n).*2 in
        Some (MkT1Proposal (node_id n) (m_file_path (nd_meta n)) (ns_yaml baseline) (ns_yaml after)
          (foldl add_new [] (records ≫= λ r, (summary r).1)) (records ≫= λ r, (summary r).2)
          (m_line_start (nd_meta n)) (m_line_end (nd_meta n)) (node_type n))
    else None
  | _, _ => None
  end.

Definition collect_tier1_proposals g : list Tier1NodeProposal := omap tier1_proposal (nodes g).

Record GraphFixReport := MkFixReport {
  fr_passes : nat;
  fr_fixed : nat;
  fr_remaining : list ViolationDict;
  fr_fixed_violations : list ViolationDict;
  fr_ai_abstained : list ViolationDict;
  fr_oscillation : bool;
  fr_nodes_modified : nat;
  fr_ai_proposals : list AINodeProposal;
  fr_tier1_proposals : list Tier1NodeProposal;
  fr_ai_error : bool;
}.

Definition report g (s : loop_state) : GraphFixReport :=
  let fixed := query_violations (Some Fixed) None g in
  let fixed := if cf_interactive cf
               then (fixed ++ query_violations (Some PendingReview) None g)%list else fixed in
  let abstained := query_violations (Some AiAbstained) None g in
  MkFixReport (ls_passes s) (length fixed) (query_violations (Some Open) None g ++ abstained)%list
    fixed abstained (ls_oscillation s) (count_modified_nodes g) (ls_proposals s)
    (if cf_interactive cf then collect_tier1_proposals g else []) (ls_ai_error s).

(** The state in which the loop starts, for a batch of violations. *)
Definition start g vs (ai_error : bool) : loop_state :=
  let '(g, vs) := record_violations g vs 0 "scanned" None in
  MkLoop g vs true None 0 [] false 0 false ai_error [] 0.

(** [remediate]: the graph afterwards and the report.  [ai_error] tells whether an
    earlier run of the same engine left an error behind. *)
Definition remediate g vs (ai_error : bool) : ContentGraph G * loop_state * GraphFixReport :=
  let s := passes_from (cf_max_passes cf) 1 (start g vs ai_error) in
  let g := if cf_interactive cf then ls_graph s
           else (approve_pending None (Some "deterministic") (ls_graph s)).1 in
  (g, s, report g s).
End Engine.
