(* ===== verification/RemediationProps.v ===== *)
(** * Properties of the remediation engine

    A run of [remediate] is a sequence of node operations ([graph_steps]) of the kinds
    [run_act]; what the run can and cannot do to the graph follows from the laws of
    those operations.  The file also bounds the loop, shows that every change was
    rescanned, and relates the ledger to the rescans. *)

From stdpp Require Import base list gmap strings relations.
From Stdlib Require Import Ascii String.
From S2P Require Import Prelude PyStr Yaml Violation NxGraph ContentNode ContentGraph GraphLaws Sample GraphProps GraphQueries Noqa Scanner Partition Remediation.

#[local] Open Scope string_scope.
#[local] Open Scope nat_scope.
#[local] Notation length := List.length.

(** ** What statuses a restricted set of operations can reach *)

Section Restricted.
Context `{YamlLib}.
Implicit Types (n : ContentNode).

(** A status that only the resolutions and abstentions of [A] enter. *)
Definition enters (a : act) (st : status) : Prop :=
  match a with
  | ActResolve st' => st = st'
  | ActAbstain => st = AiAbstained
  | ActGate => st = Fixed ∨ st = Declined
  | ActDeclineOpen => st = Declined
  | ActRegister => st = Open
  | _ => False
  end.

Definition old_status (st : status) n n' : Prop :=
  ∀ k r', dget k (nd_ledger n') = Some r' → vr_status r' = st →
    ∃ r, dget k (nd_ledger n) = Some r ∧ vr_status r = st.

Lemma old_status_map st f n :
  (∀ r, vr_status (f r) = st → vr_status r = st) →
  old_status st n (nd_set_ledger (ledger_map f (nd_ledger n)) n).
Proof.
  intros Hf k r' Hr' Hst. simpl in Hr'. rewrite dget_ledger_map in Hr'.
  destruct (dget k (nd_ledger n)) as [r|]; [|done]. simplify_eq/=. eauto.
Qed.

Lemma old_status_dset st n key x r :
  dget key (nd_ledger n) = Some r → (vr_status x = st → vr_status r = st) →
  old_status st n (nd_set_ledger (dset key x (nd_ledger n)) n).
Proof.
  intros Hk Hx k r' Hr' Hst. simpl in Hr'. rewrite dget_dset in Hr'. case_decide; simplify_eq; eauto.
Qed.

Lemma node_step_enters a st n n' : node_step a n n' → ¬ enters a st → old_status st n n'.
Proof.
  destruct 1; simpl; intros Hne; try (intros k0 r' Hr' Hst; by eauto).
  - intros k r'. destruct (update_from_yaml_frame t n) as (_ & _ & _ & _ & _ & ->). eauto.
  - intros k r' Hr' Hst. simpl in Hr'. unfold register_ledger in Hr'.
    destruct (dget (violation_key v) (nd_ledger n)) as [r|] eqn:E; rewrite dget_dset in Hr'.
    + case_decide; simplify_eq; [|by eauto]. exists r. split; [done|].
      unfold register_existing in *. destruct (vr_status r) eqn:Es; simpl in *; congruence.
    + case_decide; [by simplify_eq/=|by eauto].
  - apply old_status_map. intros r. unfold resolve_record. case_match; simpl; [congruence|done].
  - apply old_status_map. intros r. unfold abstain_record. repeat case_match; simpl; congruence.
  - apply old_status_map. intros r. unfold transition_record.
    unfold gate_transitions in H0. case_decide; [|done].
    intros Hst. exfalso. apply Hne. destruct clear; simpl in Hst; subst; set_solver.
  - eapply old_status_dset; [done|]. simpl. intros <-. naive_solver.
  - by eapply old_status_dset.
  - intros k r'. destruct (approve_node_entries_frame f n) as (_ & _ & _ & _ & ->). eauto.
  - intros k r'. destruct (rollback_spec i n H0) as (? & _ & _ & _ & _ & -> & _). eauto.
Qed.

Lemma node_steps_enters (A : act → Prop) st n n' :
  (∀ a, A a → ¬ enters a st) → node_steps A n n' → old_status st n n'.
Proof.
  intros HA. induction 1 as [|n1 n2 n3 (a & Ha & Hs) _ IH]; [intros k r; eauto|].
  intros k r' Hr' Hst. destruct (IH k r' Hr' Hst) as (r & Hr & Hs').
  exact (node_step_enters a st n1 n2 Hs (HA a Ha) k r Hr Hs').
Qed.

(** Snapshots of a source no approval of [A] covers stay unapproved. *)
Definition spares (src : string) (a : act) : Prop :=
  match a with ActApprove f => ∃ f', f = Some f' ∧ f' ≠ src ∧ src ≠ "" | _ => True end.

Lemma node_step_spares a src n n' :
  node_step a n n' → spares src a →
  ∀ s, s ∈ nd_progression n' → ns_approved s = true → ns_source s = src → s ∈ nd_progression n.
Proof.
  intros Hs Hsp s Hin Ha Hsrc. destruct a; try (by eapply node_step_no_approval).
  inversion Hs; subst. rewrite approve_node_entries_progression in Hin.
  apply list_elem_of_fmap in Hin as (s0 & -> & Hin). destruct Hsp as (f' & -> & Hf & Hne).
  destruct (approve_entry_frame (Some f') s0) as (_ & _ & Es). rewrite Es in *.
  by rewrite approve_entry_other.
Qed.

Lemma node_steps_spares (A : act → Prop) src n n' :
  (∀ a, A a → spares src a) → node_steps A n n' →
  ∀ s, s ∈ nd_progression n' → ns_approved s = true → ns_source s = src → s ∈ nd_progression n.
Proof.
  intros HA. induction 1 as [|n1 n2 n3 (a & Ha & Hs) _ IH]; [done|]. intros s Hin Happ Hsrc.
  eapply node_step_spares; eauto.
Qed.
End Restricted.

Section Runs.
Context `{YamlLib} {G : Type} `{NxLaws ContentNode EdgeAttrs G} {RS : Type}.
Implicit Types (g : ContentGraph G) (vs : list ViolationDict) (pass : nat).
Context (cf : config (G := G) (RS := RS)) (ev : env (G := G)).

(** The node operations a run consists of. *)
Definition loop_act (a : act) : Prop :=
  match a with
  | ActRecord | ActContent | ActRegister | ActPayload => True
  | ActResolve st => st = resolve_status cf ∨ (st = Proposed ∧ run_ai cf ev = true)
  | ActAbstain => run_ai cf ev = true
  | _ => False
  end.

Definition run_act (a : act) : Prop :=
  loop_act a ∨ (cf_interactive cf = false ∧ a = ActApprove (Some "deterministic")).

Notation steps := (graph_steps loop_act).

Lemma snapshot_steps pass phase source g k : steps g (snapshot ev pass phase source g k).
Proof. by apply record_node_steps. Qed.

Lemma snapshots_steps pass phase source ks g : steps g (foldl (snapshot ev pass phase source) g ks).
Proof. apply foldl_steps. intros. apply snapshot_steps. Qed.

Lemma record_violations_steps g vs pass phase d : steps g (record_violations ev g vs pass phase d).1.
Proof.
  unfold record_violations. simpl. etrans; [|by apply register_violations_steps].
  destruct d; [etrans|]; apply snapshots_steps.
Qed.

Lemma resolve_status_resolved : resolved_status (resolve_status cf).
Proof. unfold resolve_status, resolved_status. destruct (cf_interactive cf); set_solver. Qed.

Lemma resolve_dirty_steps g vs d by_ pass st :
  loop_act (ActResolve st) → steps g (resolve_dirty_violations g vs d by_ pass st).
Proof.
  intros Ha. apply foldl_steps. intros g0 k _. apply resolve_violations_steps; [done|].
  destruct Ha as [->|[-> _]]; [apply resolve_status_resolved|unfold resolved_status; set_solver].
Qed.

Lemma rescan_steps call g pass by_ st :
  loop_act (ActResolve st) → steps g (rescan_and_record cf ev call g pass by_ st).
Proof.
  intros Ha. unfold rescan_and_record.
  set (d := expand_dirty_node_ids g _ _). pose proof (record_violations_steps g
    (ev_rescan ev call g d) pass "scanned" (Some d)) as Hr.
  destruct (record_violations ev g _ pass "scanned" (Some d)) as [g1 vs]. simpl in Hr.
  apply clear_dirty_steps. etrans; [done|]. by apply resolve_dirty_steps.
Qed.

Lemma apply_tier1_one_steps acc v : steps acc.1 (apply_tier1_one cf acc v).1.
Proof.
  destruct acc as [g c]. simpl. case_match; [|reflexivity].
  pose proof (apply_transform_steps loop_act (v_path v) t v g I) as Hs.
  by destruct (apply_transform (v_path v) t v g).
Qed.

Lemma apply_tier1_steps g t1 pass : steps g (apply_tier1 cf ev g t1 pass).1.
Proof.
  unfold apply_tier1.
  pose proof (foldl_steps_fst loop_act (apply_tier1_one cf) t1 (g, 0)) as Hf.
  destruct (foldl _ _ t1) as [g1 c]. simpl in *. etrans; [|apply snapshots_steps].
  apply Hf. intros. apply apply_tier1_one_steps.
Qed.

Lemma apply_proposal_steps pass s kp :
  run_ai cf ev = true → steps (as_graph s) (as_graph (apply_proposal ev pass s kp)).
Proof.
  intros Hai. destruct kp as [k []]; simpl; try reflexivity.
  destruct (get_node (as_graph s) k) eqn:Hn; [|reflexivity].
  pose proof (apply_yaml_steps loop_act k (fx_snippet f) (as_graph s) I) as Hy.
  destruct (apply_yaml k (fx_snippet f) (as_graph s)) as [g1 []]; [|reflexivity]. simpl in Hy.
  pose proof (snapshot_steps pass "transformed" "ai" g1 k) as Hs.
  destruct (get_node (snapshot ev pass _ _ g1 k) k); [|reflexivity]. simpl.
  destruct (fx_skipped f); [by etrans|]. do 2 (etrans; [done|]).
  by apply abstain_violations_steps.
Qed.

Lemma apply_ai_steps provider g t2 pass fb :
  run_ai cf ev = true → steps g (apply_ai_transforms ev provider g t2 pass fb).1.1.
Proof.
  intros Hai. unfold apply_ai_transforms. case_match; [reflexivity|]. simpl.
  set (results := _ <$> group_by_node t2).
  assert (∀ l s, steps (as_graph s) (as_graph (foldl (apply_proposal ev pass) s l))) as Hl.
  { induction l as [|kp l IH]; intros s; [reflexivity|]. simpl.
    etrans; [by apply apply_proposal_steps|apply IH]. }
  etrans; [apply (Hl results (MkAI g [] ∅ ∅))|]. apply foldl_steps. intros g0 kv _.
  unfold abstain_rest. case_decide; [reflexivity|]. by apply abstain_violations_steps.
Qed.

Lemma stamp_ledger_steps vs g : steps g (stamp_ledger vs g).
Proof.
  apply foldl_steps. intros g0 v _. unfold stamp_one. case_match eqn:Hn; [|reflexivity].
  case_match; [|reflexivity]. apply (upd_step _ ActPayload); [done|].
  intros n Hn'. simplify_eq. by constructor.
Qed.

Lemma loop_partition_steps s : steps (ls_graph s) (ls_graph (loop_partition cf s).1).
Proof.
  unfold loop_partition. destruct (partition_violations _ _) as [vs ts]. simpl.
  case_match; [apply stamp_ledger_steps|reflexivity].
Qed.

Lemma rescan_collect_steps pass by_ st s :
  loop_act (ActResolve st) → steps (ls_graph s) (ls_graph (rescan_collect cf ev pass by_ st s)).
Proof. intros. by apply rescan_steps. Qed.

Definition flow_state {X} (f : flow (G := G) X) : loop_state (G := G) :=
  match f with Break _ s | Continue _ s | Go _ s _ => s end.

(** ** The phases *)

(** What every phase keeps, from the state it starts in: a graph reached by loop
    operations, a clean dirty set, the pass number, and a bounded number of attempts. *)
Record phase_ok (s s' : loop_state (G := G)) : Prop := {
  po_steps : steps (ls_graph s) (ls_graph s');
  po_passes : ls_passes s' = ls_passes s;
  po_attempts : ls_attempts s ≤ cf_max_ai_attempts cf → ls_attempts s' ≤ cf_max_ai_attempts cf;
  po_clean : dirty_nodes (ls_graph s) = ∅ → dirty_nodes (ls_graph s') = ∅;
}.

#[local] Instance phase_ok_preorder : PreOrder phase_ok.
Proof.
  split.
  - intros s. split; [reflexivity|done..].
  - intros s1 s2 s3 [] []. split; [by etrans|congruence|auto..].
Qed.

Lemma foldl_upd_dirty {X} (f : ContentGraph G → X → ContentGraph G) l g :
  (∀ g x, cg_dirty (f g x) = cg_dirty g) → cg_dirty (foldl f g l) = cg_dirty g.
Proof.
  intros Hf. revert g. induction l as [|x l IH]; intros g; [done|]. simpl. by rewrite IH.
Qed.

Lemma snapshots_dirty pass phase source ks g :
  cg_dirty (foldl (snapshot ev pass phase source) g ks) = cg_dirty g.
Proof. by apply foldl_upd_dirty. Qed.

Lemma loop_partition_ok s : phase_ok s (loop_partition cf s).1.
Proof.
  pose proof (loop_partition_steps s) as Hs. revert Hs.
  unfold loop_partition. destruct (partition_violations _ _) as [vs ts]. simpl. intros Hs.
  split; [done..|]. intros Hd. unfold dirty_nodes in *. simpl. case_match; [|done].
  unfold stamp_ledger. rewrite foldl_upd_dirty; [done|].
  intros g v. unfold stamp_one. repeat case_match; done.
Qed.

(** A rescan leaves the dirty set empty whatever it was. *)
Lemma rescan_collect_ok pass by_ st s s0 :
  loop_act (ActResolve st) → steps (ls_graph s0) (ls_graph s) → ls_passes s = ls_passes s0 →
  (ls_attempts s0 ≤ cf_max_ai_attempts cf → ls_attempts s ≤ cf_max_ai_attempts cf) →
  phase_ok s0 (rescan_collect cf ev pass by_ st s).
Proof.
  intros Ha Hs Hp Hatt. split; [|done|done|].
  - etrans; [done|]. by apply rescan_collect_steps.
  - intros _. done.
Qed.

(** Without an applied transform the graph is the same. *)
Lemma apply_transform_false k fn v g g' : apply_transform k fn v g = (g', false) → g' = g.
Proof.
  unfold apply_transform. intros E. repeat (case_match; simplify_eq; try done).
Qed.

Lemma apply_tier1_zero g t1 : (foldl (apply_tier1_one cf) (g, 0) t1).2 = 0 →
  (foldl (apply_tier1_one cf) (g, 0) t1).1 = g.
Proof.
  assert (Hmono : ∀ l acc, acc.2 ≤ (foldl (apply_tier1_one cf) acc l).2).
  { induction l as [|v l IH]; intros [g0 c]; [done|]. cbn [foldl]. etrans; [|apply IH].
    simpl. case_match; [|done]. destruct (apply_transform _ _ _ _) as [? []]; simpl; lia. }
  revert g. induction t1 as [|v t1 IH]; intros g; [done|]. cbn [foldl].
  destruct (apply_tier1_one cf (g, 0) v) as [g1 c1] eqn:E. intros Hz.
  pose proof (Hmono t1 (g1, c1)) as Hm. rewrite Hz in Hm. simpl in Hm.
  assert (c1 = 0) as -> by lia. simpl in E. rewrite IH by done.
  case_match; [|by simplify_eq]. destruct (apply_transform (v_path v) t v g) as [g2 []] eqn:Et;
    simplify_eq. by apply apply_transform_false in Et.
Qed.

Lemma with_graph_ok g s :
  steps (ls_graph s) g → (dirty_nodes (ls_graph s) = ∅ → dirty_nodes g = ∅) →
  phase_ok s (with_graph g s).
Proof. intros. by split. Qed.

Lemma resolve_act : loop_act (ActResolve (resolve_status cf)).
Proof. by left. Qed.

(** Phase A without the rescan: no transform applied. *)
Lemma apply_tier1_idle_ok s t1 pass g :
  apply_tier1 cf ev (ls_graph s) t1 pass = (g, 0) → phase_ok s (with_graph g s).
Proof.
  intros E. pose proof (apply_tier1_steps (ls_graph s) t1 pass) as Hs. rewrite E in Hs.
  apply with_graph_ok; [done|]. intros Hd. unfold apply_tier1 in E.
  pose proof (apply_tier1_zero (ls_graph s) t1) as Hz.
  destruct (foldl _ _ t1) as [g1 c]. simplify_eq. simpl in Hz.
  unfold dirty_nodes. rewrite snapshots_dirty, Hz by done. done.
Qed.

Lemma tier1_rescan_ok s t1 pass g c :
  apply_tier1 cf ev (ls_graph s) t1 pass = (g, c) →
  phase_ok s (rescan_collect cf ev pass "deterministic" (resolve_status cf) (with_graph g s)).
Proof.
  intros E. apply rescan_collect_ok; [apply resolve_act| |done|done].
  pose proof (apply_tier1_steps (ls_graph s) t1 pass) as Hs. by rewrite E in Hs.
Qed.

Lemma phase_a_ok pass s : phase_ok s (flow_state (phase_a cf ev pass s)).
Proof.
  unfold phase_a. pose proof (loop_partition_ok s) as Hp.
  destruct (loop_partition cf s) as [s1 [[t1 t2] t3]]. simpl in Hp.
  destruct t1 as [|v t1]; [done|]. case_match; [by case_match|].
  destruct (apply_tier1 cf ev (ls_graph s1) (v :: t1) pass) as [g c] eqn:E.
  case_decide as Hc.
  - subst. apply apply_tier1_idle_ok in E. case_match; simpl; by etrans.
  - apply tier1_rescan_ok in E.
    pose proof (loop_partition_ok (rescan_collect cf ev pass "deterministic" (resolve_status cf)
      (with_graph g s1))) as Hp2.
    destruct (loop_partition cf _) as [s2 [[n1 n2] n3]]. simpl in Hp2.
    assert (phase_ok s s2) as Hs2 by (do 2 (etrans; [done|]); done).
    assert (∀ s', phase_ok s2 s' → phase_ok s s') as Ht by (intros; by etrans).
    repeat case_match; simpl; apply Ht; by split.
Qed.

Lemma phase_c_ok pass s : phase_ok s (phase_c cf ev pass s).1.
Proof.
  unfold phase_c. pose proof (loop_partition_ok s) as Hp.
  destruct (loop_partition cf s) as [s1 [[n1 n2] n3]]. simpl in Hp.
  destruct n1 as [|v n1]; [done|].
  destruct (apply_tier1 cf ev (ls_graph s1) (v :: n1) pass) as [g c] eqn:E.
  apply tier1_rescan_ok in E.
  pose proof (loop_partition_ok (rescan_collect cf ev pass "deterministic" (resolve_status cf)
    (with_graph g s1))) as Hp2.
  destruct (loop_partition cf _) as [s2 [[m1 m2] m3]]. simpl in *. by do 2 (etrans; [done|]).
Qed.

Lemma phase_b_ok provider pass t2 s :
  run_ai cf ev = true → ls_attempts s < cf_max_ai_attempts cf →
  phase_ok s (flow_state (phase_b cf ev provider pass t2 s)).
Proof.
  intros Hai Hatt. unfold phase_b.
  pose proof (apply_ai_steps (provider (ls_attempts s)) (ls_graph s) t2 pass (ls_feedback s) Hai) as Hs.
  destruct (apply_ai_transforms ev _ _ _ _ _) as [[g props] err]. simpl in Hs.
  set (s1 := MkLoop g _ _ _ _ _ _ _ _ _ _ _).
  assert (ls_attempts s1 ≤ cf_max_ai_attempts cf) as Hatt1 by (simpl; lia).
  case_decide as Hd; [by split|].
  assert (phase_ok s (rescan_collect cf ev pass "ai" Proposed s1)) as H2.
  { apply rescan_collect_ok; [by right|done|done|done]. }
  pose proof (phase_c_ok pass (rescan_collect cf ev pass "ai" Proposed s1)) as H3.
  destruct (phase_c cf ev pass _) as [s3 new2]. simpl in H3.
  assert (phase_ok s s3) by by etrans.
  destruct new2; simpl; [done|]. etrans; [done|]. by split.
Qed.

Lemma phase_b_provider_inv t1 t2 stalled s provider :
  phase_b_provider cf ev t1 t2 stalled s = Some provider →
  run_ai cf ev = true ∧ ls_attempts s < cf_max_ai_attempts cf.
Proof.
  unfold phase_b_provider. case_match eqn:E; [|done]. intros _.
  repeat (apply andb_prop in E as [E ?]). split; [done|by apply Nat.ltb_lt].
Qed.

Lemma pass_end_ok t1 t2 stalled s : phase_ok s (flow_state (pass_end cf ev t1 t2 stalled s)).
Proof. unfold pass_end. by repeat case_match. Qed.

Lemma one_pass_ok pass s : phase_ok (set_pass pass s) (flow_state (one_pass cf ev pass s)).
Proof.
  unfold one_pass. pose proof (phase_a_ok pass (set_pass pass s)) as Ha.
  destruct (phase_a cf ev pass (set_pass pass s)) as [s1|s1|s1 [[t1 t2] stalled]]; simpl in Ha; [done..|].
  destruct (phase_b_provider cf ev t1 t2 stalled s1) as [provider|] eqn:Hb.
  - apply phase_b_provider_inv in Hb as [Hai Hatt].
    pose proof (phase_b_ok provider pass t2 s1 Hai Hatt) as Hb.
    destruct (phase_b cf ev provider pass t2 s1) as [s2|s2|s2 []]; simpl in Hb.
    1-2: by etrans. etrans; [done|]. etrans; [done|]. apply pass_end_ok.
  - etrans; [done|]. apply pass_end_ok.
Qed.

Lemma passes_from_ok n pass s :
  let s' := passes_from cf ev n pass s in
  steps (ls_graph s) (ls_graph s') ∧
  (ls_attempts s ≤ cf_max_ai_attempts cf → ls_attempts s' ≤ cf_max_ai_attempts cf) ∧
  (dirty_nodes (ls_graph s) = ∅ → dirty_nodes (ls_graph s') = ∅) ∧
  (ls_passes s' = ls_passes s ∨ pass ≤ ls_passes s' < pass + n).
Proof.
  revert pass s. induction n as [|n IH]; intros pass s; simpl; [split; [reflexivity|auto]|].
  pose proof (one_pass_ok pass s) as [Hs Hp Ha Hc]. simpl in *.
  destruct (one_pass cf ev pass s) as [s1|s1|s1 x]; simpl in *.
  - split_and!; [done..|]. right. lia.
  - destruct (IH (S pass) s1) as (H1' & H2' & H3' & H4').
    split_and!; [by etrans|auto|auto|]. right. destruct H4'; lia.
  - destruct (IH (S pass) s1) as (H1' & H2' & H3' & H4').
    split_and!; [by etrans|auto|auto|]. right. destruct H4'; lia.
Qed.

Lemma start_steps g vs e : steps g (ls_graph (start ev g vs e)).
Proof.
  unfold start. pose proof (record_violations_steps g vs 0 "scanned" None) as Hr.
  by destruct (record_violations ev g vs 0 "scanned" None).
Qed.

Lemma steps_run g g' : steps g g' → graph_steps run_act g g'.
Proof. apply graph_steps_mono. intros a Ha. by left. Qed.

Lemma remediate_tail_steps g vs e :
  graph_steps run_act (ls_graph (start ev g vs e)) (remediate cf ev g vs e).1.1.
Proof.
  unfold remediate. set (s := passes_from cf ev _ _ _). simpl.
  assert (graph_steps run_act (ls_graph (start ev g vs e)) (ls_graph s)) as Hr.
  { apply steps_run, (passes_from_ok (cf_max_passes cf) 1). }
  destruct (cf_interactive cf) eqn:Ei; [done|]. etrans; [done|].
  apply (approve_pending_steps run_act None (Some "deterministic") (ls_graph s)). by right.
Qed.

(** A run is a sequence of run operations. *)
Lemma remediate_steps g vs e : graph_steps run_act g (remediate cf ev g vs e).1.1.
Proof. etrans; [apply steps_run, (start_steps g vs e)|apply remediate_tail_steps]. Qed.

(** A registered violation is in the ledger. *)
Lemma register_present vs pass g v w n :
  get_node g (v_path v) = Some n → violation_key v = violation_key w → w ∈ vs →
  ∃ n' r, get_node (register_violations vs pass g) (v_path v) = Some n' ∧
          dget (violation_key v) (nd_ledger n') = Some r.
Proof.
  intros Hn Hk Hw. destruct (register_violations_node vs pass g _ n Hn) as (l & Hl & Hkey).
  exists (nd_set_ledger l n). specialize (Hkey (violation_key v) eq_refl).
  destruct (last _) as [u|] eqn:Hu; [destruct Hkey as (r & ? & _); eauto|].
  exfalso. apply last_None in Hu. apply (not_elem_of_nil w). rewrite <- Hu.
  by apply list_elem_of_filter.
Qed.

(** ** Rescans and the ledger *)

Lemma group_by_node_spec vs k :
  dget k (group_by_node vs)
  = match filter (λ v, v_path v = k ∧ k ≠ "") vs with [] => None | l => Some l end.
Proof.
  assert (∀ d, dget k (foldl group_add d vs)
    = match filter (λ v, v_path v = k ∧ k ≠ "") vs with
      | [] => dget k d
      | l => Some (default [] (dget k d) ++ l)%list
      end) as Hgen; [|unfold group_by_node; rewrite Hgen; by case_match].
  induction vs as [|v vs IH]; intros d; [done|]. cbn [foldl]. rewrite IH, filter_cons. clear IH.
  unfold group_add. destruct (decide (v_path v = "")) as [He|He].
  - rewrite (decide_False (P := v_path v = k ∧ k ≠ "")) by naive_solver. done.
  - rewrite dget_dset. destruct (decide (k = v_path v)) as [->|Hne].
    + rewrite decide_True by done. case_match; simpl; by rewrite <- ?app_assoc.
    + rewrite (decide_False (P := v_path v = k ∧ k ≠ "")) by naive_solver. done.
Qed.

Lemma elem_of_remaining vs k rule :
  k ≠ "" → rule ∈ remaining_on vs k ↔ ∃ v, v ∈ vs ∧ violation_key v = (k, rule).
Proof.
  intros Hk. unfold remaining_on. rewrite group_by_node_spec, elem_of_list_to_set.
  assert (rule ∈ bare_id <$> filter (λ v, v_path v = k ∧ k ≠ "") vs ↔
    ∃ v, v ∈ vs ∧ violation_key v = (k, rule)) as <-.
  { rewrite list_elem_of_fmap. setoid_rewrite list_elem_of_filter. unfold violation_key.
    split; [intros (v & -> & [<- _] & ?); eauto|]. intros (v & ? & [= <- <-]). eauto 10. }
  by case_match.
Qed.

(** The open records of a resolved node are among the remaining ones. *)
Lemma resolve_all_open vs by_ pass st ks g k n key r :
  k ∈ ks → st ≠ Open →
  get_node (foldl (λ g k, (resolve_violations k (remaining_on vs k) by_ pass st g).1) g ks) k = Some n →
  dget key (nd_ledger n) = Some r → vr_status r = Open → (vr_key r).2 ∈ remaining_on vs k.
Proof.
  intros Hk Hst. revert g. induction ks as [|j ks IH]; intros g; [set_solver|]. cbn [foldl].
  destruct (decide (k ∈ ks)) as [Hin|Hnin]; [by apply IH|].
  assert (k = j) as -> by set_solver. clear IH Hk.
  assert (∀ ks g, j ∉ ks →
    get_node (foldl (λ g k, (resolve_violations k (remaining_on vs k) by_ pass st g).1) g ks) j
    = get_node g j) as Hframe.
  { clear -H1. induction ks as [|i ks IH]; intros g Hj; [done|]. cbn [foldl]. rewrite IH by set_solver.
    unfold resolve_violations, map_records. case_match; [|done]. apply get_node_upd_ne. set_solver. }
  rewrite Hframe by done. unfold resolve_violations, map_records.
  destruct (get_node g j) as [n0|] eqn:Hn0; simpl; [|by rewrite Hn0].
  rewrite get_node_upd_eq, Hn0. simpl. intros [= <-]. simpl. rewrite dget_ledger_map.
  destruct (dget key (nd_ledger n0)) as [r0|]; simpl; [|done]. intros [= <-].
  unfold resolve_record, resolvable. repeat case_bool_decide; simpl; try done.
Qed.

Lemma ledger_key_path g k n key r :
  graph_wf g → get_node g k = Some n → dget key (nd_ledger n) = Some r → vr_key r = key.
Proof. intros Hwf Hn Hr. by destruct (ledger_wf_dget _ _ _ (wf_ledger _ (Hwf k n Hn)) Hr). Qed.

(** ** Properties *)

(** C7: the loop is bounded: a run makes at most [max_passes] passes and at most
    [max_ai_attempts] AI batches, and when it returns, every modified node has been
    rescanned (the dirty set is empty if it was at the start). *)
Theorem remediate_bounded g vs e :
  let '(g', s, rep) := remediate cf ev g vs e in
  fr_passes rep ≤ cf_max_passes cf ∧ ls_attempts s ≤ cf_max_ai_attempts cf ∧
  (dirty_nodes g = ∅ → dirty_nodes g' = ∅).
Proof.
  unfold remediate.
  destruct (passes_from_ok (cf_max_passes cf) 1 (start ev g vs e)) as (_ & Ha & Hc & Hp).
  set (s := passes_from cf ev _ _ _) in *. split_and!.
  - simpl. assert (ls_passes (start ev g vs e) = 0) as E by done. rewrite E in Hp. lia.
  - apply Ha. simpl. lia.
  - intros Hd. assert (dirty_nodes (ls_graph (start ev g vs e)) = ∅) as Hd0.
    { unfold dirty_nodes, start, record_violations, register_violations. simpl.
      rewrite foldl_upd_dirty; [by rewrite snapshots_dirty|].
      intros g0 v. unfold register_one. by case_match. }
    specialize (Hc Hd0). destruct (cf_interactive cf); [done|].
    unfold dirty_nodes, approve_pending, approve_pending_all in *. simpl.
    by rewrite foldl_upd_dirty.
Qed.

(** C3: a run keeps the invariant of every node and the shape of the graph, and loses
    no finding: a ledger record from before the run is still there afterwards, moved
    only along the transition diagram, and unchanged if it was declined or abstained. *)
Theorem remediate_keeps_findings g vs e :
  graph_wf g →
  let g' := (remediate cf ev g vs e).1.1 in
  graph_wf g' ∧ nx_edges (cg_g g') = nx_edges (cg_g g) ∧
  ∀ k n key r, get_node g k = Some n → dget key (nd_ledger n) = Some r →
    ∃ n' r', get_node g' k = Some n' ∧ dget key (nd_ledger n') = Some r' ∧
      rtc status_step (vr_status r) (vr_status r') ∧
      (sticky (vr_status r) → vr_status r' = vr_status r).
Proof.
  intros Hwf g'. pose proof (remediate_steps g vs e) as Hs. fold g' in Hs. split_and!.
  - by eapply graph_steps_wf.
  - by eapply gs_edges.
  - intros k n key r Hn Hr.
    destruct (graph_steps_finding _ _ _ _ _ _ _ Hwf Hs Hn Hr) as (n' & r' & ? & ? & Hst).
    exists n', r'. eauto using sticky_stuck.
Qed.

(** C4: an interactive run decides nothing for the user: it approves no snapshot and
    marks no finding fixed or declined; whatever is approved, fixed or declined after it
    already was before. *)
Theorem interactive_run_decides_nothing g vs e k n' :
  cf_interactive cf = true → get_node (remediate cf ev g vs e).1.1 k = Some n' →
  ∃ n, get_node g k = Some n ∧
    (∀ s, s ∈ nd_progression n' → ns_approved s = true → s ∈ nd_progression n) ∧
    (∀ key r' st, dget key (nd_ledger n') = Some r' → vr_status r' = st → st = Fixed ∨ st = Declined →
       ∃ r, dget key (nd_ledger n) = Some r ∧ vr_status r = st).
Proof.
  intros Hi Hn'. pose proof (gs_nodes _ _ _ (remediate_steps g vs e) k) as N. rewrite Hn' in N.
  inversion N as [n ? HN|]; subst. exists n. split_and!; [done| |].
  - eapply node_steps_no_approval; [|exact HN]. intros a [Ha|[Hf _]]; [by destruct a|congruence].
  - intros key r' st Hr' Hst Hor. eapply (node_steps_enters run_act st); [|exact HN|done|done].
    assert (resolve_status cf = PendingReview) as Hrs by (unfold resolve_status; by rewrite Hi).
    intros a [Ha|[Hf _]]; [|congruence]. clear -Ha Hor Hrs.
    destruct a; cbn in Ha; rewrite ?Hrs in Ha; cbn; destruct Hor; subst; naive_solver.
Qed.

(** No run approves a snapshot that an AI transform recorded; and without the AI
    phase nothing is newly proposed or abstained. *)
Theorem run_spares_ai_snapshots g vs e k n' :
  get_node (remediate cf ev g vs e).1.1 k = Some n' →
  ∃ n, get_node g k = Some n ∧
    (∀ s, s ∈ nd_progression n' → ns_approved s = true → ns_source s = "ai" →
       s ∈ nd_progression n) ∧
    (run_ai cf ev = false →
     ∀ key r' st, dget key (nd_ledger n') = Some r' → vr_status r' = st →
       st = Proposed ∨ st = AiAbstained →
       ∃ r, dget key (nd_ledger n) = Some r ∧ vr_status r = st).
Proof.
  intros Hn'. pose proof (gs_nodes _ _ _ (remediate_steps g vs e) k) as N. rewrite Hn' in N.
  inversion N as [n ? HN|]; subst. exists n. split_and!; [done| |].
  - intros s Hs Ha Hsrc. eapply (node_steps_spares run_act "ai"); [|exact HN|done..].
    intros a [Hla|[_ ->]]; [by destruct a|]. simpl. by exists "deterministic".
  - intros Hrun key r' st Hr' Hst Hor.
    eapply (node_steps_enters run_act st); [|exact HN|done|done].
    assert (resolve_status cf = PendingReview ∨ resolve_status cf = Fixed) as Hrs
      by (unfold resolve_status; destruct (cf_interactive cf); auto).
    intros a [Ha|[_ ->]]; [|by intros []]. clear -Ha Hor Hrs Hrun.
    destruct a; cbn in Ha; cbn; destruct Hor; subst; naive_solver congruence.
Qed.

(** C36: After a rescan the ledger says what the rescan said: on every node it covered,
    an open record is one the rescan reported; a record the rescan did not report is
    resolved (or was settled before). *)
Theorem rescan_closes_unreported call g pass by_ st k n key r :
  graph_wf g → resolved_status st →
  let dirty := expand_dirty_node_ids g (cf_rules cf) (dirty_nodes g) in
  let reported := ev_rescan ev call g dirty in
  k ∈ dirty → k ≠ "" →
  get_node (rescan_and_record cf ev call g pass by_ st) k = Some n →
  dget key (nd_ledger n) = Some r → vr_status r = Open →
  ∃ v, v ∈ reported ∧ violation_key v = (k, key.2).
Proof.
  intros Hwf Hst dirty reported Hk Hk0 Hn Hr Ho.
  unfold rescan_and_record in Hn. fold dirty reported in Hn.
  pose proof (record_violations_steps g reported pass "scanned" (Some dirty)) as Hs.
  unfold record_violations in *. simpl in Hs, Hn.
  set (g1 := register_violations _ _ _) in *. set (vs := enrich_fqcn_targets reported) in *.
  change (get_node (resolve_dirty_violations g1 vs dirty by_ pass st) k = Some n) in Hn.
  assert (graph_wf (resolve_dirty_violations g1 vs dirty by_ pass st)) as Hwf'.
  { eapply (graph_steps_wf (λ _, True)); [|by eapply graph_steps_wf].
    apply foldl_steps. intros g0 j _. by apply resolve_violations_steps. }
  pose proof (ledger_key_path _ _ _ _ _ Hwf' Hn Hr) as Hkey.
  eapply resolve_all_open in Hn; [|by apply elem_of_elements| |done|done].
  2: { intros ->. unfold resolved_status in Hst. set_solver. }
  rewrite Hkey in Hn. apply elem_of_remaining in Hn as (v & Hv & Hvk); [|done].
  subst vs. unfold enrich_fqcn_targets in Hv. apply list_elem_of_fmap in Hv as (v0 & -> & Hv0).
  exists v0. by rewrite enrich_one_key in Hvk.
Qed.

(** Every finding handed to a run is accounted for: if its node exists, the final
    ledger of that node has a record under the finding's key. *)
Theorem remediate_accounts_for_input g vs e v n :
  graph_wf g → v ∈ vs → get_node g (v_path v) = Some n →
  ∃ n' r, get_node (remediate cf ev g vs e).1.1 (v_path v) = Some n' ∧
          dget (violation_key v) (nd_ledger n') = Some r.
Proof.
  intros Hwf Hv Hn. set (s0 := start ev g vs e).
  assert (∃ n0 r0, get_node (ls_graph s0) (v_path v) = Some n0 ∧
                   dget (violation_key v) (nd_ledger n0) = Some r0) as (n0 & r0 & Hn0 & Hr0).
  { subst s0. unfold start, record_violations. simpl.
    set (g1 := foldl _ g _). pose proof (gs_nodes _ _ _ (snapshots_steps 0 "scanned" ""
      (group_by_node (enrich_fqcn_targets vs)).*1 g) (v_path v)) as N. fold g1 in N. rewrite Hn in N.
    inversion N as [? n1 _ Hn1|]; subst.
    assert (violation_key v ∈ violation_key <$> enrich_fqcn_targets vs) as Hin.
    { rewrite enrich_keys. by apply list_elem_of_fmap_2. }
    apply list_elem_of_fmap in Hin as (w & Hw & Hin).
    eapply register_present; [done| |exact Hin]. done. }
  assert (graph_wf (ls_graph s0)) as Hwf0 by (eapply graph_steps_wf; [apply start_steps|done]).
  assert (graph_steps run_act (ls_graph s0) (remediate cf ev g vs e).1.1) as Hs.
  { apply remediate_tail_steps. }
  destruct (graph_steps_finding _ _ _ _ _ _ _ Hwf0 Hs Hn0 Hr0) as (n' & r' & ? & ? & _). eauto.
Qed.
End Runs.

(** ** Witnesses *)

(** One deterministic transform; a validator that reports nothing on rescans; a
    provider that never has a fix. *)
Definition sample_transform : transform := λ m _, ((m.1, " emacs"), true).

Definition sample_env : env (G := SG) :=
  MkEnv (λ _ _ _, []) (Some (λ _ _ _ _ _, AINone)) (λ _ _, "t").

Definition sample_config (interactive : bool) : config (G := SG) (RS := unit) :=
  MkConfig [("L007", sample_transform)] [sample_rule "L1" "play"] 5 2 interactive false false.

Definition sample_batch : list ViolationDict :=
  [sample_violation task_id "L007"; sample_violation task2_id "L099"].

Lemma remediate_bounded_witness :
  fr_passes (remediate (sample_config false) sample_env sample_graph sample_batch false).2 ≤ 5.
Proof.
  exact (proj1 (remediate_bounded (G := SG) (sample_config false) sample_env sample_graph
                  sample_batch false)).
Defined.

Lemma remediate_keeps_findings_witness :
  graph_wf (remediate (sample_config false) sample_env reviewed_graph sample_batch false).1.1.
Proof.
  exact (proj1 (remediate_keeps_findings (G := SG) (sample_config false) sample_env reviewed_graph
                  sample_batch false reviewed_graph_wf)).
Defined.

Definition interactive_node : ContentNode :=
  default (sample_node "" TASK 0 0 "")
    (get_node (remediate (sample_config true) sample_env sample_graph sample_batch false).1.1 task_id).

Lemma interactive_run_decides_nothing_witness :
  ∃ n, get_node sample_graph task_id = Some n ∧
    ∀ s, s ∈ nd_progression interactive_node → ns_approved s = true → s ∈ nd_progression n.
Proof.
  destruct (interactive_run_decides_nothing (G := SG) (sample_config true) sample_env sample_graph
    sample_batch false task_id interactive_node) as (n & Hn & Hs & _);
    [reflexivity|vm_compute; reflexivity|].
  exists n. split; [exact Hn|exact Hs].
Defined.

Lemma run_spares_ai_snapshots_witness :
  ∃ n, get_node sample_graph task_id = Some n ∧
    ∀ s, s ∈ nd_progression interactive_node → ns_approved s = true → ns_source s = "ai" →
      s ∈ nd_progression n.
Proof.
  destruct (run_spares_ai_snapshots (G := SG) (sample_config true) sample_env sample_graph
    sample_batch false task_id interactive_node) as (n & Hn & Hs & _); [vm_compute; reflexivity|].
  exists n. split; [exact Hn|exact Hs].
Defined.

(** A task with an open finding, modified and not yet rescanned. *)
Definition dirty_graph : ContentGraph SG :=
  foldl exec sample_graph [OpRegister [sample_violation task_id "L007"] 0; OpYaml task_id "apt: emacs"].

Lemma dirty_graph_wf : graph_wf dirty_graph.
Proof.
  refine (graph_steps_wf (λ _, True) _ _ (foldl_exec_steps _ _ _ _ _) sample_graph_wf); [|done].
  repeat (apply Forall_cons; split; [done|]). apply Forall_nil_2.
Qed.

(** A validator that reports the finding again. *)
Definition stubborn_env : env (G := SG) :=
  MkEnv (λ _ _ _, [sample_violation task_id "L007"]) None (λ _ _, "t").

Definition rescanned_node : ContentNode :=
  default (sample_node "" TASK 0 0 "")
    (get_node (rescan_and_record (sample_config false) stubborn_env 0 dirty_graph 1 "deterministic" Fixed)
       task_id).

Definition rescanned_record : ViolationRecord :=
  MkRecord (task_id, "L007") (sample_violation task_id "L007") Open None None 0 None None.

Lemma rescan_closes_unreported_witness :
  ∃ v, v ∈ [sample_violation task_id "L007"] ∧ violation_key v = (task_id, "L007").
Proof.
  apply (rescan_closes_unreported (G := SG) (sample_config false) stubborn_env 0 dirty_graph 1
    "deterministic" Fixed task_id rescanned_node (task_id, "L007") rescanned_record).
  - exact dirty_graph_wf.
  - left.
  - vm_compute. reflexivity.
  - discriminate.
  - vm_compute. reflexivity.
  - vm_compute. reflexivity.
  - reflexivity.
Defined.

Lemma remediate_accounts_for_input_witness :
  ∃ n' r, get_node (remediate (sample_config false) sample_env sample_graph sample_batch false).1.1
            task2_id = Some n' ∧ dget (task2_id, "L099") (nd_ledger n') = Some r.
Proof.
  apply (remediate_accounts_for_input (G := SG) (sample_config false) sample_env sample_graph
    sample_batch false (sample_violation task2_id "L099") (sample_node task2_id TASK 3 3 "shell: ls")).
  - exact sample_graph_wf.
  - right. left.
  - vm_compute. reflexivity.
Defined.
