(* ===== verification/Splice.v ===== *)
(** * File patches

    [splice_modifications] of [src/apme_engine/remediation/graph_engine.py] and
    [collect_step_diffs] of [src/apme_engine/graph/content_graph.py].  The text of a
    unified diff is only displayed; a patch and a step keep the two texts it is made
    from instead. *)

From stdpp Require Import base list gmap strings.
From Stdlib Require Import Ascii String Sorted.
From S2P Require Import Prelude PyStr Yaml Violation NxGraph ContentNode ContentGraph GraphLaws Sample Noqa Scanner Partition Remediation.

#[local] Open Scope string_scope.
#[local] Open Scope nat_scope.
#[local] Notation length := List.length.

Record edit := MkEdit {
  ed_start : nat;          (* 1-based, inclusive *)
  ed_end : nat;
  ed_text : string;
  ed_rules : list string;
}.

Record FilePatch := MkPatch {
  pt_path : string;
  pt_original : string;
  pt_patched : string;
  pt_rules : list string;
}.

(** The lines of a text, the last one terminated by a line feed. *)
Fixpoint terminate_last (ls : list string) : list string :=
  match ls with
  | [] => []
  | [l] => [if endswith l (String LF "") then l else l +:+ String LF ""]
  | l :: ls' => l :: terminate_last ls'
  end.

Definition file_lines (text : string) : list string := terminate_last (splitlines_keep text).

(** [lines[start - 1 : end] = new_lines] *)
Definition apply_edit (lines : list string) (e : edit) : list string :=
  (take (ed_start e - 1) lines ++ file_lines (ed_text e) ++ drop (ed_end e) lines)%list.

(** [edits.sort(key=lambda e: e[0], reverse=True)]; equal keys keep their order. *)
Definition bottom_up (es : list edit) : list edit :=
  sort_by (λ a b, ed_start b <=? ed_start a) es.

Definition splice_lines (original : string) (es : list edit) : list string :=
  foldl apply_edit (file_lines original) (bottom_up es).

Definition splice_file (path original : string) (es : list edit) : option FilePatch :=
  let patched := sconcat (splice_lines original es) in
  if decide (patched = original) then None
  else Some (MkPatch path original patched (bottom_up es ≫= ed_rules)).

(** The snapshot whose text is written. *)
Definition effective_state (include_pending : bool) (first : NodeState) (p : list NodeState) : NodeState :=
  if include_pending then default first (last p) else default first (last_approved p).

(** The edit of one node, with its file. *)
Definition node_edit (include_pending : bool) (n : ContentNode) : option (string * edit) :=
  match nd_progression n with
  | first :: _ :: _ =>
    let m := nd_meta n in
    if decide (m_file_path m = "" ∨ nd_yaml n = "") then None
    else if decide (m_line_start m <= 0 ∨ m_line_end m <= 0)%Z then None
    else if decide (m_line_end m < m_line_start m)%Z then None
    else
      let eff := effective_state include_pending first (nd_progression n) in
      if decide (ns_hash first = ns_hash eff) then None
      else Some (m_file_path m,
             MkEdit (Z.to_nat (m_line_start m)) (Z.to_nat (m_line_end m)) (ns_yaml eff)
               ((λ kr, (vr_key kr.2).2) <$> nd_ledger n))
  | _ => None
  end.

(** [modified_by_file[path].append(edit)] *)
Definition add_edit (d : list (string * list edit)) (fe : string * edit) : list (string * list edit) :=
  dset fe.1 (default [] (dget fe.1 d) ++ [fe.2])%list d.

Section Splice.
Context `{YamlLib} {G : Type} `{NxLaws ContentNode EdgeAttrs G}.
Implicit Types (g : ContentGraph G) (n : ContentNode).

Definition modified_by_file g (include_pending : bool) : list (string * list edit) :=
  foldl add_edit [] (omap (node_edit include_pending) (nodes g)).

(** [splice_modifications]; [originals] maps file paths to their text. *)
Definition splice_modifications g (originals : gmap string string) (include_pending : bool)
    : list FilePatch :=
  omap (λ fe, original ← originals !! fe.1; splice_file fe.1 original fe.2)
    (modified_by_file g include_pending).

(** ** Step diffs *)

Record step_diff := MkStep {
  sd_node_id : string;
  sd_pass : nat;
  sd_phase : string;
  sd_source : string;
  sd_before : string;
  sd_after : string;
}.

Fixpoint node_steps_diffs (id : string) (p : list NodeState) : list step_diff :=
  match p with
  | prev :: ((curr :: _) as p') =>
    ((if decide (ns_hash prev = ns_hash curr) then []
      else [MkStep id (ns_pass curr) (ns_phase curr) (ns_source curr) (ns_yaml prev) (ns_yaml curr)])
     ++ node_steps_diffs id p')%list
  | _ => []
  end.

Definition collect_step_diffs g : list step_diff :=
  nodes g ≫= λ n, node_steps_diffs (node_id n) (nd_progression n).

(** ** Where the written text comes from *)

Lemma node_edit_source n f e :
  node_edit false n = Some (f, e) →
  ∃ s, s ∈ nd_progression n ∧ ns_approved s = true ∧ ed_text e = ns_yaml s ∧
       f = m_file_path (nd_meta n) ∧ 1 ≤ ed_start e ≤ ed_end e.
Proof.
  unfold node_edit. destruct (nd_progression n) as [|first [|second p]] eqn:Ep; [done..|].
  unfold effective_state. repeat (case_decide; [done|]). intros [= <- <-]. simpl.
  destruct (last_approved (first :: second :: p)) as [s|] eqn:El; [|done].
  apply last_approved_elem in El as [Hin Ha]. exists s. split_and!; try done; lia.
Qed.

Lemma add_edits_spec d l f e :
  (∃ es, dget f (foldl add_edit d l) = Some es ∧ e ∈ es) ↔
  (∃ es, dget f d = Some es ∧ e ∈ es) ∨ (f, e) ∈ l.
Proof.
  revert d. induction l as [|[f0 e0] l IH]; intros d; cbn [foldl]; [set_solver|].
  rewrite IH. unfold add_edit. simpl. rewrite dget_dset.
  destruct (decide (f = f0)) as [->|Hne].
  - assert ((∃ es, Some (default [] (dget f0 d) ++ [e0])%list = Some es ∧ e ∈ es) ↔
      (∃ es, dget f0 d = Some es ∧ e ∈ es) ∨ e = e0) as ->.
    { split.
      - intros (es & [= <-] & [Hin| ->%list_elem_of_singleton]%elem_of_app); [|by right].
        left. destruct (dget f0 d); [eauto|set_solver].
      - intros [(es & -> & Hin)| ->]; eexists; split; try done; simpl; set_solver. }
    rewrite elem_of_cons. naive_solver.
  - rewrite elem_of_cons. naive_solver.
Qed.

Lemma modified_NoDup g b : NoDup (modified_by_file g b).*1.
Proof.
  unfold modified_by_file. generalize (omap (node_edit b) (nodes g)) as l. intros l.
  assert (∀ d, NoDup d.*1 → NoDup (foldl add_edit d l).*1) as Hgen; [|apply Hgen, NoDup_nil_2].
  induction l as [|fe l IH]; intros d Hd; [done|]. cbn [foldl]. apply IH. by apply dset_NoDup.
Qed.

Lemma patch_inv g originals b p :
  p ∈ splice_modifications g originals b →
  ∃ es, (pt_path p, es) ∈ modified_by_file g b ∧ originals !! pt_path p = Some (pt_original p) ∧
    pt_patched p = sconcat (splice_lines (pt_original p) es) ∧ pt_patched p ≠ pt_original p.
Proof.
  unfold splice_modifications. intros ([f es] & Hin & Hp)%list_elem_of_omap. simpl in Hp.
  destruct (originals !! f) as [o|] eqn:Ho; [|done]. simpl in Hp. unfold splice_file in Hp.
  case_decide; [done|]. simplify_eq. exists es. done.
Qed.

(** ** Bottom-up splicing *)

(** The edits lie within the file and do not overlap. *)
Definition edits_ok (total : nat) (es : list edit) : Prop :=
  Forall (λ e, 1 ≤ ed_start e ∧ ed_start e ≤ ed_end e ∧ ed_end e ≤ total) es ∧
  ForallOrdPairs (λ a b, ed_end a < ed_start b ∨ ed_end b < ed_start a) es.

(** The reference: one pass over the file, top to bottom; [off] lines precede [ls]. *)
Fixpoint splice_ref (off : nat) (ls : list string) (es : list edit) : list string :=
  match es with
  | [] => ls
  | e :: es' =>
    (take (ed_start e - 1 - off) ls ++ file_lines (ed_text e) ++
     splice_ref (ed_end e) (drop (ed_end e - off) ls) es')%list
  end.

(** The edits from the top of the file to its end. *)
Definition top_down (es : list edit) : list edit := rev (bottom_up es).

Lemma apply_edits_ref es pre ls :
  StronglySorted (λ a b, ed_end a < ed_start b) es →
  Forall (λ e, length pre < ed_start e ∧ ed_start e ≤ ed_end e ∧
               ed_end e ≤ length pre + length ls) es →
  foldr (λ e l, apply_edit l e) (pre ++ ls)%list es = (pre ++ splice_ref (length pre) ls es)%list.
Proof.
  revert pre ls. induction es as [|e es IH]; intros pre ls Hs Hb; simpl; [done|].
  apply StronglySorted_inv in Hs as [Hs Hlt]. apply Forall_cons in Hb as [(B1 & B2 & B3) Hb].
  set (k := ed_end e - length pre).
  assert (length (take k ls) = k) as Hk by (rewrite length_take; lia).
  assert (pre ++ ls = (pre ++ take k ls) ++ drop k ls)%list as ->.
  { by rewrite <- app_assoc, take_drop. }
  assert (length (pre ++ take k ls) = ed_end e) as Hlen by (rewrite length_app, Hk; lia).
  rewrite IH; [|done|].
  - unfold apply_edit. rewrite Hlen. set (R := splice_ref _ _ _).
    rewrite drop_app_length' by done. rewrite take_app_le by (rewrite Hlen; lia).
    rewrite take_app_ge by lia. rewrite take_take, <- !app_assoc. do 2 f_equal.
    f_equal. lia.
  - rewrite Hlen, length_drop. rewrite Forall_forall in *. intros e' He'.
    specialize (Hlt e' He'). specialize (Hb e' He'). lia.
Qed.

Lemma ForallOrdPairs_perm {A} (R : A → A → Prop) (l l' : list A) :
  (∀ x y, R x y → R y x) → l ≡ₚ l' → ForallOrdPairs R l → ForallOrdPairs R l'.
Proof.
  intros Hsym Hp. induction Hp as [|x l l' Hp IH|x y l|l1 l2 l3 _ IH1 _ IH2]; intros Hl; auto.
  - inversion Hl as [|? ? Hx Hl']; subst. constructor; [|auto]. by rewrite <- Hp.
  - inversion Hl as [|? ? Hy Hl']; subst. inversion Hl' as [|? ? Hx Hl'']; subst.
    apply Forall_cons in Hy as [Hyx Hy]. constructor; [constructor; auto|by constructor].
Qed.

Lemma bottom_up_disjoint total es :
  edits_ok total es → StronglySorted (λ a b, ed_end b < ed_start a) (bottom_up es).
Proof.
  intros [Hb Hd].
  assert (StronglySorted (λ a b, (ed_start b <=? ed_start a) = true) (bottom_up es)) as Hs.
  { apply sort_by_sorted.
    - intros x y Hxy%Nat.leb_gt. apply Nat.leb_le. lia.
    - intros x y z Hxy%Nat.leb_le Hyz%Nat.leb_le. apply Nat.leb_le. lia. }
  assert (Forall (λ e, 1 ≤ ed_start e ∧ ed_start e ≤ ed_end e ∧ ed_end e ≤ total) (bottom_up es)) as Hb'.
  { unfold bottom_up. by rewrite sort_by_perm. }
  assert (ForallOrdPairs (λ a b, ed_end a < ed_start b ∨ ed_end b < ed_start a) (bottom_up es)) as Hd'.
  { eapply ForallOrdPairs_perm; [|symmetry; apply sort_by_perm|done]. tauto. }
  clear Hb Hd. induction Hs as [|e l Hs IH Hle]; [constructor|].
  apply Forall_cons in Hb' as [He Hb]. inversion Hd' as [|? ? Hde Hdl]; subst.
  constructor; [by apply IH|]. rewrite Forall_forall in *. intros e' He'.
  specialize (Hle e' He'). specialize (Hb e' He'). specialize (Hde e' He').
  apply Nat.leb_le in Hle. lia.
Qed.

Lemma StronglySorted_rev {A} (R : A → A → Prop) (l : list A) :
  StronglySorted R l → StronglySorted (λ a b, R b a) (rev l).
Proof.
  induction 1 as [|x l Hs IH Hx]; [constructor|]. simpl.
  assert (Forall (λ y, R x y) (rev l)) as Hr.
  { apply Forall_forall. intros y Hy. rewrite Forall_forall in Hx. apply Hx.
    by rewrite list_elem_of_In, <- in_rev, <- list_elem_of_In in Hy. }
  clear Hs Hx. induction (rev l) as [|y l' IH']; simpl; [repeat constructor|].
  apply StronglySorted_inv in IH as [IH Hy]. apply Forall_cons in Hr as [Hxy Hr].
  constructor; [auto|]. rewrite Forall_app. split; [done|by constructor].
Qed.

Lemma foldl_foldr_rev {A B} (f : A → B → A) l a : foldl f a l = foldr (λ x y, f y x) a (rev l).
Proof.
  revert a. induction l as [|x l IH]; intros a; simpl; [done|]. by rewrite IH, foldr_app.
Qed.

(** The texts of a patch are those of approved snapshots. *)
Lemma patch_edits g originals p :
  p ∈ splice_modifications g originals false →
  originals !! pt_path p = Some (pt_original p) ∧ pt_patched p ≠ pt_original p ∧
  ∃ es, pt_patched p = sconcat (splice_lines (pt_original p) es) ∧
    ∀ e, e ∈ es → ∃ n s, n ∈ nodes g ∧ m_file_path (nd_meta n) = pt_path p ∧
      s ∈ nd_progression n ∧ ns_approved s = true ∧ ed_text e = ns_yaml s.
Proof.
  intros Hp. apply patch_inv in Hp as (es & Hin & Ho & Hpt & Hne). split_and!; [done..|].
  exists es. split; [done|]. intros e He.
  assert ((pt_path p, e) ∈ omap (node_edit false) (nodes g)) as Hne'.
  { destruct (proj1 (add_edits_spec [] (omap (node_edit false) (nodes g)) (pt_path p) e))
      as [(? & ? & _)|Hx]; [|done|done].
    exists es. split; [|done]. apply dget_elem; [apply modified_NoDup|done]. }
  apply list_elem_of_omap in Hne' as (n & Hn & Hed).
  apply node_edit_source in Hed as (s & ? & ? & ? & ? & _). exists n, s. done.
Qed.

(** ** Properties *)

(** C10: applying the edits bottom-up, each to the list left by the one below it, gives
    what a single top-down pass over the original lines gives, for edits that lie
    within the file and do not overlap: no edit disturbs the line numbers of another. *)
Theorem splice_matches_reference original es :
  edits_ok (length (file_lines original)) es →
  splice_lines original es = splice_ref 0 (file_lines original) (top_down es).
Proof.
  intros Hok. unfold splice_lines, top_down. rewrite foldl_foldr_rev.
  pose proof (apply_edits_ref (rev (bottom_up es)) [] (file_lines original)) as Href.
  simpl in Href. apply Href.
  - apply (StronglySorted_rev (λ a b, ed_end b < ed_start a)). by eapply bottom_up_disjoint.
  - destruct Hok as [Hb _]. apply Forall_forall. intros e He.
    rewrite list_elem_of_In, <- in_rev, <- list_elem_of_In in He.
    unfold bottom_up in He. rewrite elem_of_sort_by in He. rewrite Forall_forall in Hb.
    specialize (Hb e He). lia.
Qed.

(** Without pending entries, a patch changes a file it was given, appears once per
    file, and every text it writes is that of an approved snapshot of a node of that
    file. *)
Theorem splice_writes_approved g originals :
  NoDup (pt_path <$> splice_modifications g originals false) ∧
  ∀ p, p ∈ splice_modifications g originals false →
    originals !! pt_path p = Some (pt_original p) ∧ pt_patched p ≠ pt_original p ∧
    ∃ es, pt_patched p = sconcat (splice_lines (pt_original p) es) ∧
      ∀ e, e ∈ es → ∃ n s, n ∈ nodes g ∧ m_file_path (nd_meta n) = pt_path p ∧
        s ∈ nd_progression n ∧ ns_approved s = true ∧ ed_text e = ns_yaml s.
Proof.
  split.
  - pose proof (modified_NoDup g false) as Hnd. unfold splice_modifications.
    induction (modified_by_file g false) as [|[f es] l IH]; [constructor|].
    csimpl in *. apply NoDup_cons in Hnd as [Hf Hnd].
    destruct (originals !! f ≫= _) as [p|] eqn:Ep; [|by apply IH]. csimpl. constructor; [|by apply IH].
    intros (q & Hq & Hin)%list_elem_of_fmap. apply Hf.
    apply list_elem_of_omap in Hin as ([f' es'] & Hin & Hq'). simpl in *.
    assert (∀ f es p, originals !! f ≫= (λ o, splice_file f o es) = Some p → pt_path p = f) as Hpath.
    { intros f0 es0 p0 Hp. destruct (originals !! f0) as [o|]; [|done]. simpl in Hp.
      unfold splice_file in Hp. case_decide; by simplify_eq. }
    apply Hpath in Ep, Hq'. apply list_elem_of_fmap. exists (f', es'). split; [|done]. simpl. congruence.
  - apply patch_edits.
Qed.
End Splice.

(** ** A run that writes an AI fix nobody approved *)

Module Demo.
Definition file : string :=
  "hosts: all" +:+ String LF ("apt: vim" +:+ String LF ("shell: ls" +:+ String LF "")).

(** A provider that rewrites the second task; validators that report nothing more. *)
Definition environment : env (G := SG) :=
  MkEnv (λ _ _ _, []) (Some (λ _ _ _ _ _, AIFix (MkFix "shell: rm -rf /" ["L099"] "" "0.85" [])))
    (λ _ _, "t").

Definition configuration : config (G := SG) (RS := unit) := MkConfig [] [] 5 2 false false false.

Definition run := remediate configuration environment sample_graph [sample_violation task2_id "L099"] false.

(** The AI snapshot itself stays unapproved; the snapshot that the rescan takes of the
    same text has no source and is approved as if it were deterministic. *)
Definition history : list (string * bool * string) :=
  match get_node run.1.1 task2_id with
  | Some n => (λ s, (ns_source s, ns_approved s, ns_yaml s)) <$> nd_progression n
  | None => []
  end.

(** A non-interactive run with an AI provider writes AI text that nobody approved:
    the proposal is still pending and its finding still proposed, yet splicing the
    approved content of the graph puts the proposed text into the file. *)
Theorem unreviewed_ai_fix_is_spliced :
  history = [("", true, "shell: ls"); ("ai", false, "shell: rm -rf /"); ("", true, "shell: rm -rf /")] ∧
  length (fr_ai_proposals run.2) = 1 ∧
  length (query_violations (Some Proposed) None run.1.1) = 1 ∧
  pt_patched <$> splice_modifications run.1.1 {["site.yml" := file]} false
  = ["hosts: all" +:+ String LF ("apt: vim" +:+ String LF ("shell: rm -rf /" +:+ String LF ""))].
Proof. vm_compute. repeat split. Qed.
End Demo.

(** ** Witnesses *)

Definition sample_edits : list edit :=
  [MkEdit 1 1 "a: b" []; MkEdit 3 3 "c: d" []].

Lemma splice_matches_reference_witness :
  splice_lines Demo.file sample_edits
  = splice_ref 0 (file_lines Demo.file) (top_down sample_edits).
Proof.
  apply splice_matches_reference. split.
  - repeat (apply Forall_cons; split; [vm_compute; lia|]). apply Forall_nil_2.
  - constructor; [repeat constructor; vm_compute; lia|]. constructor; constructor.
Defined.

Lemma splice_writes_approved_witness :
  NoDup (pt_path <$> splice_modifications Demo.run.1.1 {["site.yml" := Demo.file]} false).
Proof. apply (splice_writes_approved (G := SG)). Defined.
