(* ===== verification/Review.v ===== *)
(** * Review gates of a fix session

    The part of [src/apme_engine/daemon/engine_server.py] that turns a remediation run
    into proposals, takes the user's decisions, applies them to the graph and to the
    working files, and reports the outcome: [_session_graph_remediate] from the run on,
    the two gates with the AI triage between them, and the helpers at the end of the file.

    The session fields the gates use are the record [review]; timers and uploads are in
    [Session] and [Upload].  Texts are byte strings.  The formatter, the normalization of
    displayed YAML, decoding with replacement and [Path.resolve] are arbitrary functions
    ([ReviewLib]).  Violations in a report stand for the messages made from them, a diff
    for the two texts it compares, and progress messages are left out except for their
    phase.  A handler returns the session and its trace: the events it yields and the
    files it writes below the temporary directory, which succeed unless the path is
    refused. *)

From stdpp Require Import base list gmap sets strings pretty.
From Stdlib Require Import Ascii String.
From S2P Require Import Prelude PyStr PyPath PyNum Yaml Violation NxGraph ContentNode ContentGraph GraphLaws GraphSerial Noqa Scanner Partition Remediation Splice.

#[local] Open Scope string_scope.
#[local] Notation length := List.length.

Class ReviewLib := {
  format_text : string → string → string;         (* file name, text *)
  normalize_proposal_yaml : string → string;
  decode_replace : string → string;
  fs_resolve : string → string;
}.

(** ** Paths *)

(** The root and the names of a [PurePosixPath]. *)
Definition path_parts (p : string) : string * list string :=
  let '(root, rest) := splitroot p in
  (root, filter (λ n, n ≠ "" ∧ n ≠ ".") (split_on SEP rest)).

Fixpoint strip_prefix (pre l : list string) : option (list string) :=
  match pre, l with
  | [], _ => Some l
  | x :: pre', y :: l' => if decide (x = y) then strip_prefix pre' l' else None
  | _ :: _, [] => None
  end.

(** [str(Path(p).relative_to(base))]; [None] is the [ValueError]. *)
Definition relative_to (p base : string) : option string :=
  let '(root, names) := path_parts p in
  let '(broot, bnames) := path_parts base in
  if decide (root = broot) then
    (λ rest, match rest with [] => "." | _ => sjoin "/" rest end) <$> strip_prefix bnames names
  else None.

Definition is_absolute (p : string) : bool := startswith p "/".

(** [Path(p).name] *)
Definition path_name (p : string) : string := default "" (last (path_parts p).2).

(** [dir / p] *)
Definition path_join (dir p : string) : string := if is_absolute p then p else dir +:+ "/" +:+ p.

(** ** Proposals *)

Record udiff := MkDiff { df_from : string; df_to : string; df_before : string; df_after : string }.

Record Proposal := MkProposal {
  pr_id : string;
  pr_file : string;
  pr_rule_id : string;
  pr_line_start : Z;
  pr_line_end : Z;
  pr_before : string;
  pr_after : string;
  pr_diff : option udiff;
  pr_confidence : string;
  pr_explanation : string;
  pr_tier : Z;
  pr_status : string;
  pr_suggestion : string;
  pr_source : string;
  pr_path : string;
  pr_node_type : string;
}.

(** [f"{n:04d}"] *)
Definition pad4 (n : nat) : string :=
  let s := pretty n in
  foldr (λ _ acc, "0" +:+ acc) s (seq 0 (4 - String.length s)).

Definition T1 : string := "t1-".
Definition AI : string := "ai-".
Definition G2T1 : string := "g2-t1-".
Definition AID : string := "ai-declined-".

Section Proposals.
Context `{ReviewLib}.

(** [_build_tier1_proposals], with the id prefix and tier that Gate 2 assigns. *)
Definition tier1_to_proposal (prefix : string) (tier : Z) (idx : nat) (t : Tier1NodeProposal) : Proposal :=
  let rule_id := match tp_rule_ids t with [] => "deterministic" | l => sjoin "," l end in
  let before := normalize_proposal_yaml (tp_before t) in
  let after := normalize_proposal_yaml (tp_after t) in
  MkProposal (prefix +:+ pad4 idx) (tp_file t) rule_id (tp_line_start t) (tp_line_end t) before after
    (Some (MkDiff ("a/" +:+ tp_file t) ("b/" +:+ tp_file t +:+ " (Tier 1)") before after)) "1.0"
    (match tp_summaries t with
     | [] => "Deterministic fix for " +:+ rule_id
     | l => sjoin (String LF "") (filter (λ s, s ≠ "") l)
     end)
    tier "proposed" "" "deterministic" (tp_node_id t) (node_type_value (tp_node_type t)).

Definition build_tier1_proposals (l : list Tier1NodeProposal) : list Proposal :=
  imap (tier1_to_proposal T1 1) l.

(** [_build_graph_proposals] *)
Definition ai_to_proposal (idx : nat) (a : AINodeProposal) : Proposal :=
  let before := normalize_proposal_yaml (ap_before a) in
  let after := normalize_proposal_yaml (ap_after a) in
  MkProposal (AI +:+ pad4 idx) (ap_file a)
    (match ap_rule_ids a with [] => "ai-fix" | l => sjoin "," l end)
    (ap_line_start a) (ap_line_end a) before after
    (Some (MkDiff ("a/" +:+ ap_file a) ("b/" +:+ ap_file a +:+ " (AI proposed)") before after))
    (ap_confidence a) (ap_explanation a) 2 "proposed" "" "ai" (ap_node_id a)
    (node_type_value (ap_node_type a)).

Definition build_graph_proposals (l : list AINodeProposal) : list Proposal := imap ai_to_proposal l.
End Proposals.

(** [{r.strip() for r in rule_id.split(",") if r.strip()}] *)
Definition rules_of (rule_id : string) : list string :=
  filter (λ r, r ≠ "") (strip <$> split_on "," rule_id).

(** The key of a row in Gate 2. *)
Definition row_key (p : Proposal) : string :=
  if decide (strip (pr_path p) = "") then pr_id p else strip (pr_path p).

(** A Tier-1 row on a node that already has one. *)
Definition merge_row (existing tier1 : Proposal) : Proposal :=
  let merged := sort_by String.leb
    (elements (list_to_set (rules_of (pr_rule_id existing) ++ rules_of (pr_rule_id tier1)) : gset string)) in
  MkProposal (pr_id existing) (pr_file existing)
    (match merged with [] => pr_rule_id existing | _ => sjoin "," merged end)
    (pr_line_start existing) (pr_line_end existing) (pr_before existing) (pr_after tier1) (pr_diff tier1)
    (pr_confidence existing)
    (sjoin (String LF "")
       ((if decide (pr_explanation tier1 = "") then []
         else ["[tier-1/deterministic] " +:+ pr_explanation tier1])
        ++ (if decide (pr_explanation existing = "") then []
            else ["[tier-2/ai] " +:+ pr_explanation existing]))%list)
    (pr_tier existing) (pr_status existing) (pr_suggestion existing) (pr_source existing)
    (pr_path existing) (pr_node_type existing).

Definition add_tier1_row (d : list (string * Proposal)) (t : Proposal) : list (string * Proposal) :=
  match dget (row_key t) d with
  | Some existing => dset (row_key t) (merge_row existing t) d
  | None => dset (row_key t) t d
  end.

(** [_consolidate_gate2_proposals] *)
Definition consolidate_gate2_proposals (ai tier1 : list Proposal) : list Proposal :=
  (foldl add_tier1_row (foldl (λ d p, dset (row_key p) p d) [] ai) tier1).*2.

(** [int(str(raw_line))] of a violation, 0 when there is none. *)
Definition declined_line (v : ViolationDict) : Z :=
  match dget "line" v with
  | None | Some VNone => 0
  | Some (VInts l) => default 0%Z (head l)
  | Some x => default 0%Z (py_int (py_str x))
  end.

(** [rc.value if hasattr(rc, "value") else str(rc) if rc else ""] *)
Definition class_of (v : ViolationDict) : string := vget_or "remediation_class" v.

(** [_build_declined_proposals] *)
Fixpoint build_declined_proposals (remaining : list ViolationDict) (proposed : list (string * string))
    (idx : nat) : list Proposal :=
  match remaining with
  | [] => []
  | v :: rest =>
    if decide (class_of v = RemediationClass.AI_CANDIDATE
               ∧ (vget_str "rule_id" v, vget_str "file" v) ∉ proposed) then
      MkProposal (AID +:+ pad4 idx) (vget_str "file" v) (vget_str "rule_id" v) (declined_line v) 0 "" ""
        None "0.0" "AI could not generate a fix for this violation." 2 "declined" (vget_str "message" v)
        "ai" (vget_or "path" v) (vget_or "node_type" v)
      :: build_declined_proposals rest proposed (S idx)
    else build_declined_proposals rest proposed idx
  end.

(** The pairs of rule and file that the proposals cover. *)
Definition proposed_rule_files (ps : list Proposal) : list (string * string) :=
  ps ≫= λ p, (λ r, (r, pr_file p)) <$> rules_of (pr_rule_id p).

(** ** The session *)

Definition AWAITING_APPROVAL : Z := 1.
Definition PROCESSING : Z := 2.
Definition COMPLETE : Z := 3.
Definition AWAITING_AI_TRIAGE : Z := 4.

(** A fixed violation with its [co_fixes]. *)
Definition fixed_violation : Type := ViolationDict * list string.

Record FixReport := MkReport {
  rp_passes : nat;
  rp_fixed : nat;
  rp_remaining_ai : nat;
  rp_remaining_manual : nat;
  rp_oscillation : bool;
  rp_remaining : list ViolationDict;
  rp_fixed_violations : list fixed_violation;
}.

Definition empty_report : FixReport := MkReport 0 0 0 0 false [] [].

(** What is remembered of a decision. *)
Record decision := MkDecision {
  dc_id : string; dc_rule_id : string; dc_file : string; dc_tier : Z; dc_confidence : string;
  dc_source : option string;
}.

Definition decision_of (source : option string) (pid : string) (p : Proposal) : decision :=
  MkDecision pid (pr_rule_id p) (pr_file p) (pr_tier p) (pr_confidence p) source.

Record options := MkOptions { op_enable_ai : bool; op_interactive : bool; op_assess_pause : bool }.

Definition no_options : options := MkOptions false false false.

Record gate := MkGate {
  gt_status : Z;
  gt_tier : Z;                     (* current_tier *)
  gt_tier1 : bool;                 (* awaiting_tier1_gate *)
  gt_assess : bool;                (* awaiting_assess *)
  gt_triage : bool;                (* awaiting_ai_triage *)
  gt_targets : option (list (string * list string));   (* ai_escalate_targets *)
  gt_candidates : list ViolationDict;                  (* ai_triage_candidates *)
  gt_findings : list ViolationDict;                    (* assess_findings *)
}.

Record book := MkBook {
  bk_proposals : list (string * Proposal);
  bk_declined : list (string * Proposal);              (* review_declined_proposals *)
  bk_ai : list AINodeProposal;
  bk_tier1 : list Tier1NodeProposal;
  bk_approved_ids : gset string;
  bk_approved : list decision;
  bk_rejected : list (string * decision);
}.

Record files := MkFiles {
  fl_original : list (string * string);
  fl_working : list (string * string);
  fl_graph_originals : gmap string string;
  fl_pre_gate2 : list (string * string);
  fl_temp_dir : option string;
}.

Record account := MkAccount {
  ac_report : option FixReport;
  ac_remaining_ai : list ViolationDict;
  ac_remaining_manual : list ViolationDict;
  ac_dep_health : list ViolationDict;
}.

Section Session.
Context `{ReviewLib} `{YamlLib} {G : Type} `{NxLaws ContentNode EdgeAttrs G} {RS : Type}.
Implicit Types (g : ContentGraph G).

(** The persisted [GraphRemediationEngine], without its graph. *)
Record engine := MkEngine {
  en_registry : TransformRegistry;
  en_rules : list (GraphRule G RS);
  en_max_passes : nat;
  en_max_ai_attempts : nat;
  en_ai_error : bool;
}.

Record review := MkReview {
  rv_options : options;
  rv_gate : gate;
  rv_book : book;
  rv_files : files;
  rv_account : account;
  rv_graph : option (ContentGraph G);
  rv_engine : option engine;
}.

Definition on_gate (f : gate → gate) (s : review) : review :=
  MkReview (rv_options s) (f (rv_gate s)) (rv_book s) (rv_files s) (rv_account s) (rv_graph s) (rv_engine s).
Definition on_book (f : book → book) (s : review) : review :=
  MkReview (rv_options s) (rv_gate s) (f (rv_book s)) (rv_files s) (rv_account s) (rv_graph s) (rv_engine s).
Definition on_files (f : files → files) (s : review) : review :=
  MkReview (rv_options s) (rv_gate s) (rv_book s) (f (rv_files s)) (rv_account s) (rv_graph s) (rv_engine s).
Definition on_account (f : account → account) (s : review) : review :=
  MkReview (rv_options s) (rv_gate s) (rv_book s) (rv_files s) (f (rv_account s)) (rv_graph s) (rv_engine s).
Definition set_graph (g : ContentGraph G) (s : review) : review :=
  MkReview (rv_options s) (rv_gate s) (rv_book s) (rv_files s) (rv_account s) (Some g) (rv_engine s).
Definition set_engine (e : engine) (s : review) : review :=
  MkReview (rv_options s) (rv_gate s) (rv_book s) (rv_files s) (rv_account s) (rv_graph s) (Some e).

Definition set_status (z : Z) : review → review :=
  on_gate (λ t, MkGate z (gt_tier t) (gt_tier1 t) (gt_assess t) (gt_triage t) (gt_targets t)
    (gt_candidates t) (gt_findings t)).
Definition set_tier (z : Z) : review → review :=
  on_gate (λ t, MkGate (gt_status t) z (gt_tier1 t) (gt_assess t) (gt_triage t) (gt_targets t)
    (gt_candidates t) (gt_findings t)).
Definition set_tier1_gate (b : bool) : review → review :=
  on_gate (λ t, MkGate (gt_status t) (gt_tier t) b (gt_assess t) (gt_triage t) (gt_targets t)
    (gt_candidates t) (gt_findings t)).
Definition set_assess (b : bool) : review → review :=
  on_gate (λ t, MkGate (gt_status t) (gt_tier t) (gt_tier1 t) b (gt_triage t) (gt_targets t)
    (gt_candidates t) (gt_findings t)).
Definition set_findings (l : list ViolationDict) : review → review :=
  on_gate (λ t, MkGate (gt_status t) (gt_tier t) (gt_tier1 t) (gt_assess t) (gt_triage t) (gt_targets t)
    (gt_candidates t) l).
Definition set_triage (b : bool) (targets : option (list (string * list string))) : review → review :=
  on_gate (λ t, MkGate (gt_status t) (gt_tier t) (gt_tier1 t) (gt_assess t) b targets
    (gt_candidates t) (gt_findings t)).
Definition set_candidates (l : list ViolationDict) : review → review :=
  on_gate (λ t, MkGate (gt_status t) (gt_tier t) (gt_tier1 t) (gt_assess t) (gt_triage t) (gt_targets t)
    l (gt_findings t)).

Definition set_proposals (l : list (string * Proposal)) : review → review :=
  on_book (λ b, MkBook l (bk_declined b) (bk_ai b) (bk_tier1 b) (bk_approved_ids b) (bk_approved b)
    (bk_rejected b)).
Definition set_declined (l : list (string * Proposal)) : review → review :=
  on_book (λ b, MkBook (bk_proposals b) l (bk_ai b) (bk_tier1 b) (bk_approved_ids b) (bk_approved b)
    (bk_rejected b)).
Definition set_raw (ai : list AINodeProposal) (t1 : list Tier1NodeProposal) : review → review :=
  on_book (λ b, MkBook (bk_proposals b) (bk_declined b) ai t1 (bk_approved_ids b) (bk_approved b)
    (bk_rejected b)).

Definition set_working (w : list (string * string)) : review → review :=
  on_files (λ f, MkFiles (fl_original f) w (fl_graph_originals f) (fl_pre_gate2 f) (fl_temp_dir f)).
Definition set_pre_gate2 (w : list (string * string)) : review → review :=
  on_files (λ f, MkFiles (fl_original f) (fl_working f) (fl_graph_originals f) w (fl_temp_dir f)).
Definition set_originals (o : gmap string string) : review → review :=
  on_files (λ f, MkFiles (fl_original f) (fl_working f) o (fl_pre_gate2 f) (fl_temp_dir f)).

Definition working (s : review) : list (string * string) := fl_working (rv_files s).
Definition proposals (s : review) : list (string * Proposal) := bk_proposals (rv_book s).
Definition status_of (s : review) : Z := gt_status (rv_gate s).

(** ** Trace *)

Inductive event :=
| Progress (phase : string)
| Tier1Complete (patches : list FilePatch) (report : FixReport)
| FindingsReady (vs : list ViolationDict) (status : Z)
| ProposalsReady (ps : list Proposal) (tier status : Z)
| AiTriageReady (candidates : list ViolationDict) (status : Z)
| ApprovalAck (applied : nat) (status : Z)
| SessionResult (patches : list (string * (string * string))) (report : FixReport)
    (remaining : list ViolationDict)
| SessionError (code : string).

Inductive action := Emit (e : event) | Write (path text : string) | Raise.

Definition raises (l : list action) : bool := existsb (λ a, match a with Raise => true | _ => false end) l.

(** ** Files *)

(** [_working_files_key] *)
Definition working_files_key (temp_dir : option string) (path : string) : string :=
  match temp_dir with
  | None => path
  | Some t =>
    match relative_to path t with
    | Some r => r
    | None => default path (relative_to (fs_resolve path) (fs_resolve t))
    end
  end.

(** [_write_patches_to_temp_dir]: the writes, and [Raise] at the first path refused. *)
Fixpoint write_patches_to_temp_dir (temp_dir : string) (patches : list FilePatch) : list action :=
  match patches with
  | [] => []
  | p :: rest =>
    let root := fs_resolve temp_dir in
    if negb (is_absolute (pt_path p)) && bool_decide (".." ∈ (path_parts (pt_path p)).2) then [Raise]
    else
      let path := fs_resolve (path_join root (pt_path p)) in
      match relative_to path root with
      | None => [Raise]
      | Some _ => Write path (pt_patched p) :: write_patches_to_temp_dir temp_dir rest
      end
  end.

(** [_write_patches_to_session] *)
Definition write_patches_to_session (patches : list FilePatch) (s : review) : review :=
  set_working (foldl (λ w p, dset (working_files_key (fl_temp_dir (rv_files s)) (pt_path p)) (pt_patched p) w)
    (working s) patches) s.

(** [_restore_pre_gate2_files] *)
Definition restore_pre_gate2_files (s : review) : review * list FilePatch :=
  match fl_pre_gate2 (rv_files s) with
  | [] => (s, [])
  | snapshot =>
    (set_working snapshot s, (λ f, MkPatch f.1 "" (decode_replace f.2) []) <$> snapshot)
  end.

(** [splice_modifications] followed by the formatter. *)
Definition format_patch (p : FilePatch) : FilePatch :=
  MkPatch (pt_path p) (pt_original p) (format_text (path_name (pt_path p)) (pt_patched p)) (pt_rules p).

Definition spliced g (originals : gmap string string) : list FilePatch :=
  format_patch <$> splice_modifications g originals false.

(** ** Violations *)

(** [_enrich_violations_from_graph], without the fixed part. *)
Definition enrich_one g (v : ViolationDict) : ViolationDict :=
  if decide (v_path v = "") then v
  else
    match get_node g (v_path v) with
    | None => v
    | Some n =>
      let v := dset "node_type" (VStr (node_type_value (node_type n))) v in
      match nd_progression n with
      | [] => v
      | first :: _ =>
        dset "node_line_start" (VInt (m_line_start (nd_meta n)))
          (dset "original_yaml" (VStr (normalize_proposal_yaml (ns_yaml first))) v)
      end
    end.

Definition co_fixes (rule : string) (n : ContentNode) : list string :=
  sort_by String.leb ((λ r, (vr_key r).2) <$>
    filter (λ r, vr_status r = Fixed ∧ (vr_key r).2 ≠ rule) (nd_ledger n).*2).

Definition enrich_fixed_one g (v : ViolationDict) : fixed_violation :=
  match (if decide (v_path v = "") then None else get_node g (v_path v)) with
  | Some n =>
    match nd_progression n with
    | [] => (enrich_one g v, [])
    | first :: _ =>
      (dset "fixed_yaml" (VStr (normalize_proposal_yaml
         (ns_yaml (default (default first (last (nd_progression n))) (last_approved (nd_progression n))))))
         (enrich_one g v),
       co_fixes (vget_str "rule_id" v) n)
    end
  | None => (v, [])
  end.

(** [_filter_violations_by_escalate_targets] *)
Definition allowed_by (targets : list (string * list string)) (v : ViolationDict) : bool :=
  existsb (λ t, bool_decide (vget_or "path" v = t.1)
      && (bool_decide (t.2 = [])
          || bool_decide (normalize_rule_id (vget_or "rule_id" v) ∈ normalize_rule_id <$> t.2)))
    targets.

Definition filter_by_targets (vs : list ViolationDict) (targets : option (list (string * list string)))
    : list ViolationDict :=
  match targets with
  | None => vs
  | Some ts => filter (λ v, allowed_by ts v = true) vs
  end.

(** The open findings, classified. *)
Definition open_classified g : list ViolationDict :=
  add_classification_to_violations (query_violations (Some Open) None g).

(** [_collect_ai_triage_candidates] *)
Definition triage_candidate g (v : ViolationDict) : option ViolationDict :=
  let path := strip (vget_or "path" v) in
  if decide (class_of v = RemediationClass.AI_CANDIDATE ∧ path ≠ "") then
    match get_node g path with
    | Some n =>
      if decide (nd_yaml n = "") then Some v
      else Some (dset "node_line_start" (VInt (m_line_start (nd_meta n)))
                  (dset "original_yaml" (VStr (normalize_proposal_yaml (nd_yaml n))) v))
    | None => Some v
    end
  else None.

Definition collect_ai_triage_candidates (s : review) : list ViolationDict :=
  match rv_graph s with
  | None => []
  | Some g => omap (λ v, triage_candidate g (enrich_one g v)) (open_classified g)
  end.

(** [_decline_skipped_ai_escalation] *)
Definition escalation_key (v : ViolationDict) : ViolationKey :=
  (vget_or "path" v, normalize_rule_id (vget_or "rule_id" v)).

Definition skipped_candidates g (targets : list (string * list string)) : list ViolationDict :=
  let vs := open_classified g in
  let allowed := escalation_key <$> filter (λ v, allowed_by targets v = true) vs in
  filter (λ v, class_of v = RemediationClass.AI_CANDIDATE ∧ escalation_key v ∉ allowed) vs.

Definition decline_skipped_ai_escalation (s : review) : review :=
  match gt_targets (rv_gate s), rv_graph s with
  | Some ts, Some g => set_graph (decline_open_violations (skipped_candidates g ts) g).1 s
  | _, _ => s
  end.

(** ** Result *)

(** The files that changed. *)
Definition changed_files (s : review) : list (string * (string * string)) :=
  omap (λ f, let original := default "" (dget f.1 (fl_original (rv_files s))) in
    if decide (f.2 = original) then None else Some (f.1, (original, f.2))) (working s).

(** [_session_serialize_result] *)
Definition serialize_result (s : review) : list action :=
  [Emit (SessionResult (changed_files s) (default empty_report (ac_report (rv_account s)))
     (ac_remaining_ai (rv_account s) ++ ac_remaining_manual (rv_account s))%list)].

(** ** Approval *)

Definition record_rejected (pid : string) (p : Proposal) (b : book) : book :=
  MkBook (bk_proposals b) (bk_declined b) (bk_ai b) (bk_tier1 b) (bk_approved_ids b) (bk_approved b)
    (match dget pid (bk_rejected b) with
     | Some _ => bk_rejected b
     | None => dset pid (decision_of None pid p) (bk_rejected b)
     end).

Definition pop_proposal (pid : string) (b : book) : book :=
  MkBook (dpop pid (bk_proposals b)) (bk_declined b) (bk_ai b) (bk_tier1 b) (bk_approved_ids b)
    (bk_approved b) (bk_rejected b).

Definition record_approved (source : option string) (pid : string) (p : Proposal) (b : book) : book :=
  MkBook (bk_proposals b) (bk_declined b) (bk_ai b) (bk_tier1 b) ({[pid]} ∪ bk_approved_ids b)
    (bk_approved b ++ [decision_of source pid p])%list (bk_rejected b).

(** The fallback from proposal ids to node ids. *)
Definition proposal_node_map (b : book) : list (string * string) :=
  let m := foldl (λ m p, dset p.1 p.2 m) [] (imap (λ i a, (AI +:+ pad4 i, ap_node_id a)) (bk_ai b)) in
  foldl (λ m p, dset p.1.2 p.2 (dset p.1.1 p.2 m)) m
    (imap (λ i t, ((T1 +:+ pad4 i, G2T1 +:+ pad4 i), tp_node_id t)) (bk_tier1 b)).

Definition target_node (m : list (string * string)) (e : string * Proposal) : string :=
  if decide (strip (pr_path e.2) = "") then default "" (dget e.1 m) else strip (pr_path e.2).

(** The state of [_apply_graph_approvals]. *)
Record decisions := MkDecisions {
  ds_graph : ContentGraph G;
  ds_book : book;
  ds_applied : nat;
  ds_rejected : gset string;
  ds_approved : gset string;
}.

Definition decide_one (m : list (string * string)) (approved_ids : gset string) (d : decisions)
    (e : string * Proposal) : decisions :=
  let nid := target_node m e in
  if decide (nid = "") then d
  else if decide (e.1 ∈ approved_ids) then
    MkDecisions (approve_node nid (ds_graph d)).1
      (pop_proposal e.1 (record_approved (Some (pr_source e.2)) e.1 e.2 (ds_book d))) (S (ds_applied d)) (ds_rejected d)
      ({[nid]} ∪ ds_approved d)
  else
    MkDecisions (reject_node nid (ds_graph d)).1
      (pop_proposal e.1 (record_rejected e.1 e.2 (ds_book d))) (ds_applied d)
      ({[nid]} ∪ ds_rejected d) (ds_approved d).

(** A snapshot of a transform that nobody approved. *)
Definition staged (s : NodeState) : bool :=
  negb (ns_approved s) && bool_decide (ns_source s ∈ ["ai"; "deterministic"]).

(** One node of the sweep after the decisions. *)
Definition sweep_one (approved : gset string) (gr : ContentGraph G * gset string) (k : string)
    : ContentGraph G * gset string :=
  match get_node gr.1 k with
  | None => gr
  | Some n =>
    if decide (node_id n ∈ approved) then gr
    else if existsb staged (nd_progression n) then
      ((reject_node (node_id n) gr.1).1, {[node_id n]} ∪ gr.2)
    else gr
  end.

Definition sweep (approved : gset string) g (rejected : gset string) : ContentGraph G * gset string :=
  foldl (sweep_one approved) (g, rejected) (nx_nodes (cg_g g)).*1.

(** [_reject_unapproved_graph_progress] *)
Definition reject_unapproved_graph_progress g : ContentGraph G * gset string := sweep ∅ g ∅.

(** [_apply_graph_approvals]: the session, the proposals applied, the nodes rejected and
    approved, the patches. *)
Definition apply_graph_approvals (s : review) g (approved_ids : gset string)
    : review * (nat * gset string * gset string * list FilePatch) :=
  let d := foldl (decide_one (proposal_node_map (rv_book s)) approved_ids)
             (MkDecisions g (rv_book s) 0 ∅ ∅) (proposals s) in
  let '(g, rejected) := sweep (ds_approved d) (ds_graph d) (ds_rejected d) in
  let s := set_graph g (on_book (λ _, ds_book d) s) in
  let '(s, restored) := restore_pre_gate2_files s in
  let patches := spliced g (fl_graph_originals (rv_files s)) in
  let s := write_patches_to_session patches s in
  let key := working_files_key (fl_temp_dir (rv_files s)) in
  let patches :=
    match restored with
    | [] => patches
    | _ => (foldl (λ m p, dset (key (pt_path p)) p m) [] (restored ++ patches)).*2
    end in
  (s, (ds_applied d, rejected, ds_approved d, patches)).

(** The ledger at the end of a gate. *)
Definition settle_one (approved : gset string) g (k : string) : ContentGraph G :=
  match get_node g k with
  | None => g
  | Some n =>
    if decide (node_id n ∈ approved) then (approve_proposed (node_id n) g).1
    else (decline_proposed (node_id n) g).1
  end.

Definition settle (approved : gset string) g : ContentGraph G :=
  foldl (settle_one approved) g (nx_nodes (cg_g g)).*1.

Definition set_class (c : string) (v : ViolationDict) : ViolationDict :=
  dset "remediation_class" (VStr c) v.

(** The findings that are left, and those that are fixed. *)
Definition remaining_findings g (dep : list ViolationDict) : list ViolationDict :=
  ((enrich_one g ∘ set_class RemediationClass.MANUAL_REVIEW <$>
     query_violations (Some Open) None g ++ query_violations (Some Declined) None g
       ++ query_violations (Some AiAbstained) None g) ++ dep)%list.

Definition fixed_findings g : list fixed_violation :=
  enrich_fixed_one g ∘ set_class RemediationClass.AUTO_FIXABLE <$> query_violations (Some Fixed) None g.

(** [_reconcile_after_approval] *)
Definition reconcile_after_approval (approved : gset string) g (s : review) : review :=
  let g := settle approved g in
  let remaining := remaining_findings g (ac_dep_health (rv_account s)) in
  let ai := filter (λ v, class_of v = RemediationClass.AI_CANDIDATE) remaining in
  let manual := filter (λ v, class_of v ≠ RemediationClass.AI_CANDIDATE) remaining in
  let old := default empty_report (ac_report (rv_account s)) in
  let fixed := fixed_findings g in
  on_account (λ a, MkAccount
    (Some (MkReport (rp_passes old) (length fixed) (length ai) (length manual) (rp_oscillation old)
       (ai ++ manual)%list fixed)) ai manual (ac_dep_health a)) (set_graph g s).

(** One approved id of [_apply_text_approvals]. *)
Definition text_one (acc : review * nat) (pid : string) : review * nat :=
  let '(s, applied) := acc in
  match dget pid (proposals s) with
  | None => (s, applied)
  | Some p =>
    match replace_first (pr_before p) (pr_after p) (decode_replace (default "" (dget (pr_file p) (working s)))) with
    | None => (s, applied)
    | Some text =>
      (on_book (λ b, pop_proposal pid (record_approved None pid p b))
         (set_working (dset (pr_file p) text (working s)) s), S applied)
    end
  end.

(** Every pending proposal counts as rejected. *)
Definition reject_pending (s : review) : review :=
  on_book (λ b, foldl (λ b e, pop_proposal e.1 (record_rejected e.1 e.2 b)) b (proposals s)) s.

(** [_apply_text_approvals]; a set is iterated in the order of [elements]. *)
Definition apply_text_approvals (s : review) (approved_ids : gset string) : review * nat :=
  let '(s, applied) := foldl text_one (s, 0) (elements approved_ids) in (reject_pending s, applied).

Definition graph_proposal_id (pid : string) : bool :=
  startswith pid AI || startswith pid T1 || startswith pid G2T1.

(** [_session_apply_approved] *)
Definition session_apply_approved (s : review) (approved_ids : gset string) (finalize : bool)
    : review * nat * option (list FilePatch) :=
  if decide (approved_ids = ∅ ∧ proposals s = []) then
    let s := set_declined [] s in
    let s := if finalize then set_status COMPLETE s else s in
    (set_tier1_gate false s, 0, None)
  else
    let '(s, applied, patches) :=
      match rv_graph s with
      | Some g =>
        if existsb (λ e, graph_proposal_id e.1) (proposals s) then
          let '(s, (applied, _, approved, patches)) := apply_graph_approvals s g approved_ids in
          let s := match rv_graph s with
                   | Some g => reconcile_after_approval approved g s
                   | None => s
                   end in
          (s, applied, Some patches)
        else let '(s, applied) := apply_text_approvals s approved_ids in (s, applied, None)
      | None => let '(s, applied) := apply_text_approvals s approved_ids in (s, applied, None)
      end in
    let s := set_declined [] (set_tier1_gate false s) in
    (set_status (if finalize then COMPLETE else PROCESSING) s, applied, patches).

(** ** Handlers *)

(** [_session_enter_ai_phase] *)
Definition session_enter_ai_phase (s : review) : review * list action :=
  match collect_ai_triage_candidates s with
  | [] => let s := set_status COMPLETE s in (s, serialize_result s)
  | cands =>
    let s := set_status AWAITING_AI_TRIAGE (set_triage true None (set_candidates cands s)) in
    (s, [Emit (AiTriageReady cands (status_of s))])
  end.

(** [_session_handle_approval] *)
Definition session_handle_approval (s : review) (approved_ids : gset string) : review * list action :=
  let was_tier1_gate := gt_tier1 (rv_gate s) in
  let run_ai_gate := was_tier1_gate && op_enable_ai (rv_options s) in
  let '(s, applied, patches) := session_apply_approved s approved_ids (negb run_ai_gate) in
  let writes :=
    match fl_temp_dir (rv_files s), patches with
    | Some t, Some ps => write_patches_to_temp_dir t ps
    | _, _ => []
    end in
  if raises writes then (s, writes)
  else
    let head := (writes ++ (if was_tier1_gate then [Emit (Progress "graph-tier1")] else [])
                 ++ [Emit (ApprovalAck applied (status_of s))])%list in
    if run_ai_gate then
      let '(s, tail) := session_enter_ai_phase s in (s, head ++ tail)%list
    else if decide (status_of s = COMPLETE) then (s, head ++ serialize_result s)%list
    else (s, head).

(** [_session_begin_remediate] *)
Definition session_begin_remediate (s : review) : review * list action :=
  if negb (gt_assess (rv_gate s)) then (s, [])
  else
    let s := set_assess false s in
    if gt_tier1 (rv_gate s) && negb (bool_decide (proposals s = [])) then
      let s := set_status AWAITING_APPROVAL s in
      (s, [Emit (ProposalsReady (proposals s).*2 1 (status_of s))])
    else
      match filter (λ pid, startswith pid T1 = true) (proposals s).*1 with
      | [] =>
        if op_enable_ai (rv_options s) then session_enter_ai_phase s
        else let s := set_status COMPLETE s in (s, serialize_result s)
      | ids => session_handle_approval (set_tier1_gate true s) (list_to_set ids)
      end.

(** How the remediation task of a gate ended. *)
Inductive ai_run :=
| RunRefused                                    (* BudgetConfigError *)
| RunStopped (g : ContentGraph G) (code : string)    (* deadline or stall; the graph as it was left *)
| RunDone (ev : env (G := G)).

Definition gate2_config (e : engine) : config (G := G) (RS := RS) :=
  MkConfig (en_registry e) (en_rules e) (en_max_passes e) (en_max_ai_attempts e) true false true.

(** The report of Gate 2 before the decisions; the dependency findings are shared with the
    list that is classified and enriched. *)
Definition gate2_report (r : GraphFixReport) g (s : review) : review :=
  let dep := add_classification_to_violations (ac_dep_health (rv_account s)) in
  let remaining := (add_classification_to_violations (fr_remaining r) ++ dep)%list in
  let counts := count_by_remediation_class remaining in
  let fixed := enrich_fixed_one g <$> query_violations (Some Fixed) None g in
  let old := default empty_report (ac_report (rv_account s)) in
  on_account (λ a, MkAccount
    (Some (MkReport (rp_passes old + fr_passes r) (length fixed)
       (default 0 (dget RemediationClass.AI_CANDIDATE counts))
       (default 0 (dget RemediationClass.MANUAL_REVIEW counts))
       (rp_oscillation old || fr_oscillation r) (enrich_one g <$> remaining) fixed))
    (enrich_one g <$> remaining) (ac_remaining_manual a) (enrich_one g <$> dep)) s.

(** The rows of Gate 2: the proposed ones and the declined ones. *)
Definition gate2_rows (r : GraphFixReport) (remaining : list ViolationDict) : list Proposal * list Proposal :=
  let proposed := consolidate_gate2_proposals (build_graph_proposals (fr_ai_proposals r))
                    (imap (tier1_to_proposal G2T1 2) (fr_tier1_proposals r)) in
  (proposed, build_declined_proposals remaining (proposed_rule_files proposed) (length proposed)).

(** The end of [_session_run_ai_gate], after the run. *)
Definition gate2_finish (g : ContentGraph G) (r : GraphFixReport) (s : review) : review * list action :=
  let s := gate2_report r g s in
  let '(proposed, declined) := gate2_rows r (ac_remaining_ai (rv_account s)) in
  match (proposed ++ declined)%list with
  | [] =>
    let g := (reject_unapproved_graph_progress g).1 in
    let patches := spliced g (fl_graph_originals (rv_files s)) in
    let s := write_patches_to_session patches (set_graph g s) in
    let writes :=
      match fl_temp_dir (rv_files s), patches with
      | Some t, _ :: _ => write_patches_to_temp_dir t patches
      | _, _ => []
      end in
    if raises writes then (s, writes)
    else let s := set_status COMPLETE s in (s, writes ++ serialize_result s)%list
  | rows =>
    let s := set_proposals (foldl (λ d p, dset (pr_id p) p d) (proposals s) proposed) s in
    let s := set_declined (foldl (λ d p, dset (pr_id p) p d) [] declined) s in
    let s := set_status AWAITING_APPROVAL (set_raw (fr_ai_proposals r) (fr_tier1_proposals r) s) in
    (s, [Emit (ProposalsReady rows 2 (status_of s))])
  end.

(** [_session_run_ai_gate] *)
Definition session_run_ai_gate (run : ai_run) (s : review) : review * list action :=
  match rv_engine s, rv_graph s with
  | Some e, Some g =>
    let s := set_tier 2 (set_status PROCESSING s) in
    let s := reject_pending (set_pre_gate2 (working s) s) in
    let open := filter_by_targets (query_violations (Some Open) None g) (gt_targets (rv_gate s)) in
    let started := Emit (Progress "graph-ai") in
    if match gt_targets (rv_gate s) with Some _ => bool_decide (open = []) | None => false end then
      let s := set_status COMPLETE s in (s, started :: serialize_result s)
    else
      match run with
      | RunRefused => (s, [started; Emit (SessionError "invalid_budget_config")])
      | RunStopped g' code => (set_graph g' s, [started; Emit (SessionError code)])
      | RunDone ev =>
        let '(g', l, r) := remediate (gate2_config e) ev g open (en_ai_error e) in
        let e' := MkEngine (en_registry e) (en_rules e) (en_max_passes e) (en_max_ai_attempts e)
                    (ls_ai_error l) in
        let '(s, tail) := gate2_finish g' r (set_engine e' (set_graph g' s)) in
        (s, started :: tail)
      end
  | _, _ => let s := set_status COMPLETE s in (s, serialize_result s)
  end.

(** [_session_handle_ai_escalate] *)
Definition session_handle_ai_escalate (run : ai_run) (targets : list (string * list string)) (s : review)
    : review * list action :=
  if negb (gt_triage (rv_gate s)) then (s, [])
  else
    let s := decline_skipped_ai_escalation (set_triage false (Some targets) s) in
    match targets with
    | [] => let s := set_status COMPLETE s in (s, serialize_result s)
    | _ => session_run_ai_gate run s
    end.

(** The commands of [FixSession] that concern the gates. *)
Inductive command :=
| CmdApprove (ids : list string)
| CmdBeginRemediate
| CmdAiEscalate (targets : list (string * list string)).

Definition handle_command (run : ai_run) (c : command) (s : review) : review * list action :=
  match c with
  | CmdApprove ids => session_handle_approval s (list_to_set ids)
  | CmdBeginRemediate => session_begin_remediate s
  | CmdAiEscalate ts =>
    session_handle_ai_escalate run ((λ t, (t.1, filter (λ r, r ≠ "") t.2)) <$> ts) s
  end.

(** [_session_replay_state]; [tier1_done] holds the patches of the first run when it made
    patches or format changes. *)
Definition session_replay_state (tier1_done : option (list FilePatch)) (s : review) : list action :=
  let t := rv_gate s in
  ((match tier1_done with
    | Some ps => [Emit (Tier1Complete ps (default empty_report (ac_report (rv_account s))))]
    | None => []
    end)
   ++ (if gt_assess t && negb (bool_decide (gt_findings t = [])) then
         [Emit (FindingsReady (gt_findings t) AWAITING_APPROVAL)]
       else if gt_triage t && negb (bool_decide (gt_candidates t = [])) then
         [Emit (AiTriageReady (gt_candidates t) AWAITING_AI_TRIAGE)]
       else if negb (bool_decide (proposals s = [] ∧ bk_declined (rv_book s) = []))
               && bool_decide (gt_status t = AWAITING_APPROVAL) && negb (gt_assess t) && negb (gt_triage t) then
         [Emit (ProposalsReady ((proposals s).*2 ++ (bk_declined (rv_book s)).*2) (gt_tier t) AWAITING_APPROVAL)]
       else [])
   ++ (if decide (gt_status t = COMPLETE) then serialize_result s else []))%list.

(** ** The run before the gates *)

Definition dep_source (v : ViolationDict) : bool :=
  bool_decide (vget_str "source" v ∈ ["collection_health"; "dep_audit"]).

(** The end of [_session_graph_remediate], after the run. *)
Definition gate1_finish (temp_dir : string) (g : ContentGraph G) (r : GraphFixReport)
    (dep : list ViolationDict) (s : review) : review * list action :=
  let o := rv_options s in
  let defer := op_interactive o || op_assess_pause o in
  let t1 := if defer then fr_tier1_proposals r else [] in
  let patches := match t1 with [] => spliced g (fl_graph_originals (rv_files s)) | _ => [] end in
  let writes := (λ p, Write (path_join temp_dir (pt_path p)) (pt_patched p)) <$> patches in
  let remaining := add_classification_to_violations (fr_remaining r ++ dep)%list in
  let counts := count_by_remediation_class remaining in
  let enriched := enrich_one g <$> remaining in
  let fixed := enrich_fixed_one g ∘ set_class RemediationClass.AUTO_FIXABLE <$> fr_fixed_violations r in
  let report := MkReport (fr_passes r) (fr_fixed r) (default 0 (dget RemediationClass.AI_CANDIDATE counts))
    (default 0 (dget RemediationClass.MANUAL_REVIEW counts)) (fr_oscillation r) enriched fixed in
  let s := set_working (foldl (λ w p, dset (working_files_key (Some temp_dir) (pt_path p)) (pt_patched p) w)
             (working s) patches) (set_graph g s) in
  let s := on_account (λ a, MkAccount (Some report) enriched []
             (filter (λ v, dep_source v = true) remaining)) s in
  let head := (writes ++ [Emit (Progress "graph-tier1"); Emit (Tier1Complete patches report)])%list in
  let s := match t1 with
           | [] => s
           | _ =>
             let s := set_proposals (foldl (λ d p, dset (pr_id p) p d) (proposals s) (build_tier1_proposals t1)) s in
             let s := set_tier 1 (set_raw (bk_ai (rv_book s)) t1 s) in
             if op_interactive o then set_tier1_gate true s else s
           end in
  if op_assess_pause o then
    let findings := filter (λ v, dep_source v = false) (enriched ++ fixed.*1)%list in
    let s := set_findings findings (set_status AWAITING_APPROVAL (set_assess true s)) in
    (s, head ++ [Emit (FindingsReady findings (status_of s))])%list
  else if op_interactive o && negb (bool_decide (t1 = [])) then
    let s := set_status AWAITING_APPROVAL s in
    (s, head ++ [Emit (ProposalsReady (proposals s).*2 1 (status_of s))])%list
  else if op_interactive o && op_enable_ai o then
    let '(s, tail) := session_enter_ai_phase s in (s, head ++ tail)%list
  else
    let proposed := build_graph_proposals (fr_ai_proposals r) in
    match proposed with
    | [] => let s := set_status COMPLETE s in (s, head ++ serialize_result s)%list
    | _ =>
      let declined := build_declined_proposals enriched (proposed_rule_files proposed) (length proposed) in
      let s := set_proposals (foldl (λ d p, dset (pr_id p) p d) (proposals s) proposed) s in
      let s := set_declined (foldl (λ d p, dset (pr_id p) p d) [] declined) s in
      let s := set_status AWAITING_APPROVAL (set_tier 2 (set_raw (fr_ai_proposals r) (bk_tier1 (rv_book s)) s)) in
      (s, head ++ [Emit (ProposalsReady (proposed ++ declined) (gt_tier (rv_gate s)) (status_of s))])%list
    end.

(** The configuration of the first run. *)
Definition gate1_config (e : engine) (o : options) : config (G := G) (RS := RS) :=
  let defer := op_interactive o || op_assess_pause o in
  MkConfig (en_registry e) (en_rules e) (en_max_passes e) (en_max_ai_attempts e) defer
    (defer && op_enable_ai o) false.

(** [_session_graph_remediate], on the graph and the violations of the first scan. *)
Definition session_graph_remediate (temp_dir : string) (e : engine) (ev : env) (g : ContentGraph G)
    (originals : gmap string string) (initial : list ViolationDict) (s : review) : review * list action :=
  let dep := filter (λ v, dep_source v = true) initial in
  let project := filter (λ v, dep_source v = false) initial in
  let '(g', l, r) := remediate (gate1_config e (rv_options s)) ev g project (en_ai_error e) in
  let e' := MkEngine (en_registry e) (en_rules e) (en_max_passes e) (en_max_ai_attempts e) (ls_ai_error l) in
  gate1_finish temp_dir g' r dep (set_originals originals (set_engine e' s)).
End Session.
