(* ===== verification/ReviewProps.v ===== *)
(** * What the review gates guarantee

    Properties of [Review]: what becomes of every node when a gate is decided, where the
    delivered texts come from, how the findings are counted afterwards, and what the AI
    triage excludes.  The last part shows two runs in which a gate does not keep what it
    promises. *)

From stdpp Require Import base list gmap sets strings relations.
From Stdlib Require Import Ascii String.
From S2P Require Import Prelude PyStr PyPath Yaml Violation NxGraph ContentNode ContentGraph GraphLaws GraphProps GraphSerial Sample Noqa Scanner Partition Remediation RemediationProps Splice Review.

#[local] Open Scope string_scope.
#[local] Notation length := List.length.

Section Props.
Context `{ReviewLib} `{YamlLib} {G : Type} `{NxLaws ContentNode EdgeAttrs G} {RS : Type}.
Implicit Types (g : ContentGraph G) (n : ContentNode) (rv : review (G := G) (RS := RS)).

(** ** One node under the operations of a gate *)

Definition transit (from to : status) (clear : bool) n : ContentNode :=
  nd_set_ledger (ledger_map (transition_record from to clear) (nd_ledger n)) n.

Definition node_approve n : ContentNode := transit PendingReview Fixed false (approve_node_entries None n).

Definition node_reject n : ContentNode :=
  match first_unapproved (nd_progression n) with
  | None => transit PendingReview Declined true n
  | Some i => rollback i (transit PendingReview Declined true n)
  end.

Lemma transition_get k from to clear g j :
  get_node (transition_violations k from to clear g).1 j
  = (if decide (j = k) then transit from to clear else Datatypes.id) <$> get_node g j.
Proof.
  unfold transition_violations, map_records. destruct (get_node g k) as [n|] eqn:Hk; simpl.
  - by rewrite get_node_upd.
  - case_decide; [by subst; rewrite Hk|by rewrite option_fmap_id].
Qed.

Lemma approve_node_get k g j :
  k ≠ "" → get_node (approve_node k g).1 j
  = (if decide (j = k) then node_approve else Datatypes.id) <$> get_node g j.
Proof.
  intros Hk. unfold approve_node, approve_pending. destruct k as [|c k0]; [done|].
  set (k := String c k0) in *. destruct (get_node g k) as [n|] eqn:Hn.
  - pose proof (transition_get k PendingReview Fixed false (upd k (approve_node_entries None) g) j) as Ht.
    unfold approve_pending_review. destruct (transition_violations _ _ _ _ _) as [g2 c2]. simpl in *.
    rewrite Ht, get_node_upd. destruct (get_node g j); [|done]. simpl. by case_decide.
  - pose proof (transition_get k PendingReview Fixed false g j) as Ht.
    unfold approve_pending_review. destruct (transition_violations _ _ _ _ _) as [g2 c2]. simpl in *.
    rewrite Ht. case_decide; [by subst; rewrite Hn|done].
Qed.

Lemma reject_node_get k g j :
  get_node (reject_node k g).1 j
  = (if decide (j = k) then node_reject else Datatypes.id) <$> get_node g j.
Proof.
  unfold reject_node. destruct (get_node g k) as [n|] eqn:Hn; simpl.
  - pose proof (transition_get k PendingReview Declined true g j) as Ht.
    unfold decline_pending_review. destruct (transition_violations _ _ _ _ _) as [g1 c1]. simpl in Ht.
    unfold node_reject. destruct (decide (j = k)) as [->|Hj].
    + rewrite Hn in *. simpl.
      destruct (first_unapproved (nd_progression n)); simpl; [rewrite get_node_upd_eq|]; by rewrite Ht.
    + destruct (first_unapproved (nd_progression n)); simpl; [rewrite get_node_upd_ne by done|]; by rewrite Ht.
  - case_decide; [by subst; rewrite Hn|by rewrite option_fmap_id].
Qed.

Lemma node_approve_spec n :
  nd_progression (node_approve n) = set_approved <$> nd_progression n ∧
  nd_yaml (node_approve n) = nd_yaml n ∧ node_frame n (node_approve n).
Proof.
  unfold node_approve, transit, node_frame. cbn [nd_set_ledger nd_progression nd_yaml nd_identity nd_meta nd_indent].
  destruct (approve_node_entries_frame None n) as (Hi & Hm & Hy & Hd & _).
  by rewrite approve_node_entries_progression, approve_all_entries.
Qed.

(** No snapshot of a transform is left undecided, given a baseline that is a scan. *)
Definition clean_baseline n : Prop := match nd_progression n with s :: _ => staged s = false | [] => True end.

Lemma node_reject_spec n :
  nd_progression (node_reject n) `prefix_of` nd_progression n ∧
  node_frame n (node_reject n) ∧
  (clean_baseline n → Forall (λ s, staged s = false) (nd_progression (node_reject n))) ∧
  (∀ i, first_unapproved (nd_progression n) = Some i →
     nd_yaml <$> Some (node_reject n) = ns_yaml <$> last (nd_progression (node_reject n))).
Proof.
  assert (∀ s, ns_approved s = true → staged s = false) as Hst by (intros s Ha; unfold staged; by rewrite Ha).
  unfold node_reject. destruct (first_unapproved (nd_progression n)) as [i|] eqn:Hi.
  - destruct (rollback_spec i (transit PendingReview Declined true n) Hi) as (s & Hl & Hp & _ & Hy & _ & Hid & Hm & Hd).
    rewrite Hp. split_and!; [|done..| |].
    + unfold kept_entries. destruct i; apply prefix_take.
    + intros Hc. destruct i as [|i].
      * unfold clean_baseline in Hc. cbn [kept_entries transit nd_set_ledger nd_progression].
        destruct (nd_progression n); [constructor|]. by repeat constructor.
      * eapply Forall_impl; [by apply (take_first_unapproved i)|]. auto.
    + intros i' _. rewrite Hl. simpl. by rewrite Hy.
  - split_and!; [done|done| |done]. intros _. apply Forall_forall. intros s Hs. apply Hst.
    destruct (ns_approved s) eqn:Ea; [done|]. exfalso. unfold first_unapproved in Hi.
    destruct (list_find _ _) as [[j s']|] eqn:Hf in Hi; [done|]. apply list_find_None in Hf.
    rewrite Forall_forall in Hf. by apply (Hf s Hs).
Qed.

(** ** Loops over the nodes *)

Lemma foldl_pointwise (f : ContentGraph G → string → ContentGraph G) (h : string → ContentNode → ContentNode) ks g :
  (∀ g k j, ids_consistent g →
     get_node (f g k) j = (if decide (j = k) then h k else Datatypes.id) <$> get_node g j) →
  (∀ k n, node_id (h k n) = node_id n) → ids_consistent g → NoDup ks →
  ids_consistent (foldl f g ks) ∧
  ∀ j, get_node (foldl f g ks) j = (if decide (j ∈ ks) then h j else Datatypes.id) <$> get_node g j.
Proof.
  intros Hf Hh. revert g. induction ks as [|k ks IH]; intros g Hg Hnd.
  - split; [done|]. intros j. by rewrite option_fmap_id.
  - apply NoDup_cons in Hnd as [Hk Hnd]. simpl.
    assert (ids_consistent (f g k)) as Hg'.
    { intros j n. rewrite Hf by done. intros (m & Hm & ->)%fmap_Some.
      case_decide; [rewrite Hh|]; by apply Hg. }
    destruct (IH (f g k) Hg' Hnd) as [Hc Hn]. split; [done|]. intros j. rewrite Hn, Hf by done.
    destruct (get_node g j) as [n|]; [|done]. simpl. f_equal.
    destruct (decide (j = k)) as [->|Hj].
    + by rewrite (decide_False (P := k ∈ ks)), (decide_True (P := k ∈ k :: ks)) by set_solver.
    + destruct (decide (j ∈ ks));
        [rewrite (decide_True (P := j ∈ k :: ks)) by set_solver|
         rewrite (decide_False (P := j ∈ k :: ks)) by set_solver]; done.
Qed.

(** The same over all nodes of the graph. *)
Lemma foldl_all_nodes (f : ContentGraph G → string → ContentGraph G) (h : string → ContentNode → ContentNode) g :
  (∀ g k j, ids_consistent g →
     get_node (f g k) j = (if decide (j = k) then h k else Datatypes.id) <$> get_node g j) →
  (∀ k n, node_id (h k n) = node_id n) → ids_consistent g →
  ids_consistent (foldl f g (nx_nodes (cg_g g)).*1) ∧
  ∀ j, get_node (foldl f g (nx_nodes (cg_g g)).*1) j = h j <$> get_node g j.
Proof.
  intros Hf Hh Hg. destruct (foldl_pointwise f h (nx_nodes (cg_g g)).*1 g Hf Hh Hg) as [Hc Hn].
  { apply nx_nodes_nodup. }
  split; [done|]. intros j. rewrite Hn. destruct (get_node g j) as [n|] eqn:Hj; [|done].
  by rewrite decide_True by (by eapply nx_payload_mem).
Qed.

(** *** The sweep *)

Definition sweep_node (approved : gset string) (k : string) n : ContentNode :=
  if decide (k ∈ approved) then n else if existsb staged (nd_progression n) then node_reject n else n.

Lemma node_reject_id n : node_id (node_reject n) = node_id n.
Proof. unfold node_id. by destruct (node_reject_spec n) as (_ & (-> & _) & _). Qed.

Lemma sweep_get approved g rejected :
  ids_consistent g →
  ids_consistent (sweep approved g rejected).1 ∧
  ∀ j, get_node (sweep approved g rejected).1 j = sweep_node approved j <$> get_node g j.
Proof.
  intros Hg. unfold sweep.
  assert (∀ ks gr, (foldl (sweep_one approved) gr ks).1
                   = foldl (λ g k, (sweep_one approved (g, ∅) k).1) gr.1 ks) as Hfst.
  { induction ks as [|k ks IH]; intros [g0 r0]; [done|]. cbn [foldl]. rewrite IH. f_equal.
    unfold sweep_one. simpl. by repeat case_match. }
  rewrite Hfst. apply foldl_all_nodes; [|intros k n; unfold sweep_node; by repeat case_match; rewrite ?node_reject_id|done].
  clear Hfst Hg rejected g. intros g k j Hg. unfold sweep_one. simpl. destruct (get_node g k) as [n|] eqn:Hn; simpl.
  - rewrite (Hg _ _ Hn). unfold sweep_node. destruct (decide (j = k)) as [->|Hj].
    + destruct (decide (k ∈ approved)); [simpl; by rewrite Hn|].
      destruct (existsb staged (nd_progression n)) eqn:Es; simpl;
        [rewrite reject_node_get, decide_True by done|]; rewrite Hn; simpl; by rewrite Es.
    + rewrite option_fmap_id. repeat case_match; try done. simpl.
      by rewrite reject_node_get, decide_False, option_fmap_id.
  - case_decide; [by subst; rewrite Hn|by rewrite option_fmap_id].
Qed.

(** *** The decisions *)

(** The proposals on a node. *)
Definition on_node (m : list (string * string)) (es : list (string * Proposal)) (k : string)
    : list (string * Proposal) := filter (λ e, target_node m e = k) es.

(** One decision on a node, and all of them in the order of the proposals. *)
Definition decide_node (ids : gset string) n (e : string * Proposal) : ContentNode :=
  if decide (e.1 ∈ ids) then node_approve n else node_reject n.

Definition decided (m : list (string * string)) (ids : gset string) (es : list (string * Proposal)) (k : string) n
    : ContentNode :=
  if decide (k = "") then n else foldl (decide_node ids) n (on_node m es k).

(** At most one proposal per node. *)
Definition one_per_node (m : list (string * string)) (es : list (string * Proposal)) : Prop :=
  ∀ k, k ≠ "" → (length (on_node m es k) ≤ 1)%nat.

Lemma decide_one_get m ids d e k :
  get_node (ds_graph (decide_one (G := G) m ids d e)) k
  = (if decide (k = "" ∨ target_node m e ≠ k) then Datatypes.id
     else if decide (e.1 ∈ ids) then node_approve else node_reject) <$> get_node (ds_graph d) k.
Proof.
  unfold decide_one. destruct (decide (target_node m e = "")) as [He|He].
  - rewrite decide_True by (destruct (decide (k = "")); [by left|right; congruence]). by rewrite option_fmap_id.
  - destruct (decide (e.1 ∈ ids)); simpl;
      [rewrite approve_node_get by done|rewrite reject_node_get];
      (destruct (decide (k = target_node m e)) as [->|Hk];
       [rewrite decide_False by tauto|rewrite decide_True by (right; congruence)]; done).
Qed.

Lemma decided_get m ids es d k :
  get_node (ds_graph (foldl (decide_one (G := G) m ids) d es)) k = decided m ids es k <$> get_node (ds_graph d) k.
Proof.
  revert d. induction es as [|e es IH]; intros d.
  - unfold decided. simpl. destruct (get_node _ k); simpl; [by case_decide|done].
  - cbn [foldl]. rewrite IH, decide_one_get. destruct (get_node (ds_graph d) k) as [n|]; [|done].
    simpl. f_equal. unfold decided. destruct (decide (k = "")) as [->|Hk]; [by rewrite decide_True by tauto|].
    unfold on_node. rewrite filter_cons. destruct (decide (target_node m e = k)) as [He|He].
    + rewrite decide_False by tauto. cbn [foldl]. unfold decide_node at 3. by case_decide.
    + by rewrite decide_True by tauto.
Qed.

Lemma decide_node_frame ids n e : node_frame n (decide_node ids n e).
Proof. unfold decide_node. case_decide; [apply node_approve_spec|apply node_reject_spec]. Qed.

Lemma decided_frame m ids es k n :
  node_id (decided m ids es k n) = node_id n ∧ nd_meta (decided m ids es k n) = nd_meta n.
Proof.
  unfold decided. case_decide; [done|]. generalize (on_node m es k). intros l. revert n.
  induction l as [|e l IH]; intros n; [done|]. cbn [foldl]. destruct (IH (decide_node ids n e)) as [-> ->].
  destruct (decide_node_frame ids n e) as (Hi & Hm & _). unfold node_id. by rewrite Hi, Hm.
Qed.

(** Once everything on a node is approved, later decisions leave its history alone. *)
Lemma node_reject_approved n :
  Forall (λ x, ns_approved x = true) (nd_progression n) →
  nd_progression (node_reject n) = nd_progression n ∧ nd_yaml (node_reject n) = nd_yaml n.
Proof.
  intros Hall. unfold node_reject. assert (first_unapproved (nd_progression n) = None) as ->; [|done].
  unfold first_unapproved. destruct (list_find _ _) as [[i x]|] eqn:Hf; [|done].
  apply list_find_Some in Hf as (Hx & Hno & _). rewrite Forall_lookup in Hall. specialize (Hall _ _ Hx). congruence.
Qed.

Lemma set_approved_all l : Forall (λ x, ns_approved x = true) (set_approved <$> l).
Proof. apply Forall_fmap, Forall_true. done. Qed.

Lemma set_approved_id l : Forall (λ x, ns_approved x = true) l → set_approved <$> l = l.
Proof.
  induction 1 as [|x l Hx Hl IH]; [done|]. csimpl. rewrite IH. f_equal. destruct x; simpl in *. by subst.
Qed.

Lemma approved_stays ids n es :
  Forall (λ x, ns_approved x = true) (nd_progression n) →
  nd_progression (foldl (decide_node ids) n es) = nd_progression n ∧
  nd_yaml (foldl (decide_node ids) n es) = nd_yaml n.
Proof.
  revert n. induction es as [|e es IH]; intros n Hall; [done|]. cbn [foldl].
  assert (nd_progression (decide_node ids n e) = nd_progression n ∧ nd_yaml (decide_node ids n e) = nd_yaml n) as [Hp Hy].
  { unfold decide_node. case_decide; [|by apply node_reject_approved].
    destruct (node_approve_spec n) as (-> & -> & _). by rewrite set_approved_id. }
  destruct (IH (decide_node ids n e)) as [-> ->]; [by rewrite Hp|done].
Qed.

(** After a first decline only a part of the history is left: one without undecided
    transforms, approved by a later approval or as it was. *)
Definition cut_back (approved : bool) (n n' : ContentNode) : Prop :=
  ∃ p, p `prefix_of` nd_progression n ∧
    (clean_baseline n → Forall (λ x, staged x = false) p) ∧
    (nd_progression n' = p ∨ approved = true ∧ nd_progression n' = set_approved <$> p).

Lemma cut_back_reject n : cut_back false n (node_reject n).
Proof. destruct (node_reject_spec n) as (Hp & _ & Hc & _). exists (nd_progression (node_reject n)). eauto. Qed.

Lemma clean_cut n n' p :
  clean_baseline n → Forall (λ x, staged x = false) p → nd_progression n' = p → clean_baseline n'.
Proof. intros _ Hp <-. unfold clean_baseline. destruct (nd_progression n'); [done|]. by apply Forall_cons in Hp as [? _]. Qed.

Lemma cut_back_trans a n n1 n2 : cut_back a n n1 → cut_back false n1 n2 → cut_back a n n2.
Proof.
  intros (p & Hp & Hc & Hn1) (q & Hq & Hcq & [Hn2|[? _]]); [|done]. destruct Hn1 as [Hn1|[Ha Hn1]].
  - rewrite Hn1 in Hq. exists q. split_and!; [by etrans| |by left].
    intros Hb. apply Hcq. by eapply clean_cut; [|by apply Hc|].
  - rewrite Hn1 in Hq. destruct Hq as [r Hr]. apply fmap_app_inv in Hr as (p1 & p2 & -> & -> & ->).
    exists p1. split_and!.
    + etrans; [|exact Hp]. by apply prefix_app_r.
    + intros Hb. by apply Hc, Forall_app in Hb as [? _].
    + by right.
Qed.

Lemma cut_back_decided ids n n1 es :
  cut_back false n n1 →
  cut_back (existsb (λ e, bool_decide (e.1 ∈ ids)) es) n (foldl (decide_node ids) n1 es).
Proof.
  revert n1. induction es as [|e es IH]; intros n1 Hcut; [done|]. cbn [foldl existsb]. unfold decide_node at 2.
  destruct (decide (e.1 ∈ ids)) as [He|He].
  - rewrite bool_decide_eq_true_2 by done. cbn [orb]. destruct (node_approve_spec n1) as (Hp1 & _).
    destruct (approved_stays ids (node_approve n1) es) as [Hp2 _]; [rewrite Hp1; apply set_approved_all|].
    destruct Hcut as (p & ? & ? & [Hn1|[? _]]); [|done]. exists p. split_and!; [done..|].
    right. split; [done|]. by rewrite Hp2, Hp1, Hn1.
  - rewrite bool_decide_eq_false_2 by done. cbn [orb]. apply IH.
    eapply cut_back_trans; [exact Hcut|apply cut_back_reject].
Qed.

Lemma elem_of_approved m ids es d k :
  k ∈ ds_approved (foldl (decide_one (G := G) m ids) d es) ↔
  k ∈ ds_approved d ∨ (k ≠ "" ∧ ∃ e, e ∈ es ∧ target_node m e = k ∧ e.1 ∈ ids).
Proof.
  revert d. induction es as [|e es IH]; intros d; cbn [foldl]; [set_solver|]. rewrite IH. unfold decide_one.
  destruct (decide (target_node m e = "")) as [He|He]; [|destruct (decide (e.1 ∈ ids))]; simpl; set_solver.
Qed.

(** A decided proposal leaves the book. *)
Lemma decided_leaves m ids es d e :
  e ∈ es → target_node m e ≠ "" →
  e.1 ∉ (bk_proposals (ds_book (foldl (decide_one (G := G) m ids) d es))).*1.
Proof.
  assert (∀ es d, (bk_proposals (ds_book (foldl (decide_one (G := G) m ids) d es))).*1
                  ⊆ (bk_proposals (ds_book d)).*1) as Hsub.
  { clear. induction es as [|e es IH]; intros d; cbn [foldl]; [done|]. etrans; [apply IH|].
    unfold decide_one. repeat case_decide; simpl; [done|..];
      (intros x (y & -> & [_ Hy]%list_elem_of_filter)%list_elem_of_fmap; set_solver). }
  intros Hin He. revert d Hin. induction es as [|e' es IH]; intros d Hin; [set_solver|].
  apply elem_of_cons in Hin as [<-|Hin]; [|by apply IH]. cbn [foldl]. intros Hx%Hsub.
  unfold decide_one in Hx. rewrite (decide_False (P := target_node m e = "")) in Hx by done.
  case_decide; simpl in Hx; apply list_elem_of_fmap in Hx as (y & Hy & [Hne _]%list_elem_of_filter); congruence.
Qed.

(** ** What becomes of a node *)

(** The graph after the decisions and the sweep. *)
Definition gated rv g (ids : gset string) : ContentGraph G :=
  let d := foldl (decide_one (proposal_node_map (rv_book rv)) ids)
             (MkDecisions g (rv_book rv) 0 ∅ ∅) (proposals rv) in
  (sweep (ds_approved d) (ds_graph d) (ds_rejected d)).1.

(** The user approved a proposal on the node. *)
Definition approved_by rv (ids : gset string) (k : string) : Prop :=
  k ≠ "" ∧ ∃ e, e ∈ proposals rv ∧ target_node (proposal_node_map (rv_book rv)) e = k ∧ e.1 ∈ ids.

Definition distinct_rows rv : Prop := one_per_node (proposal_node_map (rv_book rv)) (proposals rv).

Lemma sweep_node_spec approved k n :
  k ∉ approved →
  nd_progression (sweep_node approved k n) `prefix_of` nd_progression n ∧
  (clean_baseline n → Forall (λ x, staged x = false) (nd_progression (sweep_node approved k n))).
Proof.
  intros Hk. unfold sweep_node. rewrite decide_False by done.
  destruct (existsb staged (nd_progression n)) eqn:Es.
  - destruct (node_reject_spec n) as (? & _ & ? & _). done.
  - split; [done|]. intros _. apply Forall_forall. intros x Hx. destruct (staged x) eqn:Ex; [|done].
    rewrite <- Es. symmetry. apply existsb_exists. exists x. by rewrite <- list_elem_of_In.
Qed.

(** The graph of a gate, node by node. *)
Lemma gated_fmap rv g ids :
  ids_consistent g →
  ∃ A : gset string, (∀ k, k ∈ A ↔ approved_by rv ids k) ∧
    ∀ k, get_node (gated rv g ids) k
      = sweep_node A k ∘ decided (proposal_node_map (rv_book rv)) ids (proposals rv) k <$> get_node g k.
Proof.
  intros Hids. unfold gated. set (d := foldl _ _ _). exists (ds_approved d). split.
  - intros k. unfold d. rewrite elem_of_approved. simpl. unfold approved_by. set_solver.
  - assert (∀ j, get_node (ds_graph d) j
        = decided (proposal_node_map (rv_book rv)) ids (proposals rv) j <$> get_node g j) as Hd
      by (intros j; by apply decided_get).
    assert (ids_consistent (ds_graph d)) as Hc.
    { intros j x. rewrite Hd. intros (y & Hy & ->)%fmap_Some. rewrite (proj1 (decided_frame _ _ _ _ _)). by apply Hids. }
    intros k. rewrite (proj2 (sweep_get (ds_approved d) (ds_graph d) (ds_rejected d) Hc)), Hd.
    by rewrite option_fmap_compose.
Qed.

Lemma gated_from rv g ids k n' :
  ids_consistent g → get_node (gated rv g ids) k = Some n' →
  ∃ n, get_node g k = Some n ∧ nd_meta n' = nd_meta n.
Proof.
  intros Hids Hn'. destruct (gated_fmap rv g ids Hids) as (A & _ & Hg). rewrite Hg in Hn'.
  apply fmap_Some in Hn' as (n & Hn & ->). exists n. split; [done|]. simpl.
  destruct (decided_frame (proposal_node_map (rv_book rv)) ids (proposals rv) k n) as [_ <-].
  unfold sweep_node. repeat case_match; try done. apply node_reject_spec.
Qed.

(** What the first proposal on a node was answered with. *)
Definition first_decision rv (ids : gset string) (k : string) : option bool :=
  if decide (k = "") then None
  else (λ e, bool_decide (e.1 ∈ ids)) <$> head (on_node (proposal_node_map (rv_book rv)) (proposals rv) k).

Lemma some_approved rv ids k :
  k ≠ "" →
  existsb (λ e, bool_decide (e.1 ∈ ids)) (on_node (proposal_node_map (rv_book rv)) (proposals rv) k) = true ↔
  approved_by rv ids k.
Proof.
  intros Hk. rewrite existsb_exists. unfold approved_by, on_node. setoid_rewrite bool_decide_eq_true.
  setoid_rewrite <- list_elem_of_In. setoid_rewrite list_elem_of_filter. naive_solver.
Qed.

Lemma first_decision_approved rv ids k : first_decision rv ids k = Some true → approved_by rv ids k.
Proof.
  unfold first_decision. case_decide as Hk; [done|]. intros (e & He & Hid)%fmap_Some. rewrite <- some_approved by done.
  apply existsb_exists. exists e. split; [|done]. rewrite <- list_elem_of_In. by apply head_Some_elem_of.
Qed.

(** What becomes of a node in a gate. *)
Definition node_outcome (first : option bool) (approved : Prop) (n n' : ContentNode) : Prop :=
  match first with
  | Some true => nd_progression n' = set_approved <$> nd_progression n ∧ nd_yaml n' = nd_yaml n
  | _ => ∃ p, p `prefix_of` nd_progression n ∧ (clean_baseline n → Forall (λ x, staged x = false) p) ∧
      (nd_progression n' = p ∨ approved ∧ nd_progression n' = set_approved <$> p)
  end.

Lemma sweep_cut_back A k n n1 : k ∉ A → cut_back false n n1 → cut_back false n (sweep_node A k n1).
Proof.
  intros HA Hcut. eapply cut_back_trans; [exact Hcut|]. destruct (sweep_node_spec A k n1 HA) as [Hp Hc].
  exists (nd_progression (sweep_node A k n1)). eauto.
Qed.

Lemma cut_back_outcome rv ids k first n n' b :
  first ≠ Some true → (b = true → approved_by rv ids k) → cut_back b n n' →
  node_outcome first (approved_by rv ids k) n n'.
Proof.
  intros Hf Hb (p & Hp & Hc & Hn). unfold node_outcome.
  assert (∃ p, p `prefix_of` nd_progression n ∧ (clean_baseline n → Forall (λ x, staged x = false) p) ∧
    (nd_progression n' = p ∨ approved_by rv ids k ∧ nd_progression n' = set_approved <$> p)) as Hgoal
    by (exists p; naive_solver).
  destruct first as [[]|]; done.
Qed.

Lemma gated_get rv g ids k n :
  ids_consistent g → get_node g k = Some n →
  ∃ n', get_node (gated rv g ids) k = Some n' ∧
    node_outcome (first_decision rv ids k) (approved_by rv ids k) n n'.
Proof.
  intros Hids Hn. destruct (gated_fmap rv g ids Hids) as (A & Ha & Hg). specialize (Ha k).
  rewrite Hg, Hn. eexists. split; [reflexivity|]. cbn [compose]. unfold decided.
  pose proof (some_approved rv ids k) as Hsome. unfold first_decision.
  set (l := on_node (proposal_node_map (rv_book rv)) (proposals rv) k) in *.
  assert (Hnone : ¬ approved_by rv ids k → node_outcome None (approved_by rv ids k) n (sweep_node A k n)).
  { intros Hno. eapply (cut_back_outcome _ _ _ _ _ _ false); [done..|].
    destruct (sweep_node_spec A k n) as [Hp Hc]; [by rewrite Ha|]. exists (nd_progression (sweep_node A k n)). eauto. }
  destruct (decide (k = "")) as [->|Hk]; [apply Hnone; by intros [? _]|]. specialize (Hsome Hk).
  destruct l as [|e l]; [apply Hnone; by rewrite <- Hsome|]. cbn [foldl head]. unfold decide_node at 2. csimpl.
  cbn [existsb] in Hsome. destruct (decide (e.1 ∈ ids)) as [He|He].
  - rewrite bool_decide_eq_true_2 in * by done. unfold sweep_node.
    rewrite (decide_True (P := k ∈ A)) by (apply Ha, Hsome; done).
    destruct (node_approve_spec n) as (Hp & Hy & _).
    destruct (approved_stays ids (node_approve n) l) as [Hp' Hy']; [rewrite Hp; apply set_approved_all|].
    simpl. by rewrite Hp', Hy', Hp, Hy.
  - rewrite bool_decide_eq_false_2 in * by done. cbn [orb] in Hsome.
    pose proof (cut_back_decided ids n (node_reject n) l (cut_back_reject n)) as Hcut.
    apply (cut_back_outcome rv ids k (Some false) n _ (existsb (λ e, bool_decide (e.1 ∈ ids)) l)); [done|by apply Hsome|].
    destruct (decide (k ∈ A)) as [HA|HA]; [unfold sweep_node; by rewrite decide_True|].
    rewrite Ha, <- Hsome in HA. apply not_true_is_false in HA as Hb. rewrite Hb in *. apply sweep_cut_back; [|done].
    rewrite Ha, <- Hsome. done.
Qed.


(** Where a snapshot after the gate comes from. *)
Lemma outcome_snapshot rv ids k n n' x :
  node_outcome (first_decision rv ids k) (approved_by rv ids k) n n' → x ∈ nd_progression n' →
  ∃ y, y ∈ nd_progression n ∧ ns_yaml y = ns_yaml x ∧ (y = x ∨ approved_by rv ids k).
Proof.
  intros Ho Hx. assert (Hap : ∀ l : list NodeState, x ∈ set_approved <$> l → ∃ y, y ∈ l ∧ ns_yaml y = ns_yaml x).
  { intros l (y & -> & Hy)%list_elem_of_fmap. by exists y. }
  destruct (first_decision rv ids k) as [[]|] eqn:Ef; simpl in Ho.
  { destruct Ho as [Hp _]. rewrite Hp in Hx. destruct (Hap _ Hx) as (y & ? & ?). exists y.
    split_and!; [done..|]. right. by apply first_decision_approved. }
  all: destruct Ho as (p & [r Hr] & _ & [Hp|[Ha Hp]]); rewrite Hp in Hx; rewrite Hr; setoid_rewrite elem_of_app;
    [exists x; tauto|destruct (Hap _ Hx) as (y & ? & ?); exists y; tauto].
Qed.

Lemma apply_graph_approvals_graph rv g ids :
  rv_graph (apply_graph_approvals rv g ids).1 = Some (gated rv g ids) ∧
  rv_book (apply_graph_approvals rv g ids).1
    = ds_book (foldl (decide_one (proposal_node_map (rv_book rv)) ids)
                 (MkDecisions g (rv_book rv) 0 ∅ ∅) (proposals rv)).
Proof.
  unfold apply_graph_approvals, gated. set (d := foldl _ _ _).
  destruct (sweep (ds_approved d) (ds_graph d) (ds_rejected d)) as [g' rj].
  unfold restore_pre_gate2_files. by destruct (fl_pre_gate2 _).
Qed.

(** The files a gate starts from. *)
Definition base_files rv : list (string * string) :=
  match fl_pre_gate2 (rv_files rv) with [] => working rv | w => w end.

Lemma apply_graph_approvals_working rv g ids :
  working (apply_graph_approvals rv g ids).1
  = foldl (λ w p, dset (working_files_key (fl_temp_dir (rv_files rv)) (pt_path p)) (pt_patched p) w)
      (base_files rv) (spliced (gated rv g ids) (fl_graph_originals (rv_files rv))).
Proof.
  unfold apply_graph_approvals, gated, base_files. set (d := foldl _ _ _).
  destruct (sweep (ds_approved d) (ds_graph d) (ds_rejected d)) as [g' rj].
  unfold restore_pre_gate2_files. by destruct (fl_pre_gate2 (rv_files rv)) eqn:E; simpl; rewrite ?E.
Qed.

Lemma dget_written (key : string → string) ps w f text :
  dget f (foldl (λ w p, dset (key (pt_path p)) (pt_patched p) w) w ps) = Some text →
  dget f w = Some text ∨ ∃ p, p ∈ ps ∧ f = key (pt_path p) ∧ text = pt_patched p.
Proof.
  revert w. induction ps as [|p ps IH]; intros w; cbn [foldl]; [by left|].
  intros [Hw|(q & Hq & Hf)]%IH; [|right; exists q; set_solver]. rewrite dget_dset in Hw.
  case_decide; [|by left]. right. exists p. set_solver.
Qed.

(** ** The ledger *)

Definition settle_node (A : gset string) (k : string) n : ContentNode :=
  if decide (k ∈ A) then transit Proposed Fixed false n else transit Proposed Declined true n.

Lemma settle_get A g :
  ids_consistent g → ∀ j, get_node (settle A g) j = settle_node A j <$> get_node g j.
Proof.
  intros Hg. unfold settle. apply foldl_all_nodes; [|intros k n; unfold settle_node; by case_decide|done].
  clear Hg g. intros g k j Hg. unfold settle_one. destruct (get_node g k) as [n|] eqn:Hn; simpl.
  - rewrite (Hg _ _ Hn). unfold settle_node, approve_proposed, decline_proposed.
    destruct (decide (k ∈ A)); rewrite transition_get; destruct (decide (j = k)) as [->|]; try done;
      by rewrite ?decide_True, ?decide_False by done.
  - case_decide; [by subst; rewrite Hn|by rewrite option_fmap_id].
Qed.

Lemma settle_no_proposed A g :
  ids_consistent g → Forall (λ r, vr_status r ≠ Proposed) (all_records (settle A g)).
Proof.
  intros Hg. apply Forall_forall. intros r Hr. unfold all_records in Hr.
  apply list_elem_of_bind in Hr as (n' & Hr & Hn'). apply elem_of_nodes in Hn' as [k Hk].
  rewrite settle_get in Hk by done. apply fmap_Some in Hk as (n & _ & ->).
  assert (∀ to clear, to ≠ Proposed → r ∈ (nd_ledger (transit Proposed to clear n)).*2 → vr_status r ≠ Proposed) as Ht.
  { intros to clear Hto. unfold transit, ledger_map. cbn [nd_set_ledger nd_ledger].
    intros (x & -> & (y & -> & _)%list_elem_of_fmap)%list_elem_of_fmap. simpl. unfold transition_record.
    case_decide; [by destruct clear|done]. }
  unfold settle_node in Hr. by case_decide; apply Ht in Hr.
Qed.

Lemma length_query st g :
  length (query_violations (Some st) None g) = length (filter (λ r, vr_status r = st) (all_records g)).
Proof.
  unfold query_violations. rewrite length_fmap. f_equal. apply list_filter_iff. intros r.
  unfold query_match. by rewrite andb_true_r, bool_decide_eq_true.
Qed.

Lemma count_statuses (l : list ViolationRecord) :
  Forall (λ r, vr_status r ≠ Proposed) l →
  (length (filter (λ r, vr_status r = Fixed) l)
   + (length (filter (λ r, vr_status r = Open) l) + (length (filter (λ r, vr_status r = Declined) l)
      + length (filter (λ r, vr_status r = AiAbstained) l)))
   = length (filter (λ r, vr_status r ≠ PendingReview) l))%nat.
Proof.
  induction 1 as [|r l Hr _ IH]; [done|]. rewrite !filter_cons.
  destruct (vr_status r) eqn:E; repeat (case_decide; try done); simpl; try lia; congruence.
Qed.

Lemma length_filter_neg {A} (P : A → Prop) `{∀ x, Decision (P x)} (l : list A) :
  (length (filter P l) + length (filter (λ x, ¬ P x) l) = length l)%nat.
Proof. rewrite <- length_app. apply Permutation_length. symmetry. apply filter_split. Qed.

(** *** Declined candidates *)

(** The status of a finding. *)
Definition finding g (k : string) (key : ViolationKey) : option status :=
  vr_status <$> (get_node g k ≫= λ n, dget key (nd_ledger n)).

Lemma decline_one_finding v g c k key :
  finding (decline_open_one (g, c) v).1 k key
  = if decide (v_path v = k ∧ violation_key v = key ∧ finding g k key = Some Open) then Some Declined
    else finding g k key.
Proof.
  unfold finding, decline_open_one. destruct (get_node g (v_path v)) as [n|] eqn:Hn; simpl.
  - destruct (dget (violation_key v) (nd_ledger n)) as [r|] eqn:Hr; simpl.
    + destruct (decide (vr_status r = Open)) as [Ho|Ho]; simpl.
      * rewrite get_node_upd. destruct (decide (k = v_path v)) as [->|Hk].
        -- rewrite Hn. simpl. rewrite dget_dset. destruct (decide (key = violation_key v)) as [->|Hne].
           ++ simpl. rewrite decide_True; [done|]. split_and!; try done. rewrite Hr. simpl. by rewrite Ho.
           ++ rewrite decide_False; [done|]. intros (_ & ? & _). congruence.
        -- rewrite option_fmap_id, decide_False; [done|]. intros (? & _). congruence.
      * rewrite decide_False; [done|]. intros (<- & <- & Hx). rewrite Hn in Hx. simpl in Hx. rewrite Hr in Hx.
        simpl in Hx. congruence.
    + rewrite decide_False; [done|]. intros (<- & <- & Hx). rewrite Hn in Hx. simpl in Hx. by rewrite Hr in Hx.
  - rewrite decide_False; [done|]. intros (<- & _ & Hx). by rewrite Hn in Hx.
Qed.

Lemma decline_all_finding vs g k key :
  finding g k key = Some Open ∨ finding g k key = Some Declined →
  (finding g k key = Some Declined ∨ ∃ v, v ∈ vs ∧ v_path v = k ∧ violation_key v = key) →
  finding (decline_open_violations vs g).1 k key = Some Declined.
Proof.
  unfold decline_open_violations. generalize 0 as c. revert g. induction vs as [|v vs IH]; intros g c Ho Hv.
  - simpl. destruct Hv as [?|(v & ? & _)]; [done|set_solver].
  - cbn [foldl]. pose proof (decline_one_finding v g c k key) as Hone.
    destruct (decline_open_one (g, c) v) as [g1 c1]. simpl in Hone. apply IH.
    + rewrite Hone. case_decide; [by right|done].
    + rewrite Hone. case_decide as Hd; [by left|]. destruct Hv as [?|(w & Hw & Hp & Hk)]; [by left|].
      apply elem_of_cons in Hw as [->|Hw]; [|right; eauto]. left. destruct Ho as [Ho|]; [|done]. tauto.
Qed.

Lemma declined_finding_steps A g g' k key :
  graph_wf g → graph_steps A g g' → finding g k key = Some Declined → finding g' k key = Some Declined.
Proof.
  unfold finding. intros Hwf Hs Hf. apply fmap_Some in Hf as (r & Hr & Hst).
  apply bind_Some in Hr as (n & Hn & Hr).
  destruct (graph_steps_finding _ _ _ _ _ _ _ Hwf Hs Hn Hr) as (n' & r' & -> & Hr' & Hstep). simpl.
  rewrite Hr'. simpl. f_equal. rewrite <- Hst in Hstep. by apply sticky_stuck in Hstep; [|left].
Qed.

Lemma sweep_steps approved g rejected : graph_steps (λ _, True) g (sweep approved g rejected).1.
Proof.
  unfold sweep. change g with (g, rejected).1 at 1. apply (foldl_steps_fst (λ _, True) (sweep_one approved)).
  intros gr k _. unfold sweep_one. repeat case_match; try reflexivity. by apply reject_node_steps.
Qed.

Lemma gate2_finish_steps g r rv :
  rv_graph rv = Some g →
  ∃ g', rv_graph (gate2_finish g r rv).1 = Some g' ∧ graph_steps (λ _, True) g g'.
Proof.
  intros Hg. unfold gate2_finish. destruct (gate2_rows _ _) as [proposed declined].
  destruct (proposed ++ declined)%list.
  - exists (reject_unapproved_graph_progress g).1. split; [by repeat case_match|apply sweep_steps].
  - exists g. by split.
Qed.

(** ** The rows of Gate 2 *)

(** A dictionary of rows by their key. *)
Definition keyed_rows (d : list (string * Proposal)) : Prop := NoDup d.*1 ∧ Forall (λ e, row_key e.2 = e.1) d.

Lemma keyed_dset k p d : row_key p = k → keyed_rows d → keyed_rows (dset k p d).
Proof.
  intros Hk [Hnd Hf]. split; [by apply dset_NoDup|]. rewrite Forall_forall in *. intros [j q] Hin.
  apply elem_of_dset in Hin as [[-> ->]|Hin]; [done|by apply (Hf (j, q))].
Qed.

Lemma merge_row_key a b : row_key (merge_row a b) = row_key a.
Proof. done. Qed.

Lemma add_row_keyed d t : keyed_rows d → keyed_rows (add_tier1_row d t).
Proof.
  intros Hd. unfold add_tier1_row. destruct (dget (row_key t) d) as [e|] eqn:E; [|by apply keyed_dset].
  apply keyed_dset; [|done]. rewrite merge_row_key. destruct Hd as [_ Hf]. rewrite Forall_forall in Hf.
  by apply (Hf (row_key t, e)), dget_Some_elem.
Qed.

Lemma consolidate_keyed ai t1 :
  keyed_rows (foldl add_tier1_row (foldl (λ d p, dset (row_key p) p d) [] ai) t1).
Proof.
  assert (keyed_rows (foldl (λ d p, dset (row_key p) p d) [] ai)) as Hd.
  { assert (keyed_rows []) as Hn by (split; [apply NoDup_nil_2|done]). revert Hn.
    generalize (@nil (string * Proposal)). induction ai as [|p ai IH]; intros d Hd; [done|]. cbn [foldl].
    by apply IH, keyed_dset. }
  revert Hd. generalize (foldl (λ d p, dset (row_key p) p d) [] ai) as d.
  induction t1 as [|t t1 IH]; intros d Hd; [done|]. cbn [foldl]. by apply IH, add_row_keyed.
Qed.

Lemma consolidate_NoDup ai t1 : NoDup (row_key <$> consolidate_gate2_proposals ai t1).
Proof.
  unfold consolidate_gate2_proposals. destruct (consolidate_keyed ai t1) as [Hnd Hf].
  rewrite <- list_fmap_compose. erewrite list_fmap_ext; [exact Hnd|]. intros i e He.
  rewrite Forall_forall in Hf. apply Hf. by eapply list_elem_of_lookup_2.
Qed.

(** Every row comes from a proposal on the same node. *)
Lemma consolidate_paths (P : string → Prop) ai t1 :
  Forall (λ p, P (pr_path p)) ai → Forall (λ p, P (pr_path p)) t1 →
  Forall (λ p, P (pr_path p)) (consolidate_gate2_proposals ai t1).
Proof.
  intros Ha Ht. unfold consolidate_gate2_proposals. rewrite Forall_fmap.
  assert (∀ k p (d : list (string * Proposal)), P (pr_path p) → Forall (λ e, P (pr_path e.2)) d →
            Forall (λ e, P (pr_path e.2)) (dset k p d)) as Hset.
  { intros k p d Hp Hd. induction Hd as [|[j q] d Hq Hd IH]; simpl; [by repeat constructor|].
    case_decide; constructor; try done. }
  assert (Forall (λ e, P (pr_path e.2)) (foldl (λ d p, dset (row_key p) p d) [] ai)) as Hd.
  { assert (Forall (λ e, P (pr_path e.2)) (@nil (string * Proposal))) as Hn by done. revert Hn.
    generalize (@nil (string * Proposal)). induction Ha as [|p ai Hp _ IH]; intros d Hd; [done|]. cbn [foldl].
    by apply IH, Hset. }
  revert Hd. generalize (foldl (λ d p, dset (row_key p) p d) [] ai) as d.
  induction Ht as [|t t1 Hp _ IH]; intros d Hd; [done|]. cbn [foldl]. apply IH. unfold add_tier1_row.
  destruct (dget (row_key t) d) as [e|] eqn:E; [|by apply Hset]. apply Hset; [|done].
  apply dget_Some_elem in E. rewrite Forall_forall in Hd. exact (Hd _ E).
Qed.

Lemma dset_values {V} k (v : V) (d : list (string * V)) : (dset k v d).*2 ⊆+ v :: d.*2.
Proof.
  induction d as [|[j w] d IH]; [done|]. simpl. case_decide; csimpl.
  - apply submseteq_skip. by apply submseteq_cons.
  - etrans; [apply submseteq_skip, IH|]. apply submseteq_swap.
Qed.

(** Storing rows by id keeps a selection of them. *)
Lemma stored_rows (ps : list Proposal) : (foldl (λ d p, dset (pr_id p) p d) [] ps).*2 ⊆+ ps.
Proof.
  assert (∀ d, (foldl (λ d p, dset (pr_id p) p d) d ps).*2 ⊆+ d.*2 ++ ps)%list as Hgen; [|apply (Hgen [])].
  induction ps as [|p ps IH]; intros d; cbn [foldl]; [by rewrite app_nil_r|]. etrans; [apply IH|].
  rewrite <- Permutation_middle, app_comm_cons. by apply submseteq_app; [apply dset_values|].
Qed.

Lemma submseteq_NoDup' {A} (l k : list A) : l ⊆+ k → NoDup k → NoDup l.
Proof. intros [k' ->]%submseteq_Permutation Hnd. by apply NoDup_app in Hnd as [? _]. Qed.

Lemma length_filter_NoDup {A} (f : A → string) k (l : list A) :
  NoDup (f <$> l) → (length (filter (λ x, f x = k) l) ≤ 1)%nat.
Proof.
  induction l as [|x l IH]; csimpl; [lia|]. intros [Hx Hnd]%NoDup_cons. rewrite filter_cons.
  case_decide as Hk; [|by apply IH]. simpl. assert (filter (λ x, f x = k) l = []) as ->; [|simpl; lia].
  apply list_nil_subseteq. intros y [Hy Hin]%list_elem_of_filter. exfalso. apply Hx. subst k. rewrite <- Hy.
  apply list_elem_of_fmap. eauto.
Qed.

(** ** Theorems *)

(** C1: A gate carries out the decisions exactly, on every node and for any number of
    proposals per node.  If the first proposal on the node was approved, every snapshot
    becomes approved and the text stays, whatever later proposals on it were answered with.
    Otherwise only a prefix of the history is left, in which, given a baseline that is not
    itself a transform, no transform is undecided; it stays as it was, or becomes approved
    if a later proposal on the node was approved.  Decided proposals leave the session. *)
Theorem gate_decisions_exact rv g ids :
  ids_consistent g →
  let rv' := (apply_graph_approvals rv g ids).1 in
  (∀ e, e ∈ proposals rv → target_node (proposal_node_map (rv_book rv)) e ≠ "" →
     e.1 ∉ (proposals rv').*1) ∧
  ∃ g', rv_graph rv' = Some g' ∧
    ∀ k n, get_node g k = Some n → ∃ n', get_node g' k = Some n' ∧
      match first_decision rv ids k with
      | Some true => nd_progression n' = set_approved <$> nd_progression n ∧ nd_yaml n' = nd_yaml n
      | _ => ∃ p, p `prefix_of` nd_progression n ∧ (clean_baseline n → Forall (λ x, staged x = false) p) ∧
          (nd_progression n' = p ∨ approved_by rv ids k ∧ nd_progression n' = set_approved <$> p)
      end.
Proof.
  intros Hids rv'. destruct (apply_graph_approvals_graph rv g ids) as [Hg Hb]. split.
  - intros e He Ht. unfold rv', proposals. rewrite Hb. by apply decided_leaves.
  - exists (gated rv g ids). split; [done|]. intros k n Hn. by apply gated_get.
Qed.

(** C2: Nothing is delivered that was not approved: after a gate every working file is the
    one the gate started from, or the formatted result of splicing into the scanned
    original only texts of snapshots that were approved before the gate or that belong to
    a node the user approved in it. *)
Theorem delivered_text_is_approved rv g ids f text :
  ids_consistent g →
  dget f (working (apply_graph_approvals rv g ids).1) = Some text →
  dget f (base_files rv) = Some text ∨
  ∃ p es, f = working_files_key (fl_temp_dir (rv_files rv)) (pt_path p) ∧
    text = format_text (path_name (pt_path p)) (sconcat (splice_lines (pt_original p) es)) ∧
    fl_graph_originals (rv_files rv) !! pt_path p = Some (pt_original p) ∧
    ∀ e, e ∈ es → ∃ k n x, get_node g k = Some n ∧ m_file_path (nd_meta n) = pt_path p ∧
      x ∈ nd_progression n ∧ ed_text e = ns_yaml x ∧ (ns_approved x = true ∨ approved_by rv ids k).
Proof.
  intros Hids Hf. rewrite apply_graph_approvals_working in Hf.
  apply (dget_written (working_files_key (fl_temp_dir (rv_files rv)))) in Hf as [Hf|(q & Hq & -> & ->)]; [by left|].
  right. unfold spliced in Hq. apply list_elem_of_fmap in Hq as (p & -> & Hp).
  apply patch_edits in Hp as (Ho & _ & es & Hpt & Hes). exists p, es. cbn [format_patch pt_path pt_patched].
  rewrite Hpt. split_and!; [done..|]. intros e He. destruct (Hes e He) as (n' & x & Hn' & Hm & Hx & Ha & He').
  apply elem_of_nodes in Hn' as [k Hk]. destruct (gated_from rv g ids k n' Hids Hk) as (n & Hn & Hmeta).
  destruct (gated_get rv g ids k n Hids Hn) as (n'' & Hk' & Ho'). rewrite Hk in Hk'. injection Hk' as <-.
  exists k, n. destruct (outcome_snapshot _ _ _ _ _ _ Ho' Hx) as (y & Hy & Ht & Hap).
  exists y. rewrite <- Hmeta, Ht. split_and!; try done. destruct Hap as [->|?]; [by left|by right].
Qed.

(** C6: The report after a gate is the ledger: no finding is still proposed; the fixed
    count is the number of fixed findings; and fixed and remaining together count every
    finding once, except those left waiting for a review, plus the dependency findings. *)
Theorem review_accounts_for_findings A g rv :
  ids_consistent g →
  let rv' := reconcile_after_approval A g rv in
  ∃ g' rep, rv_graph rv' = Some g' ∧ ac_report (rv_account rv') = Some rep ∧
    Forall (λ r, vr_status r ≠ Proposed) (all_records g') ∧
    rp_fixed rep = length (filter (λ r, vr_status r = Fixed) (all_records g')) ∧
    (rp_remaining_ai rep + rp_remaining_manual rep = length (rp_remaining rep))%nat ∧
    (rp_fixed rep + length (rp_remaining rep)
     = length (filter (λ r, vr_status r ≠ PendingReview) (all_records g'))
       + length (ac_dep_health (rv_account rv)))%nat.
Proof.
  intros Hg rv'. eexists _, _. split; [reflexivity|]. split; [reflexivity|].
  pose proof (settle_no_proposed A g Hg) as Hp.
  cbn [rp_fixed rp_remaining_ai rp_remaining_manual rp_remaining]. rewrite length_app.
  unfold fixed_findings. rewrite length_fmap, length_query. split_and!; [done..|].
  rewrite (length_filter_neg (λ v, class_of v = RemediationClass.AI_CANDIDATE)). unfold remaining_findings.
  rewrite length_app, length_fmap, !length_app, !length_query. pose proof (count_statuses _ Hp). lia.
Qed.

(** C5: Findings the user keeps from the AI stay declined: after an escalation every open
    AI candidate that is not on the allow-list is declined, and still is when the AI run of
    the gate has ended, whatever its rescans reported. *)
Theorem skipped_findings_stay_declined run targets rv g k key v :
  graph_wf g → gt_triage (rv_gate rv) = true → rv_graph rv = Some g →
  (∀ g' code, run ≠ RunStopped g' code) →
  v ∈ skipped_candidates g targets → v_path v = k → violation_key v = key → finding g k key = Some Open →
  ∃ g', rv_graph (session_handle_ai_escalate run targets rv).1 = Some g' ∧ finding g' k key = Some Declined.
Proof.
  intros Hwf Ht Hg Hrun Hv Hk Hkey Ho. unfold session_handle_ai_escalate. rewrite Ht. cbn [negb].
  unfold decline_skipped_ai_escalation. cbn [set_triage on_gate rv_gate gt_targets rv_graph]. rewrite Hg.
  set (g1 := (decline_open_violations (skipped_candidates g targets) g).1).
  assert (finding g1 k key = Some Declined) as Hd by (apply decline_all_finding; eauto).
  assert (graph_wf g1) as Hwf1.
  { refine (graph_steps_wf (λ _, True) _ _ _ Hwf). by apply decline_open_steps. }
  destruct targets as [|t ts]; [by exists g1|]. unfold session_run_ai_gate.
  change (rv_engine (set_graph g1 (set_triage false (Some (t :: ts)) rv))) with (rv_engine rv).
  change (rv_graph (set_graph g1 (set_triage false (Some (t :: ts)) rv))) with (Some g1).
  destruct (rv_engine rv) as [e|]; [|by exists g1]. cbv zeta. case_match; [by exists g1|]. destruct run as [|g' code|ev]; [by exists g1|by destruct (Hrun g' code)|].
  set (open := filter_by_targets _ _).
  pose proof (remediate_steps (gate2_config e) ev g1 open (en_ai_error e)) as Hs.
  destruct (remediate (gate2_config e) ev g1 open (en_ai_error e)) as [[g2 l] r]. simpl in Hs.
  match goal with |- context [gate2_finish g2 r ?x] =>
    destruct (gate2_finish_steps g2 r x eq_refl) as (g3 & Hg3 & Hs3) end.
  destruct (gate2_finish _ _ _) as [rv3 tail]. simpl in *. exists g3. split; [done|].
  eapply (declined_finding_steps _ g2); [by eapply graph_steps_wf|done|]. by eapply declined_finding_steps.
Qed.

(** Gate 2 asks once per node: among the rows it leaves for review no two decide the
    same node, however often the AI and the cleanup after it changed that node, so the
    decisions cannot contradict each other. *)
Theorem gate2_rows_distinct g r rv :
  proposals rv = [] →
  Forall (λ a, strip (ap_node_id a) ≠ "") (fr_ai_proposals r) →
  Forall (λ t, strip (tp_node_id t) ≠ "") (fr_tier1_proposals r) →
  distinct_rows (gate2_finish g r rv).1.
Proof.
  intros Hp Ha Ht.
  assert (∃ es, proposals (gate2_finish g r rv).1 = es ∧ NoDup (row_key <$> es.*2) ∧
            Forall (λ e, strip (pr_path e.2) ≠ "") es) as (es & He & Hnd & Hpath).
  { unfold gate2_finish. set (rows := gate2_rows _ _). destruct rows as [proposed declined] eqn:Er.
    destruct (proposed ++ declined)%list as [|row rest].
    - exists []. split_and!; [|apply NoDup_nil_2|done].
      cbv zeta. match goal with |- context [if ?b then _ else _] => destruct b end; exact Hp.
    - set (ps := consolidate_gate2_proposals (build_graph_proposals (fr_ai_proposals r))
                   (imap (tier1_to_proposal G2T1 2) (fr_tier1_proposals r))).
      exists (foldl (λ d p, dset (pr_id p) p d) [] ps). unfold rows, gate2_rows in Er. injection Er as <- _.
      pose proof (stored_rows ps) as Hsub. split_and!.
      + change (foldl (λ d p, dset (pr_id p) p d) (proposals rv) ps = foldl (λ d p, dset (pr_id p) p d) [] ps).
        by rewrite Hp.
      + eapply submseteq_NoDup'; [by apply fmap_submseteq|]. apply consolidate_NoDup.
      + apply Forall_forall. intros e Hin.
        assert (e.2 ∈ ps) as Hps by (eapply elem_of_submseteq; [|exact Hsub]; by apply list_elem_of_fmap_2).
        revert Hps. generalize (e.2) as p. rewrite <- Forall_forall.
        apply (consolidate_paths (λ x, strip x ≠ "")); apply Forall_forall; intros p Hq.
        * apply elem_of_lookup_imap in Hq as (i & a & -> & Hi%list_elem_of_lookup_2).
          rewrite Forall_forall in Ha. by apply Ha.
        * apply elem_of_lookup_imap in Hq as (i & t & -> & Hi%list_elem_of_lookup_2).
          rewrite Forall_forall in Ht. by apply Ht. }
  unfold distinct_rows. rewrite He. intros k Hk. unfold on_node.
  rewrite (filter_ext_in _ (λ e : string * Proposal, row_key e.2 = k)).
  - by apply (length_filter_NoDup (row_key ∘ snd)); rewrite list_fmap_compose.
  - intros e Hin. rewrite Forall_forall in Hpath. specialize (Hpath e Hin). unfold target_node, row_key.
    by rewrite !decide_False by done.
Qed.
End Props.

(** ** Examples *)

Module ReviewDemo.
#[export] Instance demo_lib : ReviewLib := {|
  format_text _ t := t; normalize_proposal_yaml t := t; decode_replace t := t; fs_resolve p := p;
|}.

Definition file : string := Splice.Demo.file.
Definition originals : gmap string string := {["site.yml" := file]}.

Definition fresh (o : options) : review (G := SG) (RS := unit) :=
  MkReview o (MkGate PROCESSING 1 false false false None [] []) (MkBook [] [] [] [] ∅ [] [])
    (MkFiles [("site.yml", file)] [("site.yml", file)] ∅ [] (Some "/tmp/s")) (MkAccount None [] [] []) None None.

(** An engine with one transform and a rule that looks at whole plays; validators that
    report nothing on rescans. *)
Definition fixer : engine (G := SG) (RS := unit) :=
  MkEngine [("L007", (λ m _, ((m.1, " emacs"), true)) : transform)] [sample_rule "L097" "play"] 5 2 false.
Definition quiet : env (G := SG) := MkEnv (λ _ _ _, []) None (λ _ _, "t").

Definition play_finding : ViolationDict :=
  [("rule_id", VStr "L097"); ("severity", VStr "medium"); ("message", VStr "m"); ("path", VStr play_id);
   ("scope", VStr "play")].

(** An interactive session: one fix is offered, and the finding on the play is gone with it. *)
Definition gate1 : review (G := SG) (RS := unit) :=
  (session_graph_remediate "/tmp/s" fixer quiet sample_graph originals
     [sample_violation task_id "L007"; play_finding] (fresh (MkOptions false true false))).1.

Definition gate1_graph : ContentGraph SG := default empty_graph (rv_graph gate1).

Lemma ids_consistent_nodes (g : ContentGraph SG) :
  Forall (λ p : string * option ContentNode, match p.2 with Some n => node_id n = p.1 | None => True end)
    (nx_nodes (cg_g g)) → ids_consistent g.
Proof. intros Hf k n Hn%nx_nodes_payload. rewrite Forall_forall in Hf. exact (Hf _ Hn). Qed.

Instance node_named_dec (p : string * option ContentNode) :
  Decision (match p.2 with Some n => node_id n = p.1 | None => True end).
Proof. destruct p as [k [n|]]; simpl; apply _. Defined.

Lemma gate1_ids : ids_consistent gate1_graph.
Proof. apply ids_consistent_nodes, (bool_decide_unpack _). vm_compute. exact I. Qed.

(** Declining the offer leaves no transform on the task. *)
Lemma gate_decisions_exact_witness :
  ∃ g' n', rv_graph (apply_graph_approvals gate1 gate1_graph ∅).1 = Some g' ∧
    get_node g' task_id = Some n' ∧ Forall (λ x, staged x = false) (nd_progression n').
Proof.
  destruct (gate_decisions_exact gate1 gate1_graph ∅ gate1_ids) as (_ & g' & Hg & Hn).
  destruct (get_node gate1_graph task_id) as [n|] eqn:En; [|vm_compute in En; discriminate].
  destruct (Hn task_id n En) as (n' & Hn' & Ho). exists g', n'. split_and!; [exact Hg|exact Hn'|].
  assert (first_decision gate1 ∅ task_id = Some false) as Ef by (vm_compute; reflexivity). rewrite Ef in Ho.
  destruct Ho as (p & _ & Hc & [->|[(_ & e & _ & _ & He) _]]); [|destruct (not_elem_of_empty _ He)].
  apply Hc. assert (match get_node gate1_graph task_id with Some n => clean_baseline n | None => True end) as Hb
    by (vm_compute; reflexivity). rewrite En in Hb. exact Hb.
Defined.

(** The file delivered when the offer is accepted. *)
Lemma delivered_text_is_approved_witness :
  ∃ p es, "site.yml" = working_files_key (Some "/tmp/s") (pt_path p) ∧
    sconcat (splice_lines (pt_original p) es)
      = "hosts: all" +:+ String LF ("apt: emacs" +:+ String LF ("shell: ls" +:+ String LF "")).
Proof.
  set (text := "hosts: all" +:+ String LF ("apt: emacs" +:+ String LF ("shell: ls" +:+ String LF ""))).
  destruct (delivered_text_is_approved gate1 gate1_graph {["t1-0000"]} "site.yml" text gate1_ids)
    as [Hb|(p & es & Hk & Ht & _)].
  - vm_compute. reflexivity.
  - vm_compute in Hb. discriminate.
  - exists p, es. split; [exact Hk|]. symmetry. exact Ht.
Defined.

(** After the approval one finding is fixed; the one on the play is not counted. *)
Lemma review_accounts_for_findings_witness :
  ∃ g' rep, rv_graph (reconcile_after_approval {[task_id]} gate1_graph gate1) = Some g' ∧
    ac_report (rv_account (reconcile_after_approval {[task_id]} gate1_graph gate1)) = Some rep ∧
    Forall (λ r, vr_status r ≠ Proposed) (all_records g').
Proof.
  destruct (review_accounts_for_findings {[task_id]} gate1_graph gate1 gate1_ids)
    as (g' & rep & Hg & Hr & Hp & _). exists g', rep. split_and!; [exact Hg|exact Hr|exact Hp].
Defined.

(** A session in triage with one candidate, and a provider that would rewrite its task. *)
Definition triage_graph : ContentGraph SG :=
  register_violations [sample_violation task2_id "L099"; sample_violation task_id "L098"] 0 sample_graph.

Definition triage : review (G := SG) (RS := unit) :=
  set_triage true None (set_engine fixer (set_graph triage_graph (fresh (MkOptions true true false)))).

Lemma triage_graph_wf : graph_wf triage_graph.
Proof.
  refine (graph_steps_wf (λ _, True) _ _ _ sample_graph_wf). by apply register_violations_steps.
Qed.

Definition skipped : ViolationDict := set_class RemediationClass.AI_CANDIDATE (sample_violation task2_id "L099").

Lemma skipped_findings_stay_declined_witness :
  ∃ g', rv_graph (session_handle_ai_escalate (RunDone Splice.Demo.environment) [(task_id, [])] triage).1 = Some g' ∧
    finding g' task2_id (task2_id, "L099") = Some Declined.
Proof.
  apply (skipped_findings_stay_declined (RunDone Splice.Demo.environment) [(task_id, [])] triage triage_graph
           task2_id (task2_id, "L099") skipped).
  - exact triage_graph_wf.
  - reflexivity.
  - reflexivity.
  - intros g' code. discriminate.
  - apply (bool_decide_unpack _). vm_compute. exact I.
  - reflexivity.
  - reflexivity.
  - vm_compute. reflexivity.
Defined.

(** Two AI attempts and a cleanup on one node. *)
Definition attempt (after : string) : AINodeProposal :=
  MkAIProposal task_id "site.yml" "apt: vim" after ["L098"] "why" "0.9" 2 2 TASK.
Definition cleanup_row : Tier1NodeProposal :=
  MkT1Proposal task_id "site.yml" "apt: vim" "apt: emacs" ["L007"] ["s"] 2 2 TASK.
Definition gate2_run : GraphFixReport :=
  MkFixReport 1 0 [] [] [] false 1 [attempt "apt: a"; attempt "apt: b"] [cleanup_row] false.

Lemma gate2_rows_distinct_witness :
  distinct_rows (gate2_finish triage_graph gate2_run triage).1 ∧
  (λ e, (pr_id e.2, pr_rule_id e.2, pr_after e.2)) <$> proposals (gate2_finish triage_graph gate2_run triage).1
  = [("ai-0001", "L007,L098", "apt: emacs")].
Proof.
  split; [|vm_compute; reflexivity].
  apply gate2_rows_distinct; [reflexivity|..]; apply (bool_decide_unpack _); vm_compute; exact I.
Defined.

(** *** Where a gate falls short *)

(** A session that is not interactive, with an AI provider that rewrites the second task. *)
Definition unattended : review (G := SG) (RS := unit) :=
  (session_graph_remediate "/tmp/s" (MkEngine [] [] 5 2 false) Splice.Demo.environment sample_graph originals
     [sample_violation task2_id "L099"] (fresh (MkOptions true false false))).1.

Definition declined_all : review (G := SG) (RS := unit) := (handle_command RunRefused (CmdApprove []) unattended).1.

(** A declined AI fix is delivered all the same: in a session that is not interactive
    the AI text is in the working file before the user is asked; the user declines the
    only proposal, the finding is recorded as declined, and the result still carries the
    declined text, because there is no earlier snapshot of the files to go back to. *)
Theorem declined_ai_fix_is_delivered :
  ((λ e, (e.1, pr_after e.2)) <$> proposals unattended) = [("ai-0000", "shell: rm -rf /")] ∧
  bk_approved_ids (rv_book declined_all) = ∅ ∧
  (rv_graph declined_all ≫= λ g, finding g task2_id (task2_id, "L099")) = Some Declined ∧
  changed_files declined_all
  = [("site.yml", (file, "hosts: all" +:+ String LF ("apt: vim" +:+ String LF ("shell: rm -rf /" +:+ String LF ""))))].
Proof. split_and!; vm_compute; reflexivity. Qed.

(** A finding on a play that a fix on one of its tasks removed is in no report: it
    waits for a review that nobody is asked for, so whether the user accepts the fix or
    declines it, it is counted neither as fixed nor as remaining. *)
Theorem ancestor_finding_unaccounted :
  Forall (λ ids,
    let rv := (handle_command RunRefused (CmdApprove ids) gate1).1 in
    proposals rv = [] ∧ status_of rv = COMPLETE ∧
    (rv_graph rv ≫= λ g, finding g play_id (play_id, "L097")) = Some PendingReview ∧
    match ac_report (rv_account rv) with
    | Some rep => Forall (λ v, v_path v ≠ play_id) (rp_remaining rep ++ (rp_fixed_violations rep).*1)
    | None => False
    end) [[]; ["t1-0000"]].
Proof.
  do 2 (apply Forall_cons; split;
    [cbv zeta; split_and!; [vm_compute; reflexivity..|]; vm_compute; repeat constructor; discriminate|]).
  apply Forall_nil_2.
Qed.
End ReviewDemo.
