(* ===== verification/OperationRegistry.v ===== *)
(** * The operation registry of the gateway

    [OperationRegistry] of [src/apme_gateway/operation_registry.py] and the types of
    [src/apme_gateway/operation_types.py]: the operations in flight, one per project,
    their life cycle, the queues of the event subscribers, and the reaper.

    All access is from one event loop and no method awaits while it updates the
    registry, except [set_proposals], which first takes the operation's gate lock; a
    method is therefore one step.  Subscriber queues are objects shared with the
    streaming handlers: they live in a store of their own ([rg_queues]) under the
    identity that [subscribe] hands out.  A gate's future is shared with the bridge that
    awaits it, also after the gate was replaced: the futures of an operation's gates are
    kept under their gate ids ([op_gates]).  Requests to cancel a background task are
    logged in [rg_cancelled].  JSON dictionaries are opaque ([J]); the clock, operation
    ids and gate ids are arguments.  The per-project lock is not modelled. *)

From stdpp Require Import base list gmap strings.
From S2P Require Import Prelude.

#[local] Open Scope string_scope.
#[local] Open Scope nat_scope.

(** ** Types *)

Inductive OperationStatus :=
| QUEUED | CLONING | SCANNING | ASSESSED | AWAITING_AI_TRIAGE | AWAITING_APPROVAL | APPLYING
| COMPLETED | SUBMITTING_PR | PR_SUBMITTED | FAILED | EXPIRED | CANCELLED.

#[export] Instance operation_status_eq_dec : EqDecision OperationStatus.
Proof. solve_decision. Defined.

Definition TERMINAL_STATUSES : list OperationStatus :=
  [COMPLETED; PR_SUBMITTED; FAILED; EXPIRED; CANCELLED].

Definition FINDINGS_ALLOWED_STATUSES : list OperationStatus :=
  [QUEUED; CLONING; SCANNING; ASSESSED].

Definition AI_TRIAGE_ALLOWED_STATUSES : list OperationStatus :=
  [QUEUED; CLONING; SCANNING; ASSESSED; APPLYING; AWAITING_AI_TRIAGE].

Definition terminal (s : OperationStatus) : bool := bool_decide (s ∈ TERMINAL_STATUSES).

(** Floats are kept as their [repr]. *)
Record ProgressEntry := MkProgress {
  pe_phase : string; pe_message : string; pe_timestamp : string; pe_progress : option string;
  pe_level : option Z; pe_budget : option Z; pe_ai_completed : option Z; pe_ai_total : option Z;
}.

Record Proposal := MkProposal {
  pr_id : string; pr_rule_id : string; pr_file : string; pr_tier : Z; pr_confidence : string;
  pr_explanation : string; pr_diff_hunk : string; pr_status : string; pr_source : string;
  pr_path : string; pr_node_type : string; pr_suggestion : string; pr_line_start : Z;
  pr_line_end : Z; pr_before : string; pr_after : string;
}.

Inductive future (A : Type) := Pending | Done (a : A) | CancelledFuture.
Arguments Pending {A}.
Arguments Done {A} a.
Arguments CancelledFuture {A}.

Definition is_done {A} (f : future A) : bool := match f with Pending => false | _ => true end.

(** [if not fut.done(): fut.set_result(a)] *)
Definition settle {A} (a : A) (f : future A) : future A :=
  match f with Pending => Done a | _ => f end.

(** [if fut is not None and not fut.done(): fut.set_result(a)] *)
Definition resolve_pending {A} (a : A) (f : option (future A)) : option (future A) :=
  settle a <$> f.

Record ApprovalGate := MkGate {
  gt_generation : option Z;
  gt_id : string;
}.

(** The background task that drives the engine. *)
Inductive task := Running | Finished.

Inductive api_error := NotFound | InvalidStatus | SessionExpired | AlreadySubmitted | Superseded.

Definition QUEUE_MAX : nat := 256.

Section Registry.
Context {J : Type}.

Record OperationResult := MkOpResult {
  or_counts : list Z;           (* total, fixable, ai_proposed, ai_declined, ai_accepted,
                                   manual_review, remediated_count *)
  or_fixed_violations : list J;
  or_patches : list J;
}.

(** The messages put into subscriber queues: the event with its payload. *)
Inductive message :=
| MStatus (status previous : OperationStatus) (error error_code : option string) (budget : option Z)
| MProgress (e : ProgressEntry)
| MFindings (l : list J)
| MTriage (l : list J)
| MProposals (ps : list Proposal) (gate_id : option string)
| MProposalUpdated (l : list J)
| MResult (r : OperationResult)
| MPrCreated (url : string)
| MClose.

(** [is_must_deliver] *)
Definition is_must_deliver (m : message) : bool :=
  match m with
  | MResult _ | MPrCreated _ => true
  | MStatus s _ _ _ _ => terminal s
  | _ => false
  end.

(** [is_terminal] *)
Definition is_terminal (m : message) : bool :=
  match m with
  | MPrCreated _ => true
  | MStatus s _ _ _ _ => terminal s
  | _ => false
  end.

Record OperationState := MkOp {
  op_id : string;
  op_project : string;
  op_scan : string;
  op_status : OperationStatus;
  op_scan_type : string;
  op_started : string;
  op_progress : list ProgressEntry;
  op_proposals : option (list Proposal);
  op_findings : option (list J);
  op_triage : option (list J);
  op_result : option OperationResult;
  op_pr_url : option string;
  op_error : option string;
  op_error_code : option string;
  op_budget : option Z;
  op_commit : string;
  op_task : option task;
  op_gate : option ApprovalGate;
  op_gates : list (string * future (list string));
  op_begin : option (future unit);
  op_escalate : option (future (list J));
  op_subs : list nat;
}.

Record registry := MkRegistry {
  rg_ops : list (string * OperationState);
  rg_by_project : list (string * string);
  rg_terminal : list (string * Z);
  rg_ttl : Z;
  rg_queues : gmap nat (list message);
  rg_next : nat;
  rg_cancelled : list string;
}.

Definition empty_registry (ttl : Z) : registry := MkRegistry [] [] [] ttl ∅ 0 [].

(** ** Queues *)

(** Index of the oldest message that may be dropped. *)
Fixpoint drop_oldest (buf : list message) : option (list message) :=
  match buf with
  | [] => None
  | m :: buf' => if is_must_deliver m then cons m <$> drop_oldest buf' else Some buf'
  end.

(** [while len(buffered) >= maxsize: ...] *)
Fixpoint make_room (fuel : nat) (buf : list message) : list message :=
  match fuel with
  | O => buf
  | S fuel' =>
    if decide (QUEUE_MAX <= length buf) then
      make_room fuel' (match drop_oldest buf with Some b => b | None => tail buf end)
    else buf
  end.

(** One subscriber of [_broadcast]: the queue afterwards, [None] when it is dropped. *)
Definition deliver (m : message) (buf : list message) : option (list message) :=
  if decide (length buf < QUEUE_MAX) then Some (buf ++ [m])%list
  else if is_must_deliver m then Some (make_room (length buf) buf ++ [m])%list
  else None.

Definition queue_of (r : registry) (q : nat) : list message := default [] (rg_queues r !! q).

(** [_broadcast] over the subscribers of an operation: the ones kept, and the queues. *)
Fixpoint broadcast_all (m : message) (subs : list nat) (qs : gmap nat (list message))
    : list nat * gmap nat (list message) :=
  match subs with
  | [] => ([], qs)
  | q :: subs' =>
    match deliver m (default [] (qs !! q)) with
    | Some buf =>
      let '(kept, qs') := broadcast_all m subs' (<[q := buf]> qs) in (q :: kept, qs')
    | None => broadcast_all m subs' qs
    end
  end.

(** ** Updates of one operation *)

Definition set_subs (subs : list nat) (o : OperationState) : OperationState :=
  MkOp (op_id o) (op_project o) (op_scan o) (op_status o) (op_scan_type o) (op_started o) (op_progress o)
    (op_proposals o) (op_findings o) (op_triage o) (op_result o) (op_pr_url o) (op_error o)
    (op_error_code o) (op_budget o) (op_commit o) (op_task o) (op_gate o) (op_gates o) (op_begin o) (op_escalate o) subs.

(** A new status and the extra attributes [error] and [error_code] when given. *)
Definition set_status (s : OperationStatus) (error error_code : option string) (o : OperationState)
    : OperationState :=
  MkOp (op_id o) (op_project o) (op_scan o) s (op_scan_type o) (op_started o) (op_progress o) (op_proposals o)
    (op_findings o) (op_triage o) (op_result o) (op_pr_url o)
    (match error with Some _ => error | None => op_error o end)
    (match error_code with Some _ => error_code | None => op_error_code o end)
    (op_budget o) (op_commit o) (op_task o) (op_gate o) (op_gates o) (op_begin o) (op_escalate o) (op_subs o).

Definition set_payload (progress : list ProgressEntry) (proposals : option (list Proposal))
    (findings triage : option (list J)) (result : option OperationResult) (pr_url : option string)
    (budget : option Z) (o : OperationState) : OperationState :=
  MkOp (op_id o) (op_project o) (op_scan o) (op_status o) (op_scan_type o) (op_started o) progress proposals
    findings triage result pr_url (op_error o) (op_error_code o) budget (op_commit o) (op_task o) (op_gate o)
    (op_gates o) (op_begin o) (op_escalate o) (op_subs o).

Definition set_futures (gate : option ApprovalGate)
    (gates : list (string * future (list string))) (begin_ : option (future unit))
    (escalate : option (future (list J))) (o : OperationState) : OperationState :=
  MkOp (op_id o) (op_project o) (op_scan o) (op_status o) (op_scan_type o) (op_started o) (op_progress o)
    (op_proposals o) (op_findings o) (op_triage o) (op_result o) (op_pr_url o) (op_error o)
    (op_error_code o) (op_budget o) (op_commit o) (op_task o) gate gates begin_ escalate (op_subs o).

(** ** The registry *)

Definition get (r : registry) (id : string) : option OperationState := dget id (rg_ops r).

Definition get_by_project (r : registry) (p : string) : option OperationState :=
  dget p (rg_by_project r) ≫= get r.

Definition list_active (r : registry) : list OperationState :=
  filter (λ o, terminal (op_status o) = false) (rg_ops r).*2.

(** Mutation of the operation stored under [id]. *)
Definition alter_op (id : string) (f : OperationState → OperationState) (r : registry) : registry :=
  MkRegistry (dalter f id (rg_ops r)) (rg_by_project r) (rg_terminal r) (rg_ttl r) (rg_queues r)
    (rg_next r) (rg_cancelled r).

(** [_broadcast] *)
Definition broadcast (id : string) (m : message) (r : registry) : registry :=
  match get r id with
  | None => r
  | Some o =>
    let '(kept, qs) := broadcast_all m (op_subs o) (rg_queues r) in
    MkRegistry (dalter (set_subs kept) id (rg_ops r)) (rg_by_project r) (rg_terminal r) (rg_ttl r)
      qs (rg_next r) (rg_cancelled r)
  end.

(** [{"_close": True}] to every queue with room. *)
Definition close_queues (subs : list nat) (qs : gmap nat (list message)) : gmap nat (list message) :=
  foldl (λ qs q, let buf := default [] (qs !! q) in
                 if decide (length buf < QUEUE_MAX) then <[q := (buf ++ [MClose])%list]> qs else qs)
    qs subs.

(** [if op.grpc_task and not op.grpc_task.done(): op.grpc_task.cancel()] *)
Definition cancel_task (id : string) (o : OperationState) : list string :=
  match op_task o with Some Running => [id] | _ => [] end.

(** [_remove] *)
Definition remove (id : string) (r : registry) : registry :=
  match get r id with
  | None => r
  | Some o =>
    MkRegistry (dpop id (rg_ops r))
      (if decide (dget (op_project o) (rg_by_project r) = Some id)
       then dpop (op_project o) (rg_by_project r) else rg_by_project r)
      (dpop id (rg_terminal r)) (rg_ttl r) (close_queues (op_subs o) (rg_queues r)) (rg_next r)
      (rg_cancelled r ++ cancel_task id o)%list
  end.

Definition new_operation (id project scan scan_type started : string) : OperationState :=
  MkOp id project scan QUEUED scan_type started [] None None None None None None None None "" None
    None [] None None [].

Definition insert_op (o : OperationState) (r : registry) : registry :=
  MkRegistry (dset (op_id o) o (rg_ops r)) (dset (op_project o) (op_id o) (rg_by_project r))
    (rg_terminal r) (rg_ttl r) (rg_queues r) (rg_next r) (rg_cancelled r).

(** [create]; [None] is the [ValueError] of a project with an active operation. *)
Definition create (id project scan scan_type started : string) (r : registry) : option registry :=
  let o := new_operation id project scan scan_type started in
  match dget project (rg_by_project r) with
  | Some "" | None => Some (insert_op o r)
  | Some old =>
    match get r old with
    | None => Some (insert_op o r)
    | Some existing =>
      if terminal (op_status existing) then Some (insert_op o (remove old r)) else None
    end
  end.

(** [remove_project]; [None] is the [ValueError]. *)
Definition remove_project (project : string) (r : registry) : option registry :=
  match get_by_project r project with
  | None => Some r
  | Some o => if terminal (op_status o) then Some (remove (op_id o) r) else None
  end.

(** [transition] *)
Definition transition (now : Z) (id : string) (s : OperationStatus)
    (error error_code : option string) (r : registry) : registry :=
  match get r id with
  | None => r
  | Some o =>
    let r1 := alter_op id (set_status s error error_code) r in
    let r2 := if terminal s then
                MkRegistry (rg_ops r1) (rg_by_project r1) (dset id now (rg_terminal r1)) (rg_ttl r1)
                  (rg_queues r1) (rg_next r1) (rg_cancelled r1)
              else r1 in
    broadcast id (MStatus s (op_status o) error error_code None) r2
  end.

Definition set_operation_budget (id : string) (budget : Z) (r : registry) : registry :=
  match get r id with
  | None => r
  | Some o =>
    if decide (budget <= 0)%Z then r
    else
      broadcast id (MStatus (op_status o) (op_status o) None None (Some budget))
        (alter_op id (λ o, set_payload (op_progress o) (op_proposals o) (op_findings o) (op_triage o)
                             (op_result o) (op_pr_url o) (Some budget) o) r)
  end.

Definition add_progress (id : string) (e : ProgressEntry) (r : registry) : registry :=
  broadcast id (MProgress e)
    (alter_op id (λ o, set_payload (op_progress o ++ [e])%list (op_proposals o) (op_findings o)
                         (op_triage o) (op_result o) (op_pr_url o) (op_budget o) o) r).

Definition set_findings (now : Z) (id : string) (findings : list J) (r : registry) : registry :=
  match get r id with
  | None => r
  | Some o =>
    if decide (op_status o ∉ FINDINGS_ALLOWED_STATUSES) then r
    else
      let r1 := alter_op id (λ o,
        set_futures (op_gate o) (op_gates o)
          (match op_begin o with None => Some Pending | f => f end) (op_escalate o)
          (set_payload (op_progress o) (op_proposals o) (Some findings) (op_triage o) (op_result o)
             (op_pr_url o) (op_budget o) o)) r in
      broadcast id (MFindings findings) (transition now id ASSESSED None None r1)
  end.

(** A triage message that comes after the escalation was answered. *)
Definition late_triage (o : OperationState) : bool :=
  bool_decide (op_status o = APPLYING) && bool_decide (is_Some (op_triage o)) &&
  match op_escalate o with None => true | Some f => is_done f end.

Definition set_ai_triage (now : Z) (id : string) (candidates : list J) (r : registry) : registry :=
  match get r id with
  | None => r
  | Some o =>
    if decide (op_status o ∉ AI_TRIAGE_ALLOWED_STATUSES) then r
    else if late_triage o then r
    else
      let r1 := alter_op id (λ o,
        set_futures (op_gate o) (op_gates o) (resolve_pending tt (op_begin o))
          (match op_escalate o with None => Some Pending | f => f end)
          (set_payload (op_progress o) (op_proposals o) (op_findings o) (Some candidates)
             (op_result o) (op_pr_url o) (op_budget o) o)) r in
      broadcast id (MTriage candidates) (transition now id AWAITING_AI_TRIAGE None None r1)
  end.

(** A pending gate that is replaced wakes its waiter with an empty list. *)
Definition supersede (old : option ApprovalGate) (gates : list (string * future (list string)))
    : list (string * future (list string)) :=
  match old with Some g => dalter (settle []) (gt_id g) gates | None => gates end.

(** [set_proposals] *)
Definition set_proposals (now : Z) (id gate_id : string) (ps : list Proposal) (generation : option Z)
    (r : registry) : registry :=
  match get r id with
  | None => r
  | Some _ =>
    let r1 := alter_op id (λ o,
      set_futures (Some (MkGate generation gate_id))
        (dset gate_id Pending (supersede (op_gate o) (op_gates o))) (resolve_pending tt (op_begin o))
        (resolve_pending [] (op_escalate o))
        (set_payload (op_progress o) (Some ps) (op_findings o) (op_triage o) (op_result o)
           (op_pr_url o) (op_budget o) o)) r in
    broadcast id (MProposals ps (Some gate_id)) (transition now id AWAITING_APPROVAL None None r1)
  end.

Definition broadcast_proposal_updated (id : string) (l : list J) (r : registry) : registry :=
  broadcast id (MProposalUpdated l) r.

Definition set_result (id : string) (result : OperationResult) (r : registry) : registry :=
  broadcast id (MResult result)
    (alter_op id (λ o, set_payload (op_progress o) (op_proposals o) (op_findings o) (op_triage o)
                         (Some result) (op_pr_url o) (op_budget o) o) r).

Definition set_pr_url (now : Z) (id url : string) (r : registry) : registry :=
  match get r id with
  | None => r
  | Some _ =>
    let r1 := alter_op id (λ o, set_payload (op_progress o) (op_proposals o) (op_findings o)
                (op_triage o) (op_result o) (Some url) (op_budget o) o) r in
    broadcast id (MPrCreated url) (transition now id PR_SUBMITTED None None r1)
  end.

(** [subscribe]: a fresh queue. *)
Definition subscribe (id : string) (r : registry) : registry * option nat :=
  match get r id with
  | None => (r, None)
  | Some o =>
    let q := rg_next r in
    (MkRegistry (dalter (λ o, set_subs (op_subs o ++ [q])%list o) id (rg_ops r)) (rg_by_project r)
       (rg_terminal r) (rg_ttl r) (<[q := []]> (rg_queues r)) (S q) (rg_cancelled r), Some q)
  end.

(** [unsubscribe]; a queue occurs at most once among the subscribers. *)
Definition unsubscribe (id : string) (q : nat) (r : registry) : registry :=
  alter_op id (λ o, set_subs (filter (λ q', q' ≠ q) (op_subs o)) o) r.

(** The operations the reaper evicts at [now]. *)
Definition expired (now : Z) (r : registry) : list string :=
  (filter (λ p, (rg_ttl r <= now - p.2)%Z) (rg_terminal r)).*1.

(** One round of [_reap_loop]. *)
Definition reap (now : Z) (r : registry) : registry := foldl (λ r id, remove id r) r (expired now r).

(** [shutdown] *)
Definition shutdown (r : registry) : registry :=
  MkRegistry [] [] [] (rg_ttl r) (foldl (λ qs p, close_queues (op_subs p.2) qs) (rg_queues r) (rg_ops r))
    (rg_next r) (rg_cancelled r ++ flat_map (λ p, cancel_task p.1 p.2) (rg_ops r))%list.

(** ** The handlers of [api/operation_router.py] that act on an operation's futures

    [inr] is the registry after the call, [inl] the HTTP error. *)

Definition set_task (id : string) (t : option task) (r : registry) : registry :=
  alter_op id (λ o,
    MkOp (op_id o) (op_project o) (op_scan o) (op_status o) (op_scan_type o) (op_started o)
      (op_progress o) (op_proposals o) (op_findings o) (op_triage o) (op_result o) (op_pr_url o)
      (op_error o) (op_error_code o) (op_budget o) (op_commit o) t (op_gate o) (op_gates o)
      (op_begin o) (op_escalate o) (op_subs o)) r.

Definition set_scan_type (scan_type : string) (o : OperationState) : OperationState :=
  MkOp (op_id o) (op_project o) (op_scan o) (op_status o) scan_type (op_started o) (op_progress o)
    (op_proposals o) (op_findings o) (op_triage o) (op_result o) (op_pr_url o) (op_error o)
    (op_error_code o) (op_budget o) (op_commit o) (op_task o) (op_gate o) (op_gates o) (op_begin o)
    (op_escalate o) (op_subs o).

(** [future.done()] of a gate. *)
Definition gate_done (o : OperationState) (g : ApprovalGate) : bool :=
  match dget (gt_id g) (op_gates o) with Some f => is_done f | None => true end.

Definition resolve_gate (ids : list string) (o : OperationState) : OperationState :=
  set_futures (op_gate o)
    (match op_gate o with Some g => dalter (settle ids) (gt_id g) (op_gates o) | None => op_gates o end)
    (op_begin o) (op_escalate o) o.

(** [POST /approve]: the guards and the resolution of the gate, between which the
    decisions are written to the database under the gate lock. *)
Definition approve_proposals (project : string) (gate_id : option string) (approved_ids : list string)
    (r : registry) : api_error + registry :=
  match get_by_project r project with
  | None => inl NotFound
  | Some o =>
    if decide (op_status o ≠ AWAITING_APPROVAL) then inl InvalidStatus
    else match op_gate o with
    | None => inl AlreadySubmitted
    | Some g =>
      if gate_done o g then inl AlreadySubmitted
      else if decide (gate_id ≠ None ∧ gate_id ≠ Some (gt_id g)) then inl Superseded
      else
        let offered := pr_id <$> default [] (op_proposals o) in
        inr (alter_op (op_id o) (resolve_gate (filter (λ i, i ∈ approved_ids) offered)) r)
    end
  end.

(** The last lines of [_forward_approval_gate_result], run when the gate [gid] is done:
    clear it unless it was superseded meanwhile. *)
Definition forward_gate (id gid : string) (r : registry) : registry :=
  alter_op id (λ o,
    set_futures (if decide (gt_id <$> op_gate o = Some gid) then None else op_gate o) (op_gates o)
      (op_begin o) (op_escalate o) o) r.

(** [POST /begin-remediate] *)
Definition begin_remediate (project : string) (r : registry) : api_error + registry :=
  match get_by_project r project with
  | None => inl NotFound
  | Some o =>
    if decide (op_status o ≠ ASSESSED) then inl InvalidStatus
    else match op_begin o with
    | None => if decide (op_scan_type o = "remediate") then inr r else inl SessionExpired
    | Some f =>
      if is_done f then inr r
      else inr (alter_op (op_id o) (λ o,
             set_futures (op_gate o) (op_gates o) (resolve_pending tt (op_begin o)) (op_escalate o)
               (set_scan_type "remediate" o)) r)
    end
  end.

(** [POST /escalate-ai] *)
Definition escalate_ai (now : Z) (project : string) (targets : list J) (r : registry)
    : api_error + registry :=
  match get_by_project r project with
  | None => inl NotFound
  | Some o =>
    if decide (op_status o ≠ AWAITING_AI_TRIAGE) then inl InvalidStatus
    else match op_escalate o with
    | None => inl SessionExpired
    | Some _ =>
      inr (transition now (op_id o) APPLYING None None
             (alter_op (op_id o) (λ o, set_futures (op_gate o) (op_gates o) (op_begin o)
                                         (resolve_pending targets (op_escalate o)) o) r))
    end
  end.

(** [fut.cancel()] on a pending future. *)
Definition cancel_future {A} (f : future A) : future A :=
  match f with Pending => CancelledFuture | _ => f end.

(** [POST /cancel] *)
Definition cancel_operation (now : Z) (project : string) (r : registry) : api_error + registry :=
  match get_by_project r project with
  | None => inl NotFound
  | Some o =>
    if terminal (op_status o) then inl InvalidStatus
    else
      let r1 := transition now (op_id o) CANCELLED None None r in
      let r2 := alter_op (op_id o) (λ o,
        let o' := resolve_gate [] o in
        set_futures (op_gate o') (op_gates o') (cancel_future <$> op_begin o)
          (cancel_future <$> op_escalate o) o') r1 in
      inr (MkRegistry (rg_ops r2) (rg_by_project r2) (rg_terminal r2) (rg_ttl r2) (rg_queues r2)
             (rg_next r2) (rg_cancelled r2 ++ cancel_task (op_id o) o)%list)
  end.

(** [_on_begin_timeout] *)
Definition on_begin_timeout (id : string) (r : registry) : registry :=
  match get r id with
  | None => r
  | Some o =>
    if decide (op_status o ≠ ASSESSED) then r
    else match op_begin o with
    | Some Pending =>
      alter_op id (λ o, set_futures (op_gate o) (op_gates o) (resolve_pending tt (op_begin o))
                          (op_escalate o) (set_scan_type "remediate" o)) r
    | _ => r
    end
  end.

(** [_on_escalate_timeout]; the bridge keeps the future that it awaits. *)
Definition on_escalate_timeout (id : string) (r : registry) : registry :=
  alter_op id (λ o, set_futures (op_gate o) (op_gates o) (op_begin o) None o) r.

(** The bridge clears a future it has forwarded. *)
Definition clear_begin (id : string) (r : registry) : registry :=
  alter_op id (λ o, set_futures (op_gate o) (op_gates o) None (op_escalate o) o) r.

(** A streaming handler takes the next message of its queue. *)
Definition take_message (q : nat) (r : registry) : registry :=
  MkRegistry (rg_ops r) (rg_by_project r) (rg_terminal r) (rg_ttl r)
    (<[q := tail (queue_of r q)]> (rg_queues r)) (rg_next r) (rg_cancelled r).
End Registry.
Arguments registry : clear implicits.
Arguments OperationState : clear implicits.
Arguments message : clear implicits.
