(* ===== verification/OperationProps.v ===== *)
(** * Properties of the operation registry

    The life of a registry is a relation, [reg_step], with one constructor per method
    and one for a subscriber that takes a message from its queue.  The invariant
    [reg_wf] holds in every reachable registry. *)

From stdpp Require Import base list gmap strings relations.
From S2P Require Import Prelude OperationRegistry.

#[local] Open Scope string_scope.
#[local] Open Scope nat_scope.

Section Props.
Context {J : Type}.
Implicit Types (r : registry J) (o : OperationState J) (m : message J).

(** ** The invariant *)

Definition queues_ok (qs : gmap nat (list (message J))) : Prop :=
  ∀ q buf, qs !! q = Some buf → length buf ≤ QUEUE_MAX.

(** A gate whose future is still pending is the operation's current gate. *)
Definition gates_ok (o : OperationState J) : Prop :=
  ∀ g, dget g (op_gates o) = Some Pending → gt_id <$> op_gate o = Some g.

Record op_wf r (id : string) o : Prop := {
  ow_id : op_id o = id;
  ow_nonempty : id ≠ "";
  ow_project : dget (op_project o) (rg_by_project r) = Some id;
  ow_reap : terminal (op_status o) = true → id ∈ (rg_terminal r).*1;
  ow_subs : NoDup (op_subs o) ∧ Forall (λ q, q < rg_next r) (op_subs o);
  ow_gates : gates_ok o;
}.

Record reg_wf r : Prop := {
  rw_ops : NoDup (rg_ops r).*1;
  rw_projects : NoDup (rg_by_project r).*1;
  rw_times : NoDup (rg_terminal r).*1;
  rw_op id o : get r id = Some o → op_wf r id o;
  rw_by_project p id : dget p (rg_by_project r) = Some id →
    ∃ o, get r id = Some o ∧ op_project o = p;
  rw_terminal id : id ∈ (rg_terminal r).*1 → is_Some (get r id);
  rw_queue : queues_ok (rg_queues r);
}.

(** ** Queues *)

Lemma drop_oldest_length (buf b : list (message J)) :
  drop_oldest buf = Some b → length buf = S (length b).
Proof.
  revert b. induction buf as [|x buf IH]; intros b; simpl; [done|].
  case_match; [|intros; by simplify_eq].
  destruct (drop_oldest buf) as [b'|]; simpl; intros; simplify_eq/=. by rewrite (IH b').
Qed.

(** What is dropped is the oldest droppable message; the others keep their order. *)
Lemma drop_oldest_spec (buf : list (message J)) :
  match drop_oldest buf with
  | Some b => ∃ l x l', buf = (l ++ x :: l')%list ∧ b = (l ++ l')%list ∧ is_must_deliver x = false ∧
                        Forall (λ y, is_must_deliver y = true) l
  | None => Forall (λ y, is_must_deliver y = true) buf
  end.
Proof.
  induction buf as [|x buf IH]; simpl; [constructor|]. destruct (is_must_deliver x) eqn:E.
  - destruct (drop_oldest buf) as [b|]; simpl; [|by constructor].
    destruct IH as (l & y & l' & -> & -> & ? & ?). exists (x :: l), y, l'. by repeat constructor.
  - exists [], x, buf. by repeat constructor.
Qed.

Lemma make_room_spec fuel (buf : list (message J)) :
  length buf ≤ QUEUE_MAX → 0 < fuel →
  length (make_room fuel buf) < QUEUE_MAX ∧
  make_room fuel buf
  = if decide (length buf < QUEUE_MAX) then buf
    else match drop_oldest buf with Some b => b | None => tail buf end.
Proof.
  intros Hl Hf. destruct fuel as [|fuel]; [lia|]. simpl.
  destruct (decide (QUEUE_MAX <= length buf)) as [Hd|Hd].
  - rewrite (decide_False (P := length buf < QUEUE_MAX)) by lia.
    set (b := match drop_oldest buf with Some b => b | None => tail buf end).
    assert (length b < QUEUE_MAX) as Hb.
    { subst b. destruct (drop_oldest buf) as [b|] eqn:E.
      - apply drop_oldest_length in E. lia.
      - rewrite length_tail. unfold QUEUE_MAX in *. lia. }
    assert (make_room fuel b = b) as ->; [|done].
    destruct fuel; simpl; [done|]. by rewrite decide_False by lia.
  - rewrite (decide_True (P := length buf < QUEUE_MAX)) by lia. split; [lia|done].
Qed.

Lemma deliver_length m (buf buf' : list (message J)) :
  length buf ≤ QUEUE_MAX → deliver m buf = Some buf' → length buf' ≤ QUEUE_MAX.
Proof.
  intros Hl. unfold deliver. case_decide as Hd; [intros; simplify_eq; rewrite length_app; simpl; lia|].
  case_match; [|done]. intros [= <-].
  assert (0 < length buf) as Hpos by (unfold QUEUE_MAX in *; lia).
  destruct (make_room_spec (length buf) buf Hl Hpos) as [Hr _]. rewrite length_app. simpl. lia.
Qed.

Lemma queues_ok_default qs q : queues_ok qs → length (default [] (qs !! q)) ≤ QUEUE_MAX.
Proof. intros H. destruct (qs !! q) eqn:E; simpl; [eauto|lia]. Qed.

Lemma queues_ok_insert qs q buf :
  queues_ok qs → length buf ≤ QUEUE_MAX → queues_ok (<[q := buf]> qs).
Proof. intros H Hb q' buf' [[_ <-]|[_ ?]]%lookup_insert_Some; eauto. Qed.

Lemma broadcast_all_spec m subs qs kept qs' :
  NoDup subs → queues_ok qs → broadcast_all m subs qs = (kept, qs') →
  queues_ok qs' ∧ kept = filter (λ q, is_Some (deliver m (default [] (qs !! q)))) subs ∧
  (∀ q, q ∈ kept → deliver m (default [] (qs !! q)) = qs' !! q) ∧
  (∀ q, q ∉ kept → qs' !! q = qs !! q).
Proof.
  revert qs kept. induction subs as [|q subs IH]; intros qs kept Hnd Hqs; simpl.
  { intros [= <- <-]. split_and!; [done|done|set_solver|done]. }
  apply NoDup_cons in Hnd as [Hq Hnd]. rewrite filter_cons.
  destruct (deliver m (default [] (qs !! q))) as [buf|] eqn:Ed.
  - destruct (broadcast_all m subs (<[q:=buf]> qs)) as [kept0 qs0] eqn:Eb. intros [= <- <-].
    apply IH in Eb as (H1 & H2 & H3 & H4); [|done|].
    2: { apply queues_ok_insert; [done|]. eapply deliver_length; [by apply queues_ok_default|done]. }
    rewrite decide_True by done.
    assert (Hsame : ∀ q', q' ∈ subs → (<[q:=buf]> qs) !! q' = qs !! q').
    { intros q' Hq'. apply lookup_insert_ne. set_solver. }
    assert (Hk : kept0 = filter (λ q, is_Some (deliver m (default [] (qs !! q)))) subs).
    { rewrite H2. apply filter_ext_in. intros q' Hq'. by rewrite Hsame. }
    assert (Hsub : ∀ q', q' ∈ kept0 → q' ∈ subs) by (rewrite H2; intros q' [_ ?]%list_elem_of_filter; done).
    split_and!; [done|by rewrite <- Hk| |].
    + intros q' [->|Hq']%elem_of_cons.
      * rewrite Ed. rewrite H4; [by rewrite lookup_insert_eq|]. naive_solver.
      * rewrite <- H3 by done. by rewrite Hsame by auto.
    + intros q' [Hne Hnk]%not_elem_of_cons. rewrite H4 by done. by apply lookup_insert_ne.
  - intros Hb. rewrite decide_False by (by intros [? ?]). by apply IH.
Qed.

Lemma close_queues_ok subs qs : queues_ok qs → queues_ok (close_queues subs qs).
Proof.
  revert qs. unfold close_queues. induction subs as [|q subs IH]; intros qs H; simpl; [done|].
  apply IH. case_decide; [|done]. apply queues_ok_insert; [done|]. rewrite length_app. simpl. lia.
Qed.

(** ** Every update preserves the invariant *)

Lemma get_alter_op r id f id' :
  get (alter_op id f r) id' = (if decide (id' = id) then f else Datatypes.id) <$> get r id'.
Proof. apply dget_dalter. Qed.

Lemma get_is_Some r id : is_Some (get r id) ↔ id ∈ (rg_ops r).*1.
Proof. apply dget_is_Some. Qed.

Lemma alter_op_wf r id f :
  reg_wf r →
  (∀ o, get r id = Some o → op_wf r id o → op_wf r id (f o) ∧ op_project (f o) = op_project o) →
  reg_wf (alter_op id f r).
Proof.
  intros [Ho Hp Ht Hop Hby Hterm Hq] Hf. split; simpl; try done.
  - by rewrite dkeys_dalter.
  - intros id' o'. rewrite get_alter_op, fmap_Some. intros (o & Hg & ->).
    assert (op_wf r id' ((if decide (id' = id) then f else Datatypes.id) o)) as H.
    { case_decide; [subst; by apply Hf; [|apply Hop]|by apply Hop]. }
    by destruct H; split.
  - intros p id' Hd. destruct (Hby p id' Hd) as (o & Hg & Hpr).
    rewrite get_alter_op, Hg. simpl. eexists; split; [done|].
    case_decide; [|done]. subst id'. destruct (Hf o Hg (Hop _ _ Hg)) as [_ ->]. done.
  - intros id' Hi. rewrite get_alter_op. apply fmap_is_Some. by apply Hterm.
Qed.

(** An update of the payload: identity, project, status, subscribers and gates stay. *)
Definition same_core (o o' : OperationState J) : Prop :=
  op_id o' = op_id o ∧ op_project o' = op_project o ∧ op_status o' = op_status o ∧
  op_subs o' = op_subs o ∧ (gates_ok o → gates_ok o').

Lemma alter_core_wf r id f :
  (∀ o, same_core o (f o)) → reg_wf r → reg_wf (alter_op id f r).
Proof.
  intros Hf H. apply alter_op_wf; [done|]. intros o _ Hw.
  destruct (Hf o) as (Hid & Hpr & Hst & Hsu & Hga). split; [|done].
  destruct Hw as [? ? ? ? ? ?]. split; rewrite ?Hid, ?Hpr, ?Hst, ?Hsu; auto.
Qed.

Lemma with_queues_wf r qs :
  reg_wf r → queues_ok qs →
  reg_wf (MkRegistry (rg_ops r) (rg_by_project r) (rg_terminal r) (rg_ttl r) qs (rg_next r)
            (rg_cancelled r)).
Proof. intros [? ? ? Hop ? ? ?] Hq. split; try done. intros id o Ho. by destruct (Hop _ _ Ho). Qed.

Lemma with_cancelled_wf r l :
  reg_wf r →
  reg_wf (MkRegistry (rg_ops r) (rg_by_project r) (rg_terminal r) (rg_ttl r) (rg_queues r)
            (rg_next r) l).
Proof. intros [? ? ? Hop ? ? ?]. split; try done. intros id o Ho. by destruct (Hop _ _ Ho). Qed.

Lemma set_subs_core_wf r id o subs :
  op_wf r id o → NoDup subs → subs ⊆ op_subs o → op_wf r id (set_subs subs o).
Proof.
  intros [? ? ? ? [_ Hlt] ?] Hnd Hsub. split; simpl; try done. split; [done|].
  rewrite Forall_forall in Hlt |- *. auto.
Qed.

Lemma broadcast_wf r id m : reg_wf r → reg_wf (broadcast id m r).
Proof.
  intros H. unfold broadcast. destruct (get r id) as [o|] eqn:Ho; [|done].
  pose proof (rw_op _ H _ _ Ho) as Hw.
  destruct (broadcast_all m (op_subs o) (rg_queues r)) as [kept qs] eqn:Eb.
  apply broadcast_all_spec in Eb as (Hqs & -> & _); [|apply Hw|apply H].
  apply (with_queues_wf (alter_op id _ r)); [|done].
  apply alter_op_wf; [done|]. intros o' Ho' Hw'. split; [|done]. simplify_eq.
  apply set_subs_core_wf; [done|apply NoDup_filter, Hw|]. intros q Hq.
  by apply list_elem_of_filter in Hq as [_ ?].
Qed.

Lemma mark_terminal_wf r id now :
  reg_wf r → is_Some (get r id) →
  reg_wf (MkRegistry (rg_ops r) (rg_by_project r) (dset id now (rg_terminal r)) (rg_ttl r)
            (rg_queues r) (rg_next r) (rg_cancelled r)).
Proof.
  intros [? ? ? Hop ? Hterm ?] Hs. split; try done.
  - simpl. by apply dset_NoDup.
  - intros id' o Ho. destruct (Hop _ _ Ho) as [? ? ? Hr ? ?]. split; try done. simpl.
    intros Ht. apply elem_of_dkeys_dset. auto.
  - simpl. intros id' [->|Hi]%elem_of_dkeys_dset; [done|]. by apply Hterm.
Qed.

Lemma transition_wf now id s e c r : reg_wf r → reg_wf (transition now id s e c r).
Proof.
  intros H. unfold transition. destruct (get r id) as [o|] eqn:Ho; [|done]. apply broadcast_wf.
  destruct (terminal s) eqn:Es.
  - apply (alter_op_wf (MkRegistry (rg_ops r) (rg_by_project r) (dset id now (rg_terminal r)) (rg_ttl r)
            (rg_queues r) (rg_next r) (rg_cancelled r))).
    { by apply mark_terminal_wf. }
    intros o' _ [? ? ? ? ? ?]. split; [|done]. split; simpl; try done.
    intros _. apply elem_of_dkeys_dset. by left.
  - apply alter_op_wf; [done|]. intros o' _ [? ? ? ? ? ?]. split; [|done]. split; simpl; try done.
    by rewrite Es.
Qed.

Lemma settle_not_pending {A} (a : A) f : settle a f ≠ Pending.
Proof. by destruct f. Qed.

(** Settling the current gate leaves no pending gate. *)
Lemma supersede_no_pending (o : OperationState J) g :
  gates_ok o → dget g (supersede (op_gate o) (op_gates o)) ≠ Some Pending.
Proof.
  intros Hok. unfold supersede. destruct (op_gate o) as [old|] eqn:Eg.
  - rewrite dget_dalter, fmap_Some. intros (f & Hf & He). case_decide as Hd.
    + by destruct (settle_not_pending [] f).
    + simpl in He. subst f. apply Hok in Hf. rewrite Eg in Hf. by simplify_eq/=.
  - intros Hp. apply Hok in Hp. by rewrite Eg in Hp.
Qed.

Lemma resolve_gate_core ids (o : OperationState J) : same_core o (resolve_gate ids o).
Proof.
  split_and!; try done. intros Hok g. simpl. destruct (op_gate o) as [g0|] eqn:Eg; simpl.
  - rewrite dget_dalter, fmap_Some. intros (f & Hf & He). case_decide as Hd.
    + by destruct (settle_not_pending ids f).
    + simpl in He. subst f. apply Hok in Hf. by rewrite Eg in Hf.
  - intros Hp. apply Hok in Hp. by rewrite Eg in Hp.
Qed.

Lemma same_core_trans (o1 o2 o3 : OperationState J) :
  same_core o1 o2 → same_core o2 o3 → same_core o1 o3.
Proof. intros (? & ? & ? & ? & ?) (? & ? & ? & ? & ?). split_and!; [congruence..|auto]. Qed.

Ltac core := repeat first [apply alter_core_wf; [intros ?; split_and!; done|] | apply broadcast_wf
                          | apply transition_wf].

Lemma set_operation_budget_wf id b r : reg_wf r → reg_wf (set_operation_budget id b r).
Proof. intros H. unfold set_operation_budget. repeat case_match; by core. Qed.

Lemma add_progress_wf id e r : reg_wf r → reg_wf (add_progress id e r).
Proof. intros H. unfold add_progress. by core. Qed.

Lemma set_findings_wf now id l r : reg_wf r → reg_wf (set_findings now id l r).
Proof. intros H. unfold set_findings. repeat case_match; by core. Qed.

Lemma set_ai_triage_wf now id l r : reg_wf r → reg_wf (set_ai_triage now id l r).
Proof. intros H. unfold set_ai_triage. repeat case_match; by core. Qed.

Lemma set_proposals_wf now id gid ps gen r : reg_wf r → reg_wf (set_proposals now id gid ps gen r).
Proof.
  intros H. unfold set_proposals. case_match; [|done]. core. apply alter_core_wf; [|done].
  intros o'. split_and!; try done. intros Hok g. simpl. rewrite dget_dset. case_decide; [by subst|].
  intros Hp. by destruct (supersede_no_pending o' g Hok).
Qed.

Lemma set_result_wf id res r : reg_wf r → reg_wf (set_result id res r).
Proof. intros H. unfold set_result. by core. Qed.

Lemma set_pr_url_wf now id url r : reg_wf r → reg_wf (set_pr_url now id url r).
Proof. intros H. unfold set_pr_url. case_match; by core. Qed.

Lemma subscribe_wf id r : reg_wf r → reg_wf (subscribe id r).1.
Proof.
  intros H. unfold subscribe. destruct (get r id) as [o|] eqn:Ho; [|done]. simpl.
  set (r1 := MkRegistry (rg_ops r) (rg_by_project r) (rg_terminal r) (rg_ttl r)
               (<[rg_next r := []]> (rg_queues r)) (S (rg_next r)) (rg_cancelled r)).
  assert (reg_wf r1) as H1.
  { destruct H as [? ? ? Hop ? ? ?]. split; try done.
    - intros id' o' Ho'. destruct (Hop _ _ Ho') as [? ? ? ? [? Hlt] ?]. split; try done. split; [done|].
      eapply Forall_impl; [done|]. simpl. lia.
    - apply queues_ok_insert; [done|]. simpl. lia. }
  apply (alter_op_wf r1); [done|]. intros o' Ho' [? ? ? ? [Hnd Hlt] ?]. split; [|done].
  pose proof (ow_subs _ _ _ (rw_op _ H _ _ Ho')) as [_ Hlt0]. rewrite Forall_forall in Hlt0.
  split; simpl; try done. split.
  - apply NoDup_app. split_and!; [done| |by apply NoDup_singleton].
    intros q Hq ->%list_elem_of_singleton. specialize (Hlt0 _ Hq). simpl in Hlt0. lia.
  - apply Forall_app. split; [done|]. repeat constructor.
Qed.

Lemma unsubscribe_wf id q r : reg_wf r → reg_wf (unsubscribe id q r).
Proof.
  intros H. apply alter_op_wf; [done|]. intros o _ Hw. split; [|done].
  apply set_subs_core_wf; [done|apply NoDup_filter, Hw|].
  intros q' Hq. by apply list_elem_of_filter in Hq as [_ ?].
Qed.

Lemma remove_wf id r : reg_wf r → reg_wf (remove id r).
Proof.
  intros H. unfold remove. destruct (get r id) as [o|] eqn:Ho; [|done].
  pose proof (rw_op _ H _ _ Ho) as Hw. rewrite decide_True by apply Hw.
  destruct H as [? ? ? Hop Hby Hterm ?]. split; simpl; try by apply dpop_NoDup.
  - intros id' o'. unfold get. simpl. rewrite dget_dpop. case_decide as Hd; [done|]. intros Ho'.
    destruct (Hop _ _ Ho') as [? ? Hp Hr ? ?]. split; simpl; try done.
    + rewrite dget_dpop. case_decide as Hpp; [|done].
      pose proof (ow_project _ _ _ Hw). congruence.
    + intros Ht%Hr. apply dget_is_Some. rewrite dget_dpop, decide_False by done. by apply dget_is_Some.
  - intros p id'. rewrite dget_dpop. case_decide as Hd; [done|]. intros Hg.
    destruct (Hby _ _ Hg) as (o' & Ho' & Hp'). exists o'. split; [|done].
    unfold get. simpl. rewrite dget_dpop, decide_False; [done|]. intros ->. congruence.
  - intros id' Hi%dget_is_Some. rewrite dget_dpop in Hi. case_decide as Hd; [by destruct Hi|].
    unfold get. simpl. rewrite dget_dpop, decide_False by done. by apply Hterm, dget_is_Some.
  - by apply close_queues_ok.
Qed.

Lemma insert_wf r id p sc ty st :
  reg_wf r → id ≠ "" → get r id = None → dget p (rg_by_project r) = None →
  reg_wf (insert_op (new_operation id p sc ty st) r).
Proof.
  intros [? ? ? Hop Hby Hterm ?] Hne Hid Hp. split; simpl; try (by apply dset_NoDup); try done.
  - intros id' o'. unfold get. simpl. rewrite dget_dset. case_decide as Hd.
    + intros [= <-]. subst id'. split; simpl; try done.
      * by rewrite dget_dset_eq.
      * split; constructor.
    + intros Ho'. destruct (Hop _ _ Ho') as [? ? Hp' Hr ? ?]. split; simpl; try done.
      rewrite dget_dset. case_decide; [congruence|done].
  - intros p' id'. rewrite dget_dset. case_decide as Hd.
    + intros [= <-]. eexists. unfold get. simpl. by rewrite dget_dset_eq.
    + intros Hg. destruct (Hby _ _ Hg) as (o' & Ho' & Hp'). exists o'. split; [|done].
      unfold get. simpl. rewrite dget_dset, decide_False; [done|]. intros ->. congruence.
  - intros id' Hi. unfold get. simpl. rewrite dget_dset. case_decide; [done|]. by apply Hterm.
Qed.

Lemma get_remove r id id' : get (remove id r) id' = if decide (id' = id) then None else get r id'.
Proof.
  unfold remove. destruct (get r id) as [o|] eqn:Ho.
  - apply dget_dpop.
  - case_decide; by subst.
Qed.

Lemma remove_by_project r id o p :
  reg_wf r → get r id = Some o →
  dget p (rg_by_project (remove id r)) = if decide (p = op_project o) then None else dget p (rg_by_project r).
Proof.
  intros H Ho. unfold remove. rewrite Ho. simpl.
  rewrite decide_True by apply (rw_op _ H _ _ Ho). apply dget_dpop.
Qed.

(** In a well-formed registry, [create] replaces the terminal operation of the project,
    inserts when there is none, and fails when there is an active one. *)
Lemma create_cases r id p sc ty st :
  reg_wf r →
  create id p sc ty st r =
  match get_by_project r p with
  | None => Some (insert_op (new_operation id p sc ty st) r)
  | Some o => if terminal (op_status o)
              then Some (insert_op (new_operation id p sc ty st) (remove (op_id o) r)) else None
  end.
Proof.
  intros H. unfold create, get_by_project.
  destruct (dget p (rg_by_project r)) as [old|] eqn:Hp; simpl; [|done].
  destruct (rw_by_project _ H _ _ Hp) as (o & Ho & Hpr). rewrite Ho.
  pose proof (rw_op _ H _ _ Ho) as Hw. pose proof (ow_nonempty _ _ _ Hw) as Hne.
  rewrite (ow_id _ _ _ Hw). by destruct old.
Qed.

Lemma create_wf r id p sc ty st r' :
  reg_wf r → id ≠ "" → get r id = None → create id p sc ty st r = Some r' → reg_wf r'.
Proof.
  intros H Hne Hfresh. rewrite create_cases by done. unfold get_by_project.
  destruct (dget p (rg_by_project r)) as [old|] eqn:Hp; simpl.
  2: { intros [= <-]. by apply insert_wf. }
  destruct (rw_by_project _ H _ _ Hp) as (o & Ho & Hpr). rewrite Ho. case_match; [|done]. intros [= <-].
  rewrite (ow_id _ _ _ (rw_op _ H _ _ Ho)).
  apply insert_wf; [by apply remove_wf|done| |].
  - rewrite get_remove. by case_decide.
  - by rewrite (remove_by_project _ _ o), decide_True.
Qed.

Lemma remove_project_wf r p r' : reg_wf r → remove_project p r = Some r' → reg_wf r'.
Proof.
  intros H. unfold remove_project. repeat case_match; intros; simplify_eq; [|done]. by apply remove_wf.
Qed.

Lemma removes_wf l r : reg_wf r → reg_wf (foldl (λ r id, remove id r) r l).
Proof. revert r. induction l as [|id l IH]; intros r H; simpl; [done|]. apply IH. by apply remove_wf. Qed.

Lemma shutdown_wf r : reg_wf r → reg_wf (shutdown r).
Proof.
  intros H. split; simpl; [constructor..|done|done|by inversion 1|].
  pose proof (rw_queue _ H) as Hq. revert Hq. generalize (rg_queues r). generalize (rg_ops r).
  intros ops. induction ops as [|[id o] ops IH]; intros qs Hq; simpl; [done|].
  by apply IH, close_queues_ok.
Qed.

Lemma approve_wf r p gid ids r' : reg_wf r → approve_proposals p gid ids r = inr r' → reg_wf r'.
Proof.
  intros H. unfold approve_proposals. repeat case_match; intros; simplify_eq.
  apply alter_core_wf; [|done]. intros ?. apply resolve_gate_core.
Qed.

(** The gate is cleared only once its future is done. *)
Lemma forward_gate_wf r id gid o f :
  reg_wf r → get r id = Some o → dget gid (op_gates o) = Some f → is_done f = true →
  reg_wf (forward_gate id gid r).
Proof.
  intros H Ho Hg Hf. apply alter_op_wf; [done|]. intros o' Ho' Hw. simplify_eq. split; [|done].
  destruct Hw as [? ? ? ? ? Hok]. split; simpl; try done. intros g Hp. simpl in *.
  specialize (Hok _ Hp). case_decide as Hd; [|done].
  assert (g = gid) as -> by congruence. by simplify_eq.
Qed.

Lemma begin_remediate_wf r p r' : reg_wf r → begin_remediate p r = inr r' → reg_wf r'.
Proof. intros H. unfold begin_remediate. repeat case_match; intros; simplify_eq; by core. Qed.

Lemma escalate_ai_wf now r p l r' : reg_wf r → escalate_ai now p l r = inr r' → reg_wf r'.
Proof. intros H. unfold escalate_ai. repeat case_match; intros; simplify_eq; by core. Qed.

Lemma cancel_operation_wf now r p r' : reg_wf r → cancel_operation now p r = inr r' → reg_wf r'.
Proof.
  intros H. unfold cancel_operation. repeat case_match; intros; simplify_eq.
  apply with_cancelled_wf, alter_core_wf; [|by core]. intros o'.
  eapply same_core_trans; [apply (resolve_gate_core [])|]. by split_and!.
Qed.

Lemma on_begin_timeout_wf id r : reg_wf r → reg_wf (on_begin_timeout id r).
Proof. intros H. unfold on_begin_timeout. repeat case_match; by core. Qed.

Lemma take_message_wf q r : reg_wf r → reg_wf (take_message q r).
Proof.
  intros H. apply with_queues_wf; [done|]. apply queues_ok_insert; [apply H|].
  rewrite length_tail. pose proof (queues_ok_default _ q (rw_queue _ H)). unfold queue_of. lia.
Qed.

(** ** The life of a registry *)

Inductive reg_step (r : registry J) : registry J → Prop :=
| step_create id p sc ty st r' :
    id ≠ "" → get r id = None → create id p sc ty st r = Some r' → reg_step r r'
| step_remove_project p r' : remove_project p r = Some r' → reg_step r r'
| step_transition now id s e c : reg_step r (transition now id s e c r)
| step_budget id b : reg_step r (set_operation_budget id b r)
| step_progress id e : reg_step r (add_progress id e r)
| step_findings now id l : reg_step r (set_findings now id l r)
| step_triage now id l : reg_step r (set_ai_triage now id l r)
| step_proposals now id gid ps gen : reg_step r (set_proposals now id gid ps gen r)
| step_proposal_updated id l : reg_step r (broadcast_proposal_updated id l r)
| step_result id res : reg_step r (set_result id res r)
| step_pr_url now id url : reg_step r (set_pr_url now id url r)
| step_subscribe id : reg_step r (subscribe id r).1
| step_unsubscribe id q : reg_step r (unsubscribe id q r)
| step_take q : reg_step r (take_message q r)
| step_reap now : reg_step r (reap now r)
| step_shutdown : reg_step r (shutdown r)
| step_task id t : reg_step r (set_task id t r)
| step_approve p gid ids r' : approve_proposals p gid ids r = inr r' → reg_step r r'
| step_settle_gate id ids : reg_step r (alter_op id (resolve_gate ids) r)
| step_forward id gid o f :
    get r id = Some o → dget gid (op_gates o) = Some f → is_done f = true →
    reg_step r (forward_gate id gid r)
| step_begin p r' : begin_remediate p r = inr r' → reg_step r r'
| step_clear_begin id : reg_step r (clear_begin id r)
| step_escalate now p l r' : escalate_ai now p l r = inr r' → reg_step r r'
| step_clear_escalate id : reg_step r (on_escalate_timeout id r)
| step_begin_timeout id : reg_step r (on_begin_timeout id r)
| step_cancel now p r' : cancel_operation now p r = inr r' → reg_step r r'.

Definition reachable (ttl : Z) (r : registry J) : Prop := rtc reg_step (empty_registry ttl) r.

Lemma reg_step_wf r r' : reg_wf r → reg_step r r' → reg_wf r'.
Proof.
  intros H [].
  - by eapply create_wf.
  - by eapply remove_project_wf.
  - by apply transition_wf.
  - by apply set_operation_budget_wf.
  - by apply add_progress_wf.
  - by apply set_findings_wf.
  - by apply set_ai_triage_wf.
  - by apply set_proposals_wf.
  - by apply broadcast_wf.
  - by apply set_result_wf.
  - by apply set_pr_url_wf.
  - by apply subscribe_wf.
  - by apply unsubscribe_wf.
  - by apply take_message_wf.
  - by apply removes_wf.
  - by apply shutdown_wf.
  - unfold set_task. by core.
  - by eapply approve_wf.
  - apply alter_core_wf; [|done]. intros ?. apply resolve_gate_core.
  - by eapply forward_gate_wf.
  - by eapply begin_remediate_wf.
  - unfold clear_begin. by core.
  - by eapply escalate_ai_wf.
  - unfold on_escalate_timeout. by core.
  - by apply on_begin_timeout_wf.
  - by eapply cancel_operation_wf.
Qed.

Lemma empty_wf ttl : reg_wf (empty_registry ttl : registry J).
Proof. split; simpl; [constructor..|done|done|by inversion 1|done]. Qed.

Lemma reachable_wf ttl r : reachable ttl r → reg_wf r.
Proof.
  intros Hr. assert (∀ r0, reg_wf r0 → rtc reg_step r0 r → reg_wf r) as H.
  { intros r0 H0 Hs. induction Hs; eauto using reg_step_wf. }
  eapply H; [apply (empty_wf ttl)|done].
Qed.

(** ** What the methods do to an operation *)

Lemma get_broadcast r id m id' :
  ∃ subs, get (broadcast id m r) id'
          = (if decide (id' = id) then set_subs subs else Datatypes.id) <$> get r id'.
Proof.
  unfold broadcast. destruct (get r id) as [o|] eqn:Ho.
  - destruct (broadcast_all m (op_subs o) (rg_queues r)) as [kept qs]. exists kept. apply dget_dalter.
  - exists []. case_decide; [by subst; rewrite Ho|]. by destruct (get r id').
Qed.

Lemma get_transition r now id s e c id' :
  ∃ subs, get (transition now id s e c r) id'
          = (if decide (id' = id) then λ o, set_subs subs (set_status s e c o) else Datatypes.id)
            <$> get r id'.
Proof.
  unfold transition. destruct (get r id) as [o|] eqn:Ho.
  2: { exists []. case_decide; [by subst; rewrite Ho|]. by destruct (get r id'). }
  lazymatch goal with |- context [broadcast id ?m ?r2] =>
    destruct (get_broadcast r2 id m id') as [subs Hs];
    assert (get r2 id' = get (alter_op id (set_status s e c) r) id') as Ha by (by destruct (terminal s))
  end.
  exists subs. rewrite Hs, Ha, get_alter_op. case_decide; by destruct (get r id').
Qed.

(** The operation after an update of its payload, a transition and a broadcast. *)
Lemma get_announced r id f now s m o :
  get r id = Some o →
  ∃ subs, get (broadcast id m (transition now id s None None (alter_op id f r))) id
          = Some (set_subs subs (set_status s None None (f o))).
Proof.
  intros Ho.
  lazymatch goal with |- context [broadcast id m ?r2] => destruct (get_broadcast r2 id m id) as [l1 H1] end.
  destruct (get_transition (alter_op id f r) now id s None None id) as [l2 H2].
  exists l1. rewrite H1, H2, get_alter_op, Ho, !decide_True by done. done.
Qed.

(** ** Theorems *)

(** C30: In every reachable registry a project has at most one operation and the project
    index finds it; every terminal operation has a reap time, so the reaper will consider
    it; an operation has at most one pending approval gate, its current one; and no
    subscriber queue holds more than 256 messages. *)
Theorem registry_invariant ttl r :
  reachable ttl r →
  (∀ id1 id2 o1 o2, get r id1 = Some o1 → get r id2 = Some o2 → op_project o1 = op_project o2 →
     id1 = id2) ∧
  (∀ id o, get r id = Some o →
     op_id o = id ∧ get_by_project r (op_project o) = Some o ∧
     (terminal (op_status o) = true → is_Some (dget id (rg_terminal r))) ∧
     (∀ g, dget g (op_gates o) = Some Pending → gt_id <$> op_gate o = Some g)) ∧
  (∀ q, length (queue_of r q) ≤ QUEUE_MAX).
Proof.
  intros H%reachable_wf. split_and!.
  - intros id1 id2 o1 o2 H1 H2 Hp. apply (rw_op _ H) in H1, H2. destruct H1, H2. congruence.
  - intros id o Ho. destruct (rw_op _ H _ _ Ho) as [? ? Hp Hr ? Hg]. split_and!; [done| | |exact Hg].
    + unfold get_by_project. by rewrite Hp.
    + intros Ht. by apply dget_is_Some, Hr.
  - intros q. apply queues_ok_default, H.
Qed.

(** What room-making leaves of a full queue: all but the oldest droppable message, or all
    but the oldest when none may be dropped. *)
Definition made_room (before after : list (message J)) : Prop :=
  (∃ l x l', before = (l ++ x :: l')%list ∧ after = (l ++ l')%list ∧ is_must_deliver x = false ∧
             Forall (λ y, is_must_deliver y = true) l) ∨
  (Forall (λ y, is_must_deliver y = true) before ∧ ∃ x, before = x :: after).

Lemma deliver_must m buf :
  is_must_deliver m = true → length buf ≤ QUEUE_MAX →
  ∃ kept, deliver m buf = Some (kept ++ [m])%list ∧
    (length buf < QUEUE_MAX → kept = buf) ∧ (QUEUE_MAX ≤ length buf → made_room buf kept).
Proof.
  intros Hm Hl. unfold deliver. case_decide as Hd; [exists buf; split_and!; [done|done|lia]|].
  rewrite Hm. eexists; split_and!; [done|lia|]. intros _.
  assert (0 < length buf) as Hpos by (unfold QUEUE_MAX in *; lia).
  destruct (make_room_spec (length buf) buf Hl Hpos) as [_ ->]. rewrite decide_False by lia.
  pose proof (drop_oldest_spec buf) as Hs. destruct (drop_oldest buf) as [b|]; [by left|].
  right. split; [done|]. destruct buf as [|x buf]; [simpl in Hpos; lia|]. by exists x.
Qed.

(** A must-deliver message (a result, a created pull request, a terminal status) keeps
    every subscriber of the operation and ends up as the last message of each of their
    queues.  A queue with room loses nothing; a full queue loses exactly its oldest
    droppable message, or its oldest message when all of them are must-deliver, and the
    other messages keep their order. *)
Theorem must_deliver_reaches_subscribers ttl r id o m :
  reachable ttl r → get r id = Some o → is_must_deliver m = true →
  (∃ o', get (broadcast id m r) id = Some o' ∧ op_subs o' = op_subs o) ∧
  ∀ q, q ∈ op_subs o →
    ∃ kept, queue_of (broadcast id m r) q = (kept ++ [m])%list ∧
      (length (queue_of r q) < QUEUE_MAX → kept = queue_of r q) ∧
      (QUEUE_MAX ≤ length (queue_of r q) → made_room (queue_of r q) kept).
Proof.
  intros H%reachable_wf Ho Hm. unfold queue_of, broadcast. rewrite Ho.
  destruct (broadcast_all m (op_subs o) (rg_queues r)) as [kept qs] eqn:Eb.
  assert (Hd := λ q, deliver_must m (default [] (rg_queues r !! q)) Hm (queues_ok_default _ q (rw_queue _ H))).
  apply broadcast_all_spec in Eb as (_ & Hk & Hin & _); [|apply (rw_op _ H _ _ Ho)|apply H].
  assert (kept = op_subs o) as Hall.
  { rewrite Hk. apply filter_all. apply Forall_forall. intros q _.
    destruct (Hd q) as (b & -> & _). eauto. }
  split.
  - eexists. unfold get. simpl. rewrite dget_dalter, decide_True by done. unfold get in Ho. rewrite Ho.
    split; [done|]. by simpl.
  - intros q Hq. destruct (Hd q) as (b & Hdl & H1 & H2). exists b. split_and!; [|done|done].
    simpl. rewrite <- Hin by (by rewrite Hall). by rewrite Hdl.
Qed.

(** Findings are taken only during the assess pause and triage candidates only up to
    the triage pause: then the operation moves to that pause, stores the payload and keeps
    the future that a bridge already awaits.  A replay that arrives later changes nothing,
    so it cannot move the operation back. *)
Theorem replays_do_not_regress r id o now (l : list J) :
  get r id = Some o →
  (if decide (op_status o ∈ FINDINGS_ALLOWED_STATUSES)
   then ∃ o', get (set_findings now id l r) id = Some o' ∧ op_status o' = ASSESSED ∧
              op_findings o' = Some l ∧
              op_begin o' = Some (default Pending (op_begin o))
   else set_findings now id l r = r) ∧
  (if decide (op_status o ∈ AI_TRIAGE_ALLOWED_STATUSES ∧ late_triage o = false)
   then ∃ o', get (set_ai_triage now id l r) id = Some o' ∧ op_status o' = AWAITING_AI_TRIAGE ∧
              op_triage o' = Some l ∧ op_escalate o' = Some (default Pending (op_escalate o)) ∧
              op_begin o' ≠ Some Pending
   else set_ai_triage now id l r = r).
Proof.
  intros Ho. unfold set_findings, set_ai_triage. rewrite Ho. split.
  - destruct (decide (op_status o ∈ FINDINGS_ALLOWED_STATUSES)) as [Hin|Hin].
    2: by rewrite decide_True.
    rewrite decide_False by tauto. edestruct get_announced as [subs ->]; [done|].
    eexists; split_and!; try done. simpl. by destruct (op_begin o).
  - destruct (decide (op_status o ∈ AI_TRIAGE_ALLOWED_STATUSES)) as [Hin|Hin].
    2: { rewrite (decide_True (P := op_status o ∉ _)) by done. by rewrite decide_False by tauto. }
    rewrite (decide_False (P := op_status o ∉ _)) by tauto. destruct (late_triage o).
    { by rewrite decide_False by naive_solver. }
    rewrite decide_True by done. edestruct get_announced as [subs ->]; [done|].
    eexists; split_and!; try done; simpl.
    + by destruct (op_escalate o).
    + destruct (op_begin o) as [f|]; [|done]. intros [= Hf]. by destruct (settle_not_pending tt f).
Qed.

Lemma get_insert r o id' :
  get (insert_op o r) id' = if decide (id' = op_id o) then Some o else get r id'.
Proof. apply dget_dset. Qed.

(** [create] refuses exactly when the project has an operation that is not terminal.
    Otherwise the project's operation is the new one, queued; a terminal predecessor is
    gone, and the operations of the other projects are untouched. *)
Theorem create_spec ttl r id p sc ty st :
  reachable ttl r → id ≠ "" → get r id = None →
  match create id p sc ty st r with
  | None => ∃ o, get_by_project r p = Some o ∧ terminal (op_status o) = false
  | Some r' =>
    (∀ o, get_by_project r p = Some o → terminal (op_status o) = true) ∧
    get_by_project r' p = Some (new_operation id p sc ty st) ∧
    ∀ id', id' ≠ id →
      get r' id' = match get r id' with
                   | Some o => if decide (op_project o = p) then None else Some o
                   | None => None
                   end
  end.
Proof.
  intros H%reachable_wf Hne Hfresh. rewrite create_cases by done.
  assert (Hothers : ∀ id' o, get r id' = Some o → op_project o = p →
            get_by_project r p = Some o ∧ op_id o = id').
  { intros id' o Ho Hp. destruct (rw_op _ H _ _ Ho) as [Hi ? Hpr ? ? ?]. split; [|done].
    unfold get_by_project. by rewrite <- Hp, Hpr. }
  assert (Hnew : ∀ r0, get_by_project (insert_op (new_operation id p sc ty st) r0) p
                       = Some (new_operation id p sc ty st)).
  { intros r0. unfold get_by_project. simpl. rewrite dget_dset_eq. simpl.
    by rewrite get_insert, decide_True. }
  destruct (get_by_project r p) as [o|] eqn:Hp.
  - destruct (terminal (op_status o)) eqn:Ht; [|by exists o]. split_and!; [naive_solver|done|].
    intros id' Hid. rewrite get_insert, decide_False by done. rewrite get_remove.
    destruct (get r id') as [o'|] eqn:Ho'; [|by case_decide].
    destruct (decide (op_project o' = p)) as [Hp'|Hp'].
    + destruct (Hothers _ _ Ho' Hp') as [[= ->] <-]. by rewrite decide_True.
    + rewrite decide_False; [done|]. intros ->. apply Hp'.
      unfold get_by_project in Hp. destruct (dget p (rg_by_project r)) as [i|] eqn:Hd; [|done].
      simpl in Hp. destruct (rw_by_project _ H _ _ Hd) as (o2 & Ho2 & Hp2).
      rewrite (ow_id _ _ _ (rw_op _ H _ _ Hp)) in Ho'. congruence.
  - split_and!; [done|done|]. intros id' Hid. rewrite get_insert, decide_False by done.
    destruct (get r id') as [o'|] eqn:Ho'; [|done]. case_decide as Hp'; [|done].
    by destruct (Hothers _ _ Ho' Hp').
Qed.

(** An approval that is accepted names the current gate (or none), wakes the bridge
    with the approved ids among the offered ones, in offered order, and is the last one:
    any further approval of that round is refused. *)
Theorem approve_once ttl r p gid ids r' :
  reachable ttl r → approve_proposals p gid ids r = inr r' →
  ∃ o g o', get_by_project r p = Some o ∧ op_gate o = Some g ∧
    dget (gt_id g) (op_gates o) = Some Pending ∧ (gid = None ∨ gid = Some (gt_id g)) ∧
    get_by_project r' p = Some o' ∧
    dget (gt_id g) (op_gates o')
    = Some (Done (filter (λ i, i ∈ ids) (pr_id <$> default [] (op_proposals o)))) ∧
    ∀ gid' ids', approve_proposals p gid' ids' r' = inl AlreadySubmitted.
Proof.
  intros H%reachable_wf. unfold approve_proposals at 1.
  destruct (get_by_project r p) as [o|] eqn:Hp; [|done]. case_decide as Hs; [done|].
  destruct (op_gate o) as [g|] eqn:Hg; [|done]. destruct (gate_done o g) eqn:Hd; [done|].
  case_decide as Hgid; [done|]. intros [= <-].
  assert (dget (gt_id g) (op_gates o) = Some Pending) as Hpend.
  { unfold gate_done in Hd. by destruct (dget (gt_id g) (op_gates o)) as [[]|]. }
  set (ap := filter _ _). exists o, g, (resolve_gate ap o).
  assert (get_by_project (alter_op (op_id o) (resolve_gate ap) r) p = Some (resolve_gate ap o)) as Hp'.
  { unfold get_by_project in *. simpl. destruct (dget p (rg_by_project r)) as [i|]; [|done]. simpl in *.
    rewrite get_alter_op, Hp, (ow_id _ _ _ (rw_op _ H _ _ Hp)), decide_True by done. done. }
  assert (dget (gt_id g) (op_gates (resolve_gate ap o)) = Some (Done ap)) as Hdone.
  { simpl. rewrite Hg, dget_dalter, decide_True, Hpend by done. done. }
  split_and!; try done.
  - destruct gid as [gid|]; [|by left]. right. apply dec_stable. naive_solver.
  - intros gid' ids'. unfold approve_proposals. rewrite Hp'. simpl. rewrite (decide_False (P := op_status o ≠ _)) by (by intros ?).
    rewrite Hg. unfold gate_done. by rewrite Hdone.
Qed.

Lemma get_removes l r id : get (foldl (λ r id, remove id r) r l) id = if decide (id ∈ l) then None else get r id.
Proof.
  revert r. induction l as [|i l IH]; intros r; simpl; [done|].
  rewrite IH, get_remove. repeat case_decide; set_solver.
Qed.

Lemma elem_of_expired r now id :
  reg_wf r → id ∈ expired now r ↔ ∃ t, dget id (rg_terminal r) = Some t ∧ (rg_ttl r <= now - t)%Z.
Proof.
  intros H. unfold expired. rewrite list_elem_of_fmap. split.
  - intros ([i t] & -> & [Hge Hin]%list_elem_of_filter). exists t. split; [|done].
    apply dget_elem; [apply H|done].
  - intros (t & Ht & Hge). exists (id, t). split; [done|]. apply list_elem_of_filter.
    split; [done|]. by apply dget_Some_elem.
Qed.

Lemma get_by_project_None r p :
  reg_wf r → (∀ id o, get r id = Some o → op_project o ≠ p) → get_by_project r p = None.
Proof.
  intros H Hn. unfold get_by_project. destruct (dget p (rg_by_project r)) as [id|] eqn:Hd; [|done].
  destruct (rw_by_project _ H _ _ Hd) as (o & Ho & Hp). by destruct (Hn _ _ Ho).
Qed.

(** A round of the reaper removes an operation, and frees its project, exactly when a
    reap time at least the TTL ago is recorded for it. *)
Theorem reap_spec ttl r now id o :
  reachable ttl r → get r id = Some o →
  (∀ t, dget id (rg_terminal r) = Some t → (rg_ttl r <= now - t)%Z →
     get (reap now r) id = None ∧ get_by_project (reap now r) (op_project o) = None) ∧
  ((∀ t, dget id (rg_terminal r) = Some t → (now - t < rg_ttl r)%Z) →
     get (reap now r) id = Some o ∧ get_by_project (reap now r) (op_project o) = Some o).
Proof.
  intros H%reachable_wf Ho. pose proof (rw_op _ H _ _ Ho) as Hw.
  assert (Hw' : reg_wf (reap now r)) by by apply removes_wf.
  assert (Hby : get (reap now r) id = Some o → get_by_project (reap now r) (op_project o) = Some o).
  { intros Hg. unfold get_by_project. rewrite (ow_project _ _ _ (rw_op _ Hw' _ _ Hg)). done. }
  unfold reap in *. rewrite !get_removes in *. split.
  - intros t Ht Hold. rewrite decide_True by (by apply elem_of_expired; eauto). split; [done|].
    apply get_by_project_None; [done|]. intros id' o' Hg. rewrite get_removes in Hg. case_decide as Hi; [done|].
    intros Hp. apply Hi. assert (id' = id) as ->.
    { destruct (rw_op _ H _ _ Hg), Hw. congruence. }
    apply elem_of_expired; eauto.
  - intros Hnew. assert (id ∉ expired now r) as Hn.
    { rewrite elem_of_expired by done. intros (t & Ht & Hge). specialize (Hnew _ Ht). lia. }
    rewrite decide_False in Hby |- * by done. auto.
Qed.
End Props.

(** ** A run *)

Lemma reach_step {J} ttl (r r' : registry J) : reachable ttl r → reg_step r r' → reachable ttl r'.
Proof. intros. by eapply rtc_r. Qed.

Module Demo.

(** A remediation with one subscriber, up to its approval pause. *)
Definition created : registry string :=
  default (empty_registry 600) (create "op1" "proj" "scan1" "remediate" "t0" (empty_registry 600)).
Definition watched : registry string := (subscribe "op1" created).1.
Definition assessed : registry string := set_findings 1 "op1" ["finding"] watched.
Definition proposal (id : string) : Proposal :=
  MkProposal id "L001" "site.yml" 2 "0.9" "" "" "proposed" "ai" "" "" "" 1 2 "" "".
Definition offered : registry string :=
  set_proposals 2 "op1" "gate1" [proposal "p1"; proposal "p2"; proposal "p3"] (Some 1%Z) assessed.
Definition completed : registry string := transition 3 "op1" COMPLETED None None offered.
Definition submitting : registry string := transition 600 "op1" SUBMITTING_PR None None completed.

Lemma offered_reachable : reachable 600 offered.
Proof.
  eapply reach_step; [|apply step_proposals]. eapply reach_step; [|apply step_findings].
  eapply reach_step; [|apply step_subscribe].
  eapply reach_step; [apply rtc_refl|]. by apply (step_create _ "op1" "proj" "scan1" "remediate" "t0").
Qed.

Lemma completed_reachable : reachable 600 completed.
Proof. eapply reach_step; [apply offered_reachable|apply step_transition]. Qed.

Definition op_of (r : registry string) : OperationState string :=
  default (new_operation "" "" "" "" "") (get r "op1").

Lemma registry_invariant_witness :
  reachable 600 offered ∧ ∀ q, length (queue_of offered q) ≤ QUEUE_MAX.
Proof. split; [apply offered_reachable|]. apply (registry_invariant 600 offered offered_reachable). Defined.

Lemma must_deliver_reaches_subscribers_witness :
  ∃ kept, queue_of (broadcast "op1" (MPrCreated "url") offered) 0 = (kept ++ [MPrCreated "url"])%list ∧
    kept = queue_of offered 0 ∧ length kept = 4.
Proof.
  destruct (must_deliver_reaches_subscribers 600 offered "op1" (op_of offered) (MPrCreated "url")
              offered_reachable ltac:(vm_compute; reflexivity) ltac:(vm_compute; reflexivity)) as [_ H].
  destruct (H 0 ltac:(vm_compute; left)) as (kept & Hq & Hk & _). exists kept. split; [exact Hq|].
  rewrite (Hk ltac:(apply Nat.ltb_lt; vm_compute; reflexivity)). split; vm_compute; reflexivity.
Defined.

Lemma replays_do_not_regress_witness :
  set_findings 9 "op1" ["late"] offered = offered ∧ set_ai_triage 9 "op1" ["late"] offered = offered.
Proof. exact (replays_do_not_regress offered "op1" (op_of offered) 9 ["late"] ltac:(vm_compute; reflexivity)). Defined.

Lemma create_spec_witness :
  (∃ o, get_by_project offered "proj" = Some o ∧ terminal (op_status o) = false) ∧
  create "op2" "proj" "scan2" "check" "t1" offered = None.
Proof.
  split; [|vm_compute; reflexivity].
  exact (create_spec 600 offered "op2" "proj" "scan2" "check" "t1" offered_reachable
           ltac:(discriminate) ltac:(vm_compute; reflexivity)).
Defined.

Definition approved : registry string :=
  match approve_proposals "proj" (Some "gate1") ["p3"; "bogus"; "p1"] offered with
  | inr r => r | inl _ => offered
  end.

Lemma approve_once_witness :
  dget "gate1" (op_gates (op_of approved)) = Some (Done ["p1"; "p3"]) ∧
  approve_proposals "proj" None ["p2"] approved = inl AlreadySubmitted.
Proof.
  destruct (approve_once 600 offered "proj" (Some "gate1") ["p3"; "bogus"; "p1"] approved
              offered_reachable ltac:(vm_compute; reflexivity)) as (o & g & o' & _ & _ & _ & _ & _ & _ & H).
  split; [vm_compute; reflexivity|apply H].
Defined.

Lemma reap_spec_witness :
  get (reap 603 completed) "op1" = None ∧ get (reap 602 completed) "op1" = Some (op_of completed).
Proof.
  destruct (reap_spec 600 completed 603 "op1" (op_of completed) completed_reachable
              ltac:(vm_compute; reflexivity)) as [H1 _].
  destruct (reap_spec 600 completed 602 "op1" (op_of completed) completed_reachable
              ltac:(vm_compute; reflexivity)) as [_ H2].
  split.
  - refine (proj1 (H1 3%Z _ _)); [vm_compute; reflexivity|vm_compute; discriminate].
  - refine (proj1 (H2 _)). vm_compute. intros t [= <-]. reflexivity.
Defined.

(** The submission of a pull request takes a completed operation back to a status that is
    not terminal, and its reap time stays: the reaper evicts it during the submission, its
    subscribers are told to close, and the pull request's URL is then lost. *)
Theorem reaper_evicts_active_operation :
  reachable 600 submitting ∧ op_status (op_of submitting) = SUBMITTING_PR ∧
  terminal SUBMITTING_PR = false ∧ get (reap 603 submitting) "op1" = None ∧
  set_pr_url 610 "op1" "https://host/pr/1" (reap 603 submitting) = reap 603 submitting.
Proof.
  split; [eapply reach_step; [apply completed_reachable|apply step_transition]|].
  split_and!; vm_compute; reflexivity.
Qed.
End Demo.
