(* ===== verification/OperatorQueue.v ===== *)
(** * Operator answers and the scan driver

    [OperatorAnswerQueue] of [src/apme_gateway/scan/operator_queue.py] and the part of
    [run_project_operation] in [scan/driver.py] that turns an engine event and the
    operator's answer into session commands.

    [next_answer] suspends at its [get]: other tasks may put answers, drain the queue or
    begin prompts in between.  A wait is therefore a value ([wait]) that is advanced by
    a schedule of events ([wev]); [EvTake] is the resumption of the [get] when an item is
    there, [EvTimeout] the expiry of the deadline. *)

From stdpp Require Import base list gmap strings sorting relations.
From S2P Require Import Prelude.

#[local] Open Scope Z_scope.

Section Queue.
Context {T : Type}.
Implicit Types (x : Z * T) (l : list (Z * T)).

(** ** The queue *)

Record OperatorAnswerQueue := MkAnswerQueue {
  aq_items : list (Z * T);
  aq_generation : Z;
}.

Definition empty_queue : OperatorAnswerQueue := MkAnswerQueue [] 0.

(** [put] and [put_nowait]: the queue is unbounded, so neither blocks. *)
Definition put (v : T) (for_generation : option Z) (q : OperatorAnswerQueue) : OperatorAnswerQueue :=
  MkAnswerQueue (aq_items q ++ [(default (aq_generation q) for_generation, v)]) (aq_generation q).

Definition begin_prompt (q : OperatorAnswerQueue) : OperatorAnswerQueue * Z :=
  (MkAnswerQueue (aq_items q) (aq_generation q + 1), aq_generation q + 1).

(** The [while] loop of [drain_through]: number dropped, and the retained items. *)
Fixpoint drain_loop (max_generation : Z) l (drained : Z) (retained : list (Z * T))
    : Z * list (Z * T) :=
  match l with
  | [] => (drained, retained)
  | x :: l' =>
    if x.1 <=? max_generation then drain_loop max_generation l' (drained + 1) retained
    else drain_loop max_generation l' drained (retained ++ [x])
  end.

Definition drain_through (max_generation : Z) (q : OperatorAnswerQueue) : OperatorAnswerQueue * Z :=
  let '(drained, retained) := drain_loop max_generation (aq_items q) 0 [] in
  (MkAnswerQueue retained (aq_generation q), drained).

(** ** Waiting for an answer *)

(** The frame of a suspended [next_answer]. *)
Record wait := MkWait { w_generation : Z; w_stashed : list (Z * T) }.

Inductive outcome := Waiting (w : wait) | Answered (v : T) | TimedOut.

Definition next_answer (expected_generation : option Z) (q : OperatorAnswerQueue) : outcome :=
  Waiting (MkWait (default (aq_generation q) expected_generation) []).

Definition requeue l (q : OperatorAnswerQueue) : OperatorAnswerQueue :=
  MkAnswerQueue (aq_items q ++ l) (aq_generation q).

(** One round of the loop, with the item the [get] returned. *)
Definition take (w : wait) (q : OperatorAnswerQueue) : outcome * OperatorAnswerQueue :=
  match aq_items q with
  | [] => (Waiting w, q)
  | (generation, value) :: rest =>
    let q' := MkAnswerQueue rest (aq_generation q) in
    if generation =? w_generation w then (Answered value, requeue (w_stashed w) q')
    else if generation <? w_generation w then (Waiting w, q')
    else (Waiting (MkWait (w_generation w) (w_stashed w ++ [(generation, value)])), q')
  end.

Definition timeout (w : wait) (q : OperatorAnswerQueue) : outcome * OperatorAnswerQueue :=
  (TimedOut, (drain_through (w_generation w) (requeue (w_stashed w) q)).1).

Inductive wev :=
| EvTake
| EvTimeout
| EvPut (v : T) (for_generation : option Z)
| EvBegin
| EvDrain (max_generation : Z).

Definition wstep (e : wev) (s : outcome * OperatorAnswerQueue) : outcome * OperatorAnswerQueue :=
  let '(o, q) := s in
  match e, o with
  | EvTake, Waiting w => take w q
  | EvTimeout, Waiting w => timeout w q
  | EvPut v g, _ => (o, put v g q)
  | EvBegin, _ => (o, (begin_prompt q).1)
  | EvDrain m, _ => (o, (drain_through m q).1)
  | _, _ => s
  end.

Definition wrun (es : list wev) (s : outcome * OperatorAnswerQueue) : outcome * OperatorAnswerQueue :=
  foldl (λ s e, wstep e s) s es.

(** ** Draining is a filter *)

Lemma drain_loop_spec m l n acc :
  drain_loop m l n acc
  = (n + Z.of_nat (length (filter (λ x, x.1 <= m) l)),
     (acc ++ filter (λ x, ¬ x.1 <= m) l)%list).
Proof.
  revert n acc. induction l as [|x l IH]; intros n acc; simpl; [rewrite app_nil_r; f_equal; lia|].
  rewrite !filter_cons. destruct (Z.leb_spec x.1 m).
  - rewrite IH, (decide_True (P := x.1 <= m)), (decide_False (P := ¬ x.1 <= m)) by lia.
    simpl. f_equal. lia.
  - rewrite IH, (decide_False (P := x.1 <= m)), (decide_True (P := ¬ x.1 <= m)) by lia.
    by rewrite <- app_assoc.
Qed.

Lemma drain_through_items m q :
  aq_items (drain_through m q).1 = filter (λ x, ¬ x.1 <= m) (aq_items q).
Proof. unfold drain_through. by rewrite drain_loop_spec. Qed.

(** ** The abstract queue

    A bag of pending answers.  A wait for generation [g] may lose stale answers, takes
    at most one answer of generation [g], and keeps the answers of later prompts. *)

Definition newer (g : Z) l : list (Z * T) := filter (λ x, g < x.1) l.

Lemma newer_app g l1 l2 : newer g (l1 ++ l2) = (newer g l1 ++ newer g l2)%list.
Proof. apply filter_app. Qed.

Lemma newer_cons g x l : newer g (x :: l) = if decide (g < x.1) then x :: newer g l else newer g l.
Proof. unfold newer. by rewrite filter_cons. Qed.

Lemma newer_drain g m q :
  newer g (aq_items (drain_through m q).1) = newer (Z.max g m) (aq_items q).
Proof.
  rewrite drain_through_items. unfold newer. rewrite list_filter_filter.
  apply list_filter_iff. intros x. lia.
Qed.

(** What a state of the wait holds: the items of the queue, then the stash. *)
Definition held (s : outcome * OperatorAnswerQueue) : list (Z * T) :=
  (aq_items s.2 ++ match s.1 with Waiting w => w_stashed w | _ => [] end)%list.

(** The answers other tasks put during a schedule, with the generation they got, and the
    answers that drains of other tasks would remove. *)
Fixpoint put_during (es : list wev) (gen : Z) : list (Z * T) :=
  match es with
  | [] => []
  | EvPut v g :: es' => (default gen g, v) :: put_during es' gen
  | EvBegin :: es' => put_during es' (gen + 1)
  | _ :: es' => put_during es' gen
  end.

Definition no_drain (es : list wev) : Prop := Forall (λ e, match e with EvDrain _ => False | _ => True end) es.

Lemma wstep_generation e s :
  aq_generation (wstep e s).2 = match e with EvBegin => aq_generation s.2 + 1 | _ => aq_generation s.2 end.
Proof.
  destruct s as [o q], e, o as [w| |]; simpl; try done.
  - unfold take. destruct (aq_items q) as [|[g v] rest]; [done|]. by repeat case_match.
  - unfold timeout, drain_through. by destruct (drain_loop _ _ _ _).
  - unfold drain_through. by destruct (drain_loop _ _ _ _).
  - unfold drain_through. by destruct (drain_loop _ _ _ _).
  - unfold drain_through. by destruct (drain_loop _ _ _ _).
Qed.

(** [g] is the generation the wait was started for. *)
Definition waits_for (g : Z) (o : outcome) : Prop :=
  match o with
  | Waiting w => w_generation w = g ∧ Forall (λ x, g < x.1) (w_stashed w)
  | _ => True
  end.

Lemma wstep_waits_for g e s : waits_for g s.1 → waits_for g (wstep e s).1.
Proof.
  destruct s as [o q], e, o as [w| |]; simpl; try done.
  intros [Hg Hs]. unfold take. destruct (aq_items q) as [|[g' v] rest]; [done|].
  destruct (Z.eqb_spec g' (w_generation w)); simpl; [done|].
  destruct (Z.ltb_spec g' (w_generation w)); simpl; [done|].
  split; [done|]. apply Forall_app. split; [done|]. repeat constructor. simpl. lia.
Qed.

(** One step keeps the pending answers of later prompts, up to their order. *)
Lemma wstep_newer g e s :
  waits_for g s.1 → no_drain [e] →
  newer g (held (wstep e s)) ≡ₚ
    newer g (held s) ++ newer g (put_during [e] (aq_generation s.2)).
Proof.
  intros Hw Hd. destruct s as [o q], e, o as [w| |]; simpl in *;
    try (by rewrite !app_nil_r); try (by inversion Hd).
  - destruct Hw as [Hg Hs]. unfold take, held. simpl. rewrite app_nil_r.
    destruct (aq_items q) as [|[g' v] rest] eqn:Ei; simpl; [by rewrite Ei|].
    destruct (Z.eqb_spec g' (w_generation w)); simpl.
    { rewrite app_nil_r, newer_cons, decide_False by (simpl; lia). done. }
    destruct (Z.ltb_spec g' (w_generation w)); simpl.
    { rewrite newer_cons, decide_False by (simpl; lia). done. }
    rewrite app_assoc, (newer_app _ (rest ++ _)), newer_cons, decide_True by (simpl; lia).
    rewrite newer_cons, decide_True by (simpl; lia). simpl. by rewrite Permutation_app_comm.
  - destruct Hw as [Hg Hs]. unfold timeout, held. simpl. rewrite !app_nil_r, newer_drain. simpl.
    by replace (Z.max g (w_generation w)) with g by lia.
  - unfold held. simpl. rewrite !newer_app. simpl.
    by rewrite <- !app_assoc, (Permutation_app_comm (newer g [_])).
  - unfold held. simpl. rewrite !app_nil_r. by rewrite newer_app.
  - unfold held. simpl. rewrite !app_nil_r. by rewrite newer_app.
Qed.

Lemma wrun_app es1 es2 s : wrun (es1 ++ es2) s = wrun es2 (wrun es1 s).
Proof. unfold wrun. by rewrite foldl_app. Qed.

Lemma wrun_waits_for g es s : waits_for g s.1 → waits_for g (wrun es s).1.
Proof. revert s. induction es as [|e es IH]; intros s H; [done|]. by apply IH, wstep_waits_for. Qed.

Lemma put_during_cons e es gen :
  put_during (e :: es) gen
  = (put_during [e] gen ++ put_during es (match e with EvBegin => gen + 1 | _ => gen end))%list.
Proof. by destruct e. Qed.

Lemma wrun_newer g es s :
  waits_for g s.1 → no_drain es →
  newer g (held (wrun es s)) ≡ₚ
    newer g (held s) ++ newer g (put_during es (aq_generation s.2)).
Proof.
  revert s. induction es as [|e es IH]; intros s Hw Hd; [simpl; by rewrite app_nil_r|].
  change (wrun (e :: es) s) with (wrun es (wstep e s)).
  apply Forall_cons in Hd as [Hd Hds].
  rewrite (IH (wstep e s)), wstep_newer; [|done|by repeat constructor|by apply wstep_waits_for|done].
  by rewrite (put_during_cons e es), newer_app, wstep_generation, app_assoc.
Qed.

(** ** The abstract queue

    The specification of a wait for generation [g] on a bag of pending answers. *)

Inductive phase := PWait | PAnswered (v : T) | PTimedOut.

Inductive bag_step (g gen : Z) : wev → phase * list (Z * T) → phase * list (Z * T) → Prop :=
| bag_answer v b b' : b ≡ₚ (g, v) :: b' → bag_step g gen EvTake (PWait, b) (PAnswered v, b')
| bag_stale x b b' : b ≡ₚ x :: b' → x.1 < g → bag_step g gen EvTake (PWait, b) (PWait, b')
| bag_keep p b b' : b ≡ₚ b' → bag_step g gen EvTake (p, b) (p, b')
| bag_timeout b b' : newer g b ≡ₚ b' → bag_step g gen EvTimeout (PWait, b) (PTimedOut, b')
| bag_late p b : p ≠ PWait → bag_step g gen EvTimeout (p, b) (p, b)
| bag_put v fg p b b' : b' ≡ₚ (default gen fg, v) :: b → bag_step g gen (EvPut v fg) (p, b) (p, b')
| bag_begin p b : bag_step g gen EvBegin (p, b) (p, b)
| bag_drain m p b b' d :
    b ≡ₚ d ++ b' → Forall (λ x, x.1 <= m) d → bag_step g gen (EvDrain m) (p, b) (p, b').

Definition phase_of (o : outcome) : phase :=
  match o with Waiting _ => PWait | Answered v => PAnswered v | TimedOut => PTimedOut end.

Lemma drain_split m q : ∃ d, aq_items q ≡ₚ d ++ aq_items (drain_through m q).1 ∧ Forall (λ x, x.1 <= m) d.
Proof.
  exists (filter (λ x, x.1 <= m) (aq_items q)). rewrite drain_through_items. split.
  - apply filter_split.
  - apply Forall_forall. by intros x [? _]%list_elem_of_filter.
Qed.

(** The code's state stands for the bag of everything it holds. *)
Definition abs (s : outcome * OperatorAnswerQueue) : phase * list (Z * T) := (phase_of s.1, held s).

Lemma drain_refines g m o q :
  bag_step g (aq_generation q) (EvDrain m) (abs (o, q)) (abs (o, (drain_through m q).1)).
Proof.
  destruct (drain_split m q) as (d & Hd & Hm). unfold abs, held. simpl.
  apply (bag_drain _ _ m _ _ _ d); [|done]. by rewrite Hd, app_assoc.
Qed.

Lemma take_refines g w q :
  waits_for g (Waiting w) →
  bag_step g (aq_generation q) EvTake (abs (Waiting w, q)) (abs (take w q)).
Proof.
  intros [Hg _]. unfold abs, held, take. simpl.
  destruct (aq_items q) as [|[g' v] rest] eqn:Ei; simpl; [rewrite Ei; by constructor|].
  destruct (Z.eqb_spec g' (w_generation w)) as [->|]; simpl.
  { rewrite Hg. apply bag_answer. by rewrite app_nil_r. }
  destruct (Z.ltb_spec g' (w_generation w)); simpl.
  { eapply bag_stale; [done|simpl; lia]. }
  apply bag_keep. by rewrite app_assoc, <- Permutation_cons_append.
Qed.

Lemma wstep_refines g e s :
  waits_for g s.1 → bag_step g (aq_generation s.2) e (abs s) (abs (wstep e s)).
Proof.
  intros Hw. destruct s as [o q], e as [| |v fg| |m]; simpl.
  - destruct o as [w| |]; [by apply take_refines|by constructor..].
  - destruct o as [w| |]; [|by constructor..]. destruct Hw as [Hg _]. unfold timeout, abs, held. simpl.
    apply bag_timeout. rewrite app_nil_r, drain_through_items. unfold newer. simpl.
    erewrite list_filter_iff; [reflexivity|]. intros x. simpl. lia.
  - unfold abs, held. destruct o; simpl; apply bag_put; rewrite <- ?app_assoc; simpl;
      by rewrite <- Permutation_middle.
  - unfold abs, held. destruct o; simpl; constructor.
  - destruct o; apply drain_refines.
Qed.

(** Runs of the specification; the generation counter is a function of the events. *)
Inductive bag_run (g : Z) : Z → list wev → phase * list (Z * T) → phase * list (Z * T) → Prop :=
| bag_done gen a : bag_run g gen [] a a
| bag_next gen e es a a' a'' :
    bag_step g gen e a a' → bag_run g (match e with EvBegin => gen + 1 | _ => gen end) es a' a'' →
    bag_run g gen (e :: es) a a''.

Lemma wrun_refines g es s :
  waits_for g s.1 → bag_run g (aq_generation s.2) es (abs s) (abs (wrun es s)).
Proof.
  revert s. induction es as [|e es IH]; intros s Hw; simpl; [constructor|].
  eapply bag_next; [by apply wstep_refines|].
  specialize (IH (wstep e s) (wstep_waits_for _ _ _ Hw)). by rewrite wstep_generation in IH.
Qed.

(** Nothing is invented and nothing is consumed twice, in the specification. *)
Lemma bag_run_conserves g gen es a a' :
  bag_run g gen es a a' →
  ∃ used, a.2 ++ put_during es gen ≡ₚ used ++ a'.2 ∧
    match a.1, a'.1 with
    | PWait, PAnswered v => (g, v) ∈ used
    | PWait, _ => True
    | p, p' => p = p'
    end.
Proof.
  induction 1 as [gen [p b]|gen e es a a' a'' Hs Hr (used & Hu & Ha)].
  { exists []. simpl. rewrite app_nil_r. split; [done|]. by destruct p. }
  rewrite (put_during_cons e es).
  assert (∃ u1, a.2 ++ put_during [e] gen ≡ₚ u1 ++ a'.2 ∧
            match a.1, a'.1 with PWait, PAnswered v => (g, v) ∈ u1 | PWait, _ => True | p, p' => p = p' end)
    as (u1 & H1 & Hp1).
  { destruct Hs as [v b b' Hb|x b b' Hb Hx|p b b' Hb|b b' Hb|p b Hp|v fg p b b' Hb|p b|m p b b' d Hb Hd];
      simpl; rewrite ?app_nil_r.
    - exists [(g, v)]. split; [by rewrite Hb|]. set_solver.
    - exists [x]. by rewrite Hb.
    - exists []. split; [by rewrite Hb|]. by destruct p.
    - exists (filter (λ x, ¬ g < x.1) b). split; [|done]. rewrite <- Hb. unfold newer.
      rewrite Permutation_app_comm. apply filter_split.
    - exists []. split; [done|]. by destruct p.
    - exists []. split; [by rewrite Hb, <- Permutation_cons_append|]. by destruct p.
    - exists []. split; [done|]. by destruct p.
    - exists d. split; [done|]. by destruct p. }
  exists (u1 ++ used)%list. split.
  - by rewrite app_assoc, H1, <- !app_assoc, Hu.
  - destruct a.1, a'.1, a''.1; simplify_eq; try done; set_solver.
Qed.

Lemma next_answer_waits expected q :
  waits_for (default (aq_generation q) expected) (next_answer expected q).
Proof. split; [done|constructor]. Qed.

Lemma held_next_answer expected q : held (next_answer expected q, q) = aq_items q.
Proof. apply app_nil_r. Qed.

(** ** Theorems *)

(** C25: The wait refines its specification: every schedule of resumptions, timeouts and
    interleaved queue operations is a run of the bag specification, in which a wait for
    generation [g] is answered with a pending answer tagged exactly [g], drops stale
    answers only, and on timeout discards everything up to [g]. *)
Theorem wait_refines_bag (es : list wev) (expected : option Z) (q : OperatorAnswerQueue) :
  bag_run (default (aq_generation q) expected) (aq_generation q) es
    (PWait, aq_items q) (abs (wrun es (next_answer expected q, q))).
Proof.
  set (g := default (aq_generation q) expected).
  pose proof (wrun_refines g es (next_answer expected q, q) (next_answer_waits expected q)) as Hr. unfold abs at 1 in Hr.
  by rewrite held_next_answer in Hr.
Qed.

(** An answer that a wait returns was put for that very prompt generation, before or
    during the wait, and is consumed exactly once; all other answers are accounted for.
    While nobody else drains the queue, the answers of later prompts all stay pending. *)
Theorem answers_match_generation (es : list wev) (expected : option Z) (q q' : OperatorAnswerQueue)
    (o : outcome) :
  wrun es (next_answer expected q, q) = (o, q') →
  let g := default (aq_generation q) expected in
  let pending := (aq_items q ++ put_during es (aq_generation q))%list in
  (∃ used, pending ≡ₚ used ++ held (o, q') ∧ ∀ v, o = Answered v → (g, v) ∈ used) ∧
  (no_drain es → newer g (held (o, q')) ≡ₚ newer g pending).
Proof.
  intros Hrun g pending. split.
  - pose proof (wrun_refines g es (next_answer expected q, q)) as Hr. rewrite Hrun in Hr.
    specialize (Hr (next_answer_waits expected q)).
    apply bag_run_conserves in Hr as (used & Hu & Ha). simpl in Hu, Ha.
    rewrite held_next_answer in Hu. exists used. split; [done|]. by intros v ->.
  - intros Hd. pose proof (wrun_newer g es (next_answer expected q, q)) as Hn. rewrite Hrun in Hn.
    rewrite Hn; [|apply next_answer_waits|done]. unfold pending. by rewrite held_next_answer, newer_app.
Qed.

(** A timeout leaves only answers of later prompts, so no late answer is seen by the next
    wait. *)
Lemma timeout_clears es expected (q : OperatorAnswerQueue) w q0 :
  wrun es (next_answer expected q, q) = (Waiting w, q0) →
  Forall (λ x, default (aq_generation q) expected < x.1)
    (aq_items (wrun (es ++ [EvTimeout]) (next_answer expected q, q)).2).
Proof.
  intros Hrun. rewrite wrun_app, Hrun. simpl. rewrite drain_through_items.
  assert (waits_for (default (aq_generation q) expected) (Waiting w)) as [Hg _].
  { change (Waiting w) with (Waiting w, q0).1. rewrite <- Hrun. apply wrun_waits_for, next_answer_waits. }
  apply Forall_forall. intros x [Hx _]%list_elem_of_filter. lia.
Qed.

(** Resumptions of the wait in a schedule. *)
Fixpoint takes (es : list wev) : nat :=
  match es with [] => O | EvTake :: es' => S (takes es') | _ :: es' => takes es' end.

(** A schedule in which the deadline does not expire and no other task drains. *)
Definition undisturbed (es : list wev) : Prop :=
  Forall (λ e, match e with EvTimeout | EvDrain _ => False | _ => True end) es.

Lemma answered_stable es v (q : OperatorAnswerQueue) : (wrun es (Answered v, q)).1 = Answered v.
Proof. revert q. induction es as [|[] es IH]; intros q; simpl; [done|apply IH..]. Qed.

Lemma found_from es w (q : OperatorAnswerQueue) i v :
  undisturbed es → aq_items q !! i = Some (w_generation w, v) → (i < takes es)%nat →
  ∃ v', (wrun es (Waiting w, q)).1 = Answered v'.
Proof.
  revert w q i. induction es as [|e es IH]; intros w q i Hu Hi Hlt; simpl in *; [lia|].
  apply Forall_cons in Hu as [He Hu]. destruct e as [| |v' fg| |m]; try done.
  - unfold wrun. simpl. unfold take. destruct (aq_items q) as [|[g' v'] rest]; [done|].
    destruct (Z.eqb_spec g' (w_generation w)) as [->|Hne].
    { exists v'. apply answered_stable. }
    destruct i as [|i]; [by simplify_eq/=|]. simpl in Hi.
    destruct (Z.ltb_spec g' (w_generation w)); apply (IH _ _ i); simpl; try done; lia.
  - apply (IH _ _ i); [done| |done]. simpl. by apply lookup_app_l_Some.
  - by apply (IH _ _ i).
Qed.

(** A pending answer of the awaited generation is never starved: if it is the
    [i]-th item of the queue when the wait starts, the wait returns an answer as soon as
    it was resumed more than [i] times, whatever is put in between. *)
Theorem pending_answer_is_returned (es : list wev) (expected : option Z) (q : OperatorAnswerQueue)
    (i : nat) (v : T) :
  aq_items q !! i = Some (default (aq_generation q) expected, v) →
  undisturbed es → (i < takes es)%nat →
  ∃ v', (wrun es (next_answer expected q, q)).1 = Answered v'.
Proof. intros Hi Hu Hlt. by apply (found_from es (MkWait _ []) q i v). Qed.
End Queue.

(** ** The driver

    The loop body of [run_project_operation] for an engine event: which commands it
    sends, given the queues that exist and the answer that [next_answer] returned. *)

Module Driver.

(** A target of an escalation answer: [str(t.get("path") or "")] and [rule_ids] when it
    is a list. *)
Record target := MkTarget { tg_path : string; tg_rule_ids : option (list string) }.

Inductive event :=
| Findings
| AiTriage (candidate_paths : list string)
| Proposals
| Result
| Error
| OtherEvent.

Inductive command :=
| BeginRemediate
| AiEscalate (targets : list (string * list string))
| Approve (approved_ids : list string)
| Close
| EndOfStream.

(** The answers of the operator: [None] when there is no queue or the wait timed out. *)
Record answers := MkAnswers {
  an_escalate : option (list target);
  an_approved : option (list string);
}.

(** [sorted({c.path for c in candidates if c.path})] *)
Definition candidate_targets (paths : list string) : list target :=
  (λ p, MkTarget p (Some [])) <$>
    sort_by String.leb (remove_dups (filter (λ p, p ≠ EmptyString) paths)).

Definition escalate_targets (l : list target) : list (string * list string) :=
  (λ t, (tg_path t, default [] (tg_rule_ids t))) <$> filter (λ t, tg_path t ≠ EmptyString) l.

(** The commands of one event, and whether the loop goes on. *)
Definition drive_event (e : event) (a : answers) : list command * bool :=
  match e with
  | Findings => ([BeginRemediate], true)
  | AiTriage paths =>
    ([AiEscalate (escalate_targets (default (candidate_targets paths) (an_escalate a)))], true)
  | Proposals => ([Approve (default [] (an_approved a))], true)
  | Result => ([Close; EndOfStream], true)
  | Error => ([Close; EndOfStream], false)
  | OtherEvent => ([], true)
  end.

Fixpoint drive (es : list (event * answers)) : list command :=
  match es with
  | [] => []
  | (e, a) :: es' => let '(cs, go) := drive_event e a in (cs ++ if go then drive es' else [])%list
  end.

Lemma elem_of_drive c es :
  c ∈ drive es → ∃ e a, (e, a) ∈ es ∧ c ∈ (drive_event e a).1.
Proof.
  induction es as [|[e a] es IH]; simpl; [by intros ?%not_elem_of_nil|].
  destruct (drive_event e a) as [cs go] eqn:Ed.
  intros [Hc|Hc]%elem_of_app.
  - exists e, a. rewrite Ed. set_solver.
  - destruct go; [|by apply not_elem_of_nil in Hc]. destruct (IH Hc) as (e' & a' & ? & ?).
    exists e', a'. set_solver.
Qed.

(** The fallbacks never approve for the operator: an approved id in any command of a
    run is one that the operator sent for a proposals prompt, and without an answer the
    engine is told to approve nothing.  The fallback of the triage prompt is to escalate
    each candidate path exactly once. *)
Theorem fallbacks_never_approve (es : list (event * answers)) :
  (∀ ids i, Approve ids ∈ drive es → i ∈ ids →
     ∃ a l, (Proposals, a) ∈ es ∧ an_approved a = Some l ∧ i ∈ l) ∧
  (∀ a, an_approved a = None → drive_event Proposals a = ([Approve []], true)) ∧
  (∀ paths a, an_escalate a = None →
     ∃ l, drive_event (AiTriage paths) a = ([AiEscalate l], true) ∧ NoDup l.*1 ∧
          ∀ p, p ∈ l.*1 ↔ p ∈ paths ∧ p ≠ EmptyString).
Proof.
  split_and!.
  - intros ids i (e & a & Hin & Hc)%elem_of_drive Hi.
    destruct e; simpl in Hc; set_unfold in Hc; repeat destruct Hc as [Hc|Hc]; simplify_eq; try done.
    destruct (an_approved a) as [l|] eqn:Ea; simpl in *; [by exists a, l|].
    by apply not_elem_of_nil in Hi.
  - intros a Ha. simpl. by rewrite Ha.
  - intros paths a Ha. eexists. simpl. rewrite Ha. simpl. split; [done|].
    unfold escalate_targets, candidate_targets.
    set (ps := sort_by _ _).
    assert (Hps : ∀ p, p ∈ ps ↔ p ∈ paths ∧ p ≠ EmptyString).
    { intros p. unfold ps. rewrite elem_of_sort_by, elem_of_remove_dups, list_elem_of_filter. tauto. }
    assert (Hnd : NoDup ps).
    { unfold ps. rewrite sort_by_perm. apply NoDup_remove_dups. }
    rewrite filter_all.
    2: { apply Forall_fmap, Forall_forall. intros p Hp. by apply Hps. }
    rewrite <- !list_fmap_compose. rewrite (list_fmap_ext _ id), list_fmap_id by done. done.
Qed.
End Driver.

(** ** A run *)

Module QueueDemo.

(** The second prompt is open; its queue holds a late answer of the first prompt, an
    early answer of a third one, and the answer. *)
Definition late_queue : OperatorAnswerQueue (T := nat) :=
  put 7%nat (Some 2) (put 9%nat (Some 3) (put 5%nat (Some 1)
    (begin_prompt (begin_prompt empty_queue).1).1)).

Definition schedule : list (wev (T := nat)) := [EvTake; EvPut 8%nat None; EvTake; EvTake].

Example late_run :
  wrun schedule (next_answer (Some 2) late_queue, late_queue)
  = (Answered 7%nat, MkAnswerQueue [(2, 8%nat); (3, 9%nat)] 2).
Proof. reflexivity. Qed.

Lemma answers_match_generation_witness :
  newer 2 (held (Answered 7%nat, MkAnswerQueue [(2, 8%nat); (3, 9%nat)] 2)) ≡ₚ [(3, 9%nat)].
Proof.
  destruct (answers_match_generation schedule (Some 2) late_queue _ _ late_run) as [_ H].
  apply H. repeat constructor.
Defined.

Lemma pending_answer_is_returned_witness :
  ∃ v, (wrun schedule (next_answer (Some 2) late_queue, late_queue)).1 = Answered v.
Proof.
  apply (pending_answer_is_returned schedule (Some 2) late_queue 2 7%nat);
    [reflexivity|repeat constructor|reflexivity || (simpl; lia)].
Defined.
End QueueDemo.
