(* ===== verification/ProjectLock.v ===== *)
(** * The per-project lock of the operation registry

    [OperationRegistry.project_lock] of [src/apme_gateway/operation_registry.py], an
    asynchronous context manager that creates a lock on demand, counts its users and
    reclaims the entry when the last one leaves.

    Tasks interleave only where the code awaits, in [lock.acquire()]: a task enters
    ([enter], which may suspend it), is resumed as the first waiter of a free lock
    ([wake]), is cancelled while it waits ([abandon]), or runs the [finally] block after
    its body ([leave]).  An [asyncio.Lock] is a flag and a queue of waiters; locks are
    objects, so they live in a heap ([pl_heap]) under their identity, and a task keeps the
    identity that it found in the dictionary. *)

From stdpp Require Import base list gmap strings relations.
From S2P Require Import Prelude.

#[local] Open Scope nat_scope.

Record lock := MkLock { lk_locked : bool; lk_waiters : list nat }.

(** Where a task is: suspended in [acquire], or inside the [with] body. *)
Inductive tstate :=
| Waiting (project : string) (l : nat)
| Holding (project : string) (l : nat).

#[export] Instance tstate_eq_dec : EqDecision tstate.
Proof. solve_decision. Defined.

Definition ts_project (s : tstate) : string := match s with Waiting p _ | Holding p _ => p end.
Definition ts_lock (s : tstate) : nat := match s with Waiting _ l | Holding _ l => l end.

Record locks := MkLocks {
  pl_locks : gmap string nat;        (* _project_locks *)
  pl_users : gmap string nat;        (* _project_lock_users *)
  pl_heap : gmap nat lock;
  pl_tasks : gmap nat tstate;
  pl_next : nat;
}.

Definition no_locks : locks := MkLocks ∅ ∅ ∅ ∅ 0.

(** ** [asyncio.Lock] *)

(** [acquire] up to its first suspension; the lock is taken at once only when it is free
    and nobody waits for it. *)
Definition try_acquire (t : nat) (k : lock) : lock * bool :=
  if negb (lk_locked k) && match lk_waiters k with [] => true | _ => false end
  then (MkLock true [], true) else (MkLock (lk_locked k) (lk_waiters k ++ [t]), false).

Definition lock_release (k : lock) : lock := MkLock false (lk_waiters k).

(** ** [project_lock] *)

(** Look the lock up, or create it; the identity and the updated dictionary and heap. *)
Definition find_lock (p : string) (st : locks) : nat * locks :=
  match pl_locks st !! p with
  | Some l => (l, st)
  | None =>
    let l := pl_next st in
    (l, MkLocks (<[p := l]> (pl_locks st)) (pl_users st) (<[l := MkLock false []]> (pl_heap st))
          (pl_tasks st) (S l))
  end.

(** From the start of the context manager to the body, or to the suspension. *)
Definition enter (t : nat) (p : string) (st : locks) : locks :=
  let '(l, st1) := find_lock p st in
  let '(k, got) := try_acquire t (default (MkLock false []) (pl_heap st1 !! l)) in
  MkLocks (pl_locks st1) (<[p := S (default 0 (pl_users st1 !! p))]> (pl_users st1))
    (<[l := k]> (pl_heap st1))
    (<[t := if got : bool then Holding p l else Waiting p l]> (pl_tasks st1)) (pl_next st1).

(** The first waiter of a free lock resumes and takes it. *)
Definition wake (t : nat) (st : locks) : option locks :=
  match pl_tasks st !! t with
  | Some (Waiting p l) =>
    match pl_heap st !! l with
    | Some (MkLock false (u :: ws)) =>
      if decide (u = t) then
        Some (MkLocks (pl_locks st) (pl_users st) (<[l := MkLock true ws]> (pl_heap st))
                (<[t := Holding p l]> (pl_tasks st)) (pl_next st))
      else None
    | _ => None
    end
  | _ => None
  end.

(** The bookkeeping of the [finally] block. *)
Definition reclaim (p : string) (l : nat) (st : locks) : locks :=
  let users := default 0 (pl_users st !! p) in
  if decide (users <= 1) then
    MkLocks
      (if decide (pl_locks st !! p = Some l) then
         match pl_heap st !! l with
         | Some k => if lk_locked k then pl_locks st else delete p (pl_locks st)
         | None => pl_locks st
         end
       else pl_locks st)
      (delete p (pl_users st)) (pl_heap st) (pl_tasks st) (pl_next st)
  else MkLocks (pl_locks st) (<[p := users - 1]> (pl_users st)) (pl_heap st) (pl_tasks st) (pl_next st).

(** The body is over: release, then the bookkeeping. *)
Definition leave (t : nat) (st : locks) : option locks :=
  match pl_tasks st !! t with
  | Some (Holding p l) =>
    Some (reclaim p l
      (MkLocks (pl_locks st) (pl_users st) (alter lock_release l (pl_heap st))
         (delete t (pl_tasks st)) (pl_next st)))
  | _ => None
  end.

(** The task is cancelled in [acquire]: it leaves the queue of waiters, and [acquired] is
    false in the [finally] block. *)
Definition abandon (t : nat) (st : locks) : option locks :=
  match pl_tasks st !! t with
  | Some (Waiting p l) =>
    Some (reclaim p l
      (MkLocks (pl_locks st) (pl_users st)
         (alter (λ k, MkLock (lk_locked k) (filter (λ u, u ≠ t) (lk_waiters k))) l (pl_heap st))
         (delete t (pl_tasks st)) (pl_next st)))
  | _ => None
  end.

Inductive lock_step (st : locks) : locks → Prop :=
| step_enter t p : pl_tasks st !! t = None → lock_step st (enter t p st)
| step_wake t st' : wake t st = Some st' → lock_step st st'
| step_leave t st' : leave t st = Some st' → lock_step st st'
| step_abandon t st' : abandon t st = Some st' → lock_step st st'.

(** ** The invariant *)

(** The tasks at project [p]. *)
Definition count (p : string) (ts : gmap nat tstate) : nat :=
  size (filter (λ kv, ts_project kv.2 = p) ts).

Definition one_if (p q : string) : nat := if decide (p = q) then 1 else 0.

Lemma count_insert p t s ts :
  ts !! t = None → count p (<[t := s]> ts) = one_if (ts_project s) p + count p ts.
Proof.
  intros Ht. unfold count, one_if. destruct (decide (ts_project s = p)) as [Hp|Hp].
  - rewrite map_filter_insert_True by done. rewrite map_size_insert_None; [done|].
    apply map_lookup_filter_None. by left.
  - rewrite map_filter_insert_False by done. by rewrite delete_id.
Qed.

Lemma count_delete p t s ts :
  ts !! t = Some s → count p ts = one_if (ts_project s) p + count p (delete t ts).
Proof.
  intros Ht. rewrite <- (count_insert p t s (delete t ts)) by apply lookup_delete_eq.
  by rewrite insert_delete_id.
Qed.

Lemma count_update p t s s' ts :
  ts !! t = Some s → ts_project s' = ts_project s → count p (<[t := s']> ts) = count p ts.
Proof.
  intros Ht Hs. rewrite (count_delete p t s ts Ht), <- Hs.
  rewrite <- (count_insert p t s' (delete t ts)) by apply lookup_delete_eq.
  by rewrite insert_delete_eq.
Qed.

Lemma count_pos t s ts : ts !! t = Some s → 0 < count (ts_project s) ts.
Proof. intros Ht. rewrite (count_delete _ t s) by done. unfold one_if. rewrite decide_True by done. lia. Qed.

Record lock_ok (ts : gmap nat tstate) (p : string) (l : nat) (k : lock) : Prop := {
  lo_nodup : NoDup (lk_waiters k);
  lo_waiters t : t ∈ lk_waiters k ↔ ts !! t = Some (Waiting p l);
  lo_holder : if lk_locked k then ∃ h, ∀ t, ts !! t = Some (Holding p l) ↔ t = h
              else ∀ t, ts !! t ≠ Some (Holding p l);
}.

Record locks_wf (st : locks) : Prop := {
  lw_users p : default 0 (pl_users st !! p) = count p (pl_tasks st);
  lw_no_zero p : pl_users st !! p ≠ Some 0;
  lw_used p : is_Some (pl_locks st !! p) ↔ 0 < count p (pl_tasks st);
  lw_task t s : pl_tasks st !! t = Some s → pl_locks st !! ts_project s = Some (ts_lock s);
  lw_inj p p' l : pl_locks st !! p = Some l → pl_locks st !! p' = Some l → p = p';
  lw_heap p l : pl_locks st !! p = Some l →
    l < pl_next st ∧ ∃ k, pl_heap st !! l = Some k ∧ lock_ok (pl_tasks st) p l k;
}.

Section Preservation.
Implicit Types (ts : gmap nat tstate) (k : lock) (p : string) (l t : nat) (s : tstate).

Lemma lock_ok_ext ts ts' p l k :
  (∀ t s, ts_project s = p → ts !! t = Some s ↔ ts' !! t = Some s) →
  lock_ok ts p l k → lock_ok ts' p l k.
Proof.
  intros He [Hn Hw Hh]. split; [done| |].
  - intros t. by rewrite Hw, He.
  - destruct (lk_locked k).
    + destruct Hh as [h Hh]. exists h. intros t. by rewrite <- He, Hh.
    + intros t. by rewrite <- He.
Qed.

Lemma lock_ok_insert_other ts t s p l k :
  ts_project s ≠ p → (∀ s0, ts !! t = Some s0 → ts_project s0 ≠ p) →
  lock_ok ts p l k → lock_ok (<[t := s]> ts) p l k.
Proof.
  intros Hs Ht. apply lock_ok_ext. intros t' s' Hp. rewrite lookup_insert_Some.
  destruct (decide (t = t')) as [->|]; naive_solver.
Qed.

Lemma lock_ok_delete_other ts t p l k :
  (∀ s0, ts !! t = Some s0 → ts_project s0 ≠ p) →
  lock_ok ts p l k → lock_ok (delete t ts) p l k.
Proof.
  intros Ht. apply lock_ok_ext. intros t' s' Hp. rewrite lookup_delete_Some.
  destruct (decide (t = t')) as [->|]; naive_solver.
Qed.

(** The invariant while the entry of project [p] may not have a user yet. *)
Record locks_wf_but (p0 : string) (l0 : nat) (k0 : lock) (st : locks) : Prop := {
  lb_users p : default 0 (pl_users st !! p) = count p (pl_tasks st);
  lb_no_zero p : pl_users st !! p ≠ Some 0;
  lb_used p : p ≠ p0 → is_Some (pl_locks st !! p) ↔ 0 < count p (pl_tasks st);
  lb_task t s : pl_tasks st !! t = Some s → pl_locks st !! ts_project s = Some (ts_lock s);
  lb_here : pl_locks st !! p0 = Some l0;
  lb_next : l0 < pl_next st;
  lb_lock : pl_heap st !! l0 = Some k0 ∧ lock_ok (pl_tasks st) p0 l0 k0;
  lb_others p l : p ≠ p0 → pl_locks st !! p = Some l →
    l ≠ l0 ∧ l < pl_next st ∧ ∃ k, pl_heap st !! l = Some k ∧ lock_ok (pl_tasks st) p l k;
  lb_inj p p' l : pl_locks st !! p = Some l → pl_locks st !! p' = Some l → p = p';
}.

Lemma find_lock_wf st p :
  locks_wf st →
  ∃ k, locks_wf_but p (find_lock p st).1 k (find_lock p st).2 ∧
       pl_tasks (find_lock p st).2 = pl_tasks st ∧ pl_users (find_lock p st).2 = pl_users st.
Proof.
  intros [Hu Hz Hused Ht Hinj Hh]. unfold find_lock. destruct (pl_locks st !! p) as [l|] eqn:Hl; simpl.
  - destruct (Hh _ _ Hl) as (Hn & k & Hk & Hok). exists k. split_and!; [|done..]. split; try done.
    + intros p' l' Hp Hl'. split; [|by apply Hh]. intros ->. naive_solver.
  - exists (MkLock false []).
    assert (Hno : ∀ t s, pl_tasks st !! t = Some s → ts_project s ≠ p).
    { intros t s Hs <-. rewrite (Ht _ _ Hs) in Hl. done. }
    split_and!; [|done..]. split; simpl; try done.
    + intros p' Hp. rewrite lookup_insert_ne by done. apply Hused.
    + intros t s Hs. rewrite lookup_insert_ne by (symmetry; eauto). by eapply Ht.
    + by rewrite lookup_insert_eq.
    + lia.
    + rewrite lookup_insert_eq. split; [done|]. split; simpl; [constructor| |].
      * intros t. split; [by intros ?%not_elem_of_nil|]. intros Hs. by destruct (Hno _ _ Hs).
      * intros t Hs. by destruct (Hno _ _ Hs).
    + intros p' l' Hp. rewrite lookup_insert_ne by done. intros Hl'.
      destruct (Hh _ _ Hl') as (Hlt & k & Hk & Hok). split_and!; [lia|lia|].
      exists k. rewrite lookup_insert_ne by lia. done.
    + assert (Hlt : ∀ q l', pl_locks st !! q = Some l' → l' ≠ pl_next st).
      { intros q l' Hq. destruct (Hh _ _ Hq). lia. }
      intros p1 p2 l' [[<- <-]|[Hp1 H1]]%lookup_insert_Some [[<- Hl2]|[Hp2 H2]]%lookup_insert_Some;
        naive_solver.
Qed.

(** Appending a waiter. *)
Lemma lock_ok_wait ts t p l k :
  ts !! t = None → lock_ok ts p l k →
  lock_ok (<[t := Waiting p l]> ts) p l (MkLock (lk_locked k) (lk_waiters k ++ [t])).
Proof.
  intros Ht [Hn Hw Hh]. assert (t ∉ lk_waiters k) as Hnw by (rewrite Hw; congruence). split; simpl.
  - apply NoDup_app. split_and!; [done|set_solver|apply NoDup_singleton].
  - intros u. rewrite elem_of_app, list_elem_of_singleton, Hw, lookup_insert_Some.
    destruct (decide (u = t)); naive_solver.
  - assert (Hsame : ∀ u, <[t:=Waiting p l]> ts !! u = Some (Holding p l) ↔ ts !! u = Some (Holding p l)).
    { intros u. rewrite lookup_insert_Some. destruct (decide (t = u)) as [->|]; naive_solver. }
    destruct (lk_locked k).
    + destruct Hh as [h Hh]. exists h. intros u. by rewrite Hsame.
    + intros u. by rewrite Hsame.
Qed.

(** Taking a free lock, by a task that is not a waiter (any more). *)
Lemma lock_ok_take ts t p l ws ws' :
  lock_ok ts p l (MkLock false ws) → NoDup ws' → t ∉ ws' → (∀ u, u ≠ t → u ∈ ws ↔ u ∈ ws') →
  lock_ok (<[t := Holding p l]> ts) p l (MkLock true ws').
Proof.
  intros [Hn Hw Hh] Hnd Ht Hsame. split; simpl in *; [done| |].
  - intros u. rewrite lookup_insert_Some. destruct (decide (t = u)) as [<-|Hne]; [naive_solver|].
    rewrite <- Hsame, Hw by done. naive_solver.
  - exists t. intros u. rewrite lookup_insert_Some. naive_solver.
Qed.

Lemma try_acquire_ok ts t p l k :
  ts !! t = None → lock_ok ts p l k →
  lock_ok (<[t := if (try_acquire t k).2 then Holding p l else Waiting p l]> ts) p l (try_acquire t k).1.
Proof.
  intros Ht Hok. unfold try_acquire. destruct k as [[] [|w ws]]; simpl; try exact (lock_ok_wait _ _ _ _ _ Ht Hok).
  apply (lock_ok_take _ _ _ _ []); [done|constructor|set_solver|done].
Qed.

Lemma enter_wf t p st : pl_tasks st !! t = None → locks_wf st → locks_wf (enter t p st).
Proof.
  intros Ht H. destruct (find_lock_wf st p H) as (k & Hb & Hts & Hus). unfold enter.
  destruct (find_lock p st) as [l st1]. simpl in *. destruct Hb as [Hu Hz Hused Htk Hhere Hnext [Hk Hok] Hoth Hinj].
  rewrite Hk. simpl. rewrite <- Hts in Ht. pose proof (try_acquire_ok _ _ _ _ _ Ht Hok) as Hok'.
  destruct (try_acquire t k) as [k' got]. simpl in Hok'.
  set (s := if got then Holding p l else Waiting p l) in *.
  assert (ts_project s = p) as Hsp by (by destruct got). assert (ts_lock s = l) as Hsl by (by destruct got).
  split; simpl.
  - intros p'. rewrite count_insert, Hsp by done. unfold one_if. destruct (decide (p = p')) as [<-|].
    + rewrite lookup_insert_eq. simpl. by rewrite Hu.
    + rewrite lookup_insert_ne by done. apply Hu.
  - intros p'. rewrite lookup_insert_Some. naive_solver.
  - intros p'. rewrite count_insert, Hsp by done. unfold one_if. destruct (decide (p = p')) as [<-|].
    + rewrite Hhere. split; [lia|done].
    + rewrite Hused by done. done.
  - intros u s0. rewrite lookup_insert_Some. intros [[<- <-]|[_ Hs0]]; [by rewrite Hsp, Hsl|by eapply Htk].
  - done.
  - intros p' l' Hl'. destruct (decide (p' = p)) as [->|Hp].
    + assert (l' = l) as -> by congruence. split; [done|]. exists k'. by rewrite lookup_insert_eq.
    + destruct (Hoth _ _ Hp Hl') as (Hne & Hlt & k2 & Hk2 & Hok2). split; [done|].
      exists k2. rewrite lookup_insert_ne by done. split; [done|].
      apply lock_ok_insert_other; [congruence|congruence|done].
Qed.

(** The task state of project [p] and its lock change together; the other projects do not
    notice. *)
Lemma update_wf t s s' k' st :
  pl_tasks st !! t = Some s → ts_project s' = ts_project s → ts_lock s' = ts_lock s →
  (∀ k, pl_heap st !! ts_lock s = Some k →
        lock_ok (pl_tasks st) (ts_project s) (ts_lock s) k →
        lock_ok (<[t := s']> (pl_tasks st)) (ts_project s) (ts_lock s) k') →
  locks_wf st →
  locks_wf (MkLocks (pl_locks st) (pl_users st) (<[ts_lock s := k']> (pl_heap st))
              (<[t := s']> (pl_tasks st)) (pl_next st)).
Proof.
  intros Ht Hp Hl Hok [Hu Hz Hused Htk Hinj Hh]. pose proof (Htk _ _ Ht) as Hpl.
  split; simpl; try done.
  - intros q. by rewrite (count_update q t s).
  - intros q. by rewrite (count_update q t s).
  - intros u s0. rewrite lookup_insert_Some. intros [[<- <-]|[_ Hs0]]; [by rewrite Hp, Hl|by eapply Htk].
  - intros q l Hq. destruct (Hh _ _ Hq) as (Hlt & k & Hk & Hko). split; [done|].
    destruct (decide (q = ts_project s)) as [->|Hne].
    + assert (l = ts_lock s) as -> by congruence. exists k'. rewrite lookup_insert_eq. eauto.
    + exists k. rewrite lookup_insert_ne by naive_solver. split; [done|].
      apply lock_ok_insert_other; [congruence|congruence|done].
Qed.

Lemma wake_wf t st st' : wake t st = Some st' → locks_wf st → locks_wf st'.
Proof.
  unfold wake. intros Hwake H. destruct (pl_tasks st !! t) as [[p l|]|] eqn:Ht; try done.
  destruct (pl_heap st !! l) as [[[] [|u ws]]|] eqn:Hk; try done. case_decide; simplify_eq.
  apply (update_wf t (Waiting p l) (Holding p l)); try done.
  intros k Hk' Hok. simpl in *. simplify_eq. pose proof (lo_nodup _ _ _ _ Hok) as Hn. simpl in Hn.
  apply NoDup_cons in Hn as [Hnt Hn].
  eapply lock_ok_take; [done|done|done|]. set_solver.
Qed.

(** The state after a task of project [p] is gone, before the bookkeeping. *)
Lemma reclaim_wf t s k' st :
  pl_tasks st !! t = Some s →
  (∀ k, pl_heap st !! ts_lock s = Some k →
        lock_ok (pl_tasks st) (ts_project s) (ts_lock s) k →
        lock_ok (delete t (pl_tasks st)) (ts_project s) (ts_lock s) k') →
  locks_wf st →
  locks_wf (reclaim (ts_project s) (ts_lock s)
    (MkLocks (pl_locks st) (pl_users st) (<[ts_lock s := k']> (pl_heap st))
       (delete t (pl_tasks st)) (pl_next st))).
Proof.
  intros Ht Hok [Hu Hz Hused Htk Hinj Hh]. pose proof (Htk _ _ Ht) as Hpl.
  destruct (Hh _ _ Hpl) as (Hlt0 & k & Hk & Hko). specialize (Hok _ Hk Hko).
  set (p := ts_project s) in *. set (l := ts_lock s) in *. set (ts' := delete t (pl_tasks st)) in *.
  assert (Hc : ∀ q, count q (pl_tasks st) = one_if p q + count q ts') by (intros q; by apply count_delete).
  assert (Hcp : count p (pl_tasks st) = S (count p ts')).
  { rewrite Hc. unfold one_if. by rewrite decide_True. }
  assert (Hother : ∀ q, q ≠ p → count q ts' = count q (pl_tasks st)).
  { intros q Hq. rewrite Hc. unfold one_if. by rewrite decide_False. }
  assert (Htk' : ∀ u s0, ts' !! u = Some s0 → pl_locks st !! ts_project s0 = Some (ts_lock s0)).
  { intros u s0 [_ Hs0]%lookup_delete_Some. by eapply Htk. }
  assert (Hheap : ∀ q l', pl_locks st !! q = Some l' →
            l' < pl_next st ∧ ∃ k2, <[l:=k']> (pl_heap st) !! l' = Some k2 ∧ lock_ok ts' q l' k2).
  { intros q l' Hq. destruct (Hh _ _ Hq) as (Hlt & k2 & Hk2 & Hok2). split; [done|].
    destruct (decide (q = p)) as [->|Hne].
    - assert (l' = l) as -> by congruence. exists k'. by rewrite lookup_insert_eq.
    - exists k2. rewrite lookup_insert_ne by naive_solver. split; [done|].
      apply lock_ok_delete_other; [|done]. intros s0 Hs0. simplify_eq. done. }
  unfold reclaim. simpl. rewrite Hu, Hcp. case_decide as Hlast.
  - assert (count p ts' = 0) as H0 by lia.
    assert (Hnone : ∀ u s0, ts' !! u = Some s0 → ts_project s0 ≠ p).
    { intros u s0 Hs0 Hp. apply count_pos in Hs0. rewrite Hp in Hs0. lia. }
    rewrite decide_True by done. rewrite lookup_insert_eq.
    assert (lk_locked k' = false) as ->.
    { pose proof (lo_holder _ _ _ _ Hok) as Hhold. destruct (lk_locked k'); [|done].
      destruct Hhold as [h Hhold]. assert (ts' !! h = Some (Holding p l)) as Hh0 by by apply Hhold.
      by destruct (Hnone _ _ Hh0). }
    split; simpl.
    + intros q. destruct (decide (q = p)) as [->|Hq]; [by rewrite lookup_delete_eq, H0|].
      rewrite lookup_delete_ne by done. by rewrite Hu, Hother.
    + intros q. rewrite lookup_delete_Some. naive_solver.
    + intros q. destruct (decide (q = p)) as [->|Hq].
      * rewrite lookup_delete_eq, H0. split; [by intros [? ?]|lia].
      * rewrite lookup_delete_ne by done. rewrite Hused, Hother by done. done.
    + intros u s0 Hs0. rewrite lookup_delete_ne by (symmetry; eauto). eauto.
    + intros q q' l' [_ Hq]%lookup_delete_Some [_ Hq']%lookup_delete_Some. eauto.
    + intros q l' [_ Hq]%lookup_delete_Some. eauto.
  - split; simpl; try done.
    + intros q. destruct (decide (q = p)) as [->|Hq]; [rewrite lookup_insert_eq; simpl; lia|].
      rewrite lookup_insert_ne by done. by rewrite Hu, Hother.
    + intros q. rewrite lookup_insert_Some. intros [[_ ?]|[_ ?]]; [lia|by eapply Hz].
    + intros q. destruct (decide (q = p)) as [->|Hq].
      * rewrite Hpl. split; [lia|done].
      * by rewrite Hused, Hother.
Qed.

Lemma alter_as_insert (f : lock → lock) l k (h : gmap nat lock) :
  h !! l = Some k → alter f l h = <[l := f k]> h.
Proof.
  intros Hl. apply map_eq. intros i. destruct (decide (i = l)) as [->|Hne].
  - by rewrite lookup_alter_eq, lookup_insert_eq, Hl.
  - by rewrite lookup_alter_ne, lookup_insert_ne.
Qed.

(** The lock of a task that is inside. *)
Lemma task_lock st t s :
  locks_wf st → pl_tasks st !! t = Some s →
  ∃ k, pl_heap st !! ts_lock s = Some k ∧ lock_ok (pl_tasks st) (ts_project s) (ts_lock s) k.
Proof. intros H Ht. destruct (lw_heap _ H _ _ (lw_task _ H _ _ Ht)) as (_ & k & Hk). eauto. Qed.

Lemma holder_unique ts p l k t u :
  lock_ok ts p l k → ts !! t = Some (Holding p l) → ts !! u = Some (Holding p l) → t = u.
Proof.
  intros [_ _ Hh] Ht Hu. destruct (lk_locked k).
  - destruct Hh as [h Hh]. rewrite Hh in Ht, Hu. congruence.
  - by destruct (Hh t).
Qed.

Lemma leave_wf t st st' : leave t st = Some st' → locks_wf st → locks_wf st'.
Proof.
  unfold leave. intros Hl H. destruct (pl_tasks st !! t) as [[|p l]|] eqn:Ht; simplify_eq.
  destruct (task_lock _ _ _ H Ht) as (k & Hk & Hok). simpl in *.
  rewrite (alter_as_insert _ _ k) by done.
  apply (reclaim_wf t (Holding p l) (lock_release k)); [done| |done].
  simpl. intros k0 Hk0 Hok0. simplify_eq. destruct Hok as [Hn Hw Hh]. split; simpl.
  - done.
  - intros u. rewrite Hw, lookup_delete_Some. destruct (decide (t = u)) as [<-|]; naive_solver.
  - intros u [Hne Hu]%lookup_delete_Some. apply Hne. by eapply holder_unique.
Qed.

Lemma abandon_wf t st st' : abandon t st = Some st' → locks_wf st → locks_wf st'.
Proof.
  unfold abandon. intros Hl H. destruct (pl_tasks st !! t) as [[p l|]|] eqn:Ht; simplify_eq.
  destruct (task_lock _ _ _ H Ht) as (k & Hk & Hok). simpl in *.
  rewrite (alter_as_insert _ _ k) by done.
  apply (reclaim_wf t (Waiting p l)); [done| |done].
  simpl. intros k0 Hk0 Hok0. simplify_eq. destruct Hok as [Hn Hw Hh]. split; simpl.
  - by apply NoDup_filter.
  - intros u. rewrite list_elem_of_filter, Hw, lookup_delete_Some. naive_solver.
  - assert (Hsame : ∀ u, delete t (pl_tasks st) !! u = Some (Holding p l) ↔
                         pl_tasks st !! u = Some (Holding p l)).
    { intros u. rewrite lookup_delete_Some. destruct (decide (t = u)) as [<-|]; naive_solver. }
    destruct (lk_locked k).
    + destruct Hh as [h Hh]. exists h. intros u. by rewrite Hsame.
    + intros u. by rewrite Hsame.
Qed.

Lemma lock_step_wf st st' : lock_step st st' → locks_wf st → locks_wf st'.
Proof. destruct 1; eauto using enter_wf, wake_wf, leave_wf, abandon_wf. Qed.

Lemma no_locks_wf : locks_wf no_locks.
Proof.
  assert (∀ p, count p ∅ = 0) as Hc by (intros p; unfold count; by rewrite map_filter_empty, map_size_empty).
  split; simpl; try done.
  - intros p. rewrite lookup_empty, Hc. split; [by intros [? ?]|lia].
Qed.
End Preservation.

Definition lock_reachable (st : locks) : Prop := rtc lock_step no_locks st.

Lemma lock_reachable_wf st : lock_reachable st → locks_wf st.
Proof.
  intros Hr. assert (∀ st0, locks_wf st0 → rtc lock_step st0 st → locks_wf st) as H.
  { intros st0 H0 Hs. induction Hs; eauto using lock_step_wf. }
  eapply H; [apply no_locks_wf|done].
Qed.

(** ** Theorems *)

(** C26: Mutual exclusion and reclamation.  In every reachable state at most one task is
    inside the lock of a project, all tasks at a project use the same lock object, and the
    two dictionaries have an entry for a project exactly while some task is at it, with
    the number of those tasks; nothing leaks once they are gone. *)
Theorem project_lock_exclusive (st : locks) :
  lock_reachable st →
  (∀ t u p l l', pl_tasks st !! t = Some (Holding p l) → pl_tasks st !! u = Some (Holding p l') → t = u) ∧
  (∀ t s, pl_tasks st !! t = Some s → pl_locks st !! ts_project s = Some (ts_lock s)) ∧
  (∀ p, default 0 (pl_users st !! p) = count p (pl_tasks st) ∧
        (is_Some (pl_locks st !! p) ↔ 0 < count p (pl_tasks st)) ∧
        (is_Some (pl_users st !! p) ↔ 0 < count p (pl_tasks st))) ∧
  (pl_tasks st = ∅ → pl_locks st = ∅ ∧ pl_users st = ∅).
Proof.
  intros H%lock_reachable_wf.
  assert (Husers : ∀ p, is_Some (pl_users st !! p) ↔ 0 < count p (pl_tasks st)).
  { intros p. pose proof (lw_users _ H p) as Hu. pose proof (lw_no_zero _ H p) as Hz.
    destruct (pl_users st !! p) as [[|n]|]; simpl in *; rewrite <- Hu; split; intros; try done; try lia. }
  split_and!.
  - intros t u p l l' Ht Hu. pose proof (lw_task _ H _ _ Ht) as Hl. pose proof (lw_task _ H _ _ Hu) as Hl'.
    simpl in *. assert (l' = l) as -> by congruence.
    destruct (task_lock _ _ _ H Ht) as (k & _ & Hok). by eapply holder_unique.
  - apply H.
  - intros p. split_and!; [apply H|apply H|apply Husers].
  - intros He. assert (∀ p, count p (pl_tasks st) = 0) as Hc.
    { intros p. rewrite He. unfold count. by rewrite map_filter_empty, map_size_empty. }
    split; apply map_empty; intros p; apply eq_None_not_Some.
    + intros Hs%(lw_used _ H). rewrite Hc in Hs. lia.
    + intros Hs%Husers. rewrite Hc in Hs. lia.
Qed.

(** Steps of the tasks that are already at the project: nobody new enters. *)
Inductive serve (st : locks) : locks → Prop :=
| serve_leave t st' : leave t st = Some st' → serve st st'
| serve_wake t st' : wake t st = Some st' → serve st st'.

Lemma wake_enabled st t p l ws :
  pl_tasks st !! t = Some (Waiting p l) → pl_heap st !! l = Some (MkLock false (t :: ws)) →
  ∃ st', wake t st = Some st' ∧ pl_tasks st' !! t = Some (Holding p l) ∧
    pl_heap st' !! l = Some (MkLock true ws) ∧
    (∀ u, u ≠ t → pl_tasks st' !! u = pl_tasks st !! u).
Proof.
  intros Ht Hk. unfold wake. rewrite Ht, Hk, decide_True by done. eexists. split; [done|]. simpl.
  split_and!; [by rewrite lookup_insert_eq..|]. intros u Hu. by apply lookup_insert_ne.
Qed.

Lemma leave_enabled st h p l k :
  pl_tasks st !! h = Some (Holding p l) → pl_heap st !! l = Some k →
  ∃ st', leave h st = Some st' ∧ pl_heap st' !! l = Some (lock_release k) ∧
    (∀ u, u ≠ h → pl_tasks st' !! u = pl_tasks st !! u).
Proof.
  intros Ht Hk. unfold leave. rewrite Ht. eexists. split; [done|]. unfold reclaim. simpl.
  case_decide; simpl; rewrite lookup_alter_eq, Hk; (split; [done|]); intros u Hu; by apply lookup_delete_ne.
Qed.

(** A waiter with [n] tasks before it in the queue of a free lock. *)
Lemma served_when_free ws1 st t ws2 p l :
  locks_wf st → pl_tasks st !! t = Some (Waiting p l) →
  pl_heap st !! l = Some (MkLock false (ws1 ++ t :: ws2)) →
  ∃ st', rtc serve st st' ∧ pl_tasks st' !! t = Some (Holding p l).
Proof.
  revert st. induction ws1 as [|w ws1 IH]; intros st H Ht Hk; simpl in Hk.
  { destruct (wake_enabled _ _ _ _ _ Ht Hk) as (st' & Hw & Hh & _).
    exists st'. split; [|done]. by eapply rtc_once, serve_wake. }
  destruct (task_lock _ _ _ H Ht) as (k & Hk' & Hok). simpl in *. simplify_eq.
  destruct Hok as [Hn Hwt _]. simpl in *. apply NoDup_cons in Hn as [Hnw Hn].
  assert (w ≠ t) as Hne by set_solver.
  assert (pl_tasks st !! w = Some (Waiting p l)) as Hw by (apply Hwt; set_solver).
  destruct (wake_enabled _ _ _ _ _ Hw Hk) as (st1 & Hs1 & Hh1 & Hk1 & Hsame1).
  assert (locks_wf st1) as H1 by (by eapply wake_wf).
  destruct (leave_enabled _ _ _ _ _ Hh1 Hk1) as (st2 & Hs2 & Hk2 & Hsame2).
  assert (locks_wf st2) as H2 by (by eapply leave_wf).
  destruct (IH st2 H2) as (st' & Hr & Hd); [by rewrite Hsame2, Hsame1 by done|done|].
  exists st'. split; [|done]. eapply rtc_l; [by eapply serve_wake|].
  eapply rtc_l; [by eapply serve_leave|done].
Qed.

(** No task is stuck in [acquire]: from every reachable state, the tasks already at the
    project can leave one after the other so that a waiting task gets the lock, and the
    lock is handed out in the order of arrival. *)
Theorem project_lock_served (st : locks) (t : nat) (p : string) (l : nat) :
  lock_reachable st → pl_tasks st !! t = Some (Waiting p l) →
  ∃ st', rtc serve st st' ∧ pl_tasks st' !! t = Some (Holding p l).
Proof.
  intros H%lock_reachable_wf Ht. destruct (task_lock _ _ _ H Ht) as ([lk ws] & Hk & Hok). simpl in *.
  assert (t ∈ ws) as Hin by (by apply (lo_waiters _ _ _ _ Hok)).
  apply list_elem_of_split in Hin as (ws1 & ws2 & ->).
  destruct lk; [|by eapply served_when_free].
  destruct (lo_holder _ _ _ _ Hok) as [h Hh]. assert (pl_tasks st !! h = Some (Holding p l)) as Hhold by by apply Hh.
  destruct (leave_enabled _ _ _ _ _ Hhold Hk) as (st1 & Hs1 & Hk1 & Hsame).
  assert (t ≠ h) as Hne by congruence.
  destruct (served_when_free ws1 st1 t ws2 p l) as (st' & Hr & Hd);
    [by eapply leave_wf|by rewrite Hsame|done|].
  exists st'. split; [|done]. eapply rtc_l; [by eapply serve_leave|done].
Qed.

(** ** A run *)

Module LockDemo.

(** Three tasks at one project: the first is inside, the others wait. *)
Definition crowded : locks := enter 3 "proj" (enter 2 "proj" (enter 1 "proj" no_locks)).

Lemma crowded_reachable : lock_reachable crowded.
Proof.
  eapply rtc_l; [apply (step_enter _ 1 "proj"); reflexivity|].
  eapply rtc_l; [apply (step_enter _ 2 "proj"); reflexivity|].
  eapply rtc_l; [apply (step_enter _ 3 "proj"); reflexivity|]. apply rtc_refl.
Qed.

Lemma project_lock_exclusive_witness :
  default 0 (pl_users crowded !! "proj") = 3 ∧ count "proj" (pl_tasks crowded) = 3.
Proof.
  destruct (project_lock_exclusive crowded crowded_reachable) as (_ & _ & H & _).
  split; [reflexivity|]. destruct (H "proj") as [<- _]. reflexivity.
Defined.

Lemma project_lock_served_witness :
  ∃ st', rtc serve crowded st' ∧ pl_tasks st' !! 3 = Some (Holding "proj" 0).
Proof. apply (project_lock_served crowded 3 "proj" 0 crowded_reachable). reflexivity. Defined.
End LockDemo.
