(* ===== verification/Deadline.v ===== *)
(** * Operation budgets and deadlines

    [src/apme_engine/daemon/deadline.py] and the integer parser of
    [src/apme_engine/config_env.py]: budgets estimated from the amount of work, and the
    check that ends an operation that overruns its budget, stalls, or outlives its
    session.

    Budgets are integers, in seconds; the margins are computed with doubles as the code
    does ([PyNum]).  Readings of the monotonic clock are integers, in nanoseconds: the
    rounding of their float representation is not modelled. *)

From stdpp Require Import base list gmap strings pretty.
From Stdlib Require Import Ascii String.
From S2P Require Import Prelude PyStr PyNum Violation.

#[local] Open Scope string_scope.
#[local] Open Scope Z_scope.

(** ** Configuration *)

(** The environment of the process. *)
Definition environ : Type := list (string * string).

(** [get_env_int] *)
Definition get_env_int (env : environ) (name : string) (dflt : Z) (min_value : option Z) : Z :=
  match py_int (default (pretty dflt) (dget name env)) with
  | None => dflt
  | Some value =>
    match min_value with
    | Some m => if value <? m then dflt else value
    | None => value
    end
  end.

(** [parse_ai_concurrency] *)
Definition parse_ai_concurrency (env : environ) (raw : option string) : Z :=
  let value := match raw with Some r => r | None => default "4" (dget "APME_AI_CONCURRENCY" env) end in
  match py_int value with
  | None => 4
  | Some parsed => if parsed <? 1 then 1 else parsed
  end.

(** The module-level defaults. *)
Record budget_config := MkBudgetConfig {
  bc_scan_base : Z;
  bc_min_budget : Z;
  bc_max_budget : Z;
  bc_per_call_timeout : Z;
  bc_stall_seconds : Z;
  bc_ai_concurrency : Z;
  bc_tier1_per_violation : Z;
  bc_tier1_margin_cap : Z;
}.

Definition load_budget_config (env : environ) : budget_config :=
  MkBudgetConfig
    (get_env_int env "APME_OPERATION_SCAN_BASE" 300 None)
    (get_env_int env "APME_OPERATION_MIN_BUDGET" 600 None)
    (get_env_int env "APME_SESSION_MAX_LIFETIME" 7200 None)
    (get_env_int env "APME_OPERATION_PER_CALL_TIMEOUT" 60 None)
    (get_env_int env "APME_OPERATION_STALL_SECONDS" 600 None)
    (parse_ai_concurrency env None)
    (get_env_int env "APME_OPERATION_TIER1_PER_VIOLATION" 2 None)
    (get_env_int env "APME_OPERATION_TIER1_MARGIN_CAP" 600 None).

Definition FALLBACK_NON_AI_OPERATION_BUDGET : Z := 600.

(** ** Budgets *)

(** [BudgetConfigError], by the check that raises it. *)
Inductive budget_error := BadConcurrency | BadPerCallTimeout | BadAttempts | FloorAboveCeiling.

Section Budgets.
Context (cfg : budget_config).

(** [count_ai_nodes] *)
Definition count_ai_nodes (violations : list ViolationDict) : Z :=
  Z.of_nat (size (list_to_set (filter (λ p, p ≠ "") (v_path <$> violations)) : gset string)).

Definition validate_ai_budget_inputs (concurrency per_call_timeout max_ai_attempts : Z)
    : budget_error + unit :=
  if concurrency <=? 0 then inl BadConcurrency
  else if per_call_timeout <=? 0 then inl BadPerCallTimeout
  else if max_ai_attempts <? 1 then inl BadAttempts
  else inr tt.

Definition clamp_budget (raw : Z) (min_budget max_budget : option Z) : budget_error + Z :=
  let floor := default (bc_min_budget cfg) min_budget in
  let ceiling := default (bc_max_budget cfg) max_budget in
  if ceiling <? floor then inl FloorAboveCeiling else inr (Z.max floor (Z.min ceiling raw)).

Definition estimate_tier1_margin (violation_count : Z) : Z :=
  if violation_count <=? 0 then 0
  else Z.min (bc_tier1_margin_cap cfg) (violation_count * bc_tier1_per_violation cfg).

Definition estimate_non_ai_budget (violation_count : Z) (scan_base min_budget max_budget : option Z)
    : budget_error + Z :=
  let base := default (bc_scan_base cfg) scan_base in
  let tier1_margin := estimate_tier1_margin violation_count in
  let margin := Z.max 60 (int_tenth (base + tier1_margin)) in
  clamp_budget (base + tier1_margin + margin) min_budget max_budget.

Definition estimate_ai_budget (ai_node_count : Z) (concurrency per_call_timeout : option Z)
    (max_ai_attempts : Z) (min_budget max_budget : option Z) : budget_error + Z :=
  let conc := default (bc_ai_concurrency cfg) concurrency in
  let per_call := default (bc_per_call_timeout cfg) per_call_timeout in
  match validate_ai_budget_inputs conc per_call max_ai_attempts with
  | inl e => inl e
  | inr _ =>
    let batches := if 0 <? ai_node_count then ceil_div ai_node_count conc else 0 in
    let ai_budget := batches * per_call * max_ai_attempts in
    let margin := Z.max 60 (int_tenth ai_budget) in
    clamp_budget (ai_budget + margin) min_budget max_budget
  end.

Definition estimate_operation_budget (ai_node_count : Z) (concurrency per_call_timeout : option Z)
    (max_ai_attempts violation_count : Z) (scan_base min_budget max_budget : option Z)
    : budget_error + Z :=
  match estimate_non_ai_budget violation_count scan_base min_budget max_budget with
  | inl e => inl e
  | inr non_ai =>
    if ai_node_count <=? 0 then inr non_ai
    else
      match estimate_ai_budget ai_node_count concurrency per_call_timeout max_ai_attempts min_budget
              max_budget with
      | inl e => inl e
      | inr ai => clamp_budget (non_ai + ai) min_budget max_budget
      end
  end.

(** ** Deadlines *)

Definition SECOND : Z := 1000000000.

Definition operation_deadline_mono (operation_started_at operation_budget_s : Z)
    (max_lifetime_deadline_mono : Z) : Z :=
  let phase_deadline := operation_started_at + operation_budget_s * SECOND in
  if max_lifetime_deadline_mono <=? 0 then phase_deadline
  else Z.min phase_deadline max_lifetime_deadline_mono.

Definition stall_window (operation_budget_s : Z) : Z := Z.min (bc_stall_seconds cfg) operation_budget_s.

Definition is_task_linked_progress (phase : string) : bool :=
  negb (String.eqb phase "heartbeat" || String.eqb phase "").

(** [OperationDeadlineError], by its code. *)
Inductive deadline_error :=
| SessionLifetimeExceeded
| OperationBudgetExceeded (budget elapsed_s : Z)
| OperationStalled (idle_s limit : Z).

Definition check_operation_deadline (operation_budget_s operation_started_at last_progress_at now
    max_lifetime_deadline_mono : Z) : option deadline_error :=
  if (operation_budget_s <=? 0) || (operation_started_at <=? 0) then None
  else
    let deadline := operation_deadline_mono operation_started_at operation_budget_s
                      max_lifetime_deadline_mono in
    if deadline <? now then
      if (0 <? max_lifetime_deadline_mono) && (max_lifetime_deadline_mono <=? now)
      then Some SessionLifetimeExceeded
      else Some (OperationBudgetExceeded operation_budget_s
                   (Z.quot (now - operation_started_at) SECOND))
    else
      let idle := if 0 <? last_progress_at then now - last_progress_at else now - operation_started_at in
      let limit := stall_window operation_budget_s in
      if limit * SECOND <? idle then Some (OperationStalled (Z.quot idle SECOND) limit) else None.

(** ** Theorems *)

Lemma clamp_budget_bounds raw lo hi b :
  clamp_budget raw lo hi = inr b →
  default (bc_min_budget cfg) lo <= b <= default (bc_max_budget cfg) hi.
Proof. unfold clamp_budget. case_match eqn:E; [done|]. apply Z.ltb_ge in E. intros [= <-]. lia. Qed.

Lemma clamp_budget_enough raw lo hi b :
  clamp_budget raw lo hi = inr b → Z.min (default (bc_max_budget cfg) hi) raw <= b.
Proof. unfold clamp_budget. case_match; [done|]. intros [= <-]. lia. Qed.

Lemma clamp_budget_mono raw raw' lo hi b b' :
  raw <= raw' → clamp_budget raw lo hi = inr b → clamp_budget raw' lo hi = inr b' → b <= b'.
Proof. unfold clamp_budget. case_match; [done|]. intros Hr [= <-] [= <-]. lia. Qed.

(** C29: Every budget that is granted lies between the floor and the ceiling.  Up to the
    ceiling, the budget of the AI phase covers the worst case of the work it was estimated
    for: the calls for [n] nodes run in rounds of [conc], and a round takes at most
    [per_call] seconds for each of the attempts; one tenth is added, despite the
    floating-point arithmetic.  The error names the first invalid input. *)
Theorem ai_budget_covers_work n conc per_call attempts lo hi :
  0 <= n < 2 ^ 53 →
  let c := default (bc_ai_concurrency cfg) conc in
  let p := default (bc_per_call_timeout cfg) per_call in
  match estimate_ai_budget n conc per_call attempts lo hi with
  | inr b =>
    default (bc_min_budget cfg) lo <= b <= default (bc_max_budget cfg) hi ∧
    (∀ rounds, n <= rounds * c → (rounds - 1) * c < n →
       let work := rounds * p * attempts in
       work < 2 ^ 50 → Z.min (default (bc_max_budget cfg) hi) (work + Z.max 60 (work / 10)) <= b)
  | inl BadConcurrency => c <= 0
  | inl BadPerCallTimeout => 0 < c ∧ p <= 0
  | inl BadAttempts => 0 < c ∧ 0 < p ∧ attempts < 1
  | inl FloorAboveCeiling =>
    0 < c ∧ 0 < p ∧ 1 <= attempts ∧ default (bc_max_budget cfg) hi < default (bc_min_budget cfg) lo
  end.
Proof.
  intros Hn c p. unfold estimate_ai_budget, validate_ai_budget_inputs. fold c p.
  destruct (Z.leb_spec c 0); [done|]. destruct (Z.leb_spec p 0); [done|].
  destruct (Z.ltb_spec attempts 1); [done|].
  set (bs := if 0 <? n then ceil_div n c else 0).
  destruct (clamp_budget _ lo hi) as [e|b] eqn:Ec.
  { unfold clamp_budget in Ec. case_match eqn:E; simplify_eq. apply Z.ltb_lt in E. split_and!; lia. }
  split; [by eapply clamp_budget_bounds|]. intros rounds Hup Hlo Hw.
  assert (bs = rounds) as Hbs.
  { unfold bs. destruct (Z.ltb_spec 0 n) as [Hpos|Hz].
    - rewrite ceil_div_exact by lia. pose proof (Z.div_mod (- n) c ltac:(lia)).
      pose proof (Z.mod_pos_bound (- n) c ltac:(lia)). nia.
    - assert (n = 0) by lia. nia. }
  assert (0 <= rounds) as Hr by nia.
  assert (0 <= rounds * p * attempts) as Hpos by (repeat apply Z.mul_nonneg_nonneg; lia).
  apply clamp_budget_enough in Ec. rewrite Hbs, int_tenth_exact in Ec by done. done.
Qed.

Lemma deadline_silent b start prog now life :
  0 < b → 0 < start →
  check_operation_deadline b start prog now life = None ↔
  now <= operation_deadline_mono start b life ∧
  (if 0 <? prog then now - prog else now - start) <= stall_window b * SECOND.
Proof.
  intros Hb Hs. unfold check_operation_deadline.
  rewrite (proj2 (Z.leb_gt b 0)), (proj2 (Z.leb_gt start 0)) by lia. simpl.
  destruct (Z.ltb_spec (operation_deadline_mono start b life) now).
  { split; [by case_match|lia]. }
  case_match eqn:E; [apply Z.ltb_lt in E|apply Z.ltb_ge in E]; split; try done; lia.
Qed.

(** The check is silent exactly when the phase is disabled, or it is on time and has
    made progress within the stall window; the three errors are told apart as documented,
    and an error stays until the clock anchors change. *)
Theorem deadline_check_spec b start prog now life :
  0 < b → 0 < start →
  let deadline := operation_deadline_mono start b life in
  let idle := if 0 <? prog then now - prog else now - start in
  (check_operation_deadline b start prog now life = None
     ↔ now <= deadline ∧ idle <= stall_window b * SECOND) ∧
  (check_operation_deadline b start prog now life = Some SessionLifetimeExceeded
     ↔ deadline < now ∧ 0 < life <= now) ∧
  (∀ now', now <= now' → is_Some (check_operation_deadline b start prog now life) →
     is_Some (check_operation_deadline b start prog now' life)).
Proof.
  intros Hb Hs deadline idle.
  pose proof (λ t, deadline_silent b start prog t life Hb Hs) as Hnone.
  split_and!.
  - apply Hnone.
  - unfold check_operation_deadline.
    rewrite (proj2 (Z.leb_gt b 0)), (proj2 (Z.leb_gt start 0)) by lia. simpl. fold deadline.
    destruct (Z.ltb_spec deadline now).
    + destruct (Z.ltb_spec 0 life), (Z.leb_spec life now); simpl; split; intros; try done; lia.
    + split; [by destruct (stall_window b * SECOND <? _)|lia].
  - intros now' Hle Hsome. apply not_eq_None_Some. intros Hn%Hnone.
    apply not_eq_None_Some in Hsome. apply Hsome, Hnone. destruct (0 <? prog); lia.
Qed.
End Budgets.

(** ** Defaults *)

Module DeadlineDemo.

Definition cfg : budget_config := load_budget_config [("APME_OPERATION_PER_CALL_TIMEOUT", " 9_0 ")].

Example cfg_values :
  bc_per_call_timeout cfg = 90 ∧ bc_max_budget cfg = 7200 ∧ bc_ai_concurrency cfg = 4.
Proof. split_and!; reflexivity. Qed.

(** Nine nodes, four at a time, two attempts: three rounds. *)
Lemma ai_budget_covers_work_witness : Z.min 7200 (540 + 60) <= 600 ∧ estimate_ai_budget cfg 9 None None 2 None None = inr 600.
Proof.
  split; [|reflexivity].
  pose proof (ai_budget_covers_work cfg 9 None None 2 None None ltac:(lia)) as [_ H].
  refine (H 3 _ _ _); vm_compute; (reflexivity || discriminate).
Defined.

Lemma deadline_check_spec_witness :
  check_operation_deadline cfg 600 1 (500 * SECOND) (601 * SECOND + 2) 0
  = Some (OperationBudgetExceeded 600 601) ∧
  is_Some (check_operation_deadline cfg 600 1 (500 * SECOND) (700 * SECOND) 0).
Proof.
  split; [reflexivity|].
  destruct (deadline_check_spec cfg 600 1 (500 * SECOND) (601 * SECOND + 2) 0 ltac:(lia) ltac:(lia))
    as (_ & _ & H).
  apply H; [vm_compute; discriminate|eexists; reflexivity].
Defined.
End DeadlineDemo.
