(* ===== verification/Session.v ===== *)
(** * Fix sessions of the engine daemon

    [SessionState] and [SessionStore] of [src/apme_engine/daemon/session.py], and the
    deadline supervision of [daemon/engine_server.py] that is built on them.

    Protobuf messages, engine objects and graphs held by a session are opaque ([X]).  The
    fields are grouped: [run_state] is what [reset_partial_run_state] touches,
    [clock_state] the timers, [kept_state] the rest.  Wall-clock time ([utc]) and monotonic
    time ([mono]) are arguments, in nanoseconds.  Whether a directory exists is an
    argument; the directories that were removed are returned. *)

From stdpp Require Import base list gmap strings relations.
From Stdlib Require Import Ascii String.
From S2P Require Import Prelude PyStr PyNum Violation Deadline.

#[local] Open Scope string_scope.
#[local] Open Scope Z_scope.
#[local] Notation length := List.length.

Record session_config := MkSessionConfig {
  sc_ttl : Z;                   (* _DEFAULT_TTL *)
  sc_max_lifetime : Z;          (* _MAX_LIFETIME *)
  sc_max_sessions : Z;          (* _MAX_SESSIONS *)
  sc_min_create_interval : Z;   (* _MIN_CREATE_INTERVAL_S, in nanoseconds *)
}.

Definition AWAITING_APPROVAL_STATUS : Z := 1.
Definition PROCESSING_STATUS : Z := 2.

Section Sessions.
Context {X : Type} (cfg : session_config).

(** ** [SessionState] *)

Record run_state := MkRun {
  ru_working_files : list (string * string);
  ru_format_diffs : list X;
  ru_tier1_patches : list X;
  ru_proposals : list (string * X);
  ru_review_declined : list (string * X);
  ru_progress_logs : list X;
  ru_report : option X;
  ru_ai_proposals : list X;
  ru_tier1_proposals : list X;
  ru_remaining_ai : list ViolationDict;
  ru_remaining_manual : list ViolationDict;
  ru_dep_health : list ViolationDict;
  ru_awaiting_tier1_gate : bool;
  ru_awaiting_assess : bool;
  ru_awaiting_ai_triage : bool;
  ru_content_graph : option X;
  ru_graph_engine : option X;
  ru_status : Z;
}.

Record clock_state := MkClocks {
  ck_created_at : Z;
  ck_last_activity_at : Z;
  ck_operation_budget_s : Z;
  ck_operation_started_at : Z;
  ck_last_progress_at : Z;
  ck_operation_generation : Z;
  ck_max_lifetime_deadline_mono : Z;
}.

Record kept_state := MkKept {
  kp_original_files : list (string * string);
  kp_current_tier : Z;
  kp_idempotency_ok : bool;
  kp_fix_options : option X;
  kp_scan_options : option X;
  kp_assess_findings : list X;
  kp_ai_triage_candidates : list X;
  kp_ai_escalate_targets : option (list (string * list string));
  kp_approved_ids : gset string;
  kp_approved_proposals : list X;
  kp_rejected_proposals : list (string * X);
  kp_scan_id : string;
  kp_project_root : string;
  kp_manifest : option X;         (* the fields captured from the session venv *)
  kp_graph_originals : list (string * string);
  kp_pre_gate2_files : list (string * string);
  kp_upload_sealed : bool;
  kp_upload_sealed_hash : string;
  kp_upload_sealed_chunk_hash : string;
}.

Record SessionState := MkSession {
  ss_id : string;
  ss_run : run_state;
  ss_clocks : clock_state;
  ss_kept : kept_state;
  ss_temp_dir : option string;
  ss_galaxy_cfg_path : option string;
}.

Definition empty_run (working : list (string * string)) : run_state :=
  MkRun working [] [] [] [] [] None [] [] [] [] [] false false false None None PROCESSING_STATUS.

Definition new_session (id : string) (utc : Z) : SessionState :=
  MkSession id (empty_run [])
    (MkClocks utc utc 0 0 0 0 0)
    (MkKept [] 1 true None None [] [] None ∅ [] [] "" "" None [] [] false "" "")
    None None.

Definition set_clocks (f : clock_state → clock_state) (s : SessionState) : SessionState :=
  MkSession (ss_id s) (ss_run s) (f (ss_clocks s)) (ss_kept s) (ss_temp_dir s) (ss_galaxy_cfg_path s).

(** *** Timers *)

Definition ttl_seconds (utc : Z) (s : SessionState) : Z :=
  Z.max 0 (sc_ttl cfg - Z.quot (utc - ck_last_activity_at (ss_clocks s)) SECOND).

Definition lifetime_seconds (utc : Z) (s : SessionState) : Z :=
  Z.quot (utc - ck_created_at (ss_clocks s)) SECOND.

Definition expired (utc : Z) (s : SessionState) : bool :=
  (ttl_seconds utc s <=? 0) || (sc_max_lifetime cfg <=? lifetime_seconds utc s).

Definition expiring_soon (utc : Z) (s : SessionState) : bool :=
  (0 <? ttl_seconds utc s) && (ttl_seconds utc s <=? 300).

Definition touch (utc : Z) : SessionState → SessionState :=
  set_clocks (λ c, MkClocks (ck_created_at c) utc (ck_operation_budget_s c) (ck_operation_started_at c)
                     (ck_last_progress_at c) (ck_operation_generation c)
                     (ck_max_lifetime_deadline_mono c)).

Definition set_lifetime_deadline (d : Z) : SessionState → SessionState :=
  set_clocks (λ c, MkClocks (ck_created_at c) (ck_last_activity_at c) (ck_operation_budget_s c)
                     (ck_operation_started_at c) (ck_last_progress_at c) (ck_operation_generation c) d).

Definition init_lifetime_deadline (mono : Z) : SessionState → SessionState :=
  set_lifetime_deadline (mono + sc_max_lifetime cfg * SECOND).

Definition reanchor_lifetime_deadline (utc mono : Z) (s : SessionState) : SessionState :=
  set_lifetime_deadline (mono + Z.max 0 (sc_max_lifetime cfg - lifetime_seconds utc s) * SECOND) s.

Definition begin_operation_phase (utc mono budget_s : Z) (s : SessionState) : SessionState :=
  touch utc (set_clocks (λ c,
    MkClocks (ck_created_at c) (ck_last_activity_at c) (Z.max 0 budget_s) mono mono
      (ck_operation_generation c + 1) (ck_max_lifetime_deadline_mono c)) s).

Definition record_progress (utc mono : Z) (task_linked : bool) (s : SessionState) : SessionState :=
  touch utc (set_clocks (λ c,
    MkClocks (ck_created_at c) (ck_last_activity_at c) (ck_operation_budget_s c)
      (ck_operation_started_at c) (if task_linked then mono else ck_last_progress_at c)
      (ck_operation_generation c) (ck_max_lifetime_deadline_mono c)) s).

Definition operation_budget_remaining (mono : Z) (s : SessionState) : Z :=
  let c := ss_clocks s in
  if (ck_operation_budget_s c <=? 0) || (ck_operation_started_at c <=? 0) then 0
  else
    Z.max 0 (Z.quot (operation_deadline_mono (ck_operation_started_at c) (ck_operation_budget_s c)
                       (ck_max_lifetime_deadline_mono c) - mono) SECOND).

(** *** Cleanup *)

(** [Path(p).parent] of a normalized path. *)
Definition path_parent (p : string) : string :=
  match before_last "/" p with Some "" => "/" | Some d => d | None => "." end.

(** [_cleanup_temp_dir], [_cleanup_galaxy_cfg], [cleanup]: the session and the directories
    removed. *)
Definition cleanup_temp_dir (is_dir : string → bool) (s : SessionState) : SessionState * list string :=
  match ss_temp_dir s with
  | Some d =>
    if is_dir d
    then (MkSession (ss_id s) (ss_run s) (ss_clocks s) (ss_kept s) None (ss_galaxy_cfg_path s), [d])
    else (s, [])
  | None => (s, [])
  end.

Definition cleanup_galaxy_cfg (is_dir : string → bool) (s : SessionState) : SessionState * list string :=
  match ss_galaxy_cfg_path s with
  | Some p =>
    if is_dir (path_parent p)
    then (MkSession (ss_id s) (ss_run s) (ss_clocks s) (ss_kept s) (ss_temp_dir s) None, [path_parent p])
    else (s, [])
  | None => (s, [])
  end.

Definition cleanup (is_dir : string → bool) (s : SessionState) : SessionState * list string :=
  let '(s1, l1) := cleanup_galaxy_cfg is_dir s in
  let '(s2, l2) := cleanup_temp_dir is_dir s1 in (s2, l1 ++ l2)%list.

Definition reset_partial_run_state (is_dir : string → bool) (s : SessionState)
    : SessionState * list string :=
  cleanup_temp_dir is_dir
    (MkSession (ss_id s) (empty_run (kp_original_files (ss_kept s))) (ss_clocks s) (ss_kept s)
       (ss_temp_dir s) (ss_galaxy_cfg_path s)).

(** ** Supervision in the daemon *)

(** [_check_deadline_event] *)
Definition check_deadline_event (bc : budget_config) (mono : Z) (s : SessionState)
    : option deadline_error :=
  let c := ss_clocks s in
  check_operation_deadline bc (ck_operation_budget_s c) (ck_operation_started_at c)
    (ck_last_progress_at c) mono (ck_max_lifetime_deadline_mono c).

(** [_progress_matches_phase], on the generation of the update. *)
Definition progress_matches_phase (generation : Z) (s : SessionState) : bool :=
  (generation =? 0) || (generation =? ck_operation_generation (ss_clocks s)).

(** [_begin_non_ai_operation_budget] *)
Definition begin_non_ai_operation_budget (bc : budget_config) (utc mono violation_count : Z)
    (s : SessionState) : SessionState :=
  begin_operation_phase utc mono
    (match estimate_non_ai_budget bc violation_count None None None with
     | inl _ => FALLBACK_NON_AI_OPERATION_BUDGET
     | inr b => b
     end) s.

(** [_begin_ai_operation_budget] on the violations of the AI tier. *)
Definition begin_ai_operation_budget (bc : budget_config) (utc mono : Z)
    (ai_violations : list ViolationDict) (max_ai_attempts : Z) (concurrency : option Z)
    (s : SessionState) : budget_error + SessionState :=
  match estimate_ai_budget bc (count_ai_nodes ai_violations) concurrency None max_ai_attempts None None with
  | inl e => inl e
  | inr b => inr (begin_operation_phase utc mono b s)
  end.

(** [_supervise_executor]: at each tick of the loop, whether the worker is done and the
    time; the worker's result, or the error that ended the wait. *)
Fixpoint supervise_executor {R : Type} (bc : budget_config) (ticks : list (option R * Z))
    (s : SessionState) : option (deadline_error + R) :=
  match ticks with
  | [] => None
  | (Some r, _) :: _ => Some (inr r)
  | (None, mono) :: ticks' =>
    match check_deadline_event bc mono s with
    | Some e => Some (inl e)
    | None => supervise_executor bc ticks' s
    end
  end.

(** A progress update, as far as supervision looks at it. *)
Record progress := MkProgressUpdate { pu_generation : Z; pu_phase : string }.

(** The handling of one queued update; [true] when it is forwarded to the client. *)
Definition apply_progress (utc mono : Z) (u : progress) (s : SessionState) : SessionState * bool :=
  if progress_matches_phase (pu_generation u) s
  then (record_progress utc mono (is_task_linked_progress (pu_phase u)) s, true) else (s, false).

(** One round of [_drain_remediate_task]: whether the task is done, the clocks, and the
    update received within the second, if any. *)
Record tick := MkTick { tk_done : bool; tk_utc : Z; tk_mono : Z; tk_update : option progress }.

Inductive drain_end := StillRunning | TaskDone | DeadlineFailed (e : deadline_error).

(** The first loop of [_drain_remediate_task]: the session, the updates forwarded and how
    the loop ended. *)
Fixpoint drain_remediate_task (bc : budget_config) (ticks : list tick) (s : SessionState)
    : SessionState * list progress * drain_end :=
  match ticks with
  | [] => (s, [], StillRunning)
  | t :: ticks' =>
    if tk_done t then (s, [], TaskDone)
    else
      match check_deadline_event bc (tk_mono t) s with
      | Some e => (s, [], DeadlineFailed e)
      | None =>
        match tk_update t with
        | None => drain_remediate_task bc ticks' s
        | Some u =>
          let '(s1, fwd) := apply_progress (tk_utc t) (tk_mono t) u s in
          let '(s2, us, e) := drain_remediate_task bc ticks' s1 in
          (s2, if fwd then u :: us else us, e)
        end
      end
  end.

(** ** [SessionStore] *)

Record SessionStore := MkStore {
  st_sessions : list (string * SessionState);
  st_last_create_mono : Z;
  st_removed_dirs : list string;
}.

Definition empty_store : SessionStore := MkStore [] 0 [].

Definition store_count (st : SessionStore) : Z := Z.of_nat (length (st_sessions st)).

(** [create]; [None] is the [ResourceExhaustedError]. *)
Definition create_session (id : string) (utc mono : Z) (st : SessionStore)
    : option (SessionStore * SessionState) :=
  if sc_max_sessions cfg <=? store_count st then None
  else if negb (st_last_create_mono st =? 0)
          && (mono - st_last_create_mono st <? sc_min_create_interval cfg) then None
  else
    let s := init_lifetime_deadline mono (new_session id utc) in
    Some (MkStore (dset id s (st_sessions st)) mono (st_removed_dirs st), s).

(** [_remove] *)
Definition remove_session (is_dir : string → bool) (id : string) (st : SessionStore)
    : SessionStore * bool :=
  match dget id (st_sessions st) with
  | Some s =>
    (MkStore (dpop id (st_sessions st)) (st_last_create_mono st)
       (st_removed_dirs st ++ (cleanup is_dir s).2)%list, true)
  | None => (st, false)
  end.

(** [get] *)
Definition get_session (is_dir : string → bool) (id : string) (utc : Z) (st : SessionStore)
    : SessionStore * option SessionState :=
  match dget id (st_sessions st) with
  | Some s => if expired utc s then ((remove_session is_dir id st).1, None) else (st, Some s)
  | None => (st, None)
  end.

Definition update_session (id : string) (f : SessionState → SessionState) (st : SessionStore)
    : SessionStore :=
  MkStore (dalter f id (st_sessions st)) (st_last_create_mono st) (st_removed_dirs st).

(** [touch] of the store. *)
Definition touch_session (id : string) (utc : Z) : SessionStore → SessionStore :=
  update_session id (touch utc).

(** One round of [_reap_loop]. *)
Definition reap_sessions (is_dir : string → bool) (utc : Z) (st : SessionStore) : SessionStore :=
  foldl (λ st id, (remove_session is_dir id st).1) st
    (filter (λ p, expired utc p.2 = true) (st_sessions st)).*1.

(** ** The store: invariant *)

Record store_wf (st : SessionStore) : Prop := {
  sw_nodup : NoDup (st_sessions st).*1;
  sw_bound : store_count st <= Z.max 0 (sc_max_sessions cfg);
}.

Inductive store_step (st : SessionStore) : SessionStore → Prop :=
| step_create id utc mono st' s : create_session id utc mono st = Some (st', s) → store_step st st'
| step_get is_dir id utc : store_step st (get_session is_dir id utc st).1
| step_remove is_dir id : store_step st (remove_session is_dir id st).1
| step_update id f : store_step st (update_session id f st)
| step_reap is_dir utc : store_step st (reap_sessions is_dir utc st).

Lemma dpop_length {V} id (d : list (string * V)) : (length (dpop id d) <= length d)%nat.
Proof. apply length_filter. Qed.

Lemma remove_session_wf is_dir id st : store_wf st → store_wf (remove_session is_dir id st).1.
Proof.
  intros [Hn Hb]. unfold remove_session. destruct (dget id (st_sessions st)); [|done]. split; simpl.
  - by apply dpop_NoDup.
  - unfold store_count in *. simpl. pose proof (dpop_length id (st_sessions st)). lia.
Qed.

Lemma removes_session_wf is_dir ids st :
  store_wf st → store_wf (foldl (λ st id, (remove_session is_dir id st).1) st ids).
Proof.
  revert st. induction ids as [|id ids IH]; intros st H; simpl; [done|]. by apply IH, remove_session_wf.
Qed.

Lemma dset_length {V} id (v : V) (d : list (string * V)) : (length (dset id v d) <= S (length d))%nat.
Proof. induction d as [|[k w] d IH]; simpl; [lia|]. case_decide; simpl; lia. Qed.

Lemma store_step_wf st st' : store_wf st → store_step st st' → store_wf st'.
Proof.
  intros H [id utc mono st1 s Hc|is_dir id utc|is_dir id|id f|is_dir utc].
  - unfold create_session in Hc. destruct (Z.leb_spec (sc_max_sessions cfg) (store_count st)); [done|].
    case_match; simplify_eq. destruct H as [Hn Hb]. split; simpl.
    + by apply dset_NoDup.
    + unfold store_count in *. simpl.
      pose proof (dset_length id (init_lifetime_deadline mono (new_session id utc)) (st_sessions st)). lia.
  - unfold get_session. destruct (dget id (st_sessions st)); [|done]. case_match; [|done].
    by apply remove_session_wf.
  - by apply remove_session_wf.
  - destruct H as [Hn Hb]. split; simpl; [by rewrite dkeys_dalter|].
    unfold store_count in *. simpl. unfold dalter. by rewrite length_fmap.
  - by apply removes_session_wf.
Qed.

Lemma dget_remove_session is_dir id id' st :
  dget id' (st_sessions (remove_session is_dir id st).1)
  = if decide (id' = id) then None else dget id' (st_sessions st).
Proof.
  unfold remove_session. destruct (dget id (st_sessions st)) eqn:Hd; simpl; [apply dget_dpop|].
  case_decide; by subst.
Qed.

Lemma dget_removes is_dir ids id' st :
  dget id' (st_sessions (foldl (λ st id, (remove_session is_dir id st).1) st ids))
  = if decide (id' ∈ ids) then None else dget id' (st_sessions st).
Proof.
  revert st. induction ids as [|id ids IH]; intros st; simpl; [done|].
  rewrite IH, dget_remove_session. repeat case_decide; set_solver.
Qed.

Definition store_reachable (st : SessionStore) : Prop := rtc store_step empty_store st.

Lemma store_reachable_wf st : store_reachable st → store_wf st.
Proof.
  intros Hr. assert (∀ st0, store_wf st0 → rtc store_step st0 st → store_wf st) as H.
  { intros st0 H0 Hs. induction Hs; eauto using store_step_wf. }
  eapply H; [|done]. split; simpl; [constructor|]. unfold store_count. simpl. lia.
Qed.

(** C27: However sessions are created, looked up, changed and reaped, their ids are unique and
    there are never more of them than the configured maximum; a session that is looked up
    has not expired; and a round of the reaper removes exactly the expired ones. *)
Theorem session_store_safe st is_dir utc :
  store_reachable st →
  NoDup (st_sessions st).*1 ∧
  store_count st <= Z.max 0 (sc_max_sessions cfg) ∧
  (∀ id s, (get_session is_dir id utc st).2 = Some s →
     expired utc s = false ∧ dget id (st_sessions st) = Some s) ∧
  (∀ id s, dget id (st_sessions (reap_sessions is_dir utc st)) = Some s ↔
     dget id (st_sessions st) = Some s ∧ expired utc s = false).
Proof.
  intros H%store_reachable_wf. split_and!.
  - apply H.
  - apply H.
  - intros id s. unfold get_session. destruct (dget id (st_sessions st)) as [s0|]; [|done].
    destruct (expired utc s0) eqn:E; simpl; [done|]. intros [= <-]. done.
  - intros id s. unfold reap_sessions. rewrite dget_removes.
    assert (Hin : ∀ s0, dget id (st_sessions st) = Some s0 →
      id ∈ (filter (λ p, expired utc p.2 = true) (st_sessions st)).*1 ↔ expired utc s0 = true).
    { intros s0 H0. rewrite list_elem_of_fmap. split.
      - intros ([i s1] & -> & [He Hl]%list_elem_of_filter). simpl in *.
        apply dget_elem in Hl; [|apply H]. congruence.
      - intros He. exists (id, s0). split; [done|]. apply list_elem_of_filter. split; [done|].
        by apply dget_Some_elem. }
    case_decide as Hd.
    + split; [done|]. intros [Hs He]. apply (Hin _ Hs) in Hd. congruence.
    + split; [|tauto]. intros Hs. split; [done|]. destruct (expired utc s) eqn:E; [|done].
      by apply (Hin _ Hs) in E.
Qed.

(** ** Supervision: theorems *)

(** Updates that do not count as work for the session's phase. *)
Definition idle_update (s : SessionState) (o : option progress) : Prop :=
  match o with
  | None => True
  | Some u => progress_matches_phase (pu_generation u) s = false ∨
              is_task_linked_progress (pu_phase u) = false
  end.

Lemma apply_idle utc mono u (s : SessionState) :
  idle_update s (Some u) →
  let c := ss_clocks s in let c' := ss_clocks (apply_progress utc mono u s).1 in
  ck_operation_budget_s c' = ck_operation_budget_s c ∧
  ck_operation_started_at c' = ck_operation_started_at c ∧
  ck_last_progress_at c' = ck_last_progress_at c ∧
  ck_operation_generation c' = ck_operation_generation c ∧
  ck_max_lifetime_deadline_mono c' = ck_max_lifetime_deadline_mono c.
Proof.
  simpl. unfold apply_progress. intros [H|H]; [by rewrite H|].
  destruct (progress_matches_phase (pu_generation u) s); [|done]. simpl. by rewrite H.
Qed.

(** C28: Heartbeats and updates of earlier phases cannot hide a stall: if the task does not
    finish and nothing else arrives, the supervision ends it at the first round after the
    stall window (at the latest), and reports every update of the current phase until
    then. *)
Theorem stall_is_detected bc ticks (s : SessionState) t0 :
  let c := ss_clocks s in
  0 < ck_operation_budget_s c → 0 < ck_operation_started_at c → 0 < ck_last_progress_at c →
  Forall (λ t, tk_done t = false ∧ idle_update s (tk_update t)) ticks →
  t0 ∈ ticks →
  ck_last_progress_at c + stall_window bc (ck_operation_budget_s c) * SECOND < tk_mono t0 →
  ∃ e, (drain_remediate_task bc ticks s).2 = DeadlineFailed e.
Proof.
  revert s. induction ticks as [|t ticks IH]; intros s c Hb Hs Hp Hall Hin Hlate;
    [by apply not_elem_of_nil in Hin|].
  apply Forall_cons in Hall as [[Hdone Hidle] Hall]. simpl. rewrite Hdone.
  destruct (check_deadline_event bc (tk_mono t) s) as [e|] eqn:Ec; [by exists e|].
  unfold check_deadline_event in Ec. fold c in Ec.
  apply deadline_silent in Ec as [_ Hidle0]; [|done|done].
  rewrite (proj2 (Z.ltb_lt 0 (ck_last_progress_at c))) in Hidle0 by done.
  apply elem_of_cons in Hin as [->|Hin]; [lia|].
  destruct (tk_update t) as [u|]; [|by apply IH].
  destruct (apply_idle (tk_utc t) (tk_mono t) u s Hidle) as (H1 & H2 & H3 & H4 & H5).
  destruct (apply_progress (tk_utc t) (tk_mono t) u s) as [s1 fwd]. simpl in *.
  destruct (IH s1) as [e He]; rewrite ?H1, ?H2, ?H3; try done.
  - eapply Forall_impl; [exact Hall|]. intros t' [? Hi]. split; [done|].
    unfold idle_update, progress_matches_phase in *. by rewrite H4.
  - exists e. by destruct (drain_remediate_task bc ticks s1) as [[s2 us] e2].
Qed.

(** The remaining budget shown to clients agrees with the enforcement: while some of it is
    left, the only error that can fire is a stall. *)
Lemma budget_remaining_agrees bc mono (s : SessionState) :
  0 < operation_budget_remaining mono s →
  match check_deadline_event bc mono s with
  | None | Some (OperationStalled _ _) => True
  | _ => False
  end.
Proof.
  unfold operation_budget_remaining, check_deadline_event, check_operation_deadline.
  destruct (_ || _); [lia|]. intros Hr.
  set (d := operation_deadline_mono _ _ _) in *.
  assert (mono <= d) as Hd.
  { apply Z.nlt_ge. intros Hlt. assert (Z.quot (d - mono) SECOND <= 0); [|lia].
    replace (d - mono) with (- (mono - d)) by lia. rewrite Z.quot_opp_l by done.
    pose proof (Z.quot_pos (mono - d) SECOND). unfold SECOND in *. lia. }
  rewrite (proj2 (Z.ltb_ge d mono)) by lia. by destruct (stall_window _ _ * _ <? _).
Qed.

(** The budget a client is shown is honoured: as long as the remaining budget is
    positive, the deadline check can only report a stall; starting a phase gives it the
    budget that was estimated, which for the non-AI phase never fails; and a failed run is
    reset to the uploaded files, without touching the session's timers or its upload
    seal. *)
Theorem session_budget_honoured bc utc mono count is_dir (s : SessionState) :
  (0 < operation_budget_remaining mono s →
   match check_deadline_event bc mono s with
   | None | Some (OperationStalled _ _) => True
   | _ => False
   end) ∧
  (0 < mono → 0 <= bc_stall_seconds bc → ck_max_lifetime_deadline_mono (ss_clocks s) = 0 →
   let s' := begin_non_ai_operation_budget bc utc mono count s in
   operation_budget_remaining mono s' = ck_operation_budget_s (ss_clocks s') ∧
   check_deadline_event bc mono s' = None) ∧
  (let s' := (reset_partial_run_state is_dir s).1 in
   ss_run s' = empty_run (kp_original_files (ss_kept s)) ∧ ss_clocks s' = ss_clocks s ∧
   ss_kept s' = ss_kept s).
Proof.
  split_and!.
  - apply budget_remaining_agrees.
  - intros Hm Hst Hl s'.
    set (b := match estimate_non_ai_budget bc count None None None with
              | inl _ => FALLBACK_NON_AI_OPERATION_BUDGET | inr b => b end).
    assert (ss_clocks s' = MkClocks (ck_created_at (ss_clocks s)) utc (Z.max 0 b) mono mono
              (ck_operation_generation (ss_clocks s) + 1) 0) as Hc.
    { unfold s', begin_non_ai_operation_budget, begin_operation_phase. fold b. simpl. by rewrite Hl. }
    unfold operation_budget_remaining, check_deadline_event. rewrite Hc. simpl.
    destruct (Z.le_gt_cases b 0) as [Hb|Hb].
    { unfold check_operation_deadline. by replace (Z.max 0 b) with 0 by lia. }
    replace (Z.max 0 b) with b by lia.
    rewrite (proj2 (Z.leb_gt b 0)), (proj2 (Z.leb_gt mono 0)) by lia. simpl. split.
    + unfold operation_deadline_mono. simpl. replace (mono + b * SECOND - mono) with (b * SECOND) by lia.
      rewrite Z.quot_mul by done. lia.
    + apply deadline_silent; [done|done|]. rewrite (proj2 (Z.ltb_lt 0 mono)) by done.
      unfold operation_deadline_mono, stall_window, SECOND. simpl. lia.
  - simpl. unfold reset_partial_run_state, cleanup_temp_dir. simpl.
    by destruct (ss_temp_dir s) as [d|]; [destruct (is_dir d)|].
Qed.
End Sessions.

(** ** A run *)

Module SessionDemo.

Definition cfg : session_config := MkSessionConfig 1800 7200 1 0.

Definition no_dir : string → bool := λ _, false.

(** One session, created at one second past the epoch of both clocks. *)
Definition opened : SessionStore (X := nat) :=
  match create_session cfg "s1" SECOND SECOND empty_store with Some (st, _) => st | None => empty_store end.

Lemma opened_reachable : store_reachable cfg opened.
Proof. eapply rtc_l; [|apply rtc_refl]. eapply (step_create cfg _ "s1" SECOND SECOND). reflexivity. Qed.

Example second_refused : create_session cfg "s2" SECOND (2 * SECOND) opened = None.
Proof. reflexivity. Qed.

Lemma session_store_safe_witness :
  dget "s1" (st_sessions (reap_sessions cfg no_dir (1801 * SECOND) opened)) = None ∧
  store_count opened <= 1.
Proof.
  destruct (session_store_safe cfg opened no_dir (1801 * SECOND) opened_reachable) as (_ & H & _ & Hr).
  split; [|exact H].
  destruct (dget "s1" (st_sessions (reap_sessions cfg no_dir (1801 * SECOND) opened))) as [s|] eqn:E;
    [|reflexivity].
  apply Hr in E as [[= <-] E]. vm_compute in E. discriminate.
Defined.

(** A phase of 900 seconds whose task only sends heartbeats. *)
Definition working : SessionState (X := nat) :=
  begin_operation_phase SECOND SECOND 900 (new_session "s1" SECOND).
Definition heartbeats : list tick :=
  [MkTick false (100 * SECOND) (100 * SECOND) (Some (MkProgressUpdate 1 "heartbeat"));
   MkTick false (602 * SECOND) (602 * SECOND) None].

Lemma stall_is_detected_witness :
  ∃ e, (drain_remediate_task DeadlineDemo.cfg heartbeats working).2 = DeadlineFailed e.
Proof.
  apply (stall_is_detected DeadlineDemo.cfg heartbeats working (MkTick false (602 * SECOND) (602 * SECOND) None)).
  1-3: reflexivity.
  - repeat constructor; simpl; auto; by right.
  - right. left.
  - reflexivity.
Defined.
End SessionDemo.
