(* ===== verification/ProposalGroups.v ===== *)
(** * Approval units of the gateway

    [apme_gateway/proposals/grouping.py]: violations of a scan are grouped by node and
    class lane into the units a user approves or declines, outcomes reported by the
    engine are laid over them, and decisions are turned into analytics rows and review
    statuses.

    Violations and outcomes come as mappings or as objects with attributes; both are
    dictionaries here, and [Object] marks the latter.  A diff is kept as the texts it
    compares.  A JSON column holds the value its text denotes, [None] when the text is
    not JSON. *)

From stdpp Require Import base list gmap strings pretty.
From Stdlib Require Import Ascii String.
From S2P Require Import Prelude PyStr PyPath PyNum Sha256 Yaml.

#[local] Open Scope string_scope.
#[local] Notation length := List.length.

(** ** Data *)

Definition RC_AUTO_FIXABLE : Z := 1.
Definition RC_AI_CANDIDATE : Z := 2.
Definition RC_MANUAL_REVIEW : Z := 3.

Definition SOURCE_DETERMINISTIC := "deterministic".
Definition SOURCE_AI := "ai".
Definition SOURCE_AI_CANDIDATE := "ai-candidate".
Definition SOURCE_OUTCOME := "outcome".

Definition GATE_TIER1 := "tier1".
Definition GATE_AI := "ai".

Definition REVIEW_DETERMINISTIC_APPROVED := "deterministic_approved".
Definition REVIEW_DETERMINISTIC_DECLINED := "deterministic_declined".
Definition REVIEW_AI_APPROVED := "ai_approved".
Definition REVIEW_AI_DECLINED := "ai_declined".

Definition STATUS_ACCEPTED := ["approved"; "accepted"].
Definition STATUS_DECLINED := ["declined"; "rejected"].

Inductive hunk := Hunk (text : string) | DiffOf (file before after : string).

Record GroupedProposal := MkGroup {
  gp_proposal_id : string; gp_rule_id : string; gp_rule_ids : list string; gp_violation_ids : list Z;
  gp_file : string; gp_path : string; gp_line_start : Z; gp_line_end : Z; gp_tier : Z;
  gp_source : string; gp_gate : string; gp_status : string; gp_confidence : pyfloat;
  gp_original_yaml : string; gp_fixed_yaml : string; gp_diff_hunk : hunk;
  gp_explanation : string; gp_suggestion : string; gp_coupled : bool;
  gp_stamp_rule_ids : list string; gp_node_type : string;
}.

(** ** Coercions *)

(** [d.get(k)] and [getattr(d, k, None)] *)
Definition attr (k : string) (d : YAMLDict) : yval := default YNull (dget k d).

(** [d.get(k) or ""], without [str] *)
Definition attr_or (k : string) (d : YAMLDict) : yval := let x := attr k d in if ytruthy x then x else YStr "".

(** [_to_int] *)
Definition to_int (value : yval) (dflt : Z) : Z :=
  let fallback := Z.max 0 dflt in
  let whole f := match integer_value f with Some z => Z.max 0 z | None => fallback end in
  match value with
  | YBool _ => fallback
  | YInt z => Z.max 0 z
  | YFloat r => match py_float r with Some f => whole f | None => fallback end
  | YStr s =>
    let text := strip s in
    if decide (text = "") then fallback
    else match py_int text with
         | Some z => Z.max 0 z
         | None => match py_float text with Some f => whole f | None => fallback end
         end
  | _ => fallback
  end.

(** [_parse_violation_id] *)
Definition parse_violation_id (value : yval) : option Z :=
  let coerced := to_int value 0 in if (0 <? coerced)%Z then Some coerced else None.

(** [_coerce_violation_ids] *)
Definition coerce_violation_ids (values : list yval) : list Z := sort_by Z.leb (omap parse_violation_id values).

(** [min(1.0, max(0.0, d))] *)
Definition clamp_default (d : pyfloat) : pyfloat :=
  match d with
  | FNan => FZERO
  | FInf neg => if neg then FZERO else FONE
  | FFin neg m _ => if neg || (m =? 0)%Z then FZERO else if above_one d then FONE else d
  end.

Definition clamp_float (dflt f : pyfloat) : pyfloat :=
  if negb (is_finite f) then clamp_default dflt
  else if below_zero f then FZERO else if above_one f then FONE else f.

(** [_safe_float]; [None] is the [OverflowError] of [float(value)] on a huge integer. *)
Definition safe_float (value : yval) (dflt : pyfloat) : option pyfloat :=
  match value with
  | YInt z => clamp_float dflt <$> float_of_int z
  | YFloat r => Some (match py_float r with Some f => clamp_float dflt f | None => clamp_default dflt end)
  | YStr s =>
    let text := strip s in
    if decide (text = "") then Some (clamp_default dflt)
    else Some (match py_float text with Some f => clamp_float dflt f | None => clamp_default dflt end)
  | _ => Some (clamp_default dflt)
  end.

(** ** Grouping *)

Inductive raw_violation := Mapping (d : YAMLDict) | Object (attrs : YAMLDict).

Definition int_fields : list string :=
  ["line"; "node_line_start"; "line_end"; "node_line_end"; "remediation_class"].

Definition coerce_field (d : YAMLDict) (k : string) : YAMLDict :=
  match dget k d with Some x => dset k (YInt (to_int x 0)) d | None => d end.

(** [_as_mapping] *)
Definition as_mapping (v : raw_violation) : YAMLDict :=
  match v with
  | Mapping d => foldl coerce_field d int_fields
  | Object a =>
    [("id", attr "id" a); ("rule_id", attr_or "rule_id" a); ("file", attr_or "file" a);
     ("path", attr_or "path" a); ("line", YInt (to_int (attr "line" a) 0));
     ("node_line_start", YInt (to_int (attr "node_line_start" a) 0));
     ("line_end", YInt (to_int (attr "line_end" a) 0));
     ("node_line_end", YInt (to_int (attr "node_line_end" a) 0));
     ("remediation_class", YInt (to_int (attr "remediation_class" a) 0));
     ("original_yaml", attr_or "original_yaml" a); ("fixed_yaml", attr_or "fixed_yaml" a);
     ("node_type", attr_or "node_type" a); ("review_status", attr "review_status" a)]
  end.

Definition rem_class (item : YAMLDict) : Z := to_int (attr "remediation_class" item) 0.

(** [str(item.get("fixed_yaml") or "").strip()] as a condition *)
Definition has_fixed (item : YAMLDict) : bool := negb (String.eqb (strip (str_or "fixed_yaml" item)) "").

(** [_class_lane] *)
Definition class_lane (item : YAMLDict) : string :=
  if (rem_class item =? RC_AI_CANDIDATE)%Z then "ai"
  else if (rem_class item =? RC_AUTO_FIXABLE)%Z || has_fixed item then "tier1"
  else "other".

Definition item_path (item : YAMLDict) : string := strip (str_or "path" item).

Definition path_key (path lane : string) : string := "path:" +:+ path +:+ ":lane:" +:+ lane.

(** [_group_key] *)
Definition group_key (item : YAMLDict) (index : nat) : string :=
  let path := item_path item in
  if negb (String.eqb path "") then path_key path (class_lane item)
  else
    match attr "id" item with
    | YNull => "singleton:" +:+ str_or "file" item +:+ ":" +:+ str_or "rule_id" item +:+ ":"
                 +:+ ystr (attr "line" item) +:+ ":" +:+ pretty index
    | vid => "singleton:id:" +:+ ystr vid
    end.

(** [_classify] *)
Definition classify (items : list YAMLDict) : string * string * Z :=
  let classes := rem_class <$> items in
  if decide (RC_AUTO_FIXABLE ∈ classes) then (SOURCE_DETERMINISTIC, GATE_TIER1, 1%Z)
  else if decide (RC_AI_CANDIDATE ∈ classes) then (SOURCE_AI_CANDIDATE, GATE_AI, 2%Z)
  else if existsb has_fixed items then (SOURCE_DETERMINISTIC, GATE_TIER1, 1%Z)
  else (SOURCE_OUTCOME, "", 0%Z).

Definition REVIEW_APPROVED := [REVIEW_DETERMINISTIC_APPROVED; REVIEW_AI_APPROVED].
Definition REVIEW_DECLINED := [REVIEW_DETERMINISTIC_DECLINED; REVIEW_AI_DECLINED].

(** [_status_from_review] *)
Definition status_from_review (review_status : option string) : string :=
  match review_status with
  | Some r =>
    if decide (r ∈ REVIEW_APPROVED) then "approved"
    else if decide (r ∈ REVIEW_DECLINED) then "declined" else "pending"
  | None => "pending"
  end.

(** [_proposal_id] *)
Definition proposal_id (gate key : string) : string :=
  "prop-" +:+ (if decide (gate = "") then "na" else gate) +:+ "-" +:+ String.substring 0 12 (sha256_hex key).

(** [_build_diff_hunk] *)
Definition build_diff_hunk (file_path before after : string) : hunk :=
  if decide (before = "" ∨ after = "" ∨ before = after) then Hunk ""
  else DiffOf (if decide (file_path = "") then "file" else file_path) before after.

(** The first non-empty text of a field. *)
Definition first_text (k : string) (items : list YAMLDict) : string :=
  default "" (head (omap (λ i, let x := attr k i in if ytruthy x then Some (ystr x) else None) items)).

(** Both ends of the span come from the same item. *)
Definition item_end (i : YAMLDict) : Z :=
  let e := to_int (attr "line_end" i) 0 in if (e =? 0)%Z then to_int (attr "node_line_end" i) 0 else e.

Definition spans_of (k : string) (items : list YAMLDict) : list (Z * Z) :=
  omap (λ i, let s := to_int (attr k i) 0 in if (s =? 0)%Z then None else Some (s, item_end i)) items.

Definition select_span (items : list YAMLDict) : Z * Z :=
  match spans_of "node_line_start" items with
  | s :: _ => s
  | [] => default (0%Z, 0%Z) (head (spans_of "line" items))
  end.

(** The status a bucket has from the reviews of its violations. *)
Definition bucket_status (items : list YAMLDict) : string :=
  let statuses := remove_dups (filter (λ x, ytruthy x = true) (attr "review_status" <$> items)) in
  match statuses with
  | [only] => status_from_review (Some (ystr only))
  | _ =>
    if existsb (λ s, bool_decide (s ∈ YStr <$> REVIEW_APPROVED)) statuses then "approved"
    else if negb (bool_decide (statuses = [])) &&
            forallb (λ s, bool_decide (s ∈ YStr <$> REVIEW_DECLINED)) statuses then "declined"
    else "pending"
  end.

(** The path of a bucket is read back from its key. *)
Definition key_path (key : string) : string :=
  if startswith key "path:" then
    let rest := removeprefix key "path:" in default rest (rsplit_head ":lane:" rest)
  else "".

Definition bucket_rule_ids (items : list YAMLDict) : list string :=
  match sort_by String.leb (remove_dups (filter (λ s, s ≠ "") (str_or "rule_id" <$> items))) with
  | [] => [""]
  | l => l
  end.

Definition freeze (include_diff : bool) (bucket : string * list YAMLDict) : GroupedProposal :=
  let '(key, items) := bucket in
  let rule_ids := bucket_rule_ids items in
  let '(source, gate, tier) := classify items in
  let file_path := str_or "file" (default [] (head items)) in
  let original := first_text "original_yaml" items in
  let fixed := first_text "fixed_yaml" items in
  MkGroup (proposal_id gate key) (default "" (head rule_ids)) rule_ids
    (coerce_violation_ids (attr "id" <$> items)) file_path (key_path key)
    (select_span items).1 (select_span items).2 tier source gate (bucket_status items) FZERO
    original fixed (if include_diff then build_diff_hunk file_path original fixed else Hunk "")
    "" "" (1 <? length rule_ids)%nat [] (first_text "node_type" items).

Definition buckets (violations : list raw_violation) : list (string * list (nat * YAMLDict)) :=
  group_by (λ p : nat * YAMLDict, group_key p.2 p.1) (imap (λ i v, (i, as_mapping v)) violations).

Definition group_le (a b : GroupedProposal) : bool :=
  if decide (gp_file a = gp_file b) then
    if decide (gp_path a = gp_path b) then String.leb (gp_proposal_id a) (gp_proposal_id b)
    else String.leb (gp_path a) (gp_path b)
  else String.leb (gp_file a) (gp_file b).

Definition group_violations (violations : list raw_violation) (include_diff : bool) : list GroupedProposal :=
  sort_by group_le ((λ b, freeze include_diff (b.1, b.2.*2)) <$> buckets violations).

(** ** Outcomes of the engine

    An outcome is an object; its identity ([id(candidate)]) is its position in the
    list of outcomes. *)

(** [[p.strip() for p in s.split(",") if p.strip()]] *)
Definition csv_parts (s : string) : list string := filter (λ p, p ≠ "") (strip <$> split_on "," s).

Definition outcome_queues : Type := list ((string * string) * list nat).

Definition index_outcome (acc : list (string * nat) * outcome_queues) (p : nat * YAMLDict) :
    list (string * nat) * outcome_queues :=
  let '(by_id, by_file_rule) := acc in
  let '(i, raw) := p in
  let oid := str_or "proposal_id" raw in
  let file_path := str_or "file" raw in
  (if decide (oid = "") then by_id else dset oid i by_id,
   if decide (file_path = "") then by_file_rule
   else foldl (λ q part, dset (file_path, part) (default [] (dget (file_path, part) q) ++ [i])%list q)
          by_file_rule (csv_parts (str_or "rule_id" raw))).

Definition index_outcomes (outcomes : list YAMLDict) : list (string * nat) * outcome_queues :=
  foldl index_outcome ([], []) (imap pair outcomes).

(** The queues that are left, and the outcomes claimed so far. *)
Definition claim_state : Type := outcome_queues * gset nat.

(** The inner loop: the next unclaimed outcome of a queue, and what is left of it. *)
Fixpoint next_unclaimed (claimed : gset nat) (queue : list nat) : option nat * list nat :=
  match queue with
  | [] => (None, [])
  | c :: queue' => if decide (c ∈ claimed) then next_unclaimed claimed queue' else (Some c, queue')
  end.

Fixpoint claim_by_rule (file : string) (rule_ids : list string) (st : claim_state) : option nat * claim_state :=
  match rule_ids with
  | [] => (None, st)
  | rid :: rest =>
    match dget (file, rid) st.1 with
    | None | Some [] => claim_by_rule file rest st
    | Some queue =>
      let '(c, queue') := next_unclaimed st.2 queue in
      let queues := dset (file, rid) queue' st.1 in
      match c with
      | Some c => (Some c, (queues, {[c]} ∪ st.2))
      | None => claim_by_rule file rest (queues, st.2)
      end
    end
  end.

(** The outcome of one proposal. *)
Definition claim (by_id : list (string * nat)) (p : GroupedProposal) (st : claim_state) :
    option nat * claim_state :=
  match dget (gp_proposal_id p) by_id with
  | Some i => (Some i, (st.1, {[i]} ∪ st.2))
  | None => claim_by_rule (gp_file p) (gp_rule_ids p) st
  end.

Fixpoint claims (by_id : list (string * nat)) (st : claim_state) (ps : list GroupedProposal) : list (option nat) :=
  match ps with
  | [] => []
  | p :: ps' => let '(c, st') := claim by_id p st in c :: claims by_id st' ps'
  end.

(** The prefix of an id follows the gate. *)
Definition realign_id (gate pid : string) : string :=
  if decide (gate = GATE_AI) then
    match replace_first "-tier1-" "-ai-" pid with
    | Some pid' => pid'
    | None => default pid (replace_first "-na-" "-ai-" pid)
    end
  else pid.

Definition or_default (x dflt : string) : string := if decide (x = "") then dflt else x.
Definition or_default_int (x dflt : Z) : Z := if (x =? 0)%Z then dflt else x.

(** The fields an outcome overlays. *)
Definition overlay (p : GroupedProposal) (o : YAMLDict) : option GroupedProposal :=
  let status := or_default (str_or "status" o) (gp_status p) in
  let status := if decide (status = "rejected") then "declined" else status in
  confidence ← (match dget "confidence" o with
                | Some x => safe_float x (gp_confidence p)
                | None => Some (clamp_float (gp_confidence p) (gp_confidence p))
                end);
  let tier := to_int (default (YInt (gp_tier p)) (dget "tier" o)) (gp_tier p) in
  let '(source, gate) := if (2 <=? tier)%Z then (SOURCE_AI, GATE_AI) else (gp_source p, gp_gate p) in
  let stamp_rules := match csv_parts (str_or "rule_id" o) with [] => gp_rule_ids p | l => l end in
  let line_end := to_int (default (YInt (gp_line_end p)) (dget "line_end" o)) (gp_line_end p) in
  Some (MkGroup (realign_id gate (gp_proposal_id p)) (gp_rule_id p) (gp_rule_ids p) (gp_violation_ids p)
    (gp_file p) (gp_path p) (gp_line_start p) (or_default_int line_end (gp_line_end p))
    (or_default_int tier (gp_tier p)) source gate (or_default status (gp_status p)) confidence
    (gp_original_yaml p) (gp_fixed_yaml p) (gp_diff_hunk p) (gp_explanation p) (gp_suggestion p)
    (gp_coupled p) stamp_rules (gp_node_type p)).

Definition merge_one (outcomes : list YAMLDict) (p : GroupedProposal) (c : option nat) : option GroupedProposal :=
  match c ≫= (outcomes !!.) with Some o => overlay p o | None => Some p end.

(** [merge_outcomes] *)
Definition merge_outcomes (ps : list GroupedProposal) (outcomes : list YAMLDict) : option (list GroupedProposal) :=
  let '(by_id, by_file_rule) := index_outcomes outcomes in
  mapM (λ pc, merge_one outcomes pc.1 pc.2) (zip ps (claims by_id (by_file_rule, ∅) ps)).

(** ** Decisions *)

(** [rule_group_fingerprint] *)
Definition rule_group_fingerprint (rule_ids : list string) : string :=
  sjoin "+" (sort_by String.leb (filter (λ r, r ≠ "") rule_ids)).

(** [decision_delta] *)
Definition decision_delta (status : string) : Z * Z :=
  let normalized := slower status in
  if decide (normalized ∈ STATUS_ACCEPTED) then (1%Z, 0%Z)
  else if decide (normalized ∈ STATUS_DECLINED) then (0%Z, 1%Z) else (0%Z, 0%Z).

Record increment := MkIncrement {
  in_rule_id : string; in_source : string; in_gate : string; in_tier : Z; in_coupled : Z; in_is_group : Z;
  in_accepted : Z; in_declined : Z;
}.

(** The rows of a decision. *)
Definition increment_rows (status : string) (rule_ids : list string) (source gate : string) (tier : Z)
    (coupled : bool) : list increment :=
  let source := if decide (source = SOURCE_AI_CANDIDATE) then SOURCE_AI
                else if decide (source = SOURCE_OUTCOME) then
                  if (tier <=? 1)%Z then SOURCE_DETERMINISTIC else SOURCE_AI
                else source in
  let '(accepted, declined) := decision_delta status in
  if (accepted =? 0)%Z && (declined =? 0)%Z then []
  else
    let analytics_source := if decide (source = SOURCE_DETERMINISTIC) then SOURCE_DETERMINISTIC else SOURCE_AI in
    ((λ rule_id, MkIncrement rule_id analytics_source gate tier (if coupled then 1 else 0)%Z 0 accepted declined)
       <$> rule_ids) ++
    (if coupled && (1 <? length rule_ids)%nat then
       [MkIncrement (rule_group_fingerprint rule_ids) analytics_source gate tier 1 1 accepted declined]
     else []).

(** [analytics_increments] of a grouped proposal *)
Definition group_increments (p : GroupedProposal) : list increment :=
  increment_rows (gp_status p) (gp_rule_ids p) (gp_source p) (gp_gate p) (gp_tier p) (gp_coupled p).

(** [[str(r) for r in l if r]] *)
Definition truthy_strs (l : list yval) : list string := ystr <$> filter (λ x, ytruthy x = true) l.

(** [analytics_increments] of a mapping, as it is built from a row: [rule_ids] is a
    list. *)
Definition analytics_increments (status rule_id : string) (rule_ids : list yval) (source gate : string)
    (tier : Z) (coupled : bool) : list increment :=
  let ids := truthy_strs rule_ids in
  let ids := match ids with [] => if decide (rule_id = "") then [] else [rule_id] | _ => ids end in
  increment_rows status ids (or_default source SOURCE_OUTCOME) gate (to_int (YInt tier) 0)
    (coupled || (1 <? length ids)%nat).

Definition is_ai (source : string) : bool := bool_decide (source ∈ [SOURCE_AI; SOURCE_AI_CANDIDATE]).

(** [review_status_for_proposal] *)
Definition review_status_for_proposal (source status : string) : option string :=
  let '(accepted, declined) := decision_delta status in
  if negb (accepted =? 0)%Z then Some (if is_ai source then REVIEW_AI_APPROVED else REVIEW_DETERMINISTIC_APPROVED)
  else if negb (declined =? 0)%Z then
    Some (if is_ai source then REVIEW_AI_DECLINED else REVIEW_DETERMINISTIC_DECLINED)
  else None.

(** [violation_accepts_review_status]; the violation as a dictionary. *)
Definition violation_accepts_review_status (source : string) (violation : YAMLDict) (decision : string) : bool :=
  let fixed := has_fixed violation in
  let rc := rem_class violation in
  let '(accepted, declined) := decision_delta decision in
  if is_ai source then
    (rc =? RC_AI_CANDIDATE)%Z
    || (negb (accepted =? 0)%Z && (rc =? RC_AUTO_FIXABLE)%Z && fixed)
    || (negb (declined =? 0)%Z && (rc =? RC_MANUAL_REVIEW)%Z && negb fixed)
  else if decide (source ∈ [SOURCE_DETERMINISTIC; SOURCE_OUTCOME]) then
    (rc =? RC_AUTO_FIXABLE)%Z || fixed
  else false.

(** ** JSON columns *)

Definition json_column : Type := option yval.

Definition serialize_rule_ids (l : list string) : json_column := Some (YList (YStr <$> l)).
Definition serialize_violation_ids (l : list Z) : json_column := Some (YList (YInt <$> l)).

Definition parse_json_list (raw : json_column) : list yval :=
  match raw with Some (YList l) => l | _ => [] end.

(** [stamp_rule_allowlist]; a set as a list. *)
Definition stamp_rule_allowlist (stamp_rule_ids rule_ids : json_column) : list string :=
  match truthy_strs (parse_json_list stamp_rule_ids) with
  | [] => truthy_strs (parse_json_list rule_ids)
  | l => l
  end.

(** ** Lemmas on grouping *)

Lemma rsplit_head_app sep p q r : rsplit_head sep q = Some r → rsplit_head sep (p +:+ q) = Some (p +:+ r).
Proof. intros Hq. induction p as [|c p IH]; simpl; [done|]. by rewrite IH. Qed.

Lemma class_lane_cases item : class_lane item ∈ ["ai"; "tier1"; "other"].
Proof. unfold class_lane. repeat case_match; set_solver. Qed.

(** The path is read back from the key. *)
Lemma key_path_path_key path lane : lane ∈ ["ai"; "tier1"; "other"] → key_path (path_key path lane) = path.
Proof.
  intros Hl. unfold key_path, path_key.
  replace (startswith _ _) with true by (symmetry; apply (prefix_app "path:")).
  rewrite removeprefix_app. rewrite (rsplit_head_app ":lane:" path _ "").
  - simpl. apply sapp_nil_r.
  - repeat (apply elem_of_cons in Hl as [->|Hl]; [reflexivity|]). by apply elem_of_nil in Hl.
Qed.

Lemma key_path_singleton s : key_path ("singleton:" +:+ s) = "".
Proof. reflexivity. Qed.

(** The gate of a lane. *)
Definition lane_gate (lane : string) : string :=
  if decide (lane = "ai") then GATE_AI else if decide (lane = "tier1") then GATE_TIER1 else "".

(** Items of one lane are classified by it. *)
Lemma classify_lane items lane :
  items ≠ [] → Forall (λ i, class_lane i = lane) items → (classify items).1.2 = lane_gate lane.
Proof.
  intros Hne Hall. rewrite Forall_forall in Hall. unfold classify.
  assert (Hi : ∃ i, i ∈ items) by (destruct items as [|i l]; [done|]; exists i; by left). destruct Hi as [i Hi].
  pose proof (Hall i Hi) as Hlane. case_decide as Ha; [|case_decide as Hai; [|case_match eqn:Hf]]; simpl.
  - apply list_elem_of_fmap in Ha as (j & Hj & Hjin). rewrite <- (Hall j Hjin).
    unfold class_lane. by rewrite <- Hj.
  - apply list_elem_of_fmap in Hai as (j & Hj & Hjin). rewrite <- (Hall j Hjin).
    unfold class_lane. by rewrite <- Hj.
  - apply existsb_exists in Hf as (j & Hjin%list_elem_of_In & Hj). rewrite <- (Hall j Hjin).
    unfold class_lane. destruct (Z.eqb_spec (rem_class j) RC_AI_CANDIDATE) as [E|E].
    { exfalso. apply Hai. apply list_elem_of_fmap. by exists j. }
    by rewrite Hj, orb_true_r.
  - rewrite <- Hlane. unfold class_lane. destruct (Z.eqb_spec (rem_class i) RC_AI_CANDIDATE) as [E|E].
    { exfalso. apply Hai. apply list_elem_of_fmap. by exists i. }
    destruct (Z.eqb_spec (rem_class i) RC_AUTO_FIXABLE) as [E'|E'].
    { exfalso. apply Ha. apply list_elem_of_fmap. by exists i. }
    destruct (has_fixed i) eqn:E2; [|done]. exfalso.
    assert (existsb has_fixed items = true) as Hc; [|congruence].
    apply existsb_exists. exists i. by rewrite <- list_elem_of_In.
Qed.

(** Which rows share a key, when they have integer ids. *)
Lemma group_key_eq a b i j x y :
  attr "id" a = YInt x → attr "id" b = YInt y →
  group_key a i = group_key b j ↔
  (item_path a ≠ "" ∧ item_path b = item_path a ∧ class_lane b = class_lane a) ∨
  (item_path a = "" ∧ item_path b = "" ∧ x = y).
Proof.
  intros Ha Hb. unfold group_key. rewrite Ha, Hb.
  destruct (String.eqb_spec (item_path a) "") as [Ea|Ea], (String.eqb_spec (item_path b) "") as [Eb|Eb]; simpl.
  - rewrite Ea, Eb. split; [intros [= E]; right; by apply (inj pretty) in E|].
    intros [[? _]|(_ & _ & ->)]; done.
  - split; [discriminate|]. naive_solver.
  - split; [discriminate|]. intros [(_ & E & _)|[? _]]; congruence.
  - split; [|intros [(_ & -> & ->)|[? _]]; [done|congruence]].
    intros E. left. pose proof (f_equal key_path E) as Hp.
    rewrite !key_path_path_key in Hp by apply class_lane_cases. split_and!; [done..|].
    unfold path_key in E. rewrite Hp in E. apply sapp_inv_head, sapp_inv_head in E.
    by apply (sapp_inv_head ":lane:") in E.
Qed.

(** The ids a bucket lists. *)
Lemma coerce_ids_perm zs : Forall (λ z, 0 < z)%Z zs → coerce_violation_ids (YInt <$> zs) ≡ₚ zs.
Proof.
  intros Hz. unfold coerce_violation_ids. rewrite sort_by_perm.
  induction Hz as [|z zs Hz _ IH]; [done|]. csimpl. unfold parse_violation_id at 1. simpl.
  replace (Z.max 0 z) with z by lia. rewrite (proj2 (Z.ltb_lt 0 z)) by done. by f_equiv.
Qed.

(** The rows of a scan: their ids are distinct positive integers. *)
Definition stored_rows (raws : list raw_violation) (ids : list Z) : Prop :=
  (λ v, attr "id" (as_mapping v)) <$> raws = YInt <$> ids ∧ NoDup ids ∧ Forall (λ z, 0 < z)%Z ids.

Definition row_id (item : YAMLDict) : Z := match attr "id" item with YInt z => z | _ => 0%Z end.

Section Rows.
Context (raws : list raw_violation) (ids : list Z) (Hrows : stored_rows raws ids).

Notation indexed := (imap (λ i v, (i, as_mapping v)) raws).

Lemma indexed_elem i item :
  (i, item) ∈ indexed → ∃ v, raws !! i = Some v ∧ item = as_mapping v ∧ attr "id" item = YInt (row_id item) ∧
    ids !! i = Some (row_id item) ∧ (0 < row_id item)%Z.
Proof.
  intros (k & Hk)%list_elem_of_lookup. rewrite list_lookup_imap in Hk.
  destruct (raws !! k) as [v|] eqn:Hv; [|done]. simpl in Hk. injection Hk as <- <-.
  destruct Hrows as (Hid & _ & Hpos). exists v.
  pose proof (f_equal (.!! k) Hid) as Hk. rewrite !list_lookup_fmap, Hv in Hk. simpl in Hk.
  destruct (ids !! k) as [z|] eqn:Hz; [|done]. simpl in Hk. injection Hk as Hk.
  unfold row_id. rewrite Hk. split_and!; [done..|].
  rewrite Forall_lookup in Hpos. eauto.
Qed.

Lemma indexed_ids : row_id <$> indexed.*2 = ids.
Proof.
  destruct Hrows as (Hid & _ & _). revert Hid. generalize ids. clear.
  assert (Hgen : ∀ zs (f : nat → nat), (λ v, attr "id" (as_mapping v)) <$> raws = YInt <$> zs →
    row_id <$> (imap (λ i v, (f i, as_mapping v)) raws).*2 = zs); [|intros zs; apply (Hgen zs (λ i, i))].
  induction raws as [|v l IH]; intros [|z zs] f; csimpl; [done..|].
  intros [= Hv Hl]. f_equal; [by unfold row_id; rewrite Hv|]. apply (IH zs (f ∘ S)). done.
Qed.

Lemma bucket_ids xs : (∀ p, p ∈ xs → p ∈ indexed) →
  coerce_violation_ids (attr "id" <$> xs.*2) ≡ₚ row_id <$> xs.*2.
Proof.
  intros Hxs. assert (Hids : attr "id" <$> xs.*2 = YInt <$> (row_id <$> xs.*2)).
  { rewrite <- !list_fmap_compose. apply list_fmap_ext. intros k [i item] Hk. simpl.
    apply list_elem_of_lookup_2, Hxs, indexed_elem in Hk as (v & _ & _ & Hid & _). done. }
  rewrite Hids. apply coerce_ids_perm. rewrite <- list_fmap_compose. apply Forall_fmap, Forall_forall.
  intros [i item] Hin. apply Hxs, indexed_elem in Hin as (v & _ & _ & _ & _ & Hpos). done.
Qed.

Lemma bucket_elem k xs p : (k, xs) ∈ buckets raws → p ∈ xs ↔ p ∈ indexed ∧ group_key p.2 p.1 = k.
Proof. intros [_ ->]%elem_of_group_by. rewrite list_elem_of_filter. tauto. Qed.

Lemma grouped_ids_perm d : mjoin (gp_violation_ids <$> group_violations raws d) ≡ₚ ids.
Proof.
  unfold group_violations. rewrite sort_by_perm, <- list_fmap_compose.
  transitivity (row_id <$> (mjoin (buckets raws).*2).*2).
  2: { unfold buckets. by rewrite group_by_perm, indexed_ids. }
  assert (Hall : ∀ b p, b ∈ buckets raws → p ∈ b.2 → p ∈ indexed).
  { intros [k xs] p Hb Hp. by apply (bucket_elem k xs p Hb) in Hp as [? _]. }
  induction (buckets raws) as [|[k xs] bs IH]; [done|]. csimpl. rewrite !fmap_app. f_equiv.
  - unfold freeze. destruct (classify _) as [[source gate] tier]. simpl. apply bucket_ids.
    intros p. apply (Hall (k, xs)). by left.
  - apply IH. intros b p Hb. apply Hall. by right.
Qed.
End Rows.

Lemma gate_of_freeze d k items : gp_gate (freeze d (k, items)) = (classify items).1.2.
Proof. unfold freeze. by destruct (classify items) as [[source gate] tier]. Qed.

Lemma path_of_freeze d k items : gp_path (freeze d (k, items)) = key_path k.
Proof. unfold freeze. by destruct (classify items) as [[source gate] tier]. Qed.

Lemma ids_of_freeze d k items : gp_violation_ids (freeze d (k, items)) = coerce_violation_ids (attr "id" <$> items).
Proof. unfold freeze. by destruct (classify items) as [[source gate] tier]. Qed.

(** Two rows are in the same unit. *)
Definition same_unit (a b : YAMLDict) : Prop :=
  row_id a = row_id b ∨
  (item_path a ≠ "" ∧ item_path b = item_path a ∧ class_lane b = class_lane a).

(** The bucket of a row. *)
Lemma row_bucket raws ids k xs i item :
  stored_rows raws ids → (k, xs) ∈ buckets raws → (i, item) ∈ xs →
  k = group_key item i ∧
  (∀ j b, (j, b) ∈ imap (λ i v, (i, as_mapping v)) raws →
     row_id b ∈ row_id <$> xs.*2 ↔ same_unit item b) ∧
  Forall (λ b, class_lane b = class_lane item) xs.*2 ∧ key_path k = item_path item.
Proof.
  intros Hr Hb Hin. pose proof Hr as (_ & Hnd & _).
  pose proof (proj1 (bucket_elem raws _ _ (i, item) Hb) Hin) as [Hi Hk]. simpl in Hk.
  destruct (indexed_elem raws ids Hr i item Hi) as (v & Hv & _ & Hid & Hz & _).
  assert (Hkey : ∀ j b, (j, b) ∈ imap (λ i v, (i, as_mapping v)) raws →
    (j, b) ∈ xs ↔ same_unit item b).
  { intros j b Hj. rewrite (bucket_elem raws _ _ _ Hb). simpl. rewrite <- Hk.
    destruct (indexed_elem raws ids Hr j b Hj) as (w & Hw & -> & Hidb & Hzb & _).
    destruct (indexed_elem raws ids Hr i item Hi) as (v' & Hv' & Hitem & _).
    assert (Hsame : row_id item = row_id (as_mapping w) → as_mapping w = item ∧ j = i).
    { intros E. rewrite E in Hz. assert (j = i) as -> by by eapply NoDup_lookup. naive_solver. }
    assert (Hsym : group_key (as_mapping w) j = group_key item i ↔ group_key item i = group_key (as_mapping w) j)
      by (split; congruence).
    rewrite Hsym, (group_key_eq _ _ i j _ _ Hid Hidb). unfold same_unit.
    split; [intros [_ [?|(_ & _ & ?)]]; eauto|]. intros [E|?]; (split; [done|]); [|by left].
    destruct (Hsame E) as [Ew ->]. destruct (decide (item_path item = "")) as [Ep|Ep].
    - right. rewrite Ew. naive_solver.
    - left. by rewrite Ew. }
  split_and!; [done| | |].
  - intros j b Hj. rewrite <- (Hkey j b Hj). split.
    + intros (b' & Hb' & ([j' b''] & -> & Hin')%list_elem_of_fmap)%list_elem_of_fmap. simpl in Hb'.
      pose proof (proj1 (bucket_elem raws _ _ (j', b'') Hb) Hin') as [Hj' _].
      destruct (indexed_elem raws ids Hr j b Hj) as (w & Hw & -> & _ & Hzb & _).
      destruct (indexed_elem raws ids Hr j' b'' Hj') as (w' & Hw' & -> & _ & Hzb' & _).
      rewrite Hb' in Hzb. assert (j' = j) as -> by by eapply NoDup_lookup. naive_solver.
    + intros Hin'. apply list_elem_of_fmap. exists b. split; [done|].
      apply list_elem_of_fmap. by exists (j, b).
  - apply Forall_forall. intros b ([j b'] & -> & Hin')%list_elem_of_fmap. simpl.
    pose proof (proj1 (bucket_elem raws _ _ (j, b') Hb) Hin') as [Hj _].
    destruct (proj1 (Hkey j b' Hj) Hin') as [E|(_ & _ & ?)]; [|done].
    destruct (indexed_elem raws ids Hr j b' Hj) as (w & Hw & -> & _ & Hzb & _).
    destruct (indexed_elem raws ids Hr i item Hi) as (v' & Hv' & -> & _).
    rewrite E in Hz. assert (j = i) as -> by by eapply NoDup_lookup. naive_solver.
  - rewrite <- Hk. unfold group_key. destruct (String.eqb_spec (item_path item) "") as [E|E]; simpl.
    + rewrite Hid. simpl. by rewrite E.
    + by rewrite key_path_path_key by apply class_lane_cases.
Qed.

(** C34: Grouping is a partition by node and lane.  For the rows of a scan, every
    violation is listed in exactly one unit; a unit that lists a violation lists the
    other violations of the same node and class lane and no others (a violation without
    a path is alone); and its gate and path are those of the violation, so that one
    decision never covers an AI candidate and a deterministic fix. *)
Theorem grouping_exact raws ids d :
  stored_rows raws ids →
  mjoin (gp_violation_ids <$> group_violations raws d) ≡ₚ ids ∧
  ∀ p v, p ∈ group_violations raws d → v ∈ raws → row_id (as_mapping v) ∈ gp_violation_ids p →
    gp_gate p = lane_gate (class_lane (as_mapping v)) ∧ gp_path p = item_path (as_mapping v) ∧
    ∀ w, w ∈ raws → row_id (as_mapping w) ∈ gp_violation_ids p ↔ same_unit (as_mapping v) (as_mapping w).
Proof.
  intros Hr. split; [by apply grouped_ids_perm|].
  intros p v Hp Hv Hid. unfold group_violations in Hp.
  apply elem_of_sort_by, list_elem_of_fmap in Hp as ([k xs] & -> & Hb). cbn [fst snd] in Hid |- *.
  rewrite ids_of_freeze in Hid |- *.
  assert (Hsub : ∀ p, p ∈ xs → p ∈ imap (λ i v, (i, as_mapping v)) raws)
    by (intros q Hq; by apply (bucket_elem raws k xs q Hb) in Hq as [? _]).
  assert (Hpos : ∀ w, w ∈ raws → ∃ j, (j, as_mapping w) ∈ imap (λ i v, (i, as_mapping v)) raws).
  { intros w (j & Hj)%list_elem_of_lookup. exists j. apply (list_elem_of_lookup_2 _ j).
    by rewrite list_lookup_imap, Hj. }
  assert (Hin : ∃ i, (i, as_mapping v) ∈ xs).
  { rewrite (bucket_ids raws ids Hr xs Hsub) in Hid.
    apply list_elem_of_fmap in Hid as (b & E & ([i b'] & -> & Hi)%list_elem_of_fmap). simpl in E. exists i.
    destruct (Hpos v Hv) as [j Hj]. destruct (indexed_elem raws ids Hr _ _ Hj) as (w & Hw & Hm & _ & Hz & _).
    destruct (indexed_elem raws ids Hr _ _ (Hsub _ Hi)) as (w' & Hw' & -> & _ & Hz' & _).
    rewrite E in Hz. destruct Hr as (_ & Hnd & _). assert (i = j) as -> by by eapply NoDup_lookup.
    rewrite Hm. naive_solver. }
  destruct Hin as [i Hin]. destruct (row_bucket raws ids k xs i _ Hr Hb Hin) as (_ & Hmem & Hlane & Hpath).
  rewrite gate_of_freeze, path_of_freeze. split_and!; [|done|].
  - apply classify_lane; [|done]. destruct xs; [by apply elem_of_nil in Hin|done].
  - intros w Hw. destruct (Hpos w Hw) as [j Hj]. rewrite (bucket_ids raws ids Hr xs Hsub). by apply (Hmem j).
Qed.

(** ** Lemmas on outcomes *)

(** The ways an outcome belongs to a proposal. *)
Definition names (outcomes : list YAMLDict) (i : nat) (p : GroupedProposal) : Prop :=
  ∃ o, outcomes !! i = Some o ∧ str_or "proposal_id" o = gp_proposal_id p ∧ gp_proposal_id p ≠ "".

Definition fits (outcomes : list YAMLDict) (i : nat) (file rule : string) : Prop :=
  ∃ o, outcomes !! i = Some o ∧ str_or "file" o = file ∧ file ≠ "" ∧ rule ∈ csv_parts (str_or "rule_id" o).

Definition queue_of (q : outcome_queues) (file rule : string) : list nat := default [] (dget (file, rule) q).

Lemma queue_of_dset q k l file rule :
  queue_of (dset k l q) file rule = if decide ((file, rule) = k) then l else queue_of q file rule.
Proof. unfold queue_of. rewrite dget_dset. by case_decide. Qed.

(** Queueing an outcome under its rules. *)
Lemma enqueue_spec parts f i q file rule j :
  j ∈ queue_of (foldl (λ q part, dset (f, part) (default [] (dget (f, part) q) ++ [i])%list q) q parts) file rule ↔
  j ∈ queue_of q file rule ∨ (j = i ∧ file = f ∧ rule ∈ parts).
Proof.
  revert q. induction parts as [|part parts IH]; intros q; simpl.
  - split; [by left|]. intros [?|(_ & _ & ?%elem_of_nil)]; done.
  - rewrite IH, queue_of_dset, elem_of_cons. case_decide as E.
    + injection E as -> ->. fold (queue_of q f part). rewrite elem_of_app, list_elem_of_singleton. tauto.
    + split; [intros [?|(? & ? & ?)]; tauto|]. intros [?|(-> & -> & [->|?])]; [tauto|done|tauto].
Qed.

Lemma lookup_snoc_Some_lt {A} (l : list A) x i y :
  (l ++ [x])%list !! i = Some y ↔ l !! i = Some y ∨ (i = length l ∧ y = x).
Proof.
  rewrite lookup_app_Some. split; [|intros [?|[-> ->]]; [by left|]].
  - intros [?|[? Hx]]; [by left|]. apply list_lookup_singleton_Some in Hx as [? ->]. right. split; [lia|done].
  - right. rewrite Nat.sub_diag. done.
Qed.

Lemma index_outcomes_snoc outcomes o :
  index_outcomes (outcomes ++ [o]) = index_outcome (index_outcomes outcomes) (length outcomes, o).
Proof. unfold index_outcomes. rewrite imap_app, foldl_app. simpl. by rewrite Nat.add_0_r. Qed.

Lemma index_outcomes_spec outcomes :
  (∀ k i, dget k (index_outcomes outcomes).1 = Some i →
     k ≠ "" ∧ ∃ o, outcomes !! i = Some o ∧ str_or "proposal_id" o = k) ∧
  ∀ file rule i, i ∈ queue_of (index_outcomes outcomes).2 file rule ↔ fits outcomes i file rule.
Proof.
  induction outcomes as [|o outcomes [IHid IHq]] using rev_ind.
  { split; [done|]. intros file rule i. split; [by intros ?%elem_of_nil|]. intros (o & ? & _). done. }
  rewrite index_outcomes_snoc. unfold index_outcome.
  destruct (index_outcomes outcomes) as [by_id q]. cbn [fst snd] in *. split.
  - intros k i Hk. setoid_rewrite lookup_snoc_Some_lt. case_decide as Ho.
    + destruct (IHid k i Hk) as (? & o' & ? & ?). split; [done|]. exists o'. eauto.
    + rewrite dget_dset in Hk. case_decide as Hk'.
      * injection Hk as <-. split; [congruence|]. exists o. split; [by right|done].
      * destruct (IHid k i Hk) as (? & o' & ? & ?). split; [done|]. exists o'. eauto.
  - intros file rule i. assert (Hfit : fits (outcomes ++ [o])%list i file rule ↔
      fits outcomes i file rule ∨
      (i = length outcomes ∧ file = str_or "file" o ∧ file ≠ "" ∧ rule ∈ csv_parts (str_or "rule_id" o))).
    { unfold fits. setoid_rewrite lookup_snoc_Some_lt. split.
      - intros (o' & [?|[-> ->]] & <- & ? & ?); [left|right]; eauto 6.
      - intros [(o' & ? & ?)|(-> & -> & ? & ?)]; eauto 8. }
    rewrite Hfit, <- IHq. case_decide as Hf.
    + split; [by left|]. intros [?|(_ & -> & ? & _)]; [done|congruence].
    + rewrite enqueue_spec. naive_solver.
Qed.

(** What the claims maintain: a queue holds fitting outcomes only, and every fitting
    outcome that nobody has claimed. *)
Definition claim_inv (outcomes : list YAMLDict) (st : claim_state) : Prop :=
  (∀ file rule i, i ∈ queue_of st.1 file rule → fits outcomes i file rule) ∧
  (∀ file rule i, fits outcomes i file rule → i ∉ st.2 → i ∈ queue_of st.1 file rule).

Lemma next_unclaimed_spec claimed q :
  match next_unclaimed claimed q with
  | (Some c, q') => c ∉ claimed ∧ c ∈ q ∧ (∀ i, i ∈ q' → i ∈ q) ∧ (∀ i, i ∈ q → i ∉ claimed → i = c ∨ i ∈ q')
  | (None, q') => q' = [] ∧ ∀ i, i ∈ q → i ∈ claimed
  end.
Proof.
  induction q as [|c q IH]; simpl; [split; [done|]; by intros i ?%elem_of_nil|].
  case_decide as Hc.
  - destruct (next_unclaimed claimed q) as [[d|] q'].
    + destruct IH as (? & ? & Hsub & Hall). split_and!; [done|by right|intros; right; eauto|].
      intros i [->|?]%elem_of_cons ?; [done|eauto].
    + destruct IH as [-> Hall]. split; [done|]. intros i [->|?]%elem_of_cons; eauto.
  - split_and!; [done|by left|intros; by right|]. intros i [->|?]%elem_of_cons ?; eauto.
Qed.

Lemma claim_by_rule_spec outcomes file rids st :
  claim_inv outcomes st →
  let '(c, st') := claim_by_rule file rids st in
  claim_inv outcomes st' ∧
  match c with
  | Some i => i ∉ st.2 ∧ st'.2 = {[i]} ∪ st.2 ∧ ∃ r, r ∈ rids ∧ fits outcomes i file r
  | None => st'.2 = st.2 ∧ ∀ r i, r ∈ rids → fits outcomes i file r → i ∈ st.2
  end.
Proof.
  revert st. induction rids as [|rid rids IH]; intros [q claimed] Hinv; simpl.
  { split_and!; [done..|]. by intros r i ?%elem_of_nil. }
  destruct Hinv as [Hsound Hcompl].
  assert (Hskip : (∀ i, fits outcomes i file rid → i ∈ claimed) → ∀ q', claim_inv outcomes (q', claimed) →
    let '(c, st') := claim_by_rule file rids (q', claimed) in
    claim_inv outcomes st' ∧
    match c with
    | Some i => i ∉ claimed ∧ st'.2 = {[i]} ∪ claimed ∧ ∃ r, r ∈ rid :: rids ∧ fits outcomes i file r
    | None => st'.2 = claimed ∧ ∀ r i, r ∈ rid :: rids → fits outcomes i file r → i ∈ claimed
    end).
  { intros Hall q' Hinv'. specialize (IH (q', claimed) Hinv').
    destruct (claim_by_rule file rids (q', claimed)) as [[c|] st'].
    - destruct IH as (? & ? & ? & r & ? & ?). split_and!; [done..|]. exists r. split; [by right|done].
    - destruct IH as (? & ? & Hr). split_and!; [done..|]. intros r i [->|?]%elem_of_cons ?; eauto. }
  destruct (dget (file, rid) q) as [queue|] eqn:Hq.
  2: { apply Hskip; [|done]. intros i Hi. apply dec_stable. intros Hn. specialize (Hcompl _ _ _ Hi Hn).
       unfold queue_of in Hcompl. simpl in Hcompl. rewrite Hq in Hcompl. by apply elem_of_nil in Hcompl. }
  assert (Hqueue : queue_of q file rid = queue) by (unfold queue_of; by rewrite Hq).
  destruct queue as [|c0 queue0] eqn:Eq.
  { apply Hskip; [|done]. intros i Hi. apply dec_stable. intros Hn. specialize (Hcompl _ _ _ Hi Hn).
    simpl in Hcompl. rewrite Hqueue in Hcompl. by apply elem_of_nil in Hcompl. }
  rewrite <- Eq in *. clear Eq c0 queue0.
  pose proof (next_unclaimed_spec claimed queue) as Hnext.
  assert (Hnew : ∀ q' cl, (∀ i, i ∈ q' → i ∈ queue) → claimed ⊆ cl →
    (∀ i, i ∈ queue → i ∉ cl → i ∈ q') → claim_inv outcomes (dset (file, rid) q' q, cl)).
  { intros q' cl Hsub Hcl Hall. split; intros f r i; simpl; rewrite queue_of_dset; case_decide as E.
    - injection E as -> ->. intros ?%Hsub. apply Hsound. simpl. by rewrite Hqueue.
    - apply Hsound.
    - injection E as -> ->. intros Hf Hn. apply Hall; [|done]. rewrite <- Hqueue.
      apply Hcompl; [done|]. simpl. set_solver.
    - intros Hf Hn. apply Hcompl; [done|]. simpl. set_solver. }
  destruct (next_unclaimed claimed queue) as [[c|] queue'].
  - destruct Hnext as (Hc & Hin & Hsub & Hall). split_and!.
    + apply Hnew; [done|set_solver|]. intros i Hi Hn. destruct (Hall i Hi); set_solver.
    + done.
    + done.
    + exists rid. split; [by left|]. apply Hsound. simpl. by rewrite Hqueue.
  - destruct Hnext as [-> Hall]. apply Hskip.
    + intros i Hi. apply dec_stable. intros Hn. apply Hn, Hall. rewrite <- Hqueue. by apply Hcompl.
    + apply Hnew; [by intros i ?%elem_of_nil|done|]. intros i Hi Hn. by destruct Hn; apply Hall.
Qed.

(** The claims of a list of proposals, from a state that satisfies the invariant. *)
Lemma claims_spec outcomes by_id st ps :
  claim_inv outcomes st → (∀ k i, dget k by_id = Some i → k ≠ "" ∧ ∃ o, outcomes !! i = Some o ∧ str_or "proposal_id" o = k) →
  ∀ a p, ps !! a = Some p →
    (∃ i, claims by_id st ps !! a = Some (Some i) ∧
       (names outcomes i p ∨
        (i ∉ st.2 ∧ (∀ b, (b < a)%nat → claims by_id st ps !! b ≠ Some (Some i)) ∧
         ∃ r, r ∈ gp_rule_ids p ∧ fits outcomes i (gp_file p) r))) ∨
    (claims by_id st ps !! a = Some None ∧
     ∀ r i, r ∈ gp_rule_ids p → fits outcomes i (gp_file p) r →
       i ∈ st.2 ∨ ∃ b, (b < a)%nat ∧ claims by_id st ps !! b = Some (Some i)).
Proof.
  intros Hinv Hid. revert st Hinv. induction ps as [|p0 ps IH]; intros st Hinv a p Ha; [done|].
  assert (Hclaim : let '(c, st') := claim by_id p0 st in
    claim_inv outcomes st' ∧
    match c with
    | Some i => st'.2 = {[i]} ∪ st.2 ∧
        (names outcomes i p0 ∨ (i ∉ st.2 ∧ ∃ r, r ∈ gp_rule_ids p0 ∧ fits outcomes i (gp_file p0) r))
    | None => st'.2 = st.2 ∧ ∀ r i, r ∈ gp_rule_ids p0 → fits outcomes i (gp_file p0) r → i ∈ st.2
    end).
  { unfold claim. destruct (dget (gp_proposal_id p0) by_id) as [i|] eqn:Hi.
    - destruct (Hid _ _ Hi) as (Hne & o & Ho & Hk). destruct Hinv as [Hs Hc]. split_and!; [split; [done|]| done |].
      + simpl. intros f r j Hf Hn. apply Hc; [done|set_solver].
      + left. by exists o.
    - pose proof (claim_by_rule_spec outcomes (gp_file p0) (gp_rule_ids p0) st Hinv) as Hs.
      destruct (claim_by_rule _ _ st) as [[i|] st']; naive_solver. }
  simpl. destruct (claim by_id p0 st) as [c st'] eqn:Ec. destruct Hclaim as [Hinv' Hc].
  destruct a as [|a]; simpl in *.
  - injection Ha as ->. destruct c as [i|].
    + left. exists i. split; [done|]. destruct Hc as (_ & [?|(? & ?)]); [by left|right].
      split_and!; [done|lia|done].
    + right. split; [done|]. intros r i Hr Hf. left. by eapply Hc.
  - destruct (IH st' Hinv' a p Ha) as [(i & Hi & [?|(Hn & Hb & Hr)])|[Hi Hall]].
    + left. eauto.
    + left. exists i. split; [done|]. right. split_and!; [| |done].
      * destruct c as [j|]; destruct Hc as [E _]; rewrite E in Hn; set_solver.
      * intros [|b] Hlt; [|apply Hb; lia]. simpl. intros [= ->]. destruct Hc as [E _]. set_solver.
    + right. split; [done|]. intros r i Hr Hf. destruct (Hall r i Hr Hf) as [Hi'|(b & Hb & Hbi)].
      * destruct c as [j|]; destruct Hc as [E _]; rewrite E in Hi'.
        -- apply elem_of_union in Hi' as [->%elem_of_singleton|?]; [|by left].
           right. exists 0. split; [lia|done].
        -- by left.
      * right. exists (S b). split; [lia|done].
Qed.

Lemma claims_length by_id st ps : length (claims by_id st ps) = length ps.
Proof.
  revert st. induction ps as [|p ps IH]; intros st; simpl; [done|].
  destruct (claim by_id p st) as [c st']. simpl. by rewrite IH.
Qed.

(** What an overlay never changes. *)
Lemma overlay_keeps p o m :
  overlay p o = Some m →
  gp_violation_ids m = gp_violation_ids p ∧ gp_rule_ids m = gp_rule_ids p ∧
  gp_file m = gp_file p ∧ gp_path m = gp_path p.
Proof.
  unfold overlay. intros Hm. apply bind_Some in Hm as (conf & _ & Hm).
  destruct (2 <=? _)%Z; by injection Hm as <-.
Qed.

Lemma merge_one_keeps outcomes p c m :
  merge_one outcomes p c = Some m →
  gp_violation_ids m = gp_violation_ids p ∧ gp_rule_ids m = gp_rule_ids p ∧
  gp_file m = gp_file p ∧ gp_path m = gp_path p.
Proof. unfold merge_one. case_match; [apply overlay_keeps|]. by intros [= <-]. Qed.

(** ** Properties of outcomes and decisions *)

(** Laying outcomes over the units keeps every unit and its violations, and assigns
    outcomes as follows: a unit gets an outcome that names its id, or the first
    outcome for its file and one of its rules that no unit before it got; and it stays
    as it is only when no outcome names it and all that fit went to units before it. *)
Theorem merge_outcomes_exact ps outcomes ms :
  merge_outcomes ps outcomes = Some ms →
  length ms = length ps ∧
  ∃ cs, length cs = length ps ∧ ∀ a p, ps !! a = Some p →
    ∃ c m, cs !! a = Some c ∧ ms !! a = Some m ∧ merge_one outcomes p c = Some m ∧
      gp_violation_ids m = gp_violation_ids p ∧
      match c with
      | Some i =>
        names outcomes i p ∨
        ((∃ r, r ∈ gp_rule_ids p ∧ fits outcomes i (gp_file p) r) ∧
         ∀ b, (b < a)%nat → cs !! b ≠ Some (Some i))
      | None =>
        ∀ r i, r ∈ gp_rule_ids p → fits outcomes i (gp_file p) r → ∃ b, (b < a)%nat ∧ cs !! b = Some (Some i)
      end.
Proof.
  unfold merge_outcomes. destruct (index_outcomes_spec outcomes) as [Hid Hq].
  destruct (index_outcomes outcomes) as [by_id q]. cbn [fst snd] in Hid, Hq. intros Hm.
  set (cs := claims by_id (q, ∅) ps) in *.
  assert (Hlen : length cs = length ps) by apply claims_length.
  assert (Hms : length ms = length ps).
  { apply length_mapM in Hm. rewrite <- Hm, length_zip. lia. }
  split; [done|]. exists cs. split; [done|]. intros a p Ha.
  assert (Hinv : claim_inv outcomes (q, ∅)) by (split; intros f r i; simpl; by rewrite Hq).
  destruct (lookup_lt_is_Some_2 cs a) as [c Hc]; [rewrite Hlen; by eapply lookup_lt_Some|].
  destruct (lookup_lt_is_Some_2 ms a) as [m Hma]; [rewrite Hms; by eapply lookup_lt_Some|].
  exists c, m. assert (Hone : merge_one outcomes p c = Some m).
  { apply mapM_Some, (Forall2_lookup_lr _ _ _ a (p, c) m) in Hm; [done| |done].
    apply lookup_zip_Some. done. }
  split_and!; [done..|by eapply merge_one_keeps|].
  destruct (claims_spec outcomes by_id (q, ∅) ps Hinv Hid a p Ha) as [(i & Hi & Hcase)|[Hi Hall]]; fold cs in Hi;
    rewrite Hc in Hi; injection Hi as ->.
  - destruct Hcase as [?|(_ & Hb & Hr)]; [by left|right]. done.
  - intros r i Hr Hf. destruct (Hall r i Hr Hf) as [?%elem_of_empty|?]; done.
Qed.

(** A decision survives the way through the review status of a violation: reading
    back the status stored for a decision gives a decision of the same kind, and a
    status that decides nothing stores nothing. *)
Theorem review_roundtrip source status :
  decision_delta (status_from_review (review_status_for_proposal source status)) = decision_delta status.
Proof.
  unfold review_status_for_proposal. destruct (decision_delta status) as [a d] eqn:E.
  unfold decision_delta in E. repeat case_decide; injection E as <- <-; by destruct (is_ai source).
Qed.

Module GroupDemo.
(** Two tasks of one file violate the same rule, a third violation has an AI fix. *)
Definition task_row (id : Z) (path : string) (rc : Z) : raw_violation :=
  Object [("id", YInt id); ("rule_id", YStr "L007"); ("file", YStr "site.yml"); ("path", YStr path);
          ("line", YInt (10 * id)); ("remediation_class", YInt rc); ("fixed_yaml", YStr "x: y")].

Definition scan_rows : list raw_violation :=
  [task_row 1 "plays[0]/tasks[0]" 1; task_row 2 "plays[0]/tasks[1]" 1; task_row 3 "plays[0]/tasks[0]" 2].

Lemma grouping_exact_witness :
  mjoin (gp_violation_ids <$> group_violations scan_rows true) ≡ₚ [1; 2; 3]%Z ∧
  (gp_gate <$> group_violations scan_rows true) = ["ai"; "tier1"; "tier1"].
Proof.
  split; [|vm_compute; reflexivity].
  apply (grouping_exact scan_rows [1; 2; 3]%Z true). split_and!; [reflexivity| |].
  - apply (bool_decide_unpack _). vm_compute. exact I.
  - apply (bool_decide_unpack _). vm_compute. exact I.
Defined.

(** An outcome of the engine that names the last unit of the scan. *)
Definition named_outcome : YAMLDict :=
  [("proposal_id", YStr (default "" (last (gp_proposal_id <$> group_violations scan_rows true))));
   ("rule_id", YStr "L007"); ("file", YStr "site.yml"); ("tier", YInt 1); ("confidence", YFloat "1.0");
   ("status", YStr "rejected")].

Lemma merge_outcomes_exact_witness :
  ∃ ms, merge_outcomes (group_violations scan_rows true) [named_outcome] = Some ms ∧
    length ms = 3%nat.
Proof.
  destruct (merge_outcomes (group_violations scan_rows true) [named_outcome]) as [ms|] eqn:E.
  - exists ms. split; [done|]. destruct (merge_outcomes_exact _ _ _ E) as [Hl _]. rewrite Hl. vm_compute. reflexivity.
  - exfalso. vm_compute in E. discriminate.
Defined.

(** One outcome can decide two units.  The outcome names the last unit of the scan
    only; the first unit, of the same file and rule, claims it before, and the last one
    gets it again by its id, so both are declined. *)
Theorem outcome_applied_twice :
  option_map (map gp_status) (merge_outcomes (group_violations scan_rows true) [named_outcome])
    = Some ["declined"; "pending"; "declined"].
Proof. vm_compute. reflexivity. Qed.
End GroupDemo.
