(* ===== verification/ProposalStore.v ===== *)
(** * The gateway's working set of proposals

    [apme_gateway/proposals/flush.py], [apme_gateway/proposals/draft.py],
    [_persist_grouped_proposals] of [grpc_reporting/servicer.py] and
    [link_scan_to_project] of [db/queries.py]: proposal rows live from the moment the
    engine offers them until they are flushed; decisions are counted in the analytics
    table and stamped on the violations they cover.

    The database is a record of tables.  A table is the list of its rows in the order of
    their primary keys, which is the order a [SELECT] without [ORDER BY] is taken to
    have; flag columns are booleans; time stamps and the columns no operation here reads
    are left out.  A statement is atomic.  [IN] clauses are split into chunks by the code
    where that is invisible; the chunks of [upsert_live_proposal_stubs] are kept. *)

From stdpp Require Import base list gmap strings pretty.
From Stdlib Require Import Ascii String.
From S2P Require Import Prelude PyStr PyPath PyNum Sha256 Sha1 Yaml ProposalGroups.

#[local] Open Scope string_scope.
#[local] Notation length := List.length.

(** ** Tables *)

Record ProposalRow := MkRow {
  pp_id : Z; pp_scan_id : string; pp_proposal_id : string; pp_rule_id : string; pp_file : string;
  pp_tier : Z; pp_confidence : pyfloat; pp_status : string; pp_path : string; pp_node_type : string;
  pp_source : string; pp_gate : string; pp_rule_ids : json_column; pp_violation_ids : json_column;
  pp_line_start : Z; pp_line_end : Z; pp_diff_hunk : hunk; pp_explanation : string; pp_suggestion : string;
  pp_flushed : bool; pp_engine_id : option string; pp_draft : bool; pp_stamp : json_column;
}.

Record ViolationRow := MkViolation {
  vi_id : Z; vi_scan_id : string; vi_rule_id : string; vi_file : string; vi_line : option Z; vi_path : string;
  vi_class : Z; vi_original_yaml : string; vi_fixed_yaml : string; vi_node_line_start : Z;
  vi_node_type : string; vi_review : option string;
}.

Record ScanRow := MkScan {
  sc_id : string; sc_session : string; sc_project : option string; sc_type : string; sc_trigger : string;
  sc_source : string; sc_fixed_count : Z;
}.

(** The unique key of [proposal_rule_analytics]: project, rule, source, gate, tier,
    coupled, is_group. *)
Definition analytics_key : Type := string * string * string * string * Z * Z * Z.

Record db := MkDb {
  db_scans : list ScanRow; db_sessions : list string; db_violations : list ViolationRow;
  db_proposals : list ProposalRow; db_next_id : Z; db_analytics : gmap analytics_key (Z * Z);
}.

Definition put_scans l d := MkDb l (db_sessions d) (db_violations d) (db_proposals d) (db_next_id d) (db_analytics d).
Definition put_violations l d :=
  MkDb (db_scans d) (db_sessions d) l (db_proposals d) (db_next_id d) (db_analytics d).
Definition put_proposals l d :=
  MkDb (db_scans d) (db_sessions d) (db_violations d) l (db_next_id d) (db_analytics d).
Definition put_analytics a d :=
  MkDb (db_scans d) (db_sessions d) (db_violations d) (db_proposals d) (db_next_id d) a.

Definition row_set_status (status : string) (draft : bool) (p : ProposalRow) : ProposalRow :=
  MkRow (pp_id p) (pp_scan_id p) (pp_proposal_id p) (pp_rule_id p) (pp_file p) (pp_tier p) (pp_confidence p)
    status (pp_path p) (pp_node_type p) (pp_source p) (pp_gate p) (pp_rule_ids p) (pp_violation_ids p)
    (pp_line_start p) (pp_line_end p) (pp_diff_hunk p) (pp_explanation p) (pp_suggestion p) (pp_flushed p)
    (pp_engine_id p) draft (pp_stamp p).

Definition row_set_flushed (p : ProposalRow) : ProposalRow :=
  MkRow (pp_id p) (pp_scan_id p) (pp_proposal_id p) (pp_rule_id p) (pp_file p) (pp_tier p) (pp_confidence p)
    (pp_status p) (pp_path p) (pp_node_type p) (pp_source p) (pp_gate p) (pp_rule_ids p) (pp_violation_ids p)
    (pp_line_start p) (pp_line_end p) (pp_diff_hunk p) (pp_explanation p) (pp_suggestion p) true
    (pp_engine_id p) (pp_draft p) (pp_stamp p).

Definition set_review (review : option string) (v : ViolationRow) : ViolationRow :=
  MkViolation (vi_id v) (vi_scan_id v) (vi_rule_id v) (vi_file v) (vi_line v) (vi_path v) (vi_class v)
    (vi_original_yaml v) (vi_fixed_yaml v) (vi_node_line_start v) (vi_node_type v) review.

(** A violation row as the object that [grouping.py] sees; it has no end line. *)
Definition violation_attrs (v : ViolationRow) : YAMLDict :=
  [("id", YInt (vi_id v)); ("rule_id", YStr (vi_rule_id v)); ("file", YStr (vi_file v));
   ("line", match vi_line v with Some n => YInt n | None => YNull end); ("path", YStr (vi_path v));
   ("remediation_class", YInt (vi_class v)); ("original_yaml", YStr (vi_original_yaml v));
   ("fixed_yaml", YStr (vi_fixed_yaml v)); ("node_line_start", YInt (vi_node_line_start v));
   ("node_type", YStr (vi_node_type v));
   ("review_status", match vi_review v with Some r => YStr r | None => YNull end)].

(** [UPDATE] of the rows that satisfy a condition, and its [rowcount]. *)
Definition update_where {A} (c : A → bool) (f : A → A) (l : list A) : list A :=
  (λ x, if c x then f x else x) <$> l.

Definition delete_where {A} (c : A → bool) (l : list A) : list A := filter (λ x, c x = false) l.

Definition count_where {A} (c : A → bool) (l : list A) : nat := length (filter (λ x, c x = true) l).

(** ** Analytics and stamps *)

Definition increment_key (project_id : string) (i : increment) : analytics_key :=
  (project_id, in_rule_id i, in_source i, in_gate i, in_tier i, in_coupled i, in_is_group i).

(** [upsert_analytics_increment] *)
Definition upsert_analytics_increment (project_id : string) (a : gmap analytics_key (Z * Z)) (i : increment) :
    gmap analytics_key (Z * Z) :=
  partial_alter (λ old, match old with
                        | Some (acc, dec) => Some (acc + in_accepted i, dec + in_declined i)%Z
                        | None => Some (in_accepted i, in_declined i)
                        end) (increment_key project_id i) a.

(** The increments of a row's decision. *)
Definition row_increments (p : ProposalRow) : list increment :=
  let rule_ids := parse_json_list (pp_rule_ids p) in
  analytics_increments (pp_status p) (pp_rule_id p) rule_ids (pp_source p) (pp_gate p) (pp_tier p)
    (1 <? length rule_ids)%nat.

Definition count_decision (project_id : string) (a : gmap analytics_key (Z * Z)) (p : ProposalRow) :
    gmap analytics_key (Z * Z) :=
  foldl (upsert_analytics_increment project_id) a (row_increments p).

(** Whether a decided row may stamp a violation that has no review yet. *)
Definition may_stamp (p : ProposalRow) (v : ViolationRow) : bool :=
  let stamp_rules := stamp_rule_allowlist (pp_stamp p) (pp_rule_ids p) in
  (bool_decide (stamp_rules = []) || bool_decide (vi_rule_id v ∈ stamp_rules)) &&
  violation_accepts_review_status (pp_source p) (violation_attrs v) (pp_status p).

Definition stamp_violation (p : ProposalRow) (ids : list Z) (v : ViolationRow) : ViolationRow :=
  match review_status_for_proposal (pp_source p) (pp_status p) with
  | Some review =>
    if bool_decide (vi_id v ∈ ids) && bool_decide (vi_review v = None) && may_stamp p v
    then set_review (Some review) v else v
  | None => v
  end.

Definition linked_ids (p : ProposalRow) : list Z := coerce_violation_ids (parse_json_list (pp_violation_ids p)).

(** The compare-and-set that claims a row: whether it hit, and the table after it. *)
Definition claim_row (id : Z) (l : list ProposalRow) : bool * list ProposalRow :=
  let c p := (pp_id p =? id)%Z && negb (pp_flushed p) in
  (existsb c l, update_where c row_set_flushed l).

(** The claim, count and stamp part of an iteration, for the row [p] as it was read. *)
Definition settle_row (project_id : string) (d : db) (p : ProposalRow) : db :=
  if pp_flushed p then d
  else
    let '(hit, rows) := claim_row (pp_id p) (db_proposals d) in
    if negb hit then d
    else
      put_violations (stamp_violation p (linked_ids p) <$> db_violations d)
        (put_analytics (count_decision project_id (db_analytics d) p) (put_proposals rows d)).

(** ** Flushing *)

(** [_flush_proposals]; the condition selects rows. *)
Definition flush_proposals (project_id : string) (sel : ProposalRow → bool) (d : db) : db * nat :=
  match filter (λ p, sel p = true) (db_proposals d) with
  | [] => (d, 0)
  | proposals =>
    let d' := foldl (settle_row project_id) d proposals in
    (put_proposals (delete_where sel (db_proposals d')) d', count_where sel (db_proposals d'))
  end.

Definition scans_of (project_id : string) (d : db) : list string :=
  sc_id <$> filter (λ s, sc_project s = Some project_id) (db_scans d).

(** [flush_proposals_for_project] *)
Definition flush_proposals_for_project (project_id : string) (exclude_scan_id : option string) (d : db) : db * nat :=
  let scans := match exclude_scan_id with
               | Some x => if decide (x = "") then scans_of project_id d
                           else filter (λ s, s ≠ x) (scans_of project_id d)
               | None => scans_of project_id d
               end in
  flush_proposals project_id (λ p, bool_decide (pp_scan_id p ∈ scans)) d.

(** [flush_proposals_for_scan] *)
Definition flush_proposals_for_scan (scan_id project_id : string) (d : db) : db * nat :=
  flush_proposals project_id (λ p, bool_decide (pp_scan_id p = scan_id)) d.

(** [discard_scan_proposals] *)
Definition discard_scan_proposals (scan_id : string) (d : db) : db * nat :=
  let sel p := bool_decide (pp_scan_id p = scan_id) in
  (put_proposals (delete_where sel (db_proposals d))
     (put_violations (update_where (λ v, bool_decide (vi_scan_id v = scan_id)) (set_review None)
        (db_violations d)) d),
   count_where sel (db_proposals d)).

(** ** Rebuilding the working set of a scan *)

Definition bridge_key : Type := string * string * string * Z * option Z.

(** [_bridge_key] *)
Definition make_bridge_key (file source rule_id : string) (line_start line_end : Z) : bridge_key :=
  let primary_rule := strip (default "" (head (split_on "," rule_id))) in
  let src := if decide (source = SOURCE_AI_CANDIDATE) then SOURCE_AI else source in
  let le := to_int (YInt line_end) 0 in
  (file, src, primary_rule, to_int (YInt line_start) 0, if (0 <? le)%Z then Some le else None).

(** Engine id, draft, flushed, status and stamp rules of the row that is replaced. *)
Definition bridge : Type := option string * bool * bool * string * json_column.

Definition EMPTY_LIST : json_column := Some (YList []).

Definition no_bridge : bridge := (None, false, false, "", EMPTY_LIST).

Definition bridge_table : Type := list (bridge_key * bridge) * list bridge_key.

(** [_register_bridge] *)
Definition register_bridge (key : bridge_key) (row : ProposalRow) (t : bridge_table) : bridge_table :=
  let '(prior, ambiguous) := t in
  if decide (key ∈ ambiguous) then t
  else if decide (is_Some (dget key prior)) then (dpop key prior, key :: ambiguous)
  else (dset key (pp_engine_id row, pp_draft row, pp_flushed row, pp_status row, pp_stamp row) prior, ambiguous).

Definition truthy_id (x : option string) : bool := match x with Some s => negb (String.eqb s "") | None => false end.

Definition register_prior (t : bridge_table) (r : ProposalRow) : bridge_table :=
  if truthy_id (pp_engine_id r) || pp_draft r || pp_flushed r then
    let t := register_bridge (make_bridge_key (pp_file r) (pp_source r) (pp_rule_id r) (pp_line_start r) (pp_line_end r)) r t in
    if (0 <? to_int (YInt (pp_line_end r)) 0)%Z
    then register_bridge (make_bridge_key (pp_file r) (pp_source r) (pp_rule_id r) (pp_line_start r) 0) r t
    else t
  else t.

Definition bridges (rows : list ProposalRow) : list (bridge_key * bridge) := (foldl register_prior ([], []) rows).1.

Definition find_bridge (prior : list (bridge_key * bridge)) (p : GroupedProposal) : bridge :=
  match dget (make_bridge_key (gp_file p) (gp_source p) (gp_rule_id p) (gp_line_start p) (gp_line_end p)) prior with
  | Some b => b
  | None => default no_bridge
      (dget (make_bridge_key (gp_file p) (gp_source p) (gp_rule_id p) (gp_line_start p) 0) prior)
  end.

(** The row a group becomes. *)
Definition group_row (scan_id : string) (prior : list (bridge_key * bridge)) (id : Z) (p : GroupedProposal) : ProposalRow :=
  let '(engine_id, draft, flushed, bridged_status, stamp) := find_bridge prior p in
  let status := if decide (gp_status p = "pending" ∧ gp_source p = SOURCE_DETERMINISTIC ∧ gp_fixed_yaml p ≠ "")
                then "approved" else gp_status p in
  let status := if decide (bridged_status ∈ ["approved"; "declined"] ∧ status ∈ ["pending"; "proposed"; ""])
                then bridged_status else status in
  let stamp_json := if decide (gp_stamp_rule_ids p = [] ∧ stamp ≠ EMPTY_LIST) then stamp
                    else serialize_rule_ids (gp_stamp_rule_ids p) in
  MkRow id scan_id (gp_proposal_id p) (gp_rule_id p) (gp_file p) (to_int (YInt (gp_tier p)) 0)
    (clamp_float FZERO (gp_confidence p)) status (gp_path p) (gp_node_type p) (gp_source p) (gp_gate p)
    (serialize_rule_ids (gp_rule_ids p))
    (serialize_violation_ids (coerce_violation_ids (YInt <$> gp_violation_ids p)))
    (to_int (YInt (gp_line_start p)) 0) (to_int (YInt (gp_line_end p)) 0) (gp_diff_hunk p) (gp_explanation p)
    (gp_suggestion p) flushed engine_id draft stamp_json.

Definition add_row (mk : Z → ProposalRow) (d : db) : db :=
  MkDb (db_scans d) (db_sessions d) (db_violations d) (db_proposals d ++ [mk (db_next_id d)])
    (db_next_id d + 1) (db_analytics d).

(** [replace_scan_proposals]; the list holds grouped proposals only, so the refusal of
    other objects does not arise. *)
Definition replace_scan_proposals (scan_id : string) (proposals : list GroupedProposal) (d : db) : db :=
  let of_scan p := bool_decide (pp_scan_id p = scan_id) in
  let prior := bridges (filter (λ p, of_scan p = true) (db_proposals d)) in
  foldl (λ d p, add_row (λ id, group_row scan_id prior id p) d)
    (put_proposals (delete_where of_scan (db_proposals d)) d) proposals.

(** ** Storing the result of a run *)

(** [int(x)] and [float(x)]; [None] is the exception. *)
Definition strict_int (x : yval) : option Z :=
  match x with
  | YInt z => Some z
  | YBool b => Some (if b then 1 else 0)%Z
  | YStr s => py_int s
  | YFloat r =>
    f ← py_float r;
    match f with
    | FFin neg m e => let z := (m * 2 ^ Z.max e 0 / 2 ^ Z.max (- e) 0)%Z in Some (if neg then - z else z)%Z
    | _ => None
    end
  | _ => None
  end.

Definition strict_float (x : yval) : option pyfloat :=
  match x with
  | YInt z => float_of_int z
  | YBool b => Some (if b then FONE else FZERO)
  | YStr s => py_float s
  | YFloat r => py_float r
  | _ => None
  end.

(** An outcome without violations. *)
Definition outcome_only (raw : YAMLDict) : option GroupedProposal :=
  let status := or_default (str_or "status" raw) "pending" in
  let status := if decide (status = "rejected") then "declined" else status in
  tier ← (let t := attr "tier" raw in if ytruthy t then strict_int t else Some 0%Z);
  confidence ← (let c := attr "confidence" raw in if ytruthy c then strict_float c else Some FZERO);
  let ai := (2 <=? tier)%Z in
  let rule_id := str_or "rule_id" raw in
  Some (MkGroup (str_or "proposal_id" raw) rule_id (if decide (rule_id = "") then [] else [rule_id]) []
    (str_or "file" raw) "" 0 0 tier (if ai then SOURCE_AI else SOURCE_OUTCOME) (if ai then GATE_AI else "")
    status confidence "" "" (Hunk "") "" "" false [] "").

(** [[int(v) for v in v_ids if str(v).isdigit() or isinstance(v, int)]] *)
Definition stamp_ids (l : list yval) : list Z :=
  omap (λ x, match x with
             | YInt z => Some z
             | YBool b => Some (if b then 1 else 0)%Z
             | YStr s => if negb (String.eqb s "") && sforall is_digit s then py_int s else None
             | _ => None
             end) l.

(** The stamps of one stored row, on the violations of its scan. *)
Definition stamp_scan (scan_id : string) (d : db) (p : ProposalRow) : db :=
  put_violations
    (update_where (λ v, bool_decide (vi_scan_id v = scan_id))
       (stamp_violation p (stamp_ids (parse_json_list (pp_violation_ids p)))) (db_violations d)) d.

(** [_persist_grouped_proposals] *)
Definition persist_grouped_proposals (scan_id : string) (outcomes : list YAMLDict) (d : db) : option db :=
  let violations := filter (λ v, vi_scan_id v = scan_id) (db_violations d) in
  let grouped := group_violations (Object ∘ violation_attrs <$> violations) true in
  merged ← merge_outcomes grouped outcomes;
  merged ← (match merged with [] => mapM outcome_only outcomes | _ => Some merged end);
  let d := replace_scan_proposals scan_id merged d in
  Some (foldl (stamp_scan scan_id) d (filter (λ p, pp_scan_id p = scan_id) (db_proposals d))).

(** [link_scan_to_project]; whether the scan was found. *)
Definition link_scan_to_project (scan_id project_id trigger : string) (scan_type source : option string) (d : db) :
    db * bool :=
  match list_find (λ s, sc_id s = scan_id) (db_scans d) with
  | None => (d, false)
  | Some (_, scan) =>
    let effective_type := default (sc_type scan) scan_type in
    let d := if decide (effective_type = "remediate")
             then (flush_proposals_for_project project_id (Some scan_id) d).1
             else if decide (effective_type = "check") then (discard_scan_proposals scan_id d).1 else d in
    let link s := MkScan (sc_id s) (sc_session s) (Some project_id) effective_type trigger
                    (default (sc_source s) source)
                    (if decide (scan_type = Some "check") then 0%Z else sc_fixed_count s) in
    (put_scans (update_where (λ s, bool_decide (sc_id s = scan_id)) link (db_scans d)) d, true)
  end.

(** ** Live proposals *)

Definition ALLOWED_DRAFT_STATUSES := ["pending"; "approved"; "declined"; "proposed"; "rejected"].

(** [_gate_for_source] *)
Definition gate_for_source (source : string) (tier : Z) : string :=
  if is_ai source || (2 <=? tier)%Z then GATE_AI
  else if bool_decide (source = SOURCE_DETERMINISTIC) || (tier =? 1)%Z then GATE_TIER1 else "".

(** [_archival_proposal_id] *)
Definition archival_proposal_id (file path gate rule_id engine_id : string) : string :=
  let material := if decide (path = "") then file +:+ ":" +:+ rule_id +:+ ":" +:+ engine_id
                  else file +:+ ":" +:+ path +:+ ":" +:+ rule_id +:+ ":" +:+ engine_id in
  "prop-" +:+ or_default gate "na" +:+ "-" +:+ String.substring 0 12 (sha1_hex material).

(** [_normalize_status] *)
Definition normalize_status (status : string) : string :=
  let lowered := strip (slower status) in
  if decide (lowered = "proposed") then "pending"
  else if decide (lowered = "rejected") then "declined" else lowered.

(** [project_has_draft_proposals] *)
Definition project_has_draft_proposals (project_id : string) (extra_scan_ids : list string) (d : db) : bool :=
  let extras := filter (λ s, s ≠ "") extra_scan_ids in
  existsb (λ p, (bool_decide (pp_scan_id p ∈ scans_of project_id d) || bool_decide (pp_scan_id p ∈ extras))
                && pp_draft p) (db_proposals d).

(** [abandon_project_drafts] *)
Definition abandon_project_drafts (project_id : string) (extra_scan_ids : list string) (d : db) : db * nat :=
  let linked := scans_of project_id d in
  let sel p := bool_decide (pp_scan_id p ∈ linked) && pp_draft p in
  let cleared := count_where sel (db_proposals d) in
  let d := put_proposals (update_where sel (row_set_status "pending" false) (db_proposals d)) d in
  foldl (λ dn sid,
           if decide (sid ∈ linked) then dn
           else let of_scan p := bool_decide (pp_scan_id p = sid) in
                (put_proposals (delete_where of_scan (db_proposals dn.1)) dn.1,
                 (dn.2 + count_where of_scan (db_proposals dn.1))%nat))
    (d, cleared) (filter (λ s, s ≠ "") extra_scan_ids).

(** [ensure_scan_row] *)
Definition ensure_scan_row (scan_id : string) (project_id : option string) (scan_type : string) (d : db) : db :=
  match list_find (λ s, sc_id s = scan_id) (db_scans d) with
  | Some (_, existing) =>
    if truthy_id project_id && negb (truthy_id (sc_project existing)) then
      put_scans (update_where (λ s, bool_decide (sc_id s = scan_id))
        (λ s, MkScan (sc_id s) (sc_session s) project_id (sc_type s) (sc_trigger s) (sc_source s) (sc_fixed_count s))
        (db_scans d)) d
    else d
  | None =>
    let placeholder := "op-" +:+ scan_id in
    let sessions := if decide (placeholder ∈ db_sessions d) then db_sessions d
                    else (db_sessions d ++ [placeholder])%list in
    MkDb (db_scans d ++ [MkScan scan_id placeholder project_id scan_type "ui" "gateway" 0]) sessions
      (db_violations d) (db_proposals d) (db_next_id d) (db_analytics d)
  end.

Record StubPayload := MkStub {
  sp_raw : YAMLDict; sp_engine_id : string; sp_file : string; sp_rule_id : string; sp_primary_rule : string;
  sp_rule_parts : list string; sp_path : string; sp_tier : Z; sp_source : string; sp_gate : string;
  sp_status : string; sp_archival_id : string; sp_line_start : Z; sp_line_end : Z;
}.

(** [_prepare_stub_payload] *)
Definition prepare_stub_payload (raw : YAMLDict) : option StubPayload :=
  let engine_id := strip (or_default (str_or "id" raw) (str_or "engine_proposal_id" raw)) in
  if decide (engine_id = "") then None
  else
    let file := str_or "file" raw in
    let rule_id := str_or "rule_id" raw in
    let path := str_or "path" raw in
    let tier := to_int (attr "tier" raw) 0 in
    let source := or_default (str_or "source" raw) (if (2 <=? tier)%Z then SOURCE_AI else SOURCE_DETERMINISTIC) in
    let gate := or_default (str_or "gate" raw) (gate_for_source source tier) in
    let rule_parts := match csv_parts rule_id with
                      | [] => if decide (rule_id = "") then [] else [rule_id]
                      | l => l
                      end in
    let primary_rule := default "" (head rule_parts) in
    Some (MkStub raw engine_id file rule_id primary_rule rule_parts path tier source gate
      (normalize_status (or_default (str_or "status" raw) "pending"))
      (archival_proposal_id file path gate (or_default primary_rule rule_id) engine_id)
      (to_int (attr "line_start" raw) 0) (to_int (attr "line_end" raw) 0)).

(** [_preload_per_query_limit] *)
Definition preload_per_query_limit (chunk : nat) : nat := Nat.max 1 ((chunk - 1) / 2).

(** The rows found so far, by engine id and by archival id, and the ids deleted as
    duplicates.  A row object is represented by its primary key. *)
Record preload := MkPreload {
  pl_by_engine : list (string * Z); pl_by_archival : list (string * Z); pl_discarded : list Z;
}.

(** [max(dupes, key=lambda row: row.id)], for a non-empty group *)
Definition newest (dupes : list ProposalRow) : Z := foldr Z.max 0%Z (pp_id <$> dupes).

(** One group of rows that share an id: the newest is kept. *)
Definition reconcile (dupes : list ProposalRow) : Z * list Z :=
  let keep := newest dupes in (keep, filter (λ i, i ≠ keep) (pp_id <$> dupes)).

(** The rows of one query, grouped by their engine id where they have one. *)
Definition engine_groups (rows : list ProposalRow) : list (string * list ProposalRow) :=
  group_by (λ p, default "" (pp_engine_id p)) (filter (λ p, truthy_id (pp_engine_id p) = true) rows).

Definition archival_groups (rows : list ProposalRow) : list (string * list ProposalRow) :=
  group_by pp_proposal_id rows.

(** One query of the preload. *)
Definition preload_batch (scan_id : string) (acc : db * preload) (batch : list StubPayload) : db * preload :=
  let '(d, pl) := acc in
  let rows := filter (λ p, pp_scan_id p = scan_id ∧
                (pp_engine_id p ∈ Some <$> (sp_engine_id <$> batch) ∨
                 pp_proposal_id p ∈ sp_archival_id <$> batch)) (db_proposals d) in
  let keep g := (g.1, (reconcile g.2).1) in
  let discarded := (engine_groups rows ++ archival_groups rows)%list ≫= λ g, (reconcile g.2).2 in
  (put_proposals (filter (λ p, pp_id p ∉ discarded) (db_proposals d)) d,
   MkPreload (foldl (λ m g, dset (keep g).1 (keep g).2 m) (pl_by_engine pl) (engine_groups rows))
     (foldl (λ m g, dset (keep g).1 (keep g).2 m) (pl_by_archival pl) (archival_groups rows))
     (pl_discarded pl ++ discarded)%list).

(** [items[start : start + n]] for every start *)
Fixpoint chunks_of {A} (fuel n : nat) (l : list A) : list (list A) :=
  match fuel, l with
  | O, _ | _, [] => []
  | S fuel', _ => take n l :: chunks_of fuel' n (drop n l)
  end.

Definition preload_rows (scan_id : string) (chunk : nat) (prepared : list StubPayload) (d : db) : db * preload :=
  let '(d, pl) := foldl (preload_batch scan_id) (d, MkPreload [] [] [])
                    (chunks_of (length prepared) (preload_per_query_limit chunk) prepared) in
  let live m := filter (λ kv, kv.2 ∉ pl_discarded pl) m in
  (d, MkPreload (live (pl_by_engine pl)) (live (pl_by_archival pl)) (pl_discarded pl)).

(** The value a field of the mapping sets, when it is present and not blank. *)
Definition explicit (k : string) (raw : YAMLDict) : option yval :=
  match attr k raw with
  | YNull => None
  | YStr s => if decide (strip s = "") then None else Some (YStr s)
  | x => Some x
  end.

Definition int_field (k : string) (raw : YAMLDict) (old : Z) : Z :=
  match explicit k raw with Some x => to_int x old | None => old end.

(** A new row. *)
Definition stub_row (scan_id : string) (s : StubPayload) (confidence : pyfloat) (id : Z) : ProposalRow :=
  MkRow id scan_id (sp_archival_id s) (sp_primary_rule s) (sp_file s) (sp_tier s) confidence (sp_status s)
    (sp_path s) (str_or "node_type" (sp_raw s)) (sp_source s) (sp_gate s) (serialize_rule_ids (sp_rule_parts s))
    EMPTY_LIST (sp_line_start s) (sp_line_end s) (Hunk (str_or "diff_hunk" (sp_raw s)))
    (str_or "explanation" (sp_raw s)) (str_or "suggestion" (sp_raw s)) false (Some (sp_engine_id s)) false
    (serialize_rule_ids (sp_rule_parts s)).

(** The update of an existing row; a draft keeps its status. *)
Definition refresh_row (s : StubPayload) (confidence : pyfloat) (p : ProposalRow) : ProposalRow :=
  let raw := sp_raw s in
  let rules := match sp_rule_parts s with [] => None | l => Some (serialize_rule_ids l) end in
  MkRow (pp_id p) (pp_scan_id p) (pp_proposal_id p) (or_default (sp_primary_rule s) (pp_rule_id p))
    (or_default (sp_file s) (pp_file p)) (int_field "tier" raw (pp_tier p)) confidence
    (if pp_draft p then pp_status p else sp_status s) (or_default (sp_path s) (pp_path p))
    (or_default (str_or "node_type" raw) (pp_node_type p)) (or_default (sp_source s) (pp_source p))
    (or_default (sp_gate s) (pp_gate p)) (default (pp_rule_ids p) rules) (pp_violation_ids p)
    (int_field "line_start" raw (pp_line_start p)) (int_field "line_end" raw (pp_line_end p))
    (match str_or "diff_hunk" raw with "" => pp_diff_hunk p | t => Hunk t end)
    (or_default (str_or "explanation" raw) (pp_explanation p)) (or_default (str_or "suggestion" raw) (pp_suggestion p))
    (pp_flushed p) (Some (sp_engine_id s)) (pp_draft p) (default (pp_stamp p) rules).

Definition find_row (id : Z) (d : db) : option ProposalRow :=
  snd <$> list_find (λ p, pp_id p = id) (db_proposals d).

(** The existing row of a payload: by engine id, or by an archival id that belongs to
    the same engine proposal or to none yet. *)
Definition existing_row (pl : preload) (s : StubPayload) (d : db) : option ProposalRow :=
  match dget (sp_engine_id s) (pl_by_engine pl) with
  | Some id => find_row id d
  | None =>
    id ← dget (sp_archival_id s) (pl_by_archival pl);
    p ← find_row id d;
    let hit := strip (default "" (pp_engine_id p)) in
    if decide (hit = "" ∨ hit = sp_engine_id s) then Some p else None
  end.

Definition set_default (k : string) (v : Z) (m : list (string * Z)) : list (string * Z) :=
  match dget k m with Some _ => m | None => dset k v m end.

(** One payload; [None] is the [OverflowError] of its confidence. *)
Definition upsert_stub (scan_id : string) (acc : db * preload * list Z) (s : StubPayload) :
    option (db * preload * list Z) :=
  let '(d, pl, out) := acc in
  match existing_row pl s d with
  | None =>
    confidence ← safe_float (attr "confidence" (sp_raw s)) FZERO;
    let id := db_next_id d in
    Some (add_row (stub_row scan_id s confidence) d,
          MkPreload (set_default (sp_engine_id s) id (pl_by_engine pl))
            (set_default (sp_archival_id s) id (pl_by_archival pl)) (pl_discarded pl), (out ++ [id])%list)
  | Some p =>
    confidence ← (match explicit "confidence" (sp_raw s) with
                  | Some x => safe_float x (pp_confidence p)
                  | None => Some (pp_confidence p)
                  end);
    Some (put_proposals (update_where (λ q, (pp_id q =? pp_id p)%Z) (refresh_row s confidence) (db_proposals d)) d,
          pl, (out ++ [pp_id p])%list)
  end.

Fixpoint upsert_stubs (scan_id : string) (acc : db * preload * list Z) (l : list StubPayload) :
    option (db * preload * list Z) :=
  match l with
  | [] => Some acc
  | s :: l' => acc' ← upsert_stub scan_id acc s; upsert_stubs scan_id acc' l'
  end.

(** [upsert_live_proposal_stubs]; the database and the ids of the rows returned. *)
Definition upsert_live_proposal_stubs (chunk : nat) (scan_id : string) (project_id : option string)
    (proposals : list YAMLDict) (d : db) : option (db * list Z) :=
  let d := ensure_scan_row scan_id project_id "remediate" d in
  let prepared := omap prepare_stub_payload proposals in
  let '(d, pl) := preload_rows scan_id chunk prepared d in
  r ← upsert_stubs scan_id (d, pl, []) prepared;
  Some (r.1.1, r.2).

(** ** Drafts and gate commits *)

Inductive draft_error := MissingId | InvalidStatus (status : string) | NotFound (key : string) | MultipleRows.

(** The row an update addresses, by gateway or engine id ([scalar_one_or_none]). *)
Definition draft_target (scan_id key : string) (d : db) : draft_error + ProposalRow :=
  match filter (λ p, pp_scan_id p = scan_id ∧ (pp_proposal_id p = key ∨ pp_engine_id p = Some key)) (db_proposals d) with
  | [] => inl (NotFound key)
  | [p] => inr p
  | _ => inl MultipleRows
  end.

(** One update: the row it changes and the status it sets. *)
Definition draft_update (scan_id : string) (item : YAMLDict) (d : db) : draft_error + (Z * string) :=
  let key := strip (or_default (str_or "proposal_id" item) (str_or "id" item)) in
  let status := normalize_status (str_or "status" item) in
  if decide (key = "") then inl MissingId
  else if decide (status ∈ ALLOWED_DRAFT_STATUSES) then
    match draft_target scan_id key d with
    | inl e => inl e
    | inr p => inr (pp_id p, status)
    end
  else inl (InvalidStatus status).

Definition write_draft (id : Z) (status : string) (d : db) : db :=
  put_proposals (update_where (λ p, (pp_id p =? id)%Z) (row_set_status status true) (db_proposals d)) d.

(** [apply_draft_updates]: the session after the call, and its result; updates before
    the one that fails are in the session. *)
Fixpoint apply_draft_updates (scan_id : string) (updates : list YAMLDict) (d : db) : db * (draft_error + list Z) :=
  match updates with
  | [] => (d, inr [])
  | item :: rest =>
    match draft_update scan_id item d with
    | inl e => (d, inl e)
    | inr (id, status) =>
      let '(d', r) := apply_draft_updates scan_id rest (write_draft id status d) in
      (d', match r with inl e => inl e | inr ids => inr (id :: ids) end)
    end
  end.

(** Whether a row takes part in an approval round. *)
Definition is_offered (offered : option (list string)) (p : ProposalRow) : bool :=
  let engine_id := strip (default "" (pp_engine_id p)) in
  negb (String.eqb engine_id "") &&
  match offered with Some l => bool_decide (engine_id ∈ l) | None => true end.

Definition decided_row (approved : list string) (p : ProposalRow) : ProposalRow :=
  row_set_status (if decide (strip (default "" (pp_engine_id p)) ∈ approved) then "approved" else "declined") false p.

(** One row of the round. *)
Definition commit_row (project_id : string) (approved : list string) (d : db) (p : ProposalRow) : db :=
  let p' := decided_row approved p in
  settle_row project_id
    (put_proposals (update_where (λ q, (pp_id q =? pp_id p)%Z)
                      (row_set_status (pp_status p') false) (db_proposals d)) d) p'.

(** [commit_gate_decisions] *)
Definition commit_gate_decisions (scan_id project_id : string) (approved : list string)
    (offered : option (list string)) (d : db) : db * nat :=
  let props := filter (λ p, pp_scan_id p = scan_id ∧ is_offered offered p = true) (db_proposals d) in
  (foldl (commit_row project_id approved) d props, length props).
