(* ===== verification/ProposalProps.v ===== *)
(** * Properties of the working set of proposals

    On top of [ProposalStore]: decisions are counted once under every interleaving of
    flushes and gate commits; the exact effect of a flush and of a gate commit; review
    statuses are written once and fit the class of the violation; live updates keep
    drafts; a rebuild carries over what it can identify. *)

From stdpp Require Import base list gmap strings pretty.
From Stdlib Require Import Ascii String.
From S2P Require Import Prelude PyStr PyPath PyNum Yaml ProposalGroups ProposalStore.

#[local] Open Scope string_scope.
#[local] Notation length := List.length.

(** ** Tables *)

(** Primary keys are unique and below the next one. *)
Definition keys_ok (d : db) : Prop :=
  NoDup (pp_id <$> db_proposals d) ∧ Forall (λ p, 0 < pp_id p < db_next_id d)%Z (db_proposals d) ∧
  (0 < db_next_id d)%Z.

Lemma elem_update_where {A} (c : A → bool) f l y :
  y ∈ update_where c f l ↔ ∃ x, x ∈ l ∧ y = if c x then f x else x.
Proof. unfold update_where. rewrite list_elem_of_fmap. naive_solver. Qed.

Lemma update_where_key {A B} (key : A → B) (c : A → bool) f l :
  (∀ x, key (f x) = key x) → key <$> update_where c f l = key <$> l.
Proof.
  intros Hf. unfold update_where. rewrite <- list_fmap_compose. apply list_fmap_ext.
  intros i x _. simpl. by destruct (c x).
Qed.

Lemma elem_delete_where {A} (c : A → bool) l x : x ∈ delete_where c l ↔ x ∈ l ∧ c x = false.
Proof. unfold delete_where. rewrite list_elem_of_filter. tauto. Qed.

Lemma NoDup_fmap_filter {A B} (f : A → B) (P : A → Prop) `{∀ x, Decision (P x)} l :
  NoDup (f <$> l) → NoDup (f <$> filter P l).
Proof.
  induction l as [|x l IH]; [done|]. csimpl. intros [Hx Hl]%NoDup_cons. rewrite filter_cons.
  case_decide; [|auto]. csimpl. apply NoDup_cons. split; [|auto]. intros Hin. apply Hx.
  apply list_elem_of_fmap in Hin as (y & -> & [_ Hy]%list_elem_of_filter). by apply list_elem_of_fmap_2.
Qed.

(** Two rows with the same key are the same row. *)
Lemma key_inj l p q : NoDup (pp_id <$> l) → p ∈ l → q ∈ l → pp_id p = pp_id q → p = q.
Proof.
  intros Hnd Hp Hq E. apply list_elem_of_lookup in Hp as [i Hi], Hq as [j Hj].
  assert (i = j) as ->; [|naive_solver].
  apply (NoDup_lookup _ _ _ (pp_id p) Hnd); rewrite list_lookup_fmap; [by rewrite Hi|rewrite Hj; simpl; by rewrite E].
Qed.

(** ** Interleavings

    What the transactions of the gateway do to proposal rows, one statement at a time.
    [Settle] is the claim, count and stamp of one iteration of a flush or a gate commit,
    for the row as that transaction read it, however long ago. *)

Inductive statement :=
| Settle (project_id : string) (p : ProposalRow)
| Decide (id : Z) (status : string) (draft : bool)
| Delete (sel : ProposalRow → bool)
| Insert (mk : Z → ProposalRow).

Definition perform (d : db) (e : statement) : db :=
  match e with
  | Settle project p => settle_row project d p
  | Decide id status draft =>
    put_proposals (update_where (λ q, (pp_id q =? id)%Z) (row_set_status status draft) (db_proposals d)) d
  | Delete sel => put_proposals (delete_where sel (db_proposals d)) d
  | Insert mk => add_row mk d
  end.

(** The decision a statement counts. *)
Definition counts (d : db) (e : statement) : list (string * ProposalRow) :=
  match e with
  | Settle project p => if negb (pp_flushed p) && (claim_row (pp_id p) (db_proposals d)).1 then [(project, p)] else []
  | _ => []
  end.

Fixpoint counted (d : db) (es : list statement) : list (string * ProposalRow) :=
  match es with
  | [] => []
  | e :: es' => counts d e ++ counted (perform d e) es'
  end.

(** New rows get the key they are given. *)
Definition keeps_key (e : statement) : Prop := match e with Insert mk => ∀ id, pp_id (mk id) = id | _ => True end.

(** A row that can still be counted. *)
Definition countable (d : db) (id : Z) : Prop := ∃ q, q ∈ db_proposals d ∧ pp_id q = id ∧ pp_flushed q = false.

Lemma claim_row_hit id l : (claim_row id l).1 = true ↔ ∃ q, q ∈ l ∧ pp_id q = id ∧ pp_flushed q = false.
Proof.
  simpl. rewrite existsb_exists. setoid_rewrite <- list_elem_of_In. split.
  - intros (q & Hq & [E%Z.eqb_eq F%negb_true_iff]%andb_prop). eauto.
  - intros (q & Hq & E & F). exists q. split; [done|]. by rewrite E, Z.eqb_refl, F.
Qed.

Lemma settle_row_miss project d p :
  pp_flushed p = true ∨ (claim_row (pp_id p) (db_proposals d)).1 = false → settle_row project d p = d.
Proof. unfold settle_row. intros [->|E]; [done|]. case_match; [done|]. simpl in *. by rewrite E. Qed.

Lemma settle_row_hit project d p :
  pp_flushed p = false → (claim_row (pp_id p) (db_proposals d)).1 = true →
  settle_row project d p =
    put_violations (stamp_violation p (linked_ids p) <$> db_violations d)
      (put_analytics (count_decision project (db_analytics d) p)
         (put_proposals (claim_row (pp_id p) (db_proposals d)).2 d)).
Proof. unfold settle_row. intros -> E. simpl in *. by rewrite E. Qed.

(** [settle_row] only marks rows. *)
Lemma settle_row_rows project d p :
  ∃ c, db_proposals (settle_row project d p) = update_where c row_set_flushed (db_proposals d) ∧
    db_next_id (settle_row project d p) = db_next_id d ∧ db_scans (settle_row project d p) = db_scans d.
Proof.
  unfold settle_row. destruct (pp_flushed p); [|destruct (claim_row _ _) as [[] rows] eqn:E]; simpl.
  - exists (λ _, false). split; [|done]. unfold update_where. by rewrite list_fmap_id.
  - injection E as _ <-. eauto.
  - exists (λ _, false). split; [|done]. unfold update_where. by rewrite list_fmap_id.
Qed.

Lemma update_keys_ok c f d d' :
  db_proposals d' = update_where c f (db_proposals d) → db_next_id d' = db_next_id d →
  (∀ p, pp_id (f p) = pp_id p) → keys_ok d → keys_ok d'.
Proof.
  intros Hr Hn Hf (Hnd & Hb & Hp). unfold keys_ok. rewrite Hr, Hn. split_and!; [by rewrite update_where_key| |done].
  apply Forall_forall. intros q (x & Hx & ->)%elem_update_where. rewrite Forall_forall in Hb.
  specialize (Hb x Hx). destruct (c x); by rewrite ?Hf.
Qed.

Lemma perform_keys d e : keeps_key e → keys_ok d → keys_ok (perform d e).
Proof.
  intros He Hd. destruct e as [project p|id status draft|sel|mk]; simpl.
  - destruct (settle_row_rows project d p) as (c & Hr & Hn & _). by eapply update_keys_ok.
  - by eapply (update_keys_ok (λ q, (pp_id q =? id)%Z) (row_set_status status draft) d).
  - destruct Hd as (Hnd & Hb & Hp). split_and!; simpl; [by apply NoDup_fmap_filter| |done].
    rewrite Forall_forall in *. intros q [Hq _]%elem_delete_where. by apply Hb.
  - destruct Hd as (Hnd & Hb & Hp). simpl in He. split_and!; simpl; [| |lia].
    + rewrite fmap_app. apply NoDup_app. split_and!; [done| |apply NoDup_singleton].
      intros i (q & -> & Hq)%list_elem_of_fmap Hi. simpl in Hi. apply list_elem_of_singleton in Hi.
      rewrite Forall_forall in Hb. specialize (Hb q Hq). rewrite He in Hi. lia.
    + apply Forall_app. split.
      * eapply Forall_impl; [exact Hb|]. intros q ?. simpl in *. lia.
      * constructor; [|done]. rewrite He. lia.
Qed.

(** A row that cannot be counted stays so. *)
Lemma perform_countable d e id :
  keeps_key e → (id < db_next_id d)%Z → countable (perform d e) id → countable d id.
Proof.
  intros He Hid (q & Hq & E & F). destruct e as [project p|i status draft|sel|mk]; simpl in *.
  - destruct (settle_row_rows project d p) as (c & Hr & _). rewrite Hr in Hq.
    apply elem_update_where in Hq as (x & Hx & ->). destruct (c x); [done|]. by exists x.
  - apply elem_update_where in Hq as (x & Hx & ->). exists x. by destruct (_ =? _)%Z.
  - apply elem_delete_where in Hq as [Hq _]. by exists q.
  - apply elem_of_app in Hq as [Hq| ->%list_elem_of_singleton]; [by exists q|]. rewrite He in E. lia.
Qed.

Lemma perform_next d e : (db_next_id d <= db_next_id (perform d e))%Z.
Proof.
  destruct e as [project p| | |]; simpl; try lia.
  destruct (settle_row_rows project d p) as (c & _ & Hn & _). lia.
Qed.

(** What is counted was countable, and no longer is. *)
Lemma counts_spec d e project p :
  keys_ok d → (project, p) ∈ counts d e →
  e = Settle project p ∧ counts d e = [(project, p)] ∧ countable d (pp_id p) ∧
  (pp_id p < db_next_id d)%Z ∧ ¬ countable (perform d e) (pp_id p).
Proof.
  intros (Hnd & Hb & _) Hin. destruct e as [project' p'| | |]; simpl in Hin; try by apply elem_of_nil in Hin.
  destruct (negb (pp_flushed p') && existsb _ _) eqn:E; [|by apply elem_of_nil in Hin].
  apply list_elem_of_singleton in Hin. injection Hin as -> ->.
  split_and!; [done|simpl; by rewrite E| | |]; apply andb_prop in E as [Ef%negb_true_iff Eh];
    pose proof (proj1 (claim_row_hit (pp_id p') (db_proposals d)) Eh) as Hc.
  - done.
  - destruct Hc as (q & Hq & Eq & _). rewrite Forall_forall in Hb. specialize (Hb q Hq). lia.
  - intros (q & Hq & Eq & Fq). simpl in Hq. rewrite settle_row_hit in Hq by done. simpl in Hq.
    apply elem_update_where in Hq as (x & Hx & ->). destruct (_ && _) eqn:Ex; [done|].
    rewrite Eq, Z.eqb_refl, Fq in Ex. done.
Qed.

Lemma counted_spec d es :
  keys_ok d → Forall keeps_key es →
  db_analytics (foldl perform d es) = foldl (λ a c, count_decision c.1 a c.2) (db_analytics d) (counted d es) ∧
  NoDup ((λ c, pp_id c.2) <$> counted d es) ∧
  (∀ id, (id < db_next_id d)%Z → id ∈ (λ c, pp_id c.2) <$> counted d es → countable d id).
Proof.
  revert d. induction es as [|e es IH]; intros d Hd Hes; simpl.
  { split_and!; [done|constructor|]. by intros id _ ?%elem_of_nil. }
  apply Forall_cons in Hes as [He Hes].
  destruct (IH (perform d e) (perform_keys d e He Hd) Hes) as (Ha & Hnd & Hc).
  assert (Han : db_analytics (perform d e) = foldl (λ a c, count_decision c.1 a c.2) (db_analytics d) (counts d e)).
  { destruct e as [project p| | |]; simpl; try done.
    destruct (pp_flushed p) eqn:Ef; simpl; [by rewrite settle_row_miss; auto|].
    destruct (existsb _ _) eqn:Eh.
    - rewrite settle_row_hit by done. done.
    - rewrite settle_row_miss by (right; exact Eh). done. }
  rewrite fmap_app, foldl_app, <- Han. split_and!; [done| |].
  - destruct (counts d e) as [|[project p] cs] eqn:E; [done|].
    destruct (counts_spec d e project p Hd) as (_ & E1 & Hcd & Hlt & Hn); [rewrite E; by left|].
    rewrite E in E1. injection E1 as ->. simpl. apply NoDup_cons. split; [|done].
    intros Hin. apply Hn, Hc; [|done]. pose proof (perform_next d e). lia.
  - intros id Hid [Hin|Hin]%elem_of_app.
    + apply list_elem_of_fmap in Hin as ([project p] & -> & Hin). by apply (counts_spec d e project p Hd).
    + apply (perform_countable d e id He Hid), Hc; [|done]. pose proof (perform_next d e). lia.
Qed.

(** ** The loops over rows *)

Lemma update_where_ext {A} (c c' : A → bool) f f' l :
  (∀ x, x ∈ l → (if c x then f x else x) = (if c' x then f' x else x)) → update_where c f l = update_where c' f' l.
Proof.
  intros H. unfold update_where. apply list_fmap_ext. intros i x Hx. apply H. by eapply list_elem_of_lookup_2.
Qed.

Lemma update_where_twice {A} (c c' : A → bool) f f' l :
  update_where c' f' (update_where c f l) =
  (λ x, let y := if c x then f x else x in if c' y then f' y else y) <$> l.
Proof. unfold update_where. by rewrite <- list_fmap_compose. Qed.

Lemma row_set_flushed_id p : pp_flushed p = true → row_set_flushed p = p.
Proof. destruct p. unfold row_set_flushed. simpl. by intros ->. Qed.

(** What settling a row of the table does to each table. *)
Definition stamp_all (vs : list ViolationRow) (p : ProposalRow) : list ViolationRow :=
  stamp_violation p (linked_ids p) <$> vs.

Definition unflushed (l : list ProposalRow) : list ProposalRow := filter (λ p, pp_flushed p = false) l.

Lemma settle_row_exact project d p :
  NoDup (pp_id <$> db_proposals d) → p ∈ db_proposals d →
  settle_row project d p =
    MkDb (db_scans d) (db_sessions d) (foldl stamp_all (db_violations d) (unflushed [p]))
      (update_where (λ q, (pp_id q =? pp_id p)%Z) row_set_flushed (db_proposals d)) (db_next_id d)
      (foldl (count_decision project) (db_analytics d) (unflushed [p])).
Proof.
  intros Hnd Hp. unfold unflushed. destruct (pp_flushed p) eqn:Ef.
  - rewrite settle_row_miss by auto. rewrite filter_cons, decide_False by congruence. simpl.
    destruct d as [sc se vs ps nx an]. simpl in *. f_equal.
    unfold update_where. rewrite <- (list_fmap_id ps) at 1. apply list_fmap_ext. intros i q Hq%list_elem_of_lookup_2.
    destruct (Z.eqb_spec (pp_id q) (pp_id p)) as [E|E]; [|done].
    rewrite (key_inj ps q p); [|done..]. by rewrite row_set_flushed_id.
  - rewrite settle_row_hit; [|done|apply claim_row_hit; eauto].
    rewrite filter_cons, decide_True by done. simpl. unfold put_violations, put_analytics, put_proposals. simpl.
    f_equal. apply update_where_ext. intros q Hq. destruct (Z.eqb_spec (pp_id q) (pp_id p)) as [E|E]; [|done].
    rewrite (key_inj _ q p Hnd) by done. by rewrite Ef.
Qed.

(** The loop of a flush. *)
Lemma settle_rows_exact project l d :
  NoDup (pp_id <$> db_proposals d) → NoDup (pp_id <$> l) → (∀ p, p ∈ l → p ∈ db_proposals d) →
  foldl (settle_row project) d l =
    MkDb (db_scans d) (db_sessions d) (foldl stamp_all (db_violations d) (unflushed l))
      (update_where (λ q, bool_decide (pp_id q ∈ pp_id <$> l)) row_set_flushed (db_proposals d)) (db_next_id d)
      (foldl (count_decision project) (db_analytics d) (unflushed l)).
Proof.
  revert d. induction l as [|p l IH]; intros d Hnd Hl Hin.
  - destruct d as [sc se vs ps nx an]. simpl. f_equal. unfold update_where. by rewrite list_fmap_id.
  - cbn [foldl]. rewrite settle_row_exact by (try apply Hin; set_solver).
    apply NoDup_cons in Hl as [Hpl Hl]. rewrite IH; simpl.
    + unfold unflushed. rewrite !filter_cons, filter_nil. destruct (decide (pp_flushed p = false)); simpl; f_equal;
        rewrite update_where_twice; apply list_fmap_ext; intros i q Hq%list_elem_of_lookup_2; simpl;
        destruct (Z.eqb_spec (pp_id q) (pp_id p)) as [E|E]; simpl; repeat case_bool_decide; set_solver.
    + by rewrite update_where_key.
    + done.
    + intros q Hq. apply elem_update_where. exists q. split; [set_solver|].
      destruct (Z.eqb_spec (pp_id q) (pp_id p)) as [E|E]; [|done].
      destruct Hpl. rewrite <- E. by apply list_elem_of_fmap_2.
Qed.

(** *** Counters *)

Definition counter (a : gmap analytics_key (Z * Z)) (k : analytics_key) : Z * Z := default (0, 0)%Z (a !! k).

Definition add_pair (x y : Z * Z) : Z * Z := (x.1 + y.1, x.2 + y.2)%Z.

(** What increments and rows add to a counter. *)
Definition tally (project : string) (k : analytics_key) (incs : list increment) : Z * Z :=
  foldr (λ i acc, if decide (increment_key project i = k) then add_pair (in_accepted i, in_declined i) acc else acc)
    (0, 0)%Z incs.

Definition contribution (project : string) (k : analytics_key) (rows : list ProposalRow) : Z * Z :=
  tally project k (rows ≫= row_increments).

Lemma add_pair_assoc x y z : add_pair x (add_pair y z) = add_pair (add_pair x y) z.
Proof. unfold add_pair. simpl. f_equal; lia. Qed.

Lemma add_pair_0_r x : add_pair x (0, 0)%Z = x.
Proof. destruct x. unfold add_pair. simpl. f_equal; lia. Qed.

Lemma tally_app project k a b : tally project k (a ++ b) = add_pair (tally project k a) (tally project k b).
Proof.
  induction a as [|i a IH]; simpl; [by destruct (tally project k b)|].
  case_decide; [|done]. by rewrite IH, add_pair_assoc.
Qed.

Lemma counter_upsert project a i k :
  counter (upsert_analytics_increment project a i) k =
  if decide (increment_key project i = k) then add_pair (counter a k) (in_accepted i, in_declined i) else counter a k.
Proof.
  unfold counter, upsert_analytics_increment. case_decide as E.
  - subst k. rewrite lookup_partial_alter_eq. destruct (a !! _) as [[x y]|]; simpl; unfold add_pair; f_equal; simpl; lia.
  - by rewrite lookup_partial_alter_ne.
Qed.

Lemma counter_upserts project incs a k :
  counter (foldl (upsert_analytics_increment project) a incs) k = add_pair (counter a k) (tally project k incs).
Proof.
  revert a. induction incs as [|i incs IH]; intros a; simpl; [by rewrite add_pair_0_r|].
  rewrite IH, counter_upsert. case_decide; [|done]. by rewrite add_pair_assoc.
Qed.

Lemma counter_count project a rows k :
  counter (foldl (count_decision project) a rows) k = add_pair (counter a k) (contribution project k rows).
Proof.
  unfold contribution. revert a. induction rows as [|p rows IH]; intros a; simpl; [by rewrite add_pair_0_r|].
  rewrite IH, tally_app. unfold count_decision. by rewrite counter_upserts, add_pair_assoc.
Qed.

(** *** Flush *)

Lemma unflushed_elem p l : p ∈ unflushed l ↔ p ∈ l ∧ pp_flushed p = false.
Proof. unfold unflushed. rewrite list_elem_of_filter. tauto. Qed.

Definition flushed_db (project : string) (sel : ProposalRow → bool) (d : db) : db :=
  let rows := unflushed (filter (λ p, sel p = true) (db_proposals d)) in
  MkDb (db_scans d) (db_sessions d) (foldl stamp_all (db_violations d) rows)
    (delete_where sel (db_proposals d)) (db_next_id d) (foldl (count_decision project) (db_analytics d) rows).

Lemma delete_where_update (sel c : ProposalRow → bool) l :
  (∀ p, sel (row_set_flushed p) = sel p) → (∀ p, p ∈ l → c p = true → sel p = true) →
  delete_where sel (update_where c row_set_flushed l) = delete_where sel l ∧
  count_where sel (update_where c row_set_flushed l) = count_where sel l.
Proof.
  intros Hsel Hc. unfold delete_where, count_where, update_where.
  induction l as [|p l IH]; [done|]. csimpl. destruct IH as [IH1 IH2]; [set_solver|].
  rewrite !filter_cons. destruct (c p) eqn:E.
  - assert (sel p = true) as Hp by (apply Hc; [by left|done]). rewrite Hsel, Hp. simpl.
    by rewrite IH1, IH2.
  - repeat case_decide; simpl; rewrite ?IH1, ?IH2; done.
Qed.

Lemma flush_spec project sel d :
  (∀ p, sel (row_set_flushed p) = sel p) → NoDup (pp_id <$> db_proposals d) →
  flush_proposals project sel d = (flushed_db project sel d, count_where sel (db_proposals d)).
Proof.
  intros Hsel Hnd. unfold flush_proposals, flushed_db, count_where.
  destruct (filter (λ p, sel p = true) (db_proposals d)) as [|p0 l0] eqn:El.
  - assert (Hno : delete_where sel (db_proposals d) = db_proposals d).
    { apply filter_all, Forall_forall. intros p Hp. destruct (sel p) eqn:E; [|done].
      exfalso. apply (not_elem_of_nil p). rewrite <- El. by apply list_elem_of_filter. }
    rewrite Hno. by destruct d.
  - rewrite <- El. rewrite settle_rows_exact; [|done|by apply NoDup_fmap_filter|].
    2: { intros p [_ ?]%list_elem_of_filter. done. }
    simpl. unfold put_proposals. simpl.
    destruct (delete_where_update sel (λ q, bool_decide (pp_id q ∈ pp_id <$> filter (λ p, sel p = true) (db_proposals d)))
                (db_proposals d)) as [-> Hc]; [done| |unfold count_where in Hc; by rewrite Hc].
    intros p Hp Hin%bool_decide_eq_true_1. apply list_elem_of_fmap in Hin as (q & E & [Hq Hqin]%list_elem_of_filter).
    by rewrite (key_inj _ p q Hnd).
Qed.

Lemma flush_again project project' sel d :
  flush_proposals project' sel (flushed_db project sel d) = (flushed_db project sel d, 0).
Proof.
  unfold flush_proposals. simpl.
  replace (filter _ (delete_where _ _)) with (@nil ProposalRow); [done|].
  symmetry. apply elem_of_nil_inv. intros p [Hs [_ Hd]%elem_delete_where]%list_elem_of_filter. congruence.
Qed.

(** *** Gate commit *)

Definition commit_in_row (approved : list string) (p : ProposalRow) : ProposalRow :=
  row_set_flushed (decided_row approved p).

Lemma unflushed_decided approved l : unflushed (decided_row approved <$> l) = decided_row approved <$> unflushed l.
Proof.
  unfold unflushed. induction l as [|p l IH]; [done|]. csimpl. rewrite !filter_cons, IH.
  destruct (decide (pp_flushed p = false)); [by rewrite decide_True|by rewrite decide_False].
Qed.

Lemma commit_row_exact project approved d p :
  NoDup (pp_id <$> db_proposals d) → p ∈ db_proposals d →
  commit_row project approved d p =
    MkDb (db_scans d) (db_sessions d) (foldl stamp_all (db_violations d) (decided_row approved <$> unflushed [p]))
      (update_where (λ q, (pp_id q =? pp_id p)%Z) (commit_in_row approved) (db_proposals d)) (db_next_id d)
      (foldl (count_decision project) (db_analytics d) (decided_row approved <$> unflushed [p])).
Proof.
  intros Hnd Hp. unfold commit_row. rewrite settle_row_exact; simpl.
  - rewrite <- unflushed_decided. f_equal. rewrite update_where_twice. apply list_fmap_ext.
    intros i q Hq%list_elem_of_lookup_2. simpl. destruct (Z.eqb_spec (pp_id q) (pp_id p)) as [E|E]; simpl.
    + rewrite (key_inj _ q p Hnd) by done. by rewrite Z.eqb_refl.
    + apply Z.eqb_neq in E. by rewrite E.
  - by rewrite update_where_key.
  - apply elem_update_where. exists p. by rewrite Z.eqb_refl.
Qed.

Lemma commit_rows_exact project approved l d :
  NoDup (pp_id <$> db_proposals d) → NoDup (pp_id <$> l) → (∀ p, p ∈ l → p ∈ db_proposals d) →
  foldl (commit_row project approved) d l =
    MkDb (db_scans d) (db_sessions d) (foldl stamp_all (db_violations d) (decided_row approved <$> unflushed l))
      (update_where (λ q, bool_decide (pp_id q ∈ pp_id <$> l)) (commit_in_row approved) (db_proposals d)) (db_next_id d)
      (foldl (count_decision project) (db_analytics d) (decided_row approved <$> unflushed l)).
Proof.
  revert d. induction l as [|p l IH]; intros d Hnd Hl Hin.
  - destruct d as [sc se vs ps nx an]. simpl. f_equal. unfold update_where. by rewrite list_fmap_id.
  - cbn [foldl]. rewrite commit_row_exact by (try apply Hin; set_solver).
    apply NoDup_cons in Hl as [Hpl Hl]. rewrite IH; simpl.
    + unfold unflushed. rewrite !filter_cons, filter_nil. destruct (decide (pp_flushed p = false)); simpl; f_equal;
        rewrite update_where_twice; apply list_fmap_ext; intros i q Hq%list_elem_of_lookup_2; simpl;
        destruct (Z.eqb_spec (pp_id q) (pp_id p)) as [E|E]; simpl; repeat case_bool_decide; set_solver.
    + by rewrite update_where_key.
    + done.
    + intros q Hq. apply elem_update_where. exists q. split; [set_solver|].
      destruct (Z.eqb_spec (pp_id q) (pp_id p)) as [E|E]; [|done].
      destruct Hpl. rewrite <- E. by apply list_elem_of_fmap_2.
Qed.

(** The rows of an approval round. *)
Definition in_round (scan_id : string) (offered : option (list string)) (p : ProposalRow) : bool :=
  bool_decide (pp_scan_id p = scan_id) && is_offered offered p.

Definition round_rows (scan_id : string) (offered : option (list string)) (d : db) : list ProposalRow :=
  filter (λ p, in_round scan_id offered p = true) (db_proposals d).

Definition committed_db (scan_id project : string) (approved : list string) (offered : option (list string)) (d : db) : db :=
  let decided := decided_row approved <$> unflushed (round_rows scan_id offered d) in
  MkDb (db_scans d) (db_sessions d) (foldl stamp_all (db_violations d) decided)
    (update_where (in_round scan_id offered) (commit_in_row approved) (db_proposals d)) (db_next_id d)
    (foldl (count_decision project) (db_analytics d) decided).

Lemma commit_spec scan_id project approved offered d :
  NoDup (pp_id <$> db_proposals d) →
  commit_gate_decisions scan_id project approved offered d =
    (committed_db scan_id project approved offered d, length (round_rows scan_id offered d)).
Proof.
  intros Hnd. unfold commit_gate_decisions, committed_db.
  assert (Hf : filter (λ p, pp_scan_id p = scan_id ∧ is_offered offered p = true) (db_proposals d)
               = round_rows scan_id offered d).
  { apply list_filter_iff. intros p. unfold in_round. rewrite andb_true_iff, bool_decide_eq_true. done. }
  rewrite Hf. rewrite commit_rows_exact; [|done|by apply NoDup_fmap_filter|].
  2: { intros p [_ ?]%list_elem_of_filter. done. }
  f_equal. f_equal. apply update_where_ext. intros p Hp.
  replace (bool_decide _) with (in_round scan_id offered p); [done|].
  apply eq_bool_prop_intro. rewrite !Is_true_true, bool_decide_eq_true. unfold round_rows. rewrite list_elem_of_fmap. split.
  - intros Hr. exists p. split; [done|]. by apply list_elem_of_filter.
  - intros (q & E & [Hq Hqin]%list_elem_of_filter). by rewrite (key_inj _ p q Hnd).
Qed.

(** ** Review statuses *)

(** The labels a violation can get: its class and whether it has a fix decide. *)
Definition label_fits (v : ViolationRow) (r : string) : Prop :=
  let fixed := has_fixed (violation_attrs v) in
  (r = REVIEW_AI_APPROVED ∧ (vi_class v = RC_AI_CANDIDATE ∨ (vi_class v = RC_AUTO_FIXABLE ∧ fixed = true))) ∨
  (r = REVIEW_AI_DECLINED ∧ (vi_class v = RC_AI_CANDIDATE ∨ (vi_class v = RC_MANUAL_REVIEW ∧ fixed = false))) ∨
  (r ∈ [REVIEW_DETERMINISTIC_APPROVED; REVIEW_DETERMINISTIC_DECLINED] ∧
     (vi_class v = RC_AUTO_FIXABLE ∨ fixed = true)).

(** A review is written once, and fits. *)
Definition stamped (v v' : ViolationRow) : Prop :=
  v' = v ∨ (vi_review v = None ∧ ∃ r, v' = set_review (Some r) v ∧ label_fits v r).

Lemma accepts_fits p v r :
  review_status_for_proposal (pp_source p) (pp_status p) = Some r → may_stamp p v = true → label_fits v r.
Proof.
  unfold may_stamp, review_status_for_proposal, violation_accepts_review_status. intros Hr [_ Ha]%andb_prop.
  assert (Hrc : ∀ z, (0 < z)%Z → (rem_class (violation_attrs v) =? z)%Z = true → vi_class v = z).
  { intros z Hz E%Z.eqb_eq. unfold rem_class in E. simpl in E. lia. }
  destruct (decision_delta (pp_status p)) as [a dl] eqn:Ed.
  assert (Hdelta : ((a = 1 ∧ dl = 0) ∨ (a = 0 ∧ dl = 1) ∨ (a = 0 ∧ dl = 0))%Z).
  { unfold decision_delta in Ed. repeat case_decide; injection Ed as <- <-; auto. }
  unfold label_fits. destruct (is_ai (pp_source p)).
  - destruct Hdelta as [[-> ->]|[[-> ->]|[-> ->]]]; simpl in Hr; try discriminate; injection Hr as <-;
      rewrite ?orb_false_r in Ha; apply orb_prop in Ha as [Ha|Ha]; try (apply Hrc in Ha; [|done]; tauto);
      apply andb_prop in Ha as [Ha Hf]; apply Hrc in Ha; try done; rewrite ?negb_true_iff in Hf; tauto.
  - case_decide; [|done]. right. right. split.
    + destruct Hdelta as [[-> ->]|[[-> ->]|[-> ->]]]; simpl in Hr; try discriminate; injection Hr as <-; set_solver.
    + apply orb_prop in Ha as [Ha|Ha]; [left; by apply Hrc in Ha|by right].
Qed.

Lemma stamp_violation_stamped p ids v : stamped v (stamp_violation p ids v).
Proof.
  unfold stamp_violation. destruct (review_status_for_proposal _ _) as [r|] eqn:Hr; [|by left].
  destruct (_ && _) eqn:E; [|by left]. apply andb_prop in E as [[_ Hn%bool_decide_eq_true]%andb_prop Hm].
  right. split; [done|]. exists r. split; [done|]. by eapply accepts_fits.
Qed.

#[export] Instance stamped_refl : Reflexive stamped.
Proof. by left. Qed.

#[export] Instance stamped_trans : Transitive stamped.
Proof. intros v w x [->|(Hv & r & -> & Hf)]; [done|]. intros [->|(? & _)]; [|done]. right. eauto. Qed.

(** Reviews only grow from one database to another. *)
Definition reviews_grow (d d' : db) : Prop := Forall2 stamped (db_violations d) (db_violations d').

#[export] Instance reviews_grow_refl : Reflexive reviews_grow.
Proof. intros d. unfold reviews_grow. reflexivity. Qed.

#[export] Instance reviews_grow_trans : Transitive reviews_grow.
Proof. intros d e f. unfold reviews_grow. apply transitivity. Qed.

Lemma reviews_grow_eq d d' : db_violations d' = db_violations d → reviews_grow d d'.
Proof. intros E. unfold reviews_grow. by rewrite E. Qed.

Lemma reviews_grow_fmap d d' (f : ViolationRow → ViolationRow) :
  db_violations d' = f <$> db_violations d → (∀ v, stamped v (f v)) → reviews_grow d d'.
Proof. intros E Hf. unfold reviews_grow. rewrite E. apply Forall2_fmap_r, Forall_Forall2_diag. apply Forall_true. auto. Qed.

Lemma settle_row_reviews project d p : reviews_grow d (settle_row project d p).
Proof.
  unfold settle_row. destruct (pp_flushed p); [done|]. destruct (claim_row _ _) as [[] rows]; [|done].
  apply (reviews_grow_fmap _ _ (stamp_violation p (linked_ids p))); [done|]. apply stamp_violation_stamped.
Qed.

Lemma foldl_reviews {A} (f : db → A → db) l d :
  (∀ d x, reviews_grow d (f d x)) → reviews_grow d (foldl f d l).
Proof. intros Hf. revert d. induction l as [|x l IH]; intros d; simpl; [done|]. etrans; [apply Hf|apply IH]. Qed.

Lemma flush_reviews project sel d : reviews_grow d (flush_proposals project sel d).1.
Proof.
  unfold flush_proposals. destruct (filter _ _) as [|p l]; [done|].
  apply (foldl_reviews (settle_row project)). apply settle_row_reviews.
Qed.

Lemma add_rows_violations {A} (mk : A → Z → ProposalRow) l d :
  db_violations (foldl (λ d x, add_row (mk x) d) d l) = db_violations d.
Proof. revert d. induction l as [|x l IH]; intros d; simpl; [done|]. by rewrite IH. Qed.

Lemma replace_violations scan_id l d : db_violations (replace_scan_proposals scan_id l d) = db_violations d.
Proof.
  unfold replace_scan_proposals. set (prior := bridges _).
  by rewrite (add_rows_violations (λ p id, group_row scan_id prior id p)).
Qed.

Lemma persist_reviews scan_id outcomes d d' : persist_grouped_proposals scan_id outcomes d = Some d' → reviews_grow d d'.
Proof.
  unfold persist_grouped_proposals. intros Hp. apply bind_Some in Hp as (m & _ & Hp).
  apply bind_Some in Hp as (m' & _ & Hp). injection Hp as <-. etrans.
  - apply reviews_grow_eq. apply replace_violations.
  - apply foldl_reviews. intros e p. eapply reviews_grow_fmap; [reflexivity|].
    intros v. simpl. destruct (bool_decide _); [apply stamp_violation_stamped|done].
Qed.

(** The operations of the gateway on proposals; [None] is an exception. *)
Inductive operation :=
| OpUpsert (chunk : nat) (scan_id : string) (project_id : option string) (proposals : list YAMLDict)
| OpDraft (scan_id : string) (updates : list YAMLDict)
| OpCommit (scan_id project_id : string) (approved : list string) (offered : option (list string))
| OpFlushProject (project_id : string) (exclude_scan_id : option string)
| OpFlushScan (scan_id project_id : string)
| OpPersist (scan_id : string) (outcomes : list YAMLDict)
| OpLink (scan_id project_id trigger : string) (scan_type source : option string)
| OpAbandon (project_id : string) (extra_scan_ids : list string).

Definition apply_op (d : db) (op : operation) : option db :=
  match op with
  | OpUpsert chunk scan project ps => fst <$> upsert_live_proposal_stubs chunk scan project ps d
  | OpDraft scan us => Some (apply_draft_updates scan us d).1
  | OpCommit scan project approved offered => Some (commit_gate_decisions scan project approved offered d).1
  | OpFlushProject project exclude => Some (flush_proposals_for_project project exclude d).1
  | OpFlushScan scan project => Some (flush_proposals_for_scan scan project d).1
  | OpPersist scan outcomes => persist_grouped_proposals scan outcomes d
  | OpLink scan project trigger scan_type source => Some (link_scan_to_project scan project trigger scan_type source d).1
  | OpAbandon project extras => Some (abandon_project_drafts project extras d).1
  end.

Fixpoint run_ops (d : db) (ops : list operation) : option db :=
  match ops with [] => Some d | op :: ops' => d' ← apply_op d op; run_ops d' ops' end.

(** Linking a scan as a check discards its reviews on purpose. *)
Definition not_check (op : operation) : Prop :=
  match op with OpLink _ _ _ scan_type _ => ∃ t, scan_type = Some t ∧ t ≠ "check" | _ => True end.

Lemma upsert_violations chunk scan project ps d d' out :
  upsert_live_proposal_stubs chunk scan project ps d = Some (d', out) → db_violations d' = db_violations d.
Proof.
  unfold upsert_live_proposal_stubs. set (d0 := ensure_scan_row scan project "remediate" d).
  assert (H0 : db_violations d0 = db_violations d).
  { unfold d0, ensure_scan_row. destruct (list_find _ _) as [[i s]|]; [|done]. by destruct (_ && _). }
  set (l := omap prepare_stub_payload ps).
  assert (Hpl : db_violations (preload_rows scan chunk l d0).1 = db_violations d0).
  { unfold preload_rows. generalize (chunks_of (length l) (preload_per_query_limit chunk) l).
    generalize (MkPreload [] [] []). generalize d0. clear. intros d pl bs.
    assert (Hb : db_violations (foldl (preload_batch scan) (d, pl) bs).1 = db_violations d).
    { revert d pl. induction bs as [|b bs IH]; intros d pl; [done|]. cbn [foldl].
      destruct (preload_batch scan (d, pl) b) as [d2 pl2] eqn:E. rewrite IH. by injection E as <- _. }
    by destruct (foldl _ _ _). }
  destruct (preload_rows scan chunk l d0) as [d1 pl]. simpl in Hpl. intros Hu.
  apply bind_Some in Hu as ([[d2 pl2] out2] & Hu & E). injection E as <- <-. simpl.
  rewrite <- H0, <- Hpl. clear H0 Hpl. revert Hu. generalize (@nil Z). revert d1 pl.
  induction l as [|s l IH]; intros d1 pl o; simpl; [by intros [= <- <- <-]|].
  intros Hu. apply bind_Some in Hu as ([[d3 pl3] o3] & Hs & Hu). rewrite (IH _ _ _ Hu).
  unfold upsert_stub in Hs. destruct (existing_row pl s d1) as [p|];
    apply bind_Some in Hs as (c & _ & Hs); by injection Hs as <- _ _.
Qed.

Lemma draft_violations scan us d : db_violations (apply_draft_updates scan us d).1 = db_violations d.
Proof.
  revert d. induction us as [|u us IH]; intros d; simpl; [done|].
  destruct (draft_update scan u d) as [e|[id st]]; [done|].
  specialize (IH (write_draft id st d)). by destruct (apply_draft_updates scan us (write_draft id st d)).
Qed.

Lemma apply_op_reviews d op d' : apply_op d op = Some d' → not_check op → reviews_grow d d'.
Proof.
  intros Ho Hn. destruct op as [chunk scan project ps|scan us|scan project approved offered|project exclude|
    scan project|scan outcomes|scan project trigger scan_type source|project extras]; simpl in Ho.
  - apply fmap_Some in Ho as ([e out] & He & ->). apply reviews_grow_eq. by eapply upsert_violations.
  - injection Ho as <-. apply reviews_grow_eq, draft_violations.
  - injection Ho as <-. apply foldl_reviews. intros e p. etrans; [|apply settle_row_reviews]. by apply reviews_grow_eq.
  - injection Ho as <-. apply flush_reviews.
  - injection Ho as <-. apply flush_reviews.
  - by eapply persist_reviews.
  - injection Ho as <-. destruct Hn as (t & -> & Ht). unfold link_scan_to_project.
    destruct (list_find _ _) as [[i s]|]; [|done]. cbn [default from_option id fst snd].
    rewrite (decide_False (P := t = "check")) by done.
    destruct (decide (t = "remediate")); [|by apply reviews_grow_eq].
    etrans; [apply flush_reviews|]. by apply reviews_grow_eq.
  - injection Ho as <-. apply reviews_grow_eq. unfold abandon_project_drafts.
    match goal with |- db_violations (foldl ?f _ _).1 = _ =>
      assert (Hg : ∀ es y, db_violations (foldl f y es).1 = db_violations y.1) end.
    { intros es. induction es as [|s es IH]; intros y; [done|]. cbn [foldl]. rewrite IH. by case_decide. }
    by rewrite Hg.
Qed.

Lemma run_ops_reviews d ops d' : run_ops d ops = Some d' → Forall not_check ops → reviews_grow d d'.
Proof.
  revert d. induction ops as [|op ops IH]; intros d Hr Hn; simpl in Hr; [injection Hr as ->; done|].
  apply bind_Some in Hr as (e & He & Hr). apply Forall_cons in Hn as [Hop Hops].
  etrans; [by eapply apply_op_reviews|by apply IH].
Qed.

(** ** Rebuilds *)

Definition bridge_of (r : ProposalRow) : bridge :=
  (pp_engine_id r, pp_draft r, pp_flushed r, pp_status r, pp_stamp r).

(** The keys a row of the old working set is known by. *)
Definition full_key (r : ProposalRow) : bridge_key :=
  make_bridge_key (pp_file r) (pp_source r) (pp_rule_id r) (pp_line_start r) (pp_line_end r).

Definition open_key (r : ProposalRow) : bridge_key :=
  make_bridge_key (pp_file r) (pp_source r) (pp_rule_id r) (pp_line_start r) 0.

Definition row_keys (r : ProposalRow) : list bridge_key :=
  if truthy_id (pp_engine_id r) || pp_draft r || pp_flushed r then
    full_key r :: (if (0 <? pp_line_end r)%Z then [open_key r] else [])
  else [].

Lemma row_keys_NoDup r : NoDup (row_keys r).
Proof.
  unfold row_keys. destruct (_ || _); [|constructor].
  destruct (Z.ltb_spec 0 (pp_line_end r)) as [H|H]; [|apply NoDup_singleton].
  apply NoDup_cons. split; [|apply NoDup_singleton]. rewrite list_elem_of_singleton.
  unfold full_key, open_key, make_bridge_key. simpl.
  replace (0 <? Z.max 0 (pp_line_end r))%Z with true; [congruence|]. symmetry. apply Z.ltb_lt. lia.
Qed.

Definition registrations (rows : list ProposalRow) : list (bridge_key * ProposalRow) :=
  rows ≫= λ r, (λ k, (k, r)) <$> row_keys r.

Definition register_pair (t : bridge_table) (kr : bridge_key * ProposalRow) : bridge_table :=
  register_bridge kr.1 kr.2 t.

Lemma bridges_registrations rows : bridges rows = (foldl register_pair ([], []) (registrations rows)).1.
Proof.
  unfold bridges. f_equal. generalize (@nil (bridge_key * bridge), @nil bridge_key).
  induction rows as [|r rows IH]; intros t; [done|]. cbn [foldl]. unfold registrations. csimpl.
  rewrite foldl_app, IH. unfold registrations. f_equal. unfold register_prior, row_keys.
  destruct (_ || _); [|done]. simpl. fold (full_key r) (open_key r).
  destruct (Z.ltb_spec 0 (pp_line_end r)), (Z.ltb_spec 0 (Z.max 0 (pp_line_end r))); try lia; done.
Qed.

(** A key is bridged exactly when it was registered once. *)
Lemma register_pairs_spec l k :
  dget k (foldl register_pair ([], []) l).1 =
    match filter (λ kr, kr.1 = k) l with [kr] => Some (bridge_of kr.2) | _ => None end ∧
  (k ∈ (foldl register_pair ([], []) l).2 ↔ (2 ≤ length (filter (λ kr, kr.1 = k) l))%nat).
Proof.
  induction l as [|[k' r] l [IHd IHa]] using rev_ind.
  { simpl. split; [done|]. split; [by intros ?%elem_of_nil|lia]. }
  rewrite foldl_app, filter_app. cbn [foldl]. destruct (foldl register_pair ([], []) l) as [prior amb].
  cbn [fst snd] in IHd, IHa. unfold register_pair, register_bridge. cbn [fst snd]. rewrite filter_cons, filter_nil. cbn [fst].
  destruct (decide (k' = k)) as [->|Hne].
  - destruct (decide (k ∈ amb)) as [Ha|Ha]; cbn [fst snd].
    + apply IHa in Ha as Hl. rewrite IHd, length_app.
      destruct (filter _ l) as [|x [|y l']]; simpl in *; [lia..|]. split; [done|]. split; [lia|done].
    + assert (Hlen : (length (filter (λ kr, kr.1 = k) l) < 2)%nat) by (rewrite IHa in Ha; lia).
      destruct (filter _ l) as [|x [|y l']]; simpl in *; [| |lia].
      * rewrite decide_False by (rewrite IHd; by intros [? ?]). cbn [fst snd]. rewrite dget_dset_eq.
        split; [done|]. split; [done|lia].
      * rewrite decide_True by (rewrite IHd; eauto). cbn [fst snd]. rewrite dget_dpop, decide_True by done.
        split; [done|]. split; [lia|]. intros _. by left.
  - rewrite app_nil_r. case_decide as Ha; cbn [fst snd]; [done|].
    case_decide as Hk; cbn [fst snd].
    + rewrite dget_dpop, decide_False by congruence. split; [done|]. rewrite elem_of_cons. naive_solver.
    + by rewrite dget_dset_ne by congruence.
Qed.

Lemma filter_registrations rows k :
  filter (λ kr, kr.1 = k) (registrations rows) = (λ r, (k, r)) <$> filter (λ r, k ∈ row_keys r) rows.
Proof.
  unfold registrations. induction rows as [|r rows IH]; [done|]. csimpl. rewrite filter_app, IH, filter_cons.
  assert (Hr : filter (λ kr, kr.1 = k) ((λ k, (k, r)) <$> row_keys r) = if decide (k ∈ row_keys r) then [(k, r)] else []).
  { pose proof (row_keys_NoDup r) as Hnd. induction (row_keys r) as [|k' ks IHk]; [done|].
    apply NoDup_cons in Hnd as [Hk' Hnd]. csimpl. rewrite filter_cons, IHk by done. cbn [fst].
    destruct (decide (k' = k)) as [->|Hne].
    - rewrite decide_False by done. by rewrite decide_True by left.
    - destruct (decide (k ∈ ks)); [by rewrite decide_True by by right|].
      rewrite decide_False; [done|]. rewrite elem_of_cons. naive_solver. }
  rewrite Hr. by destruct (decide (k ∈ row_keys r)).
Qed.

(** The only row of the old working set with a key. *)
Definition only_row (rows : list ProposalRow) (k : bridge_key) : option ProposalRow :=
  match filter (λ r, k ∈ row_keys r) rows with [r] => Some r | _ => None end.

Lemma bridges_spec rows k : dget k (bridges rows) = bridge_of <$> only_row rows k.
Proof.
  rewrite bridges_registrations. destruct (register_pairs_spec (registrations rows) k) as [-> _].
  rewrite filter_registrations. unfold only_row. by destruct (filter _ rows) as [|x [|y l]].
Qed.

Lemma add_rows_exact {A} (mk : A → Z → ProposalRow) l d :
  db_proposals (foldl (λ d x, add_row (mk x) d) d l) =
    (db_proposals d ++ imap (λ i x, mk x (db_next_id d + Z.of_nat i)%Z) l)%list ∧
  db_analytics (foldl (λ d x, add_row (mk x) d) d l) = db_analytics d.
Proof.
  revert d. induction l as [|x l IH]; intros d; simpl; [by rewrite app_nil_r|].
  destruct (IH (add_row (mk x) d)) as [-> ->]. split; [|done]. simpl. rewrite <- app_assoc. simpl.
  do 2 f_equal; [f_equal; lia|]. apply imap_ext. intros i y _. simpl. f_equal. lia.
Qed.

(** The row whose decision a group takes over. *)
Definition bridged_row (rows : list ProposalRow) (p : GroupedProposal) : option ProposalRow :=
  match only_row rows (make_bridge_key (gp_file p) (gp_source p) (gp_rule_id p) (gp_line_start p) (gp_line_end p)) with
  | Some r => Some r
  | None => only_row rows (make_bridge_key (gp_file p) (gp_source p) (gp_rule_id p) (gp_line_start p) 0)
  end.

Lemma find_bridge_spec rows p : find_bridge (bridges rows) p = default no_bridge (bridge_of <$> bridged_row rows p).
Proof. unfold find_bridge, bridged_row. rewrite !bridges_spec. by destruct (only_row rows _). Qed.

(** ** Properties *)

(** C33: Decisions are counted once.  However the statements of any number of flushes,
    gate commits, drafts, deletions and insertions are interleaved, and however stale
    the rows are that the loops hold, the analytics are those at the start plus the
    increments of the decisions counted; no row is counted twice, and no row that had
    been counted before is counted again. *)
Theorem decisions_counted_once d es :
  keys_ok d → Forall keeps_key es →
  db_analytics (foldl perform d es) = foldl (λ a c, count_decision c.1 a c.2) (db_analytics d) (counted d es) ∧
  NoDup ((λ c, pp_id c.2) <$> counted d es) ∧
  ∀ q, q ∈ db_proposals d → pp_flushed q = true → pp_id q ∉ (λ c, pp_id c.2) <$> counted d es.
Proof.
  intros Hd Hes. destruct (counted_spec d es Hd Hes) as (Ha & Hnd & Hc). split_and!; [done..|].
  intros q Hq Hf Hin. destruct Hd as (Hkeys & Hb & _). rewrite Forall_forall in Hb.
  destruct (Hc (pp_id q)) as (r & Hr & E & Fr); [by apply Hb|done|].
  rewrite (key_inj _ r q Hkeys) in Fr by done. congruence.
Qed.

(** A flush is exact: it deletes the selected rows and nothing else, adds to every
    counter what the selected rows contribute that had not been counted, stamps the
    violations of those rows in order, and when it is repeated finds nothing to do. *)
Theorem flush_exact project (f : string → bool) d :
  NoDup (pp_id <$> db_proposals d) →
  let sel := λ p, f (pp_scan_id p) in
  let rows := unflushed (filter (λ p, sel p = true) (db_proposals d)) in
  let d' := (flush_proposals project sel d).1 in
  db_proposals d' = filter (λ p, sel p = false) (db_proposals d) ∧
  (∀ k, counter (db_analytics d') k = add_pair (counter (db_analytics d) k) (contribution project k rows)) ∧
  db_violations d' = foldl stamp_all (db_violations d) rows ∧ db_scans d' = db_scans d ∧
  flush_proposals project sel d' = (d', 0).
Proof.
  intros Hnd sel rows d'. assert (Hd' : d' = flushed_db project sel d).
  { unfold d'. by rewrite flush_spec. }
  rewrite Hd'. split_and!; [done| |done..|apply flush_again]. intros k. apply counter_count.
Qed.

(** C35: A gate commit is exact: it decides the offered rows of the scan, approved when
    their engine id is on the list and declined otherwise, and no other row; it counts
    those not counted before, and committing the same round again changes nothing. *)
Theorem gate_commit_exact scan_id project approved offered d :
  NoDup (pp_id <$> db_proposals d) →
  let d' := (commit_gate_decisions scan_id project approved offered d).1 in
  db_proposals d' = update_where (in_round scan_id offered) (commit_in_row approved) (db_proposals d) ∧
  (∀ k, counter (db_analytics d') k =
     add_pair (counter (db_analytics d) k)
       (contribution project k (decided_row approved <$> unflushed (round_rows scan_id offered d)))) ∧
  (commit_gate_decisions scan_id project approved offered d').1 = d'.
Proof.
  intros Hnd d'. assert (Hd' : d' = committed_db scan_id project approved offered d).
  { unfold d'. by rewrite commit_spec. }
  rewrite Hd'. split_and!; [done|intros k; apply counter_count|].
  rewrite commit_spec. 2: { simpl. by rewrite update_where_key. }
  simpl. unfold committed_db at 1.
  assert (Hr : unflushed (round_rows scan_id offered (committed_db scan_id project approved offered d)) = []).
  { apply elem_of_nil_inv. intros p [Hp Hf]%unflushed_elem. apply list_elem_of_filter in Hp as [Hr Hp].
    simpl in Hp. apply elem_update_where in Hp as (q & _ & ->).
    destruct (in_round scan_id offered q) eqn:E; [done|congruence]. }
  rewrite Hr. simpl. unfold committed_db. f_equal. rewrite update_where_twice.
  apply list_fmap_ext. intros i p _. cbv zeta. destruct (in_round scan_id offered p) eqn:E; [|by rewrite E].
  change (in_round scan_id offered (commit_in_row approved p)) with (in_round scan_id offered p). by rewrite E.
Qed.

(** Review statuses are written once.  Through every sequence of operations of the
    gateway other than linking a scan as a check, the violations stay the same but for
    their review: one that has a review keeps it, and one that gets a review gets a
    label that fits its class and fix, so a deterministic decision never labels an AI
    candidate without a fix and an AI decision never labels a plain manual finding as
    approved. *)
Theorem reviews_written_once d ops d' :
  run_ops d ops = Some d' → Forall not_check ops → reviews_grow d d'.
Proof. apply run_ops_reviews. Qed.

(** A rebuild carries decisions over.  It replaces the rows of the scan by one row
    per group, in order, and counts nothing; the row of a group takes engine id, draft
    and counted flag from the only old row with the same file, source, primary rule and
    span (or start line), and keeps an approved or declined status of it when the group
    has none; with no such row, or several, the group starts uncounted. *)
Theorem rebuild_exact scan_id ps d :
  let old := filter (λ p, bool_decide (pp_scan_id p = scan_id) = true) (db_proposals d) in
  let d' := replace_scan_proposals scan_id ps d in
  db_proposals d' =
    (filter (λ p, bool_decide (pp_scan_id p = scan_id) = false) (db_proposals d) ++
     imap (λ i p, group_row scan_id (bridges old) (db_next_id d + Z.of_nat i)%Z p) ps)%list ∧
  db_analytics d' = db_analytics d ∧
  ∀ p id, let r := group_row scan_id (bridges old) id p in
    match bridged_row old p with
    | Some q => pp_engine_id r = pp_engine_id q ∧ pp_draft r = pp_draft q ∧ pp_flushed r = pp_flushed q ∧
        (gp_status p = "pending" → gp_source p ≠ SOURCE_DETERMINISTIC →
         pp_status q ∈ ["approved"; "declined"] → pp_status r = pp_status q)
    | None => pp_engine_id r = None ∧ pp_draft r = false ∧ pp_flushed r = false
    end.
Proof.
  intros old d'. unfold d', replace_scan_proposals. fold old.
  destruct (add_rows_exact (λ p id, group_row scan_id (bridges old) id p) ps
              (put_proposals (delete_where (λ p, bool_decide (pp_scan_id p = scan_id)) (db_proposals d)) d)) as [-> ->].
  split_and!; [done..|]. intros p id. unfold group_row. rewrite find_bridge_spec.
  destruct (bridged_row old p) as [q|]; simpl; [|done]. split_and!; [done..|].
  intros Hs Hsrc Hq. rewrite (decide_False (P := _ ∧ gp_source p = _ ∧ _)) by tauto.
  rewrite decide_True; [done|]. rewrite Hs. split; [done|by left].
Qed.

Module StoreDemo.
(** A remediation of project [p1]: the engine offers two fixes of L007 that start on
    the same line of [site.yml], of a block and of its first task. *)
Definition offer (id : string) (line_end : Z) : YAMLDict :=
  [("id", YStr id); ("file", YStr "site.yml"); ("rule_id", YStr "L007"); ("tier", YInt 1);
   ("status", YStr "proposed"); ("line_start", YInt 3); ("line_end", YInt line_end)].

Definition finding (id : Z) (path : string) : ViolationRow :=
  MkViolation id "scan1" "L007" "site.yml" (Some 3%Z) path 1 "shell: ls" "ansible.builtin.shell: ls" 3 "task" None.

Definition fresh_db : db :=
  MkDb [] [] [finding 1 "plays[0]/tasks[0]"; finding 2 "plays[0]/tasks[0]/block[0]"] [] 1 ∅.

Definition with_stubs : db :=
  default fresh_db (apply_op fresh_db (OpUpsert 900 "scan1" (Some "p1") [offer "e1" 5; offer "e2" 9])).

Definition L007_counter : analytics_key := ("p1", "L007", "deterministic", "tier1", 1%Z, 0%Z, 0%Z).

Definition committed : db := (commit_gate_decisions "scan1" "p1" ["e1"] (Some ["e1"; "e2"]) with_stubs).1.

Lemma stub_keys : keys_ok with_stubs.
Proof. split_and!; apply (bool_decide_unpack _); vm_compute; exact I. Qed.

(** Two flushes that both read the rows before either wrote. *)
Definition race : list statement :=
  let rows := db_proposals with_stubs in
  Settle "p1" <$> ((row_set_status "approved" false <$> rows) ++ (row_set_status "approved" false <$> rows))%list.

Lemma decisions_counted_once_witness :
  db_analytics (foldl perform with_stubs race) =
    foldl (λ a c, count_decision c.1 a c.2) (db_analytics with_stubs) (counted with_stubs race) ∧
  length (counted with_stubs race) = 2%nat ∧
  counter (db_analytics (foldl perform with_stubs race)) L007_counter = (2, 0)%Z.
Proof.
  split_and!; [|vm_compute; reflexivity..].
  apply (decisions_counted_once with_stubs race).
  - apply stub_keys.
  - unfold race. apply Forall_fmap, Forall_true. done.
Defined.

Lemma flush_exact_witness :
  counter (db_analytics (flush_proposals_for_scan "scan1" "p1" with_stubs).1) L007_counter =
    add_pair (counter (db_analytics with_stubs) L007_counter) (contribution "p1" L007_counter (db_proposals with_stubs)) ∧
  db_proposals (flush_proposals_for_scan "scan1" "p1" with_stubs).1 = [].
Proof.
  destruct (flush_exact "p1" (λ s, bool_decide (s = "scan1")) with_stubs (proj1 stub_keys)) as (Hp & Hc & _).
  unfold flush_proposals_for_scan. rewrite Hc, Hp. split; vm_compute; reflexivity.
Defined.

(** One of the two is approved, the other declined by omission. *)
Lemma gate_commit_exact_witness :
  pp_status <$> db_proposals committed = ["approved"; "declined"] ∧
  counter (db_analytics committed) L007_counter = (1, 1)%Z.
Proof.
  destruct (gate_commit_exact "scan1" "p1" ["e1"] (Some ["e1"; "e2"]) with_stubs (proj1 stub_keys)) as (Hp & Hc & _).
  unfold committed. rewrite Hc, Hp. split; vm_compute; reflexivity.
Defined.

(** Storing the result stamps both findings. *)
Definition stored : db := default fresh_db (apply_op with_stubs (OpPersist "scan1" [])).

Lemma reviews_written_once_witness :
  reviews_grow with_stubs stored ∧
  vi_review <$> db_violations stored = [Some REVIEW_DETERMINISTIC_APPROVED; Some REVIEW_DETERMINISTIC_APPROVED].
Proof.
  split; [|vm_compute; reflexivity]. apply (reviews_written_once with_stubs [OpPersist "scan1" []] stored).
  - unfold stored. destruct (apply_op with_stubs (OpPersist "scan1" [])) as [d|] eqn:E.
    + change (run_ops with_stubs [OpPersist "scan1" []]) with (d' ← apply_op with_stubs (OpPersist "scan1" []); Some d').
      by rewrite E.
    + exfalso. vm_compute in E. discriminate.
  - by repeat constructor.
Defined.

(** A single offer, committed and rebuilt: the row is still marked as counted. *)
Definition one_offer : db :=
  (commit_gate_decisions "scan1" "p1" ["e1"] None
     (default fresh_db (apply_op fresh_db (OpUpsert 900 "scan1" (Some "p1") [offer "e1" 5])))).1.

Definition one_group : GroupedProposal :=
  MkGroup "prop-tier1-x" "L007" ["L007"] [1%Z] "site.yml" "plays[0]/tasks[0]" 3 0 1 "deterministic" "tier1" "pending"
    FZERO "" "" (Hunk "") "" "" false [] "task".

Lemma rebuild_exact_witness :
  pp_flushed <$> db_proposals (replace_scan_proposals "scan1" [one_group] one_offer) = [true] ∧
  pp_flushed (group_row "scan1" (bridges (filter (λ p, bool_decide (pp_scan_id p = "scan1") = true)
    (db_proposals one_offer))) 7 one_group) = true.
Proof.
  destruct (rebuild_exact "scan1" [one_group] one_offer) as (Hp & _ & Hb). split.
  - rewrite Hp. vm_compute. reflexivity.
  - specialize (Hb one_group 7%Z). cbv zeta in Hb.
    destruct (bridged_row _ one_group) as [q|] eqn:E; [|exfalso; vm_compute in E; discriminate].
    destruct Hb as (_ & _ & -> & _). vm_compute in E. by injection E as <-.
Defined.

(** A decision can be counted twice across a rebuild.  Both fixes are approved at
    the gate, which counts them; the rebuild from the stored violations, which carry no
    end line, finds two old rows for the key of each group and drops both, so the groups
    start as uncounted and a flush counts the two approvals again. *)
Theorem ambiguous_rebuild_counts_twice :
  let approved := (commit_gate_decisions "scan1" "p1" ["e1"; "e2"] (Some ["e1"; "e2"]) with_stubs).1 in
  counter (db_analytics approved) L007_counter = (2, 0)%Z ∧
  ∃ d, run_ops approved [OpPersist "scan1" []; OpFlushScan "scan1" "p1"] = Some d ∧
    counter (db_analytics d) L007_counter = (4, 0)%Z.
Proof.
  intros approved. split; [vm_compute; reflexivity|].
  assert (Hr : (λ d, counter (db_analytics d) L007_counter) <$>
    run_ops approved [OpPersist "scan1" []; OpFlushScan "scan1" "p1"] = Some (4, 0)%Z) by (vm_compute; reflexivity).
  apply fmap_Some in Hr as (d & Hd & Hc). exists d. split; [exact Hd|symmetry; exact Hc].
Qed.
End StoreDemo.
