(* ===== verification/ProposalLive.v ===== *)
(** * Live proposals

    Properties of the operations that keep the working set in step with a running
    session ([apme_gateway/proposals/draft.py]): re-emitted proposals do not disturb
    drafts or decisions, and abandoned drafts leave no trace. *)

From stdpp Require Import base list gmap strings pretty.
From Stdlib Require Import Ascii String.
From S2P Require Import Prelude PyStr PyPath PyNum Yaml ProposalGroups ProposalStore ProposalProps.

#[local] Open Scope string_scope.
#[local] Notation length := List.length.

(** ** The working set of a scan *)

Definition engine_is (scan_id e : string) (p : ProposalRow) : Prop := pp_scan_id p = scan_id ∧ pp_engine_id p = Some e.

(** No two rows of the scan share an engine id. *)
Definition engines_unique (scan_id : string) (d : db) : Prop :=
  ∀ e p q, p ∈ db_proposals d → q ∈ db_proposals d → engine_is scan_id e p → engine_is scan_id e q → p = q.

(** ... or a gateway id. *)
Definition archivals_unique (scan_id : string) (d : db) : Prop :=
  ∀ p q, p ∈ db_proposals d → q ∈ db_proposals d → pp_scan_id p = scan_id → pp_scan_id q = scan_id →
    pp_proposal_id p = pp_proposal_id q → p = q.

(** What the preload maps say about the table. *)
Record preload_ok (scan_id : string) (es : list string) (d : db) (pl : preload) : Prop := {
  engine_sound : ∀ e id, e ∈ es → dget e (pl_by_engine pl) = Some id →
    ∃ p, p ∈ db_proposals d ∧ engine_is scan_id e p ∧ pp_id p = id;
  engine_complete : ∀ e p, e ∈ es → p ∈ db_proposals d → engine_is scan_id e p → is_Some (dget e (pl_by_engine pl));
  archival_sound : ∀ a id, dget a (pl_by_archival pl) = Some id →
    ∃ p, p ∈ db_proposals d ∧ pp_scan_id p = scan_id ∧ pp_id p = id;
}.

(** *** Groups of unique rows *)

Lemma reconcile_single p : (0 < pp_id p)%Z → reconcile [p] = (pp_id p, []).
Proof.
  intros Hp. unfold reconcile, newest. simpl. rewrite Z.max_l by lia. f_equal.
  rewrite filter_cons, decide_False by tauto. done.
Qed.

Lemma group_single {K} `{EqDecision K} (f : ProposalRow → K) l k g :
  NoDup l → (∀ p q, p ∈ l → q ∈ l → f p = f q → p = q) → (k, g) ∈ group_by f l →
  ∃ p, g = [p] ∧ p ∈ l ∧ f p = k.
Proof.
  intros Hnd Hinj [Hne ->]%elem_of_group_by. pose proof (NoDup_filter (λ x, f x = k) l Hnd) as Hg.
  assert (Hin : ∀ p, p ∈ filter (λ x, f x = k) l → p ∈ l ∧ f p = k) by (intros p [? ?]%list_elem_of_filter; done).
  destruct (filter _ l) as [|p [|q g]]; [done| |].
  - exists p. split; [done|]. apply Hin. by left.
  - exfalso. destruct (Hin p) as [Hp Ep]; [by left|]. destruct (Hin q) as [Hq Eq]; [by right; left|].
    apply NoDup_cons in Hg as [Hg _]. apply Hg. rewrite (Hinj p q) by congruence. by left.
Qed.

Lemma dget_foldl_groups (l : list (string * list ProposalRow)) (m : list (string * Z)) k :
  NoDup l.*1 →
  dget k (foldl (λ m g, dset g.1 (reconcile g.2).1 m) m l) =
    match dget k l with Some g => Some (reconcile g).1 | None => dget k m end.
Proof.
  revert m. induction l as [|[k' g] l IH]; intros m Hnd; simpl; [done|].
  apply NoDup_cons in Hnd as [Hk Hnd]. rewrite IH by done. destruct (decide (k = k')) as [->|Hne].
  - replace (dget k' l) with (@None (list ProposalRow)) by (symmetry; by apply dget_None). by rewrite dget_dset_eq.
  - destruct (dget k l); [done|]. by rewrite dget_dset_ne.
Qed.

Section Preload.
Context (scan_id : string) (d : db) (Hkeys : keys_ok d) (Heng : engines_unique scan_id d)
  (Harch : archivals_unique scan_id d).

Definition batch_rows (batch : list StubPayload) : list ProposalRow :=
  filter (λ p, pp_scan_id p = scan_id ∧
    (pp_engine_id p ∈ Some <$> (sp_engine_id <$> batch) ∨ pp_proposal_id p ∈ sp_archival_id <$> batch)) (db_proposals d).

Lemma rows_NoDup : NoDup (db_proposals d).
Proof. destruct Hkeys as (Hnd & _ & _). by eapply NoDup_fmap_1. Qed.

Lemma row_positive p : p ∈ db_proposals d → (0 < pp_id p)%Z.
Proof. destruct Hkeys as (_ & Hb & _). rewrite Forall_forall in Hb. intros Hp. apply (Hb p Hp). Qed.

Lemma engine_group_single batch k g :
  (k, g) ∈ engine_groups (batch_rows batch) →
  ∃ p, g = [p] ∧ p ∈ db_proposals d ∧ engine_is scan_id k p ∧ reconcile g = (pp_id p, []).
Proof.
  intros Hg. destruct (group_single (λ p, default "" (pp_engine_id p))
    (filter (λ p, truthy_id (pp_engine_id p) = true) (batch_rows batch)) k g) as (p & -> & Hp & Hk); [| |exact Hg|].
  - apply NoDup_filter, NoDup_filter, rows_NoDup.
  - intros p q [Tp [[Sp _] Hp]%list_elem_of_filter]%list_elem_of_filter [Tq [[Sq _] Hq]%list_elem_of_filter]%list_elem_of_filter E.
    destruct (pp_engine_id p) as [e|] eqn:Ep; [|done]. destruct (pp_engine_id q) as [e'|] eqn:Eq; [|done].
    simpl in E. subst e'. by apply (Heng e).
  - apply list_elem_of_filter in Hp as [Tp [[Sp _] Hp]%list_elem_of_filter]. exists p. split_and!; [done..| |].
    + split; [done|]. destruct (pp_engine_id p); [|done]. by rewrite <- Hk.
    + apply reconcile_single, row_positive. done.
Qed.

Lemma archival_group_single batch k g :
  (k, g) ∈ archival_groups (batch_rows batch) →
  ∃ p, g = [p] ∧ p ∈ db_proposals d ∧ pp_scan_id p = scan_id ∧ reconcile g = (pp_id p, []).
Proof.
  intros Hg. destruct (group_single pp_proposal_id (batch_rows batch) k g) as (p & -> & Hp & Hk); [| |exact Hg|].
  - apply NoDup_filter, rows_NoDup.
  - intros p q [[Sp _] Hp]%list_elem_of_filter [[Sq _] Hq]%list_elem_of_filter. by apply Harch.
  - apply list_elem_of_filter in Hp as [[Sp _] Hp]. exists p. split_and!; [done..|].
    by apply reconcile_single, row_positive.
Qed.

(** With unique ids a query discards nothing. *)
Lemma nothing_discarded batch :
  ((engine_groups (batch_rows batch) ++ archival_groups (batch_rows batch))%list ≫= λ g, (reconcile g.2).2) = [].
Proof.
  apply elem_of_nil_inv. intros id ([k g] & Hid & [Hg|Hg]%elem_of_app)%list_elem_of_bind; cbn [snd] in Hid.
  - destruct (engine_group_single batch k g Hg) as (p & _ & _ & _ & E). rewrite E in Hid. by apply elem_of_nil in Hid.
  - destruct (archival_group_single batch k g Hg) as (p & _ & _ & _ & E). rewrite E in Hid. by apply elem_of_nil in Hid.
Qed.

(** The entries of the maps that a query sees. *)
Definition seen_ok (pl : preload) : Prop :=
  (∀ e id, dget e (pl_by_engine pl) = Some id → ∃ p, p ∈ db_proposals d ∧ engine_is scan_id e p ∧ pp_id p = id) ∧
  (∀ a id, dget a (pl_by_archival pl) = Some id → ∃ p, p ∈ db_proposals d ∧ pp_scan_id p = scan_id ∧ pp_id p = id) ∧
  pl_discarded pl = [].

Lemma preload_batch_ok pl batch :
  seen_ok pl →
  ∃ pl', preload_batch scan_id (d, pl) batch = (d, pl') ∧ seen_ok pl' ∧
    (∀ e, is_Some (dget e (pl_by_engine pl)) → is_Some (dget e (pl_by_engine pl'))) ∧
    (∀ e p, e ∈ sp_engine_id <$> batch → e ≠ "" → p ∈ db_proposals d → engine_is scan_id e p →
       is_Some (dget e (pl_by_engine pl'))).
Proof.
  intros (Hse & Hsa & Hd). unfold preload_batch. fold (batch_rows batch).
  rewrite nothing_discarded, Hd. simpl.
  eexists. split.
  { f_equal. destruct d as [sc se vs ps nx an]. unfold put_proposals. simpl. f_equal.
    apply filter_all, Forall_forall. intros p _. apply not_elem_of_nil. }
  unfold seen_ok. simpl. split_and!; [| |done| |].
  - intros e id. rewrite dget_foldl_groups by apply group_by_NoDup.
    destruct (dget e (engine_groups _)) as [g|] eqn:Hg; [|apply Hse]. intros [= <-].
    apply dget_Some_elem in Hg. destruct (engine_group_single batch e g Hg) as (p & _ & Hp & He & E).
    exists p. split_and!; [done..|]. by rewrite <- (f_equal fst E : (reconcile g).1 = pp_id p).
  - intros a id. rewrite dget_foldl_groups by apply group_by_NoDup.
    destruct (dget a (archival_groups _)) as [g|] eqn:Hg; [|apply Hsa]. intros [= <-].
    apply dget_Some_elem in Hg. destruct (archival_group_single batch a g Hg) as (p & _ & Hp & He & E).
    exists p. split_and!; [done..|]. by rewrite <- (f_equal fst E : (reconcile g).1 = pp_id p).
  - intros e He. rewrite dget_foldl_groups by apply group_by_NoDup. by destruct (dget e (engine_groups _)).
  - intros e p He Hne Hp [Hs Hep]. rewrite dget_foldl_groups by apply group_by_NoDup.
    replace (dget e (engine_groups (batch_rows batch))) with
      (match filter (λ x, default "" (pp_engine_id x) = e)
               (filter (λ p, truthy_id (pp_engine_id p) = true) (batch_rows batch)) with [] => None | xs => Some xs end)
      by (symmetry; apply (dget_group_by (λ p, default "" (pp_engine_id p)))).
    destruct (filter (λ x, default "" (pp_engine_id x) = e) _) as [|x xs] eqn:Ef; [|eauto].
    exfalso. apply (not_elem_of_nil p). rewrite <- Ef. unfold batch_rows. rewrite !list_elem_of_filter, Hep. simpl.
    split; [done|]. split; [|split; [split; [done|]|done]].
    + destruct (String.eqb_spec e ""); done.
    + left. by apply list_elem_of_fmap_2.
Qed.

Lemma preload_batches_ok pl bs :
  seen_ok pl →
  ∃ pl', foldl (preload_batch scan_id) (d, pl) bs = (d, pl') ∧ seen_ok pl' ∧
    (∀ e, is_Some (dget e (pl_by_engine pl)) → is_Some (dget e (pl_by_engine pl'))) ∧
    (∀ b e p, b ∈ bs → e ∈ sp_engine_id <$> b → e ≠ "" → p ∈ db_proposals d → engine_is scan_id e p →
       is_Some (dget e (pl_by_engine pl'))).
Proof.
  revert pl. induction bs as [|b bs IH]; intros pl Hpl; cbn [foldl].
  { exists pl. split_and!; [done..|]. by intros b e p ?%elem_of_nil. }
  destruct (preload_batch_ok pl b Hpl) as (pl1 & -> & H1 & Hm1 & Hc1).
  destruct (IH pl1 H1) as (pl2 & -> & H2 & Hm2 & Hc2). exists pl2. split_and!; [done..|eauto|].
  intros b' e p [->|Hb]%elem_of_cons; [|by eapply Hc2]. intros. eapply Hm2, Hc1; eauto.
Qed.
End Preload.

Lemma chunks_of_elem {A} fuel n (l : list A) x :
  (0 < n)%nat → (length l ≤ fuel)%nat → x ∈ l → ∃ b, b ∈ chunks_of fuel n l ∧ x ∈ b.
Proof.
  intros Hn. revert l. induction fuel as [|fuel IH]; intros l Hl Hx.
  - destruct l; simpl in *; [by apply elem_of_nil in Hx|lia].
  - destruct l as [|y l]; [by apply elem_of_nil in Hx|]. cbn [chunks_of].
    rewrite <- (take_drop n (y :: l)) in Hx. apply elem_of_app in Hx as [Hx|Hx].
    + eexists. split; [by left|done].
    + destruct (IH (drop n (y :: l))) as (b & Hb & Hxb); [rewrite length_drop; simpl in *; lia|done|].
      exists b. split; [by right|done].
Qed.

(** The preload leaves the table alone and finds the rows of every payload. *)
Lemma preload_rows_ok scan_id chunk prepared d :
  keys_ok d → engines_unique scan_id d → archivals_unique scan_id d → Forall (λ s, sp_engine_id s ≠ "") prepared →
  ∃ pl, preload_rows scan_id chunk prepared d = (d, pl) ∧ preload_ok scan_id (sp_engine_id <$> prepared) d pl.
Proof.
  intros Hk He Ha Hne. unfold preload_rows.
  destruct (preload_batches_ok scan_id d Hk He Ha (MkPreload [] [] [])
    (chunks_of (length prepared) (preload_per_query_limit chunk) prepared)) as (pl & -> & (Hse & Hsa & Hd) & _ & Hc).
  { split_and!; done. }
  rewrite Hd. assert (Hlive : ∀ m : list (string * Z), filter (λ kv, kv.2 ∉ []) m = m).
  { intros m. apply filter_all, Forall_forall. intros kv _. apply not_elem_of_nil. }
  rewrite !Hlive. eexists. split; [done|]. constructor; simpl; [intros e id _; apply Hse| |exact Hsa].
  intros e p (s & -> & Hs)%list_elem_of_fmap Hp Hep. rewrite Forall_forall in Hne.
  destruct (chunks_of_elem (length prepared) (preload_per_query_limit chunk) prepared s) as (b & Hb & Hsb);
    [unfold preload_per_query_limit; lia|lia|done|].
  apply (Hc b (sp_engine_id s) p); auto. by apply list_elem_of_fmap_2.
Qed.

(** ** The loop over payloads *)

(** What an update keeps of a row. *)
Definition row_kept (scan_id : string) (p p' : ProposalRow) : Prop :=
  pp_id p' = pp_id p ∧ pp_scan_id p' = pp_scan_id p ∧ pp_proposal_id p' = pp_proposal_id p ∧
  pp_draft p' = pp_draft p ∧ pp_flushed p' = pp_flushed p ∧ pp_violation_ids p' = pp_violation_ids p ∧
  (pp_draft p = true → pp_status p' = pp_status p) ∧ (pp_scan_id p ≠ scan_id → p' = p).

Definition rows_kept (scan_id : string) (d d' : db) : Prop :=
  ∀ p, p ∈ db_proposals d → ∃ p', p' ∈ db_proposals d' ∧ row_kept scan_id p p'.

Lemma row_kept_refl scan_id p : row_kept scan_id p p.
Proof. by split_and!. Qed.

#[export] Instance rows_kept_trans scan_id : Transitive (rows_kept scan_id).
Proof.
  intros d e f Hde Hef p Hp. destruct (Hde p Hp) as (q & Hq & K1). destruct (Hef q Hq) as (r & Hr & K2).
  exists r. split; [done|]. destruct K1 as (A1 & A2 & A3 & A4 & A5 & A6 & A7 & A8).
  destruct K2 as (B1 & B2 & B3 & B4 & B5 & B6 & B7 & B8). split_and!; [congruence..| |].
  - intros Hdr. rewrite B7, A7; congruence.
  - intros Hs. rewrite B8, A8; congruence.
Qed.

Lemma find_row_spec id d p : find_row id d = Some p → p ∈ db_proposals d ∧ pp_id p = id.
Proof.
  unfold find_row. intros ([i q] & Hf & ->)%fmap_Some. apply list_find_Some in Hf as (Hl & E & _).
  split; [by eapply list_elem_of_lookup_2|done].
Qed.

Lemma find_row_elem d p : keys_ok d → p ∈ db_proposals d → find_row (pp_id p) d = Some p.
Proof.
  intros (Hnd & _ & _) Hp. unfold find_row. destruct (list_find (λ q, pp_id q = pp_id p) (db_proposals d)) as [[i q]|] eqn:E.
  - apply list_find_Some in E as (Hl & E & _). simpl. f_equal.
    apply (key_inj _ q p Hnd); [by eapply list_elem_of_lookup_2|done|done].
  - exfalso. apply list_find_None in E. rewrite Forall_forall in E. by apply (E p Hp).
Qed.

(** The row found for a payload has its engine id, or a blank variant of it while no
    row of the scan has it. *)
Lemma existing_row_spec scan_id es d pl s p :
  keys_ok d → preload_ok scan_id (sp_engine_id s :: es) d pl → existing_row pl s d = Some p →
  p ∈ db_proposals d ∧ pp_scan_id p = scan_id ∧
  (engine_is scan_id (sp_engine_id s) p ∨
   ((∀ q, q ∈ db_proposals d → ¬ engine_is scan_id (sp_engine_id s) q) ∧
    (strip (default "" (pp_engine_id p)) = "" ∨ strip (default "" (pp_engine_id p)) = sp_engine_id s))).
Proof.
  intros Hk Hpl. unfold existing_row. destruct (dget (sp_engine_id s) (pl_by_engine pl)) as [id|] eqn:E.
  - destruct (engine_sound _ _ _ _ Hpl _ _ (list_elem_of_here _ _) E) as (q & Hq & He & <-). rewrite (find_row_elem d q Hk Hq).
    intros [= ->]. destruct He as [Hs He]. split_and!; [done..|]. by left.
  - intros (id & Ha & Hb)%bind_Some. apply bind_Some in Hb as (q & Hf & Hc).
    destruct (archival_sound _ _ _ _ Hpl _ _ Ha) as (q' & Hq' & Hs & <-).
    rewrite (find_row_elem d q' Hk Hq') in Hf. injection Hf as <-.
    case_decide as Hhit; [|done]. injection Hc as <-. split_and!; [done..|]. right. split; [|done].
    intros q Hq Hqe. destruct (engine_complete _ _ _ _ Hpl (sp_engine_id s) q) as [id Hid]; [by left|done..|congruence].
Qed.

Lemma existing_row_none scan_id es d pl s q :
  keys_ok d → preload_ok scan_id (sp_engine_id s :: es) d pl → existing_row pl s d = None →
  q ∈ db_proposals d → ¬ engine_is scan_id (sp_engine_id s) q.
Proof.
  intros Hk Hpl Hn Hq He. destruct (engine_complete _ _ _ _ Hpl (sp_engine_id s) q) as [id Hid]; [by left|done..|].
  unfold existing_row in Hn. rewrite Hid in Hn.
  destruct (engine_sound _ _ _ _ Hpl _ _ (list_elem_of_here _ _) Hid) as (q' & Hq' & _ & <-). by rewrite (find_row_elem d q' Hk Hq') in Hn.
Qed.

(** An engine id as payloads have them. *)
Definition clean_id (e : string) : Prop := strip e = e ∧ e ≠ "".

Lemma prepare_clean raw s : prepare_stub_payload raw = Some s → clean_id (sp_engine_id s).
Proof.
  unfold prepare_stub_payload. case_decide as Hne; [done|]. intros [= <-]. simpl. split; [apply strip_strip|done].
Qed.

Lemma dget_set_default k v m k' x :
  dget k' (set_default k v m) = Some x → dget k' m = Some x ∨ (k' = k ∧ x = v).
Proof.
  unfold set_default. destruct (dget k m) eqn:E; [by left|]. rewrite dget_dset. case_decide; [|by left].
  intros [= <-]. by right.
Qed.

Lemma set_default_keeps k v m k' : is_Some (dget k' m) → is_Some (dget k' (set_default k v m)).
Proof.
  unfold set_default. destruct (dget k m) eqn:E; [done|]. rewrite dget_dset. case_decide; [eauto|done].
Qed.

(** The state between two payloads. *)
Record loop_ok (scan_id : string) (es : list string) (d : db) (pl : preload) : Prop := {
  loop_keys : keys_ok d;
  loop_unique : engines_unique scan_id d;
  loop_preload : preload_ok scan_id es d pl;
}.

Definition has_engine (scan_id e : string) (d : db) : Prop := ∃ p, p ∈ db_proposals d ∧ engine_is scan_id e p.

Lemma insert_stub_ok scan_id es d pl s c :
  loop_ok scan_id (sp_engine_id s :: es) d pl → sp_engine_id s ∉ es → existing_row pl s d = None →
  let d' := add_row (stub_row scan_id s c) d in
  let id := db_next_id d in
  loop_ok scan_id es d'
    (MkPreload (set_default (sp_engine_id s) id (pl_by_engine pl))
       (set_default (sp_archival_id s) id (pl_by_archival pl)) (pl_discarded pl)) ∧
  rows_kept scan_id d d' ∧ has_engine scan_id (sp_engine_id s) d' ∧
  (∀ e, has_engine scan_id e d → has_engine scan_id e d').
Proof.
  intros [Hk Hu Hpl] Hes Hnone d' id. pose proof (existing_row_none scan_id es d pl s) as Hno.
  assert (Hin : ∀ p, p ∈ db_proposals d' ↔ p ∈ db_proposals d ∨ p = stub_row scan_id s c id).
  { intros p. simpl. by rewrite elem_of_app, list_elem_of_singleton. }
  split; [constructor|split_and!].
  - apply (perform_keys d (Insert (stub_row scan_id s c))); done.
  - intros e p q [Hp| ->]%Hin [Hq| ->]%Hin Ep Eq; [by eapply Hu| | |done].
    + destruct Eq as [_ [= <-]]. by destruct (Hno p Hk Hpl Hnone Hp).
    + destruct Ep as [_ [= <-]]. by destruct (Hno q Hk Hpl Hnone Hq).
  - constructor; simpl.
    + intros e i He [Hi|[-> ->]]%dget_set_default; [|done].
      destruct (engine_sound _ _ _ _ Hpl e i) as (p & Hp & ? & ?); [by right|done|]. exists p. rewrite elem_of_app. eauto.
    + intros e p He Hp Hep. apply set_default_keeps. apply Hin in Hp as [Hp| ->].
      * apply (engine_complete _ _ _ _ Hpl e p); [by right|done..].
      * destruct Hep as [_ [= <-]]. done.
    + intros a i [Hi|[-> ->]]%dget_set_default.
      * destruct (archival_sound _ _ _ _ Hpl a i Hi) as (p & Hp & ? & ?). exists p. rewrite elem_of_app. eauto.
      * exists (stub_row scan_id s c id). rewrite elem_of_app, list_elem_of_singleton. auto.
  - intros p Hp. exists p. split; [apply Hin; by left|apply row_kept_refl].
  - exists (stub_row scan_id s c id). split; [apply Hin; by right|done].
  - intros e (p & Hp & He). exists p. split; [apply Hin; by left|done].
Qed.

Lemma refresh_row_kept scan_id s c p : pp_scan_id p = scan_id → row_kept scan_id p (refresh_row s c p).
Proof. intros Hs. split_and!; try done. intros Hd. simpl. by rewrite Hd. Qed.

Lemma refresh_stub_ok scan_id es d pl s c p :
  loop_ok scan_id (sp_engine_id s :: es) d pl → sp_engine_id s ∉ es → Forall clean_id (sp_engine_id s :: es) →
  existing_row pl s d = Some p →
  let d' := put_proposals (update_where (λ q, (pp_id q =? pp_id p)%Z) (refresh_row s c) (db_proposals d)) d in
  loop_ok scan_id es d' pl ∧ rows_kept scan_id d d' ∧ has_engine scan_id (sp_engine_id s) d' ∧
  (∀ e, clean_id e → has_engine scan_id e d → has_engine scan_id e d').
Proof.
  intros [Hk Hu Hpl] Hes Hclean Hex d'. destruct (existing_row_spec scan_id es d pl s p Hk Hpl Hex) as (Hp & Hps & Hcase).
  pose proof Hk as (Hnd & _ & _).
  assert (Hnew : refresh_row s c p ∈ db_proposals d').
  { apply elem_update_where. exists p. by rewrite Z.eqb_refl. }
  assert (Hold : ∀ q, q ∈ db_proposals d → q ≠ p → q ∈ db_proposals d').
  { intros q Hq Hne. apply elem_update_where. exists q. split; [done|].
    destruct (Z.eqb_spec (pp_id q) (pp_id p)) as [E|E]; [|done]. by destruct Hne; apply (key_inj _ q p Hnd). }
  assert (Hin : ∀ q, q ∈ db_proposals d' → q = refresh_row s c p ∨ (q ∈ db_proposals d ∧ q ≠ p)).
  { intros q (x & Hx & ->)%elem_update_where. destruct (Z.eqb_spec (pp_id x) (pp_id p)) as [E|E].
    - rewrite (key_inj _ x p Hnd) by done. by left.
    - right. split; [done|congruence]. }
  assert (Hother : ∀ q, q ∈ db_proposals d → engine_is scan_id (sp_engine_id s) q → q = p).
  { intros q Hq Heq. destruct Hcase as [Hep|[Hno _]]; [by eapply Hu|by destruct (Hno q Hq)]. }
  assert (Hsame : ∀ e, clean_id e → engine_is scan_id e p → e = sp_engine_id s).
  { intros e [Hs Hne] [_ He]. destruct Hcase as [[_ E]|[_ [E|E]]]; [congruence|..]; rewrite He in E; simpl in E; congruence. }
  split; [constructor|split_and!].
  - by eapply (update_keys_ok (λ q, (pp_id q =? pp_id p)%Z) (refresh_row s c) d).
  - intros e q r [->|[Hq Hqp]]%Hin [->|[Hr Hrp]]%Hin Eq Er; [done| | |by eapply Hu].
    + destruct Eq as [_ [= <-]]. by destruct Hrp; apply Hother.
    + destruct Er as [_ [= <-]]. by destruct Hqp; apply Hother.
  - constructor.
    + intros e i He Hi. destruct (engine_sound _ _ _ _ Hpl e i) as (q & Hq & Heq & Hqi); [by right|done|].
      destruct (decide (pp_id q = pp_id p)) as [E|E].
      * assert (q = p) as -> by by apply (key_inj _ q p Hnd). exfalso. apply Hes.
        rewrite <- (Hsame e); [done| |done]. rewrite Forall_forall in Hclean. apply Hclean. by right.
      * exists q. split_and!; [|done..]. apply Hold; [done|congruence].
    + intros e q He [->|[Hq _]]%Hin Heq.
      * destruct Heq as [_ [= <-]]. done.
      * apply (engine_complete _ _ _ _ Hpl e q); [by right|done..].
    + intros a i Hi. destruct (archival_sound _ _ _ _ Hpl a i Hi) as (q & Hq & Hqs & Hqi).
      destruct (decide (pp_id q = pp_id p)) as [E|E].
      * exists (refresh_row s c p). split_and!; [done..|]. simpl. congruence.
      * exists q. split_and!; [|done..]. apply Hold; [done|congruence].
  - intros q Hq. destruct (decide (pp_id q = pp_id p)) as [E|E].
    + assert (q = p) as -> by by apply (key_inj _ q p Hnd). exists (refresh_row s c p).
      split; [done|by apply refresh_row_kept].
    + exists q. split; [apply Hold; [done|congruence]|apply row_kept_refl].
  - exists (refresh_row s c p). by split; [|split].
  - intros e He (q & Hq & Heq). destruct (decide (pp_id q = pp_id p)) as [E|E].
    + assert (q = p) as -> by by apply (key_inj _ q p Hnd). rewrite (Hsame e He Heq).
      exists (refresh_row s c p). by split; [|split].
    + exists q. split; [|done]. apply Hold; [done|congruence].
Qed.

Lemma upsert_stub_ok scan_id es d pl out s d' pl' out' :
  loop_ok scan_id (sp_engine_id s :: es) d pl → sp_engine_id s ∉ es → Forall clean_id (sp_engine_id s :: es) →
  upsert_stub scan_id (d, pl, out) s = Some (d', pl', out') →
  loop_ok scan_id es d' pl' ∧ rows_kept scan_id d d' ∧ has_engine scan_id (sp_engine_id s) d' ∧
  (∀ e, clean_id e → has_engine scan_id e d → has_engine scan_id e d') ∧ db_analytics d' = db_analytics d.
Proof.
  intros Hl Hes Hc Hu. unfold upsert_stub in Hu. destruct (existing_row pl s d) as [p|] eqn:Hex;
    apply bind_Some in Hu as (c & _ & Hu); injection Hu as <- <- _.
  - destruct (refresh_stub_ok scan_id es d pl s c p Hl Hes Hc Hex) as (? & ? & ? & ?). split_and!; auto.
  - destruct (insert_stub_ok scan_id es d pl s c Hl Hes Hex) as (? & ? & ? & ?). split_and!; auto.
Qed.

Lemma upsert_stubs_ok scan_id l d pl out d' pl' out' :
  loop_ok scan_id (sp_engine_id <$> l) d pl → NoDup (sp_engine_id <$> l) → Forall clean_id (sp_engine_id <$> l) →
  upsert_stubs scan_id (d, pl, out) l = Some (d', pl', out') →
  keys_ok d' ∧ engines_unique scan_id d' ∧ rows_kept scan_id d d' ∧
  (∀ s, s ∈ l → has_engine scan_id (sp_engine_id s) d') ∧
  (∀ e, clean_id e → has_engine scan_id e d → has_engine scan_id e d') ∧ db_analytics d' = db_analytics d.
Proof.
  revert d pl out. induction l as [|s l IH]; intros d pl out Hl Hnd Hc Hu; simpl in Hu.
  { injection Hu as <- <- <-. destruct Hl as [Hk Hun _]. split_and!; [done|done| | |done|done].
    - intros p Hp. exists p. split; [done|apply row_kept_refl].
    - by intros s ?%elem_of_nil. }
  apply bind_Some in Hu as ([[d1 pl1] out1] & Hs & Hu). csimpl in *.
  pose proof Hnd as [Hnin Hnd']%NoDup_cons. pose proof Hc as [Hcs Hcl]%Forall_cons.
  destruct (upsert_stub_ok scan_id (sp_engine_id <$> l) d pl out s d1 pl1 out1 Hl Hnin Hc Hs)
    as (Hl1 & Hk1 & He1 & Hm1 & Ha1).
  destruct (IH d1 pl1 out1 Hl1 Hnd' Hcl Hu) as (Hk & Hun & Hk2 & He2 & Hm2 & Ha2).
  split_and!; [done..|by etrans| |eauto|congruence].
  intros s' [->|Hs']%elem_of_cons; [by apply Hm2|by apply He2].
Qed.

Lemma ensure_scan_tables scan_id project scan_type d :
  db_proposals (ensure_scan_row scan_id project scan_type d) = db_proposals d ∧
  db_next_id (ensure_scan_row scan_id project scan_type d) = db_next_id d ∧
  db_analytics (ensure_scan_row scan_id project scan_type d) = db_analytics d.
Proof. unfold ensure_scan_row. destruct (list_find _ _) as [[i s]|]; [|done]. by destruct (_ && _). Qed.

(** ** Abandoned drafts *)

Lemma abandon_rows project extras d :
  let linked := scans_of project d in
  ∀ p, p ∈ db_proposals (abandon_project_drafts project extras d).1 →
    (pp_scan_id p ∈ extras → pp_scan_id p ≠ "" → pp_scan_id p ∈ linked) ∧
    ∃ q, q ∈ db_proposals d ∧
      p = if bool_decide (pp_scan_id q ∈ linked) && pp_draft q then row_set_status "pending" false q else q.
Proof.
  intros linked. unfold abandon_project_drafts. fold linked.
  set (sel := λ p, bool_decide (pp_scan_id p ∈ linked) && pp_draft p).
  set (d1 := put_proposals _ d). set (n := count_where _ _).
  assert (Hg : ∀ es dn p,
    p ∈ db_proposals (foldl (λ dn sid, if decide (sid ∈ linked) then dn
           else (put_proposals (delete_where (λ p, bool_decide (pp_scan_id p = sid)) (db_proposals dn.1)) dn.1,
                 (dn.2 + count_where (λ p, bool_decide (pp_scan_id p = sid)) (db_proposals dn.1))%nat)) dn es).1 →
    p ∈ db_proposals dn.1 ∧ (pp_scan_id p ∈ es → pp_scan_id p ∈ linked)).
  { induction es as [|sid es IH]; intros dn p Hp; cbn [foldl] in Hp.
    - split; [done|]. by intros ?%elem_of_nil.
    - apply IH in Hp as [Hp He]. case_decide as Hs.
      + split; [done|]. intros [->|?]%elem_of_cons; [done|auto].
      + simpl in Hp. apply elem_delete_where in Hp as [Hp Hne%bool_decide_eq_false]. split; [done|].
        intros [?|?]%elem_of_cons; [done|auto]. }
  intros p Hp. apply Hg in Hp as [Hp He]. split.
  - intros Hx Hne. apply He. by apply list_elem_of_filter.
  - simpl in Hp. apply elem_update_where in Hp as (q & Hq & ->). by exists q.
Qed.

(** ** Properties *)

(** Re-emitted proposals disturb nothing.  When the rows of the scan have distinct
    engine and gateway ids and the batch offers distinct engine ids, storing it leaves
    every row in place with its identity, draft and counted flags and violations; a row
    that is being edited keeps its status; rows of other scans and the analytics do not
    change; and afterwards every offered proposal has exactly one row. *)
Theorem stub_upsert_exact chunk scan_id project raws d d' out :
  keys_ok d → engines_unique scan_id d → archivals_unique scan_id d →
  NoDup (sp_engine_id <$> omap prepare_stub_payload raws) →
  upsert_live_proposal_stubs chunk scan_id project raws d = Some (d', out) →
  rows_kept scan_id d d' ∧ db_analytics d' = db_analytics d ∧ db_violations d' = db_violations d ∧
  ∀ raw s, raw ∈ raws → prepare_stub_payload raw = Some s →
    ∃ p, p ∈ db_proposals d' ∧ engine_is scan_id (sp_engine_id s) p ∧
      ∀ q, q ∈ db_proposals d' → engine_is scan_id (sp_engine_id s) q → q = p.
Proof.
  intros Hk He Ha Hnd Hu. pose proof (upsert_violations _ _ _ _ _ _ _ Hu) as Hv.
  unfold upsert_live_proposal_stubs in Hu.
  destruct (ensure_scan_tables scan_id project "remediate" d) as (Hp0 & Hn0 & Ha0).
  set (d0 := ensure_scan_row scan_id project "remediate" d) in *.
  assert (Hc : Forall clean_id (sp_engine_id <$> omap prepare_stub_payload raws)).
  { apply Forall_fmap, Forall_forall. intros s (raw & _ & Hs)%list_elem_of_omap. by eapply prepare_clean. }
  destruct (preload_rows_ok scan_id chunk (omap prepare_stub_payload raws) d0) as (pl & Epl & Hpl).
  { unfold keys_ok. by rewrite Hp0, Hn0. }
  { unfold engines_unique. by rewrite Hp0. }
  { unfold archivals_unique. by rewrite Hp0. }
  { rewrite Forall_fmap, Forall_forall in Hc. apply Forall_forall. intros s Hs. apply (Hc s Hs). }
  rewrite Epl in Hu. apply bind_Some in Hu as ([[d2 pl2] out2] & Hu & E). injection E as <- <-. simpl.
  apply upsert_stubs_ok in Hu as (Hk2 & Hu2 & Hkept & Hhas & _ & Ha2); [| |done|done].
  2: { constructor; [unfold keys_ok; by rewrite Hp0, Hn0|unfold engines_unique; by rewrite Hp0|done]. }
  split_and!; [|congruence|done|].
  - intros p Hp. apply Hkept. by rewrite Hp0.
  - intros raw s Hr Hs. destruct (Hhas s) as (p & Hp & Hpe); [apply list_elem_of_omap; eauto|].
    exists p. split_and!; [done..|]. intros q Hq Hqe. by eapply Hu2.
Qed.

(** Abandoning drafts leaves no trace of them: afterwards neither the project nor
    the extra scans have a draft, and the rows that were drafts of the project count
    nothing when they are flushed, whatever the user had ticked. *)
Theorem abandon_leaves_no_draft project extras d :
  let d' := (abandon_project_drafts project extras d).1 in
  project_has_draft_proposals project extras d' = false ∧
  ∀ p q, p ∈ db_proposals d' → q ∈ db_proposals d → NoDup (pp_id <$> db_proposals d) →
    pp_id p = pp_id q → pp_scan_id q ∈ scans_of project d → pp_draft q = true → row_increments p = [].
Proof.
  intros d'. pose proof (abandon_rows project extras d) as Hr. cbv zeta in Hr. fold d' in Hr.
  assert (Hs : scans_of project d' = scans_of project d).
  { unfold d', abandon_project_drafts.
    match goal with |- context [(foldl ?f ?x _).1] =>
      assert (Hg : ∀ es y, db_scans (foldl f y es).1 = db_scans y.1) end.
    { intros es. induction es as [|s es IH]; intros y; [done|]. cbn [foldl]. rewrite IH. by case_decide. }
    unfold scans_of. by rewrite Hg. }
  split.
  - unfold project_has_draft_proposals. rewrite Hs. apply not_true_iff_false. rewrite existsb_exists.
    intros (p & Hp%list_elem_of_In & [Hscan Hdraft]%andb_prop). destruct (Hr p Hp) as (Hx & q & Hq & E).
    assert (Hin : pp_scan_id p ∈ scans_of project d).
    { apply orb_prop in Hscan as [H%bool_decide_eq_true|H%bool_decide_eq_true]; [done|].
      apply list_elem_of_filter in H as [Hne H]. auto. }
    destruct (bool_decide (pp_scan_id q ∈ scans_of project d) && pp_draft q) eqn:Eq; [by subst p|].
    subst q. apply andb_false_iff in Eq as [Eq%bool_decide_eq_false|Eq]; congruence.
  - intros p q Hp Hq Hnd Eid Hscan Hdraft. destruct (Hr p Hp) as (_ & q' & Hq' & ->).
    assert (q' = q) as ->; [apply (key_inj _ q' q Hnd); [done..|]; by destruct (_ && _)|].
    rewrite bool_decide_eq_true_2, Hdraft by done. simpl. unfold row_increments, analytics_increments, increment_rows. simpl.
    done.
Qed.

Module LiveDemo.
(** The two offers of [StoreDemo] again, after the user ticked the first. *)
Definition edited : db :=
  (apply_draft_updates "scan1" [[("proposal_id", YStr "e1"); ("status", YStr "approved")]] StoreDemo.with_stubs).1.

Definition reemit : list YAMLDict := [StoreDemo.offer "e2" 9; StoreDemo.offer "e1" 6; StoreDemo.offer "e3" 4].

#[local] Notation reemitted := (upsert_live_proposal_stubs 900 "scan1" (Some "p1") reemit edited).

Lemma edited_rows :
  ∃ p q, db_proposals edited = [p; q] ∧ pp_engine_id p = Some "e1" ∧ pp_engine_id q = Some "e2" ∧
    pp_proposal_id p ≠ pp_proposal_id q.
Proof.
  do 2 eexists. split; [vm_compute; reflexivity|]. split_and!; [reflexivity..|]. simpl. discriminate.
Qed.

Lemma pair_elem {A} (p q x : A) : x ∈ [p; q] → x = p ∨ x = q.
Proof. rewrite !elem_of_cons, elem_of_nil. tauto. Qed.

Lemma edited_unique : engines_unique "scan1" edited ∧ archivals_unique "scan1" edited.
Proof.
  destruct edited_rows as (p & q & E & Ep & Eq & Hne). unfold engines_unique, archivals_unique. rewrite E. split.
  - intros e x y [->| ->]%pair_elem [->| ->]%pair_elem [_ H1] [_ H2]; congruence.
  - intros x y [->| ->]%pair_elem [->| ->]%pair_elem _ _ H1; congruence.
Qed.

Lemma stub_upsert_exact_witness :
  match reemitted with
  | Some (d', out) => rows_kept "scan1" edited d' ∧ out = [2; 1; 3]%Z
  | None => False
  end.
Proof.
  assert (Hsome : snd <$> reemitted = Some [2; 1; 3]%Z) by (vm_compute; reflexivity).
  pose proof (λ d' out, stub_upsert_exact 900 "scan1" (Some "p1") reemit edited d' out) as Hex.
  revert Hsome Hex. generalize reemitted. intros [[d' out]|] Hsome Hex; [|discriminate].
  injection Hsome as Hsome. split; [|exact Hsome].
  apply (Hex d' out); [|exact (proj1 edited_unique)|exact (proj2 edited_unique)| |reflexivity].
  - split_and!; apply (bool_decide_unpack _); vm_compute; exact I.
  - apply (bool_decide_unpack _). vm_compute. exact I.
Defined.

Lemma abandon_leaves_no_draft_witness :
  project_has_draft_proposals "p1" [] edited = true ∧
  project_has_draft_proposals "p1" [] (abandon_project_drafts "p1" [] edited).1 = false.
Proof. split; [vm_compute; reflexivity|]. apply (abandon_leaves_no_draft "p1" [] edited). Defined.
End LiveDemo.
