(* ===== verification/Suppressions.v ===== *)
(** * Violation suppressions

    Fingerprints ([src/apme_engine/fingerprint.py]), the suppressions file
    ([cli/_suppressions.py]) and the [suppress] command ([cli/suppress_cmd.py]).

    ruamel.yaml and PyYAML are not part of the repository: documents with comments are
    [rdoc], loading and dumping them is the class [RtYaml]; the data of the suppressions
    file is [sdata], its text form the class [SafeYaml].  [unicodedata.normalize("NFC")] is
    the identity on the modelled characters. *)

From stdpp Require Import base list gmap strings pretty.
From Stdlib Require Import Ascii String.
From S2P Require Import Prelude PyStr Sha256 PyPath Violation.

#[local] Open Scope string_scope.
#[local] Notation length := List.length.
#[local] Notation concat := List.concat.

(** ** Fingerprints *)

Definition LEGACY_PREFIXES : list string := ["native:"; "opa:"; "ansible:"; "gitleaks:"].

(** [canonicalize_rule_id] *)
Definition canonicalize_rule_id (raw_id : string) : string :=
  let s := strip raw_id in
  match find (startswith s) LEGACY_PREFIXES with
  | Some p => sdrop (String.length p) s
  | None => s
  end.

(** A round-trip document: scalars [S], comment tokens [C]; [comment] is [ca.comment] and
    [items] is [ca.items]. *)
Inductive rdoc {S C : Type} :=
| RScalar (x : S)
| RMap (comment : option C) (items : list (string * list (option C))) (entries : list (string * rdoc))
| RSeq (comment : option C) (items : list (Z * list (option C))) (elems : list rdoc).
Arguments rdoc : clear implicits.

Definition clear_items {K C} (items : list (K * list (option C))) : list (K * list (option C)) :=
  (λ p, (p.1, [None; None; None; None])) <$> items.

(** [_strip_comments] *)
Fixpoint strip_comments {S C} (d : rdoc S C) : rdoc S C :=
  match d with
  | RScalar x => RScalar x
  | RMap _ items es => RMap None (clear_items items) ((λ p, (p.1, strip_comments p.2)) <$> es)
  | RSeq _ items es => RSeq None (clear_items items) (strip_comments <$> es)
  end.

(** What [yaml.load] gives. *)
Inductive loaded {D : Type} := LoadRaised | LoadedNone | Loaded (d : D).
Arguments loaded : clear implicits.

Class RtYaml (S C : Type) := {
  fp_load : string → loaded (rdoc S C);
  fp_dump : rdoc S C → option string;       (* None: an exception *)
}.

(** [text.replace("\r\n", "\n")] *)
Fixpoint crlf_to_lf (s : string) : string :=
  match s with
  | String c (String d s' as r) =>
    if decide (c = CR ∧ d = LF) then String LF (crlf_to_lf s') else String c (crlf_to_lf r)
  | _ => s
  end.

(** Runs of at least three line feeds become two: [n] is the length of the run so far. *)
Fixpoint collapse_blank (n : nat) (s : string) : string :=
  match s with
  | "" => ""
  | String c s' =>
    if decide (c = LF) then
      if (n <? 2)%nat then String LF (collapse_blank (S n) s') else collapse_blank (S n) s'
    else String c (collapse_blank 0 s')
  end.

(** [_fallback_normalize] *)
Definition fallback_normalize (text : string) : string :=
  let lines := rstrip <$> filter (λ l, startswith l "#" = false) (split_on LF text) in
  strip (collapse_blank 0 (sjoin (String LF "") lines)).

Definition lf_text (text : string) : string := sreplace CR LF (crlf_to_lf text).

(** Modes of a fingerprint, by value. *)
Definition MODE_FULL : string := "full".
Definition MODE_RULE_MODULE : string := "rule_module".
Definition MODE_RULE_ONLY : string := "rule_only".
Definition VALID_MODES : list string := [MODE_FULL; MODE_RULE_MODULE; MODE_RULE_ONLY].

Definition NULc : ascii := zero.

Section Fingerprint.
Context {S C : Type} `{RtYaml S C}.

(** [normalize_yaml] *)
Definition normalize_yaml (text : string) : string :=
  if decide (strip text = "") then ""
  else
    let text := lf_text text in
    match fp_load text with
    | LoadRaised => fallback_normalize text
    | LoadedNone => ""
    | Loaded data =>
      match fp_dump (strip_comments data) with
      | None => fallback_normalize text
      | Some result => strip (collapse_blank 0 (crlf_to_lf result))
      end
    end.

(** The text that is hashed; [None] is the [ValueError]. *)
Definition fingerprint_payload (rule_id original_yaml mode module_fqcn : string) : option string :=
  let canonical_id := canonicalize_rule_id rule_id in
  if decide (mode = MODE_FULL) then Some (canonical_id +:+ String NULc (normalize_yaml original_yaml))
  else if decide (mode = MODE_RULE_MODULE) then
    if decide (module_fqcn = "") then None else Some (canonical_id +:+ String NULc module_fqcn)
  else if decide (mode = MODE_RULE_ONLY) then Some (canonical_id +:+ String NULc "")
  else None.

(** [compute_fingerprint] *)
Definition compute_fingerprint (rule_id original_yaml mode module_fqcn : string) : option string :=
  sha256_hex <$> fingerprint_payload rule_id original_yaml mode module_fqcn.

(** ** Applying suppressions *)

Record Suppression := MkSuppression {
  sp_fingerprint : string;
  sp_rule_id : string;
  sp_mode : string;
  sp_reason : string;
  sp_created : string;
}.

Definition v_yaml (v : ViolationDict) : string := vget_or "original_yaml" v.

(** [v.get("module_fqcn") or v.get("resolved_fqcn") or ...] *)
Definition v_module (v : ViolationDict) : string :=
  let first := find (λ k, match dget k v with Some x => truthy x | None => false end)
                 ["module_fqcn"; "resolved_fqcn"; "original_module"; "fqcn"] in
  match first with Some k => vget_or k v | None => "" end.

Definition index_of (mode : string) (ss : list Suppression) : gset string :=
  list_to_set (sp_fingerprint <$> filter (λ s, sp_mode s = mode) ss).

Definition is_enforced (enforced : gset string) (v : ViolationDict) : bool :=
  bool_decide (canonicalize_rule_id (vget_str "rule_id" v) ∈ enforced)
  || bool_decide (vget_str "rule_id" v ∈ enforced).

(** Membership of a fingerprint in an index; the index is not consulted when empty. *)
Definition hit (index : gset string) (fp : option string) : bool :=
  negb (bool_decide (index = ∅)) && match fp with Some f => bool_decide (f ∈ index) | None => false end.

Definition is_suppressed (ss : list Suppression) (v : ViolationDict) : bool :=
  let rule_id := vget_str "rule_id" v in
  hit (index_of MODE_RULE_ONLY ss) (compute_fingerprint rule_id (v_yaml v) MODE_RULE_ONLY "")
  || (negb (bool_decide (v_module v = "")) &&
      hit (index_of MODE_RULE_MODULE ss)
        (compute_fingerprint rule_id (v_yaml v) MODE_RULE_MODULE (v_module v)))
  || hit (index_of MODE_FULL ss) (compute_fingerprint rule_id (v_yaml v) MODE_FULL "").

(** [apply_suppressions]: the active and the suppressed violations. *)
Definition apply_suppressions (vs : list ViolationDict) (ss : list Suppression) (enforced : gset string)
    : list ViolationDict * list ViolationDict :=
  match ss with
  | [] => (vs, [])
  | _ =>
    foldl (λ acc v,
      if is_enforced enforced v then (acc.1 ++ [v], acc.2)%list
      else if is_suppressed ss v then (acc.1, acc.2 ++ [v])%list else (acc.1 ++ [v], acc.2)%list)
      ([], []) vs
  end.
End Fingerprint.

(** ** The suppressions file *)

(** What [yaml.safe_load] gives: a date is its [isoformat]. *)
Inductive sdata :=
| SNull | SBool (b : bool) | SInt (z : Z) | SFloat (repr : string) | SStr (s : string)
| SDate (iso : string) | SList (l : list sdata) | SDict (d : list (string * sdata)).

Class SafeYaml := {
  sy_load : string → option sdata;     (* None: YAMLError *)
  sy_dump : sdata → string;
}.

Inductive file_state := FMissing | FUnreadable | FText (text : string).

Inductive load_warning :=
| WUnreadable | WUnparsable | WNotMapping | WVersion | WNotList
| WEntry (i : nat) | WNoFingerprint (i : nat) | WBadFingerprint (i : nat) | WNoRuleId (i : nat)
| WBadMode (i : nat).

Definition HEX : string := "0123456789abcdef".

Definition is_hex (c : ascii) : bool := negb (sforall (λ d, negb (Ascii.eqb d c)) HEX).

Definition valid_fingerprint (fp : string) : bool :=
  (String.length fp =? 64)%nat && sforall is_hex fp.

Definition sget_str (k : string) (d : list (string * sdata)) : option string :=
  match dget k d with Some (SStr s) => Some s | _ => None end.

(** One entry of the list: the suppression, if any, and the warnings. *)
Definition load_entry (i : nat) (entry : sdata) : option Suppression * list load_warning :=
  match entry with
  | SDict d =>
    match sget_str "fingerprint" d with
    | None | Some "" => (None, [WNoFingerprint i])
    | Some raw_fp =>
      let fp := slower (strip raw_fp) in
      if negb (valid_fingerprint fp) then (None, [WBadFingerprint i])
      else
        let rule_id := match sget_str "rule_id" d with Some r => strip r | None => "" end in
        if decide (rule_id = "") then (None, [WNoRuleId i])
        else
          let raw_mode := default MODE_FULL (sget_str "mode" d) in
          let '(mode, ws) :=
            if decide (raw_mode ∈ VALID_MODES) then (raw_mode, []) else (MODE_FULL, [WBadMode i]) in
          let created :=
            match dget "created" d with Some (SStr s) => s | Some (SDate iso) => iso | _ => "" end in
          (Some (MkSuppression fp rule_id mode (default "" (sget_str "reason" d)) created), ws)
    end
  | _ => (None, [WEntry i])
  end.

Fixpoint load_entries (i : nat) (entries : list sdata) : list Suppression * list load_warning :=
  match entries with
  | [] => ([], [])
  | e :: es =>
    let '(s, ws) := load_entry i e in
    let '(ss, ws') := load_entries (S i) es in
    (match s with Some s => s :: ss | None => ss end, ws ++ ws')%list
  end.

(** [version != 1], for a version that is present *)
Definition version_is_1 (x : sdata) : bool :=
  match x with
  | SInt z => (z =? 1)%Z
  | SBool b => b
  | SFloat r => String.eqb r "1.0"
  | _ => false
  end.

Definition load_data (data : sdata) : list Suppression * list load_warning :=
  match data with
  | SNull => ([], [])
  | SDict d =>
    let version_ok := match dget "version" d with None | Some SNull => true | Some x => version_is_1 x end in
    if negb version_ok then ([], [WVersion])
    else
      match dget "suppressions" d with
      | None | Some SNull => ([], [])
      | Some (SList entries) => load_entries 0 entries
      | Some _ => ([], [WNotList])
      end
  | _ => ([], [WNotMapping])
  end.

Section File.
Context `{SafeYaml}.

(** [load_suppressions] *)
Definition load_suppressions (f : file_state) : list Suppression * list load_warning :=
  match f with
  | FMissing => ([], [])
  | FUnreadable => ([], [WUnreadable])
  | FText t =>
    match sy_load t with
    | None => ([], [WUnparsable])
    | Some data => load_data data
    end
  end.

Definition entry_dict (s : Suppression) : list (string * sdata) :=
  ([("fingerprint", SStr (sp_fingerprint s)); ("rule_id", SStr (sp_rule_id s))]
    ++ (if decide (sp_mode s = MODE_FULL) then [] else [("mode", SStr (sp_mode s))])
    ++ (if decide (sp_reason s = "") then [] else [("reason", SStr (sp_reason s))])
    ++ (if decide (sp_created s = "") then [] else [("created", SStr (sp_created s))]))%list.

Definition entry_data (s : Suppression) : sdata := SDict (entry_dict s).

Definition suppressions_data (ss : list Suppression) : sdata :=
  SDict [("version", SInt 1); ("suppressions", SList (entry_data <$> ss))].

(** [write_suppressions] *)
Definition write_suppressions (ss : list Suppression) : file_state := FText (sy_dump (suppressions_data ss)).

(** ** The command *)

Inductive suppress_result := Added | AlreadyExists | UsageError | Removed | NotFound | Ambiguous.

(** [_suppress_add]: the arguments, the date, and the file. *)
Definition suppress_add {S C} `{RtYaml S C} (rule_id_arg mode reason original_yaml module_fqcn : string)
    (fingerprint_arg : option string) (today : string) (f : file_state) : file_state * suppress_result :=
  let rule_id := canonicalize_rule_id rule_id_arg in
  let fp :=
    match fingerprint_arg with
    | Some a => if decide (a = "") then compute_fingerprint rule_id original_yaml mode module_fqcn
                else let a := slower (strip a) in if valid_fingerprint a then Some a else None
    | None => compute_fingerprint rule_id original_yaml mode module_fqcn
    end in
  let given := match fingerprint_arg with Some a => negb (bool_decide (a = "")) | None => false end in
  if negb given && ((bool_decide (mode = MODE_FULL) && bool_decide (original_yaml = ""))
                    || (bool_decide (mode = MODE_RULE_MODULE) && bool_decide (module_fqcn = "")))
  then (f, UsageError)
  else
    match fp with
    | None => (f, UsageError)
    | Some fp =>
      let existing := (load_suppressions f).1 in
      if existsb (λ s, bool_decide (sp_fingerprint s = fp)) existing then (f, AlreadyExists)
      else (write_suppressions (existing ++ [MkSuppression fp rule_id mode reason today])%list, Added)
    end.

(** [_suppress_remove] *)
Definition suppress_remove (fingerprint_arg : string) (f : file_state) : file_state * suppress_result :=
  let ss := (load_suppressions f).1 in
  let fp_prefix := slower (strip fingerprint_arg) in
  match filter (λ s, startswith (sp_fingerprint s) fp_prefix = true) ss with
  | [] => (f, NotFound)
  | [m] => (write_suppressions (filter (λ s, sp_fingerprint s ≠ sp_fingerprint m) ss), Removed)
  | _ => (f, Ambiguous)
  end.
End File.

(** ** Digests *)

Lemma sha_round_length st kw : length st = 8 → length (sha_round st kw) = 8.
Proof. intros Hl. do 9 (destruct st; try done). Qed.

Lemma compress_length st block : length st = 8 → length (compress st block) = 8.
Proof.
  intros Hl. unfold compress. rewrite length_zip_with, Hl.
  assert (∀ kws st, length st = 8 → length (foldl sha_round st kws) = 8) as Hf.
  { induction kws as [|kw kws IH]; intros st' Hs; simpl; [done|]. by apply IH, sha_round_length. }
  by rewrite Hf.
Qed.

Lemma sha256_words_length m : length (sha256_words m) = 8.
Proof.
  unfold sha256_words. generalize (length (words (pad m)) / 16), (words (pad m)). intros n ws.
  assert (∀ n st ws, length st = 8 → length (blocks n st ws) = 8) as Hb.
  { induction n0 as [|n0 IH]; intros st ws' Hs; simpl; [done|]. by apply IH, compress_length. }
  by apply Hb.
Qed.

Lemma hex_digit_is_hex x : is_hex (hex_digit (Z.land x 0xF)) = true.
Proof.
  change 0xF%Z with (Z.ones 4). rewrite Z.land_ones by lia.
  assert (0 <= x mod 2 ^ 4 < 16)%Z as Hr by (apply Z.mod_pos_bound; lia).
  assert (∀ n, (n < 16)%nat → is_hex (hex_digit (Z.of_nat n)) = true) as Hn.
  { intros n Hn. do 16 (destruct n as [|n]; [reflexivity|]). lia. }
  rewrite <- (Z2Nat.id (x mod 2 ^ 4)) by lia. apply Hn. lia.
Qed.

Lemma hex_valid n z : String.length (hex n z) = n ∧ sforall is_hex (hex n z) = true.
Proof.
  revert z. induction n as [|n IH]; intros z; [done|]. cbn [hex String.length sforall].
  destruct (IH z) as [-> ->]. by rewrite hex_digit_is_hex.
Qed.

Lemma slength_app a b : String.length (a +:+ b) = String.length a + String.length b.
Proof. induction a as [|c a IH]; simpl; [done|]. by rewrite IH. Qed.

Lemma sha256_hex_valid t : valid_fingerprint (sha256_hex t) = true.
Proof.
  unfold valid_fingerprint, sha256_hex.
  assert (∀ ws, String.length (sconcat (hex 8 <$> ws)) = 8 * length ws ∧
                sforall is_hex (sconcat (hex 8 <$> ws)) = true) as Hw.
  { induction ws as [|w ws [IH1 IH2]]; [done|]. rewrite fmap_cons.
    change (sconcat (hex 8 w :: ?l)) with (hex 8 w +:+ sconcat l).
    rewrite slength_app, sforall_app, IH1, IH2. destruct (hex_valid 8 w) as [-> ->].
    split; [cbn [length]; lia|done]. }
  destruct (Hw (sha256_words (utf8 t))) as [-> ->]. by rewrite sha256_words_length.
Qed.

Lemma compute_fingerprint_valid {S C} `{RtYaml S C} r y m q fp :
  compute_fingerprint r y m q = Some fp → valid_fingerprint fp = true.
Proof.
  unfold compute_fingerprint. intros (t & _ & ->)%fmap_Some. apply sha256_hex_valid.
Qed.

(** A valid fingerprint is not changed by [strip().lower()]. *)
Lemma is_hex_chars c : is_hex c = true → is_space c = false ∧ lower_ascii c = c.
Proof.
  assert (∀ c, negb (is_hex c) || (negb (is_space c) && bool_decide (lower_ascii c = c)) = true) as Ha.
  { apply ascii_all. vm_compute. reflexivity. }
  intros Hc. specialize (Ha c). rewrite Hc in Ha. simpl in Ha.
  apply andb_true_iff in Ha as [Hs Hl]. split; [by apply negb_true_iff|].
  by apply bool_decide_eq_true in Hl.
Qed.

Lemma rstrip_free_end s : sforall (λ c, negb (is_space c)) s = true → rstrip s = s.
Proof.
  induction s as [|c s IH]; [done|]. cbn [sforall rstrip]. intros [Hc Hs]%andb_true_iff.
  rewrite IH by done. destruct s; [|done]. by rewrite (proj1 (negb_true_iff _) Hc).
Qed.

Lemma lstrip_no_space s : sforall (λ c, negb (is_space c)) s = true → lstrip s = s.
Proof.
  destruct s as [|c s]; [done|]. cbn [sforall lstrip]. intros [Hc _]%andb_true_iff.
  by rewrite (proj1 (negb_true_iff _) Hc).
Qed.

Lemma hex_no_space s : sforall is_hex s = true → sforall (λ c, negb (is_space c)) s = true.
Proof.
  induction s as [|c s IH]; [done|]. cbn [sforall]. intros [Hc Hs]%andb_true_iff.
  destruct (is_hex_chars c Hc) as [-> _]. by rewrite IH.
Qed.

Lemma normalize_hex s : valid_fingerprint s = true → slower (strip s) = s.
Proof.
  intros [_ Hs]%andb_true_iff. unfold strip.
  rewrite lstrip_no_space, rstrip_free_end by (by apply hex_no_space). unfold slower.
  induction s as [|c s IH]; [done|]. cbn [sforall smap] in *. apply andb_true_iff in Hs as [Hc Hs].
  destruct (is_hex_chars c Hc) as [_ ->]. by rewrite IH.
Qed.

(** ** The file round trip *)

Record valid_suppression (s : Suppression) : Prop := {
  vs_fp : valid_fingerprint (sp_fingerprint s) = true;
  vs_rule : sp_rule_id s ≠ "";
  vs_strip : strip (sp_rule_id s) = sp_rule_id s;
  vs_mode : sp_mode s ∈ VALID_MODES;
}.

Lemma load_entry_data i s : valid_suppression s → load_entry i (entry_data s) = (Some s, []).
Proof.
  intros [Hfp Hr Hs Hm]. unfold load_entry, entry_data.
  assert (sget_str "fingerprint" (entry_dict s) = Some (sp_fingerprint s)) as -> by done.
  assert (sget_str "rule_id" (entry_dict s) = Some (sp_rule_id s)) as -> by done.
  assert (default MODE_FULL (sget_str "mode" (entry_dict s)) = sp_mode s) as ->.
  { unfold entry_dict, sget_str. by destruct (decide (sp_mode s = MODE_FULL)) as [->|],
      (decide (sp_reason s = "")), (decide (sp_created s = "")). }
  assert (default "" (sget_str "reason" (entry_dict s)) = sp_reason s) as ->.
  { unfold entry_dict, sget_str. by destruct (decide (sp_mode s = MODE_FULL)),
      (decide (sp_reason s = "")) as [->|], (decide (sp_created s = "")). }
  assert (match dget "created" (entry_dict s) with
          | Some (SStr c) => c | Some (SDate iso) => iso | _ => "" end = sp_created s) as ->.
  { unfold entry_dict. by destruct (decide (sp_mode s = MODE_FULL)),
      (decide (sp_reason s = "")), (decide (sp_created s = "")) as [->|]. }
  destruct s as [[|c fp] r m re cr]; [done|]. cbn [sp_fingerprint sp_rule_id sp_mode sp_reason sp_created] in *.
  cbv zeta. rewrite normalize_hex, Hfp, Hs by done. cbn [negb]. by rewrite decide_False, decide_True.
Qed.

Lemma load_entries_data i ss :
  Forall valid_suppression ss → load_entries i (entry_data <$> ss) = (ss, []).
Proof.
  intros Hss. revert i. induction Hss as [|s ss Hs _ IH]; intros i; [done|].
  rewrite fmap_cons. cbn [load_entries]. by rewrite load_entry_data, IH.
Qed.

Lemma load_suppressions_data ss :
  Forall valid_suppression ss → load_data (suppressions_data ss) = (ss, []).
Proof. intros Hss. by apply (load_entries_data 0). Qed.

(** What is loaded is valid. *)
Lemma load_entry_valid i e s : (load_entry i e).1 = Some s → valid_suppression s.
Proof.
  unfold load_entry. destruct e; try done. destruct (sget_str "fingerprint" d) as [[|c fp]|]; try done.
  destruct (valid_fingerprint _) eqn:Hfp; [|done]. cbn [negb].
  destruct (decide _) as [|Hr]; [done|].
  destruct (decide (default MODE_FULL (sget_str "mode" d) ∈ VALID_MODES)); simpl; intros [= <-].
  - split; simpl; [done|done| |done]. case_match; [apply strip_strip|done].
  - split; simpl; [done|done| |set_solver]. case_match; [apply strip_strip|done].
Qed.

Lemma load_entries_valid i es : Forall valid_suppression (load_entries i es).1.
Proof.
  revert i. induction es as [|e es IH]; intros i; cbn [load_entries]; [constructor|].
  destruct (load_entry i e) as [o ws] eqn:E. specialize (IH (S i)).
  destruct (load_entries (S i) es) as [ss ws']. simpl in *. destruct o as [s|]; [|done].
  constructor; [|done]. apply (load_entry_valid i e). by rewrite E.
Qed.

Lemma load_valid `{SafeYaml} f : Forall valid_suppression (load_suppressions f).1.
Proof.
  destruct f as [| |t]; simpl; [constructor|constructor|].
  destruct (sy_load t) as [[]|]; simpl; try constructor.
  destruct (negb _); [constructor|]. destruct (dget "suppressions" d) as [[]|]; try constructor.
  apply load_entries_valid.
Qed.

(** PyYAML: loading a dumped structure of plain data gives it back. *)
Fixpoint plain (d : sdata) : Prop :=
  match d with
  | SNull | SBool _ | SInt _ | SStr _ => True
  | SFloat _ | SDate _ => False
  | SList l => foldr (λ x P, plain x ∧ P) True l
  | SDict e => foldr (λ p P, plain p.2 ∧ P) True e
  end.

Class SafeYamlLaws `{SafeYaml} : Prop := {
  sy_load_dump d : plain d → sy_load (sy_dump d) = Some d;
}.

Lemma plain_data ss : plain (suppressions_data ss).
Proof.
  cbn. split; [done|]. split; [|done]. induction ss as [|s ss IH]; csimpl; [done|]. split; [|done].
  unfold entry_dict. destruct (decide (sp_mode s = MODE_FULL)), (decide (sp_reason s = "")),
    (decide (sp_created s = "")); simpl; done.
Qed.

Lemma load_write `{SafeYamlLaws} ss :
  Forall valid_suppression ss → load_suppressions (write_suppressions ss) = (ss, []).
Proof.
  intros Hss. unfold load_suppressions, write_suppressions.
  rewrite sy_load_dump by apply plain_data. by apply load_suppressions_data.
Qed.

(** ** Matching *)

Section Match.
Context {S C : Type} `{RtYaml S C}.

(** A suppression names a violation when its fingerprint, at its granularity, is the
    violation's. *)
Definition matches (s : Suppression) (v : ViolationDict) : Prop :=
  compute_fingerprint (vget_str "rule_id" v) (v_yaml v) (sp_mode s) (v_module v)
  = Some (sp_fingerprint s).

#[global] Instance matches_dec s v : Decision (matches s v).
Proof. unfold matches. apply _. Defined.

Lemma hit_spec mode ss fp :
  hit (index_of mode ss) fp = true ↔ ∃ s, s ∈ ss ∧ sp_mode s = mode ∧ fp = Some (sp_fingerprint s).
Proof.
  unfold hit. rewrite andb_true_iff, negb_true_iff, bool_decide_eq_false.
  destruct fp as [f|]; [|naive_solver]. rewrite bool_decide_eq_true. unfold index_of.
  rewrite elem_of_list_to_set, list_elem_of_fmap. split.
  - intros [_ (s & -> & [Hm Hs]%list_elem_of_filter)]. eauto.
  - intros (s & Hs & Hm & [= ->]). assert (s ∈ filter (λ s, sp_mode s = mode) ss) as Hf
      by (by apply list_elem_of_filter). split; [|eauto]. intros He.
    assert (sp_fingerprint s ∈ (∅ : gset string)) as Hin; [|set_solver].
    rewrite <- He. apply elem_of_list_to_set, list_elem_of_fmap. eauto.
Qed.

Lemma is_suppressed_spec ss v : is_suppressed ss v = true ↔ ∃ s, s ∈ ss ∧ matches s v.
Proof.
  unfold is_suppressed. rewrite !orb_true_iff, andb_true_iff, !hit_spec, negb_true_iff,
    bool_decide_eq_false. unfold matches. split.
  - intros [[(s & Hs & <- & He)|[Hm (s & Hs & <- & He)]]|(s & Hs & <- & He)]; exists s; split; try done.
    all: revert He; unfold compute_fingerprint, fingerprint_payload; by repeat case_decide.
  - intros (s & Hs & Hm).
    destruct (decide (sp_mode s = MODE_FULL)) as [E1|E1];
      [right; exists s; split_and!; try done; by rewrite <- Hm, E1|left].
    destruct (decide (sp_mode s = MODE_RULE_ONLY)) as [E2|E2];
      [left; exists s; split_and!; try done; by rewrite <- Hm, E2|right].
    revert Hm. unfold compute_fingerprint at 1, fingerprint_payload at 1.
    rewrite (decide_False (P := sp_mode s = MODE_FULL)) by done.
    destruct (decide (sp_mode s = MODE_RULE_MODULE)) as [E3|E3].
    + destruct (decide (v_module v = "")) as [E4|E4]; [done|]. intros Hm. split; [done|].
      exists s. split_and!; [done|done|]. rewrite <- Hm.
      unfold compute_fingerprint, fingerprint_payload. rewrite (decide_False (P := v_module v = "")) by done.
      done.
    + by rewrite decide_False.
Qed.

(** Suppressed violations: named by a suppression and not of an enforced rule. *)
Definition silenced (ss : list Suppression) (enforced : gset string) (v : ViolationDict) : Prop :=
  is_enforced enforced v = false ∧ Exists (λ s, matches s v) ss.

#[global] Instance silenced_dec ss enforced v : Decision (silenced ss enforced v).
Proof. unfold silenced. apply _. Defined.

Lemma apply_fold ss enforced vs acc :
  foldl (λ acc v,
      if is_enforced enforced v then (acc.1 ++ [v], acc.2)%list
      else if is_suppressed ss v then (acc.1, acc.2 ++ [v])%list else (acc.1 ++ [v], acc.2)%list)
    acc vs
  = (acc.1 ++ filter (λ v, ¬ silenced ss enforced v) vs, acc.2 ++ filter (silenced ss enforced) vs)%list.
Proof.
  revert acc. induction vs as [|v vs IH]; intros [a b]; simpl; [by rewrite !app_nil_r|].
  rewrite IH, !filter_cons. clear IH.
  assert (silenced ss enforced v ↔ is_enforced enforced v = false ∧ is_suppressed ss v = true) as Hs.
  { unfold silenced. by rewrite is_suppressed_spec, Exists_exists. }
  destruct (is_enforced enforced v); [|destruct (is_suppressed ss v)]; simpl.
  2: { assert (silenced ss enforced v) as Hv by (by apply Hs).
       rewrite (decide_False (P := ¬ _)), decide_True by auto. by rewrite <- app_assoc. }
  all: assert (¬ silenced ss enforced v) as Hv by (by rewrite Hs; intros [? ?]).
  all: rewrite (decide_True (P := ¬ _)), decide_False by done; by rewrite <- app_assoc.
Qed.

Lemma apply_suppressions_filter vs ss enforced :
  apply_suppressions vs ss enforced
  = (filter (λ v, ¬ silenced ss enforced v) vs, filter (silenced ss enforced) vs).
Proof.
  unfold apply_suppressions. destruct ss as [|s ss].
  - f_equal; symmetry.
    + apply filter_all, Forall_forall. intros v _ [_ He]. by apply Exists_nil in He.
    + induction vs as [|v vs IH]; [done|]. rewrite filter_cons, decide_False; [done|].
      intros [_ He]. by apply Exists_nil in He.
  - by rewrite apply_fold.
Qed.
End Match.

(** ** Comments and line endings *)

Section Insensitive.
Context {S C : Type}.

(** A document without its comments. *)
Fixpoint erase (d : rdoc S C) : rdoc S C :=
  match d with
  | RScalar x => RScalar x
  | RMap _ _ es => RMap None [] ((λ p, (p.1, erase p.2)) <$> es)
  | RSeq _ _ es => RSeq None [] (erase <$> es)
  end.

Definition no_tokens {K} (items : list (K * list (option C))) : Prop :=
  Forall (λ p, Forall (λ t, t = None) p.2) items.

(** No comment token anywhere. *)
Fixpoint uncommented (d : rdoc S C) : Prop :=
  match d with
  | RScalar _ => True
  | RMap c items es => c = None ∧ no_tokens items ∧ foldr (λ p P, uncommented p.2 ∧ P) True es
  | RSeq c items es => c = None ∧ no_tokens items ∧ foldr (λ x P, uncommented x ∧ P) True es
  end.

(** ruamel: without comment tokens, the text depends on the data alone. *)
Class RtYamlLaws `{RtYaml S C} : Prop := {
  fp_dump_data d d' : uncommented d → uncommented d' → erase d = erase d' → fp_dump d = fp_dump d';
}.

Fixpoint rdoc_size (d : rdoc S C) : nat :=
  match d with
  | RScalar _ => 1
  | RMap _ _ es => 1 + sum_list ((λ p, rdoc_size p.2) <$> es)
  | RSeq _ _ es => 1 + sum_list (rdoc_size <$> es)
  end.

Lemma rdoc_ind' (P : rdoc S C → Prop) :
  (∀ x, P (RScalar x)) →
  (∀ c items es, Forall (λ p, P p.2) es → P (RMap c items es)) →
  (∀ c items es, Forall P es → P (RSeq c items es)) → ∀ d, P d.
Proof.
  intros Hs Hm Hq d. remember (rdoc_size d) as n eqn:En. revert d En.
  induction (lt_wf n) as [n _ IH]. intros [x|c items es|c items es] ->; [apply Hs|apply Hm|apply Hq];
    apply Forall_forall; intros y Hy; eapply IH; try reflexivity; simpl.
  - pose proof (sum_list_elem (rdoc_size y.2) ((λ p, rdoc_size p.2) <$> es)
      ltac:(apply list_elem_of_fmap; eauto)). lia.
  - pose proof (sum_list_elem (rdoc_size y) (rdoc_size <$> es)
      ltac:(apply list_elem_of_fmap; eauto)). lia.
Qed.

Lemma clear_items_no_tokens {K} (items : list (K * list (option C))) : no_tokens (clear_items items).
Proof. apply Forall_fmap, Forall_true. intros p. by repeat constructor. Qed.

Lemma strip_comments_uncommented d : uncommented (strip_comments d).
Proof.
  induction d as [x|c items es IH|c items es IH] using rdoc_ind'; simpl; [done| |];
    (split; [done|split; [apply clear_items_no_tokens|]]); induction IH; simpl; auto.
Qed.

Lemma erase_strip_comments d : erase (strip_comments d) = erase d.
Proof.
  induction d as [x|c items es IH|c items es IH] using rdoc_ind'; simpl; [done| |]; f_equal;
    rewrite <- list_fmap_compose; apply list_fmap_ext; intros i y Hy;
    apply list_elem_of_lookup_2 in Hy; rewrite Forall_forall in IH; simpl; by rewrite (IH y Hy).
Qed.
End Insensitive.

(** [text] with Windows line endings. *)
Fixpoint to_crlf (s : string) : string :=
  match s with
  | "" => ""
  | String c s' => if decide (c = LF) then String CR (String LF (to_crlf s')) else String c (to_crlf s')
  end.

Lemma crlf_to_lf_cons c d s :
  crlf_to_lf (String c (String d s)) =
    if decide (c = CR ∧ d = LF) then String LF (crlf_to_lf s) else String c (crlf_to_lf (String d s)).
Proof. done. Qed.

Lemma crlf_to_lf_to_crlf s : free_of CR s → crlf_to_lf (to_crlf s) = s.
Proof.
  unfold free_of. induction s as [|c s IH]; [done|]. cbn [sforall to_crlf].
  rewrite andb_true_iff, bool_decide_eq_true. intros [Hc Hs]. specialize (IH Hs).
  destruct (decide (c = LF)) as [->|Hl].
  - change (String LF (crlf_to_lf (to_crlf s)) = String LF s). by rewrite IH.
  - destruct (to_crlf s) as [|d t] eqn:E; [by destruct s; simpl in *; [|case_decide]|].
    rewrite crlf_to_lf_cons, decide_False by naive_solver. by rewrite IH.
Qed.

Lemma crlf_to_lf_free s : free_of CR s → crlf_to_lf s = s.
Proof.
  unfold free_of. induction s as [|c s IH]; [done|]. cbn [sforall].
  rewrite andb_true_iff, bool_decide_eq_true. intros [Hc Hs]. specialize (IH Hs).
  destruct s as [|d s]; [done|]. rewrite crlf_to_lf_cons, decide_False by naive_solver. by rewrite IH.
Qed.

Lemma sreplace_free c d s : free_of c s → sreplace c d s = s.
Proof.
  unfold free_of, sreplace. induction s as [|x s IH]; simpl; [done|].
  rewrite andb_true_iff, bool_decide_eq_true. intros [Hx Hs]. by rewrite decide_False, IH.
Qed.

Lemma lstrip_to_crlf s : lstrip (to_crlf s) = "" ↔ lstrip s = "".
Proof.
  induction s as [|c s IH]; [done|]. cbn [to_crlf]. destruct (decide (c = LF)) as [->|Hl]; [done|].
  cbn [lstrip]. by destruct (is_space c).
Qed.

Lemma strip_blank s : strip s = "" ↔ lstrip s = "".
Proof.
  unfold strip. split; [|by intros ->]. destruct (lstrip_head s) as [->|(c & r & -> & Hc)]; [done|].
  cbn [rstrip]. rewrite Hc. by destruct (rstrip r).
Qed.

(** ** Theorems *)

(** Applying suppressions splits the findings in order: suppressed are exactly those of
    rules that are not enforced for which some entry carries the fingerprint of the finding
    at that entry's granularity; everything else stays active. *)
Theorem suppression_exact {S C} `{RtYaml S C} vs ss enforced :
  apply_suppressions vs ss enforced
  = (filter (λ v, ¬ silenced ss enforced v) vs, filter (silenced ss enforced) vs).
Proof. apply apply_suppressions_filter. Qed.

(** Edits that do not change the task keep its fingerprint: changing or dropping
    comments, and converting the line endings. *)
Theorem fingerprint_stable {S C} `{RtYamlLaws S C} :
  (∀ t1 t2 d1 d2, fp_load (lf_text t1) = Loaded d1 → fp_load (lf_text t2) = Loaded d2 →
     strip t1 ≠ "" → strip t2 ≠ "" → erase d1 = erase d2 → is_Some (fp_dump (strip_comments d1)) →
     normalize_yaml t1 = normalize_yaml t2) ∧
  (∀ t, free_of CR t → normalize_yaml (to_crlf t) = normalize_yaml t).
Proof.
  split.
  - intros t1 t2 d1 d2 E1 E2 Hb1 Hb2 He [r Hr]. unfold normalize_yaml.
    rewrite !decide_False by done. rewrite E1, E2.
    rewrite <- (fp_dump_data (strip_comments d1) (strip_comments d2)); [by rewrite Hr| | |].
    + apply strip_comments_uncommented.
    + apply strip_comments_uncommented.
    + by rewrite !erase_strip_comments.
  - intros t Ht. unfold normalize_yaml.
    assert (lf_text (to_crlf t) = lf_text t) as Hl.
    { unfold lf_text. by rewrite crlf_to_lf_to_crlf, crlf_to_lf_free. }
    rewrite Hl. destruct (decide (strip t = "")) as [Hb|Hb].
    + by rewrite decide_True by (by apply strip_blank, lstrip_to_crlf, strip_blank).
    + rewrite decide_False; [done|]. by rewrite strip_blank, lstrip_to_crlf, <- strip_blank.
Qed.

(** Suppressing a finding works: after [suppress add] the file holds the entries it
    held before and the new one, and the finding it was computed for is suppressed. *)
Theorem suppress_add_effective {S C} `{RtYaml S C} `{SafeYamlLaws}
    rule mode reason today f f' v vs enforced :
  rule ≠ "" → strip rule = rule → canonicalize_rule_id rule = rule →
  canonicalize_rule_id (vget_str "rule_id" v) = rule → mode ∈ VALID_MODES →
  suppress_add rule mode reason (v_yaml v) (v_module v) None today f = (f', Added) →
  v ∈ vs → is_enforced enforced v = false →
  (∃ s, load_suppressions f' = ((load_suppressions f).1 ++ [s], [])%list ∧ matches s v) ∧
  v ∈ (apply_suppressions vs (load_suppressions f').1 enforced).2.
Proof.
  intros Hr Hst Hcan Hv Hmode Hadd Hin Henf. unfold suppress_add in Hadd. rewrite Hcan in Hadd.
  cbn [negb andb] in Hadd. destruct (_ || _) eqn:Eu; [done|].
  destruct (compute_fingerprint rule (v_yaml v) mode (v_module v)) as [fp|] eqn:Ef; [|done].
  destruct (existsb _ _); [done|]. injection Hadd as <-.
  set (s := MkSuppression fp rule mode reason today).
  assert (matches s v) as Hm.
  { unfold matches, s. simpl. rewrite <- Ef. unfold compute_fingerprint, fingerprint_payload.
    by rewrite Hv, Hcan. }
  assert (load_suppressions (write_suppressions ((load_suppressions f).1 ++ [s])%list)
          = ((load_suppressions f).1 ++ [s], [])%list) as Hl.
  { apply load_write, Forall_app. split; [apply load_valid|]. apply Forall_singleton.
    split; try done. by eapply compute_fingerprint_valid. }
  split; [by exists s|]. rewrite Hl, apply_suppressions_filter. simpl.
  apply list_elem_of_filter. split; [|done]. split; [done|]. apply Exists_app. right. by left.
Qed.

(** A suppressions file that cannot be used is lost: when loading it ends in a warning
    and no entries (it does not parse, is not a mapping, has an unsupported version),
    [suppress add] replaces it by a file with the new entry alone. *)
Theorem suppress_add_replaces_unusable {S C} `{RtYaml S C} `{SafeYaml}
    rule mode reason yaml module today f f' w :
  load_suppressions f = ([], [w]) →
  suppress_add rule mode reason yaml module None today f = (f', Added) →
  ∃ fp, f' = write_suppressions [MkSuppression fp (canonicalize_rule_id rule) mode reason today].
Proof.
  intros Hl Ha. unfold suppress_add in Ha. rewrite Hl in Ha. cbn [negb andb] in Ha.
  destruct (_ || _); [done|]. destruct (compute_fingerprint _ _ _ _) as [fp|]; [|done].
  simpl in Ha. injection Ha as <-. by exists fp.
Qed.

(** ** Instances *)

Module SuppressDemo.
(** Data as text: the bits of its code. *)
Fixpoint to_tree (d : sdata) : gen_tree (bool + Z + string) :=
  match d with
  | SNull => GenNode 0 []
  | SBool b => GenNode 1 [GenLeaf (inl (inl b))]
  | SInt z => GenNode 2 [GenLeaf (inl (inr z))]
  | SFloat r => GenNode 3 [GenLeaf (inr r)]
  | SStr t => GenNode 4 [GenLeaf (inr t)]
  | SDate t => GenNode 5 [GenLeaf (inr t)]
  | SList l => GenNode 6 (to_tree <$> l)
  | SDict e => GenNode 7 ((λ p, GenNode 0 [GenLeaf (inr p.1); to_tree p.2]) <$> e)
  end.

Fixpoint of_tree (t : gen_tree (bool + Z + string)) : sdata :=
  match t with
  | GenNode 1 [GenLeaf (inl (inl b))] => SBool b
  | GenNode 2 [GenLeaf (inl (inr z))] => SInt z
  | GenNode 3 [GenLeaf (inr r)] => SFloat r
  | GenNode 4 [GenLeaf (inr t)] => SStr t
  | GenNode 5 [GenLeaf (inr t)] => SDate t
  | GenNode 6 l => SList (of_tree <$> l)
  | GenNode 7 e => SDict ((λ t, match t with
                               | GenNode _ [GenLeaf (inr k); x] => (k, of_tree x)
                               | _ => ("", SNull)
                               end) <$> e)
  | _ => SNull
  end.

Fixpoint of_to_tree (d : sdata) : of_tree (to_tree d) = d.
Proof.
  destruct d as [| | | | | |l|e]; simpl; try done; f_equal.
  - rewrite <- list_fmap_compose. induction l as [|x l IH]; csimpl; [done|]. by rewrite of_to_tree, IH.
  - rewrite <- list_fmap_compose. induction e as [|[k x] e IH]; csimpl; [done|]. by rewrite of_to_tree, IH.
Qed.

Fixpoint bits (p : positive) : string :=
  match p with
  | xH => "H"
  | xO p => String "0" (bits p)
  | xI p => String "1" (bits p)
  end.

Fixpoint unbits (s : string) : option positive :=
  match s with
  | "H" => Some xH
  | String "0" s' => xO <$> unbits s'
  | String "1" s' => xI <$> unbits s'
  | _ => None
  end.

Lemma unbits_bits p : unbits (bits p) = Some p.
Proof. induction p as [p IH|p IH|]; simpl; rewrite ?IH; done. Qed.

#[export] Instance demo_safe : SafeYaml := {|
  sy_load t := p ← unbits t; t ← decode p; Some (of_tree t);
  sy_dump d := bits (encode (to_tree d));
|}.

#[export] Instance demo_safe_laws : SafeYamlLaws.
Proof. split. intros d _. simpl. by rewrite unbits_bits; simpl; rewrite decode_encode; simpl; rewrite of_to_tree. Qed.

(** One-line documents [key: value # comment]. *)
Fixpoint show (d : rdoc string string) : string :=
  match d with
  | RScalar x => x
  | RMap c items es =>
    sconcat (option_list c) +:+ sconcat ((λ p, p.1 +:+ ": " +:+ show p.2) <$> es)
    +:+ sconcat ((λ p, sconcat (omap Datatypes.id p.2)) <$> items)
  | RSeq c items es =>
    sconcat (option_list c) +:+ sconcat ((λ x, "- " +:+ show x) <$> es)
    +:+ sconcat ((λ p, sconcat (omap Datatypes.id p.2)) <$> items)
  end.

#[export] Instance demo_rt : RtYaml string string := {|
  fp_load t :=
    match split1 "#" t, split1 ":" t with
    | Some (a, c), _ =>
      match split1 ":" a with
      | Some (k, v) => Loaded (RMap None [(strip k, [None; None; Some ("# " +:+ strip c); None])]
                         [(strip k, RScalar (strip v))])
      | None => LoadedNone
      end
    | None, Some (k, v) => Loaded (RMap None [] [(strip k, RScalar (strip v))])
    | None, None => LoadRaised
    end;
  fp_dump d := Some (show d);
|}.

Lemma show_items {K} (items : list (K * list (option string))) :
  no_tokens items → sconcat ((λ p, sconcat (omap Datatypes.id p.2)) <$> items) = "".
Proof.
  induction 1 as [|p items Hp _ IH]; [done|]. csimpl.
  change (sconcat (omap Datatypes.id p.2) +:+ sconcat ((λ p, sconcat (omap Datatypes.id p.2)) <$> items) = "").
  rewrite IH. induction Hp as [|t l -> _ IHl]; [done|]. done.
Qed.

Lemma show_erase d : uncommented d → show d = show (erase d).
Proof.
  induction d as [x|c items es IH|c items es IH] using rdoc_ind'; [done| |]; intros (-> & Hi & He);
    cbn [show erase]; rewrite (show_items items) by done; rewrite <- list_fmap_compose.
  - assert ((λ p, p.1 +:+ ": " +:+ show p.2) <$> es
            = (λ p, p.1 +:+ ": " +:+ show p.2) ∘ (λ p, (p.1, erase p.2)) <$> es) as ->; [|done].
    induction IH as [|[k y] es Hy _ IHes]; [done|]. simpl in He, Hy. destruct He as [He1 He2].
    rewrite !fmap_cons. f_equal; [|by apply IHes]. simpl. by rewrite (Hy He1).
  - assert ((λ x, "- " +:+ show x) <$> es = (λ x, "- " +:+ show x) ∘ erase <$> es) as ->; [|done].
    induction IH as [|y es Hy _ IHes]; [done|]. simpl in He. destruct He as [He1 He2].
    rewrite !fmap_cons. f_equal; [|by apply IHes]. simpl. by rewrite (Hy He1).
Qed.

#[export] Instance demo_rt_laws : RtYamlLaws (S := string) (C := string).
Proof. split. intros d d' H1 H2 He. simpl. by rewrite (show_erase d), (show_erase d'), He. Qed.

Definition finding : ViolationDict :=
  [("rule_id", VStr "native:L046"); ("original_yaml", VStr "shell: ls # list");
   ("module_fqcn", VStr "ansible.builtin.shell")].

Definition other : ViolationDict :=
  [("rule_id", VStr "L046"); ("original_yaml", VStr "shell: pwd")].

Lemma fingerprint_stable_witness :
  normalize_yaml "shell: ls # list" = normalize_yaml "shell: ls  # show the files".
Proof.
  eapply (proj1 fingerprint_stable).
  1-2: vm_compute; reflexivity.
  - vm_compute. discriminate.
  - vm_compute. discriminate.
  - vm_compute. reflexivity.
  - eexists. reflexivity.
Defined.

(** The finding is suppressed in full mode by an entry added to a missing file. *)
Lemma suppress_add_effective_witness :
  ∃ f', suppress_add "L046" "full" "accepted" (v_yaml finding) (v_module finding) None "2026-01-05" FMissing
        = (f', Added) ∧
    finding ∈ (apply_suppressions [other; finding] (load_suppressions f').1 ∅).2.
Proof.
  eexists. split; [vm_compute; reflexivity|].
  refine (proj2 (suppress_add_effective "L046" "full" "accepted" "2026-01-05" FMissing _ finding
    [other; finding] ∅ _ _ _ _ _ _ _ _)).
  - discriminate.
  - reflexivity.
  - reflexivity.
  - reflexivity.
  - apply (bool_decide_unpack _). vm_compute. exact I.
  - vm_compute. reflexivity.
  - by right; left.
  - vm_compute. reflexivity.
Defined.

(** A file of another version is replaced. *)
Lemma suppress_add_replaces_unusable_witness :
  ∃ f' fp, suppress_add "L046" "rule_only" "" "" "" None "2026-01-05"
             (FText (sy_dump (SDict [("version", SInt 2)]))) = (f', Added) ∧
    f' = write_suppressions [MkSuppression fp "L046" "rule_only" "" "2026-01-05"].
Proof.
  destruct (suppress_add_replaces_unusable "L046" "rule_only" "" "" "" "2026-01-05"
    (FText (sy_dump (SDict [("version", SInt 2)]))) (write_suppressions
      [MkSuppression (sha256_hex ("L046" +:+ String NULc "")) "L046" "rule_only" "" "2026-01-05"]) WVersion)
    as [fp Hf]; [vm_compute; reflexivity|vm_compute; reflexivity|].
  eexists _, fp. split; [|exact Hf]. vm_compute. reflexivity.
Defined.
End SuppressDemo.
