(* ===== verification/Chunking.v ===== *)
(** * Streaming of oversized events

    The sender, [src/apme_engine/daemon/chunked_reporting.py], and the receiver,
    [_merge_fix_completed_chunk], [_reassemble_fix_completed] and
    [ReportFixCompletedStream] of [src/apme_gateway/grpc_reporting/servicer.py].

    Protobuf is not part of the repository: the generated messages are records, the
    elements of repeated fields and small nested messages are opaque with their
    [ByteSize], and serialization and frame sizes are the class [FixProto], with the
    documented facts of the wire format that the code relies on in [FixProtoLaws].  Texts
    are lists of code points; decoding the bytes of a whole number of characters gives
    these characters back. *)

From stdpp Require Import base list strings.
From S2P Require Import Prelude.

#[local] Open Scope Z_scope.

(** ** Packing under a budget

    The loop that [_batch_messages] and [_utf8_fragments] share: close the batch when the
    next item does not fit. *)

Section Pack.
Context {A : Type} (size : A → Z) (limit : Z).

Fixpoint pack_loop (items batch : list A) (bytes : Z) : list (list A) :=
  match items with
  | [] => match batch with [] => [] | _ => [batch] end
  | x :: items' =>
    if negb (bool_decide (batch = [])) && (limit <? bytes + size x)
    then batch :: pack_loop items' [x] (size x)
    else pack_loop items' (batch ++ [x]) (bytes + size x)
  end.

Definition pack (items : list A) : list (list A) := pack_loop items [] 0.

Definition total (l : list A) : Z := foldr (λ x n, size x + n) 0 l.

Lemma total_app l1 l2 : total (l1 ++ l2) = total l1 + total l2.
Proof. induction l1 as [|x l1 IH]; simpl; lia. Qed.

Lemma pack_loop_concat items batch bytes : concat (pack_loop items batch bytes) = (batch ++ items)%list.
Proof.
  revert batch bytes. induction items as [|x items IH]; intros batch bytes; simpl.
  - destruct batch; simpl; by rewrite ?app_nil_r.
  - destruct (_ && _); simpl; rewrite IH; [done|]. by rewrite <- app_assoc.
Qed.

(** A batch is one item, or fits the budget. *)
Definition fits (b : list A) : Prop := b ≠ [] ∧ (length b = 1%nat ∨ total b <= limit).

Lemma pack_loop_fits items batch bytes :
  bytes = total batch → (batch = [] ∨ fits batch) → Forall fits (pack_loop items batch bytes).
Proof.
  revert batch bytes. induction items as [|x items IH]; intros batch bytes Hb Hf; simpl.
  - destruct batch; constructor; [naive_solver|constructor].
  - destruct (bool_decide_reflect (batch = [])) as [->|Hne]; simpl.
    + apply IH; [simpl in *; lia|]. right. split; [done|by left].
    + destruct Hf as [?|Hf]; [done|]. destruct (Z.ltb_spec limit (bytes + size x)).
      * constructor; [done|]. apply IH; [simpl; lia|]. right. split; [done|by left].
      * apply IH; [rewrite total_app; simpl; lia|]. right. split; [by destruct batch|].
        right. rewrite total_app. simpl. lia.
Qed.

Lemma pack_concat items : concat (pack items) = items.
Proof. apply pack_loop_concat. Qed.

Lemma pack_fits items : Forall fits (pack items).
Proof. apply pack_loop_fits; [done|by left]. Qed.
End Pack.

Arguments fits {A} size limit b.

(** Slices of fixed length: [for offset in range(0, len(l), n)]. *)
Fixpoint slices {A} (fuel n : nat) (l : list A) : list (list A) :=
  match fuel, l with
  | O, _ | _, [] => []
  | S fuel', _ => take n l :: slices fuel' n (drop n l)
  end.

Definition slice {A} (n : nat) (l : list A) : list (list A) := slices (length l) n l.

Lemma slices_concat {A} fuel n (l : list A) :
  (0 < n)%nat → (length l <= fuel)%nat → concat (slices fuel n l) = l.
Proof.
  intros Hn. revert l. induction fuel as [|fuel IH]; intros l Hl; simpl.
  - destruct l; [done|simpl in Hl; lia].
  - destruct l as [|x l]; [done|]. cbn [concat]. rewrite IH; [apply take_drop|].
    rewrite length_drop. simpl in *. lia.
Qed.

Lemma slices_length {A} fuel n (l : list A) : Forall (λ s, (length s <= n)%nat) (slices fuel n l).
Proof.
  revert l. induction fuel as [|fuel IH]; intros [|x l]; simpl; try constructor; [|apply IH].
  rewrite length_take. lia.
Qed.

(** ** Messages *)

Section Report.
Context {Msg : Type} (ByteSize : Msg → Z).

Record FixReport := MkReport {
  fr_passes : Z; fr_fixed : Z; fr_remaining_ai : Z; fr_remaining_manual : Z;
  fr_oscillation_detected : bool;
  fr_remaining_violations : list Msg; fr_fixed_violations : list Msg;
}.

(** The message that an unset field reads as. *)
Context (default_msg : Msg).
Definition default_report : FixReport := MkReport 0 0 0 0 false [] [].

Record FixCompletedEvent := MkEvent {
  ev_scan_id : string; ev_session_id : string; ev_project_path : string; ev_source : string;
  ev_diagnostics : option Msg; ev_summary : option Msg; ev_report : option FixReport;
  ev_manifest : option Msg;
  ev_remaining_violations : list Msg; ev_fixed_violations : list Msg; ev_patches : list Msg;
  ev_logs : list Msg; ev_proposals : list Msg;
  ev_content_graph_json : list N;
}.

Definition empty_event : FixCompletedEvent :=
  MkEvent "" "" "" "" None None None None [] [] [] [] [] [].

Context {Byte : Type}.

Record FixCompletedChunk := MkChunk {
  ch_header : option FixCompletedEvent;
  ch_remaining_violations : list Msg; ch_fixed_violations : list Msg; ch_patches : list Msg;
  ch_logs : list Msg; ch_proposals : list Msg;
  ch_fragment : list N;
  ch_last : bool;
  ch_serialized : option (list Byte);
}.

Definition header_chunk (h : FixCompletedEvent) (last : bool) : FixCompletedChunk :=
  MkChunk (Some h) [] [] [] [] [] [] last None.

Definition utf8_len (c : N) : Z :=
  if (c <? 128)%N then 1 else if (c <? 2048)%N then 2 else if (c <? 65536)%N then 3 else 4.

(** Sum of the sizes of the elements, each with its tag and length prefix. *)
Definition items_size (l : list Msg) : Z := total (λ x, ByteSize x + 6) l.

Class FixProto := {
  event_size : FixCompletedEvent → Z;                       (* event.ByteSize() *)
  chunk_size : FixCompletedChunk → Z;                       (* chunk.ByteSize() *)
  SerializeToString : FixCompletedEvent → list Byte;
  ParseFromString : list Byte → option FixCompletedEvent;   (* None: DecodeError *)
}.

Context `{FixProto}.

(** What the code relies on: parsing inverts serialization, and the empty string is the
    default message; a length-delimited field takes
    at most six bytes more than its content (one for the tag, five for the length), a
    boolean two; adding a manifest to a header takes at most ten bytes more than it. *)
Class FixProtoLaws : Prop := {
  parse_serialize e : ParseFromString (SerializeToString e) = Some e;
  parse_empty : ParseFromString [] = Some empty_event;
  ByteSize_nonneg x : 0 <= ByteSize x;
  header_last h : chunk_size (header_chunk h true) <= chunk_size (header_chunk h false) + 2;
  header_manifest h m :
    chunk_size (header_chunk (MkEvent (ev_scan_id h) (ev_session_id h) (ev_project_path h)
      (ev_source h) (ev_diagnostics h) (ev_summary h) (ev_report h) (Some m) [] [] [] [] [] []) false)
    <= chunk_size (header_chunk (MkEvent (ev_scan_id h) (ev_session_id h) (ev_project_path h)
      (ev_source h) (ev_diagnostics h) (ev_summary h) (ev_report h) None [] [] [] [] [] []) false)
       + ByteSize m + 10;
  body_size rv fv pa lo pr fr b s :
    chunk_size (MkChunk None rv fv pa lo pr fr b s)
    <= items_size rv + items_size fv + items_size pa + items_size lo + items_size pr
       + (match fr with [] => 0 | _ => total utf8_len fr + 6 end)
       + (match s with None => 0 | Some f => Z.of_nat (length f) + 6 end) + 2;
}.

(** ** The sender *)

Definition CHUNK_MAX_BYTES : Z := 1024 * 1024.
Definition UNARY_MAX_BYTES : Z := 45 * 1024 * 1024.
Definition GRPC_MAX_MESSAGE_BYTES : Z := 50 * 1024 * 1024.

Definition needs_streaming (e : FixCompletedEvent) : bool := UNARY_MAX_BYTES <=? event_size e.

Definition header_report_from_report (r : FixReport) : FixReport :=
  MkReport (fr_passes r) (fr_fixed r) (fr_remaining_ai r) (fr_remaining_manual r)
    (fr_oscillation_detected r) [] [].

(** Reading an unset nested message gives the default one, and passing it to the
    constructor sets the field. *)
Definition header_from_event (e : FixCompletedEvent) (include_manifest : bool) : FixCompletedEvent :=
  MkEvent (ev_scan_id e) (ev_session_id e) (ev_project_path e) (ev_source e)
    (Some (default default_msg (ev_diagnostics e))) (Some (default default_msg (ev_summary e)))
    (Some (header_report_from_report (default default_report (ev_report e))))
    (if include_manifest then ev_manifest e else None) [] [] [] [] [] [].

Definition batch_messages (items : list Msg) (chunk_max_bytes : Z) : list (list Msg) :=
  pack (λ x, ByteSize x + 10) chunk_max_bytes items.

(** [None] is the [ValueError]. *)
Definition utf8_fragments (text : list N) (max_bytes : Z) : option (list (list N)) :=
  match text with
  | [] => Some []
  | _ => if max_bytes <? 1 then None else Some (pack utf8_len max_bytes text)
  end.

Definition requires_serialized_fragments (e : FixCompletedEvent) (max_message_bytes : Z) : bool :=
  let base_header_size := chunk_size (header_chunk (header_from_event e false) false) in
  (max_message_bytes <? base_header_size)
  || match ev_manifest e with
     | Some m => max_message_bytes <? ByteSize m + base_header_size + 10
     | None => false
     end
  || (max_message_bytes - 10 <? 0)
  || existsb (λ x, max_message_bytes - 10 <? ByteSize x)
       (ev_remaining_violations e ++ ev_fixed_violations e ++ ev_patches e ++ ev_logs e
        ++ ev_proposals e).

Fixpoint mark_last (l : list FixCompletedChunk) : list FixCompletedChunk :=
  match l with
  | [] => []
  | c :: l' =>
    MkChunk (ch_header c) (ch_remaining_violations c) (ch_fixed_violations c) (ch_patches c)
      (ch_logs c) (ch_proposals c) (ch_fragment c)
      (match l' with [] => true | _ => false end) (ch_serialized c) :: mark_last l'
  end.

Definition serialized_event_chunks (e : FixCompletedEvent) (chunk_max_bytes max_message_bytes : Z)
    : option (list FixCompletedChunk) :=
  let fragment_max_bytes := Z.min chunk_max_bytes (max_message_bytes - 16) in
  if fragment_max_bytes <? 1 then None
  else Some (mark_last ((λ f, MkChunk None [] [] [] [] [] [] false (Some f)) <$>
               slice (Z.to_nat fragment_max_bytes) (SerializeToString e))).

Definition body_chunks (e : FixCompletedEvent) (chunk_max_bytes : Z) : option (list FixCompletedChunk) :=
  fragments ← utf8_fragments (ev_content_graph_json e) chunk_max_bytes;
  Some (((λ b, MkChunk None b [] [] [] [] [] false None) <$>
           batch_messages (ev_remaining_violations e) chunk_max_bytes)
        ++ ((λ b, MkChunk None [] b [] [] [] [] false None) <$>
              batch_messages (ev_fixed_violations e) chunk_max_bytes)
        ++ ((λ b, MkChunk None [] [] b [] [] [] false None) <$>
              batch_messages (ev_patches e) chunk_max_bytes)
        ++ ((λ b, MkChunk None [] [] [] b [] [] false None) <$>
              batch_messages (ev_logs e) chunk_max_bytes)
        ++ ((λ b, MkChunk None [] [] [] [] b [] false None) <$>
              batch_messages (ev_proposals e) chunk_max_bytes)
        ++ ((λ f, MkChunk None [] [] [] [] [] f false None) <$> fragments))%list.

Definition has_payload (e : FixCompletedEvent) : bool :=
  negb (bool_decide (ev_remaining_violations e = [] ∧ ev_fixed_violations e = [] ∧ ev_patches e = []
    ∧ ev_logs e = [] ∧ ev_proposals e = [] ∧ ev_content_graph_json e = [])).

(** [None] is the [ValueError]. *)
Definition yield_fix_completed_chunks (e : FixCompletedEvent) (chunk_max_bytes max_message_bytes : Z)
    : option (list FixCompletedChunk) :=
  if requires_serialized_fragments e max_message_bytes
  then serialized_event_chunks e chunk_max_bytes max_message_bytes
  else
    let body_chunk_max_bytes := Z.min chunk_max_bytes (max_message_bytes - 16) in
    if body_chunk_max_bytes <? 1 then None
    else
      let header := header_from_event e true in
      if has_payload e then
        body ← body_chunks e body_chunk_max_bytes;
        Some (header_chunk header false ::
              match body with
              | [] => [MkChunk None [] [] [] [] [] [] true None]
              | _ => mark_last body
              end)
      else Some [header_chunk header true].

(** ** The receiver *)

Definition MAX_STREAM_BYTES : Z := 256 * 1024 * 1024.
Definition MAX_STREAM_CHUNKS : Z := 4096.
Definition MAX_STREAM_CHUNK_BYTES : Z := 50 * 1024 * 1024.

(** [if header.HasField(f): event.f.CopyFrom(header.f)] *)
Definition copy_field {A} (from to : option A) : option A :=
  match from with Some x => Some x | None => to end.

Definition merge_fix_completed_chunk (ev : FixCompletedEvent) (graph_parts : list (list N))
    (c : FixCompletedChunk) : FixCompletedEvent * list (list N) :=
  let ev1 :=
    match ch_header c with
    | None => ev
    | Some h =>
      MkEvent (ev_scan_id h) (ev_session_id h) (ev_project_path h) (ev_source h)
        (copy_field (ev_diagnostics h) (ev_diagnostics ev)) (copy_field (ev_summary h) (ev_summary ev))
        (copy_field (ev_report h) (ev_report ev)) (copy_field (ev_manifest h) (ev_manifest ev))
        (ev_remaining_violations ev) (ev_fixed_violations ev) (ev_patches ev) (ev_logs ev)
        (ev_proposals ev) (ev_content_graph_json ev)
    end in
  (MkEvent (ev_scan_id ev1) (ev_session_id ev1) (ev_project_path ev1) (ev_source ev1)
     (ev_diagnostics ev1) (ev_summary ev1) (ev_report ev1) (ev_manifest ev1)
     (ev_remaining_violations ev1 ++ ch_remaining_violations c)
     (ev_fixed_violations ev1 ++ ch_fixed_violations c) (ev_patches ev1 ++ ch_patches c)
     (ev_logs ev1 ++ ch_logs c) (ev_proposals ev1 ++ ch_proposals c) (ev_content_graph_json ev1),
   match ch_fragment c with [] => graph_parts | f => graph_parts ++ [f] end)%list.

Inductive stream_error :=
| DataAfterLast | TooManyChunks | ChunkTooLarge | StreamTooLarge | MixedModes | NoLastChunk
| MalformedEvent | MissingScanId.

(** The loop state of [ReportFixCompletedStream]. *)
Record receiver := MkReceiver {
  rc_event : FixCompletedEvent;
  rc_parts : list (list N);
  rc_serialized : list Byte;
  rc_mode : option bool;
  rc_bytes : Z;
  rc_count : Z;
  rc_last : bool;
}.

Definition new_receiver : receiver := MkReceiver empty_event [] [] None 0 0 false.

Definition receive_chunk (r : receiver) (c : FixCompletedChunk) : stream_error + receiver :=
  if rc_last r then inl DataAfterLast
  else if MAX_STREAM_CHUNKS <? rc_count r + 1 then inl TooManyChunks
  else if MAX_STREAM_CHUNK_BYTES <? chunk_size c then inl ChunkTooLarge
  else if MAX_STREAM_BYTES <? rc_bytes r + chunk_size c then inl StreamTooLarge
  else
    let is_serialized := match ch_serialized c with Some _ => true | None => false end in
    let mode := default is_serialized (rc_mode r) in
    if negb (eqb mode is_serialized) then inl MixedModes
    else
      let '(ev, parts) :=
        if is_serialized then (rc_event r, rc_parts r)
        else merge_fix_completed_chunk (rc_event r) (rc_parts r) c in
      inr (MkReceiver ev parts (rc_serialized r ++ default [] (ch_serialized c)) (Some mode)
             (rc_bytes r + chunk_size c) (rc_count r + 1) (ch_last c)).

Fixpoint receive_all (cs : list FixCompletedChunk) (r : receiver) : stream_error + receiver :=
  match cs with
  | [] => inr r
  | c :: cs' => match receive_chunk r c with inl e => inl e | inr r' => receive_all cs' r' end
  end.

Definition set_graph (g : list N) (ev : FixCompletedEvent) : FixCompletedEvent :=
  MkEvent (ev_scan_id ev) (ev_session_id ev) (ev_project_path ev) (ev_source ev) (ev_diagnostics ev)
    (ev_summary ev) (ev_report ev) (ev_manifest ev) (ev_remaining_violations ev)
    (ev_fixed_violations ev) (ev_patches ev) (ev_logs ev) (ev_proposals ev) g.

(** [ReportFixCompletedStream] up to the event it persists. *)
Definition report_fix_completed_stream (cs : list FixCompletedChunk)
    : stream_error + FixCompletedEvent :=
  match receive_all cs new_receiver with
  | inl e => inl e
  | inr r =>
    if negb (rc_last r) then inl NoLastChunk
    else
      let check ev := if decide (ev_scan_id ev = EmptyString) then inl MissingScanId else inr ev in
      match rc_mode r with
      | Some true =>
        match ParseFromString (rc_serialized r) with
        | None => inl MalformedEvent
        | Some ev => check ev
        end
      | _ =>
        check (match rc_parts r with [] => rc_event r | ps => set_graph (concat ps) (rc_event r) end)
      end
  end.

(** ** What arrives

    The typed stream leaves out the violations nested in the report, which repeat the
    top-level lists, and sets the nested messages that were unset. *)

Definition wire_event (e : FixCompletedEvent) : FixCompletedEvent :=
  let h := header_from_event e true in
  MkEvent (ev_scan_id e) (ev_session_id e) (ev_project_path e) (ev_source e)
    (ev_diagnostics h) (ev_summary h) (ev_report h) (ev_manifest h)
    (ev_remaining_violations e) (ev_fixed_violations e) (ev_patches e) (ev_logs e) (ev_proposals e)
    (ev_content_graph_json e).

(** Everything the chunks of a typed stream carry, in order. *)
Definition collect (f : FixCompletedChunk → list Msg) (cs : list FixCompletedChunk) : list Msg :=
  concat (f <$> cs).

(** The receiver's limits on a stream. *)
Definition within_limits (cs : list FixCompletedChunk) : Prop :=
  Z.of_nat (length cs) <= MAX_STREAM_CHUNKS ∧
  Forall (λ c, 0 <= chunk_size c <= MAX_STREAM_CHUNK_BYTES) cs ∧
  total chunk_size cs <= MAX_STREAM_BYTES.

(** Exactly the last chunk is marked. *)
Fixpoint well_marked (cs : list FixCompletedChunk) : Prop :=
  match cs with
  | [] => False
  | [c] => ch_last c = true
  | c :: cs' => ch_last c = false ∧ well_marked cs'
  end.

(** The state after a stream without errors. *)
Lemma receive_all_ok cs r mode :
  well_marked cs → rc_last r = false →
  rc_count r + Z.of_nat (length cs) <= MAX_STREAM_CHUNKS →
  Forall (λ c, 0 <= chunk_size c <= MAX_STREAM_CHUNK_BYTES) cs →
  rc_bytes r + total chunk_size cs <= MAX_STREAM_BYTES →
  Forall (λ c, (match ch_serialized c with Some _ => true | None => false end) = mode) cs →
  (rc_mode r = None ∨ rc_mode r = Some mode) →
  ∃ r', receive_all cs r = inr r' ∧ rc_last r' = true ∧ rc_mode r' = Some mode ∧
    rc_serialized r' = (rc_serialized r ++ concat (default [] ∘ ch_serialized <$> cs))%list ∧
    (rc_event r', rc_parts r') =
      (if mode then (rc_event r, rc_parts r)
       else foldl (λ s c, merge_fix_completed_chunk s.1 s.2 c) (rc_event r, rc_parts r) cs).
Proof.
  revert r. induction cs as [|c cs IH]; intros r Hm Hlast Hn Hsz Htot Hmode Hrm; [done|].
  apply Forall_cons in Hsz as [Hc Hsz]. apply Forall_cons in Hmode as [Hcm Hmode].
  cbn [total foldr] in Htot. fold (total chunk_size cs) in Htot. cbn [length] in Hn.
  assert (0 <= total chunk_size cs) as Hpos.
  { clear -Hsz. induction Hsz as [|x l Hx _ IH]; simpl; lia. }
  cbn [receive_all]. unfold receive_chunk. rewrite Hlast.
  rewrite (proj2 (Z.ltb_ge MAX_STREAM_CHUNKS _)) by lia.
  rewrite (proj2 (Z.ltb_ge MAX_STREAM_CHUNK_BYTES _)) by lia.
  rewrite (proj2 (Z.ltb_ge MAX_STREAM_BYTES _)) by lia. rewrite Hcm.
  replace (default mode (rc_mode r)) with mode by (destruct Hrm as [->| ->]; done).
  rewrite eqb_reflx. cbn [negb].
  destruct (if mode then _ else _) as [ev parts] eqn:Em.
  set (r1 := MkReceiver _ _ _ _ _ _ _).
  assert (Hstep : (ev, parts) = if mode then (rc_event r, rc_parts r)
                  else merge_fix_completed_chunk (rc_event r) (rc_parts r) c) by (by rewrite Em).
  destruct cs as [|c2 cs].
  - exists r1. simpl. rewrite app_nil_r. split_and!; try done.
  - destruct Hm as [Hcl Hm].
    destruct (IH r1) as (r' & Hr & Hl & Hmd & Hs & He); try done; try (unfold r1; cbn [rc_count rc_bytes]; lia); try by right.
    exists r'. split_and!; try done.
    + rewrite Hs. simpl. by rewrite <- app_assoc.
    + rewrite He. unfold r1. cbn [rc_event rc_parts]. rewrite Hstep. by destruct mode.
Qed.

(** A field of a chunk that marking does not touch. *)
Lemma fmap_mark_last {B} (f : FixCompletedChunk → B) l :
  (∀ c b, f (MkChunk (ch_header c) (ch_remaining_violations c) (ch_fixed_violations c) (ch_patches c)
               (ch_logs c) (ch_proposals c) (ch_fragment c) b (ch_serialized c)) = f c) →
  f <$> mark_last l = f <$> l.
Proof. intros Hf. induction l as [|c l IH]; [done|]. csimpl. by rewrite Hf, IH. Qed.

Lemma mark_last_marked l : l ≠ [] → well_marked (mark_last l).
Proof.
  induction l as [|c [|c2 l] IH]; intros Hl; [done|done|].
  cbn [mark_last well_marked]. cbn [mark_last] in IH. split; [done|]. by apply IH.
Qed.

Lemma Forall_mark_last (P : FixCompletedChunk → Prop) l :
  (∀ c b, P c → P (MkChunk (ch_header c) (ch_remaining_violations c) (ch_fixed_violations c)
               (ch_patches c) (ch_logs c) (ch_proposals c) (ch_fragment c) b (ch_serialized c))) →
  Forall P l → Forall P (mark_last l).
Proof. intros HP. induction 1 as [|c l Hc _ IH]; simpl; constructor; auto. Qed.

(** An event with a header and collected lists. *)
Definition assembled (h : FixCompletedEvent) (cs : list FixCompletedChunk) : FixCompletedEvent :=
  MkEvent (ev_scan_id h) (ev_session_id h) (ev_project_path h) (ev_source h) (ev_diagnostics h)
    (ev_summary h) (ev_report h) (ev_manifest h)
    (ev_remaining_violations h ++ collect ch_remaining_violations cs)
    (ev_fixed_violations h ++ collect ch_fixed_violations cs)
    (ev_patches h ++ collect ch_patches cs) (ev_logs h ++ collect ch_logs cs)
    (ev_proposals h ++ collect ch_proposals cs) (ev_content_graph_json h).

Lemma merge_body cs ev parts :
  Forall (λ c, ch_header c = None) cs →
  ∃ parts', foldl (λ s c, merge_fix_completed_chunk s.1 s.2 c) (ev, parts) cs
            = (assembled ev cs, parts') ∧
    concat parts' = (concat parts ++ concat (ch_fragment <$> cs))%list.
Proof.
  intros Hh. revert ev parts. induction Hh as [|c cs Hc _ IH]; intros ev parts.
  - exists parts. simpl. rewrite app_nil_r. split; [|done]. unfold assembled, collect. simpl.
    rewrite !app_nil_r. by destruct ev.
  - cbn [foldl]. destruct (merge_fix_completed_chunk _ _ c) as [ev1 parts1] eqn:Em.
    unfold merge_fix_completed_chunk in Em. rewrite Hc in Em. injection Em as <- <-.
    destruct (IH (MkEvent (ev_scan_id ev) (ev_session_id ev) (ev_project_path ev) (ev_source ev)
        (ev_diagnostics ev) (ev_summary ev) (ev_report ev) (ev_manifest ev)
        (ev_remaining_violations ev ++ ch_remaining_violations c)
        (ev_fixed_violations ev ++ ch_fixed_violations c) (ev_patches ev ++ ch_patches c)
        (ev_logs ev ++ ch_logs c) (ev_proposals ev ++ ch_proposals c) (ev_content_graph_json ev))
        (match ch_fragment c with [] => parts | f => parts ++ [f] end)) as (parts' & -> & Hp).
    exists parts'. split.
    + f_equal. unfold assembled, collect. csimpl. by rewrite <- !app_assoc.
    + rewrite Hp. csimpl. destruct (ch_fragment c); [done|].
      rewrite concat_app. simpl. by rewrite app_nil_r, <- app_assoc.
Qed.

(** The body carries every list, split into batches. *)
Lemma concat_fmap_nil {A B} (f : A → list B) l : (∀ x, f x = []) → concat (f <$> l) = [].
Proof. intros Hf. induction l as [|x l IH]; [done|]. csimpl. by rewrite Hf, IH. Qed.

Lemma concat_fmap_id {A B} (f : list A → B) (g : B → list A) l :
  (∀ x, g (f x) = x) → concat (g <$> (f <$> l)) = concat l.
Proof. intros Hf. induction l as [|x l IH]; [done|]. csimpl. by rewrite Hf, IH. Qed.

Lemma utf8_fragments_concat text limit fs : utf8_fragments text limit = Some fs → concat fs = text.
Proof.
  unfold utf8_fragments. destruct text as [|c text]; [by intros [= <-]|]. case_match; [done|].
  intros [= <-]. apply pack_concat.
Qed.

Lemma body_chunks_spec e limit body :
  body_chunks e limit = Some body →
  Forall (λ c, ch_header c = None ∧ ch_serialized c = None) body ∧
  collect ch_remaining_violations body = ev_remaining_violations e ∧
  collect ch_fixed_violations body = ev_fixed_violations e ∧
  collect ch_patches body = ev_patches e ∧ collect ch_logs body = ev_logs e ∧
  collect ch_proposals body = ev_proposals e ∧
  concat (ch_fragment <$> body) = ev_content_graph_json e.
Proof.
  unfold body_chunks. destruct (utf8_fragments _ limit) as [fs|] eqn:Ef; [|done]. simpl. intros [= <-].
  apply utf8_fragments_concat in Ef. split.
  { repeat (apply Forall_app; split); apply Forall_fmap, Forall_true; done. }
  unfold batch_messages.
  split_and!; unfold collect; rewrite !fmap_app, !concat_app.
  all: repeat lazymatch goal with
    | |- context [concat (?g <$> (?f <$> ?l))] =>
      first [rewrite (concat_fmap_id f g l) by done
            |rewrite <- (list_fmap_compose f g l), (concat_fmap_nil (g ∘ f) l) by done]
    end.
  all: by rewrite ?pack_concat, ?app_nil_r, ?app_nil_l.
Qed.

Lemma receive_new cs mode :
  well_marked cs → within_limits cs →
  Forall (λ c, (match ch_serialized c with Some _ => true | None => false end) = mode) cs →
  ∃ r', receive_all cs new_receiver = inr r' ∧ rc_last r' = true ∧ rc_mode r' = Some mode ∧
    rc_serialized r' = concat (default [] ∘ ch_serialized <$> cs) ∧
    (rc_event r', rc_parts r') =
      (if mode then (empty_event, [])
       else foldl (λ s c, merge_fix_completed_chunk s.1 s.2 c) (empty_event, []) cs).
Proof. intros Hm (Hn & Hs & Ht) Hmode. apply receive_all_ok; try done. by left. Qed.

(** A header has no payload. *)
Definition is_header (h : FixCompletedEvent) : Prop :=
  ev_remaining_violations h = [] ∧ ev_fixed_violations h = [] ∧ ev_patches h = [] ∧
  ev_logs h = [] ∧ ev_proposals h = [] ∧ ev_content_graph_json h = [].

Lemma merge_header h b :
  is_header h → merge_fix_completed_chunk empty_event [] (header_chunk h b) = (h, []).
Proof.
  intros (H1 & H2 & H3 & H4 & H5 & H6). unfold merge_fix_completed_chunk, copy_field. simpl. f_equal.
  destruct h as [? ? ? ? [] [] [] [] ? ? ? ? ? ?]; simpl in *; by subst.
Qed.

(** A typed stream: the header, then the body. *)
Lemma receive_typed h body b :
  ev_scan_id h ≠ EmptyString → is_header h →
  well_marked (header_chunk h b :: body) → within_limits (header_chunk h b :: body) →
  Forall (λ c, ch_header c = None ∧ ch_serialized c = None) body →
  report_fix_completed_stream (header_chunk h b :: body)
  = inr (set_graph (concat (ch_fragment <$> body)) (assembled h body)).
Proof.
  intros Hid Hh Hm Hl Hb. unfold report_fix_completed_stream.
  destruct (receive_new _ false Hm Hl) as (r & -> & -> & -> & _ & He).
  { constructor; [done|]. eapply Forall_impl; [exact Hb|]. by intros c [_ ->]. }
  destruct (merge_body body h []) as (parts & Hf & Hp).
  { eapply Forall_impl; [exact Hb|]. by intros c [? _]. }
  change (foldl _ _ _) with (foldl (λ s c, merge_fix_completed_chunk s.1 s.2 c)
    (merge_fix_completed_chunk empty_event [] (header_chunk h b)) body) in He.
  rewrite merge_header, Hf in He by done. injection He as -> ->. simpl in Hp. rewrite <- Hp.
  cbn [negb]. destruct parts as [|p parts]; rewrite decide_False by done; [|done].
  f_equal. unfold set_graph, assembled. simpl. by destruct Hh as (_ & _ & _ & _ & _ & ->).
Qed.

(** A serialized stream. *)
Lemma receive_serialized `{!FixProtoLaws} e n :
  ev_scan_id e ≠ EmptyString → (0 < n)%nat →
  let cs := mark_last ((λ f, MkChunk None [] [] [] [] [] [] false (Some f)) <$> slice n (SerializeToString e)) in
  within_limits cs → report_fix_completed_stream cs = inr e.
Proof.
  intros Hid Hn cs Hl. set (frames := (λ f, MkChunk None [] [] [] [] [] [] false (Some f)) <$> _) in cs.
  assert (frames ≠ []) as Hne.
  { unfold frames, slice. destruct (SerializeToString e) as [|b bs] eqn:Es; [|done].
    pose proof (parse_serialize e) as Hp. rewrite Es, parse_empty in Hp. injection Hp as <-. done. }
  unfold report_fix_completed_stream.
  destruct (receive_new cs true) as (r & -> & -> & -> & Hs & _); [by apply mark_last_marked|done| |].
  { apply Forall_mark_last; [done|]. apply Forall_fmap, Forall_true. done. }
  unfold cs in Hs. rewrite (fmap_mark_last (default [] ∘ ch_serialized)) in Hs by done.
  unfold frames in Hs. rewrite concat_fmap_id in Hs by done.
  unfold slice in Hs. rewrite slices_concat in Hs by done. rewrite Hs, parse_serialize. simpl.
  by rewrite decide_False.
Qed.

Lemma body_nonempty e limit body : has_payload e = true → body_chunks e limit = Some body → body ≠ [].
Proof.
  unfold has_payload. intros Hp Hb ->.
  apply body_chunks_spec in Hb as (_ & H1 & H2 & H3 & H4 & H5 & H6). unfold collect in *. simpl in *.
  rewrite bool_decide_eq_true_2 in Hp by done. done.
Qed.

(** *** Sizes of frames *)

(** A batch of items that fit a frame one by one makes a frame that fits. *)
Lemma batch_size items limit mm b :
  Forall (λ x, 0 <= ByteSize x <= mm - 10) items → limit <= mm - 16 →
  b ∈ batch_messages items limit → items_size b + 2 <= mm.
Proof.
  intros Hi Hl Hb.
  assert (Forall (λ x, 0 <= ByteSize x <= mm - 10) b) as Hbi.
  { rewrite <- (pack_concat (λ x, ByteSize x + 10) limit items) in Hi. rewrite Forall_concat in Hi.
    by eapply Forall_forall in Hi. }
  pose proof (pack_fits (λ x, ByteSize x + 10) limit items) as Hf. rewrite Forall_forall in Hf.
  destruct (Hf _ Hb) as [Hne [H1|Ht]].
  - destruct b as [|x [|? ?]]; try done. apply Forall_cons in Hbi as [Hx _].
    unfold items_size. simpl. lia.
  - assert (items_size b <= total (λ x, ByteSize x + 10) b); [|lia]. clear. unfold items_size.
    induction b as [|x b IH]; simpl; [done|]. lia.
Qed.

Lemma utf8_len_range c : 1 <= utf8_len c <= 4.
Proof. unfold utf8_len. repeat case_match; lia. Qed.

Lemma fragment_size text limit fs f :
  utf8_fragments text limit = Some fs → f ∈ fs → total utf8_len f <= Z.max limit 4.
Proof.
  unfold utf8_fragments. destruct text as [|c text]; [intros [= <-] Hf; by apply elem_of_nil in Hf|].
  case_match; [done|]. intros [= <-] Hf.
  pose proof (pack_fits utf8_len limit (c :: text)) as Hp. rewrite Forall_forall in Hp.
  destruct (Hp _ Hf) as [Hne [H1|Ht]]; [|lia].
  destruct f as [|x [|? ?]]; try done. simpl. pose proof (utf8_len_range x). lia.
Qed.

(** A frame with either final marker. *)
Definition fits_frame (mm : Z) (c : FixCompletedChunk) : Prop :=
  ∀ b, chunk_size (MkChunk (ch_header c) (ch_remaining_violations c) (ch_fixed_violations c)
         (ch_patches c) (ch_logs c) (ch_proposals c) (ch_fragment c) b (ch_serialized c)) <= mm.

Lemma mark_last_fits mm l : Forall (fits_frame mm) l → Forall (λ c, chunk_size c <= mm) (mark_last l).
Proof. induction 1 as [|c l Hc _ IH]; simpl; constructor; [apply Hc|done]. Qed.

Lemma requires_false e mm :
  requires_serialized_fragments e mm = false →
  chunk_size (header_chunk (header_from_event e false) false) <= mm ∧
  match ev_manifest e with
  | Some m => ByteSize m + chunk_size (header_chunk (header_from_event e false) false) + 10 <= mm
  | None => True
  end ∧
  Forall (λ x, ByteSize x <= mm - 10)
    (ev_remaining_violations e ++ ev_fixed_violations e ++ ev_patches e ++ ev_logs e
     ++ ev_proposals e).
Proof.
  unfold requires_serialized_fragments. rewrite !orb_false_iff.
  intros [[[Hb Hm] _] Hx]. apply Z.ltb_ge in Hb. split_and!; [done| |].
  - case_match; [by apply Z.ltb_ge in Hm|done].
  - apply Forall_forall. intros x Hin.
    destruct (decide (ByteSize x <= mm - 10)); [done|]. exfalso.
    apply not_true_iff_false in Hx. apply Hx, existsb_exists. exists x.
    split; [by apply list_elem_of_In|]. apply Z.ltb_lt. lia.
Qed.

Lemma header_bounded `{!FixProtoLaws} e mm :
  requires_serialized_fragments e mm = false →
  chunk_size (header_chunk (header_from_event e true) false) <= mm.
Proof.
  intros (Hb & Hm & _)%requires_false. destruct (ev_manifest e) as [m|] eqn:Em.
  - pose proof (header_manifest (header_from_event e true) m) as Hh.
    unfold header_from_event in *. cbn in *. rewrite Em in *. cbn in *. lia.
  - unfold header_from_event in *. rewrite Em. done.
Qed.

Lemma body_bounded `{!FixProtoLaws} e limit mm body :
  requires_serialized_fragments e mm = false → 1 <= limit → limit <= mm - 16 →
  body_chunks e limit = Some body → Forall (fits_frame mm) body.
Proof.
  intros (_ & _ & Hi)%requires_false Hl1 Hl. unfold body_chunks.
  destruct (utf8_fragments _ limit) as [fs|] eqn:Ef; [|done]. simpl. intros [= <-].
  assert (Forall (λ x, 0 <= ByteSize x <= mm - 10)
    (ev_remaining_violations e ++ ev_fixed_violations e ++ ev_patches e ++ ev_logs e ++ ev_proposals e))
    as Hi'.
  { eapply Forall_impl; [exact Hi|]. intros x Hx. split; [apply ByteSize_nonneg|done]. }
  rewrite !Forall_app in Hi'. destruct Hi' as (I1 & I2 & I3 & I4 & I5).
  repeat (apply Forall_app; split); apply Forall_fmap, Forall_forall; intros x Hx b; simpl.
  1-5: apply (batch_size _ _ mm) in Hx; [|done|done]; etrans; [apply body_size|]; unfold items_size in *; simpl; lia.
  etrans; [apply body_size|]. pose proof (fragment_size _ _ _ _ Ef Hx).
  unfold items_size. destruct x; simpl in *; lia.
Qed.

Lemma serialized_bounded `{!FixProtoLaws} n mm (bytes : list Byte) :
  (0 < n)%nat → Z.of_nat n <= mm - 16 →
  Forall (fits_frame mm) ((λ f, MkChunk None [] [] [] [] [] [] false (Some f)) <$> slice n bytes).
Proof.
  intros Hn Hm. apply Forall_fmap, Forall_forall. intros f Hf b. simpl.
  pose proof (slices_length (length bytes) n bytes) as Hs. rewrite Forall_forall in Hs.
  specialize (Hs f Hf). etrans; [apply body_size|]. unfold items_size. simpl. lia.
Qed.

Lemma body_chunks_total e limit : 1 <= limit → is_Some (body_chunks e limit).
Proof.
  intros Hl. unfold body_chunks, utf8_fragments. destruct (ev_content_graph_json e); [done|].
  rewrite (proj2 (Z.ltb_ge limit 1)) by done. done.
Qed.

(** ** Theorems *)

(** C24: What the gateway persists of what the engine streams.  The frames of an event with a
    scan id, within the receiver's limits, are accepted; an event that is streamed in
    serialized fragments is reassembled to itself; an event that is streamed in typed
    frames, the usual mode, arrives with its ids, violations, patches, logs, proposals and
    graph unchanged, but without the violations nested in its report, and with nested
    messages that were unset present and empty ([wire_event]). *)
Theorem stream_roundtrip `{!FixProtoLaws} e chunk_max message_max cs :
  ev_scan_id e ≠ EmptyString → yield_fix_completed_chunks e chunk_max message_max = Some cs →
  within_limits cs →
  report_fix_completed_stream cs
  = inr (if requires_serialized_fragments e message_max then e else wire_event e).
Proof.
  intros Hid Hy Hl. unfold yield_fix_completed_chunks in Hy.
  destruct (requires_serialized_fragments e message_max).
  { unfold serialized_event_chunks in Hy. case_match eqn:E; [done|]. injection Hy as <-.
    apply Z.ltb_ge in E. apply receive_serialized; [done|lia|done]. }
  case_match; [done|]. destruct (has_payload e) eqn:Hp.
  - destruct (body_chunks e _) as [body|] eqn:Hb; [|done]. simpl in Hy.
    assert (body ≠ []) as Hne by (by eapply body_nonempty).
    assert (cs = header_chunk (header_from_event e true) false :: mark_last body) as ->.
    { destruct body; [done|]. by injection Hy. }
    apply body_chunks_spec in Hb as (Hnone & E1 & E2 & E3 & E4 & E5 & E6).
    rewrite receive_typed; [|done|done| |done|].
    + f_equal. unfold set_graph, assembled, wire_event, collect. simpl.
      rewrite !fmap_mark_last by done. unfold collect in *. by rewrite E1, E2, E3, E4, E5, E6.
    + pose proof (mark_last_marked body Hne) as Hm. destruct body; [done|]. by split.
    + by apply Forall_mark_last.
  - injection Hy as <-. rewrite receive_typed; [|done|done|done|done|constructor].
    unfold has_payload in Hp. apply negb_false_iff, bool_decide_eq_true in Hp as (E1 & E2 & E3 & E4 & E5 & E6).
    f_equal. unfold set_graph, assembled, wire_event, collect. simpl. by rewrite E1, E2, E3, E4, E5, E6.
Qed.

(** The frames of an event: streaming fails exactly when the limits leave no room for a
    fragment; every frame of a stream with a body, or of the serialized form, is within the
    frame limit, and the single frame of an event without payload exceeds it by at most the
    two bytes of its final marker, which the size check does not count. *)
Theorem frames_bounded `{!FixProtoLaws} e chunk_max message_max :
  (is_Some (yield_fix_completed_chunks e chunk_max message_max) ↔
     1 <= chunk_max ∧ 17 <= message_max) ∧
  (∀ cs, yield_fix_completed_chunks e chunk_max message_max = Some cs →
    Forall (λ c, chunk_size c <=
      if has_payload e || requires_serialized_fragments e message_max
      then message_max else message_max + 2) cs).
Proof.
  unfold yield_fix_completed_chunks, serialized_event_chunks.
  destruct (requires_serialized_fragments e message_max) eqn:Er; rewrite ?orb_true_r, ?orb_false_r;
    destruct (Z.ltb_spec (Z.min chunk_max (message_max - 16)) 1) as [Hlim|Hlim].
  - split; [|done]. split; [by intros [? ?]|lia].
  - split; [split; [lia|done]|]. intros cs [= <-]. apply mark_last_fits, serialized_bounded; lia.
  - split; [|done]. split; [by intros [? ?]|lia].
  - destruct (body_chunks_total e (Z.min chunk_max (message_max - 16)) Hlim) as [body Hb].
    pose proof (header_bounded e message_max Er) as Hh.
    rewrite Hb. split; [split; [lia|by destruct (has_payload e)]|].
    intros cs. destruct (has_payload e) eqn:Hp; simpl; intros [= <-]; constructor; try done.
    + pose proof (body_nonempty e _ _ Hp Hb). pose proof (body_bounded e _ _ _ Er Hlim ltac:(lia) Hb).
      destruct body; [done|]. by apply mark_last_fits.
    + pose proof (header_last (header_from_event e true)). lia.
Qed.
End Report.

(** ** An instance

    Messages of given sizes, with the sizes of the wire format; a serialized event is one
    opaque token. *)

Module ChunkDemo.
Definition varint_len (n : Z) : Z :=
  if n <? 128 then 1 else if n <? 16384 then 2 else if n <? 2097152 then 3
  else if n <? 268435456 then 4 else 5.

Definition field (n : Z) : Z := 1 + varint_len n + n.

Definition opt_field {A} (size : A → Z) (x : option A) : Z :=
  match x with None => 0 | Some a => field (size a) end.

Definition str_field (n : Z) : Z := if n =? 0 then 0 else field n.

Definition demo_event := @FixCompletedEvent N.

Definition demo_report_size (r : @FixReport N) : Z :=
  total (λ x, field (Z.of_N x)) (fr_remaining_violations r)
  + total (λ x, field (Z.of_N x)) (fr_fixed_violations r).

Definition demo_event_size (e : demo_event) : Z :=
  str_field (Z.of_nat (String.length (ev_scan_id e)))
  + str_field (Z.of_nat (String.length (ev_session_id e)))
  + str_field (Z.of_nat (String.length (ev_project_path e)))
  + str_field (Z.of_nat (String.length (ev_source e)))
  + opt_field Z.of_N (ev_diagnostics e) + opt_field Z.of_N (ev_summary e)
  + opt_field demo_report_size (ev_report e) + opt_field Z.of_N (ev_manifest e)
  + total (λ x, field (Z.of_N x)) (ev_remaining_violations e)
  + total (λ x, field (Z.of_N x)) (ev_fixed_violations e)
  + total (λ x, field (Z.of_N x)) (ev_patches e) + total (λ x, field (Z.of_N x)) (ev_logs e)
  + total (λ x, field (Z.of_N x)) (ev_proposals e) + str_field (total utf8_len (ev_content_graph_json e)).

Definition demo_chunk_size (c : @FixCompletedChunk N demo_event) : Z :=
  opt_field demo_event_size (ch_header c)
  + total (λ x, field (Z.of_N x)) (ch_remaining_violations c)
  + total (λ x, field (Z.of_N x)) (ch_fixed_violations c)
  + total (λ x, field (Z.of_N x)) (ch_patches c) + total (λ x, field (Z.of_N x)) (ch_logs c)
  + total (λ x, field (Z.of_N x)) (ch_proposals c) + str_field (total utf8_len (ch_fragment c))
  + (if ch_last c then 2 else 0)
  + opt_field (λ f, Z.of_nat (length f)) (ch_serialized c).

Instance demo_proto : @FixProto N demo_event := {|
  event_size := demo_event_size;
  chunk_size := demo_chunk_size;
  SerializeToString e := [e];
  ParseFromString bs := match bs with [] => Some empty_event | [e] => Some e | _ => None end;
|}.

Lemma varint_len_range n : 1 <= varint_len n <= 5.
Proof. unfold varint_len. repeat case_match; lia. Qed.

Lemma field_bound n : n <= field n <= n + 6.
Proof. unfold field. pose proof (varint_len_range n). lia. Qed.

Lemma field_add a x : field (a + x) <= field a + x + 4.
Proof. unfold field. pose proof (varint_len_range (a + x)). pose proof (varint_len_range a). lia. Qed.

Lemma items_bound l : total (λ x, field (Z.of_N x)) l <= items_size Z.of_N l.
Proof.
  unfold items_size. induction l as [|x l IH]; simpl; [done|].
  pose proof (field_bound (Z.of_N x)). lia.
Qed.

#[local] Arguments field : simpl never.

Instance demo_laws : FixProtoLaws Z.of_N.
Proof.
  split; [done|done|lia| | |].
  - intros h. unfold chunk_size. simpl. unfold demo_chunk_size. cbn -[field total str_field]. lia.
  - intros h m. unfold chunk_size. simpl. unfold demo_chunk_size. cbn -[field total str_field demo_event_size].
    match goal with |- context [field (demo_event_size ?e) + _] =>
      lazymatch e with context [Some m] =>
        replace (demo_event_size e) with (demo_event_size (MkEvent (ev_scan_id h) (ev_session_id h)
          (ev_project_path h) (ev_source h) (ev_diagnostics h) (ev_summary h) (ev_report h) None
          [] [] [] [] [] []) + field (Z.of_N m)) by
          (unfold demo_event_size; cbn -[field str_field String.length demo_report_size]; lia)
      end
    end.
    match goal with |- context [field (?a + field _)] =>
      pose proof (field_add a (field (Z.of_N m))) end.
    pose proof (field_bound (Z.of_N m)). lia.
  - intros rv fv pa lo pr fr b s. cbn -[field total str_field].
    pose proof (items_bound rv). pose proof (items_bound fv). pose proof (items_bound pa).
    pose proof (items_bound lo). pose proof (items_bound pr). unfold demo_chunk_size.
    cbn -[field total str_field].
    assert (str_field (total utf8_len fr) <= match fr with [] => 0 | _ => total utf8_len fr + 6 end).
    { destruct fr; [done|]. unfold str_field. pose proof (field_bound (total utf8_len (n :: fr))).
      case_match; [|lia]. assert (0 <= total utf8_len (n :: fr)); [|lia]. clear.
      generalize (n :: fr). intros l. induction l as [|x l IH]; simpl; [done|].
      pose proof (utf8_len_range x). lia. }
    assert (opt_field (λ f, Z.of_nat (length f)) s
            <= match s with None => 0 | Some f => Z.of_nat (length f) + 6 end).
    { destruct s as [f|]; [|done]. simpl. pose proof (field_bound (Z.of_nat (length f))). lia. }
    destruct b; lia.
Qed.

(** Two violations, a patch and a graph, sent in frames of at most 100 bytes with batches
    of at most 30. *)
Definition sample : demo_event :=
  MkEvent "scan" "sess" "/p" "cli" (Some 3%N) None (Some (MkReport 1 1 0 1 false [7%N] []))
    (Some 5%N) [12%N; 7%N; 9%N] [4%N] [20%N; 60%N] [] [1%N] [104%N; 8364%N; 128512%N].

Definition sample_frames : list (@FixCompletedChunk N demo_event) :=
  default [] (yield_fix_completed_chunks Z.of_N 0%N sample 30 100).

Example sample_shape :
  ((λ c, (length (ch_remaining_violations c), length (ch_patches c), ch_last c)) <$> sample_frames)
  = [(0, 0, false); (1, 0, false); (1, 0, false); (1, 0, false); (0, 0, false); (0, 1, false);
     (0, 1, false); (0, 0, false); (0, 0, true)]%nat.
Proof. vm_compute. reflexivity. Qed.

Lemma stream_roundtrip_witness :
  report_fix_completed_stream sample_frames = inr (wire_event 0%N sample).
Proof.
  change (wire_event 0%N sample) with (if requires_serialized_fragments Z.of_N 0%N sample 100
    then sample else wire_event 0%N sample).
  apply (stream_roundtrip Z.of_N 0%N sample 30 100 sample_frames); [done|by vm_compute|].
  split; [|split].
  - apply Z.leb_le. vm_compute. reflexivity.
  - apply (Forall_impl (λ c, Is_true ((0 <=? chunk_size c) && (chunk_size c <=? MAX_STREAM_CHUNK_BYTES)))).
    + apply forallb_True. vm_compute. exact I.
    + intros c [H1 H2]%Is_true_true%andb_true_iff. lia.
  - apply Z.leb_le. vm_compute. reflexivity.
Defined.

Lemma frames_bounded_witness : Forall (λ c, chunk_size c <= 100) sample_frames.
Proof.
  apply (proj2 (frames_bounded Z.of_N 0%N sample 30 100) sample_frames). by vm_compute.
Defined.

(** An event without payload whose only frame is two bytes over the limit. *)
Definition bare : demo_event :=
  MkEvent "scan" "" "" "" (Some 3%N) (Some 3%N) None None [] [] [] [] [] [].

Example bare_frame_over_limit :
  (demo_chunk_size <$> default [] (yield_fix_completed_chunks Z.of_N 0%N bare 1024 20)) = [22].
Proof. vm_compute. reflexivity. Qed.
End ChunkDemo.
