(* ===== verification/Upload.v ===== *)
(** * Uploads

    [src/apme_engine/daemon/engine_upload.py], the two ingress paths of
    [daemon/engine_server.py] that use it ([_accumulate_chunks] and the upload branch of
    [FixSession]), and the client's [yield_scan_chunks] of [daemon/chunked_fs.py].

    File contents are byte strings.  The options carried by a chunk are opaque ([X]).
    Everything [_session_process] does is an argument of the handler. *)

From stdpp Require Import base list gmap strings sorting.
From Stdlib Require Import Ascii String.
From S2P Require Import Prelude PyStr Sha256 PyPath PyNum Deadline Session.

#[local] Open Scope string_scope.
#[local] Open Scope Z_scope.
#[local] Notation length := List.length.
#[local] Notation concat := List.concat.

(** [_normalize_upload_path]; [None] is the [ValueError]. *)
Definition normalize_upload_path (path : string) : option string :=
  let posix := lstrip_char SEP (sreplace "\" "/" path) in
  let normalized := normpath posix in
  if decide (normalized = "" ∨ normalized = "." ∨ normalized = ".." ∨
             startswith normalized "../" = true)
  then None else Some normalized.

(** ** Payload hashes *)

(** The bytes of a byte string. *)
Fixpoint raw_bytes (s : string) : list Z :=
  match s with "" => [] | String c s' => Z.of_N (code c) :: raw_bytes s' end.

(** What [_hash_upload_files] feeds to the digest. *)
Definition upload_preimage (files : list (string * string)) : list Z :=
  concat ((λ path, utf8 path ++ [0] ++ raw_bytes (default "" (dget path files)) ++ [0])%list
            <$> sort_by String.leb files.*1).

Definition hash_upload_files (files : list (string * string)) : string :=
  sconcat (hex 8 <$> sha256_words (upload_preimage files)).

(** ** Chunks *)

Section Upload.
Context {X : Type} (env : environ).

Record File := MkFile { f_path : string; f_content : string }.

Record ScanChunk := MkScanChunk {
  sk_scan_id : string;
  sk_project_root : string;
  sk_options : option X;
  sk_fix_options : option X;
  sk_files : list File;
  sk_last : bool;
}.

(** [_SESSION_MAX_UPLOAD_BYTES] and [_SESSION_MAX_UPLOAD_FILES] *)
Definition upload_caps : Z * Z :=
  let b := get_env_int env "APME_SESSION_MAX_UPLOAD_BYTES" (256 * 1024 * 1024) None in
  let f := get_env_int env "APME_SESSION_MAX_UPLOAD_FILES" 2000 None in
  if (b <=? 0) || (f <=? 0) then (256 * 1024 * 1024, 2000) else (b, f).

Definition MAX_UPLOAD_BYTES : Z := upload_caps.1.
Definition MAX_UPLOAD_FILES : Z := upload_caps.2.

Inductive upload_error :=
| AlreadySealed | BadPath (p : string) | TooManyFiles (n : Z) | TooManyBytes (n : Z)
| DifferentPayload.

(** The files of a chunk with normalized paths, or the first path that is refused. *)
Fixpoint normalize_files (files : list File) : upload_error + list (string * string) :=
  match files with
  | [] => inr []
  | f :: fs =>
    match normalize_upload_path (f_path f) with
    | None => inl (BadPath (f_path f))
    | Some p => match normalize_files fs with inl e => inl e | inr l => inr ((p, f_content f) :: l) end
    end
  end.

(** [for path, content in l: d[path] = content] *)
Definition dupdate (d l : list (string * string)) : list (string * string) :=
  foldl (λ d p, dset p.1 p.2 d) d l.

Definition slen (s : string) : Z := Z.of_nat (String.length s).

(** [sum(len(content) for content in d.values())] *)
Definition dbytes (d : list (string * string)) : Z := foldr (λ p n, slen p.2 + n) 0 d.

(** [_hash_upload_chunk] *)
Definition hash_upload_chunk (chunk : ScanChunk) : upload_error + string :=
  match normalize_files (sk_files chunk) with
  | inl e => inl e
  | inr staged => inr (hash_upload_files (dupdate [] staged))
  end.

(** ** Into a session *)

Definition set_files (original working : list (string * string)) (s : @SessionState X) : SessionState :=
  let r := ss_run s in
  let k := ss_kept s in
  MkSession (ss_id s)
    (MkRun working (ru_format_diffs r) (ru_tier1_patches r) (ru_proposals r) (ru_review_declined r)
       (ru_progress_logs r) (ru_report r) (ru_ai_proposals r) (ru_tier1_proposals r)
       (ru_remaining_ai r) (ru_remaining_manual r) (ru_dep_health r) (ru_awaiting_tier1_gate r)
       (ru_awaiting_assess r) (ru_awaiting_ai_triage r) (ru_content_graph r) (ru_graph_engine r)
       (ru_status r))
    (ss_clocks s)
    (MkKept original (kp_current_tier k) (kp_idempotency_ok k) (kp_fix_options k) (kp_scan_options k)
       (kp_assess_findings k) (kp_ai_triage_candidates k) (kp_ai_escalate_targets k)
       (kp_approved_ids k) (kp_approved_proposals k) (kp_rejected_proposals k) (kp_scan_id k)
       (kp_project_root k) (kp_manifest k) (kp_graph_originals k) (kp_pre_gate2_files k)
       (kp_upload_sealed k) (kp_upload_sealed_hash k) (kp_upload_sealed_chunk_hash k))
    (ss_temp_dir s) (ss_galaxy_cfg_path s).

Definition set_seal (sealed : bool) (h hc : string) (s : @SessionState X) : SessionState :=
  let k := ss_kept s in
  MkSession (ss_id s) (ss_run s) (ss_clocks s)
    (MkKept (kp_original_files k) (kp_current_tier k) (kp_idempotency_ok k) (kp_fix_options k)
       (kp_scan_options k) (kp_assess_findings k) (kp_ai_triage_candidates k)
       (kp_ai_escalate_targets k) (kp_approved_ids k) (kp_approved_proposals k)
       (kp_rejected_proposals k) (kp_scan_id k) (kp_project_root k) (kp_manifest k)
       (kp_graph_originals k) (kp_pre_gate2_files k) sealed h hc)
    (ss_temp_dir s) (ss_galaxy_cfg_path s).

Definition original_files (s : @SessionState X) : list (string * string) := kp_original_files (ss_kept s).
Definition working_files (s : @SessionState X) : list (string * string) := ru_working_files (ss_run s).
Definition upload_sealed (s : @SessionState X) : bool := kp_upload_sealed (ss_kept s).

(** [_session_upload_append] *)
Definition session_upload_append (s : SessionState) (chunk : ScanChunk) : upload_error + SessionState :=
  if upload_sealed s then inl AlreadySealed
  else
    match normalize_files (sk_files chunk) with
    | inl e => inl e
    | inr staged0 =>
      let staged := dupdate [] staged0 in
      let old := original_files s in
      let new_keys := filter (λ p, p ∉ old.*1) staged.*1 in
      let file_total := Z.of_nat (length old) + Z.of_nat (length new_keys) in
      if MAX_UPLOAD_FILES <? file_total then inl (TooManyFiles file_total)
      else
        let current_bytes := dbytes old in
        let replaced_bytes := foldr (λ p n, slen (default "" (dget p.1 old)) + n) 0
                                (filter (λ p, p.1 ∈ old.*1) staged) in
        let incoming_bytes := dbytes staged in
        let byte_total := current_bytes - replaced_bytes + incoming_bytes in
        if MAX_UPLOAD_BYTES <? byte_total then inl (TooManyBytes byte_total)
        else inr (set_files (dupdate old staged) (dupdate (working_files s) staged) s)
    end.

(** [_session_upload_start], on the session that the store created. *)
Definition session_upload_start (s : @SessionState X) (first : ScanChunk) : SessionState * string :=
  let scan_id := if decide (sk_scan_id first = "") then ss_id s else sk_scan_id first in
  let k := ss_kept s in
  (MkSession (ss_id s) (ss_run s) (ss_clocks s)
    (MkKept (kp_original_files k) (kp_current_tier k) (kp_idempotency_ok k)
       (match sk_fix_options first with Some o => Some o | None => kp_fix_options k end)
       (match sk_options first with Some o => Some o | None => kp_scan_options k end)
       (kp_assess_findings k) (kp_ai_triage_candidates k) (kp_ai_escalate_targets k)
       (kp_approved_ids k) (kp_approved_proposals k) (kp_rejected_proposals k) scan_id
       (sk_project_root first) (kp_manifest k) (kp_graph_originals k) (kp_pre_gate2_files k)
       (kp_upload_sealed k) (kp_upload_sealed_hash k) (kp_upload_sealed_chunk_hash k))
    (ss_temp_dir s) (ss_galaxy_cfg_path s), scan_id).

(** How [_session_process] ended. *)
Inductive process_end := ProcessOk | ProcessErrorEvent | ProcessRaised.

Inductive upload_result :=
| Refused (e : upload_error)        (* ValueError: the stream is aborted *)
| Stored
| Replayed                          (* duplicate terminal chunk: the state is replayed *)
| Processed (e : process_end).

(** [_unseal_after_failure] *)
Definition unseal_after_failure (is_dir : string → bool) (s : @SessionState X) : SessionState :=
  (reset_partial_run_state is_dir (set_seal false "" "" s)).1.

(** The [upload] branch of [FixSession] on an existing session. *)
Definition handle_upload (is_dir : string → bool)
    (session_process : SessionState → SessionState * process_end)
    (s : SessionState) (chunk : ScanChunk) : SessionState * upload_result :=
  if sk_last chunk && upload_sealed s then
    match hash_upload_chunk chunk with
    | inl e => (s, Refused e)
    | inr h => if decide (h = kp_upload_sealed_chunk_hash (ss_kept s)) then (s, Replayed)
               else (s, Refused DifferentPayload)
    end
  else
    match session_upload_append s chunk with
    | inl e => (s, Refused e)
    | inr s1 =>
      if sk_last chunk then
        match hash_upload_chunk chunk with
        | inl e => (s1, Refused e)
        | inr hc =>
          let '(s2, out) := session_process (set_seal true (hash_upload_files (original_files s1)) hc s1) in
          (match out with ProcessOk => s2 | _ => unseal_after_failure is_dir s2 end, Processed out)
        end
      else (s1, Stored)
    end.

(** ** Into a scan *)

Record accumulated := MkAcc {
  ac_files : list (string * string);
  ac_bytes : Z;
  ac_scan_id : string;
  ac_project_root : string;
  ac_options : option X;
  ac_fix_options : option X;
}.

Definition new_acc : accumulated := MkAcc [] 0 "" "project" None None.

(** The loop over the files of a chunk. *)
Fixpoint accumulate_files (staged all : list (string * string)) (total : Z)
    : upload_error + (list (string * string) * Z) :=
  match staged with
  | [] => inr (all, total)
  | (p, c) :: staged' =>
    let total' :=
      match dget p all with
      | None => total + slen c
      | Some old => total + (slen c - slen old)
      end in
    let all' := dset p c all in
    if MAX_UPLOAD_FILES <? Z.of_nat (length all') then inl (TooManyFiles (Z.of_nat (length all')))
    else if MAX_UPLOAD_BYTES <? total' then inl (TooManyBytes total')
    else accumulate_files staged' all' total'
  end.

Definition accumulate_chunk (a : accumulated) (chunk : ScanChunk) : upload_error + accumulated :=
  let scan_id := if decide (sk_scan_id chunk = "") then ac_scan_id a else sk_scan_id chunk in
  let root := if decide (sk_project_root chunk = "") then ac_project_root a else sk_project_root chunk in
  let opts := match sk_options chunk with Some o => Some o | None => ac_options a end in
  let fopts := match sk_fix_options chunk with Some o => Some o | None => ac_fix_options a end in
  match normalize_files (sk_files chunk) with
  | inl e => inl e
  | inr staged =>
    match accumulate_files (dupdate [] staged) (ac_files a) (ac_bytes a) with
    | inl e => inl e
    | inr (all, total) => inr (MkAcc all total scan_id root opts fopts)
    end
  end.

(** [_accumulate_chunks], up to the scan id that replaces an empty one. *)
Fixpoint accumulate_chunks (a : accumulated) (chunks : list ScanChunk) : upload_error + accumulated :=
  match chunks with
  | [] => inr a
  | c :: cs =>
    match accumulate_chunk a c with
    | inl e => inl e
    | inr a' => if sk_last c then inr a' else accumulate_chunks a' cs
    end
  end.

(** The same chunks appended to a session, up to and including the terminal one. *)
Fixpoint append_chunks (s : SessionState) (chunks : list ScanChunk) : upload_error + SessionState :=
  match chunks with
  | [] => inr s
  | c :: cs =>
    match session_upload_append s c with
    | inl e => inl e
    | inr s' => if sk_last c then inr s' else append_chunks s' cs
    end
  end.

(** ** From the client *)

(** The loop of [yield_scan_chunks]. *)
Section Client.
Context (scan_id project_root : string) (options : X) (chunk_max_bytes : Z).

Definition scan_chunk (first : bool) (files : list File) (last : bool) : ScanChunk :=
  if first then MkScanChunk scan_id project_root (Some options) None files last
  else MkScanChunk "" "" None None files last.

Definition file_msg_size (f : File) : Z := Z.of_nat (length (utf8 (f_path f))) + slen (f_content f).

Fixpoint scan_chunks_loop (files batch : list File) (batch_bytes : Z) (first : bool) : list ScanChunk :=
  match files with
  | [] => [scan_chunk first batch true]
  | f :: fs =>
    if negb (bool_decide (length batch = O)) && (chunk_max_bytes <? batch_bytes + file_msg_size f)
    then scan_chunk first batch false :: scan_chunks_loop fs [f] (file_msg_size f) false
    else scan_chunks_loop fs (batch ++ [f]) (batch_bytes + file_msg_size f) first
  end.

(** [yield_scan_chunks], on the files of the bundle. *)
Definition yield_scan_chunks (files : list File) : list ScanChunk :=
  match files with
  | [] => [MkScanChunk scan_id project_root (Some options) None [] true]
  | _ => scan_chunks_loop files [] 0 true
  end.
End Client.

(** ** Paths *)

Lemma lstrip_char_rel c s r : lstrip_char c s ≠ String c r.
Proof. induction s as [|d s IH]; simpl; [done|]. case_decide; [done|]. congruence. Qed.

Lemma resolve_lstrip s : resolve (lstrip_char SEP s) = resolve s.
Proof.
  induction s as [|d s IH]; [done|]. cbn [lstrip_char]. case_decide as Hd; [|done].
  subst. rewrite IH. unfold resolve. by rewrite split_on_cons_sep.
Qed.

Lemma prefix_split p s : String.prefix p s = true → ∃ r, s = p +:+ r.
Proof.
  revert s. induction p as [|c p IH]; intros s; [by exists s|].
  destruct s as [|d s]; simpl; [done|]. destruct (Ascii.ascii_dec c d) as [->|]; [|done].
  intros [r ->]%IH. by exists r.
Qed.

(** A text that joins entry names is none of the refused ones. *)
Lemma entry_names_accepted names :
  names ≠ [] → Forall entry_name names →
  ¬ (sjoin "/" names = "" ∨ sjoin "/" names = "." ∨ sjoin "/" names = ".." ∨
     startswith (sjoin "/" names) "../" = true).
Proof.
  intros Hne Hn.
  assert (split_on SEP (sjoin "/" names) = names) as Hs.
  { apply split_join; [done|]. eapply Forall_impl; [exact Hn|]. by intros x (_ & _ & _ & ?). }
  assert (∀ n, head names = Some n → entry_name n) as Hh.
  { intros n He. destruct names; [done|]. simplify_eq/=. by apply Forall_cons in Hn as [? _]. }
  unfold entry_name in Hh.
  intros [Hq|[Hq|[Hq|[r Hq]%prefix_split]]]; rewrite Hq in Hs; rewrite <- Hs in Hh.
  1-3: edestruct Hh as (? & ? & ? & _); [reflexivity|done].
  change ("../" +:+ r) with (".." +:+ String SEP r) in Hh. rewrite split_on_app in Hh by done.
  edestruct Hh as (? & ? & ? & _); [reflexivity|done].
Qed.

(** A stack whose outermost name is [..] is refused. *)
Lemma dotdot_refused n :
  last n = Some ".." → sjoin "/" (reverse n) = ".." ∨ startswith (sjoin "/" (reverse n)) "../" = true.
Proof.
  intros Hl. destruct n as [|x n] using rev_ind; [done|].
  rewrite last_snoc in Hl. simplify_eq. rewrite reverse_snoc.
  destruct (reverse n) as [|y l]; [by left|right].
  change (sjoin "/" (".." :: y :: l)) with ("../" +:+ sjoin "/" (y :: l)). apply prefix_app.
Qed.

Lemma normalize_resolve p :
  normalize_upload_path p =
    match resolve (sreplace "\" "/" p) with
    | Some (c :: cs) => Some (sjoin "/" (reverse (c :: cs)))
    | _ => None
    end.
Proof.
  unfold normalize_upload_path. set (q := sreplace "\" "/" p).
  rewrite normpath_rel by (intros r; apply lstrip_char_rel). rewrite resolve_lstrip.
  destruct (resolve q) as [[|c cs]|] eqn:Er.
  - done.
  - rewrite decide_False; [done|]. apply entry_names_accepted.
    + rewrite reverse_cons. by destruct (reverse cs).
    + apply Forall_reverse. eapply descend_entries; [apply (split_on_pieces SEP)|constructor|exact Er].
  - rewrite decide_True; [done|]. right. right. apply dotdot_refused.
    pose proof (tracks_foldl _ [] (Some []) (split_on_pieces SEP (lstrip_char SEP q))
                  (conj eq_refl (Forall_nil_2 _))) as Ht.
    fold (resolve (lstrip_char SEP q)) in Ht. by rewrite resolve_lstrip, Er in Ht.
Qed.

Lemma sreplace_id c d s : free_of c s → sreplace c d s = s.
Proof.
  unfold free_of, sreplace. induction s as [|x s IH]; simpl; [done|].
  rewrite andb_true_iff, bool_decide_eq_true. intros [Hx Hs]. by rewrite decide_False, IH.
Qed.

Lemma free_of_sreplace c d s : c ≠ d → free_of c (sreplace c d s).
Proof.
  intros Hcd. unfold free_of, sreplace. induction s as [|x s IH]; simpl; [done|].
  rewrite IH, andb_true_r, bool_decide_eq_true. case_decide; congruence.
Qed.

(** The pieces of a text lack what the text lacks. *)
Lemma split_on_free_of b c s : free_of b s → Forall (free_of b) (split_on c s).
Proof.
  unfold free_of. induction s as [|x s IH]; simpl; [by repeat constructor|].
  rewrite andb_true_iff. intros [Hx Hs]. specialize (IH Hs).
  destruct (decide (x = c)); [by constructor|].
  destruct (split_on c s) as [|q qs]; [repeat constructor; simpl; by rewrite Hx|].
  apply Forall_cons in IH as [Hq Hqs]. constructor; [|done]. simpl. by rewrite Hx, Hq.
Qed.

Lemma free_of_join b sep ls : free_of b sep → Forall (free_of b) ls → free_of b (sjoin sep ls).
Proof.
  unfold free_of. intros Hsep Hl. induction Hl as [|x ls Hx Hl IH]; [done|].
  destruct ls; [done|]. cbn [sjoin]. rewrite !sforall_app. by rewrite Hx, Hsep.
Qed.

Lemma descend_free b comps s s' :
  Forall (free_of b) comps → Forall (free_of b) s → foldl descend (Some s) comps = Some s' →
  Forall (free_of b) s'.
Proof.
  intros Hc. revert s. induction Hc as [|c comps Hc _ IH]; intros s Hs; simpl; [by intros [= <-]|].
  repeat case_decide; [by apply IH| |apply IH; by constructor].
  destruct s as [|x s]; simpl.
  - intros He. exfalso. clear -He. induction comps; simpl in He; done.
  - apply IH. by apply Forall_cons in Hs as [_ ?].
Qed.

(** What is accepted is canonical: entry names below the root, and a fixed point. *)
Lemma normalize_canonical p q :
  normalize_upload_path p = Some q →
  normalize_upload_path q = Some q ∧ Forall entry_name (split_on SEP q) ∧ free_of "\" q.
Proof.
  rewrite normalize_resolve. destruct (resolve _) as [[|c cs]|] eqn:Er; [done| |done].
  intros [= <-].
  assert (Forall entry_name (reverse (c :: cs))) as He.
  { apply Forall_reverse. eapply descend_entries; [apply (split_on_pieces SEP)|constructor|exact Er]. }
  assert (Forall (free_of "\") (reverse (c :: cs))) as Hb.
  { apply Forall_reverse. eapply descend_free; [|constructor|exact Er].
    by apply split_on_free_of, free_of_sreplace. }
  assert (reverse (c :: cs) ≠ []) as Hne by (rewrite reverse_cons; by destruct (reverse cs)).
  assert (split_on SEP (sjoin "/" (reverse (c :: cs))) = reverse (c :: cs)) as Hs.
  { apply split_join; [done|]. eapply Forall_impl; [exact He|]. by intros x (_ & _ & _ & ?). }
  assert (free_of "\" (sjoin "/" (reverse (c :: cs)))) as Hf by (by apply free_of_join).
  split_and!; [|by rewrite Hs|done].
  rewrite normalize_resolve, sreplace_id by done. unfold resolve.
  rewrite Hs, descend_names by done. by rewrite reverse_involutive, app_nil_r.
Qed.

(** ** Accounting *)

Implicit Types (d l : list (string * string)).

Lemma length_dset p c d :
  Z.of_nat (length (dset p c d)) = Z.of_nat (length d) + (if decide (p ∈ d.*1) then 0 else 1).
Proof.
  case_decide as Hp.
  - rewrite <- (length_fmap fst (dset p c d)), dkeys_dset_in, length_fmap by done. lia.
  - rewrite dkeys_dset_notin, length_app by done. simpl. lia.
Qed.

Lemma dbytes_app d l : dbytes (d ++ l)%list = dbytes d + dbytes l.
Proof. induction d as [|[p c] d IH]; simpl; lia. Qed.

Lemma dbytes_dset p c d :
  dbytes (dset p c d) = dbytes d + slen c - (match dget p d with Some o => slen o | None => 0 end).
Proof. induction d as [|[q o] d IH]; simpl; [lia|]. case_decide; simpl; lia. Qed.

Lemma dupdate_app d l l' : dupdate d (l ++ l')%list = dupdate (dupdate d l) l'.
Proof. apply foldl_app. Qed.

Lemma dget_dupdate_notin d l p : p ∉ l.*1 → dget p (dupdate d l) = dget p d.
Proof.
  revert d. induction l as [|[q c] l IH]; intros d Hp; simpl in *; [done|].
  rewrite IH by set_solver. apply dget_dset_ne. set_solver.
Qed.

Lemma dupdate_keys d l p : p ∈ (dupdate d l).*1 ↔ p ∈ d.*1 ∨ p ∈ l.*1.
Proof.
  revert d. induction l as [|[q c] l IH]; intros d; simpl; [set_solver|].
  rewrite IH, elem_of_dkeys_dset. set_solver.
Qed.

Lemma dupdate_NoDup d l : NoDup d.*1 → NoDup (dupdate d l).*1.
Proof. revert d. induction l as [|[q c] l IH]; intros d Hd; simpl; [done|]. by apply IH, dset_NoDup. Qed.

(** Assigning to a key that is present commutes with the other assignments. *)
Lemma dset_comm p q c e d : p ≠ q → p ∈ d.*1 → dset p c (dset q e d) = dset q e (dset p c d).
Proof.
  intros Hpq. induction d as [|[r o] d IH]; simpl; [set_solver|]. intros Hp.
  destruct (decide (q = r)) as [->|Hq]; simpl.
  - rewrite !(decide_False (P := p = r)) by done. simpl. by rewrite decide_True.
  - destruct (decide (p = r)); simpl.
    + by rewrite decide_False.
    + rewrite decide_False by done. rewrite IH; [done|set_solver].
Qed.

Lemma dset_dset p c e d : dset p c (dset p e d) = dset p c d.
Proof.
  induction d as [|[r o] d IH]; simpl; [by rewrite decide_True|].
  destruct (decide (p = r)); simpl; [by rewrite decide_True|]. by rewrite decide_False, IH.
Qed.

Lemma dset_dupdate p c d l :
  p ∈ d.*1 → p ∉ l.*1 → dset p c (dupdate d l) = dupdate (dset p c d) l.
Proof.
  revert d. induction l as [|[q e] l IH]; intros d Hp Hl; simpl in *; [done|].
  rewrite IH; [|apply elem_of_dkeys_dset; by right|set_solver]. f_equal.
  apply dset_comm; set_solver.
Qed.

Lemma dupdate_dset p c d l :
  NoDup l.*1 → dupdate d (dset p c l) = dset p c (dupdate d l).
Proof.
  revert d. induction l as [|[q e] l IH]; intros d; simpl; [done|].
  intros [Hq Hl]%NoDup_cons. destruct (decide (p = q)) as [->|Hpq]; simpl.
  - rewrite dset_dupdate, dset_dset; [done| |done]. apply elem_of_dkeys_dset. by left.
  - by apply IH.
Qed.

(** Repeated paths: the last copy wins, whether or not the chunk is deduplicated first. *)
Lemma dupdate_dedup d l : dupdate d (dupdate [] l) = dupdate d l.
Proof.
  induction l as [|[p c] l IH] using rev_ind; [done|].
  rewrite !dupdate_app. simpl. rewrite dupdate_dset; [by rewrite IH|]. apply dupdate_NoDup. constructor.
Qed.

Lemma dupdate_fresh d l : NoDup l.*1 → (∀ p, p ∈ l.*1 → p ∉ d.*1) → dupdate d l = (d ++ l)%list.
Proof.
  revert d. induction l as [|[p c] l IH]; intros d; simpl; [by rewrite app_nil_r|].
  intros [Hp Hl]%NoDup_cons Hf. rewrite dkeys_dset_notin by set_solver. rewrite IH; [|done|].
  - by rewrite <- app_assoc.
  - intros q Hq. rewrite fmap_app. set_solver.
Qed.

Lemma file_total_exact d l :
  NoDup l.*1 →
  Z.of_nat (length d) + Z.of_nat (length (filter (λ p, p ∉ d.*1) l.*1))
  = Z.of_nat (length (dupdate d l)).
Proof.
  revert d. induction l as [|[p c] l IH]; intros d; csimpl; [simpl; lia|].
  intros [Hp Hl]%NoDup_cons. rewrite <- IH, length_dset by done.
  rewrite (filter_ext_in (λ q, q ∉ (dset p c d).*1) (λ q, q ∉ d.*1)).
  - rewrite filter_cons. destruct (decide (p ∈ d.*1)).
    + rewrite (decide_False (P := p ∉ d.*1)) by auto. lia.
    + rewrite (decide_True (P := p ∉ d.*1)) by done. cbn [length]. lia.
  - intros q Hq. rewrite elem_of_dkeys_dset. split; [set_solver|]. intros Hn [->|?]; set_solver.
Qed.

Lemma byte_total_exact d l :
  NoDup l.*1 →
  dbytes d - foldr (λ p n, slen (default "" (dget p.1 d)) + n) 0 (filter (λ p, p.1 ∈ d.*1) l) + dbytes l
  = dbytes (dupdate d l).
Proof.
  revert d. induction l as [|[p c] l IH]; intros d; csimpl; [simpl; lia|].
  intros [Hp Hl]%NoDup_cons. rewrite <- IH, dbytes_dset by done.
  rewrite (filter_ext_in (λ q, q.1 ∈ (dset p c d).*1) (λ q, q.1 ∈ d.*1)).
  2: { intros [q e] Hq. rewrite elem_of_dkeys_dset. simpl. split; [|set_solver]. intros [->|?]; [|done].
       exfalso. apply Hp, list_elem_of_fmap. by exists (p, e). }
  assert (∀ l', (∀ x, x ∈ l' → x.1 ≠ p) →
    foldr (λ p n, slen (default "" (dget p.1 d)) + n) 0 l'
    = foldr (λ q n, slen (default "" (dget q.1 (dset p c d))) + n) 0 l') as Heq.
  { induction l' as [|[q e] l' IHl]; intros Hn; simpl; [done|].
    rewrite dget_dset_ne, IHl; [done|set_solver|]. apply (Hn (q, e)). by left. }
  rewrite <- Heq.
  2: { intros x [_ Hx]%list_elem_of_filter Hxp. apply Hp, list_elem_of_fmap. by exists x. }
  rewrite filter_cons. simpl. destruct (dget p d) as [o|] eqn:Eg.
  - rewrite decide_True by (apply dget_is_Some; by eexists). simpl. rewrite Eg. simpl. lia.
  - rewrite decide_False by (by apply dget_None). lia.
Qed.

(** ** Caps *)

Definition within_caps d : Prop :=
  Z.of_nat (length d) <= MAX_UPLOAD_FILES ∧ dbytes d <= MAX_UPLOAD_BYTES.

Lemma caps_positive : 0 < MAX_UPLOAD_BYTES ∧ 0 < MAX_UPLOAD_FILES.
Proof.
  unfold MAX_UPLOAD_BYTES, MAX_UPLOAD_FILES, upload_caps.
  destruct (Z.leb_spec (get_env_int env "APME_SESSION_MAX_UPLOAD_BYTES" (256 * 1024 * 1024) None) 0);
    destruct (Z.leb_spec (get_env_int env "APME_SESSION_MAX_UPLOAD_FILES" 2000 None) 0); simpl; lia.
Qed.

Lemma within_caps_nil : within_caps [].
Proof. pose proof caps_positive. split; simpl; lia. Qed.

Lemma slen_nonneg c : 0 <= slen c.
Proof. unfold slen. lia. Qed.

(** [_session_upload_append] in terms of the files that result. *)
Lemma append_unfold s chunk :
  session_upload_append s chunk =
    if upload_sealed s then inl AlreadySealed
    else match normalize_files (sk_files chunk) with
         | inl e => inl e
         | inr l =>
           let d := dupdate (original_files s) l in
           if MAX_UPLOAD_FILES <? Z.of_nat (length d) then inl (TooManyFiles (Z.of_nat (length d)))
           else if MAX_UPLOAD_BYTES <? dbytes d then inl (TooManyBytes (dbytes d))
           else inr (set_files d (dupdate (working_files s) l) s)
         end.
Proof.
  unfold session_upload_append. destruct (upload_sealed s); [done|].
  destruct (normalize_files (sk_files chunk)) as [e|l]; [done|]. cbv zeta.
  assert (NoDup (dupdate [] l).*1) as Hnd by (apply dupdate_NoDup; constructor).
  rewrite (file_total_exact _ _ Hnd), (byte_total_exact _ _ Hnd), !dupdate_dedup. done.
Qed.

Lemma append_ok s chunk s' :
  session_upload_append s chunk = inr s' ↔
    upload_sealed s = false ∧
    ∃ l, normalize_files (sk_files chunk) = inr l ∧ within_caps (dupdate (original_files s) l) ∧
      s' = set_files (dupdate (original_files s) l) (dupdate (working_files s) l) s.
Proof.
  rewrite append_unfold. destruct (upload_sealed s); [naive_solver|].
  destruct (normalize_files (sk_files chunk)) as [e|l]; [naive_solver|]. cbv zeta. unfold within_caps.
  destruct (Z.ltb_spec MAX_UPLOAD_FILES (Z.of_nat (length (dupdate (original_files s) l)))).
  { split; [done|]. intros (_ & l' & [= <-] & ? & _). lia. }
  destruct (Z.ltb_spec MAX_UPLOAD_BYTES (dbytes (dupdate (original_files s) l))).
  { split; [done|]. intros (_ & l' & [= <-] & ? & _). lia. }
  split; [intros [= <-]; eauto 10 with lia|]. intros (_ & l' & [= <-] & _ & ->). done.
Qed.

(** ** Accumulation *)

Lemma accumulate_files_app l1 l2 all total :
  accumulate_files (l1 ++ l2)%list all total =
    match accumulate_files l1 all total with
    | inl e => inl e
    | inr (all', total') => accumulate_files l2 all' total'
    end.
Proof.
  revert all total. induction l1 as [|[p c] l1 IH]; intros all total; simpl; [done|].
  destruct (_ <? _); [done|]. destruct (_ <? _); [done|]. apply IH.
Qed.

Lemma accumulate_files_ok l all all' total' :
  within_caps all → accumulate_files l all (dbytes all) = inr (all', total') →
  all' = dupdate all l ∧ total' = dbytes all' ∧ within_caps all'.
Proof.
  revert all. induction l as [|[p c] l IH]; intros all Hw; simpl.
  { by intros [= <- <-]. }
  replace (match dget p all with Some old => dbytes all + (slen c - slen old) | None => dbytes all + slen c end)
    with (dbytes (dset p c all)) by (rewrite dbytes_dset; destruct (dget p all); lia).
  destruct (Z.ltb_spec MAX_UPLOAD_FILES (Z.of_nat (length (dset p c all)))); [done|].
  destruct (Z.ltb_spec MAX_UPLOAD_BYTES (dbytes (dset p c all))); [done|].
  apply IH. by split.
Qed.

(** Fresh files only add to the totals. *)
Lemma accumulate_files_fresh l all :
  NoDup l.*1 → (∀ p, p ∈ l.*1 → p ∉ all.*1) → within_caps (dupdate all l) →
  accumulate_files l all (dbytes all) = inr (dupdate all l, dbytes (dupdate all l)).
Proof.
  intros Hnd Hf. rewrite dupdate_fresh by done. revert all Hf.
  induction l as [|[p c] l IH]; intros all Hf [Hw1 Hw2]; simpl; [by rewrite app_nil_r|].
  csimpl in Hnd. apply NoDup_cons in Hnd as [Hp Hnd].
  rewrite (proj2 (dget_None p all)) by (apply Hf; set_solver).
  rewrite dkeys_dset_notin by (apply Hf; set_solver).
  rewrite length_app in *. rewrite dbytes_app in Hw2. simpl in *.
  assert (0 <= dbytes l) by (clear; induction l as [|[q e] l IH]; simpl; [done|]; pose proof (slen_nonneg e); lia).
  rewrite (proj2 (Z.ltb_ge MAX_UPLOAD_FILES _)) by lia.
  rewrite (proj2 (Z.ltb_ge MAX_UPLOAD_BYTES _)) by lia.
  replace (dbytes all + slen c) with (dbytes (all ++ [(p, c)])%list) by (rewrite dbytes_app; simpl; lia).
  rewrite IH; [by rewrite <- app_assoc|done| |].
  - intros q Hq. rewrite fmap_app, not_elem_of_app. split; [apply Hf; set_solver|set_solver].
  - split; [rewrite !length_app; simpl; lia|rewrite !dbytes_app; simpl; lia].
Qed.

(** The two ingress paths hold the same files. *)
Record same_upload (a : accumulated) (s : SessionState) : Prop := {
  su_files : original_files s = ac_files a;
  su_bytes : ac_bytes a = dbytes (ac_files a);
  su_caps : within_caps (ac_files a);
  su_open : upload_sealed s = false;
}.

Lemma same_upload_step a s c a' :
  same_upload a s → accumulate_chunk a c = inr a' →
  ∃ s', session_upload_append s c = inr s' ∧ same_upload a' s'.
Proof.
  intros [Hf Hb Hc Ho] Ha. unfold accumulate_chunk in Ha.
  destruct (normalize_files (sk_files c)) as [e|l] eqn:En; [done|]. rewrite Hb in Ha.
  destruct (accumulate_files _ _ _) as [e|[all t]] eqn:Ea; [done|].
  apply accumulate_files_ok in Ea as (-> & -> & Hw); [|done]. injection Ha as <-.
  rewrite dupdate_dedup in *. eexists. split.
  - apply append_ok. split; [done|]. exists l. split; [done|]. rewrite Hf. split; [done|reflexivity].
  - split; simpl; try done.
Qed.

Lemma same_upload_run chunks a s a' :
  same_upload a s → accumulate_chunks a chunks = inr a' →
  ∃ s', append_chunks s chunks = inr s' ∧ same_upload a' s'.
Proof.
  revert a s. induction chunks as [|c cs IH]; intros a s Hs; simpl; [intros [= <-]; eauto|].
  destruct (accumulate_chunk a c) as [e|a1] eqn:Ea; [done|].
  destruct (same_upload_step _ _ _ _ Hs Ea) as (s1 & -> & Hs1).
  destruct (sk_last c); [intros [= <-]; eauto|]. by apply IH.
Qed.

Definition chunk_paths (c : ScanChunk) : list string :=
  match normalize_files (sk_files c) with inr l => l.*1 | inl _ => [] end.

Lemma fresh_step a s c s' :
  same_upload a s → NoDup (chunk_paths c) → (∀ p, p ∈ chunk_paths c → p ∉ (ac_files a).*1) →
  session_upload_append s c = inr s' →
  ∃ a', accumulate_chunk a c = inr a' ∧ same_upload a' s' ∧
    (∀ p, p ∈ (ac_files a').*1 → p ∈ (ac_files a).*1 ∨ p ∈ chunk_paths c).
Proof.
  intros Hs Hnd Hfr Happ. assert (Hs0 := Hs). destruct Hs as [Hf Hb Hc Ho].
  assert (Happ0 := Happ). apply append_ok in Happ as (_ & l & En & Hw & ->).
  unfold chunk_paths in *. rewrite En in *. rewrite Hf in Hw.
  assert (accumulate_chunk a c = inr (MkAcc (dupdate (ac_files a) l) (dbytes (dupdate (ac_files a) l))
    (if decide (sk_scan_id c = "") then ac_scan_id a else sk_scan_id c)
    (if decide (sk_project_root c = "") then ac_project_root a else sk_project_root c)
    (match sk_options c with Some o => Some o | None => ac_options a end)
    (match sk_fix_options c with Some o => Some o | None => ac_fix_options a end))) as Ha.
  { unfold accumulate_chunk. rewrite En, Hb.
    rewrite (dupdate_fresh [] l) by (done || (intros; set_solver)). simpl.
    by rewrite accumulate_files_fresh. }
  eexists. split; [exact Ha|]. split.
  - split; simpl; try done. by rewrite Hf.
  - simpl. intros p Hp. by apply dupdate_keys in Hp.
Qed.

Lemma fresh_run chunks a s s' :
  same_upload a s → NoDup (concat (chunk_paths <$> chunks)) →
  (∀ p, p ∈ concat (chunk_paths <$> chunks) → p ∉ (ac_files a).*1) →
  append_chunks s chunks = inr s' →
  ∃ a', accumulate_chunks a chunks = inr a'.
Proof.
  revert a s. induction chunks as [|c cs IH]; intros a s Hs Hnd Hfr; simpl; [eauto|].
  csimpl in Hnd. apply NoDup_app in Hnd as (Hn1 & Hn2 & Hn3).
  destruct (session_upload_append s c) as [e|s1] eqn:Ea; [done|].
  destruct (fresh_step a s c s1) as (a1 & -> & Hs1 & Hk); [done|done| |done|].
  { intros p Hp. apply Hfr. csimpl. apply elem_of_app. by left. }
  destruct (sk_last c); [eauto|]. apply (IH a1 s1); [done|done|].
  intros p Hp Hin. apply Hk in Hin as [Hin|Hin].
  - revert Hin. apply Hfr. csimpl. apply elem_of_app. by right.
  - by apply (Hn2 p).
Qed.

(** ** Chunking at the client *)

Lemma normalize_files_app fs1 fs2 :
  normalize_files (fs1 ++ fs2)%list =
    match normalize_files fs1 with
    | inl e => inl e
    | inr l1 => match normalize_files fs2 with inl e => inl e | inr l2 => inr (l1 ++ l2)%list end
    end.
Proof.
  induction fs1 as [|f fs1 IH]; simpl; [by destruct (normalize_files fs2)|].
  destruct (normalize_upload_path (f_path f)); [|done]. rewrite IH.
  destruct (normalize_files fs1); [done|]. by destruct (normalize_files fs2).
Qed.

Section ClientProps.
Context (scan_id project_root : string) (options : X) (chunk_max_bytes : Z).
Notation scan_chunk := (scan_chunk scan_id project_root options).

(** A terminal chunk is as good as its files sent in two chunks. *)
Lemma accumulate_chunk_split a first fs1 fs2 l :
  normalize_files (fs1 ++ fs2)%list = inr l → NoDup l.*1 →
  accumulate_chunk a (scan_chunk first (fs1 ++ fs2)%list true) =
    match accumulate_chunk a (scan_chunk first fs1 false) with
    | inl e => inl e
    | inr a' => accumulate_chunk a' (scan_chunk false fs2 true)
    end.
Proof.
  rewrite normalize_files_app.
  destruct (normalize_files fs1) as [e|l1] eqn:E1; [done|].
  destruct (normalize_files fs2) as [e|l2] eqn:E2; [done|]. intros [= <-] Hnd.
  rewrite fmap_app in Hnd. assert (Hnd0 := Hnd). apply NoDup_app in Hnd as (H1 & _ & H2).
  assert (∀ l, NoDup l.*1 → dupdate [] l = l) as Hid.
  { intros l Hl. rewrite dupdate_fresh; [done|done|]. intros p _. set_solver. }
  unfold accumulate_chunk, Upload.scan_chunk.
  destruct first; simpl; rewrite normalize_files_app, E1, E2, !Hid by (by rewrite ?fmap_app);
    rewrite accumulate_files_app; destruct (accumulate_files l1 _ _) as [e|[all t]]; try done;
    simpl; rewrite E2, Hid by done; destruct (accumulate_files l2 _ _) as [e|[all' t']]; done.
Qed.

Lemma scan_chunks_loop_spec fs batch bytes first a l :
  normalize_files (batch ++ fs)%list = inr l → NoDup l.*1 →
  accumulate_chunks a (scan_chunks_loop scan_id project_root options chunk_max_bytes fs batch bytes first)
  = accumulate_chunk a (scan_chunk first (batch ++ fs)%list true).
Proof.
  revert batch bytes first a l. induction fs as [|f fs IH]; intros batch bytes first a l Hn Hnd.
  { cbn [scan_chunks_loop accumulate_chunks]. rewrite app_nil_r.
    replace (sk_last (scan_chunk first batch true)) with true by (by destruct first).
    by destruct (accumulate_chunk _ _). }
  cbn [scan_chunks_loop]. destruct (_ && _).
  - rewrite (accumulate_chunk_split a first batch (f :: fs) l Hn Hnd). cbn [accumulate_chunks].
    destruct (accumulate_chunk a _) as [e|a']; [done|].
    replace (sk_last (scan_chunk first batch false)) with false by (by destruct first).
    rewrite normalize_files_app in Hn. destruct (normalize_files batch) as [|l1]; [done|].
    destruct (normalize_files (f :: fs)) as [|l2] eqn:E2; [done|]. injection Hn as <-.
    rewrite fmap_app in Hnd. apply NoDup_app in Hnd as (_ & _ & Hnd).
    by apply (IH [f] _ false a' l2).
  - rewrite (IH (batch ++ [f])%list _ first a l); rewrite <- ?app_assoc; done.
Qed.
End ClientProps.

(** ** Retries *)

Lemma dupdate_same d l : (∀ p c, (p, c) ∈ l → dget p d = Some c) → dupdate d l = d.
Proof.
  induction l as [|[p c] l IH]; intros Hl; simpl; [done|].
  rewrite dset_same by (apply Hl; by left). apply IH. intros q e Hq. apply Hl. by right.
Qed.

Lemma dget_dupdate d l p c : NoDup l.*1 → (p, c) ∈ l → dget p (dupdate d l) = Some c.
Proof.
  revert d. induction l as [|[q e] l IH]; intros d; csimpl; [set_solver|].
  intros [Hq Hnd]%NoDup_cons [Heq|Hin]%elem_of_cons; [|by apply IH].
  simplify_eq. simpl. rewrite dget_dupdate_notin by done. apply dget_dset_eq.
Qed.

Lemma dupdate_idem d l : dupdate (dupdate d l) l = dupdate d l.
Proof.
  rewrite <- (dupdate_dedup (dupdate d l) l). apply dupdate_same. intros p c Hin.
  rewrite <- (dupdate_dedup d l). apply dget_dupdate; [|done]. apply dupdate_NoDup. constructor.
Qed.

Lemma unseal_files is_dir (s : @SessionState X) :
  original_files (unseal_after_failure is_dir s) = original_files s ∧
  working_files (unseal_after_failure is_dir s) = original_files s ∧
  upload_sealed (unseal_after_failure is_dir s) = false.
Proof.
  unfold unseal_after_failure, reset_partial_run_state, cleanup_temp_dir. simpl.
  destruct (ss_temp_dir s) as [d|]; [|done]. by destruct (is_dir d).
Qed.

(** ** Theorems *)

(** An upload path is resolved as a walk from the session root: it is accepted exactly
    when no prefix of it steps above the root and it ends below the root, and the result
    is the names on that walk.  Accepted paths are canonical: normalizing again changes
    nothing, every component is the name of an entry (not empty, [.] or [..]), and no
    backslash is left. *)
Theorem upload_path_confined p :
  normalize_upload_path p =
    match resolve (sreplace "\" "/" p) with
    | Some (c :: cs) => Some (sjoin "/" (reverse (c :: cs)))
    | _ => None
    end ∧
  (∀ q, normalize_upload_path p = Some q →
     normalize_upload_path q = Some q ∧ Forall entry_name (split_on SEP q) ∧ free_of "\" q).
Proof. split; [apply normalize_resolve|apply normalize_canonical]. Qed.

(** The cap checks of a session upload are exact: the totals computed from set
    differences and replaced sizes before anything is stored are the number of files and
    bytes that the session would hold, with the last copy of a repeated path; a refused
    chunk stores nothing and an accepted one stores exactly these files. *)
Theorem upload_admission_exact s chunk :
  session_upload_append s chunk =
    if upload_sealed s then inl AlreadySealed
    else match normalize_files (sk_files chunk) with
         | inl e => inl e
         | inr l =>
           let d := dupdate (original_files s) l in
           if MAX_UPLOAD_FILES <? Z.of_nat (length d) then inl (TooManyFiles (Z.of_nat (length d)))
           else if MAX_UPLOAD_BYTES <? dbytes d then inl (TooManyBytes (dbytes d))
           else inr (set_files d (dupdate (working_files s) l) s)
         end.
Proof. apply append_unfold. Qed.

(** The streaming scan and the session upload take in the same payloads: what
    [_accumulate_chunks] accepts a new session accepts, with the same files; when no path
    is sent twice the converse holds. *)
Theorem ingress_agreement chunks (s : SessionState) :
  original_files s = [] → upload_sealed s = false →
  (∀ a, accumulate_chunks new_acc chunks = inr a →
     ∃ s', append_chunks s chunks = inr s' ∧ original_files s' = ac_files a) ∧
  (NoDup (concat (chunk_paths <$> chunks)) →
   ∀ s', append_chunks s chunks = inr s' → ∃ a, accumulate_chunks new_acc chunks = inr a).
Proof.
  intros Hf Ho.
  assert (same_upload new_acc s) as Hs.
  { split; [done|done|apply within_caps_nil|done]. }
  split.
  - intros a Ha. destruct (same_upload_run _ _ _ _ Hs Ha) as (s' & Hr & Hs'). exists s'.
    split; [done|apply Hs'].
  - intros Hnd s' Hs'. eapply fresh_run; [exact Hs|done| |exact Hs']. simpl. intros. set_solver.
Qed.

(** How the client cuts its files into chunks is invisible to the daemon: for files
    with distinct paths, the stream and one chunk with all files accumulate to the same
    result, the same error included. *)
Theorem scan_chunking_invisible scan_id project_root options chunk_max_bytes files l :
  normalize_files files = inr l → NoDup l.*1 →
  accumulate_chunks new_acc (yield_scan_chunks scan_id project_root options chunk_max_bytes files)
  = accumulate_chunk new_acc (MkScanChunk scan_id project_root (Some options) None files true).
Proof.
  intros Hn Hnd. destruct files as [|f fs].
  - cbn [yield_scan_chunks accumulate_chunks sk_last]. by destruct (accumulate_chunk _ _).
  - exact (scan_chunks_loop_spec _ _ _ _ (f :: fs) [] 0 true new_acc l Hn Hnd).
Qed.

(** A sealed session is final: further chunks never change it, and only a terminal
    chunk with the hash of the sealed one is replayed.  After a failed run the session is
    open again, and the retried terminal chunk is accepted and gives the files of the
    failed run, both as originals and as working copies. *)
Theorem terminal_chunk_protocol is_dir session_process (s : SessionState) chunk :
  (∀ x, original_files (session_process x).1 = original_files x) →
  let '(s', r) := handle_upload is_dir session_process s chunk in
  (upload_sealed s = true →
     s' = s ∧ (r = Replayed ↔ sk_last chunk = true ∧
                 hash_upload_chunk chunk = inr (kp_upload_sealed_chunk_hash (ss_kept s))) ∧
     (r = Replayed ∨ ∃ e, r = Refused e)) ∧
  (r = Processed ProcessErrorEvent ∨ r = Processed ProcessRaised →
     upload_sealed s' = false ∧
     ∃ s'', session_upload_append s' chunk = inr s'' ∧ original_files s'' = original_files s' ∧
       working_files s'' = original_files s').
Proof.
  intros Hproc. destruct (handle_upload is_dir session_process s chunk) as [s' r] eqn:Eh.
  unfold handle_upload in Eh. split.
  - intros Hse. rewrite Hse, andb_true_r in Eh. destruct (sk_last chunk).
    + destruct (hash_upload_chunk chunk) as [e|h]; [naive_solver|]. case_decide; naive_solver.
    + unfold session_upload_append in Eh. rewrite Hse in Eh. naive_solver.
  - intros Hr. destruct (sk_last chunk && upload_sealed s).
    { destruct (hash_upload_chunk chunk); [naive_solver|]. case_decide; naive_solver. }
    destruct (session_upload_append s chunk) as [e|s1] eqn:Ea; [naive_solver|].
    destruct (sk_last chunk); [|naive_solver]. destruct (hash_upload_chunk chunk) as [e|hc]; [naive_solver|].
    set (x := set_seal _ _ _ _) in Eh. pose proof (Hproc x) as Hx. destruct (session_process x) as [s2 out].
    apply append_ok in Ea as (_ & l & Hn & Hw & ->). simpl in Hx.
    assert (s' = unseal_after_failure is_dir s2) as -> by (destruct out; naive_solver).
    destruct (unseal_files is_dir s2) as (Hu1 & Hu2 & Hu3). split; [done|].
    assert (original_files s2 = dupdate (original_files s) l) as Hs2 by exact Hx.
    eexists. split; [apply append_ok; split; [done|]; exists l; split; [done|]; split; [|reflexivity]|].
    + by rewrite Hu1, Hs2, dupdate_idem.
    + cbn [original_files working_files set_files ss_kept ss_run kp_original_files ru_working_files].
      by rewrite Hu1, Hu2, Hs2, dupdate_idem.
Qed.

End Upload.

(** ** What a payload hash identifies *)

Definition NUL : ascii := zero.

Definition char_bytes (c : ascii) : list Z :=
  let n := Z.of_N (code c) in
  if n <? 128 then [n] else [Z.lor 0xC0 (Z.shiftr n 6); Z.lor 0x80 (Z.land n 0x3F)].

Lemma utf8_cons c s : utf8 (String c s) = (char_bytes c ++ utf8 s)%list.
Proof. unfold char_bytes. simpl. by case_match. Qed.

(** The encodings of two characters differ and none is a prefix of the other. *)
Definition clash (c d : ascii) : bool :=
  bool_decide (c = d) ||
  match char_bytes c, char_bytes d with
  | [x], [y] => negb (x =? y)
  | [x], [y; _] | [x; _], [y] => negb (x =? y)
  | [x; x'], [y; y'] => negb ((x =? y) && (x' =? y'))
  | _, _ => false
  end.

Lemma clash_all c d : clash c d = true.
Proof.
  assert (∀ c, forallb (λ n, clash c (ascii_of_nat n)) (seq 0 256) = true) as Hc.
  { apply ascii_all. vm_compute. reflexivity. }
  specialize (Hc c). revert d. apply ascii_all. exact Hc.
Qed.

Lemma char_bytes_inv c d r r' : (char_bytes c ++ r = char_bytes d ++ r')%list → c = d ∧ r = r'.
Proof.
  intros He. pose proof (clash_all c d) as Hc. unfold clash in Hc.
  destruct (bool_decide_reflect (c = d)) as [->|Hne]; [split; [done|by apply app_inv_head in He]|].
  exfalso. simpl in Hc. revert He Hc. unfold char_bytes.
  repeat case_match; simpl; try done; intros He Hc; simplify_eq/=; lia.
Qed.

Lemma utf8_inj a b : utf8 a = utf8 b → a = b.
Proof.
  revert b. induction a as [|c a IH]; intros b.
  - destruct b as [|d b]; [done|]. rewrite utf8_cons. unfold char_bytes. by case_match.
  - destruct b as [|d b]; rewrite ?utf8_cons; [unfold char_bytes; by case_match|].
    intros [-> ->%IH]%char_bytes_inv. done.
Qed.

Lemma utf8_nonzero s : free_of NUL s → 0 ∉ utf8 s.
Proof.
  assert (∀ c, c ≠ NUL → 0 ∉ char_bytes c) as Hc.
  { assert (∀ c, bool_decide (c = NUL) || forallb (λ x, negb (x =? 0)) (char_bytes c) = true) as H.
    { apply ascii_all. vm_compute. reflexivity. }
    intros c Hne Hin. specialize (H c). rewrite bool_decide_eq_false_2 in H by done. simpl in H.
    rewrite forallb_forall in H. by specialize (H 0 (proj1 (list_elem_of_In _ _) Hin)). }
  unfold free_of. induction s as [|c s IH]; [set_solver|]. cbn [sforall].
  rewrite andb_true_iff, bool_decide_eq_true, utf8_cons, elem_of_app. naive_solver.
Qed.

Lemma raw_bytes_nonzero s : free_of NUL s → 0 ∉ raw_bytes s.
Proof.
  unfold free_of. induction s as [|c s IH]; simpl; [set_solver|].
  rewrite andb_true_iff, bool_decide_eq_true. intros [Hc Hs] [Hz|Hin]%elem_of_cons; [|by apply IH].
  apply Hc. assert (code c = 0%N) as H0 by lia. unfold code in H0.
  rewrite <- (ascii_N_embedding c), H0. done.
Qed.

Lemma raw_bytes_inj a b : raw_bytes a = raw_bytes b → a = b.
Proof.
  revert b. induction a as [|c a IH]; intros [|d b]; simpl; try done.
  intros [= Hc Hab%IH]. subst. f_equal. assert (code c = code d) as Hcd by lia.
  unfold code in Hcd. by rewrite <- (ascii_N_embedding c), Hcd, ascii_N_embedding.
Qed.

Lemma split_at_zero (a b r r' : list Z) :
  0 ∉ a → 0 ∉ b → (a ++ 0 :: r = b ++ 0 :: r')%list → a = b ∧ r = r'.
Proof.
  revert b. induction a as [|x a IH]; intros [|y b] Ha Hb; simpl; intros He.
  1-3: simplify_eq; set_solver.
  injection He as -> He. destruct (IH b) as [-> ->]; [set_solver|set_solver|done|done].
Qed.

(** The encoded pairs. *)
Definition encode_pairs (l : list (string * string)) : list Z :=
  concat ((λ p, utf8 p.1 ++ [0] ++ raw_bytes p.2 ++ [0])%list <$> l).

Definition nul_free (d : list (string * string)) : Prop :=
  Forall (λ p, free_of NUL p.1 ∧ free_of NUL p.2) d.

Lemma encode_pairs_inj l1 l2 : nul_free l1 → nul_free l2 → encode_pairs l1 = encode_pairs l2 → l1 = l2.
Proof.
  intros H1. revert l2. induction H1 as [|[p c] l1 [Hp Hc] _ IH]; intros l2 H2;
    destruct l2 as [|[p' c'] l2]; unfold encode_pairs; csimpl; [done| | |].
  1-2: intros He; apply (f_equal length) in He; rewrite !length_app in He; simpl in He; lia.
  apply Forall_cons in H2 as [[Hp' Hc'] H2]. simpl in *. rewrite <- !app_assoc. simpl.
  intros He. apply split_at_zero in He as [->%utf8_inj He]; [|by apply utf8_nonzero..].
  rewrite <- !app_assoc in He. simpl in He.
  apply split_at_zero in He as [->%raw_bytes_inj He]; [|by apply raw_bytes_nonzero..].
  f_equal. by apply IH.
Qed.

(** The pairs in the order of the digest. *)
Definition sorted_pairs (d : list (string * string)) : list (string * string) :=
  (λ p, (p, default "" (dget p d))) <$> sort_by String.leb d.*1.

Lemma upload_preimage_pairs d : upload_preimage d = encode_pairs (sorted_pairs d).
Proof. unfold upload_preimage, encode_pairs, sorted_pairs. by rewrite <- list_fmap_compose. Qed.

Lemma dget_pairs (d : list (string * string)) : NoDup d.*1 → (λ p, (p, default "" (dget p d))) <$> d.*1 = d.
Proof.
  intros Hnd. rewrite <- list_fmap_compose. rewrite <- (list_fmap_id d) at 2.
  apply list_fmap_ext. intros i [p c] Hi. simpl.
  by rewrite (dget_elem p c) by (done || by eapply list_elem_of_lookup_2).
Qed.

Lemma sorted_pairs_perm d : NoDup d.*1 → sorted_pairs d ≡ₚ d.
Proof. intros Hnd. unfold sorted_pairs. rewrite sort_by_perm. by rewrite dget_pairs. Qed.

Lemma sort_by_unique l1 l2 : l1 ≡ₚ l2 → sort_by String.leb l1 = sort_by String.leb l2.
Proof.
  intros Hp. apply (StronglySorted_unique_strong (λ a b, String.leb a b = true)).
  - intros x y _ _ Hxy Hyx. by apply String.leb_antisym.
  - apply sort_by_sorted; [apply string_leb_total|apply string_leb_trans].
  - apply sort_by_sorted; [apply string_leb_total|apply string_leb_trans].
  - by rewrite !sort_by_perm.
Qed.

Lemma dget_perm (d1 d2 : list (string * string)) p : NoDup d1.*1 → d1 ≡ₚ d2 → dget p d1 = dget p d2.
Proof.
  intros Hnd Hp. assert (NoDup d2.*1) as Hnd2 by (by rewrite <- Hp).
  destruct (dget p d2) as [c|] eqn:E2.
  - apply dget_elem; [done|]. rewrite Hp. by apply dget_Some_elem.
  - apply dget_None. rewrite Hp. by apply dget_None.
Qed.

(** The digest of a payload is taken over a text that determines it: for paths and
    contents without NUL bytes, two payloads have the same text exactly when they hold the
    same files, in whatever order they were uploaded. *)
Theorem upload_hash_exact d1 d2 :
  NoDup d1.*1 → NoDup d2.*1 → nul_free d1 → nul_free d2 →
  upload_preimage d1 = upload_preimage d2 ↔ d1 ≡ₚ d2.
Proof.
  intros Hn1 Hn2 Hf1 Hf2. rewrite !upload_preimage_pairs. split.
  - intros He. rewrite <- (sorted_pairs_perm d1), <- (sorted_pairs_perm d2) by done.
    apply encode_pairs_inj in He; [by rewrite He| |]; unfold nul_free; by rewrite sorted_pairs_perm.
  - intros Hp. f_equal. unfold sorted_pairs. rewrite (sort_by_unique d1.*1 d2.*1) by (by rewrite Hp).
    apply list_fmap_ext. intros i p _. by rewrite (dget_perm d1 d2).
Qed.

(** ** Examples *)

Module UploadDemo.
(** Caps of ten bytes and three files. *)
Definition env0 : environ :=
  [("APME_SESSION_MAX_UPLOAD_BYTES", "10"); ("APME_SESSION_MAX_UPLOAD_FILES", "3")].

Definition chunk (files : list (string * string)) (last : bool) : @ScanChunk unit :=
  MkScanChunk "" "" None None ((λ p, MkFile p.1 p.2) <$> files) last.

Definition session0 : @SessionState unit := new_session "s" 0.

Example paths_normalized :
  normalize_upload_path <$> ["./a//b.yml"; "a\..\b.yml"; "/etc/passwd"; "a/../../b"; "a/.."; ""]
  = [Some "a/b.yml"; Some "b.yml"; Some "etc/passwd"; None; None; None].
Proof. vm_compute. reflexivity. Qed.

Lemma upload_path_confined_witness : Forall entry_name (split_on SEP "a/b.yml").
Proof. by apply (proj2 (upload_path_confined "./a//b.yml") "a/b.yml"). Defined.

(** A replaced file and a new one. *)
Definition payload : list (@ScanChunk unit) :=
  [chunk [("a.yml", "12345678")] false; chunk [("./a.yml", "1"); ("b.yml", "12345")] true].

Lemma ingress_agreement_witness :
  ∃ s', append_chunks env0 session0 payload = inr s' ∧ original_files s' = [("a.yml", "1"); ("b.yml", "12345")].
Proof.
  edestruct (proj1 (ingress_agreement env0 payload session0 eq_refl eq_refl)) as (s' & Hs & Hf);
    [vm_compute; reflexivity|].
  exists s'. split; [exact Hs|exact Hf].
Defined.

Lemma scan_chunking_invisible_witness :
  let files := [MkFile "a.yml" "123"; MkFile "r/b.yml" "45"; MkFile "c" "6"] in
  accumulate_chunks env0 new_acc (yield_scan_chunks "scan" "p" tt 8 files)
  = accumulate_chunk env0 new_acc (MkScanChunk "scan" "p" (Some tt) None files true).
Proof.
  apply (scan_chunking_invisible env0 "scan" "p" tt 8 _ [("a.yml", "123"); ("r/b.yml", "45"); ("c", "6")]).
  - vm_compute. reflexivity.
  - apply (bool_decide_unpack _). vm_compute. exact I.
Defined.

Lemma terminal_chunk_protocol_witness :
  ∃ s' s'', handle_upload env0 (λ _, false) (λ x, (x, ProcessRaised)) session0 (chunk [("a", "1")] true)
              = (s', Processed ProcessRaised) ∧
    session_upload_append env0 s' (chunk [("a", "1")] true) = inr s'' ∧
    working_files s'' = [("a", "1")].
Proof.
  pose proof (terminal_chunk_protocol env0 (λ _, false) (λ x, (x, ProcessRaised)) session0
    (chunk [("a", "1")] true) (λ _, eq_refl)) as H.
  destruct (handle_upload _ _ _ _ _) as [s' r] eqn:Eh. destruct H as [_ H].
  assert (r = Processed ProcessRaised ∧ original_files s' = [("a", "1")]) as [-> Ho].
  { vm_compute in Eh. by injection Eh as <- <-. }
  destruct (H (or_intror eq_refl)) as (_ & s'' & H1 & _ & H2). exists s', s''.
  split; [reflexivity|]. split; [exact H1|]. by rewrite H2.
Defined.

Lemma upload_hash_exact_witness :
  upload_preimage [("a", "x"); ("b", "y")] = upload_preimage [("b", "y"); ("a", "x")].
Proof.
  apply (upload_hash_exact [("a", "x"); ("b", "y")] [("b", "y"); ("a", "x")]).
  1-2: apply (bool_decide_unpack _); vm_compute; exact I.
  1-2: repeat constructor.
  constructor.
Defined.
End UploadDemo.

(** *** Where the two ingress paths part

    The check of [_accumulate_chunks] after each file counts a new file before the file it
    makes room for is replaced. *)

(** A payload that a session accepts and a streaming scan refuses. *)
Theorem ingress_admission_differs :
  let chunks := [UploadDemo.chunk [("a.yml", "12345678")] false;
                 UploadDemo.chunk [("b.yml", "12345"); ("a.yml", "1")] true] in
  accumulate_chunks UploadDemo.env0 new_acc chunks = inl (TooManyBytes 13) ∧
  ∃ s', append_chunks UploadDemo.env0 UploadDemo.session0 chunks = inr s' ∧
    original_files s' = [("a.yml", "1"); ("b.yml", "12345")].
Proof. split; [vm_compute; reflexivity|]. eexists. split; vm_compute; reflexivity. Qed.

(** *** Where the payload hash is ambiguous *)

(** One file whose content holds NUL bytes and two files have the same digest: the
    retried terminal chunk is taken for a duplicate although its files differ. *)
Theorem upload_hash_ambiguous :
  let one := [("a", "x" +:+ String NUL ("b" +:+ String NUL "y"))] in
  let two := [("a", "x"); ("b", "y")] in
  one ≠ two ∧ hash_upload_files one = hash_upload_files two ∧
  let s := set_seal true (hash_upload_files one) (hash_upload_files one)
             (set_files one one UploadDemo.session0) in
  handle_upload UploadDemo.env0 (λ _, false) (λ x, (x, ProcessOk)) s (UploadDemo.chunk two true)
  = (s, Replayed).
Proof. split; [done|]. split; vm_compute; reflexivity. Qed.
